(* ===== verification/_CoqProject ===== *)
-Q . S2P
Prelude.v
GoStrings.v
NetAddr.v
GoTime.v
NetUrl.v
Hashutil.v
Chan.v
Frame.v
Quota.v
Client.v
ClientConc.v
Shard.v
Hub.v
HubSpec.v
HubBroadcast.v
HubRevoke.v
HubRun.v
HubConc.v
Router.v
Aes.v
Base64.v
Crypto.v
Json.v
JsonParse.v
JsonDecode.v
JsonCompact.v
HttpClient.v
Bus.v
EventJson.v
Lanes.v
Pipeline.v
Auth.v
ApiHttp.v
Mux.v
ApiHandlers.v
Server.v
HubIso.v
Probes.v
Health.v
Tlsconf.v
Valkey.v
Wire.v
System.v
Logging.v
Config.v
Metrics.v
ApiRouter.v
Startup.v
Process.v
Boot.v
