(* ===== verification/Prelude.v ===== *)
(** * A verification library of the SSE gateway

    The gateway (Go, cmd/ and internal/) receives encrypted events from a bus,
    decrypts each one only if somebody on this instance listens to it, and
    streams the result over Server-Sent Events to the browsers whose ticket
    grants the event's tenant, application and topic.

    ** The program and the files that model it

    A request enters through internal/api: middlewares, client address and rate
    limit ([ApiHttp.v]: helpers.go, middleware.go, ratelimit.go),
    then the routes ([ApiRouter.v]: router.go and the handlers' construction),
    then [Events] and [admit] ([ApiHandlers.v]: handlers.go), or the probes
    ([Probes.v]: [Healthz], [Readyz], with the checkers of [Health.v]:
    internal/health).  [admit] asks the ticket validator
    ([Auth.v]: internal/auth) and registers the connection in the hub.

    The hub (internal/hub) is a registry of connections sharded by routing key:
    [Quota.v] (quota.go), [Client.v] and [ClientConc.v] (client.go, method by
    method and cut at its atomic operations), [Frame.v] (frame.go), [Shard.v]
    (shard.go), [Hashutil.v] (internal/hashutil), [Hub.v] and [HubConc.v]
    (hub.go, method by method and cut at its atomic operations).  The hub's
    state is a record of shards, quotas and a store of the mutable part of each
    client by pointer; a method is a function in the monad [M] below.

    An event enters through a bus: [Bus.v] (internal/bus and bus/memory) or
    [Valkey.v] (bus/valkey), from its JSON text ([EventJson.v]: the tags of
    bus.go).  The consumer of cmd/server/main.go filters it,
    handles revocations and hands it to a lane ([Lanes.v]: event/lane.go,
    [Router.v]: event/router.go for the keys); the lane's worker calls the
    processor ([Pipeline.v]: internal/pipeline), which asks the key service
    ([HttpClient.v]: crypto/httpclient), decrypts ([Crypto.v]: internal/crypto)
    and broadcasts; [Wire.v] follows an event from its bytes on the bus to the
    value a subscriber reads.  [Startup.v] is main.go from the command line and
    the environment to the running goroutines ([Config.v]: internal/config,
    [Metrics.v]: internal/metrics, [Tlsconf.v], [Logging.v]); [System.v] is
    main.go's consumer and shutdown, [Server.v] the requests, and [Process.v]
    runs both on one hub with the rest of main.go: signals, the HTTP server's
    life, readiness, heartbeat, the queue sampler, the exit.  [Boot.v] is that
    process as [Startup.v] leaves it.

    Some files hold the parts of the language and of its standard library the
    sources call: [GoStrings.v] (strings, integers as text), [GoTime.v]
    (durations as text), [NetAddr.v] (addresses and networks), [NetUrl.v] (URLs
    and queries), [Mux.v] (the request multiplexer), [Chan.v] (buffered
    channels), [Base64.v], [Aes.v] (AES-256-GCM), [Json.v] (JSON output), [JsonParse.v] (the JSON parser and
    the printer it inverts), [JsonDecode.v] (decoding into structs),
    [JsonCompact.v] (compaction keeps the value).

    ** Conventions

    A Go string or byte slice is a list of bytes ([gostring]).  A stateful
    method is an [M S A]: from a state, a result and a state, or [None] for a
    panic.  An error is a [result]; each package's errors are the constructors
    of a type.  Machine integers are [Z], with the wrap-around written where the
    source relies on a width ([Fnv32a], [ShardIndex], the binary envelope, the
    back-off).  Durations are nanoseconds.  Where the source ranges over a map,
    the order is any [GoRange].  The interfaces of the source are classes:
    [KeyUnwrapper] (with the promise its clients rely on, discharged by the
    HTTP client and by the mock) and [TicketValidator] (discharged by the JWT
    validator); [Prometheus] states what the metrics library documents.

    Concurrency is interleaving of the stretches between atomic operations:
    [ClientConc.v] (queue of one connection), [HubConc.v] (registrations,
    revocations, broadcasts and closing of the hub), [Lanes.v] (callers, workers,
    [Close]), [Probes.v] (readiness cache), [Valkey.v] (subscription loop),
    [Server.v] (requests, broadcasts, revocations, heartbeats), [System.v] (the
    event side), [Process.v] (all of them together).  Hub methods are single
    steps in [Server.v], [System.v] and [Process.v]; what
    holds when they overlap is the subject of [HubConc.v], where each lock of a
    shard or of the quotas and each operation on a flag is a step.

    ** The theorems

    - Confidentiality: the key is erased on every path ([Pipeline]); nothing is
      decrypted for nobody ([HubBroadcast], [Pipeline]); the key client returns
      32 fresh bytes or an error ([HttpClient]); what is logged does not depend
      on secrets ([Logging]); a production start cannot use a simulated driver
      nor skip TLS verification ([Startup]).
    - Isolation: routing keys separate tenants ([Router]), the additional data
      binds a ciphertext to its context ([Crypto]), an accepted ticket is what
      its claims say ([Auth]), and under any interleaving an event reaches only
      requests whose own ticket grants it ([Server.tenant_isolation]), also when
      the hub's calls overlap ([HubIso.isolation_under_races]).  A message cannot
      choose its routing key ([EventJson.decoded_event_typed]), a client cannot
      choose its address ([ApiHttp]).
    - The registry: [HubSpec.v] refines the sharded hub to a set of live
      connections; quotas, revocation, fan-out and shutdown are stated on that
      set ([Quota], [HubRevoke], [HubBroadcast], [HubRun]); requests give back
      everything they took ([Server]).  With overlapping calls the quotas stay
      exact ([HubConc.quota_exact_under_races]); the shards do only if
      revocations and registrations of a user exclude each other
      ([HubConc.exclusion_restores_registry]), which the code does not ensure
      ([HubConc.registration_survives_revocation]).
    - Streams: frames parse back to the intended events ([Frame]), one event
      per decrypted payload ([Pipeline]), queues are bounded and in order
      ([ClientConc]); what a producer marshals is what the gateway decodes
      ([EventJson.event_wire_roundtrip]) and what a subscriber reads
      ([Wire.wire_to_browser]).
    - Order and shutdown: per-key order from the bus to the processor, no
      panic, no event lost when the lanes drain in time, no deadlock
      ([System]).
    - The whole process ([Boot]): from any accepted configuration it refines
      both [System] and [Server] on one hub; after the signal nobody gets in;
      a drained HTTP server leaves nothing behind; the exit codes, with the hub
      closed and every remaining connection told before a normal exit;
      readiness answers are the dependencies' answers.
    - Errors and bounds: which configurations load ([Config]), how the program
      can end before serving ([Startup.main_outcomes]), which paths are served
      ([ApiRouter]), that the metrics register ([Metrics]), how the bus
      reconnects ([Valkey]), how often readiness probes run ([Probes], [Boot]).
    - Some theorems record what the code does against its documentation:
      [Router.key_collisions], [Crypto.aad_separator_ambiguity],
      [Quota.user_quota_crosses_tenants], [HubBroadcast.heartbeat_disconnects_idle],
      [HttpClient.broken_read_leaves_key_bytes], [Lanes.queue_depth_may_be_negative],
      [ApiHttp.write_deadline_never_set], [Auth.ticket_without_app_accepted],
      [Logging.renamed_ticket_is_logged], [Logging.query_attr_is_logged],
      [Startup.bad_paths_panic], [HubConc.registration_survives_revocation],
      [Process.open_stream_forces_close].

    ** Fuel and bounds

    Recursion is structural except for [Router.parse_items] and [Aes.blocks]
    (the length of the text is enough: each round consumes a byte;
    [Router.NewRouter_total] proves it), [JsonParse.parse_value] (twice the
    length and one: [JsonParse.parse_value_fuel] shows more fuel changes
    nothing), [GoTime.parse_terms] (the length: every term has a byte),
    [NetAddr.v6_groups] (an address has eight groups), [Aes.expand] (the number
    of words of the schedule) and [ClientConc.solo], whose loop runs at most as
    long as the queue ([enqueue_backpressure] proves it returns).  [Server.v],
    [System.v] and [Boot.v] ask that the numbers of shards and lanes be below 2^32: the
    source reduces them to 32 bits before dividing.

    ** Not modelled

    Third-party and system code is a parameter: the JWT library, X.509 and PEM
    parsing, the Valkey client, the Prometheus client, the token bucket, files
    and certificates.  Of the standard library, net/http's client, the authority
    of an absolute URL and [strconv.ParseFloat] are parameters; of net/http's
    server only the arrival of requests, [Shutdown] and [Close] are kept, without
    time; slog's handlers are left out; letters outside ASCII have no case, and
    are left out of the wildcard names of [Mux.v].  Process hardening (two system
    calls whose failures are logged), log lines, the handshake deadline (no
    validator looks at its context) and the times of the histograms are left out;
    the counters the program drives are part of the states.  tests/ and testutil/
    are not part of the server, except the producer's [json.Marshal] of an event.
    The handlers of [Process.v] call the hub's methods whole; that isolation and
    quotas survive overlapping methods is proved in [HubIso.v] and [HubConc.v],
    on the methods alone. *)

From stdpp Require Export gmap strings list fin_maps sorting.
From Stdlib Require Export Ascii ZArith Lia.

(** ** Bytes and strings

    A Go [string] and a Go [[]byte] are both finite sequences of bytes; a byte
    is an [ascii] (eight bits).  [str] turns a literal into such a sequence. *)
Abbreviation gostring := (list ascii).

Definition str (s : string) : gostring := String.list_ascii_of_string s.

Definition byte_val (c : ascii) : Z := Z.of_N (N_of_ascii c).
Definition byte_of (z : Z) : ascii := ascii_of_N (Z.to_N (z mod 256)).

Definition LF : ascii := byte_of 10.
Definition CR : ascii := byte_of 13.
Definition DQUOTE : ascii := byte_of 34.
Definition BACKSLASH : ascii := byte_of 92.

Lemma byte_val_range c : (0 ≤ byte_val c < 256)%Z.
Proof. unfold byte_val. pose proof (N_ascii_bounded c). lia. Qed.

Lemma byte_of_val c : byte_of (byte_val c) = c.
Proof.
  unfold byte_of. rewrite Z.mod_small by apply byte_val_range.
  unfold byte_val. rewrite N2Z.id. apply ascii_N_embedding.
Qed.

Lemma byte_val_of z : byte_val (byte_of z) = (z mod 256)%Z.
Proof.
  unfold byte_val, byte_of. pose proof (Z.mod_pos_bound z 256).
  rewrite N_ascii_embedding by lia. lia.
Qed.

(** A property of bytes holds when it holds of the 256 byte values. *)
Lemma byte_forall (P : ascii → Prop) :
  Forall (λ z, P (byte_of z)) (seqZ 0 256) → ∀ c, P c.
Proof.
  rewrite Forall_forall. intros H c. rewrite <- (byte_of_val c). apply H.
  apply elem_of_seqZ. pose proof (byte_val_range c). lia.
Qed.

(** ** Fallible computations

    Go's [(value, error)] results. *)
Inductive result (E A : Type) : Type :=
| Ok (a : A)
| Err (e : E).
Arguments Ok {E A} a.
Arguments Err {E A} e.

Global Instance result_ret {E} : MRet (result E) := λ A a, Ok a.
Global Instance result_bind {E} : MBind (result E) := λ A B f m,
  match m with Ok a => f a | Err e => Err e end.
Global Instance result_fmap {E} : FMap (result E) := λ A B f m,
  match m with Ok a => Ok (f a) | Err e => Err e end.

Definition is_ok {E A} (r : result E A) : bool :=
  match r with Ok _ => true | Err _ => false end.

(** ** Stateful computations that may panic

    [M S A] threads the shared state [S]; [None] is a Go run-time panic (index
    out of range, division by zero, send on a closed channel). *)
Definition M (S A : Type) : Type := S → option (A * S).

Global Instance M_ret {S} : MRet (M S) := λ A a s, Some (a, s).
Global Instance M_bind {S} : MBind (M S) := λ A B k m s,
  match m s with
  | Some (a, s') => k a s'
  | None => None
  end.
Definition gets {S A} (f : S → A) : M S A := λ s, Some (f s, s).
Definition modify {S} (f : S → S) : M S unit := λ s, Some (tt, f s).
Definition panic {S A} : M S A := λ _, None.

(** [for _, x := range l { body }] over a slice (or a snapshot). *)
Fixpoint for_range {S A} (l : list A) (body : A → M S unit) : M S unit :=
  match l with
  | [] => mret tt
  | x :: l' => body x ;; for_range l' body
  end.

(** *** Total-correctness triples

    [wp m Q s]: from state [s], [m] does not panic and ends with a value and a
    state that satisfy [Q]. *)
Definition wp {S A} (m : M S A) (Q : A → S → Prop) (s : S) : Prop :=
  match m s with
  | Some (a, s') => Q a s'
  | None => False
  end.

Section wp_rules.
Context {S : Type}.
Implicit Types s : S.

Lemma wp_ret {A} (a : A) Q s : Q a s → wp (mret a) Q s.
Proof. done. Qed.

Lemma wp_gets {A} (f : S → A) Q s : Q (f s) s → wp (gets f) Q s.
Proof. done. Qed.

Lemma wp_modify (f : S → S) Q s : Q tt (f s) → wp (modify f) Q s.
Proof. done. Qed.

Lemma wp_bind {A B} (m : M S A) (k : A → M S B) Q s :
  wp m (λ a s', wp (k a) Q s') s → wp (m ≫= k) Q s.
Proof. unfold wp, mbind, M_bind. by destruct (m s) as [[a s']|]. Qed.
Lemma M_bind_inv {A B} (m : M S A) (k : A → M S B) s b s' :
  (m ≫= k) s = Some (b, s') → ∃ a s1, m s = Some (a, s1) ∧ k a s1 = Some (b, s').
Proof. unfold mbind, M_bind. destruct (m s) as [[a s1]|]; [eauto|done]. Qed.

Lemma wp_mono {A} (m : M S A) (Q Q' : A → S → Prop) s :
  wp m Q s → (∀ a s', Q a s' → Q' a s') → wp m Q' s.
Proof. unfold wp. destruct (m s) as [[a s']|]; naive_solver. Qed.

Lemma wp_run {A} (m : M S A) Q s :
  wp m Q s → ∃ a s', m s = Some (a, s') ∧ Q a s'.
Proof. unfold wp. destruct (m s) as [[a s']|]; naive_solver. Qed.

Lemma wp_of_run {A} (m : M S A) (Q : A → S → Prop) s a s' :
  m s = Some (a, s') → Q a s' → wp m Q s.
Proof. unfold wp. by intros ->. Qed.

(** Loop rule: an invariant indexed by the elements already done. *)
Lemma wp_for_range {A} (l : list A) (body : A → M S unit)
    (I : list A → S → Prop) s (Q : unit → S → Prop) :
  I [] s →
  (∀ done x rest s', l = done ++ x :: rest → I done s' →
     wp (body x) (λ _ s'', I (done ++ [x]) s'') s') →
  (∀ s', I l s' → Q tt s') →
  wp (for_range l body) Q s.
Proof.
  intros H0 Hstep HQ.
  assert (∀ rest done s', l = done ++ rest → I done s' →
            wp (for_range rest body) (λ _ s'', I l s'') s') as Hgen.
  { induction rest as [|x rest IH]; intros done s' Heq HI; simpl.
    - apply wp_ret. subst l. by rewrite app_nil_r.
    - apply wp_bind. eapply wp_mono; [by eapply Hstep|].
      intros ? s'' HI''. apply (IH (done ++ [x])); [|done].
      by rewrite <- (assoc_L (++)). }
  eapply wp_mono; [by apply (Hgen l [] s)|].
  intros [] s' HI. by apply HQ.
Qed.
End wp_rules.

Create HintDb go_wp.
#[export] Hint Resolve wp_ret wp_gets wp_modify : go_wp.

(** Symbolic execution of straight-line code. *)
Ltac wp_step :=
  match goal with
  | |- wp (_ ≫= _) _ _ => apply wp_bind
  | |- wp (mret _) _ _ => apply wp_ret
  | |- wp (gets _) _ _ => apply wp_gets
  | |- wp (modify _) _ _ => apply wp_modify
  | |- wp (if ?b then _ else _) _ _ => destruct b eqn:?
  | |- wp (match ?x with _ => _ end) _ _ => destruct x eqn:?
  end.
Ltac wp_steps := repeat (wp_step; cbn beta iota).

(** Decide a closed proposition by running its decision procedure. *)
Ltac by_decide := apply (bool_decide_unpack _); vm_compute; exact I.

(** ** Counting in lists *)
Section count.
Context {A : Type} (P : A → Prop) `{!∀ x, Decision (P x)}.

Definition count (l : list A) : nat := length (filter P l).

Lemma count_nil : count [] = 0.
Proof. done. Qed.

Lemma count_cons x l : count (x :: l) = (if decide (P x) then 1 else 0) + count l.
Proof. unfold count. rewrite filter_cons. by case_decide. Qed.

Lemma count_app l1 l2 : count (l1 ++ l2) = count l1 + count l2.
Proof. unfold count. by rewrite filter_app, length_app. Qed.

Lemma count_perm l1 l2 : l1 ≡ₚ l2 → count l1 = count l2.
Proof. unfold count. by intros ->. Qed.

Lemma count_le l : count l ≤ length l.
Proof. unfold count. apply length_filter. Qed.

Lemma count_pos_elem l : 0 < count l ↔ ∃ x, x ∈ l ∧ P x.
Proof.
  unfold count. split.
  - destruct (filter P l) as [|x l'] eqn:E; simpl; [lia|]. intros _.
    assert (x ∈ filter P l) as Hx by (rewrite E; left).
    apply list_elem_of_filter in Hx. naive_solver.
  - intros (x & Hx & HP). assert (x ∈ filter P l) as Hin by by apply list_elem_of_filter.
    destruct (filter P l); simpl; [by apply elem_of_nil in Hin|lia].
Qed.
End count.

(** Replacing one element of a list. *)
Lemma count_insert {A} (P : A → Prop) `{!∀ x, Decision (P x)} (l : list A) i x y :
  l !! i = Some x →
  count P (<[i := y]> l) + (if decide (P x) then 1 else 0) = count P l + (if decide (P y) then 1 else 0).
Proof.
  intros Hx. rewrite insert_take_drop by (by eapply lookup_lt_Some).
  rewrite <- (take_drop_middle _ _ _ Hx) at 3. rewrite !count_app, !count_cons. lia.
Qed.

Lemma elem_of_insert {A} (l : list A) i y z : z ∈ <[i := y]> l → z = y ∨ z ∈ l.
Proof.
  intros (j & Hj)%list_elem_of_lookup. apply list_lookup_insert_Some in Hj as [(-> & <- & _)|[_ Hj]]; [by left|].
  right. by eapply list_elem_of_lookup_2.
Qed.

Lemma count_mono {A} (P Q : A → Prop) `{!∀ x, Decision (P x), !∀ x, Decision (Q x)} l :
  (∀ x, x ∈ l → P x → Q x) → count P l ≤ count Q l.
Proof.
  induction l as [|x l IH]; intros HPQ; [done|].
  rewrite !count_cons.
  assert (count P l ≤ count Q l) by (apply IH; set_solver).
  destruct (decide (P x)), (decide (Q x)); try lia.
  exfalso. set_solver.
Qed.

Lemma count_ext {A} (P Q : A → Prop) `{!∀ x, Decision (P x), !∀ x, Decision (Q x)} l :
  (∀ x, x ∈ l → P x ↔ Q x) → count P l = count Q l.
Proof.
  intros HPQ. apply Nat.le_antisymm; apply count_mono; naive_solver.
Qed.

(** ** Go maps

    Iterating over a Go map yields its entries once each, in an order the
    language leaves unspecified.  [GoRange] is such an order; every theorem of
    the library holds for all of them. *)
Class GoRange := {
  range_map {V : Type} : gmap gostring V → list (gostring * V);
  range_map_perm {V : Type} (m : gmap gostring V) : range_map m ≡ₚ map_to_list m;
}.

(** One concrete order, for evaluating the definitions. *)
Definition range_canonical : GoRange :=
  {| range_map V m := map_to_list m; range_map_perm V m := reflexivity _ |}.

Section range.
Context `{!GoRange} {V : Type}.
Implicit Types m : gmap gostring V.

Lemma elem_of_range_map m k v : (k, v) ∈ range_map m ↔ m !! k = Some v.
Proof. rewrite range_map_perm. apply elem_of_map_to_list. Qed.

Lemma NoDup_fst_range_map m : NoDup (range_map m).*1.
Proof. rewrite range_map_perm. apply NoDup_fst_map_to_list. Qed.

Lemma elem_of_range_values m v : v ∈ (range_map m).*2 ↔ ∃ k, m !! k = Some v.
Proof.
  rewrite list_elem_of_fmap. split.
  - intros ([k v'] & -> & Hk). exists k. by apply elem_of_range_map.
  - intros (k & Hk). exists (k, v). split; [done|]. by apply elem_of_range_map.
Qed.
End range.

Lemma NoDup_fst_filter {A B} (P : A * B → Prop) `{!∀ x, Decision (P x)} (l : list (A * B)) :
  NoDup l.*1 → NoDup (filter P l).*1.
Proof.
  induction l as [|[a b] l IH]; intros Hnd; [done|].
  rewrite fmap_cons, NoDup_cons in Hnd. destruct Hnd as [Ha Hnd].
  rewrite filter_cons. case_decide; [|by apply IH].
  rewrite fmap_cons, NoDup_cons. split; [|by apply IH].
  intros ([a' b'] & Heq & Hin)%list_elem_of_fmap. simpl in Heq. subst a'.
  apply list_elem_of_filter in Hin as [_ Hin]. apply Ha.
  apply list_elem_of_fmap. by exists (a, b').
Qed.

Lemma sublist_filter_fmap {A B} (f : A → B) (P : A → Prop) `{!∀ x, Decision (P x)} (l : list A) :
  f <$> filter P l `sublist_of` f <$> l.
Proof.
  induction l as [|x l IH]; [done|]. rewrite filter_cons. case_decide; rewrite !fmap_cons.
  - by constructor.
  - by constructor.
Qed.

Lemma filter_ext_in {A} (P Q : A → Prop) `{!∀ x, Decision (P x), !∀ x, Decision (Q x)} (l : list A) :
  (∀ x, x ∈ l → P x ↔ Q x) → filter P l = filter Q l.
Proof.
  induction l as [|x l IH]; intros HPQ; [done|]. rewrite !filter_cons.
  destruct (HPQ x) as [HP HQ]; [left|]. rewrite IH by (intros y Hy; apply HPQ; by right).
  repeat case_decide; tauto.
Qed.

Lemma filter_all {A} (P : A → Prop) `{!∀ x, Decision (P x)} (l : list A) :
  Forall P l → filter P l = l.
Proof. induction 1; [done|]. rewrite filter_cons_True by done. by f_equal. Qed.

(** ** Sums over lists, under an update *)
Lemma sum_list_with_insert {A} (f : A → nat) (l : list A) i x y :
  l !! i = Some x → sum_list_with f (<[i := y]> l) + f x = sum_list_with f l + f y.
Proof.
  revert i. induction l as [|z l IH]; intros [|i]; simpl; intros H; simplify_eq; [lia|].
  specialize (IH _ H). lia.
Qed.

Lemma sum_list_with_lookup {A} (f : A → nat) (l : list A) i x :
  l !! i = Some x → f x ≤ sum_list_with f l.
Proof.
  revert i. induction l as [|z l IH]; intros [|i]; simpl; intros H; simplify_eq; [lia|].
  specialize (IH _ H). lia.
Qed.
