(* ===== verification/GoStrings.v ===== *)
(** * The Go string functions the gateway calls

    Package [strings] ([ReplaceAll], [NewReplacer], [TrimSpace], [HasPrefix],
    [CutPrefix], [TrimLeft], [TrimRight], [Split], case mapping of ASCII),
    [strconv.FormatInt] and [ParseInt] with their round trip, and UTF-8
    validity, on byte sequences. *)

From S2P Require Import Prelude.
From Stdlib Require DecimalString DecimalZ DecimalN DecimalPos DecimalFacts.

(** ** Prefixes *)

(** [strings.CutPrefix] *)
Fixpoint CutPrefix (s p : gostring) {struct p} : option gostring :=
  match p, s with
  | [], _ => Some s
  | a :: p', b :: s' => if decide (a = b) then CutPrefix s' p' else None
  | _ :: _, [] => None
  end.

Definition HasPrefix (s p : gostring) : bool := bool_decide (is_Some (CutPrefix s p)).

Lemma CutPrefix_Some s p r : CutPrefix s p = Some r ↔ s = p ++ r.
Proof.
  revert s. induction p as [|a p IH]; intros s; simpl.
  { split; [by intros [= ->]|by intros ->]. }
  destruct s as [|b s]; [done|]. case_decide; subst.
  - rewrite IH. split; [by intros ->|by intros [= ->]].
  - split; [done|]. intros [= -> ->]. done.
Qed.

Lemma CutPrefix_app p r : CutPrefix (p ++ r) p = Some r.
Proof. by apply CutPrefix_Some. Qed.

(** ** Replacement

    [strings.NewReplacer(old1, new1, ...).Replace(s)]: scan from the left; at
    each position the first pair, in argument order, whose old string matches
    there is replaced and the scan resumes after it.  Old strings are non-empty
    in every use.  [skip] counts the bytes of a match still to be passed. *)
Fixpoint find_match (pairs : list (gostring * gostring)) (s : gostring)
    : option (gostring * gostring) :=
  match pairs with
  | [] => None
  | (old, new) :: ps => if HasPrefix s old then Some (old, new) else find_match ps s
  end.

Fixpoint replacer (pairs : list (gostring * gostring)) (skip : nat) (s : gostring) : gostring :=
  match s with
  | [] => []
  | c :: s' =>
      match skip with
      | S k => replacer pairs k s'
      | O =>
          match find_match pairs s with
          | Some (old, new) => new ++ replacer pairs (length old - 1) s'
          | None => c :: replacer pairs 0 s'
          end
      end
  end.

Definition Replace (pairs : list (gostring * gostring)) (s : gostring) : gostring :=
  replacer pairs 0 s.

(** [strings.ReplaceAll(s, old, new)] is the one-pair case. *)
Definition ReplaceAll (s old new : gostring) : gostring := Replace [(old, new)] s.

(** ** Trimming *)

(** UTF-8 encodings of the code points with the White_Space property, the ones
    [unicode.IsSpace] accepts. *)
Definition white_space : list gostring :=
  (map byte_of) <$>
  [[9]; [10]; [11]; [12]; [13]; [32]; [194; 133]; [194; 160]; [225; 154; 128];
   [226; 128; 128]; [226; 128; 129]; [226; 128; 130]; [226; 128; 131]; [226; 128; 132];
   [226; 128; 133]; [226; 128; 134]; [226; 128; 135]; [226; 128; 136]; [226; 128; 137];
   [226; 128; 138]; [226; 128; 168]; [226; 128; 169]; [226; 128; 175]; [226; 129; 159];
   [227; 128; 128]]%Z.

Fixpoint cut_any (ps : list gostring) (s : gostring) : option gostring :=
  match ps with
  | [] => None
  | p :: ps' => match CutPrefix s p with Some r => Some r | None => cut_any ps' s end
  end.

(** Strip leading elements of [ps]; [length s] rounds suffice, since every
    element of [ps] is non-empty. *)
Fixpoint trim_rounds (n : nat) (ps : list gostring) (s : gostring) : gostring :=
  match n with
  | O => s
  | S n' => match cut_any ps s with Some r => trim_rounds n' ps r | None => s end
  end.

Definition trim_front (ps : list gostring) (s : gostring) : gostring :=
  trim_rounds (length s) ps s.
Definition trim_back (ps : list gostring) (s : gostring) : gostring :=
  reverse (trim_front (reverse <$> ps) (reverse s)).

Definition TrimSpace (s : gostring) : gostring :=
  trim_back white_space (trim_front white_space s).

(** [strings.TrimLeft] and [strings.TrimRight] with an ASCII cut set. *)
Definition TrimLeft (s cutset : gostring) : gostring := trim_front ((λ c, [c]) <$> cutset) s.
Definition TrimRight (s cutset : gostring) : gostring := trim_back ((λ c, [c]) <$> cutset) s.

(** ** Splitting on one byte *)
Fixpoint split_on (sep : ascii) (cur : gostring) (s : gostring) : list gostring :=
  match s with
  | [] => [reverse cur]
  | c :: s' => if decide (c = sep) then reverse cur :: split_on sep [] s'
               else split_on sep (c :: cur) s'
  end.
Definition Split (s : gostring) (sep : ascii) : list gostring := split_on sep [] s.

(** ** Case mapping of ASCII letters *)
Definition lower_byte (c : ascii) : ascii :=
  let z := byte_val c in if decide (65 ≤ z ≤ 90)%Z then byte_of (z + 32) else c.
Definition upper_byte (c : ascii) : ascii :=
  let z := byte_val c in if decide (97 ≤ z ≤ 122)%Z then byte_of (z - 32) else c.
Definition ToLower (s : gostring) : gostring := lower_byte <$> s.
Definition ToUpper (s : gostring) : gostring := upper_byte <$> s.
Definition EqualFold (a b : gostring) : bool := bool_decide (ToLower a = ToLower b).

(** ** Decimal integers: [strconv.FormatInt(v, 10)] *)
Definition FormatInt (v : Z) : gostring := str (DecimalString.NilZero.string_of_int (Z.to_int v)).

(** ** Lemmas *)

Lemma find_match_none pairs c s :
  (∀ old new, (old, new) ∈ pairs → ∃ a p, old = a :: p ∧ a ≠ c) →
  find_match pairs (c :: s) = None.
Proof.
  induction pairs as [|[old new] ps IH]; intros H; [done|]. simpl.
  destruct (H old new) as (a & p & -> & Hne); [left|].
  unfold HasPrefix. simpl. rewrite decide_False by done.
  rewrite bool_decide_eq_false_2 by by intros [? ?].
  apply IH. intros old' new' Hin. apply (H old' new'). by right.
Qed.

(** Text that contains no first byte of an old string is copied. *)
Lemma Replace_clean pairs s t :
  (∀ c old new, c ∈ s → (old, new) ∈ pairs → ∃ a p, old = a :: p ∧ a ≠ c) →
  Replace pairs (s ++ t) = s ++ Replace pairs t.
Proof.
  unfold Replace. induction s as [|c s IH]; intros H; [done|]. simpl.
  rewrite find_match_none by (intros old new Hin; apply (H c old new); [left|done]).
  f_equal. apply IH. intros c' old new Hc'. apply H. by right.
Qed.

Lemma ReplaceAll_clean s t a p new :
  a ∉ s → ReplaceAll (s ++ t) (a :: p) new = s ++ ReplaceAll t (a :: p) new.
Proof.
  intros Ha. apply Replace_clean. intros c old new' Hc Hin.
  apply list_elem_of_singleton in Hin. simplify_eq. exists a, p. split; [done|]. by intros ->.
Qed.

Lemma ReplaceAll_id s a p new : a ∉ s → ReplaceAll s (a :: p) new = s.
Proof.
  intros Ha. rewrite <- (app_nil_r s) at 1. rewrite ReplaceAll_clean by done. apply app_nil_r.
Qed.

Lemma replacer_skip pairs n s t : length s = n → replacer pairs n (s ++ t) = replacer pairs 0 t.
Proof. revert n. induction s as [|c s IH]; intros n <-; [done|]. simpl. by apply IH. Qed.

(** A match at the head is replaced and scanning resumes after it. *)
Lemma ReplaceAll_match a p new t :
  ReplaceAll ((a :: p) ++ t) (a :: p) new = new ++ ReplaceAll t (a :: p) new.
Proof.
  unfold ReplaceAll, Replace. simpl. unfold HasPrefix. simpl. rewrite decide_True by done.
  rewrite CutPrefix_app. rewrite bool_decide_eq_true_2 by eauto. simpl.
  f_equal. apply replacer_skip. lia.
Qed.

(** Replacing a single byte is a map. *)
Lemma ReplaceAll_byte s c new :
  ReplaceAll s [c] new = s ≫= (λ x, if decide (x = c) then new else [x]).
Proof.
  induction s as [|x s IH]; [done|]. unfold ReplaceAll, Replace in *. simpl.
  unfold HasPrefix. simpl. destruct (decide (c = x)) as [->|Hne].
  - rewrite bool_decide_eq_true_2 by eauto. rewrite decide_True by done. simpl. by rewrite IH.
  - rewrite bool_decide_eq_false_2 by by intros [? ?]. rewrite decide_False by done. simpl. by rewrite IH.
Qed.

Lemma elem_of_ReplaceAll_byte s c new x :
  x ∈ ReplaceAll s [c] new → (x ∈ s ∧ x ≠ c) ∨ x ∈ new.
Proof.
  rewrite ReplaceAll_byte. intros (y & Hx & Hy)%list_elem_of_bind.
  case_decide; [by right|]. apply list_elem_of_singleton in Hx. subst. by left.
Qed.

Lemma cut_any_suffix ps s r : cut_any ps s = Some r → ∃ p, s = p ++ r.
Proof.
  induction ps as [|p ps IH]; simpl; [done|]. destruct (CutPrefix s p) eqn:E; [|done].
  intros [= ->]. apply CutPrefix_Some in E. by exists p.
Qed.

Lemma trim_rounds_suffix n ps s : ∃ p, s = p ++ trim_rounds n ps s.
Proof.
  revert s. induction n as [|n IH]; intros s; simpl; [by exists []|].
  destruct (cut_any ps s) as [r|] eqn:E; [|by exists []].
  apply cut_any_suffix in E as [p ->]. destruct (IH r) as [p' Hr]. exists (p ++ p').
  by rewrite <- (assoc_L (++)), <- Hr.
Qed.

(** Trimming returns a contiguous part of its argument. *)
Lemma TrimSpace_infix s : ∃ p q, s = p ++ TrimSpace s ++ q.
Proof.
  unfold TrimSpace, trim_back.
  destruct (trim_rounds_suffix (length s) white_space s) as [p Hp]. fold (trim_front white_space s) in Hp.
  set (t := trim_front white_space s) in *.
  destruct (trim_rounds_suffix (length (reverse t)) (reverse <$> white_space) (reverse t)) as [q Hq].
  fold (trim_front (reverse <$> white_space) (reverse t)) in Hq.
  exists p, (reverse q). rewrite Hp at 1. f_equal.
  by rewrite <- reverse_app, <- Hq, reverse_involutive.
Qed.

Lemma elem_of_TrimSpace c s : c ∈ TrimSpace s → c ∈ s.
Proof.
  intros Hc. destruct (TrimSpace_infix s) as (p & q & Hs). rewrite Hs. set_solver.
Qed.

Lemma str_inj s s' : str s = str s' → s = s'.
Proof.
  unfold str. intros H. rewrite <- (String.string_of_list_ascii_of_string s), H.
  apply String.string_of_list_ascii_of_string.
Qed.

Lemma to_int_nonnil v : Z.to_int v ≠ Decimal.Pos Decimal.Nil ∧ Z.to_int v ≠ Decimal.Neg Decimal.Nil.
Proof.
  destruct v as [|q|q]; simpl; [done| |]; split; try done;
    intros [= H]; by eapply DecimalPos.Unsigned.to_uint_nonnil.
Qed.

Lemma FormatInt_inj v v' : FormatInt v = FormatInt v' → v = v'.
Proof.
  unfold FormatInt. intros H%str_inj. apply (f_equal DecimalString.NilZero.int_of_string) in H.
  rewrite !DecimalString.NilZero.isi in H by apply to_int_nonnil.
  apply DecimalZ.to_int_inj. congruence.
Qed.

Definition decimal_bytes : gostring := str "-0123456789".

Lemma string_of_uint_bytes d c : c ∈ str (DecimalString.NilEmpty.string_of_uint d) → c ∈ decimal_bytes.
Proof. induction d; simpl; try set_solver; intros [->|]%elem_of_cons; auto; by_decide. Qed.

Lemma FormatInt_bytes v c : c ∈ FormatInt v → c ∈ decimal_bytes.
Proof.
  assert (∀ d, c ∈ str (DecimalString.NilZero.string_of_uint d) → c ∈ decimal_bytes) as Hu.
  { intros d. unfold DecimalString.NilZero.string_of_uint.
    destruct d eqn:E; [intros ->%list_elem_of_singleton; by_decide|rewrite <- E; apply string_of_uint_bytes..]. }
  unfold FormatInt. destruct (Z.to_int v) as [d|d]; simpl; [apply Hu|].
  intros [->|Hc]%elem_of_cons; [by_decide|]. by apply (Hu d).
Qed.

Definition in_range (lo hi : Z) (c : ascii) : bool := bool_decide (lo ≤ byte_val c ≤ hi)%Z.

(** ** Integers from text: [strconv.ParseInt] and [Atoi] *)
Fixpoint parse_digits (acc : Z) (s : gostring) : option Z :=
  match s with
  | [] => Some acc
  | c :: s' => if in_range 48 57 c then parse_digits (10 * acc + (byte_val c - 48))%Z s' else None
  end.

(** [ParseInt(s, 10, 64)]: an optional sign, decimal digits, 64 bits. *)
Definition ParseInt (s : gostring) : option Z :=
  let '(neg, digits) := match s with
                        | c :: s' => if decide (c = "-"%char) then (true, s')
                                     else if decide (c = "+"%char) then (false, s') else (false, s)
                        | [] => (false, [])
                        end in
  if decide (digits = []) then None
  else v ← parse_digits 0 digits;
       let z := (if neg : bool then - v else v)%Z in
       if decide (- 2 ^ 63 ≤ z < 2 ^ 63)%Z then Some z else None.
Definition Atoi : gostring → option Z := ParseInt.

Abbreviation digits_text d := (str (DecimalString.NilEmpty.string_of_uint d)).

Lemma to_uint_no_leading_zero p d : Pos.to_uint p ≠ Decimal.D0 d.
Proof.
  intros E. pose proof (DecimalN.Unsigned.to_of (Pos.to_uint p)) as H.
  unfold N.of_uint in H. rewrite DecimalPos.Unsigned.of_to in H. simpl in H. rewrite E in H.
  rewrite DecimalFacts.unorm_D0 in H. unfold Decimal.unorm in H. destruct (Decimal.nzhead d) as [|d'| | | | | | | | |] eqn:En; try done.
  - injection H as ->. by apply (DecimalPos.Unsigned.to_uint_nonzero p).
  - by apply (DecimalFacts.nzhead_nonzero d d').
Qed.

(** The text of a number: a sign, then digits that do not start with zero. *)
Lemma FormatInt_shape v :
  (v = 0%Z ∧ FormatInt v = str "0") ∨
  ∃ p d, Pos.to_uint p = d ∧ digits_text d ≠ [] ∧
    ((v = Z.pos p ∧ FormatInt v = digits_text d) ∨ (v = Z.neg p ∧ FormatInt v = "-"%char :: digits_text d)).
Proof.
  assert (∀ p, digits_text (Pos.to_uint p) ≠ [] ∧
            str (DecimalString.NilZero.string_of_uint (Pos.to_uint p)) = digits_text (Pos.to_uint p)) as H.
  { intros p. pose proof (DecimalPos.Unsigned.to_uint_nonnil p). by destruct (Pos.to_uint p). }
  destruct v as [|p|p]; [by left|right..]; exists p, (Pos.to_uint p); (split; [done|]); destruct (H p) as [? E]; (split; [done|]); [left|right]; (split; [done|]).
  - exact E.
  - unfold FormatInt. cbn [Z.to_int DecimalString.NilZero.string_of_int]. cbn [str String.list_ascii_of_string]. f_equal. exact E.
Qed.

Lemma parse_digits_acc d p : parse_digits (Z.pos p) (digits_text d) = Some (Z.pos (Pos.of_uint_acc d p)).
Proof. revert p. induction d; intros p; [done|..]; simpl; rewrite <- IHd; f_equal; cbv [byte_val]; vm_compute (N_of_ascii _); lia. Qed.

Lemma parse_digits_text d : parse_digits 0 (digits_text d) = Some (Z.of_N (Pos.of_uint d)).
Proof. induction d as [|d IH|d|d|d|d|d|d|d|d|d]; [done|exact IH|apply (parse_digits_acc d)..]. Qed.

Lemma digits_text_head d c s : digits_text d = c :: s → in_range 48 57 c = true.
Proof. destruct d; [done|..]; by intros [= <- _]. Qed.

(** [ParseInt] reads what [FormatInt] writes. *)
Lemma ParseInt_FormatInt v : (- 2 ^ 63 ≤ v < 2 ^ 63)%Z → ParseInt (FormatInt v) = Some v.
Proof.
  intros Hv. destruct (FormatInt_shape v) as [[-> ->]|(p & d & Hd & Hne & H)]; [done|].
  assert (parse_digits 0 (digits_text d) = Some (Z.pos p)) as Hp.
  { rewrite parse_digits_text, <- Hd. by rewrite DecimalPos.Unsigned.of_to. }
  destruct H as [[-> ->]|[-> ->]]; unfold ParseInt.
  - destruct (digits_text d) as [|c s] eqn:E; [done|]. pose proof (digits_text_head _ _ _ E) as Hc.
    rewrite (decide_False (P := c = "-"%char)) by (intros ->; by vm_compute in Hc).
    rewrite (decide_False (P := c = "+"%char)) by (intros ->; by vm_compute in Hc).
    rewrite decide_False by done. rewrite Hp. simpl. by rewrite decide_True.
  - rewrite decide_True by done. rewrite decide_False by done. rewrite Hp. simpl. by rewrite decide_True.
Qed.

(** ** UTF-8 validity: [utf8.ValidString] *)
Definition utf8_cont : ascii → bool := in_range 128 191.

(** Second byte allowed after a leading byte of a three- or four-byte form. *)
Definition utf8_second3 (b0 b1 : ascii) : bool :=
  in_range 224 224 b0 && in_range 160 191 b1 || in_range 225 236 b0 && utf8_cont b1
  || in_range 237 237 b0 && in_range 128 159 b1 || in_range 238 239 b0 && utf8_cont b1.
Definition utf8_second4 (b0 b1 : ascii) : bool :=
  in_range 240 240 b0 && in_range 144 191 b1 || in_range 241 243 b0 && utf8_cont b1
  || in_range 244 244 b0 && in_range 128 143 b1.

Fixpoint ValidString (s : gostring) : bool :=
  match s with
  | [] => true
  | b0 :: s0 =>
      if in_range 0 127 b0 then ValidString s0
      else match s0 with
           | [] => false
           | b1 :: s1 =>
               if in_range 194 223 b0 && utf8_cont b1 then ValidString s1
               else match s1 with
                    | [] => false
                    | b2 :: s2 =>
                        if utf8_second3 b0 b1 && utf8_cont b2 then ValidString s2
                        else match s2 with
                             | [] => false
                             | b3 :: s3 =>
                                 utf8_second4 b0 b1 && utf8_cont b2 && utf8_cont b3 && ValidString s3
                             end
                    end
           end
  end.

(** ** Splitting *)
Lemma split_on_app sep cur e s : sep ∉ e → split_on sep cur (e ++ s) = split_on sep (reverse e ++ cur) s.
Proof.
  revert cur. induction e as [|c e IH]; intros cur He; [done|]. apply not_elem_of_cons in He as [Hc He]. simpl.
  rewrite decide_False by done. rewrite IH by done. by rewrite reverse_cons, <- (assoc_L (++)).
Qed.
Lemma Split_first sep e s : sep ∉ e → Split (e ++ sep :: s) sep = e :: Split s sep.
Proof. intros He. unfold Split. rewrite split_on_app by done. simpl. rewrite decide_True by done. by rewrite app_nil_r, reverse_involutive. Qed.
Lemma Split_one sep e : sep ∉ e → Split e sep = [e].
Proof. intros He. unfold Split. rewrite <- (app_nil_r e) at 1. rewrite split_on_app by done. simpl. by rewrite app_nil_r, reverse_involutive. Qed.
