(* ===== verification/NetAddr.v ===== *)
(** * net: host and port, addresses and address blocks

    The part of the standard library's net package that helpers.go and
    config.go use: [SplitHostPort], [JoinHostPort], [ParseIP], [ParseCIDR] and
    [IPNet.Contains].  An address is its list of bytes, each a [Z] in [0, 255];
    [ParseIP] yields 16 bytes, an IPv4 address in its mapped form. *)

From S2P Require Import Prelude GoStrings.

Local Open Scope Z_scope.

(** [strings.Cut] at the first byte [sep]. *)
Fixpoint CutByte (sep : ascii) (s : gostring) : option (gostring * gostring) :=
  match s with
  | [] => None
  | c :: s' => if decide (c = sep) then Some ([], s') else '(a, b) ← CutByte sep s'; Some (c :: a, b)
  end.
(** The parts around the last byte [sep]. *)
Definition CutLastByte (sep : ascii) (s : gostring) : option (gostring * gostring) :=
  '(b, a) ← CutByte sep (rev s); Some (rev a, rev b).

(** ** Host and port *)
Definition SplitHostPort (hostport : gostring) : option gostring :=
  '(before, port) ← CutLastByte ":"%char hostport;
  match hostport with
  | "["%char :: inner =>
      '(host, rest) ← CutByte "]"%char inner;
      (* the last colon must follow the bracket *)
      if decide (before = "["%char :: host ++ ["]"%char] ∧ rest = ":"%char :: port)
      then if decide ("["%char ∈ inner ∨ "]"%char ∈ rest) then None else Some host
      else None
  | _ =>
      if decide (":"%char ∈ before ∨ "["%char ∈ hostport ∨ "]"%char ∈ hostport) then None else Some before
  end.

Definition JoinHostPort (host port : gostring) : gostring :=
  if decide (":"%char ∈ host ∨ "%"%char ∈ host)
  then str "[" ++ host ++ str "]:" ++ port
  else host ++ str ":" ++ port.

(** ** Addresses *)
Abbreviation IP := (list Z).
Definition v4InV6Prefix : list Z := replicate 10 0 ++ [255; 255].

(** A field of a dotted address: no leading zero, at most 255. *)
Definition parse_octet (s : gostring) : option Z :=
  match s with
  | [] => None
  | "0"%char :: _ :: _ => None
  | _ => v ← parse_digits 0 s; if decide (v ≤ 255) then Some v else None
  end.
Definition parseIPv4Fields (s : gostring) : option (list Z) :=
  fields ← mapM parse_octet (Split s "."%char);
  if decide (length fields = 4%nat) then Some fields else None.

Definition hex_value (c : ascii) : option Z :=
  if in_range 48 57 c then Some (byte_val c - 48)
  else if in_range 97 102 c then Some (byte_val c - 97 + 10)
  else if in_range 65 70 c then Some (byte_val c - 65 + 10) else None.

(** The digits of a group: their count, value and what follows. *)
Fixpoint span_hex (n : nat) (acc : Z) (s : gostring) : nat * Z * gostring :=
  match s with
  | [] => (n, acc, [])
  | c :: s' => match hex_value c with Some d => span_hex (S n) (acc * 16 + d) s' | None => (n, acc, s) end
  end.

(** Where the loop of [parseIPv6] stops: the bytes read, the position of the
    ellipsis, the text left. *)
Definition V6 : Type := list Z * option nat * gostring.

(** The loop, at most eight groups; an error is [None]. *)
Fixpoint v6_groups (fuel : nat) (ip : list Z) (ellipsis : option nat) (s : gostring) : option V6 :=
  match fuel with
  | O => Some (ip, ellipsis, s)
  | S fuel =>
      if decide (16 ≤ length ip)%nat then Some (ip, ellipsis, s)
      else
        let '(digits, acc, rest) := span_hex 0 0 s in
        if decide (digits = 0%nat ∨ 4 < digits)%nat then None
        else match rest with
        | "."%char :: _ =>
            if decide (ellipsis = None ∧ length ip ≠ 12%nat) then None
            else if decide (16 < length ip + 4)%nat then None
            else v4 ← parseIPv4Fields s; Some (ip ++ v4, ellipsis, [])
        | _ =>
            let ip := ip ++ [Z.shiftr acc 8; Z.land acc 255] in
            match rest with
            | [] => Some (ip, ellipsis, [])
            | ":"%char :: ":"%char :: [] =>
                if decide (is_Some ellipsis) then None else Some (ip, Some (length ip), [])
            | ":"%char :: ":"%char :: s' =>
                if decide (is_Some ellipsis) then None else v6_groups fuel ip (Some (length ip)) s'
            | ":"%char :: c :: s' => v6_groups fuel ip ellipsis (c :: s')
            | _ => None
            end
        end
  end.

(** The zeros of the ellipsis. *)
Definition v6_expand (r : V6) : option (list Z) :=
  let '(ip, ellipsis, s) := r in
  if decide (s ≠ []) then None
  else if decide (length ip < 16)%nat
  then e ← ellipsis; Some (take e ip ++ replicate (16 - length ip) 0 ++ drop e ip)
  else if decide (is_Some ellipsis) then None else Some ip.

(** An address without a zone. *)
Definition parseIPv6 (s : gostring) : option (list Z) :=
  match s with
  | ":"%char :: ":"%char :: [] => Some (replicate 16 0)
  | ":"%char :: ":"%char :: s' => v6_groups 8 [] (Some 0%nat) s' ≫= v6_expand
  | _ => v6_groups 8 [] None s ≫= v6_expand
  end.

(** [netip.ParseAddr], for the callers that refuse a zone: the text of an IPv6
    address with a zone fails on the percent sign.  The length of the result
    tells the family. *)
Fixpoint addr_family (s : gostring) : option ascii :=
  match s with
  | [] => None
  | c :: s' => if decide (c = "."%char ∨ c = ":"%char ∨ c = "%"%char) then Some c else addr_family s'
  end.
Definition ParseAddr (s : gostring) : option (list Z) :=
  c ← addr_family s;
  if decide (c = "."%char) then parseIPv4Fields s else if decide (c = ":"%char) then parseIPv6 s else None.

Definition As16 (a : list Z) : IP := if decide (length a = 4%nat) then v4InV6Prefix ++ a else a.
Definition ParseIP (s : gostring) : option IP := As16 <$> ParseAddr s.

Definition To4 (ip : IP) : option IP :=
  if decide (length ip = 4%nat) then Some ip
  else if decide (length ip = 16%nat ∧ take 12 ip = v4InV6Prefix) then Some (drop 12 ip) else None.

(** ** Address blocks *)
Record IPNet := mkIPNet { net_IP : IP; net_Mask : list Z }.

(** [CIDRMask(ones, 8 * n)] *)
Fixpoint CIDRMask (ones : Z) (n : nat) : list Z :=
  match n with
  | O => []
  | S n => if decide (8 ≤ ones) then 255 :: CIDRMask (ones - 8) n
           else (255 - Z.shiftr 255 ones) :: CIDRMask 0 n
  end.

Definition mask_bytes (ip mask : list Z) : list Z := zip_with Z.land ip mask.

(** [ip.Mask(m)] for the mask of a block. *)
Definition Mask (ip : IP) (mask : list Z) : IP :=
  let ip := if decide (length mask = 4%nat ∧ length ip = 16%nat ∧ take 12 ip = v4InV6Prefix) then drop 12 ip else ip in
  if decide (length ip = length mask) then mask_bytes ip mask else [].

(** [dtoi], all of [mask]. *)
Definition prefix_length (mask : gostring) : option Z :=
  if decide (mask = []) then None
  else n ← parse_digits 0 mask; if decide (n < 16777215) then Some n else None.

Definition ParseCIDR (s : gostring) : option IPNet :=
  '(addr, mask) ← CutByte "/"%char s;
  a ← ParseAddr addr;
  n ← prefix_length mask;
  if decide (n ≤ 8 * Z.of_nat (length a))
  then let m := CIDRMask n (length a) in Some (mkIPNet (Mask (As16 a) m) m)
  else None.

Definition networkNumberAndMask (n : IPNet) : list Z * list Z :=
  match To4 (net_IP n) with
  | Some ip =>
      if decide (length (net_Mask n) = 4%nat) then (ip, net_Mask n)
      else if decide (length (net_Mask n) = 16%nat) then (ip, drop 12 (net_Mask n)) else ([], [])
  | None =>
      if decide (length (net_IP n) = 16%nat ∧ length (net_Mask n) = 16%nat) then (net_IP n, net_Mask n) else ([], [])
  end.

Definition Contains (n : IPNet) (ip : IP) : bool :=
  let '(nn, m) := networkNumberAndMask n in
  let ip := default ip (To4 ip) in
  bool_decide (length ip = length nn) && bool_decide (mask_bytes nn m = mask_bytes ip m).

(** [_, ipNet, err := net.ParseCIDR(cidr); err == nil && ipNet.Contains(ip)] *)
Definition InCIDR (cidr : gostring) (ip : IP) : bool :=
  match ParseCIDR cidr with Some n => Contains n ip | None => false end.

Example split_host_port :
  SplitHostPort <$> [str "10.0.0.1:80"; str "[::1]:443"; str "::1"; str "[::1]"; str "a:b:c"; str "host"; str ":80"; str "[a]b:1"]
  = [Some (str "10.0.0.1"); Some (str "::1"); None; None; None; None; Some []; None].
Proof. vm_compute. reflexivity. Qed.
Example parse_ip_v4 :
  ParseIP <$> [str "1.2.3.4"; str "1.2.3"; str "01.2.3.4"; str "256.1.1.1"; str "1.2.3.4.5"; str "1..2.3"]
  = [Some (v4InV6Prefix ++ [1; 2; 3; 4]); None; None; None; None; None].
Proof. vm_compute. reflexivity. Qed.
Example parse_ip_v6 :
  ParseIP <$> [str "::"; str "2001:db8::1"; str "::ffff:1.2.3.4"; str "1:2:3:4:5:6:7:8"; str "1:2:3:4:5:6:7::"; str "1::2::3"; str "fe80::1%eth0";
               str "1:2:3:4:5:6:7:8:9"; str "1:2:3:4:5:6:7:8::"; str "12345::"; str ":1::"; str "1:2:3:4:5:6:1.2.3.4"]
  = [Some (replicate 16 0); Some ([32; 1; 13; 184] ++ replicate 11 0 ++ [1]); Some (v4InV6Prefix ++ [1; 2; 3; 4]);
     Some [0; 1; 0; 2; 0; 3; 0; 4; 0; 5; 0; 6; 0; 7; 0; 8]; Some [0; 1; 0; 2; 0; 3; 0; 4; 0; 5; 0; 6; 0; 7; 0; 0]; None; None;
     None; None; None; None; Some [0; 1; 0; 2; 0; 3; 0; 4; 0; 5; 0; 6; 1; 2; 3; 4]].
Proof. vm_compute. reflexivity. Qed.
Example in_cidr :
  (λ '(c, a), InCIDR (str c) <$> ParseIP (str a)) <$>
    [("10.0.0.0/8", "10.200.1.2"); ("10.0.0.0/8", "11.0.0.1"); ("10.1.2.3/16", "10.1.255.255"); ("0.0.0.0/0", "8.8.8.8");
     ("0.0.0.0/0", "::1"); ("::/0", "8.8.8.8"); ("2001:db8::/33", "2001:db8:7fff::1"); ("2001:db8::/33", "2001:db8:8000::1");
     ("::ffff:10.0.0.0/104", "10.9.9.9"); ("10.0.0.0/33", "10.0.0.0"); ("10.0.0.0", "10.0.0.0"); ("10.0.0.0/08", "10.1.1.1")]%string
  = Some <$> [true; false; true; true; false; false; true; false; true; false; false; true].
Proof. vm_compute. reflexivity. Qed.

(** ** What parsing yields *)
Definition byte_ok (z : Z) : Prop := 0 ≤ z < 256.
#[global] Instance byte_ok_dec z : Decision (byte_ok z).
Proof. unfold byte_ok. apply _. Defined.
Definition addr_ok (a : list Z) : Prop := (length a = 4%nat ∨ length a = 16%nat) ∧ Forall byte_ok a.

Lemma parse_digits_nonneg s acc v : 0 ≤ acc → parse_digits acc s = Some v → 0 ≤ v.
Proof.
  revert acc. induction s as [|c s IH]; intros acc Ha; simpl; [by intros [= <-]|].
  unfold in_range. case_bool_decide; [|done]. apply IH. lia.
Qed.

Lemma parse_octet_ok s v : parse_octet s = Some v → byte_ok v.
Proof.
  assert (∀ t, (v ← parse_digits 0 t; if decide (v ≤ 255) then Some v else None) = Some v → byte_ok v) as H.
  { intros t (w & Hw & H)%bind_Some. apply parse_digits_nonneg in Hw; [|done]. case_decide; [|done]. injection H as <-. unfold byte_ok. lia. }
  unfold parse_octet. destruct s as [|c s]; [done|]. repeat case_match; try done; apply H.
Qed.

Lemma parseIPv4Fields_ok s a : parseIPv4Fields s = Some a → length a = 4%nat ∧ Forall byte_ok a.
Proof.
  unfold parseIPv4Fields. intros (l & Hl%mapM_Some & H)%bind_Some. case_decide; [|done]. injection H as <-. split; [done|].
  clear -Hl. induction Hl as [|x y l k Hx Hl IH]; constructor; [by eapply parse_octet_ok|done].
Qed.

Lemma hex_value_ok c d : hex_value c = Some d → 0 ≤ d < 16.
Proof. unfold hex_value, in_range. repeat case_bool_decide; intros; simplify_eq; lia. Qed.

Lemma span_hex_ok n acc s n' v r :
  span_hex n acc s = (n', v, r) → 0 ≤ acc < 16 ^ Z.of_nat n → 0 ≤ v < 16 ^ Z.of_nat n'.
Proof.
  revert n acc. induction s as [|c s IH]; intros n acc; simpl; [by intros [= <- <- <-]|].
  destruct (hex_value c) as [d|] eqn:E; [|by intros [= <- <- <-]]. intros H Ha. apply hex_value_ok in E. apply (IH _ _ H).
  rewrite Nat2Z.inj_succ, Z.pow_succ_r by lia. lia.
Qed.

Lemma group_bytes_ok v : 0 ≤ v < 65536 → Forall byte_ok [Z.shiftr v 8; Z.land v 255].
Proof.
  intros Hv. change 255 with (Z.ones 8). rewrite Z.land_ones, Z.shiftr_div_pow2 by done. change (2 ^ 8) with 256.
  repeat constructor; try apply Z.mod_pos_bound; try done; [apply Z.div_pos; lia|apply Z.div_lt_upper_bound; lia].
Qed.

Definition v6_ok (ip : list Z) : Prop := (length ip ≤ 16)%nat ∧ Nat.Even (length ip) ∧ Forall byte_ok ip.

Lemma v6_groups_ok fuel ip e s ip' e' s' :
  v6_groups fuel ip e s = Some (ip', e', s') → v6_ok ip → v6_ok ip'.
Proof.
  revert ip e s. induction fuel as [|fuel IH]; intros ip e s; simpl; [by intros [= <- <- <-]|].
  case_decide as Hl; [by intros [= <- <- <-]|]. destruct (span_hex 0 0 s) as [[n v] r] eqn:Es. case_decide as Hn; [done|].
  intros H (Hle & [k Hk] & Hb).
  assert (v6_ok (ip ++ [Z.shiftr v 8; Z.land v 255])) as Hgroup.
  { unfold v6_ok. rewrite length_app. simpl length. split; [lia|]. split; [exists (k + 1)%nat; lia|].
    apply Forall_app. split; [done|]. apply group_bytes_ok. apply span_hex_ok in Es; [|done].
    assert (16 ^ Z.of_nat n ≤ 16 ^ 4) by (apply Z.pow_le_mono_r; lia). lia. }
  assert (∀ l, parseIPv4Fields s = Some l → (length ip + 4 ≤ 16)%nat → v6_ok (ip ++ l)) as Hdot.
  { intros l [Hl4 Hb4]%parseIPv4Fields_ok Hle4. unfold v6_ok. rewrite length_app, Hl4. split; [lia|]. split; [exists (k + 2)%nat; lia|].
    by apply Forall_app. }
  repeat case_match; simplify_eq; try done; try (by eapply IH);
    (apply bind_Some in H as (? & ? & ?); simplify_eq; apply Hdot; [done|lia]).
Qed.

Lemma v6_expand_ok ip e s a : v6_expand (ip, e, s) = Some a → v6_ok ip → length a = 16%nat ∧ Forall byte_ok a.
Proof.
  unfold v6_expand. case_decide; [done|]. intros Ha (Hle & _ & Hb). case_decide.
  - apply bind_Some in Ha as (p & _ & [= <-]). rewrite !length_app, length_replicate. split.
    + assert (length (take p ip) + length (drop p ip) = length ip)%nat by (rewrite <- length_app, take_drop; done). lia.
    + rewrite !Forall_app. split_and!; [by apply Forall_take|by apply Forall_replicate|by apply Forall_drop].
  - case_decide; [done|]. injection Ha as <-. split; [lia|done].
Qed.

Lemma parseIPv6_ok s a : parseIPv6 s = Some a → length a = 16%nat ∧ Forall byte_ok a.
Proof.
  assert (∀ e t, v6_groups 8 [] e t ≫= v6_expand = Some a → length a = 16%nat ∧ Forall byte_ok a) as H.
  { intros e t ([[ip e'] s'] & Hg & He)%bind_Some. eapply v6_expand_ok; [exact He|]. eapply v6_groups_ok; [exact Hg|].
    split; [simpl; lia|]. split; [by exists 0%nat|done]. }
  unfold parseIPv6. intros E. repeat (case_match; simplify_eq; try by eapply H). split; [done|]. by apply Forall_replicate.
Qed.

Lemma ParseAddr_ok s a : ParseAddr s = Some a → addr_ok a.
Proof.
  unfold ParseAddr. intros (c & _ & H)%bind_Some. case_decide; [|case_decide; [|done]].
  - apply parseIPv4Fields_ok in H as [? ?]. split; auto.
  - apply parseIPv6_ok in H as [? ?]. split; auto.
Qed.

Lemma As16_ok a : addr_ok a → length (As16 a) = 16%nat ∧ Forall byte_ok (As16 a).
Proof.
  intros [[Hl|Hl] Hb]; unfold As16; rewrite Hl; [rewrite decide_True by done|rewrite decide_False by lia; done].
  rewrite length_app, Hl. split; [done|]. apply Forall_app. split; [by_decide|done].
Qed.

Lemma To4_ok ip : length ip = 16%nat → Forall byte_ok ip → addr_ok (default ip (To4 ip)).
Proof.
  intros Hl Hb. unfold To4. case_decide; [by split; auto|]. case_decide; [|by split; auto]. simpl. split.
  - left. rewrite length_drop. lia.
  - by apply Forall_drop.
Qed.

(** ** Blocks are sets of addresses with the same leading bits *)
Fixpoint number (a : list Z) : Z := match a with [] => 0 | x :: a => x * 2 ^ (8 * Z.of_nat (length a)) + number a end.
(** The leading [n] bits. *)
Definition prefix (n : Z) (a : list Z) : Z := Z.shiftr (number a) (8 * Z.of_nat (length a) - n).

Lemma number_bound a : Forall byte_ok a → 0 ≤ number a < 2 ^ (8 * Z.of_nat (length a)).
Proof.
  induction 1 as [|x a [Hx1 Hx2] Ha IH]; [done|]. simpl length. simpl number.
  replace (8 * Z.of_nat (S (length a))) with (8 + 8 * Z.of_nat (length a)) by lia. rewrite Z.pow_add_r by lia.
  change (2 ^ 8) with 256. nia.
Qed.

Lemma prefix_bound n a : Forall byte_ok a → 0 ≤ n ≤ 8 * Z.of_nat (length a) → 0 ≤ prefix n a < 2 ^ n.
Proof.
  intros Ha Hn. pose proof (number_bound a Ha) as Hb. unfold prefix. rewrite Z.shiftr_div_pow2 by lia.
  split; [apply Z.div_pos; lia|]. apply Z.div_lt_upper_bound; [lia|]. rewrite <- Z.pow_add_r by lia.
  replace (8 * Z.of_nat (length a) - n + n) with (8 * Z.of_nat (length a)) by lia. apply Hb.
Qed.

Lemma prefix_cons_far n x a :
  8 ≤ n ≤ 8 * Z.of_nat (length (x :: a)) → prefix n (x :: a) = x * 2 ^ (n - 8) + prefix (n - 8) a.
Proof.
  intros Hn. simpl length in Hn. unfold prefix. simpl length. simpl number. rewrite !Z.shiftr_div_pow2 by lia.
  replace (8 * Z.of_nat (S (length a)) - n) with (8 * Z.of_nat (length a) - (n - 8)) by lia.
  set (k := 8 * Z.of_nat (length a) - (n - 8)). replace (8 * Z.of_nat (length a)) with ((n - 8) + k) by lia.
  rewrite Z.pow_add_r, Z.mul_assoc, Z.div_add_l by lia. done.
Qed.

Lemma prefix_cons_near n x a :
  0 ≤ n < 8 → Forall byte_ok a → prefix n (x :: a) = x / 2 ^ (8 - n).
Proof.
  intros Hn Ha. pose proof (number_bound a Ha). unfold prefix. simpl length. simpl number. rewrite Z.shiftr_div_pow2 by lia.
  replace (8 * Z.of_nat (S (length a)) - n) with (8 * Z.of_nat (length a) + (8 - n)) by lia.
  assert (0 < 2 ^ (8 - n)) by (apply Z.pow_pos_nonneg; lia).
  rewrite Z.pow_add_r by lia. rewrite <- Z.div_div by lia. rewrite Z.div_add_l by lia. rewrite (Z.div_small (number a)) by lia.
  by rewrite Z.add_0_r.
Qed.

Lemma byte_mask_near n x :
  0 ≤ n < 8 → byte_ok x → Z.land x (255 - Z.shiftr 255 n) = x / 2 ^ (8 - n) * 2 ^ (8 - n).
Proof.
  intros Hn Hx.
  assert (Forall (λ n, Forall (λ x, Z.land x (255 - Z.shiftr 255 n) = x / 2 ^ (8 - n) * 2 ^ (8 - n)) (seqZ 0 256)) (seqZ 0 8)) as H by by_decide.
  rewrite Forall_forall in H. specialize (H n ltac:(apply elem_of_seqZ; lia)). rewrite Forall_forall in H.
  apply H, elem_of_seqZ. unfold byte_ok in Hx. lia.
Qed.

Lemma length_CIDRMask n k : length (CIDRMask n k) = k.
Proof. revert n. induction k; intros n; simpl; [done|]. case_decide; simpl; by rewrite IHk. Qed.

Lemma mask_nothing a : mask_bytes a (CIDRMask 0 (length a)) = replicate (length a) 0.
Proof. induction a as [|x a IH]; [done|]. simpl. rewrite Z.land_0_r. by f_equal. Qed.

Lemma mask_prefix n a b :
  length a = length b → Forall byte_ok a → Forall byte_ok b → 0 ≤ n ≤ 8 * Z.of_nat (length a) →
  mask_bytes a (CIDRMask n (length a)) = mask_bytes b (CIDRMask n (length a)) ↔ prefix n a = prefix n b.
Proof.
  revert n b. induction a as [|x a IH]; intros n [|y b] Hl Ha Hb Hn; try done.
  apply Forall_cons in Ha as [Hx Ha], Hb as [Hy Hb]. simpl in Hl. injection Hl as Hl. cbn [length CIDRMask].
  destruct (decide (8 ≤ n)) as [Hfar|Hnear].
  - rewrite !prefix_cons_far by (simpl length in *; lia). cbn [mask_bytes zip_with].
    change 255 with (Z.ones 8). rewrite !Z.land_ones, !Z.mod_small by (try done; apply Hx || apply Hy).
    simpl length in Hn. specialize (IH (n - 8) b Hl Ha Hb ltac:(lia)). unfold mask_bytes in IH.
    pose proof (prefix_bound (n - 8) a Ha ltac:(lia)). pose proof (prefix_bound (n - 8) b Hb ltac:(lia)). split.
    + intros [= -> Hm]. apply IH in Hm. lia.
    + intros E. assert (x = y) as -> by nia. f_equal. apply IH. lia.
  - rewrite !prefix_cons_near by (done || lia). cbn [mask_bytes zip_with]. rewrite !byte_mask_near by (done || lia).
    pose proof (mask_nothing a) as M1. pose proof (mask_nothing b) as M2. rewrite <- Hl in M2. unfold mask_bytes in M1, M2.
    rewrite M1, M2. assert (0 < 2 ^ (8 - n)) by (apply Z.pow_pos_nonneg; lia). split; [intros [= E]; nia|by intros ->].
Qed.

Lemma mask_bytes_idem a m : mask_bytes (mask_bytes a m) m = mask_bytes a m.
Proof.
  revert m. induction a as [|x a IH]; intros [|y m]; try done. simpl. unfold mask_bytes in IH.
  by rewrite IH, <- Z.land_assoc, Z.land_diag.
Qed.

Lemma length_mask a m : length a = length m → length (mask_bytes a m) = length a.
Proof. intros Hl. unfold mask_bytes. rewrite length_zip_with. lia. Qed.

(** The mask of 96 bits or more keeps the first 12 bytes, a shorter one changes
    the last of them. *)
Lemma mask_keeps_12 n : 96 ≤ n ≤ 128 → take 12 (CIDRMask n 16) = replicate 12 255.
Proof.
  intros Hn. assert (Forall (λ n, take 12 (CIDRMask n 16) = replicate 12 255) (seqZ 96 33)) as H by by_decide.
  rewrite Forall_forall in H. apply H, elem_of_seqZ. lia.
Qed.
Lemma mask_cuts_12 n x : 0 ≤ n < 96 → byte_ok x → Z.land x (nth 11 (CIDRMask n 16) 0) ≠ 255.
Proof.
  intros Hn Hx.
  assert (Forall (λ n, nth 11 (CIDRMask n 16) 0 ∈ [0; 128; 192; 224; 240; 248; 252; 254]) (seqZ 0 96)) as H by by_decide.
  rewrite Forall_forall in H. specialize (H n ltac:(apply elem_of_seqZ; lia)).
  assert (Forall (λ m, Forall (λ x, Z.land x m ≠ 255) (seqZ 0 256)) [0; 128; 192; 224; 240; 248; 252; 254]) as Hm by by_decide.
  rewrite Forall_forall in Hm. specialize (Hm _ H). rewrite Forall_forall in Hm. apply Hm, elem_of_seqZ. unfold byte_ok in Hx. lia.
Qed.

Lemma land_255_id l : Forall byte_ok l → zip_with Z.land l (replicate (length l) 255) = l.
Proof.
  induction 1 as [|x l Hx Hl IH]; [done|]. simpl. rewrite IH. f_equal. change 255 with (Z.ones 8). rewrite Z.land_ones, Z.mod_small by (done || apply Hx). done.
Qed.

Lemma masked_not_v4 n a :
  length a = 16%nat → Forall byte_ok a → 0 ≤ n ≤ 128 → take 12 a ≠ v4InV6Prefix → take 12 (mask_bytes a (CIDRMask n 16)) ≠ v4InV6Prefix.
Proof.
  intros Hl Ha Hn Hno E. destruct (decide (96 ≤ n)).
  - apply Hno. rewrite <- E. unfold mask_bytes. rewrite zip_with_take, mask_keeps_12 by lia. symmetry.
    replace 12%nat with (length (take 12 a)) at 2 by (rewrite length_take; lia). apply land_255_id. by apply Forall_take.
  - assert (∃ x, a !! 11%nat = Some x) as [x Hx] by (apply lookup_lt_is_Some; lia).
    apply (mask_cuts_12 n x); [lia|rewrite Forall_lookup in Ha; by eapply Ha|].
    assert (CIDRMask n 16 !! 11%nat = Some (nth 11 (CIDRMask n 16) 0)) as Hm.
    { rewrite nth_lookup. destruct (lookup_lt_is_Some_2 (CIDRMask n 16) 11) as [y Hy]; [rewrite length_CIDRMask; lia|]. by rewrite Hy. }
    assert (take 12 (mask_bytes a (CIDRMask n 16)) !! 11%nat = Some 255) as H11 by (rewrite E; done).
    rewrite lookup_take_lt in H11 by lia. unfold mask_bytes in H11. rewrite lookup_zip_with, Hx, Hm in H11. by apply (inj Some) in H11.
Qed.

(** The network of a parsed block, and its mask. *)
Lemma block_network n a :
  addr_ok a → take 12 a ≠ v4InV6Prefix → 0 ≤ n ≤ 8 * Z.of_nat (length a) →
  let m := CIDRMask n (length a) in networkNumberAndMask (mkIPNet (Mask (As16 a) m) m) = (mask_bytes a m, m).
Proof.
  intros [Hl Ha] Hno Hn m. pose proof (length_CIDRMask n (length a) : length m = _) as Hm. pose proof (length_mask a m (eq_sym Hm)) as Hmm.
  unfold networkNumberAndMask, Mask, As16, To4. cbn [net_IP net_Mask]. destruct Hl as [Hl|Hl].
  - rewrite (decide_True (P := length a = 4%nat)) by done. rewrite (decide_True (P := length m = 4%nat ∧ _)).
    2: { split; [lia|]. rewrite length_app. split; [simpl; lia|done]. }
    change (drop 12 (v4InV6Prefix ++ a)) with a. rewrite (decide_True (P := length a = length m)) by lia.
    rewrite decide_True by lia. by rewrite decide_True by lia.
  - rewrite (decide_False (P := length a = 4%nat)) by lia. rewrite (decide_False (P := length m = 4%nat ∧ _)) by lia.
    rewrite (decide_True (P := length a = length m)) by lia. rewrite (decide_False (P := length (mask_bytes a m) = 4%nat)) by lia.
    rewrite (decide_False (P := length (mask_bytes a m) = 16%nat ∧ _)).
    + by rewrite decide_True by lia.
    + intros [_ E]. revert E. unfold m. rewrite Hl. apply masked_not_v4; try done. lia.
Qed.

(** A block [addr/n] that is not a mapped IPv4 block holds exactly the addresses
    of its family with the same [n] leading bits. *)
Lemma InCIDR_exact cidr addr mask a n ip :
  CutByte "/"%char cidr = Some (addr, mask) → ParseAddr addr = Some a → prefix_length mask = Some n →
  n ≤ 8 * Z.of_nat (length a) → take 12 a ≠ v4InV6Prefix → length ip = 16%nat → Forall byte_ok ip →
  let b := default ip (To4 ip) in
  InCIDR cidr ip = true ↔ length b = length a ∧ prefix n b = prefix n a.
Proof.
  intros Hc Ha Hn Hle Hno Hl Hb b. pose proof (ParseAddr_ok _ _ Ha) as Hok.
  assert (0 ≤ n) as Hn0.
  { unfold prefix_length in Hn. case_decide; [done|]. apply bind_Some in Hn as (w & Hw%parse_digits_nonneg & E); [|done]. case_decide; [|done]. by injection E as <-. }
  unfold InCIDR, ParseCIDR. rewrite Hc. cbn [mbind option_bind]. rewrite Ha. cbn [mbind option_bind]. rewrite Hn. cbn [mbind option_bind].
  rewrite decide_True by done. unfold Contains. rewrite (block_network n a Hok Hno) by done. fold b.
  pose proof (To4_ok ip Hl Hb) as [_ Hbb]. fold b in Hbb. rewrite mask_bytes_idem, length_mask by (by rewrite length_CIDRMask).
  rewrite andb_true_iff, !bool_decide_eq_true. split; intros [Hlen E]; (split; [done|]).
  - symmetry. apply (mask_prefix n a b); try done; apply Hok.
  - apply (mask_prefix n a b); try done; apply Hok.
Qed.

(** ** Host and port round trip *)
Lemma CutByte_first sep a b : sep ∉ a → CutByte sep (a ++ sep :: b) = Some (a, b).
Proof.
  induction a as [|c a IH]; simpl; intros Ha; [by rewrite decide_True|].
  apply not_elem_of_cons in Ha as [Hc Ha]. rewrite decide_False by done. by rewrite IH.
Qed.
Lemma CutLastByte_last sep a b : sep ∉ b → CutLastByte sep (a ++ sep :: b) = Some (a, b).
Proof.
  intros Hb. unfold CutLastByte. rewrite rev_app_distr. simpl. rewrite <- (assoc_L (++)). simpl.
  rewrite CutByte_first by (by rewrite <- in_rev, <- list_elem_of_In || by rewrite list_elem_of_In, <- in_rev, <- list_elem_of_In).
  simpl. by rewrite !rev_involutive.
Qed.

Definition no_brackets (s : gostring) : Prop := "["%char ∉ s ∧ "]"%char ∉ s.

Lemma split_join_host_port host port :
  no_brackets host → no_brackets port → ":"%char ∉ port → SplitHostPort (JoinHostPort host port) = Some host.
Proof.
  intros [Ho Hc] [Po Pc] Hp. unfold JoinHostPort, SplitHostPort. case_decide as Hk.
  - change (str "[" ++ host ++ str "]:" ++ port) with ("["%char :: host ++ "]"%char :: ":"%char :: port).
    assert (CutLastByte ":"%char ("["%char :: host ++ "]"%char :: ":"%char :: port) = Some ("["%char :: host ++ ["]"%char], port)) as ->.
    { rewrite <- (CutLastByte_last ":"%char _ port) by done. f_equal. simpl. by rewrite <- (assoc_L (++)). }
    cbn [mbind option_bind]. rewrite (CutByte_first "]"%char host) by done. cbn [mbind option_bind]. rewrite decide_True by done.
    rewrite decide_False; [done|].
    rewrite !elem_of_app, !elem_of_cons. intros H. naive_solver.
  - change (host ++ str ":" ++ port) with (host ++ ":"%char :: port). rewrite CutLastByte_last by done. cbn [mbind option_bind].
    assert (¬ (":"%char ∈ host ∨ "["%char ∈ host ++ ":"%char :: port ∨ "]"%char ∈ host ++ ":"%char :: port)) as Hno
      by (rewrite !elem_of_app, !elem_of_cons; naive_solver).
    destruct (host ++ ":"%char :: port) as [|c s] eqn:E; [by rewrite decide_False|].
    assert (c ≠ "["%char) as Hne by (intros ->; apply Hno; right; left; constructor).
    repeat case_match; try (by rewrite decide_False); congruence.
Qed.
