(* ===== verification/GoTime.v ===== *)
(** * time.ParseDuration

    The standard library's parser of durations, which config.go uses for every
    interval: a signed sequence of decimal numbers with units.  A duration is a
    64-bit count of nanoseconds; the fractions go through [float64], here the
    binary64 operations of [SpecFloat]. *)

From Stdlib Require Import SpecFloat.
From S2P Require Import Prelude GoStrings.

Local Open Scope Z_scope.

(** ** float64 *)
Definition float_of (z : Z) : spec_float := binary_normalize 53 1024 z 0 false.
Definition fmul : spec_float → spec_float → spec_float := SFmul 53 1024.
Definition fdiv : spec_float → spec_float → spec_float := SFdiv 53 1024.
(** [uint64(f)] for a finite, non-negative [f] below 2^64. *)
Definition to_uint64 (f : spec_float) : Z :=
  match f with S754_finite false m e => Z.shiftl (Zpos m) e | _ => 0 end.

(** ** The parser *)
Definition is_digit : ascii → bool := in_range 48 57.
Definition digit_of (c : ascii) : Z := byte_val c - 48.

(** [leadingInt]: [None] on overflow. *)
Fixpoint leadingInt (x : Z) (s : gostring) : option (Z * gostring) :=
  match s with
  | c :: s' =>
      if is_digit c then
        if decide (x > 2 ^ 63 / 10) then None
        else let x := x * 10 + digit_of c in
             if decide (x > 2 ^ 63) then None else leadingInt x s'
      else Some (x, s)
  | [] => Some (x, [])
  end.

(** [leadingFraction]: the digits that fit, their scale, and the rest. *)
Fixpoint leadingFraction (x : Z) (scale : spec_float) (overflow : bool) (s : gostring) : Z * spec_float * gostring :=
  match s with
  | c :: s' =>
      if is_digit c then
        if overflow then leadingFraction x scale true s'
        else if decide (x > (2 ^ 63 - 1) / 10) then leadingFraction x scale true s'
        else let y := x * 10 + digit_of c in
             if decide (y > 2 ^ 63) then leadingFraction x scale true s'
             else leadingFraction y (fmul scale (float_of 10)) false s'
      else (x, scale, s)
  | [] => (x, scale, [])
  end.

Definition is_unit_end (c : ascii) : bool := bool_decide (c = "."%char) || is_digit c.
Fixpoint span_unit (s : gostring) : gostring * gostring :=
  match s with
  | c :: s' => if is_unit_end c then ([], s) else let '(u, r) := span_unit s' in (c :: u, r)
  | [] => ([], [])
  end.

Definition unitMap (u : gostring) : option Z :=
  if decide (u = str "ns") then Some 1
  else if decide (u ∈ [str "us"; byte_of 194 :: byte_of 181 :: str "s"; byte_of 206 :: byte_of 188 :: str "s"]) then Some 1000
  else if decide (u = str "ms") then Some 1000000
  else if decide (u = str "s") then Some 1000000000
  else if decide (u = str "m") then Some 60000000000
  else if decide (u = str "h") then Some 3600000000000 else None.

(** One term: a number, perhaps with a fraction, and its unit. *)
Definition parse_term (s : gostring) : option (Z * gostring) :=
  match s with
  | [] => None
  | c :: _ =>
      if is_unit_end c then
        '(v, s1) ← leadingInt 0 s;
        let pre := bool_decide (length s1 ≠ length s) in
        let '(f, scale, s2, post) :=
          if decide (head s1 = Some "."%char)
          then let '(f, scale, s2) := leadingFraction 0 (float_of 1) false (tail s1) in
               (f, scale, s2, bool_decide (length s2 ≠ length (tail s1)))
          else (0, float_of 1, s1, false) in
        if negb pre && negb post then None
        else
          let '(u, rest) := span_unit s2 in
          unit ← unitMap u;
          if decide (v > 2 ^ 63 / unit) then None
          else
            let v := v * unit in
            let v := if decide (f > 0) then v + to_uint64 (fmul (float_of f) (fdiv (float_of unit) scale)) else v in
            if decide (v > 2 ^ 63) then None else Some (v, rest)
      else None
  end.

(** The loop; every term takes at least one byte, so the length is fuel
    enough. *)
Fixpoint parse_terms (fuel : nat) (d : Z) (s : gostring) : option Z :=
  match s with
  | [] => Some d
  | _ =>
      match fuel with
      | O => None
      | S fuel =>
          '(v, s) ← parse_term s;
          let d := (d + v) mod 2 ^ 64 in
          if decide (d > 2 ^ 63) then None else parse_terms fuel d s
      end
  end.

Definition ParseDuration (s : gostring) : option Z :=
  let '(neg, s) := match s with "-"%char :: s' => (true, s') | "+"%char :: s' => (false, s') | _ => (false, s) end in
  if decide (s = str "0") then Some 0
  else if decide (s = []) then None
  else
    d ← parse_terms (length s) 0 s;
    if neg then Some (- d)
    else if decide (d > 2 ^ 63 - 1) then None else Some d.

Example parse_duration_ex :
  ParseDuration <$> [str "5s"; str "1h30m"; str "1.5h"; str "-250ms"; str "0"; str "100us"; str "1.000000001s"; str ".5m"; str "0.1s"; str "+1ns"]
  = Some <$> [5000000000; 5400000000000; 5400000000000; -250000000; 0; 100000; 1000000001; 30000000000; 100000000; 1].
Proof. vm_compute. reflexivity. Qed.
Example parse_duration_rejects :
  ParseDuration <$> [[]; str "5"; str "s"; str ".s"; str "5 s"; str "1d"; str "9223372036854775808ns"; str "-"; str "3000000h"; str "1h-1m"]
  = replicate 10 None.
Proof. vm_compute. reflexivity. Qed.
Example parse_duration_extremes :
  ParseDuration <$> [str "9223372036854775807ns"; str "-9223372036854775808ns"; str "2562047h47m16.854775807s"]
  = [Some (2 ^ 63 - 1); Some (- 2 ^ 63); Some (2 ^ 63 - 1)].
Proof. vm_compute. reflexivity. Qed.

(** The sum is taken at 64 bits before it is checked. *)
Example parse_duration_wraps : ParseDuration (str "9223372036854775808ns9223372036854775808ns") = Some 0.
Proof. vm_compute. reflexivity. Qed.

(** ** Properties *)
Lemma parse_terms_bounds fuel d s v : 0 ≤ d ≤ 2 ^ 63 → parse_terms fuel d s = Some v → 0 ≤ v ≤ 2 ^ 63.
Proof.
  revert d s. induction fuel as [|fuel IH]; intros d [|c s] Hd; cbn [parse_terms]; try by intros [= <-].
  destruct (parse_term (c :: s)) as [[w r]|]; [|done]. cbn [mbind option_bind]. case_decide; [done|]. apply IH.
  pose proof (Z.mod_pos_bound (d + w) (2 ^ 64)). lia.
Qed.

(** Whatever the text, an accepted duration fits 64 bits. *)
Theorem ParseDuration_bounds s d : ParseDuration s = Some d → - 2 ^ 63 ≤ d < 2 ^ 63.
Proof.
  unfold ParseDuration. match goal with |- context [let '(_, _) := ?m in _] => destruct m as [neg t] end. case_decide; [intros [= <-]; lia|].
  case_decide; [done|]. intros (v & Hv & E)%bind_Some. apply parse_terms_bounds in Hv; [|lia].
  destruct neg; [injection E as <-; lia|]. case_decide; [done|]. injection E as <-. lia.
Qed.

Lemma parse_digits_grows x s v : 0 ≤ x → parse_digits x s = Some v → x ≤ v.
Proof.
  revert x. induction s as [|c s IH]; intros x Hx; simpl; [intros [= <-]; lia|].
  unfold in_range. case_bool_decide; [|done]. intros Hv%IH; lia.
Qed.

Lemma leadingInt_digits x ds v u :
  0 ≤ x → parse_digits x ds = Some v → v ≤ 2 ^ 63 → (∀ c, head u = Some c → is_digit c = false) → leadingInt x (ds ++ u) = Some (v, u).
Proof.
  revert x. induction ds as [|c ds IH]; intros x Hx; simpl.
  - intros [= <-] _ Hu. destruct u as [|c u]; [done|]. simpl. by rewrite (Hu c).
  - unfold is_digit. destruct (in_range 48 57 c) eqn:Ec; [|done]. intros Hv Hle Hu.
    assert (48 ≤ byte_val c ≤ 57) as Hc by (unfold in_range in Ec; by apply bool_decide_eq_true in Ec).
    unfold digit_of. rewrite (Z.mul_comm x 10). assert (10 * x + (byte_val c - 48) ≤ v) by (eapply parse_digits_grows; [|exact Hv]; lia).
    rewrite decide_False by (pose proof (Z.div_le_lower_bound (2 ^ 63) 10 x); lia). rewrite decide_False by lia. by apply IH; [lia|..].
Qed.

Definition units : list gostring :=
  [str "ns"; str "us"; byte_of 194 :: byte_of 181 :: str "s"; byte_of 206 :: byte_of 188 :: str "s"; str "ms"; str "s"; str "m"; str "h"].

Lemma unit_shape u : u ∈ units → is_Some (unitMap u) ∧ (∀ c, head u = Some c → is_digit c = false) ∧ span_unit u = (u, []) ∧ head u ≠ Some "."%char
  ∧ ∀ v, unitMap u = Some v → 0 < v.
Proof.
  assert (Forall (λ u, is_Some (unitMap u) ∧ from_option is_digit false (head u) = false ∧ span_unit u = (u, []) ∧ head u ≠ Some "."%char
            ∧ 0 < default 1 (unitMap u)) units) as H by by_decide.
  rewrite Forall_forall in H. intros Hu. destruct (H u Hu) as (H1 & H2 & H3 & H4 & H5). split; [done|]. split; [by intros c Hc; rewrite Hc in H2|].
  split; [done|]. split; [done|]. intros v Hv. by rewrite Hv in H5.
Qed.

(** A whole number of any unit reads as that many units, up to the largest
    duration. *)
Theorem ParseDuration_whole n u unit :
  u ∈ units → unitMap u = Some unit → 0 ≤ n → n * unit < 2 ^ 63 → ParseDuration (FormatInt n ++ u) = Some (n * unit).
Proof.
  intros Hu Hunit Hn Hle. destruct (unit_shape u Hu) as (_ & Hhead & Hspan & Hne & Hpos). specialize (Hpos _ Hunit).
  assert (∃ c t, FormatInt n = c :: t ∧ is_digit c = true ∧ parse_digits 0 (FormatInt n) = Some n) as (c & t & Et & Hc & Hp).
  { destruct (FormatInt_shape n) as [[-> ->]|(p & d & Hd & Hnil & [[-> ->]|[-> _]])]; [by eexists _, _| |lia].
    destruct (digits_text d) as [|c t] eqn:E; [done|]. exists c, t. split; [done|]. split; [by eapply digits_text_head|].
    rewrite <- E, parse_digits_text, <- Hd. by rewrite DecimalPos.Unsigned.of_to. }
  assert (n ≤ 2 ^ 63) as Hn63 by nia.
  pose proof (leadingInt_digits 0 (FormatInt n) n u ltac:(lia) Hp Hn63 Hhead) as Hl.
  assert (parse_term (FormatInt n ++ u) = Some (n * unit, [])) as Hterm.
  { unfold parse_term. rewrite Et in *. cbn [app]. cbn [app] in Hl. unfold is_unit_end. rewrite Hc, orb_true_r, Hl. cbn [mbind option_bind].
    rewrite bool_decide_true by (simpl; rewrite length_app; lia). cbn [negb andb].
    rewrite decide_False by done. rewrite Hspan, Hunit. cbn [mbind option_bind]. rewrite decide_False.
    - rewrite (decide_False (P := 0 > 0)) by lia. by rewrite decide_False by lia.
    - pose proof (Z.div_le_lower_bound (2 ^ 63) unit n Hpos). lia. }
  unfold ParseDuration. rewrite Et in *. cbn [app] in *.
  assert (c ≠ "-"%char ∧ c ≠ "+"%char) as [Hm Hplus] by (split; intros ->; by vm_compute in Hc).
  assert ((match c :: t ++ u with "-"%char :: s' => (true, s') | "+"%char :: s' => (false, s') | _ => (false, c :: t ++ u) end)
          = (false, c :: t ++ u)) as -> by (repeat case_match; congruence).
  rewrite decide_False by (intros E; rewrite E in Hterm; by vm_compute in Hterm).
  rewrite decide_False by done. cbn [length parse_terms]. rewrite Hterm. cbn [mbind option_bind].
  rewrite Z.mod_small by lia. rewrite decide_False by lia.
  assert (∀ fuel d, parse_terms fuel d [] = Some d) as -> by (by intros []).
  cbn [mbind option_bind]. rewrite decide_False by lia. by rewrite Z.add_0_l.
Qed.
