(* ===== verification/NetUrl.v ===== *)
(** * net/url

    The part of the standard library's net/url that logger.go uses: [Parse],
    [Query], [Values.Encode] and [String].  The authority of an absolute URL
    (user and host) is read by a parameter, which gives both as [String] prints
    them; paths, queries and fragments are modelled. *)

From S2P Require Import Prelude GoStrings NetAddr.

Local Open Scope Z_scope.

(** ** Escaping *)
Inductive encoding := encodePath | encodeQueryComponent | encodeFragment.
#[global] Instance encoding_eq_dec : EqDecision encoding.
Proof. solve_decision. Defined.

Definition shouldEscape (c : ascii) (mode : encoding) : bool :=
  if in_range 97 122 c || in_range 65 90 c || in_range 48 57 c || bool_decide (c ∈ str "-_.~") then false
  else if bool_decide (c ∈ str "$&+,/:;=?@") then
    match mode with
    | encodePath => bool_decide (c = "?"%char)
    | encodeQueryComponent => true
    | encodeFragment => false
    end
  else match mode with encodeFragment => bool_decide (c ∉ str "!()*") | _ => true end.

Definition upper_hex (z : Z) : ascii := nth (Z.to_nat z) (str "0123456789ABCDEF") "0"%char.
Definition escape_byte (mode : encoding) (c : ascii) : gostring :=
  if shouldEscape c mode then
    if decide (c = " "%char ∧ mode = encodeQueryComponent) then str "+"
    else ["%"%char; upper_hex (byte_val c / 16); upper_hex (byte_val c mod 16)]
  else [c].
Definition escape (s : gostring) (mode : encoding) : gostring := s ≫= escape_byte mode.

(** [unescape]: [None] on a malformed escape. *)
Fixpoint unescape (s : gostring) (mode : encoding) : option gostring :=
  match s with
  | [] => Some []
  | "%"%char :: s' =>
      match s' with
      | h :: l :: rest => x ← hex_value h; y ← hex_value l; t ← unescape rest mode; Some (byte_of (x * 16 + y) :: t)
      | _ => None
      end
  | c :: s' =>
      t ← unescape s' mode;
      Some ((if decide (c = "+"%char ∧ mode = encodeQueryComponent) then " "%char else c) :: t)
  end.

Definition validEncoded (s : gostring) (mode : encoding) : bool :=
  forallb (λ c, bool_decide (c ∈ str "!$&'()*+,;=:@[]%") || negb (shouldEscape c mode)) s.

(** A component kept in both forms and printed by [EscapedPath] or
    [EscapedFragment]. *)
Definition escaped_form (raw decoded : gostring) (mode : encoding) : gostring :=
  if decide (raw ≠ escape decoded mode ∧ validEncoded raw mode = true) then raw
  else if decide (mode = encodePath ∧ decoded = str "*") then str "*" else escape decoded mode.

(** ** Queries *)
Abbreviation Values := (gmap gostring (list gostring)).

Definition cut_or_all (sep : ascii) (s : gostring) : gostring * gostring := default (s, []) (CutByte sep s).

(** The name and the value of a parameter, unless it is skipped. *)
Definition parse_pair (pair : gostring) : option (gostring * gostring) :=
  if decide (";"%char ∈ pair ∨ pair = []) then None
  else let '(key, value) := cut_or_all "="%char pair in
       key ← unescape key encodeQueryComponent; value ← unescape value encodeQueryComponent; Some (key, value).

Definition add_pair (m : Values) (pair : gostring) : Values :=
  match parse_pair pair with
  | Some (key, value) => <[key := default [] (m !! key) ++ [value]]> m
  | None => m
  end.

(** The number of parameters is bounded; past the bound nothing is read. *)
Definition defaultMaxParams : nat := 10000%nat.
Definition ParseQuery (query : gostring) : Values :=
  let pairs := Split query "&"%char in
  if (defaultMaxParams <? length pairs)%nat then ∅ else foldl add_pair ∅ pairs.

(** Byte-wise order of the keys. *)
Fixpoint string_leb (a b : gostring) : bool :=
  match a, b with
  | [], _ => true
  | _ :: _, [] => false
  | x :: a', y :: b' =>
      if decide (x = y) then string_leb a' b' else bool_decide (byte_val x < byte_val y)
  end.
Definition string_le (a b : gostring) : Prop := string_leb a b = true.
#[global] Instance string_le_dec a b : Decision (string_le a b).
Proof. unfold string_le. apply _. Defined.

Definition encode_key (v : Values) (k : gostring) : list gostring :=
  (λ x, escape k encodeQueryComponent ++ str "=" ++ escape x encodeQueryComponent) <$> default [] (v !! k).
Fixpoint join_amp (l : list gostring) : gostring :=
  match l with [] => [] | [x] => x | x :: l' => x ++ str "&" ++ join_amp l' end.
Definition Encode (v : Values) : gostring := join_amp (merge_sort string_le (map_to_list v).*1 ≫= encode_key v).

(** ** URLs *)
Record URL := mkURL {
  u_Scheme : gostring;
  u_Opaque : gostring;
  u_User : option gostring;      (* as [Userinfo.String] prints it *)
  u_Host : gostring;             (* as [String] prints it *)
  u_Path : gostring;             (* the escaped path *)
  u_OmitHost : bool;
  u_ForceQuery : bool;
  u_RawQuery : gostring;
  u_Fragment : gostring;         (* the escaped fragment *)
}.

Definition control_byte (c : ascii) : bool := bool_decide (byte_val c < 32 ∨ byte_val c = 127).

(** [getScheme]: the scheme, if any, and the rest; [first] holds at the start. *)
Fixpoint scan_scheme (first : bool) (s : gostring) : option (option (gostring * gostring)) :=
  match s with
  | [] => Some None
  | c :: s' =>
      if in_range 97 122 c || in_range 65 90 c || (in_range 48 57 c || bool_decide (c ∈ str "+-.")) && negb first then
        r ← scan_scheme false s'; Some ('(a, b) ← r; Some (c :: a, b))
      else if decide (c = ":"%char) then if first then None else Some (Some ([], s'))
      else Some None
  end.
Definition getScheme (s : gostring) : option (gostring * gostring) := r ← scan_scheme true s; Some (default ([], s) r).

Section url.
Context (parseAuthority : gostring → option (option gostring * gostring)).

(** [parse] after the fragment was cut. *)
Definition parse_url (raw : gostring) : option URL :=
  if existsb control_byte raw then None
  else if decide (raw = str "*") then Some (mkURL [] [] None [] (str "*") false false [] [])
  else
    '(scheme, rest) ← getScheme raw;
    let scheme := ToLower scheme in
    let '(rest, query, force) :=
      if decide (last rest = Some "?"%char ∧ count (λ c, c = "?"%char) rest = 1%nat) then (removelast rest, [], true)
      else let '(r, q) := cut_or_all "?"%char rest in (r, q, false) in
    if negb (HasPrefix rest (str "/")) && bool_decide (scheme ≠ []) then Some (mkURL scheme rest None [] [] false force query [])
    else if negb (HasPrefix rest (str "/")) && bool_decide (":"%char ∈ (cut_or_all "/"%char rest).1) then None
    else
      '(user, host, path, omit) ←
        (if (bool_decide (scheme ≠ []) || negb (HasPrefix rest (str "///"))) && HasPrefix rest (str "//") then
           let after := drop 2 rest in
           let '(authority, path) := match CutByte "/"%char after with Some (a, b) => (a, "/"%char :: b) | None => (after, []) end in
           '(user, host) ← parseAuthority authority; Some (user, host, path, false)
         else Some (None, [], rest, bool_decide (scheme ≠ []) && HasPrefix rest (str "/")));
      decoded ← unescape path encodePath;
      Some (mkURL scheme [] user host (escaped_form path decoded encodePath) omit force query []).

Definition Parse (rawURL : gostring) : option URL :=
  let '(u, frag) := cut_or_all "#"%char rawURL in
  url ← parse_url u;
  if decide (frag = []) then Some url
  else decoded ← unescape frag encodeFragment;
       Some (mkURL (u_Scheme url) (u_Opaque url) (u_User url) (u_Host url) (u_Path url) (u_OmitHost url) (u_ForceQuery url)
               (u_RawQuery url) (escaped_form frag decoded encodeFragment)).
End url.

Definition url_prefix (u : URL) : gostring :=
  (if decide (u_Scheme u = []) then [] else u_Scheme u ++ str ":")
  ++ (if decide (u_Opaque u ≠ [] ∨ u_Scheme u = [] ∧ u_Host u = [] ∧ u_User u = None) then []
      else if u_OmitHost u && bool_decide (u_Host u = [] ∧ u_User u = None) then []
      else (if decide (u_Host u ≠ [] ∨ u_Path u ≠ [] ∨ u_User u ≠ None) then str "//" else [])
           ++ match u_User u with Some ui => ui ++ str "@" | None => [] end ++ u_Host u).

Definition String (u : URL) : gostring :=
  let buf := url_prefix u in
  let buf :=
    if decide (u_Opaque u ≠ []) then buf ++ u_Opaque u
    else
      let path := u_Path u in
      let buf := if decide (path ≠ [] ∧ head path ≠ Some "/"%char ∧ u_Host u ≠ []) then buf ++ str "/" else buf in
      let buf := if decide (buf = [] ∧ ":"%char ∈ (cut_or_all "/"%char path).1) then str "./" else buf in
      buf ++ path in
  buf ++ (if u_ForceQuery u || bool_decide (u_RawQuery u ≠ []) then str "?" ++ u_RawQuery u else [])
  ++ (if decide (u_Fragment u = []) then [] else str "#" ++ u_Fragment u).

Example parse_string_ex :
  (λ s, String <$> Parse (λ a, Some (None, a)) (str s)) <$>
    ["/v1/events?ticket=a.b&x=1"; "HTTP://host/p?q"; "mailto:a"; "/a%2Fb?"; "a:b"; ":x"; "/%zz"; "//h"; "/a b#fr"; "*"; "a/b:c"; "http:///p"]%string
  = [Some (str "/v1/events?ticket=a.b&x=1"); Some (str "http://host/p?q"); Some (str "mailto:a"); Some (str "/a%2Fb?"); Some (str "a:b");
     None; None; Some (str "//h"); Some (str "/a%20b#fr"); Some (str "*"); Some (str "a/b:c"); Some (str "http:///p")].
Proof. vm_compute. reflexivity. Qed.
Example encode_ex :
  Encode (ParseQuery (str "b=2&a=x+y%2F&b=1&&c;d=3&e=%z&f")) = str "a=x+y%2F&b=2&b=1&f=".
Proof. vm_compute. reflexivity. Qed.
