(* ===== verification/Hashutil.v ===== *)
(** * internal/hashutil: FNV-1a hashing and partition index *)

From S2P Require Import Prelude.

Local Open Scope Z_scope.

Definition fnv_offset32 : Z := 2166136261.
Definition fnv_prime32 : Z := 16777619.

(** One round of [hash/fnv]'s 32-bit FNV-1a: xor the byte, then multiply, at
    the width of [uint32]. *)
Definition fnv32a_round (h : Z) (c : ascii) : Z :=
  (Z.lxor h (byte_val c) * fnv_prime32) mod 2 ^ 32.

Definition Fnv32a (s : gostring) : Z := foldl fnv32a_round fnv_offset32 s.

(** [None] is the division-by-zero panic of [% uint32(count)] when the
    conversion truncates [count] to zero. *)
Definition ShardIndex (key : gostring) (count : Z) : option Z :=
  if decide (count ≤ 1) then Some 0
  else
    let m := count mod 2 ^ 32 in
    if decide (m = 0) then None else Some (Fnv32a key mod m).

Lemma Fnv32a_range s : 0 ≤ Fnv32a s < 2 ^ 32.
Proof.
  unfold Fnv32a.
  assert (∀ h, 0 ≤ h < 2 ^ 32 → 0 ≤ foldl fnv32a_round h s < 2 ^ 32) as Hgen.
  { induction s as [|c s IH]; intros h Hh; [done|].
    apply IH. unfold fnv32a_round. apply Z.mod_pos_bound. lia. }
  apply Hgen. unfold fnv_offset32. lia.
Qed.

Lemma ShardIndex_in_range key count :
  count < 2 ^ 32 →
  ∃ i, ShardIndex key count = Some i ∧ 0 ≤ i < Z.max 1 count.
Proof.
  intros Hc. unfold ShardIndex. case_decide as H1; [exists 0; split; [done|lia]|].
  rewrite (Z.mod_small count) by lia. case_decide; [lia|].
  eexists; split; [done|].
  destruct (Z.mod_pos_bound (Fnv32a key) count); [lia|]. split; [done|]. by rewrite Z.max_r by lia.
Qed.

Example fnv_a : Fnv32a (str "a") = 0xe40c292c.
Proof. reflexivity. Qed.
Example fnv_foobar : Fnv32a (str "foobar") = 0xbf9cf968.
Proof. reflexivity. Qed.
