(* ===== verification/Chan.v ===== *)
(** * Buffered Go channels

    The channel operations the gateway uses: [make], a non-blocking send
    ([select] with a [default] case), a receive, and [close].  [None] is the
    run-time panic of a send on, or a second close of, a closed channel. *)

From S2P Require Import Prelude.

Record chan (A : Type) := Chan {
  buf : list A;
  cap : nat;
  is_closed : bool;
}.
Arguments Chan {A}.
Arguments buf {A}.
Arguments cap {A}.
Arguments is_closed {A}.

Definition make_chan {A} (n : nat) : chan A := Chan [] n false.

(** [select { case ch <- x: true; default: false }] *)
Definition try_send {A} (x : A) (ch : chan A) : option (bool * chan A) :=
  if is_closed ch then None
  else if decide (length (buf ch) < cap ch)
  then Some (true, Chan (buf ch ++ [x]) (cap ch) false)
  else Some (false, ch).

(** Outcome of a receive: a value, end of a closed and drained channel, or
    nothing available (the receive would block). *)
Inductive recv_result (A : Type) :=
| Received (x : A) (ch : chan A)
| EndOfStream
| WouldBlock.
Arguments Received {A}.
Arguments EndOfStream {A}.
Arguments WouldBlock {A}.

Definition recv {A} (ch : chan A) : recv_result A :=
  match buf ch with
  | x :: l => Received x (Chan l (cap ch) (is_closed ch))
  | [] => if is_closed ch then EndOfStream else WouldBlock
  end.

Definition close_chan {A} (ch : chan A) : option (chan A) :=
  if is_closed ch then None else Some (Chan (buf ch) (cap ch) true).

(** A channel holds at most its capacity. *)
Definition chan_wf {A} (ch : chan A) : Prop := length (buf ch) ≤ cap ch.

Lemma make_chan_wf {A} n : chan_wf (@make_chan A n).
Proof. unfold chan_wf. simpl. lia. Qed.

Lemma try_send_wf {A} (x : A) ch ok ch' :
  try_send x ch = Some (ok, ch') → chan_wf ch → chan_wf ch' ∧ cap ch' = cap ch ∧ is_closed ch' = is_closed ch.
Proof.
  unfold try_send, chan_wf. destruct (is_closed ch) eqn:E; [done|].
  case_decide; intros; simplify_eq; [|done]. simpl. rewrite length_app. simpl. split_and!; auto; lia.
Qed.

Lemma recv_wf {A} (x : A) ch ch' :
  recv ch = Received x ch' → chan_wf ch → chan_wf ch' ∧ cap ch' = cap ch ∧ is_closed ch' = is_closed ch.
Proof.
  unfold recv, chan_wf. destruct (buf ch) as [|y l] eqn:E; [by destruct (is_closed ch)|].
  intros [= -> <-]. simpl. intros Hle. split_and!; auto; lia.
Qed.
