(* ===== verification/Frame.v ===== *)
(** * internal/hub/frame.go: SSE frames

    The frame builders, and an event-stream reader written from the
    "text/event-stream" interpretation rules of the EventSource standard.  The
    reader is the specification: a frame is right when the browser reads the
    intended event from it and nothing else. *)

From S2P Require Import Prelude GoStrings.

Definition ConnectedEventType : gostring := str "connected".

(** A pre-serialised SSE frame; frames are immutable. *)
Record Frame := mkFrame { Data : gostring }.

Global Instance Frame_eq_dec : EqDecision Frame.
Proof. solve_decision. Defined.

Definition sanitizeHeader (s : gostring) : gostring :=
  if decide (s = []) then []
  else TrimSpace (ReplaceAll (ReplaceAll s [CR] []) [LF] []).

Definition NewDataFrame (eventType eventID payload : gostring) : Frame :=
  let cleanType := sanitizeHeader eventType in
  let cleanID := sanitizeHeader eventID in
  mkFrame
    ((if decide (cleanType = []) then [] else str "event: " ++ cleanType ++ [LF]) ++
     (if decide (cleanID = []) then [] else str "id: " ++ cleanID ++ [LF]) ++
     str "data: " ++ payload ++ [LF; LF]).

Definition NewHeartbeatFrame (comment : gostring) : Frame :=
  let trimmed := TrimSpace comment in
  if decide (trimmed = []) then mkFrame (str ": ping" ++ [LF; LF])
  else
    let trimmed := if HasPrefix trimmed (str ":") then trimmed else str ": " ++ trimmed in
    mkFrame (trimmed ++ [LF; LF]).


Definition hex_digit (z : Z) : ascii :=
  default "0"%char (str "0123456789abcdef" !! Z.to_nat (z mod 16)).

(** [%q] ([strconv.Quote]) on a byte of an ASCII string. *)
Definition quote_byte (c : ascii) : gostring :=
  let z := byte_val c in
  if decide (c = DQUOTE ∨ c = BACKSLASH) then [BACKSLASH; c]
  else if decide (z = 7)%Z then [BACKSLASH; "a"%char]
  else if decide (z = 8)%Z then [BACKSLASH; "b"%char]
  else if decide (z = 9)%Z then [BACKSLASH; "t"%char]
  else if decide (z = 10)%Z then [BACKSLASH; "n"%char]
  else if decide (z = 11)%Z then [BACKSLASH; "v"%char]
  else if decide (z = 12)%Z then [BACKSLASH; "f"%char]
  else if decide (z = 13)%Z then [BACKSLASH; "r"%char]
  else if decide (32 ≤ z < 127)%Z then [c]
  else [BACKSLASH; "x"%char; hex_digit (z / 16); hex_digit z].

Definition Quote (s : gostring) : gostring := [DQUOTE] ++ (s ≫= quote_byte) ++ [DQUOTE].

(** [fmt.Sprintf] of the greeting.  The connection identifier is the hexadecimal
    text of random bytes, an ASCII string. *)
Definition connected_payload (connectionID : gostring) (heartbeatSec : Z) : gostring :=
  [ "{"%char; DQUOTE ] ++ str "connection_id" ++ [DQUOTE; ":"%char] ++ Quote connectionID ++
  [ ","%char; DQUOTE ] ++ str "heartbeat_seconds" ++ [DQUOTE; ":"%char] ++
  FormatInt heartbeatSec ++ str "}".

Definition NewConnectedFrame (connectionID : gostring) (heartbeatSec : Z) : Frame :=
  NewDataFrame ConnectedEventType (str "0") (connected_payload connectionID heartbeatSec).

(** ** The event-stream reader *)

Record sse_event := SseEvent {
  ev_type : gostring;
  ev_id : gostring;
  ev_data : gostring;
}.

Record sse_reader := SseReader {
  rd_line : gostring;          (* the line being read *)
  rd_cr : bool;                (* the previous byte was CR *)
  rd_type : gostring;          (* event type buffer *)
  rd_data : gostring;          (* data buffer, a line feed after each line *)
  rd_lastid : gostring;        (* last event ID buffer *)
  rd_out : list sse_event;     (* events dispatched so far *)
}.

Definition sse_init : sse_reader := SseReader [] false [] [] [] [].

(** Field name and value of a line: the value starts after the first colon,
    less one leading space. *)
Fixpoint split_field (line : gostring) : gostring * option gostring :=
  match line with
  | [] => ([], None)
  | c :: l =>
      if decide (c = ":"%char)
      then ([], Some (match l with
                      | x :: l' => if decide (x = " "%char) then l' else l
                      | [] => l
                      end))
      else let '(f, v) := split_field l in (c :: f, v)
  end.

Definition drop_last (s : gostring) : gostring := take (length s - 1) s.

Definition NUL : ascii := byte_of 0.

(** Process one complete line. *)
Definition end_line (cr : bool) (st : sse_reader) : sse_reader :=
  match st with
  | SseReader line _ ty data id out =>
      match line with
      | [] =>
          if decide (data = []) then SseReader [] cr [] [] id out
          else SseReader [] cr [] []
                 id (out ++ [SseEvent (if decide (ty = []) then str "message" else ty) id
                                      (drop_last data)])
      | _ =>
          let '(f, ov) := split_field line in
          let v := default [] ov in
          if decide (f = []) then SseReader [] cr ty data id out
          else if decide (f = str "event") then SseReader [] cr v data id out
          else if decide (f = str "data") then SseReader [] cr ty (data ++ v ++ [LF]) id out
          else if decide (f = str "id") then
            SseReader [] cr ty data (if decide (NUL ∈ v) then id else v) out
          else SseReader [] cr ty data id out
      end
  end.

(** Lines end with CRLF, LF or CR. *)
Definition sse_byte (st : sse_reader) (c : ascii) : sse_reader :=
  if decide (c = LF) then
    if rd_cr st
    then SseReader (rd_line st) false (rd_type st) (rd_data st) (rd_lastid st) (rd_out st)
    else end_line false st
  else if decide (c = CR) then end_line true st
  else SseReader (rd_line st ++ [c]) false (rd_type st) (rd_data st) (rd_lastid st) (rd_out st).

Definition sse_read (st : sse_reader) (s : gostring) : sse_reader := foldl sse_byte st s.

(** The events a browser dispatches from a stream. *)
Definition sse_parse (s : gostring) : list sse_event := rd_out (sse_read sse_init s).

(** ** Reading frames back *)

Lemma sse_read_app st a b : sse_read st (a ++ b) = sse_read (sse_read st a) b.
Proof. apply foldl_app. Qed.

Definition line_safe (s : gostring) : Prop := LF ∉ s ∧ CR ∉ s.

Global Instance line_safe_dec s : Decision (line_safe s).
Proof. apply _. Defined.

Lemma line_safe_app s t : line_safe (s ++ t) ↔ line_safe s ∧ line_safe t.
Proof. unfold line_safe. set_solver. Qed.

(** A complete safe line is processed as a unit. *)
Lemma sse_read_line l ty data id out :
  line_safe l →
  sse_read (SseReader [] false ty data id out) (l ++ [LF]) =
    end_line false (SseReader l false ty data id out).
Proof.
  assert (∀ l acc, line_safe l →
    sse_read (SseReader acc false ty data id out) l = SseReader (acc ++ l) false ty data id out) as Hgen.
  { clear l. induction l as [|c l IH]; intros acc [HL HC]; [simpl; by rewrite app_nil_r|].
    transitivity (sse_read (SseReader (acc ++ [c]) false ty data id out) l).
    { simpl. f_equal. unfold sse_byte. by rewrite !decide_False by set_solver. }
    rewrite IH by (split; set_solver). by rewrite <- (assoc_L (++)). }
  intros Hl. rewrite sse_read_app, Hgen by done. done.
Qed.

Lemma sanitizeHeader_safe s : line_safe (sanitizeHeader s).
Proof.
  unfold sanitizeHeader. case_decide; [split; apply not_elem_of_nil|].
  split; intros Hc%elem_of_TrimSpace.
  - apply elem_of_ReplaceAll_byte in Hc as [[_ ?]|?%elem_of_nil]; done.
  - apply elem_of_ReplaceAll_byte in Hc as [[Hc _]|?%elem_of_nil]; [|done].
    apply elem_of_ReplaceAll_byte in Hc as [[_ ?]|?%elem_of_nil]; done.
Qed.

(** A header line and a data line, whatever their text. *)
Lemma end_line_event v ty data id out :
  end_line false (SseReader (str "event: " ++ v) false ty data id out) =
    SseReader [] false v data id out.
Proof. reflexivity. Qed.

Lemma end_line_id v ty data id out :
  end_line false (SseReader (str "id: " ++ v) false ty data id out) =
    SseReader [] false ty data (if decide (NUL ∈ v) then id else v) out.
Proof. reflexivity. Qed.

Lemma end_line_data v ty data id out :
  end_line false (SseReader (str "data: " ++ v) false ty data id out) =
    SseReader [] false ty (data ++ v ++ [LF]) id out.
Proof. reflexivity. Qed.

Lemma end_line_comment v ty data id out :
  end_line false (SseReader (":"%char :: v) false ty data id out) =
    SseReader [] false ty data id out.
Proof. reflexivity. Qed.

(** What one data frame makes the reader dispatch. *)
Definition frame_event (eventType eventID payload lastid : gostring) : sse_event :=
  let ty := sanitizeHeader eventType in
  let id := sanitizeHeader eventID in
  SseEvent (if decide (ty = []) then str "message" else ty)
           (if decide (id = [] ∨ NUL ∈ id) then lastid else id) payload.

Lemma drop_last_snoc s c : drop_last (s ++ [c]) = s.
Proof. unfold drop_last. rewrite length_app. simpl. apply take_app_length'. lia. Qed.

(** A blank line dispatches the pending event. *)
Lemma end_line_blank ty data id out :
  data ≠ [] →
  sse_read (SseReader [] false ty data id out) [LF] =
    SseReader [] false [] [] id
      (out ++ [SseEvent (if decide (ty = []) then str "message" else ty) id (drop_last data)]).
Proof.
  intros Hd. transitivity (end_line false (SseReader [] false ty data id out)); [reflexivity|].
  unfold end_line. by rewrite decide_False.
Qed.

Lemma read_data_frame t i payload lastid out :
  line_safe payload →
  sse_read (SseReader [] false [] [] lastid out) (Data (NewDataFrame t i payload)) =
    SseReader [] false [] [] (ev_id (frame_event t i payload lastid))
              (out ++ [frame_event t i payload lastid]).
Proof.
  intros Hp. unfold NewDataFrame, frame_event. cbn [Data]. cbv zeta.
  pose proof (sanitizeHeader_safe t) as Ht. pose proof (sanitizeHeader_safe i) as Hi.
  set (ty := sanitizeHeader t) in *. set (id := sanitizeHeader i) in *.
  rewrite !sse_read_app.
  assert (sse_read (SseReader [] false [] [] lastid out)
            (if decide (ty = []) then [] else str "event: " ++ ty ++ [LF])
          = SseReader [] false ty [] lastid out) as ->.
  { case_decide as E; [by rewrite E|]. rewrite (assoc_L (++)), sse_read_line.
    - apply end_line_event.
    - apply line_safe_app. split; [by_decide|done]. }
  assert (sse_read (SseReader [] false ty [] lastid out)
            (if decide (id = []) then [] else str "id: " ++ id ++ [LF])
          = SseReader [] false ty [] (if decide (id = [] ∨ NUL ∈ id) then lastid else id) out) as ->.
  { case_decide as E; [by rewrite decide_True by auto|].
    rewrite (assoc_L (++)), sse_read_line; [|apply line_safe_app; split; [by_decide|done]].
    rewrite end_line_id. f_equal. repeat case_decide; naive_solver. }
  rewrite <- !sse_read_app. change [LF; LF] with ([LF] ++ [LF]).
  rewrite !(assoc_L (++)), sse_read_app, sse_read_line;
    [|apply line_safe_app; split; [by_decide|done]].
  rewrite end_line_data, end_line_blank, app_nil_l, drop_last_snoc; [done|].
  rewrite app_nil_l. by destruct payload.
Qed.

Lemma read_comment_line v lastid out :
  line_safe v →
  sse_read (SseReader [] false [] [] lastid out) ((":"%char :: v) ++ [LF; LF]) =
    SseReader [] false [] [] lastid out.
Proof.
  intros Hv. change [LF; LF] with ([LF] ++ [LF]). rewrite (assoc_L (++)), sse_read_app, sse_read_line.
  - by rewrite end_line_comment.
  - apply (line_safe_app [":"%char]). split; [by_decide|done].
Qed.

Lemma read_heartbeat_frame comment lastid out :
  line_safe comment →
  sse_read (SseReader [] false [] [] lastid out) (Data (NewHeartbeatFrame comment)) =
    SseReader [] false [] [] lastid out.
Proof.
  intros [HL HC]. unfold NewHeartbeatFrame.
  assert (line_safe (TrimSpace comment)) as Ht by (split; by intros ?%elem_of_TrimSpace).
  case_decide as E; [reflexivity|]. cbn [Data]. cbv zeta.
  unfold HasPrefix. destruct (CutPrefix (TrimSpace comment) (str ":")) as [r|] eqn:Ec; simpl.
  - apply CutPrefix_Some in Ec. rewrite Ec in *. apply (read_comment_line r).
    by apply (line_safe_app (str ":")).
  - apply (read_comment_line (" "%char :: TrimSpace comment)).
    apply (line_safe_app [" "%char]). split; [by_decide|done].
Qed.

(** ** Streams of frames *)
Inductive frame_desc :=
| FData (eventType eventID payload : gostring)
| FHeartbeat (comment : gostring).

Definition build_frame (d : frame_desc) : Frame :=
  match d with
  | FData t i p => NewDataFrame t i p
  | FHeartbeat c => NewHeartbeatFrame c
  end.

(** Only payloads and comments must be free of line breaks: event types and
    identifiers are arbitrary. *)
Definition desc_safe (d : frame_desc) : Prop :=
  match d with
  | FData _ _ p => line_safe p
  | FHeartbeat c => line_safe c
  end.

Global Instance desc_safe_dec d : Decision (desc_safe d).
Proof. destruct d; apply _. Defined.

(** The events a subscriber must see: one per data frame, none per heartbeat. *)
Fixpoint expected_events (lastid : gostring) (ds : list frame_desc) : list sse_event :=
  match ds with
  | [] => []
  | FData t i p :: ds' =>
      let e := frame_event t i p lastid in e :: expected_events (ev_id e) ds'
  | FHeartbeat _ :: ds' => expected_events lastid ds'
  end.

Definition stream (ds : list frame_desc) : gostring := ds ≫= (λ d, Data (build_frame d)).

Lemma read_stream ds lastid out :
  Forall desc_safe ds →
  rd_out (sse_read (SseReader [] false [] [] lastid out) (stream ds)) =
    out ++ expected_events lastid ds.
Proof.
  intros Hds. revert lastid out. induction Hds as [|[t i p|c] ds Hd _ IH]; intros lastid out.
  - simpl. by rewrite app_nil_r.
  - change (stream (FData t i p :: ds)) with (Data (NewDataFrame t i p) ++ stream ds).
    rewrite sse_read_app, read_data_frame by done. rewrite IH. simpl.
    by rewrite <- (assoc_L (++)).
  - change (stream (FHeartbeat c :: ds)) with (Data (NewHeartbeatFrame c) ++ stream ds).
    rewrite sse_read_app, read_heartbeat_frame by done. apply IH.
Qed.

(** C33: a stream of frames reads back as exactly the intended events, in
    order, with the intended types, identifiers and payloads; heartbeats are
    invisible.  Event types and identifiers may hold any bytes: carriage
    returns and line feeds in them cannot inject fields or events. *)
Theorem frames_roundtrip ds :
  Forall desc_safe ds → sse_parse (stream ds) = expected_events [] ds.
Proof. intros Hds. apply (read_stream ds [] [] Hds). Qed.

Definition hostile_type : gostring :=
  str "order.created" ++ [CR; LF] ++ str "event: fake.admin.event" ++ [LF; LF] ++ str "data: pwned".

Lemma frames_roundtrip_witness :
  sse_parse (stream [FHeartbeat (str "keepalive"); FData hostile_type (str "7") (str "ok")]) =
    [SseEvent (str "order.createdevent: fake.admin.eventdata: pwned") (str "7") (str "ok")].
Proof.
  exact (frames_roundtrip [FHeartbeat (str "keepalive"); FData hostile_type (str "7") (str "ok")]
           ltac:(by_decide)).
Defined.

Lemma Quote_byte_safe c : line_safe (quote_byte c).
Proof. revert c. apply byte_forall. by_decide. Qed.

Lemma Quote_safe s : line_safe (Quote s).
Proof.
  unfold Quote. rewrite !line_safe_app. split; [by_decide|]. split; [|by_decide].
  split; intros (c & Hc & _)%list_elem_of_bind; destruct (Quote_byte_safe c); auto.
Qed.

Lemma FormatInt_safe v : line_safe (FormatInt v).
Proof.
  assert (line_safe decimal_bytes) as [H1 H2] by by_decide.
  split; by intros ?%FormatInt_bytes.
Qed.

(** The greeting frame is read as one event of type "connected" with
    identifier "0" carrying the whole greeting object, for every connection
    identifier and heartbeat period. *)
Theorem connected_frame_reads id secs :
  sse_parse (Data (NewConnectedFrame id secs)) =
    [SseEvent ConnectedEventType (str "0") (connected_payload id secs)].
Proof.
  unfold sse_parse, NewConnectedFrame, sse_init. rewrite read_data_frame; [reflexivity|].
  unfold connected_payload. rewrite !line_safe_app.
  split_and!; first [apply Quote_safe|apply FormatInt_safe|by_decide].
Qed.
