(* ===== verification/Quota.v ===== *)
(** * internal/hub/quota.go: the connection quota tracker

    Every method of [QuotaTracker] runs under one mutex, so a method is an
    atomic function on the record and a concurrent execution is a sequence of
    such steps ([qsteps]).  The abstract state is the multiset of open sessions,
    a list of (tenant, user) pairs; [quota_inv] relates the two. *)

From S2P Require Import Prelude.

Local Open Scope Z_scope.

Record LimitsConfig := mkLimits {
  MaxConnections : Z;
  MaxConnectionsPerUser : Z;
  MaxConnectionsPerTenant : Z;
  MaxTopicsPerConnection : Z;
}.

(** The three sentinel errors, each with the limit its message carries. *)
Inductive QuotaErr :=
| ErrMaxConnectionsReached (limit : Z)
| ErrMaxConnectionsPerUserReached (limit : Z)
| ErrMaxConnectionsPerTenantReached (limit : Z).

Record QuotaTracker := mkQuota {
  activeConns : Z;
  userCounts : gmap gostring Z;
  tenantCounts : gmap gostring Z;
  qlimits : LimitsConfig;
}.

Definition NewQuotaTracker (limits : LimitsConfig) : QuotaTracker :=
  mkQuota 0 ∅ ∅ limits.

(** [tenantID + ":" + userID] *)
Definition userKey (tenantID userID : gostring) : gostring :=
  tenantID ++ str ":" ++ userID.

(** Reading a Go map of integers: the zero value when the key is absent. *)
Definition map_get (m : gmap gostring Z) (k : gostring) : Z := default 0 (m !! k).

Definition checkUnderLock (q : QuotaTracker) (tenantID userID : gostring)
    : result QuotaErr () :=
  let l := qlimits q in
  if decide (MaxConnections l > 0 ∧ activeConns q >= MaxConnections l)
  then Err (ErrMaxConnectionsReached (MaxConnections l))
  else if decide (MaxConnectionsPerUser l > 0 ∧ userID ≠ []
                  ∧ map_get (userCounts q) (userKey tenantID userID) >= MaxConnectionsPerUser l)
  then Err (ErrMaxConnectionsPerUserReached (MaxConnectionsPerUser l))
  else if decide (MaxConnectionsPerTenant l > 0 ∧ tenantID ≠ []
                  ∧ map_get (tenantCounts q) tenantID >= MaxConnectionsPerTenant l)
  then Err (ErrMaxConnectionsPerTenantReached (MaxConnectionsPerTenant l))
  else Ok ().

Definition Check (q : QuotaTracker) (tenantID userID : gostring) : result QuotaErr () :=
  checkUnderLock q tenantID userID.

(** [m[k]++] *)
Definition map_incr (k : gostring) (m : gmap gostring Z) : gmap gostring Z :=
  <[k := map_get m k + 1]> m.

(** [if m[k] > 0 { m[k]--; if m[k] == 0 { delete(m, k) } }] *)
Definition map_decr (k : gostring) (m : gmap gostring Z) : gmap gostring Z :=
  if decide (map_get m k > 0) then
    let m' := <[k := map_get m k - 1]> m in
    if decide (map_get m' k = 0) then delete k m' else m'
  else m.

Definition Acquire (tenantID userID : gostring) (q : QuotaTracker)
    : result QuotaErr () * QuotaTracker :=
  match checkUnderLock q tenantID userID with
  | Err e => (Err e, q)
  | Ok _ =>
      (Ok (),
       mkQuota (activeConns q + 1)
               (map_incr (userKey tenantID userID) (userCounts q))
               (if decide (tenantID = []) then tenantCounts q
                else map_incr tenantID (tenantCounts q))
               (qlimits q))
  end.

Definition Release (tenantID userID : gostring) (q : QuotaTracker) : QuotaTracker :=
  mkQuota (if decide (activeConns q > 0) then activeConns q - 1 else activeConns q)
          (map_decr (userKey tenantID userID) (userCounts q))
          (if decide (tenantID = []) then tenantCounts q
           else map_decr tenantID (tenantCounts q))
          (qlimits q).

Definition ActiveCount (q : QuotaTracker) : Z := activeConns q.

(** ** Abstract state: the multiset of open sessions *)
Abbreviation session := (gostring * gostring)%type (only parsing).

Definition user_sessions (k : gostring) (S : list session) : nat :=
  count (λ s, userKey s.1 s.2 = k) S.
Definition tenant_sessions (t : gostring) (S : list session) : nat :=
  count (λ s, s.1 = t) S.

(** A counter map holds exactly the positive counts. *)
Definition counts (m : gmap gostring Z) (f : gostring → nat) : Prop :=
  ∀ k, m !! k = if decide (f k = 0%nat) then None else Some (Z.of_nat (f k)).

Record limits_ok (l : LimitsConfig) (S : list session) : Prop := {
  lim_total : MaxConnections l > 0 → Z.of_nat (length S) ≤ MaxConnections l;
  lim_user t u : MaxConnectionsPerUser l > 0 → u ≠ [] →
    Z.of_nat (count (.= (t, u)) S) ≤ MaxConnectionsPerUser l;
  lim_tenant t : MaxConnectionsPerTenant l > 0 → t ≠ [] →
    Z.of_nat (tenant_sessions t S) ≤ MaxConnectionsPerTenant l;
}.

Record quota_inv (S : list session) (q : QuotaTracker) : Prop := {
  qi_active : activeConns q = Z.of_nat (length S);
  qi_user : counts (userCounts q) (λ k, user_sessions k S);
  qi_tenant : counts (tenantCounts q) (λ t, if decide (t = []) then 0%nat else tenant_sessions t S);
  qi_limits : limits_ok (qlimits q) S;
}.

(** ** Counter maps *)
Lemma counts_get m f k : counts m f → map_get m k = Z.of_nat (f k).
Proof. intros H. unfold map_get. rewrite H. case_decide; simpl; lia. Qed.

Lemma map_get_insert m k v : map_get (<[k := v]> m) k = v.
Proof. unfold map_get. by rewrite lookup_insert_eq. Qed.

Lemma counts_incr m f g k :
  counts m f → g k = S (f k) → (∀ k', k' ≠ k → g k' = f k') → counts (map_incr k m) g.
Proof.
  intros Hm Hk Hne k'. unfold map_incr. rewrite (counts_get m f) by done.
  destruct (decide (k' = k)) as [->|Hk'].
  - rewrite lookup_insert_eq, decide_False by lia. f_equal. lia.
  - rewrite lookup_insert_ne by done. rewrite Hm, Hne by done. done.
Qed.

Lemma counts_decr m f g k :
  counts m f → f k = S (g k) → (∀ k', k' ≠ k → g k' = f k') → counts (map_decr k m) g.
Proof.
  intros Hm Hk Hne k'. unfold map_decr.
  rewrite decide_True by (rewrite (counts_get m f) by done; lia).
  rewrite (counts_get m f), Hk, map_get_insert by done.
  destruct (decide (k' = k)) as [->|Hk'].
  - case_decide as E.
    + rewrite lookup_delete_eq, decide_True by lia. done.
    + rewrite lookup_insert_eq, decide_False by lia. f_equal. lia.
  - case_decide; rewrite ?lookup_delete_ne, lookup_insert_ne by done;
      rewrite Hm, Hne by done; done.
Qed.

Lemma counts_ext m f g : (∀ k, f k = g k) → counts m f → counts m g.
Proof. intros H Hm k. by rewrite Hm, H. Qed.

(** ** Sessions *)
Lemma user_sessions_cons k s S :
  user_sessions k (s :: S) =
    ((if decide (userKey s.1 s.2 = k) then 1 else 0) + user_sessions k S)%nat.
Proof. unfold user_sessions. by rewrite count_cons. Qed.

Lemma tenant_sessions_cons t s S :
  tenant_sessions t (s :: S) =
    ((if decide (s.1 = t) then 1 else 0) + tenant_sessions t S)%nat.
Proof. unfold tenant_sessions. by rewrite count_cons. Qed.

Lemma exact_le_user_sessions t u S :
  (count (.= (t, u)) S ≤ user_sessions (userKey t u) S)%nat.
Proof. apply count_mono. by intros [] _ [= -> ->]. Qed.

Lemma limits_ok_perm l S S' : S ≡ₚ S' → limits_ok l S → limits_ok l S'.
Proof.
  intros HS [H1 H2 H3]. split; [by rewrite <- HS|intros t u|intros t].
  - rewrite <- (count_perm (.= (t, u)) _ _ HS). apply H2.
  - unfold tenant_sessions. rewrite <- (count_perm _ _ _ HS). apply H3.
Qed.

Lemma quota_inv_perm S S' q : S ≡ₚ S' → quota_inv S q → quota_inv S' q.
Proof.
  intros HS [H1 H2 H3 H4]. split.
  - by rewrite <- HS.
  - eapply counts_ext, H2. intros k. by apply count_perm.
  - eapply counts_ext, H3. intros k. simpl. case_decide; [done|]. by apply count_perm.
  - by eapply limits_ok_perm.
Qed.

Lemma limits_ok_tail l s S : limits_ok l (s :: S) → limits_ok l S.
Proof.
  intros [H1 H2 H3]. split.
  - intros ?. specialize (H1 ltac:(done)). simpl in H1. lia.
  - intros t u ? Hu. specialize (H2 t u ltac:(done) Hu). rewrite count_cons in H2. lia.
  - intros t ? Ht. specialize (H3 t ltac:(done) Ht). rewrite tenant_sessions_cons in H3. lia.
Qed.

(** ** Specification of the methods *)

(** What the admission check answers, read off the open sessions. *)
Definition spec_check (l : LimitsConfig) (S : list session) (t u : gostring)
    : result QuotaErr () :=
  if decide (MaxConnections l > 0 ∧ Z.of_nat (length S) >= MaxConnections l)
  then Err (ErrMaxConnectionsReached (MaxConnections l))
  else if decide (MaxConnectionsPerUser l > 0 ∧ u ≠ []
                  ∧ Z.of_nat (user_sessions (userKey t u) S) >= MaxConnectionsPerUser l)
  then Err (ErrMaxConnectionsPerUserReached (MaxConnectionsPerUser l))
  else if decide (MaxConnectionsPerTenant l > 0 ∧ t ≠ []
                  ∧ Z.of_nat (tenant_sessions t S) >= MaxConnectionsPerTenant l)
  then Err (ErrMaxConnectionsPerTenantReached (MaxConnectionsPerTenant l))
  else Ok ().

Lemma NewQuotaTracker_inv limits : quota_inv [] (NewQuotaTracker limits).
Proof.
  split; [done|by intros k|intros k; by destruct (decide (k = []))|].
  split; simpl; intros; try lia; cbn; lia.
Qed.

Lemma check_spec S q t u :
  quota_inv S q → checkUnderLock q t u = spec_check (qlimits q) S t u.
Proof.
  intros [H1 H2 H3 H4]. unfold checkUnderLock, spec_check.
  rewrite H1, (counts_get _ _ (userKey t u) H2), (counts_get _ _ t H3).
  destruct (decide (t = [])) as [->|Ht]; [|done].
  repeat (case_decide || f_equal); naive_solver.
Qed.

Lemma spec_check_ok_limits l S t u :
  limits_ok l S → spec_check l S t u = Ok () → limits_ok l ((t, u) :: S).
Proof.
  intros [H1 H2 H3] Hok. unfold spec_check in Hok.
  repeat (case_decide; [discriminate|]). split.
  - simpl. intros. specialize (H1 ltac:(done)). lia.
  - intros t' u' Hm Hu. rewrite count_cons. specialize (H2 t' u' Hm Hu).
    case_decide as Heq; [|simpl; lia]. simplify_eq.
    pose proof (exact_le_user_sessions t' u' S).
    assert (¬ Z.of_nat (user_sessions (userKey t' u') S) >= MaxConnectionsPerUser l)
      by naive_solver. lia.
  - intros t' Hm Ht. rewrite tenant_sessions_cons. specialize (H3 t' Hm Ht).
    simpl. case_decide; [subst|lia].
    assert (¬ Z.of_nat (tenant_sessions t' S) >= MaxConnectionsPerTenant l)
      by naive_solver. lia.
Qed.

Lemma Acquire_spec S q t u :
  quota_inv S q →
  ∃ q', Acquire t u q = (spec_check (qlimits q) S t u, q')
        ∧ qlimits q' = qlimits q
        ∧ match spec_check (qlimits q) S t u with
          | Ok _ => quota_inv ((t, u) :: S) q'
          | Err _ => q' = q
          end.
Proof.
  intros Hq. unfold Acquire. rewrite (check_spec S) by done.
  destruct (spec_check (qlimits q) S t u) as [[]|e] eqn:Hc; [|by eexists].
  eexists; split; [done|]. split; [done|]. destruct Hq as [H1 H2 H3 H4]. split; simpl.
  - lia.
  - eapply counts_incr; [exact H2| |]; cbv beta; intros; rewrite user_sessions_cons; simpl;
      [by rewrite decide_True|by rewrite decide_False].
  - destruct (decide (t = [])) as [->|Ht].
    + eapply counts_ext, H3. intros k. cbv beta. case_decide; [done|].
      rewrite tenant_sessions_cons. simpl. by rewrite decide_False.
    + eapply counts_incr; [exact H3| |]; cbv beta; [|intros k' Hk'].
      * by rewrite !decide_False, tenant_sessions_cons, decide_True by done.
      * case_decide; [done|]. rewrite tenant_sessions_cons. simpl. by rewrite decide_False.
  - by apply spec_check_ok_limits.
Qed.

Lemma Release_spec S q t u :
  quota_inv ((t, u) :: S) q → quota_inv S (Release t u q).
Proof.
  intros [H1 H2 H3 H4]. simpl in H1. split; simpl.
  - case_decide; lia.
  - eapply counts_decr; [exact H2| |]; cbv beta; intros; rewrite user_sessions_cons; simpl;
      [by rewrite decide_True|by rewrite decide_False].
  - destruct (decide (t = [])) as [->|Ht].
    + eapply counts_ext, H3. intros k. cbv beta. case_decide; [done|].
      rewrite tenant_sessions_cons. simpl. by rewrite decide_False.
    + eapply counts_decr; [exact H3| |]; cbv beta; [|intros k' Hk'].
      * by rewrite !decide_False, tenant_sessions_cons, decide_True by done.
      * case_decide; [done|]. rewrite tenant_sessions_cons. simpl. by rewrite decide_False.
  - by eapply limits_ok_tail.
Qed.

(** ** Concurrent executions

    Goroutines interleave at the granularity of the mutex.  A session is opened
    by a successful [Acquire] and closed by one [Release] of a session that is
    open; a rejected [Acquire] opens nothing. *)
Inductive qstep : list session * QuotaTracker → list session * QuotaTracker → Prop :=
| step_acquire S q t u q' :
    Acquire t u q = (Ok (), q') → qstep (S, q) ((t, u) :: S, q')
| step_reject S q t u e q' :
    Acquire t u q = (Err e, q') → qstep (S, q) (S, q')
| step_release S S' q t u :
    S ≡ₚ (t, u) :: S' → qstep (S, q) (S', Release t u q).

Lemma qstep_inv x y :
  qstep x y → quota_inv x.1 x.2 → quota_inv y.1 y.2 ∧ qlimits y.2 = qlimits x.2.
Proof.
  destruct 1 as [S q t u q' HA|S q t u e q' HA|S S' q t u HS]; simpl; intros Hq.
  - destruct (Acquire_spec S q t u Hq) as (q'' & E & El & Hm).
    rewrite HA in E. injection E as E1 ->. by rewrite <- E1 in Hm.
  - destruct (Acquire_spec S q t u Hq) as (q'' & E & El & Hm).
    rewrite HA in E. injection E as E1 ->. rewrite <- E1 in Hm. by subst.
  - split; [|done]. apply Release_spec. by eapply quota_inv_perm.
Qed.

Lemma qsteps_inv x y :
  rtc qstep x y → quota_inv x.1 x.2 → quota_inv y.1 y.2 ∧ qlimits y.2 = qlimits x.2.
Proof.
  induction 1 as [|x y z Hxy _ IH]; [done|]. intros Hx.
  destruct (qstep_inv _ _ Hxy Hx) as [Hy El]. destruct (IH Hy) as [? El'].
  split; [done|]. by rewrite El', El.
Qed.


Definition demo_limits : LimitsConfig := mkLimits 3 1 2 8.


(** [Acquire] answers exactly what the open sessions dictate, with the
    global limit reported before the user limit and the user limit before the
    tenant limit; on success the session is counted, on error the tracker is
    untouched.  [Release] of an open session undoes it, dropping map entries
    that reach zero. *)
Theorem quota_refines_sessions S q t u :
  quota_inv S q →
  (Acquire t u q).1 = spec_check (qlimits q) S t u
  ∧ (is_ok (Acquire t u q).1 = true → quota_inv ((t, u) :: S) (Acquire t u q).2)
  ∧ (is_ok (Acquire t u q).1 = false → (Acquire t u q).2 = q)
  ∧ Check q t u = (Acquire t u q).1
  ∧ (∀ S', S ≡ₚ (t, u) :: S' → quota_inv S' (Release t u q)).
Proof.
  intros Hq. destruct (Acquire_spec S q t u Hq) as (q' & -> & _ & Hm).
  unfold Check. rewrite (check_spec S) by done. simpl.
  split; [done|]. split; [|split]; [by destruct (spec_check _ _ _ _) ..|].
  split; [done|]. intros S' HS. by eapply Release_spec, quota_inv_perm.
Qed.

Lemma quota_refines_sessions_witness :
  (Acquire (str "t") (str "u") (NewQuotaTracker demo_limits)).1 = Ok ().
Proof.
  exact (proj1 (quota_refines_sessions [] (NewQuotaTracker demo_limits) (str "t") (str "u")
    (NewQuotaTracker_inv demo_limits))).
Defined.

(** The user counter is keyed by [tenantID + ":" + userID], which is not
    injective: a session of user [c] of tenant [a:b] consumes the quota of user
    [b:c] of tenant [a], whose first connection is then refused. *)
Theorem user_quota_crosses_tenants :
  let limits := mkLimits 0 1 0 0 in
  let q := (Acquire (str "a:b") (str "c") (NewQuotaTracker limits)).2 in
  userKey (str "a:b") (str "c") = userKey (str "a") (str "b:c")
  ∧ (Acquire (str "a") (str "b:c") q).1 = Err (ErrMaxConnectionsPerUserReached 1)
  ∧ (Acquire (str "a") (str "b:c") (NewQuotaTracker limits)).1 = Ok ().
Proof. vm_compute. done. Qed.

(** Tenants without a colon do not interfere. *)
Lemma userKey_inj t u t' u' :
  ":"%char ∉ t → ":"%char ∉ t' → userKey t u = userKey t' u' → t = t' ∧ u = u'.
Proof.
  unfold userKey. revert t'. induction t as [|c t IH]; intros [|c' t'] Ht Ht' H; simpl in H.
  - by injection H.
  - injection H as <- H. set_solver.
  - injection H as -> H. set_solver.
  - injection H as <- H. destruct (IH t') as [-> ->]; [set_solver..|done|done].
Qed.

(** Between tenants whose identifiers contain no colon the per-user count
    is exact: the counter read by the check is the number of open sessions of
    precisely that user of that tenant. *)
Theorem user_count_exact S q t u :
  quota_inv S q →
  ":"%char ∉ t → (∀ s, s ∈ S → ":"%char ∉ s.1) →
  map_get (userCounts q) (userKey t u) = Z.of_nat (count (.= (t, u)) S).
Proof.
  intros Hq Ht HS. rewrite (counts_get _ _ _ (qi_user _ _ Hq)). f_equal.
  apply count_ext. intros [t' u'] Hin. simpl. split; [|by intros [= -> ->]].
  intros Heq. apply userKey_inj in Heq as [-> ->]; [done| |done]. by apply (HS _ Hin).
Qed.

Definition demo_quota : QuotaTracker :=
  (Acquire (str "acme") (str "bob") (NewQuotaTracker demo_limits)).2.

Lemma demo_quota_inv : quota_inv [(str "acme", str "bob")] demo_quota.
Proof.
  destruct (Acquire_spec [] (NewQuotaTracker demo_limits) (str "acme") (str "bob")
              (NewQuotaTracker_inv _)) as (q' & E & _ & Hq).
  unfold demo_quota. rewrite E. exact Hq.
Qed.

Lemma user_count_exact_witness :
  map_get (userCounts demo_quota) (userKey (str "acme") (str "bob")) = 1.
Proof.
  apply (user_count_exact [(str "acme", str "bob")] demo_quota (str "acme") (str "bob")).
  - exact demo_quota_inv.
  - by_decide.
  - intros s ->%list_elem_of_singleton. by_decide.
Defined.
