(* ===== verification/Client.v ===== *)
(** * internal/hub/client.go: one SSE connection and its bounded queue

    A [*Client] is a handle: the fields that never change after [NewClient] and
    the address [ptr] of the mutable part.  The mutable part, [ClientState],
    lives in the hub's store so that every holder of the pointer (several shard
    maps, the HTTP handler) sees the same flags and the same queue.  Methods
    run in the panicking state monad over [ClientState]. *)

From S2P Require Import Prelude Chan Frame.

(** [type SlowPolicy string] *)
Abbreviation SlowPolicyT := gostring (only parsing).
Definition SlowPolicyDisconnect : SlowPolicyT := str "disconnect".
Definition SlowPolicyDropOldest : SlowPolicyT := str "drop_oldest".
Definition SlowPolicyDropNewest : SlowPolicyT := str "drop_newest".

Record Client := mkClient {
  ptr : positive;
  ID : gostring;
  UserID : gostring;
  TenantID : gostring;
  Topics : list gostring;
  SlowPolicy : SlowPolicyT;
  onSlow : bool;             (* the callback is non-nil *)
}.

Global Instance Client_eq_dec : EqDecision Client.
Proof. solve_decision. Defined.

Record ClientState := mkClientState {
  Send : chan Frame;
  closed : bool;
  closeOnce : bool;          (* the [sync.Once] has fired *)
  closeNotify : bool;        (* the notification channel is closed *)
  unregistered : bool;
}.

Definition set_Send (ch : chan Frame) (s : ClientState) : ClientState :=
  mkClientState ch (closed s) (closeOnce s) (closeNotify s) (unregistered s).
Definition set_unregistered (b : bool) (s : ClientState) : ClientState :=
  mkClientState (Send s) (closed s) (closeOnce s) (closeNotify s) b.

(** [NewClient]: the handle and the initial mutable state. *)
Definition NewClient (p : positive) (id userID tenantID : gostring) (topics : list gostring)
    (queueSize : Z) (policy : SlowPolicyT) (onSlow : bool) : Client * ClientState :=
  let queueSize := if decide (queueSize ≤ 0)%Z then 32%Z else queueSize in
  let policy := if decide (policy = []) then SlowPolicyDisconnect else policy in
  (mkClient p id userID tenantID topics policy onSlow,
   mkClientState (make_chan (Z.to_nat queueSize)) false false false false).

(** [c.unregistered.CompareAndSwap(false, true)] *)
Definition MarkUnregistered : M ClientState bool := λ s,
  if unregistered s then Some (false, s) else Some (true, set_unregistered true s).

(** [closeOnce.Do(...)]: set the flag and close the notification channel; a
    second [close] of that channel would panic. *)
Definition Close : M ClientState () := λ s,
  if closeOnce s then Some ((), s)
  else if closeNotify s then None
  else Some ((), mkClientState (Send s) true true true (unregistered s)).

Definition IsClosed (s : ClientState) : bool := closed s.
Definition Done (s : ClientState) : bool := closeNotify s.

(** A non-blocking send on the client's queue. *)
Definition send_nb (frame : Frame) : M ClientState bool := λ s,
  match try_send frame (Send s) with
  | None => None
  | Some (ok, ch) => Some (ok, set_Send ch s)
  end.

(** [select { case <-c.Send: default: }] *)
Definition discard_oldest : M ClientState () :=
  modify (λ s, match recv (Send s) with
               | Received _ ch => set_Send ch s
               | _ => s
               end).

(** [EnqueueFrame] returns whether the frame was queued, and whether the
    slow-client callback was invoked on the way. *)
Definition EnqueueFrame (c : Client) (frame : Frame) : M ClientState (bool * bool) :=
  isClosed ← gets closed;
  if isClosed : bool then mret (false, false)
  else
    sent ← send_nb frame;
    if sent : bool then mret (true, false)
    else if decide (SlowPolicy c = SlowPolicyDropOldest) then
      discard_oldest ;;
      sent2 ← send_nb frame;
      mret (sent2, false)
    else if decide (SlowPolicy c = SlowPolicyDropNewest) then
      mret (false, false)
    else
      Close ;; mret (false, onSlow c).

(** ** Invariant of a client *)
Record client_wf (s : ClientState) : Prop := {
  cw_once : closeOnce s = closed s;
  cw_notify : closeNotify s = closed s;
  cw_open : is_closed (Send s) = false;
  cw_bound : chan_wf (Send s);
  cw_cap : 0 < cap (Send s);
}.

Lemma NewClient_wf p id u t ks n pol cb : client_wf (NewClient p id u t ks n pol cb).2.
Proof.
  split; simpl; try done; [apply make_chan_wf|]. case_decide; simpl; lia.
Qed.

Lemma Close_spec s :
  client_wf s →
  Close s = Some ((), mkClientState (Send s) true true true (unregistered s)).
Proof.
  intros [H1 H2 _ _ _]. unfold Close. rewrite H1, H2. destruct s as [? [] ? ? ?]; simpl in *; by subst.
Qed.

Lemma Close_wf s : client_wf s → client_wf (mkClientState (Send s) true true true (unregistered s)).
Proof. by intros [H1 H2 H3 H4 H5]. Qed.

Lemma MarkUnregistered_spec s :
  MarkUnregistered s = Some (negb (unregistered s), set_unregistered true s).
Proof. unfold MarkUnregistered. by destruct s as [? ? ? ? []]. Qed.

Lemma set_unregistered_wf b s : client_wf s → client_wf (set_unregistered b s).
Proof. by intros [H1 H2 H3 H4 H5]. Qed.

Lemma set_Send_wf ch s :
  client_wf s → chan_wf ch → is_closed ch = false → cap ch = cap (Send s) →
  client_wf (set_Send ch s).
Proof. intros [H1 H2 H3 H4 H5] ? ? Hc. split; simpl; try done. by rewrite Hc. Qed.

(** What [EnqueueFrame] does, by cases on the flag, the room left and the
    policy. *)
Definition enqueue_result (c : Client) (frame : Frame) (s : ClientState)
    : (bool * bool) * ClientState :=
  let q := buf (Send s) in
  let upd l := set_Send (Chan l (cap (Send s)) false) s in
  if closed s then ((false, false), s)
  else if decide (length q < cap (Send s)) then ((true, false), upd (q ++ [frame]))
  else if decide (SlowPolicy c = SlowPolicyDropOldest) then ((true, false), upd (tail q ++ [frame]))
  else if decide (SlowPolicy c = SlowPolicyDropNewest) then ((false, false), s)
  else ((false, onSlow c), mkClientState (Send s) true true true (unregistered s)).

Lemma EnqueueFrame_spec c frame s :
  client_wf s → EnqueueFrame c frame s = Some (enqueue_result c frame s).
Proof.
  intros Hs. pose proof Hs as [H1 H2 H3 H4 H5]. unfold chan_wf in H4.
  unfold EnqueueFrame, enqueue_result, gets, mbind, M_bind. 
  destruct (closed s) eqn:Hc; [done|]. unfold send_nb at 1, try_send at 1. rewrite H3.
  case_decide as Hroom; [done|]. simpl. destruct s as [[q n cl] ? ? ? ?]; simpl in *; subst.
  case_decide as Hp; [|case_decide; [done|by unfold mbind, M_bind, Close]].
  destruct q as [|x q]; simpl in *; [lia|].
  unfold send_nb, try_send, set_Send. simpl. by rewrite decide_True by lia.
Qed.

Lemma EnqueueFrame_wf c frame s :
  client_wf s → client_wf (enqueue_result c frame s).2.
Proof.
  intros Hs. pose proof Hs as [H1 H2 H3 H4 H5]. unfold chan_wf in H4. unfold enqueue_result.
  repeat case_match; simpl; auto using Close_wf; apply set_Send_wf; auto;
    unfold chan_wf; simpl; rewrite length_app; simpl; [lia|].
  destruct (buf (Send s)); simpl in *; lia.
Qed.

Lemma EnqueueFrame_unregistered c frame s :
  unregistered (enqueue_result c frame s).2 = unregistered s.
Proof. unfold enqueue_result. by repeat case_match. Qed.
