(* ===== verification/ClientConc.v ===== *)
(** * internal/hub/client.go under concurrency

    Several lanes, the heartbeat loop and the HTTP handler use one client at
    the same time.  [EnqueueFrame] is cut here at its atomic operations (the
    load of the flag, each channel operation, the callback, [sync.Once]); the
    calls in progress interleave freely with each other, with the handler that
    drains the queue and with [Close].  [solo_EnqueueFrame] ties the cut to the
    method of [Client.v]: a call that runs alone is that method. *)

From S2P Require Import Prelude Chan Frame Client.

(** Where a call of [EnqueueFrame] stands. *)
Inductive pc :=
| PLoad (f : Frame)       (* before [c.closed.Load()] *)
| PSend (f : Frame)       (* before the first [select] *)
| PDiscard (f : Frame)    (* full, drop_oldest: before [case <-c.Send] *)
| PResend (f : Frame)     (* before the second [case c.Send <- frame] *)
| PSlow (f : Frame)       (* full, disconnect: before [c.onSlow(c)] *)
| PClose (f : Frame)      (* before [c.Close()] *)
| PRet (ok : bool) (f : Frame).

Record world := mkWorld {
  cstate : ClientState;
  calls : list pc;
  sent : list Frame;               (* frames put in the queue, in order *)
  removed : list (bool * Frame);   (* frames taken out: [true] by the handler *)
  slowCalls : nat;
}.

(** What an atomic operation reports besides the new state. *)
Record effect := mkEffect { eff_sent : list Frame; eff_removed : list (bool * Frame); eff_slow : nat }.
Definition silent : effect := mkEffect [] [] 0.

Section client.
Context (c : Client).

Definition after_full (f : Frame) : pc :=
  if decide (SlowPolicy c = SlowPolicyDropOldest) then PDiscard f
  else if decide (SlowPolicy c = SlowPolicyDropNewest) then PRet false f
  else PSlow f.

(** One atomic operation of a call; [None] is a panic or a finished call. *)
Definition atomic (p : pc) (s : ClientState) : option (pc * ClientState * effect) :=
  match p with
  | PLoad f => Some (if closed s then PRet false f else PSend f, s, silent)
  | PSend f =>
      match try_send f (Send s) with
      | None => None
      | Some (true, ch) => Some (PRet true f, set_Send ch s, mkEffect [f] [] 0)
      | Some (false, ch) => Some (after_full f, set_Send ch s, silent)
      end
  | PDiscard f =>
      match recv (Send s) with
      | Received x ch => Some (PResend f, set_Send ch s, mkEffect [] [(false, x)] 0)
      | _ => Some (PResend f, s, silent)
      end
  | PResend f =>
      match try_send f (Send s) with
      | None => None
      | Some (true, ch) => Some (PRet true f, set_Send ch s, mkEffect [f] [] 0)
      | Some (false, ch) => Some (PRet false f, set_Send ch s, silent)
      end
  | PSlow f => Some (PClose f, s, mkEffect [] [] (if onSlow c then 1 else 0))
  | PClose f =>
      match Close s with
      | None => None
      | Some (_, s') => Some (PRet false f, s', silent)
      end
  | PRet _ _ => None
  end.

(** A call that runs without interruption; six operations are enough. *)
Fixpoint solo (fuel : nat) (slow : nat) (p : pc) (s : ClientState) : option ((bool * bool) * ClientState) :=
  match fuel with
  | O => None
  | S n =>
      match p, atomic p s with
      | PRet ok _, _ => Some ((ok, bool_decide (0 < slow)), s)
      | _, None => None
      | _, Some (p', s', e) => solo n (slow + eff_slow e) p' s'
      end
  end.

Lemma solo_ret n slow ok f s : solo (S n) slow (PRet ok f) s = Some ((ok, bool_decide (0 < slow)), s).
Proof. done. Qed.

Lemma solo_next n slow p s :
  (∀ ok f, p ≠ PRet ok f) →
  solo (S n) slow p s = '(p', s', e) ← atomic p s; solo n (slow + eff_slow e) p' s'.
Proof.
  intros Hp. destruct p; try (cbn [solo]; by destruct (atomic _ _) as [[[]]|]). by destruct (Hp ok f).
Qed.

Ltac solo_step :=
  rewrite solo_next by done; unfold mbind; cbn [atomic option_bind eff_slow silent Nat.add].

Lemma solo_EnqueueFrame f s : solo 6 0 (PLoad f) s = EnqueueFrame c f s.
Proof.
  unfold EnqueueFrame, gets, discard_oldest, modify, send_nb, mbind, M_bind.
  solo_step. destruct (closed s); [done|].
  solo_step. destruct (try_send f (Send s)) as [[[] ch]|] eqn:E1; [done| |done].
  cbn [option_bind eff_slow silent Nat.add]. unfold after_full. case_decide as Hp.
  { solo_step. cbn [Send set_Send]. destruct (recv ch) as [x ch'| |]; cbn [option_bind eff_slow silent Nat.add];
      solo_step; cbn [Send set_Send]; repeat case_match; by simplify_eq. }
  case_decide; [done|]. solo_step. cbn [option_bind eff_slow]. solo_step.
  destruct (Close (set_Send ch s)) as [[[] s']|]; [|done].
  cbn [option_bind eff_slow silent]. rewrite solo_ret. by destruct (onSlow c).
Qed.

Inductive cstep : world → world → Prop :=
| start_call f w :
    cstep w (mkWorld (cstate w) (calls w ++ [PLoad f]) (sent w) (removed w) (slowCalls w))
| run_call i p p' s' e w :
    calls w !! i = Some p → atomic p (cstate w) = Some (p', s', e) →
    cstep w (mkWorld s' (<[i := p']> (calls w)) (sent w ++ eff_sent e)
               (removed w ++ eff_removed e) (slowCalls w + eff_slow e))
| handler_takes x ch w :
    recv (Send (cstate w)) = Received x ch →
    cstep w (mkWorld (set_Send ch (cstate w)) (calls w) (sent w)
               (removed w ++ [(true, x)]) (slowCalls w))
| close_client s' w :
    Close (cstate w) = Some ((), s') →
    cstep w (mkWorld s' (calls w) (sent w) (removed w) (slowCalls w)).

(** Executable form of [run_call], to evaluate schedules. *)
Fixpoint run_schedule (js : list nat) (w : world) : option world :=
  match js with
  | [] => Some w
  | i :: js' =>
      p ← calls w !! i;
      '(p', s', e) ← atomic p (cstate w);
      run_schedule js' (mkWorld s' (<[i := p']> (calls w)) (sent w ++ eff_sent e)
                          (removed w ++ eff_removed e) (slowCalls w + eff_slow e))
  end.

Lemma run_schedule_steps js w w' : run_schedule js w = Some w' → rtc cstep w w'.
Proof.
  revert w. induction js as [|i js IH]; intros w E; simpl in E; [by simplify_eq|].
  destruct (calls w !! i) as [p|] eqn:Ei; simpl in E; [|done].
  destruct (atomic p (cstate w)) as [[[p' s'] e]|] eqn:Ea; simpl in E; [|done].
  eapply rtc_l; [by eapply run_call|]. by apply IH.
Qed.

Definition received (w : world) : list Frame := (filter (λ x, x.1 = true) (removed w)).*2.
(** The frames whose call has returned [true]. *)
Definition returned_true (w : world) : list Frame :=
  omap (λ p, match p with PRet true f => Some f | _ => None end) (calls w).
Definition discarding (p : pc) : Prop := match p with PDiscard _ | PResend _ => True | _ => False end.

Record world_inv (n : nat) (w : world) : Prop := {
  wi_wf : client_wf (cstate w);
  wi_cap : cap (Send (cstate w)) = n;
  wi_flow : (removed w).*2 ++ buf (Send (cstate w)) = sent w;
  wi_accepted : returned_true w ≡ₚ sent w;
  wi_policy : SlowPolicy c ≠ SlowPolicyDropOldest →
              Forall (λ x, x.1 = true) (removed w) ∧ Forall (λ p, ¬ discarding p) (calls w);
}.

(** A non-blocking send on a well-formed client. *)
Lemma try_send_client f s :
  client_wf s →
  ∃ ok ch, try_send f (Send s) = Some (ok, ch) ∧ client_wf (set_Send ch s)
    ∧ cap ch = cap (Send s) ∧ buf ch = buf (Send s) ++ (if ok : bool then [f] else []).
Proof.
  intros Hwf. pose proof Hwf as [H1 H2 H3 H4 H5].
  unfold try_send. rewrite H3. case_decide; eexists _, _; (split; [done|]); simpl.
  - split; [|done]. apply set_Send_wf; try done. unfold chan_wf. simpl. rewrite length_app. simpl. lia.
  - rewrite app_nil_r. split; [|done]. by apply set_Send_wf.
Qed.

(** Effect of one atomic operation on the queue. *)
Lemma atomic_spec p s :
  client_wf s → (∀ ok f, p ≠ PRet ok f) →
  ∃ p' s' e, atomic p s = Some (p', s', e) ∧ client_wf s' ∧ cap (Send s') = cap (Send s)
    ∧ (eff_removed e).*2 ++ buf (Send s') = buf (Send s) ++ eff_sent e
    ∧ omap (λ p, match p with PRet true f => Some f | _ => None end) [p'] = eff_sent e
    ∧ (SlowPolicy c ≠ SlowPolicyDropOldest → ¬ discarding p →
       eff_removed e = [] ∧ ¬ discarding p').
Proof.
  intros Hwf Hret. pose proof Hwf as [H1 H2 H3 H4 H5].
  destruct p as [f|f|f|f|f|f|ok f]; simpl; [| | | | | |by destruct (Hret ok f)].
  - eexists _, _, _. split; [done|]. rewrite app_nil_r. by destruct (closed s).
  - destruct (try_send_client f s Hwf) as (ok & ch & -> & Hwf' & Hc & Hb).
    destruct ok; eexists _, _, _; (split; [done|]); simpl; rewrite Hb, ?app_nil_r; [done|].
    split_and!; try done; unfold after_full; repeat case_decide; done.
  - unfold recv. destruct (buf (Send s)) as [|x l] eqn:E.
    + rewrite H3. eexists _, _, _. split; [done|]. simpl. rewrite E. naive_solver.
    + eexists _, _, _. split; [done|]. simpl. rewrite app_nil_r. split_and!; try tauto.
      apply set_Send_wf; try done. unfold chan_wf in *. simpl. rewrite E in H4. simpl in H4. lia.
  - destruct (try_send_client f s Hwf) as (ok & ch & -> & Hwf' & Hc & Hb).
    destruct ok; eexists _, _, _; (split; [done|]); simpl; rewrite Hb, ?app_nil_r; naive_solver.
  - eexists _, _, _. split; [done|]. by rewrite app_nil_r.
  - rewrite Close_spec by done. eexists _, _, _. split; [done|]. simpl. rewrite app_nil_r.
    split; [by apply Close_wf|done].
Qed.

Lemma omap_insert {A B} (g : A → option B) (l : list A) i p p' :
  l !! i = Some p → g p = None → omap g (<[i := p']> l) ≡ₚ omap g l ++ omap g [p'].
Proof.
  intros Hi Hg. rewrite <- (take_drop_middle l i p Hi) at 2.
  rewrite insert_take_drop by (by eapply lookup_lt_Some).
  rewrite !omap_app. simpl. rewrite Hg. destruct (g p') as [y|]; simpl; [|by rewrite app_nil_r].
  rewrite <- (assoc_L (++)). apply Permutation_app_head, Permutation_cons_append.
Qed.

Lemma world_inv_call n i p p' s' e w :
  calls w !! i = Some p → atomic p (cstate w) = Some (p', s', e) → world_inv n w →
  world_inv n (mkWorld s' (<[i := p']> (calls w)) (sent w ++ eff_sent e)
                 (removed w ++ eff_removed e) (slowCalls w + eff_slow e)).
Proof.
  intros Hi Ha [Hwf Hcap Hflow Hacc Hpol].
  assert (∀ ok f, p ≠ PRet ok f) as Hret by (intros ok f ->; done).
  destruct (atomic_spec p (cstate w) Hwf Hret) as (p2 & s2 & e2 & E & S1 & S1' & S2 & S3 & S4).
  rewrite E in Ha. simplify_eq. split; simpl.
  - done.
  - done.
  - by rewrite fmap_app, <- (assoc_L (++)), S2, (assoc_L (++)), Hflow.
  - unfold returned_true in *. simpl. rewrite (omap_insert _ _ _ p p'), S3, Hacc; [done|done|].
    destruct p as [| | | | | |[] f]; done.
  - intros Hp. destruct (Hpol Hp) as [Hev Hall].
    destruct (S4 Hp) as [S5 S6]; [by eapply (Forall_lookup_1 _ _ _ _ Hall)|].
    rewrite S5, app_nil_r. split; [done|]. by apply Forall_insert.
Qed.

Lemma world_inv_step n w w' : cstep w w' → world_inv n w → world_inv n w'.
Proof.
  intros Hstep Hw.
  destruct Hstep as [f w|i p p' s' e w Hi Ha|x ch w Hr|s' w Hc];
    [|by eapply world_inv_call| |]; destruct Hw as [Hwf Hcap Hflow Hacc Hpol].
  - split; simpl; try done.
    + unfold returned_true. simpl. by rewrite omap_app, app_nil_r.
    + intros Hp. destruct (Hpol Hp). split; [done|]. apply Forall_app; split; [done|]. repeat constructor. tauto.
  - destruct (recv_wf _ _ _ Hr (cw_bound _ Hwf)) as (W1 & W2 & W3). split; simpl; try congruence.
    + apply set_Send_wf; [done..|by rewrite W3, (cw_open _ Hwf)|done].
    + unfold recv in Hr. destruct (buf (Send (cstate w))) as [|y l] eqn:E; [by case_match|].
      simplify_eq. simpl. rewrite fmap_app. simpl. by rewrite <- (assoc_L (++)), <- Hflow.
    + done.
    + intros Hp. destruct (Hpol Hp). split; [|done]. apply Forall_app; split; [done|]. by repeat constructor.
  - rewrite (Close_spec _ Hwf) in Hc. simplify_eq. split; simpl; try done. by apply Close_wf.
Qed.

Lemma world_inv_start s :
  client_wf s → buf (Send s) = [] → world_inv (cap (Send s)) (mkWorld s [] [] [] 0).
Proof. intros Hwf Hb. split; simpl; auto. Qed.

Lemma world_inv_reach n w w' : rtc cstep w w' → world_inv n w → world_inv n w'.
Proof. induction 1; eauto using world_inv_step. Qed.
End client.

Definition start_world (s : ClientState) : world := mkWorld s [] [] [] 0.

(** C32: whatever the interleaving of [EnqueueFrame] calls, of the handler that
    drains the queue and of [Close], the queue stays within its capacity; the
    frames the handler has received followed by those still queued are a
    subsequence of the frames that were queued, and exactly those frames, in
    the same order, unless the policy is drop_oldest; and a call returns [true]
    exactly for the frames that were queued. *)
Theorem client_stream_fifo c s w :
  client_wf s → buf (Send s) = [] → rtc (cstep c) (start_world s) w →
  length (buf (Send (cstate w))) ≤ cap (Send s)
  ∧ received w ++ buf (Send (cstate w)) `sublist_of` sent w
  ∧ (SlowPolicy c ≠ SlowPolicyDropOldest → received w ++ buf (Send (cstate w)) = sent w)
  ∧ returned_true w ≡ₚ sent w.
Proof.
  intros Hwf Hb Hrun.
  destruct (world_inv_reach c _ _ _ Hrun (world_inv_start c s Hwf Hb)) as [Wwf Wcap Wflow Wacc Wpol].
  assert (received w `sublist_of` (removed w).*2) as Hsub by apply sublist_filter_fmap.
  split_and!.
  - rewrite <- Wcap. apply Wwf.
  - rewrite <- Wflow. by apply sublist_app.
  - intros Hp. destruct (Wpol Hp) as [Hev _]. rewrite <- Wflow. f_equal. unfold received.
    by rewrite (filter_all _ _ Hev).
  - done.
Qed.

Definition demo_frame (n : nat) : Frame := mkFrame (replicate n LF).

(** A queue of one frame. *)
Definition demo_cs : Client * ClientState :=
  Eval vm_compute in NewClient 1 (str "c") (str "u") (str "t") [] 1 SlowPolicyDropOldest true.

(** Two overlapping calls on it. *)
Definition demo_world : world :=
  mkWorld (set_Send (Chan [demo_frame 2] 1 false) demo_cs.2)
    [PRet true (demo_frame 1); PRet true (demo_frame 2)]
    [demo_frame 1; demo_frame 2] [(false, demo_frame 1)] 0.

Lemma client_stream_fifo_witness :
  received demo_world ++ buf (Send (cstate demo_world)) `sublist_of` sent demo_world.
Proof.
  apply (client_stream_fifo demo_cs.1 demo_cs.2 demo_world).
  - split; vm_compute; try done; lia.
  - reflexivity.
  - eapply rtc_l; [apply (start_call _ (demo_frame 1))|].
    eapply rtc_l; [apply (start_call _ (demo_frame 2))|].
    apply (run_schedule_steps _ [0; 0; 1; 1; 1; 1]). vm_compute. reflexivity.
Defined.

(** [EnqueueFrame] never blocks or panics, keeps the queue within its
    capacity, and on every branch does what the policy says: a closed client
    refuses the frame; a queue with room takes it last; a full queue loses its
    oldest frame (drop_oldest), refuses the new one (drop_newest), or is kept as
    it is while the client is closed and the slow-client callback invoked (any
    other policy value). *)
Theorem enqueue_backpressure c frame s :
  client_wf s →
  ∃ ok slow s', EnqueueFrame c frame s = Some ((ok, slow), s') ∧ client_wf s'
    ∧ let q := buf (Send s) in let q' := buf (Send s') in
      (closed s = true → ok = false ∧ slow = false ∧ s' = s)
      ∧ (closed s = false → length q < cap (Send s) →
         ok = true ∧ slow = false ∧ q' = q ++ [frame] ∧ IsClosed s' = false)
      ∧ (closed s = false → length q = cap (Send s) →
         (SlowPolicy c = SlowPolicyDropOldest → ok = true ∧ slow = false ∧ q' = tail q ++ [frame] ∧ IsClosed s' = false)
         ∧ (SlowPolicy c = SlowPolicyDropNewest → ok = false ∧ slow = false ∧ s' = s)
         ∧ (SlowPolicy c ≠ SlowPolicyDropOldest → SlowPolicy c ≠ SlowPolicyDropNewest →
            ok = false ∧ slow = onSlow c ∧ q' = q ∧ IsClosed s' = true ∧ Done s' = true)).
Proof.
  intros Hwf. exists (enqueue_result c frame s).1.1, (enqueue_result c frame s).1.2, (enqueue_result c frame s).2.
  rewrite (EnqueueFrame_spec c frame s Hwf).
  split; [by destruct (enqueue_result c frame s) as [[]]|]. split; [by apply EnqueueFrame_wf|].
  unfold enqueue_result, IsClosed, Done. destruct (closed s) eqn:Ec; split_and!; try done; intros _ Hq.
  - by rewrite decide_True by done.
  - rewrite decide_False by lia. split_and!.
    + intros ->. by rewrite decide_True by done.
    + intros ->. rewrite decide_False by done. by rewrite decide_True by done.
    + intros ? ?. by rewrite !decide_False by done.
Qed.

Definition demo_full_client : Client * ClientState :=
  let '(c, s) := NewClient 1 (str "c") (str "u") (str "t") [] 1 [] true in
  (c, set_Send (Chan [demo_frame 1] 1 false) s).

Lemma enqueue_backpressure_witness :
  ∃ ok slow s', EnqueueFrame demo_full_client.1 (demo_frame 2) demo_full_client.2 = Some ((ok, slow), s')
    ∧ IsClosed s' = true.
Proof.
  destruct (enqueue_backpressure demo_full_client.1 (demo_frame 2) demo_full_client.2)
    as (ok & slow & s' & E & _ & _ & _ & H).
  { split; vm_compute; try done; lia. }
  exists ok, slow, s'. split; [exact E|]. apply H; by vm_compute.
Defined.
