(* ===== verification/Shard.v ===== *)
(** * internal/hub/shard.go: one partition of the hub

    A shard maps routing keys to the subscribed clients, by client identifier,
    and client identifiers to clients.  Each method runs under the shard's lock,
    so a method is a function on the record.  [shard_rel P Q s] describes a
    shard by the subscriptions [P k c] it holds and the clients [Q c] it lists. *)

From S2P Require Import Prelude Client.

Record Shard := mkShard {
  topics : gmap gostring (gmap gostring Client);
  clients : gmap gostring Client;
}.

Definition NewShard : Shard := mkShard ∅ ∅.

Definition Register (routingKey : gostring) (client : Client) (s : Shard) : Shard :=
  let clientMap := default ∅ (topics s !! routingKey) in
  mkShard (<[routingKey := <[ID client := client]> clientMap]> (topics s))
          (<[ID client := client]> (clients s)).

Definition Unregister (routingKey clientID : gostring) (s : Shard) : Shard :=
  mkShard
    (match topics s !! routingKey with
     | Some clientMap =>
         let clientMap := delete clientID clientMap in
         if decide (size clientMap = 0)
         then delete routingKey (topics s)
         else <[routingKey := clientMap]> (topics s)
     | None => topics s
     end)
    (delete clientID (clients s)).

Definition HasSubscribers (routingKey : gostring) (s : Shard) : bool :=
  match topics s !! routingKey with
  | Some clientMap => bool_decide (0 < size clientMap)
  | None => false
  end.

Section iteration.
Context `{!GoRange}.

Definition GetRecipients (routingKey : gostring) (s : Shard) : list Client :=
  match topics s !! routingKey with
  | Some clientMap =>
      if decide (size clientMap = 0) then [] else (range_map clientMap).*2
  | None => []
  end.

Definition GetAllClients (s : Shard) : list Client := (range_map (clients s)).*2.

Definition user_match (tenantID userID : gostring) (c : Client) : Prop :=
  TenantID c = tenantID ∧ UserID c = userID.

Global Instance user_match_dec t u c : Decision (user_match t u c).
Proof. apply _. Defined.

(** Body of the inner loop: drop one client identifier from one entry. *)
Definition drop_in_topic (clientID : gostring)
    (ts : gmap gostring (gmap gostring Client)) (e : gostring * gmap gostring Client) :=
  let clientMap := delete clientID e.2 in
  if decide (size clientMap = 0) then delete e.1 ts else <[e.1 := clientMap]> ts.

(** [for rKey, clientMap := range s.topics { ... }] *)
Definition drop_in_topics (clientID : gostring)
    (ts : gmap gostring (gmap gostring Client)) : gmap gostring (gmap gostring Client) :=
  foldl (drop_in_topic clientID) ts (range_map ts).

Definition InvalidateUser (tenantID userID : gostring) (s : Shard) : list Client * Shard :=
  let hits := filter (λ e, user_match tenantID userID e.2) (range_map (clients s)) in
  let matched := hits.*2 in
  (matched,
   mkShard (foldl (λ ts c, drop_in_topics (ID c) ts) (topics s) matched)
           (foldl (λ cs id, delete id cs) (clients s) hits.*1)).
End iteration.

(** ** Description of a shard by its subscriptions *)
Definition entry (o : option (gmap gostring Client)) (id : gostring) : option Client :=
  o ≫= (λ m, m !! id).
Definition sub (s : Shard) (k id : gostring) : option Client := entry (topics s !! k) id.

Record shard_rel (P : gostring → Client → Prop) (Q : Client → Prop) (s : Shard) : Prop := {
  sr_sub k id c : sub s k id = Some c ↔ P k c ∧ ID c = id;
  sr_clients id c : clients s !! id = Some c ↔ Q c ∧ ID c = id;
  sr_nonempty k m : topics s !! k = Some m → m ≠ ∅;
}.

(** Descriptions are used up to logical equivalence. *)
Global Instance shard_rel_proper :
  Proper (pointwise_relation _ (pointwise_relation _ iff) ==>
          pointwise_relation _ iff ==> eq ==> iff) shard_rel.
Proof.
  intros P P' HP Q Q' HQ s ? <-.
  split; intros [H1 H2 H3]; (split; [intros k id c|intros id c|done]).
  - by rewrite H1, (HP k c).
  - by rewrite H2, (HQ c).
  - by rewrite H1, (HP k c).
  - by rewrite H2, (HQ c).
Qed.

Lemma shard_rel_ext P P' Q Q' s :
  (∀ k c, P k c ↔ P' k c) → (∀ c, Q c ↔ Q' c) → shard_rel P Q s → shard_rel P' Q' s.
Proof. intros HP HQ H. by rewrite <- (shard_rel_proper P P' HP Q Q' HQ s s eq_refl). Qed.

Lemma NewShard_rel : shard_rel (λ _ _, False) (λ _, False) NewShard.
Proof.
  split; simpl.
  - intros k id c. unfold sub, entry. simpl. rewrite lookup_empty. simpl. naive_solver.
  - intros id c. rewrite lookup_empty. naive_solver.
  - intros k m. by rewrite lookup_empty.
Qed.

(** *** Removing one client identifier from an entry *)
Definition prune (id : gostring) (m : gmap gostring Client) : option (gmap gostring Client) :=
  let m' := delete id m in if decide (size m' = 0) then None else Some m'.

Lemma prune_lookup (id id' : gostring) (o : option (gmap gostring Client)) :
  entry (o ≫= prune id) id' = if decide (id' = id) then None else entry o id'.
Proof.
  unfold entry. destruct o as [m|]; simpl; [|by case_decide]. unfold prune.
  destruct (decide (id' = id)) as [->|Hne].
  - case_decide; simpl; [done|]. apply lookup_delete_eq.
  - case_decide as Hsz; simpl; [|by rewrite lookup_delete_ne].
    apply map_size_empty_inv in Hsz.
    by rewrite <- (lookup_delete_ne m id id'), Hsz, lookup_empty by done.
Qed.

Lemma prune_nonempty (id : gostring) (o : option (gmap gostring Client)) m : o ≫= prune id = Some m → m ≠ ∅.
Proof.
  destruct o as [m0|]; simpl; [|done]. unfold prune. case_decide as Hsz; [done|].
  intros [= <-] He. by rewrite He, map_size_empty in Hsz.
Qed.

Lemma Unregister_topics k id s k' :
  topics (Unregister k id s) !! k' =
    if decide (k' = k) then topics s !! k ≫= prune id else topics s !! k'.
Proof.
  unfold Unregister, prune. simpl. destruct (topics s !! k) as [m|] eqn:Em; simpl.
  - repeat case_decide; subst; rewrite ?lookup_delete_eq, ?lookup_insert_eq,
      ?lookup_delete_ne, ?lookup_insert_ne by done; done.
  - case_decide; by subst.
Qed.

Section drop.
Context `{!GoRange}.

Lemma drop_in_topic_lookup id ts k0 m0 k :
  ts !! k0 = Some m0 →
  drop_in_topic id ts (k0, m0) !! k =
    if decide (k = k0) then ts !! k ≫= prune id else ts !! k.
Proof.
  intros E. unfold drop_in_topic, prune. simpl. case_decide as Hsz;
    (case_decide; [subst|]); rewrite ?lookup_delete_eq, ?lookup_insert_eq, ?E,
      ?lookup_delete_ne, ?lookup_insert_ne by done; simpl; rewrite ?Hsz; done || by rewrite decide_False.
Qed.

Lemma drop_fold id l ts k :
  NoDup l.*1 → (∀ k m, (k, m) ∈ l → ts !! k = Some m) →
  foldl (drop_in_topic id) ts l !! k =
    if decide (k ∈ l.*1) then ts !! k ≫= prune id else ts !! k.
Proof.
  revert ts. induction l as [|[k0 m0] l IH]; intros ts Hnd Hl; [done|].
  rewrite fmap_cons in *. apply NoDup_cons in Hnd as [Hk0 Hnd].
  assert (ts !! k0 = Some m0) as E by (apply Hl; left).
  cbn [foldl]. rewrite IH; [|done|].
  - rewrite drop_in_topic_lookup by done. clear IH.
    destruct (decide (k = k0)) as [->|Hk]; repeat case_decide; set_solver.
  - intros k' m' Hin. rewrite drop_in_topic_lookup by done.
    rewrite decide_False; [apply Hl; by right|].
    intros ->. apply Hk0. apply list_elem_of_fmap. by exists (k0, m').
Qed.

Lemma drop_in_topics_lookup id ts k : drop_in_topics id ts !! k = ts !! k ≫= prune id.
Proof.
  unfold drop_in_topics. rewrite drop_fold.
  - case_decide as Hin; [done|]. destruct (ts !! k) as [m|] eqn:E; [|done].
    contradict Hin. apply list_elem_of_fmap. exists (k, m). split; [done|]. by apply elem_of_range_map.
  - apply NoDup_fst_range_map.
  - intros k' m'. apply elem_of_range_map.
Qed.

(** Dropping a list of identifiers from every entry. *)
Lemma drop_all_lookup l ts k id :
  entry (foldl (λ ts c, drop_in_topics (ID c) ts) ts l !! k) id =
    if decide (id ∈ ID <$> l) then None else entry (ts !! k) id.
Proof.
  revert ts. induction l as [|c l IH]; intros ts; simpl.
  { done. }
  rewrite IH, drop_in_topics_lookup, prune_lookup.
  repeat case_decide; set_solver.
Qed.

Lemma drop_all_nonempty l ts :
  (∀ k m, ts !! k = Some m → m ≠ ∅) →
  ∀ k m, foldl (λ ts c, drop_in_topics (ID c) ts) ts l !! k = Some m → m ≠ ∅.
Proof.
  revert ts. induction l as [|c l IH]; intros ts Hts; simpl; [done|].
  apply IH. intros k m. rewrite drop_in_topics_lookup. apply prune_nonempty.
Qed.

Lemma delete_all_lookup (l : list gostring) (cs : gmap gostring Client) id :
  foldl (λ cs id, delete id cs) cs l !! id = if decide (id ∈ l) then None else cs !! id.
Proof.
  revert cs. induction l as [|i l IH]; intros cs; simpl.
  { done. }
  rewrite IH, lookup_delete. repeat case_decide; set_solver.
Qed.
End drop.

Section rel.
Context (P : gostring → Client → Prop) (Q : Client → Prop).

Lemma Register_rel k c s :
  shard_rel P Q s →
  (∀ c', P k c' → ID c' = ID c → c' = c) →
  (∀ c', Q c' → ID c' = ID c → c' = c) →
  shard_rel (λ k' c', P k' c' ∨ (k' = k ∧ c' = c)) (λ c', Q c' ∨ c' = c) (Register k c s).
Proof.
  intros [H1 H2 H3] HP HQ. split; simpl.
  - intros k' id c'. specialize (H1 k' id c'). unfold sub, entry in *. simpl.
    destruct (decide (k' = k)) as [->|Hk].
    + rewrite lookup_insert_eq. simpl. destruct (decide (id = ID c)) as [->|Hid].
      * rewrite lookup_insert_eq. naive_solver.
      * rewrite lookup_insert_ne by done.
        destruct (topics s !! k); simpl in *; rewrite ?lookup_empty; naive_solver.
    + rewrite lookup_insert_ne by done. naive_solver.
  - intros id c'. specialize (H2 id c'). destruct (decide (id = ID c)) as [->|Hid].
    + rewrite lookup_insert_eq. naive_solver.
    + rewrite lookup_insert_ne by done. naive_solver.
  - intros k' m. destruct (decide (k' = k)) as [->|Hk].
    + rewrite lookup_insert_eq. intros [= <-]. apply insert_non_empty.
    + rewrite lookup_insert_ne by done. apply H3.
Qed.

Lemma Unregister_rel k c s :
  shard_rel P Q s →
  (∀ c', P k c' → ID c' = ID c → c' = c) →
  (∀ c', Q c' → ID c' = ID c → c' = c) →
  shard_rel (λ k' c', P k' c' ∧ ¬ (k' = k ∧ c' = c)) (λ c', Q c' ∧ c' ≠ c)
            (Unregister k (ID c) s).
Proof.
  intros [H1 H2 H3] HP HQ. split.
  - intros k' id c'. specialize (H1 k' id c'). unfold sub in *.
    rewrite Unregister_topics. case_decide as Hk; [subst k'|naive_solver].
    rewrite prune_lookup. case_decide; naive_solver.
  - intros id c'. specialize (H2 id c'). simpl. rewrite lookup_delete. case_decide; naive_solver.
  - intros k' m. rewrite Unregister_topics. case_decide; [apply prune_nonempty|apply H3].
Qed.

Lemma HasSubscribers_rel k s : shard_rel P Q s → HasSubscribers k s = true ↔ ∃ c, P k c.
Proof.
  intros [H1 H2 H3]. unfold HasSubscribers, sub, entry in *. split.
  - destruct (topics s !! k) as [m|] eqn:Em; [|done]. intros _.
    destruct (map_choose m) as (id & c & Hc); [by eapply H3|].
    exists c. apply (H1 k id c). by rewrite Em.
  - intros (c & Hc). pose proof (proj2 (H1 k (ID c) c) (conj Hc eq_refl)) as Hl.
    destruct (topics s !! k) as [m|] eqn:Em; [|done]. apply H3 in Em.
    apply bool_decide_eq_true, Nat.neq_0_lt_0. by rewrite map_size_empty_iff.
Qed.
End rel.

Section rel_iteration.
Context `{!GoRange} (P : gostring → Client → Prop) (Q : Client → Prop).

Lemma GetRecipients_elem k s c : shard_rel P Q s → c ∈ GetRecipients k s ↔ P k c.
Proof.
  intros [H1 H2 H3]. unfold GetRecipients. specialize (H1 k). unfold sub, entry in H1.
  destruct (topics s !! k) as [m|] eqn:Em; simpl in H1.
  - case_decide as Hsz; [apply map_size_empty_inv in Hsz; by apply H3 in Em|].
    rewrite elem_of_range_values. setoid_rewrite H1. naive_solver.
  - specialize (H1 (ID c) c). split; [by intros ?%elem_of_nil|naive_solver].
Qed.

Lemma GetAllClients_elem s c : shard_rel P Q s → c ∈ GetAllClients s ↔ Q c.
Proof.
  intros [H1 H2 H3]. unfold GetAllClients. rewrite elem_of_range_values.
  setoid_rewrite H2. naive_solver.
Qed.

(** Entries keyed by client identifier list distinct clients. *)
Lemma keyed_NoDup (l : list (gostring * Client)) :
  NoDup l.*1 → (∀ id c, (id, c) ∈ l → ID c = id) → NoDup l.*2.
Proof.
  intros Hnd Hl. apply (NoDup_fmap_1 ID).
  assert (ID <$> l.*2 = l.*1) as ->; [|done].
  rewrite <- list_fmap_compose. apply list_fmap_ext.
  intros i [id c] Hi. simpl. by eapply Hl, list_elem_of_lookup_2.
Qed.

Lemma GetRecipients_NoDup k s : shard_rel P Q s → NoDup (GetRecipients k s).
Proof.
  intros [H1 H2 H3]. unfold GetRecipients. destruct (topics s !! k) as [m|] eqn:Em; [|constructor].
  case_decide; [constructor|]. apply keyed_NoDup; [apply NoDup_fst_range_map|].
  intros id c Hc%elem_of_range_map. apply (H1 k id c). unfold sub, entry. by rewrite Em.
Qed.

Lemma GetAllClients_NoDup s : shard_rel P Q s → NoDup (GetAllClients s).
Proof.
  intros [H1 H2 H3]. apply keyed_NoDup; [apply NoDup_fst_range_map|].
  intros id c Hc%elem_of_range_map. by apply H2.
Qed.

Lemma InvalidateUser_matched t u s c :
  shard_rel P Q s → c ∈ (InvalidateUser t u s).1 ↔ Q c ∧ user_match t u c.
Proof.
  intros [H1 H2 H3]. unfold InvalidateUser. simpl. rewrite list_elem_of_fmap. split.
  - intros ([id c'] & -> & Hin). apply list_elem_of_filter in Hin as [Hm Hin].
    apply elem_of_range_map, H2 in Hin. naive_solver.
  - intros [HQ Hm]. exists (ID c, c). split; [done|]. apply list_elem_of_filter. split; [done|].
    apply elem_of_range_map, H2. naive_solver.
Qed.

Lemma InvalidateUser_NoDup t u s : shard_rel P Q s → NoDup (InvalidateUser t u s).1.
Proof.
  intros [H1 H2 H3]. unfold InvalidateUser. simpl.
  apply keyed_NoDup; [apply NoDup_fst_filter, NoDup_fst_range_map|].
  intros id c [_ Hc%elem_of_range_map]%list_elem_of_filter. by apply H2.
Qed.

Lemma InvalidateUser_rel t u s :
  shard_rel P Q s →
  (∀ k c c', P k c → Q c' → ID c = ID c' → c = c') →
  shard_rel (λ k c, P k c ∧ ¬ (Q c ∧ user_match t u c)) (λ c, Q c ∧ ¬ user_match t u c)
            (InvalidateUser t u s).2.
Proof.
  intros Hs Huniq. pose proof (λ c, InvalidateUser_matched t u s c Hs) as Hmatch.
  pose proof Hs as [H1 H2 H3]. split.
  - intros k id c. unfold sub, InvalidateUser. simpl.
    rewrite drop_all_lookup. fold (sub s k id).
    change (filter _ _).*2 with (InvalidateUser t u s).1.
    case_decide as Hin.
    + apply list_elem_of_fmap in Hin as (c' & -> & [HQ Hm]%Hmatch). naive_solver.
    + rewrite (H1 k id c). split; [|naive_solver]. intros [HP <-]. split; [|done].
      split; [done|]. intros HQm. apply Hin. apply list_elem_of_fmap. exists c.
      split; [done|]. by apply Hmatch.
  - intros id c. unfold InvalidateUser. simpl. rewrite delete_all_lookup.
    case_decide as Hin.
    + apply list_elem_of_fmap in Hin as ([id' c'] & -> & Hin). simpl.
      apply list_elem_of_filter in Hin as [Hm Hin]. apply elem_of_range_map in Hin as Hl. simpl in *.
      split; [done|]. intros [[HQ Hn] HI]. pose proof (proj2 (H2 id' c) (conj HQ HI)). naive_solver.
    + rewrite (H2 id c). split; [|naive_solver]. intros [HQ <-]. split; [|done].
      split; [done|]. intros Hm. apply Hin. apply list_elem_of_fmap. exists (ID c, c).
      split; [done|]. apply list_elem_of_filter. split; [done|]. apply elem_of_range_map, H2. done.
  - apply drop_all_nonempty, H3.
Qed.
End rel_iteration.
