(* ===== verification/Hub.v ===== *)
(** * internal/hub/hub.go: the sharded hub

    [Hub] is the shared state: the shards, the quota tracker, the store of the
    clients' mutable parts, the heartbeat loop and the observability callbacks.
    Methods run in the panicking state monad.  [hub_inv L h] is the refinement
    relation: [L] is the list of live connections, the abstract state of the
    hub, and it determines every map of every shard and every quota counter. *)

From S2P Require Import Prelude GoStrings Hashutil Chan Frame Quota Client Shard.

Local Open Scope Z_scope.

Inductive HubErr :=
| ErrMaxTopicsExceeded
| ErrHubClosed
| ErrQuota (e : QuotaErr).

Record Hub := mkHub {
  numShards : Z;
  shards : list Shard;
  limits : LimitsConfig;
  hub_closed : bool;
  quotas : QuotaTracker;
  heartbeatCancel : option positive;     (* context of the current loop *)
  heartbeats : gmap positive Frame;      (* loops whose context is not cancelled *)
  nextCtx : positive;
  onSlowClient : bool;                   (* callback installed *)
  onFanout : bool;
  store : gmap positive ClientState;     (* the mutable part of every client *)
  slowSeen : Z;                          (* invocations of the callbacks *)
  fanoutSeen : Z;
}.

(** Field updates. *)
Definition upd_shards (f : list Shard → list Shard) (h : Hub) : Hub :=
  mkHub (numShards h) (f (shards h)) (limits h) (hub_closed h) (quotas h) (heartbeatCancel h)
        (heartbeats h) (nextCtx h) (onSlowClient h) (onFanout h) (store h) (slowSeen h) (fanoutSeen h).
Definition upd_quotas (f : QuotaTracker → QuotaTracker) (h : Hub) : Hub :=
  mkHub (numShards h) (shards h) (limits h) (hub_closed h) (f (quotas h)) (heartbeatCancel h)
        (heartbeats h) (nextCtx h) (onSlowClient h) (onFanout h) (store h) (slowSeen h) (fanoutSeen h).
Definition upd_store (f : gmap positive ClientState → gmap positive ClientState) (h : Hub) : Hub :=
  mkHub (numShards h) (shards h) (limits h) (hub_closed h) (quotas h) (heartbeatCancel h)
        (heartbeats h) (nextCtx h) (onSlowClient h) (onFanout h) (f (store h)) (slowSeen h) (fanoutSeen h).
Definition upd_heartbeat (c : option positive) (hb : gmap positive Frame) (n : positive) (h : Hub) : Hub :=
  mkHub (numShards h) (shards h) (limits h) (hub_closed h) (quotas h) c hb n
        (onSlowClient h) (onFanout h) (store h) (slowSeen h) (fanoutSeen h).
Definition upd_closed (b : bool) (h : Hub) : Hub :=
  mkHub (numShards h) (shards h) (limits h) b (quotas h) (heartbeatCancel h)
        (heartbeats h) (nextCtx h) (onSlowClient h) (onFanout h) (store h) (slowSeen h) (fanoutSeen h).
Definition upd_callbacks (s f : bool) (h : Hub) : Hub :=
  mkHub (numShards h) (shards h) (limits h) (hub_closed h) (quotas h) (heartbeatCancel h)
        (heartbeats h) (nextCtx h) s f (store h) (slowSeen h) (fanoutSeen h).
Definition upd_seen (s f : Z) (h : Hub) : Hub :=
  mkHub (numShards h) (shards h) (limits h) (hub_closed h) (quotas h) (heartbeatCancel h)
        (heartbeats h) (nextCtx h) (onSlowClient h) (onFanout h) (store h) s f.

Definition NewHub (numShards : Z) (limits : LimitsConfig) : Hub :=
  let numShards := if decide (numShards ≤ 0) then 256 else numShards in
  mkHub numShards (replicate (Z.to_nat numShards) NewShard) limits false
        (NewQuotaTracker limits) None ∅ 1%positive false false ∅ 0 0.

(** [NewClient] allocates the mutable part of a client. *)
Definition alloc_client (c : Client) (s : ClientState) : M Hub () :=
  modify (upd_store (<[ptr c := s]>)).

Definition SetObservabilityCallbacks (onSlow onFanout : bool) : M Hub () :=
  modify (upd_callbacks onSlow onFanout).

(** [h.shards[hashutil.ShardIndex(key, h.numShards)]]: the shard's position, or
    a panic (division by zero, index out of range). *)
Definition getShard (routingKey : gostring) : M Hub nat := λ h,
  match ShardIndex routingKey (numShards h) with
  | None => None
  | Some idx =>
      if decide (Z.to_nat idx < length (shards h))%nat then Some (Z.to_nat idx, h) else None
  end.

(** A method call on the [i]-th shard. *)
Definition on_shard {A} (i : nat) (f : Shard → A * Shard) : M Hub A := λ h,
  match shards h !! i with
  | None => None
  | Some s => let '(a, s') := f s in Some (a, upd_shards (<[i := s']>) h)
  end.

Definition read_shard {A} (i : nat) (f : Shard → A) : M Hub A := λ h,
  match shards h !! i with
  | None => None
  | Some s => Some (f s, h)
  end.

(** A method call through a client pointer. *)
Definition on_client {A} (c : Client) (m : M ClientState A) : M Hub A := λ h,
  match store h !! ptr c with
  | None => None
  | Some s =>
      match m s with
      | None => None
      | Some (a, s') => Some (a, upd_store (<[ptr c := s']>) h)
      end
  end.

Definition CheckLimits (tenantID userID : gostring) (topicCount : Z) : M Hub (result HubErr ()) :=
  isClosed ← gets hub_closed;
  if isClosed : bool then mret (Err ErrHubClosed)
  else
    l ← gets limits;
    if decide (MaxTopicsPerConnection l > 0 ∧ topicCount > MaxTopicsPerConnection l)
    then mret (Err ErrMaxTopicsExceeded)
    else
      q ← gets quotas;
      mret (match Check q tenantID userID with Ok _ => Ok () | Err e => Err (ErrQuota e) end).

Definition quota_acquire (tenantID userID : gostring) : M Hub (result QuotaErr ()) := λ h,
  let '(r, q) := Acquire tenantID userID (quotas h) in Some (r, upd_quotas (λ _, q) h).

Definition Register (client : Client) (routingKeys : list gostring) : M Hub (result HubErr ()) :=
  isClosed ← gets hub_closed;
  if isClosed : bool then mret (Err ErrHubClosed)
  else
    l ← gets limits;
    if decide (MaxTopicsPerConnection l > 0
               ∧ Z.of_nat (length routingKeys) > MaxTopicsPerConnection l)
    then mret (Err ErrMaxTopicsExceeded)
    else
      r ← quota_acquire (TenantID client) (UserID client);
      match r with
      | Err e => mret (Err (ErrQuota e))
      | Ok _ =>
          for_range routingKeys (λ rKey,
            i ← getShard rKey;
            on_shard i (λ s, ((), Shard.Register rKey client s))) ;;
          mret (Ok ())
      end.

Definition Unregister (client : option Client) : M Hub () :=
  match client with
  | None => mret ()
  | Some client =>
      first ← on_client client MarkUnregistered;
      if first : bool then
        on_client client Client.Close ;;
        for_range (Topics client) (λ topic,
          i ← getShard topic;
          on_shard i (λ s, ((), Shard.Unregister topic (ID client) s))) ;;
        modify (upd_quotas (Release (TenantID client) (UserID client)))
      else mret ()
  end.

Definition HasSubscribers (routingKey : gostring) : M Hub bool :=
  i ← getShard routingKey;
  read_shard i (Shard.HasSubscribers routingKey).

Definition NotifySlowClient (c : Client) : M Hub () :=
  modify (λ h, if onSlowClient h then upd_seen (slowSeen h + 1) (fanoutSeen h) h else h).

(** [client.EnqueueFrame(frame)], whose slow-client callback is
    [NotifySlowClient]. *)
Definition enqueue (c : Client) (frame : Frame) : M Hub bool :=
  r ← on_client c (EnqueueFrame c frame);
  (if r.2 : bool then NotifySlowClient c else mret ()) ;;
  mret r.1.

Fixpoint enqueue_all (cs : list Client) (frame : Frame) : M Hub Z :=
  match cs with
  | [] => mret 0
  | c :: cs' =>
      ok ← enqueue c frame;
      n ← enqueue_all cs' frame;
      mret ((if ok : bool then 1 else 0) + n)
  end.

Definition ActiveConnections : M Hub Z := gets (λ h, ActiveCount (quotas h)).

(** The decryption callback of [ConditionalBroadcast] works on its own state
    [X] (the pipeline's); the hub is the other component. *)
Definition on_hub {X A} (m : M Hub A) : M (Hub * X) A := λ w,
  match m w.1 with None => None | Some (a, h) => Some (a, (h, w.2)) end.
Definition on_env {X A} (m : M X A) : M (Hub * X) A := λ w,
  match m w.2 with None => None | Some (a, x) => Some (a, (w.1, x)) end.

Section iteration.
Context `{!GoRange}.

Definition ConditionalBroadcast {X E} (routingKey : gostring)
    (decryptAndBuildFrame : M X (result E (option Frame))) : M (Hub * X) (result E Z) :=
  i ← on_hub (getShard routingKey);
  recipients ← on_hub (read_shard i (GetRecipients routingKey));
  if decide (recipients = []) then mret (Ok 0)
  else
    r ← on_env decryptAndBuildFrame;
    match r with
    | Err e => mret (Err e)
    | Ok None => mret (Ok 0)
    | Ok (Some frame) =>
        delivered ← on_hub (enqueue_all recipients frame);
        on_hub (modify (λ h, if onFanout h then upd_seen (slowSeen h) (fanoutSeen h + 1) h else h)) ;;
        mret (Ok delivered)
    end.

(** [for _, shard := range h.shards]: shard positions, in order. *)
Definition shard_positions (h : Hub) : list nat := seq 0 (length (shards h)).

Definition BroadcastHeartbeat (frame : Frame) : M Hub () :=
  idxs ← gets shard_positions;
  for_range idxs (λ i,
    cs ← read_shard i GetAllClients;
    enqueue_all cs frame ;; mret ()).

(** Body of the inner loop of [InvalidateUser]: [true] when this call is the
    one that unregistered the client. *)
Definition revoke_client (c : Client) : M Hub bool :=
  first ← on_client c MarkUnregistered;
  if first : bool then
    on_client c Client.Close ;;
    modify (upd_quotas (Release (TenantID c) (UserID c))) ;;
    mret true
  else mret false.

Fixpoint close_matched (cs : list Client) : M Hub Z :=
  match cs with
  | [] => mret 0
  | c :: cs' =>
      closedNow ← revoke_client c;
      n ← close_matched cs';
      mret ((if closedNow : bool then 1 else 0) + n)
  end.

Fixpoint invalidate_shards (tenantID userID : gostring) (idxs : list nat) : M Hub Z :=
  match idxs with
  | [] => mret 0
  | i :: idxs' =>
      matched ← on_shard i (Shard.InvalidateUser tenantID userID);
      n ← close_matched matched;
      m ← invalidate_shards tenantID userID idxs';
      mret (n + m)
  end.

Definition InvalidateUser (tenantID userID : gostring) : M Hub Z :=
  idxs ← gets shard_positions;
  invalidate_shards tenantID userID idxs.

(** Cancelling a context stops its heartbeat loop. *)
Definition cancel_heartbeat (h : Hub) : gmap positive Frame :=
  match heartbeatCancel h with
  | Some ctx => delete ctx (heartbeats h)
  | None => heartbeats h
  end.

Definition StartHeartbeat (interval : Z) (payload : gostring) : M Hub () :=
  if decide (interval ≤ 0) then mret ()
  else modify (λ h,
    upd_heartbeat (Some (nextCtx h))
      (<[nextCtx h := NewHeartbeatFrame payload]> (cancel_heartbeat h))
      (Pos.succ (nextCtx h)) h).

(** One tick of the loop with context [ctx]. *)
Definition heartbeat_tick (ctx : positive) : M Hub () :=
  hb ← gets heartbeats;
  match hb !! ctx with
  | Some frame => BroadcastHeartbeat frame
  | None => mret ()
  end.

Definition Close : M Hub () :=
  isClosed ← gets hub_closed;
  if isClosed : bool then mret ()
  else
    modify (upd_closed true) ;;
    modify (λ h, upd_heartbeat None (cancel_heartbeat h) (nextCtx h) h) ;;
    idxs ← gets shard_positions;
    for_range idxs (λ i,
      cs ← read_shard i GetAllClients;
      for_range cs (λ c, on_client c Client.Close)).
End iteration.
