(* ===== verification/HubSpec.v ===== *)
(** * The hub implements a set of live connections

    [hub_inv L h] relates the sharded state [h] to the list [L] of live
    connections: every topic map and client map of every shard, every quota
    counter and every client's flag is determined by [L].  Each operation of
    [Hub.v] is shown to run without panic and to act on [L] as its abstract
    counterpart. *)

From S2P Require Import Prelude GoStrings Hashutil Chan Frame Quota Client Shard Hub.

Local Open Scope Z_scope.

(** ** Placement of routing keys *)
Definition shard_of (n : Z) (k : gostring) : nat := Z.to_nat (default 0 (ShardIndex k n)).

(** Subscriptions [P k c] spread over the shards; [Q i c]: shard [i] lists [c]. *)
Record hub_rel (P : gostring → Client → Prop) (Q : nat → Client → Prop) (h : Hub) : Prop := {
  hr_num : 0 < numShards h < 2 ^ 32;
  hr_len : length (shards h) = Z.to_nat (numShards h);
  hr_shard i s : shards h !! i = Some s →
    shard_rel (λ k c, P k c ∧ shard_of (numShards h) k = i) (Q i) s;
}.

Lemma hub_rel_ext P P' Q Q' h :
  (∀ k c, P k c ↔ P' k c) → (∀ i c, Q i c ↔ Q' i c) → hub_rel P Q h → hub_rel P' Q' h.
Proof.
  intros HP HQ [H1 H2 H3]. split; [done..|]. intros i s Hs.
  eapply shard_rel_ext; [| |by apply (H3 i)]; [|apply HQ].
  intros k c. specialize (HP k c). simpl. tauto.
Qed.

Lemma hub_rel_same P Q h h' :
  numShards h' = numShards h → shards h' = shards h → hub_rel P Q h → hub_rel P Q h'.
Proof. intros E1 E2 [H1 H2 H3]. split; rewrite ?E1, ?E2; done. Qed.

(** Steps that only rewrite shards. *)
Definition shards_only (h h' : Hub) : Prop := h' = upd_shards (λ _, shards h') h.

Lemma shards_only_refl h : shards_only h h.
Proof. by destruct h. Qed.
Lemma shards_only_trans h1 h2 h3 : shards_only h1 h2 → shards_only h2 h3 → shards_only h1 h3.
Proof. unfold shards_only. intros H1 H2. rewrite H2, H1. by destruct h1. Qed.

Lemma shards_only_fields h h' :
  shards_only h h' →
  numShards h' = numShards h ∧ limits h' = limits h ∧ hub_closed h' = hub_closed h
  ∧ quotas h' = quotas h ∧ store h' = store h ∧ heartbeats h' = heartbeats h
  ∧ heartbeatCancel h' = heartbeatCancel h.
Proof. unfold shards_only. intros ->. by destruct h. Qed.

Lemma shard_of_lt n k : 0 < n < 2 ^ 32 → (shard_of n k < Z.to_nat n)%nat.
Proof.
  intros Hn. unfold shard_of. destruct (ShardIndex_in_range k n) as (i & -> & Hi); [lia|].
  simpl. lia.
Qed.

Lemma getShard_spec P Q k h :
  hub_rel P Q h → getShard k h = Some (shard_of (numShards h) k, h).
Proof.
  intros [H1 H2 H3]. pose proof (shard_of_lt (numShards h) k H1) as Hlt. unfold getShard, shard_of in *.
  destruct (ShardIndex_in_range k (numShards h)) as (i & E & Hi); [lia|].
  rewrite E in *. simpl in *. by rewrite decide_True by (by rewrite H2).
Qed.

Lemma shard_lookup P Q h k :
  hub_rel P Q h → ∃ s, shards h !! shard_of (numShards h) k = Some s.
Proof.
  intros [H1 H2 H3]. apply lookup_lt_is_Some_2. rewrite H2. by apply shard_of_lt.
Qed.

(** Rewriting one shard. *)
Lemma hub_rel_update P P' Q Q' h i s s' :
  hub_rel P Q h → shards h !! i = Some s →
  shard_rel (λ k c, P' k c ∧ shard_of (numShards h) k = i) (Q' i) s' →
  (∀ k c, shard_of (numShards h) k ≠ i → P k c ↔ P' k c) →
  (∀ j c, j ≠ i → Q j c ↔ Q' j c) →
  hub_rel P' Q' (upd_shards (<[i := s']>) h).
Proof.
  intros [H1 H2 H3] Hs Hs' HP HQ. split; simpl; [done|by rewrite length_insert|].
  intros j sj. destruct (decide (j = i)) as [->|Hne].
  - rewrite list_lookup_insert_eq by (by eapply lookup_lt_Some). by intros [= <-].
  - rewrite list_lookup_insert_ne by done. intros Hj.
    eapply shard_rel_ext; [| |by apply H3]; [|by intros c; apply HQ].
    intros k c. split; intros [Hp <-]; (split; [|done]); by apply (HP k c).
Qed.

Section registration.
Context (P : gostring → Client → Prop) (Q : nat → Client → Prop) (c : Client).
Hypothesis P_uniq : ∀ k c', P k c' → ID c' = ID c → c' = c.
Hypothesis Q_uniq : ∀ i c', Q i c' → ID c' = ID c → c' = c.

Lemma register_key k h :
  hub_rel P Q h →
  wp (i ← getShard k; on_shard i (λ s, ((), Shard.Register k c s)))
     (λ _ h', hub_rel (λ k' c', P k' c' ∨ (k' = k ∧ c' = c))
                      (λ i c', Q i c' ∨ (i = shard_of (numShards h) k ∧ c' = c)) h'
              ∧ shards_only h h') h.
Proof.
  intros Hr. apply wp_bind. eapply wp_of_run; [by eapply getShard_spec|].
  destruct (shard_lookup P Q h k Hr) as [s Hs].
  eapply wp_of_run; [unfold on_shard; by rewrite Hs|]. split; [|by destruct h].
  eapply hub_rel_update; [done..| | |].
  - eapply shard_rel_ext; [| |apply (Register_rel _ _ k c s (hr_shard _ _ _ Hr _ _ Hs))].
    + intros k' c'. naive_solver.
    + intros c'. naive_solver.
    + intros c' [HP _]. by apply P_uniq with k.
    + by apply Q_uniq.
  - intros k' c' Hne. naive_solver.
  - intros j c' Hne. naive_solver.
Qed.

Lemma unregister_key k h :
  hub_rel P Q h →
  wp (i ← getShard k; on_shard i (λ s, ((), Shard.Unregister k (ID c) s)))
     (λ _ h', hub_rel (λ k' c', P k' c' ∧ ¬ (k' = k ∧ c' = c))
                      (λ i c', Q i c' ∧ ¬ (i = shard_of (numShards h) k ∧ c' = c)) h'
              ∧ shards_only h h') h.
Proof.
  intros Hr. apply wp_bind. eapply wp_of_run; [by eapply getShard_spec|].
  destruct (shard_lookup P Q h k Hr) as [s Hs].
  eapply wp_of_run; [unfold on_shard; by rewrite Hs|]. split; [|by destruct h].
  eapply hub_rel_update; [done..| | |].
  - eapply shard_rel_ext; [| |apply (Unregister_rel _ _ k c s (hr_shard _ _ _ Hr _ _ Hs))].
    + intros k' c'. naive_solver.
    + intros c'. naive_solver.
    + intros c' [HP _]. by apply P_uniq with k.
    + by apply Q_uniq.
  - intros k' c' Hne. naive_solver.
  - intros j c' Hne. naive_solver.
Qed.
End registration.

Section loops.
Context (P : gostring → Client → Prop) (Q : nat → Client → Prop) (c : Client).
Hypothesis P_uniq : ∀ k c', P k c' → ID c' = ID c → c' = c.
Hypothesis Q_uniq : ∀ i c', Q i c' → ID c' = ID c → c' = c.

Lemma register_loop keys h :
  hub_rel P Q h →
  wp (for_range keys (λ k, i ← getShard k; on_shard i (λ s, ((), Shard.Register k c s))))
     (λ _ h', hub_rel (λ k c', P k c' ∨ (k ∈ keys ∧ c' = c))
                      (λ i c', Q i c' ∨ ((∃ k, k ∈ keys ∧ shard_of (numShards h) k = i) ∧ c' = c)) h'
              ∧ shards_only h h') h.
Proof.
  intros Hr.
  apply (wp_for_range keys _ (λ done h',
    hub_rel (λ k c', P k c' ∨ (k ∈ done ∧ c' = c))
            (λ i c', Q i c' ∨ ((∃ k, k ∈ done ∧ shard_of (numShards h) k = i) ∧ c' = c)) h'
    ∧ shards_only h h')); [| |done].
  - split; [|apply shards_only_refl]. eapply hub_rel_ext, Hr; intros; set_solver.
  - intros dn k rest h' _ [Hr' Hso].
    destruct (shards_only_fields _ _ Hso) as (En & _).
    eapply wp_mono; [eapply register_key, Hr'|].
    + intros k' c'. naive_solver.
    + intros i c'. naive_solver.
    + intros [] h'' [Hr'' Hso']. rewrite En in Hr''. split; [|by eapply shards_only_trans].
      eapply hub_rel_ext, Hr''; intros; set_solver.
Qed.

Lemma unregister_loop keys h :
  hub_rel P Q h →
  wp (for_range keys (λ k, i ← getShard k; on_shard i (λ s, ((), Shard.Unregister k (ID c) s))))
     (λ _ h', hub_rel (λ k c', P k c' ∧ ¬ (k ∈ keys ∧ c' = c))
                      (λ i c', Q i c' ∧ ¬ ((∃ k, k ∈ keys ∧ shard_of (numShards h) k = i) ∧ c' = c)) h'
              ∧ shards_only h h') h.
Proof.
  intros Hr.
  apply (wp_for_range keys _ (λ done h',
    hub_rel (λ k c', P k c' ∧ ¬ (k ∈ done ∧ c' = c))
            (λ i c', Q i c' ∧ ¬ ((∃ k, k ∈ done ∧ shard_of (numShards h) k = i) ∧ c' = c)) h'
    ∧ shards_only h h')); [| |done].
  - split; [|apply shards_only_refl]. eapply hub_rel_ext, Hr; intros; set_solver.
  - intros dn k rest h' _ [Hr' Hso].
    destruct (shards_only_fields _ _ Hso) as (En & _).
    eapply wp_mono; [eapply unregister_key, Hr'|].
    + intros k' c'. naive_solver.
    + intros i c'. naive_solver.
    + intros [] h'' [Hr'' Hso']. rewrite En in Hr''. split; [|by eapply shards_only_trans].
      eapply hub_rel_ext, Hr''; intros; set_solver.
Qed.
End loops.

(** ** The refinement relation *)
Definition session_of (c : Client) : gostring * gostring := (TenantID c, UserID c).

Definition subscribed (L : list Client) (k : gostring) (c : Client) : Prop :=
  c ∈ L ∧ k ∈ Topics c.
Definition listed (n : Z) (L : list Client) (i : nat) (c : Client) : Prop :=
  c ∈ L ∧ ∃ k, k ∈ Topics c ∧ shard_of n k = i.

Record hub_inv (L : list Client) (h : Hub) : Prop := {
  hi_rel : hub_rel (subscribed L) (listed (numShards h) L) h;
  hi_ids : NoDup (ID <$> L);
  hi_ptrs : NoDup (ptr <$> L);
  hi_store : map_Forall (λ _ s, client_wf s) (store h);
  hi_live c : c ∈ L → ∃ s, store h !! ptr c = Some s ∧ unregistered s = false;
  hi_quota : quota_inv (session_of <$> L) (quotas h);
  hi_limits : qlimits (quotas h) = limits h;
}.

Lemma NewHub_inv n limits : n < 2 ^ 32 → hub_inv [] (NewHub n limits).
Proof.
  intros Hn. unfold NewHub. split; simpl; try done.
  - split; simpl; [case_decide; lia|by rewrite length_replicate|].
    intros i s [-> _]%lookup_replicate. eapply shard_rel_ext, NewShard_rel;
      unfold subscribed, listed; set_solver.
  - constructor.
  - constructor.
  - by intros c ?%elem_of_nil.
  - apply NewQuotaTracker_inv.
Qed.

Lemma NoDup_fmap_inj_in {A B} (f : A → B) (l : list A) x y :
  NoDup (f <$> l) → x ∈ l → y ∈ l → f x = f y → x = y.
Proof.
  induction l as [|z l IH]; [by intros _ ?%elem_of_nil|].
  rewrite fmap_cons, NoDup_cons. intros [Hz Hnd] Hx Hy Hf.
  apply elem_of_cons in Hx as [->|Hx]; apply elem_of_cons in Hy as [->|Hy]; auto.
  - contradict Hz. rewrite Hf. apply list_elem_of_fmap. eauto.
  - contradict Hz. rewrite <- Hf. apply list_elem_of_fmap. eauto.
Qed.

Lemma hub_inv_uniq L h c c' : hub_inv L h → c ∈ L → c' ∈ L → ID c = ID c' → c = c'.
Proof. intros Hi. eapply NoDup_fmap_inj_in, Hi. Qed.

Lemma hub_inv_perm L L' h : L ≡ₚ L' → hub_inv L h → hub_inv L' h.
Proof.
  intros HL [H1 H2 H3 H4 H5 H6 H7]. split; try done.
  - eapply hub_rel_ext, H1; intros; unfold subscribed, listed; by rewrite HL.
  - by rewrite <- HL.
  - by rewrite <- HL.
  - intros c Hc. apply H5. by rewrite HL.
  - eapply quota_inv_perm, H6. by rewrite HL.
Qed.

(** Rewriting the mutable part of one client. *)
Lemma on_client_spec {A} (m : M ClientState A) c h s a s' :
  store h !! ptr c = Some s → m s = Some (a, s') →
  on_client c m h = Some (a, upd_store (<[ptr c := s']>) h).
Proof. intros Hs Hm. unfold on_client. by rewrite Hs, Hm. Qed.

Lemma on_shard_spec {A} (f : Shard → A * Shard) i h s :
  shards h !! i = Some s →
  on_shard i f h = Some ((f s).1, upd_shards (<[i := (f s).2]>) h).
Proof. intros Hs. unfold on_shard. rewrite Hs. by destruct (f s). Qed.

(** ** Registration *)

(** What [Register] answers, from the live connections. *)
Definition spec_register (h : Hub) (L : list Client) (c : Client) : result HubErr () :=
  if hub_closed h then Err ErrHubClosed
  else if decide (MaxTopicsPerConnection (limits h) > 0
                  ∧ Z.of_nat (length (Topics c)) > MaxTopicsPerConnection (limits h))
  then Err ErrMaxTopicsExceeded
  else match spec_check (limits h) (session_of <$> L) (TenantID c) (UserID c) with
       | Ok _ => Ok ()
       | Err e => Err (ErrQuota e)
       end.

(** A connection that was just created and is not registered yet. *)
Record fresh_client (L : list Client) (h : Hub) (c : Client) : Prop := {
  fc_state : ∃ s, store h !! ptr c = Some s ∧ unregistered s = false;
  fc_ptr : ptr c ∉ ptr <$> L;
  fc_id : ID c ∉ ID <$> L;
}.

Lemma Register_spec L h c :
  hub_inv L h → fresh_client L h c →
  wp (Register c (Topics c))
     (λ r h', r = spec_register h L c ∧ hub_inv (if is_ok r then c :: L else L) h'
              ∧ store h' = store h ∧ limits h' = limits h ∧ hub_closed h' = hub_closed h
              ∧ (is_ok r = false → h' = h)) h.
Proof.
  intros Hi [Hst Hp Hid]. unfold Register, spec_register.
  wp_step. wp_step. destruct (hub_closed h) eqn:Hc; [by apply wp_ret|].
  wp_step. wp_step. case_decide as Ht; [by apply wp_ret|].
  destruct (Acquire_spec _ _ (TenantID c) (UserID c) (hi_quota _ _ Hi)) as (q' & Ea & El & Hq).
  rewrite (hi_limits _ _ Hi) in *.
  wp_step. eapply wp_of_run; [unfold quota_acquire; by rewrite Ea|].
  destruct (spec_check (limits h) (session_of <$> L) (TenantID c) (UserID c)) as [[]|e] eqn:Hsc.
  2:{ apply wp_ret. subst q'. assert (upd_quotas (λ _, quotas h) h = h) as -> by (by destruct h).
      by split_and!. }
  wp_step. eapply wp_mono;
    [apply (register_loop (subscribed L) (listed (numShards h) L) c)|].
  - intros k c' [Hin _] He. contradict Hid. rewrite <- He. apply list_elem_of_fmap. eauto.
  - intros i c' [Hin _] He. contradict Hid. rewrite <- He. apply list_elem_of_fmap. eauto.
  - destruct (hi_rel _ _ Hi) as [R1 R2 R3]. by split.
  - intros [] h' [Hr Hso]. apply wp_ret.
    destruct (shards_only_fields _ _ Hso) as (E1 & E2 & E3 & E4 & E5 & _). simpl in *.
    split_and!; try done; [|congruence].
    destruct Hi as [I1 I2 I3 I4 I5 I6 I7]. split; rewrite ?E1, ?E2, ?E4, ?E5; try done.
    + eapply hub_rel_ext, Hr; unfold subscribed, listed; intros; set_solver.
    + rewrite fmap_cons. by constructor.
    + rewrite fmap_cons. by constructor.
    + intros c' [->|Hc']%elem_of_cons; [done|by apply I5].
Qed.

(** ** Unregistration *)
Lemma Unregister_spec L L' h c :
  hub_inv L h → L ≡ₚ c :: L' →
  wp (Unregister (Some c))
     (λ _ h', hub_inv L' h' ∧ limits h' = limits h ∧ hub_closed h' = hub_closed h
              ∧ (∃ s, store h !! ptr c = Some s ∧
                   store h' = <[ptr c := mkClientState (Send s) true true true true]> (store h))) h.
Proof.
  intros Hi HL. apply (hub_inv_perm _ _ _ HL) in Hi. clear HL L.
  destruct (hi_live _ _ Hi c) as (s & Hs & Hu); [left|].
  pose proof (hi_store _ _ Hi _ _ Hs) as Hwf.
  unfold Unregister. wp_step.
  eapply wp_of_run; [eapply on_client_spec; [done|apply MarkUnregistered_spec]|].
  rewrite Hu. simpl negb. cbv iota. wp_step.
  eapply wp_of_run.
  { eapply on_client_spec; [simpl; apply lookup_insert_eq|].
    apply Close_spec. by apply set_unregistered_wf. }
  set (h1 := upd_store _ _). wp_step.
  assert (store h1 = <[ptr c := mkClientState (Send s) true true true true]> (store h)) as Es.
  { unfold h1. simpl. by rewrite insert_insert_eq. }
  eapply wp_mono; [apply (unregister_loop (subscribed (c :: L')) (listed (numShards h) (c :: L')) c)|].
  - intros k c' [Hin _]. apply (hub_inv_uniq _ _ _ _ Hi Hin). left.
  - intros i c' [Hin _]. apply (hub_inv_uniq _ _ _ _ Hi Hin). left.
  - destruct (hi_rel _ _ Hi) as [R1 R2 R3]. by split.
  - intros [] h' [Hr Hso]. apply wp_modify.
    destruct (shards_only_fields _ _ Hso) as (E1 & E2 & E3 & E4 & E5 & _).
    change (numShards h1) with (numShards h) in *. simpl.
    rewrite E2, E3, E5, Es. split; [|by eauto].
    destruct Hi as [I1 I2 I3 I4 I5 I6 I7].
    rewrite fmap_cons, NoDup_cons in I2. destruct I2 as [Hid I2].
    rewrite fmap_cons, NoDup_cons in I3. destruct I3 as [Hp I3].
    assert (c ∉ L') as Hc. { intros Hc. apply Hid. apply list_elem_of_fmap. eauto. }
    split; simpl; rewrite ?E1, ?E2, ?E4, ?E5, ?Es; try done.
    + destruct Hr as [R1 R2 R3]. rewrite E1 in *. split; simpl; rewrite ?E1; [done..|].
      intros i si Hsi. eapply shard_rel_ext; [| |by apply (R3 i)];
        unfold subscribed, listed; intros; set_solver.
    + apply map_Forall_insert_2; [|done].
      by apply (Close_wf (set_unregistered true s)), set_unregistered_wf.
    + intros c' Hc'. rewrite lookup_insert_ne; [apply I5; by right|].
      intros Heq. apply Hp. rewrite Heq. apply list_elem_of_fmap. eauto.
    + by apply Release_spec.
Qed.

Lemma Unregister_idempotent h c s :
  store h !! ptr c = Some s → unregistered s = true → Unregister (Some c) h = Some ((), h).
Proof.
  intros Hs Hu. unfold Unregister, mbind, M_bind.
  erewrite on_client_spec; [|done|apply MarkUnregistered_spec]. rewrite Hu. simpl.
  unfold mret, M_ret. do 2 f_equal. destruct h, s; simpl in *. subst.
  unfold upd_store, set_unregistered. simpl. f_equal. by apply insert_id.
Qed.

(** ** Lookup *)
Lemma HasSubscribers_spec L h k :
  hub_inv L h →
  HasSubscribers k h = Some (bool_decide (Exists (λ c, k ∈ Topics c) L), h).
Proof.
  intros Hi. pose proof (hi_rel _ _ Hi) as Hr.
  unfold HasSubscribers, mbind, M_bind. erewrite getShard_spec by done.
  destruct (shard_lookup _ _ _ k Hr) as [s Hs]. unfold read_shard. rewrite Hs.
  do 2 f_equal. apply Bool.eq_iff_eq_true. rewrite bool_decide_eq_true, Exists_exists.
  rewrite (HasSubscribers_rel _ _ k s (hr_shard _ _ _ Hr _ _ Hs)).
  unfold subscribed. naive_solver.
Qed.

(** ** Creating connections *)
Lemma alloc_inv L h c s :
  hub_inv L h → store h !! ptr c = None → client_wf s →
  hub_inv L (upd_store (<[ptr c := s]>) h).
Proof.
  intros [I1 I2 I3 I4 I5 I6 I7] Hn Hwf. split; try done.
  - by eapply hub_rel_same, I1.
  - simpl. by apply map_Forall_insert_2.
  - intros c' Hc'. destruct (I5 c' Hc') as (s' & Hs' & Hu). simpl. exists s'.
    rewrite lookup_insert_ne; [done|]. intros E. rewrite E in Hn. congruence.
Qed.

Lemma alloc_fresh L h c s :
  hub_inv L h → store h !! ptr c = None → ID c ∉ ID <$> L → unregistered s = false →
  fresh_client L (upd_store (<[ptr c := s]>) h) c.
Proof.
  intros Hi Hn Hid Hu. split; [|intros Hp|done].
  - exists s. simpl. by rewrite lookup_insert_eq.
  - apply list_elem_of_fmap in Hp as (c' & E & Hc').
    destruct (hi_live _ _ Hi c' Hc') as (s' & Hs' & _). rewrite <- E in Hs'. congruence.
Qed.

(** ** Theorems *)

(** A concrete hub: four shards, one connection of user [bob]. *)
Definition demo_client : Client :=
  mkClient 1 (str "c1") (str "bob") (str "acme") [str "orders"; str "chat"] SlowPolicyDisconnect true.
Definition demo_state : ClientState := mkClientState (make_chan 2) false false false false.
Definition demo_hub0 : Hub := upd_store (<[1%positive := demo_state]>) (NewHub 4 demo_limits).
Definition demo_hub : Hub := default demo_hub0 (snd <$> Register demo_client (Topics demo_client) demo_hub0).

Lemma demo_state_wf : client_wf demo_state.
Proof. split; try done; [apply make_chan_wf|simpl; lia]. Qed.

Lemma demo_hub0_inv : hub_inv [] demo_hub0 ∧ fresh_client [] demo_hub0 demo_client.
Proof.
  assert (hub_inv [] (NewHub 4 demo_limits)) as Hi by (apply NewHub_inv; lia).
  split; [by apply (alloc_inv [] _ demo_client), demo_state_wf|].
  apply (alloc_fresh [] (NewHub 4 demo_limits) demo_client demo_state); try done. by_decide.
Qed.

Lemma demo_hub_inv : hub_inv [demo_client] demo_hub.
Proof.
  destruct demo_hub0_inv as [Hi Hf].
  destruct (wp_run _ _ _ (Register_spec _ _ _ Hi Hf)) as (r & h' & E & Hr & Hi' & _).
  unfold demo_hub. rewrite E. simpl. rewrite Hr in Hi'. exact Hi'.
Qed.

(** C31: registering a new connection never panics and answers what the live
    connections dictate (closed hub, too many topics, then the quotas); on
    success exactly that connection is added to the live set, with one entry
    per routing key in the responsible shard, and on error nothing changes. *)
Theorem register_refines L h c :
  hub_inv L h → fresh_client L h c →
  ∃ h', Register c (Topics c) h = Some (spec_register h L c, h')
        ∧ hub_inv (if is_ok (spec_register h L c) then c :: L else L) h'
        ∧ (is_ok (spec_register h L c) = false → h' = h).
Proof.
  intros Hi Hf. destruct (wp_run _ _ _ (Register_spec L h c Hi Hf)) as (r & h' & E & -> & Hi' & _ & _ & _ & Herr).
  by exists h'.
Qed.

Lemma register_refines_witness :
  ∃ h', Register demo_client (Topics demo_client) demo_hub0 = Some (Ok (), h') ∧ hub_inv [demo_client] h'.
Proof.
  destruct (register_refines [] demo_hub0 demo_client (proj1 demo_hub0_inv) (proj2 demo_hub0_inv))
    as (h' & E & Hi & _).
  exists h'. split; [exact E|exact Hi].
Defined.

(** Unregistering a live connection removes it from every shard, releases
    its quota, closes it and touches no other connection; a second call, by the
    HTTP handler or after a revocation, changes nothing. *)
Theorem unregister_refines_once L L' h c :
  hub_inv L h → L ≡ₚ c :: L' →
  ∃ h' s, Unregister (Some c) h = Some ((), h') ∧ hub_inv L' h'
          ∧ store h !! ptr c = Some s
          ∧ store h' = <[ptr c := mkClientState (Send s) true true true true]> (store h)
          ∧ Unregister (Some c) h' = Some ((), h').
Proof.
  intros Hi HL. destruct (wp_run _ _ _ (Unregister_spec L L' h c Hi HL)) as ([] & h' & E & Hi' & _ & _ & s & Hs & Es).
  exists h', s. split_and!; try done.
  eapply Unregister_idempotent; [rewrite Es; apply lookup_insert_eq|done].
Qed.

Lemma unregister_refines_once_witness :
  ∃ h', Unregister (Some demo_client) demo_hub = Some ((), h') ∧ hub_inv [] h'.
Proof.
  destruct (unregister_refines_once [demo_client] [] demo_hub demo_client demo_hub_inv (reflexivity _))
    as (h' & s & E & Hi & _).
  exists h'. split; [exact E|exact Hi].
Defined.

(** [HasSubscribers] is true exactly when a live connection carries the
    routing key, and [ActiveConnections] is the number of live connections;
    neither changes the hub. *)
Theorem lookup_refines L h k :
  hub_inv L h →
  HasSubscribers k h = Some (bool_decide (Exists (λ c, k ∈ Topics c) L), h)
  ∧ ActiveConnections h = Some (Z.of_nat (length L), h).
Proof.
  intros Hi. split; [by apply HasSubscribers_spec|].
  unfold ActiveConnections, gets, ActiveCount.
  by rewrite (qi_active _ _ (hi_quota _ _ Hi)), length_fmap.
Qed.

Lemma lookup_refines_witness :
  HasSubscribers (str "chat") demo_hub = Some (true, demo_hub) ∧ ActiveConnections demo_hub = Some (1, demo_hub).
Proof. exact (lookup_refines [demo_client] demo_hub (str "chat") demo_hub_inv). Defined.
