(* ===== verification/HubBroadcast.v ===== *)
(** * Delivery: conditional broadcast and heartbeats

    Frames are queued through client pointers, outside the shard locks.  The
    lemmas describe the queues of the recipients after a delivery; the theorems
    state what [ConditionalBroadcast] and [BroadcastHeartbeat] promise. *)

From S2P Require Import Prelude GoStrings Hashutil Chan Frame Quota Client Shard Hub HubSpec.

Local Open Scope Z_scope.

Create HintDb hub.

(** The subscribers of a key, among the live connections. *)
Definition subscribers (L : list Client) (k : gostring) : list Client :=
  filter (λ c, k ∈ Topics c) L.

Section broadcast.
Context `{!GoRange}.

Lemma recipients_spec L h k :
  hub_inv L h →
  ∃ rs, read_shard (shard_of (numShards h) k) (GetRecipients k) h = Some (rs, h)
        ∧ rs ≡ₚ subscribers L k.
Proof.
  intros Hi. pose proof (hi_rel _ _ Hi) as Hr.
  destruct (shard_lookup _ _ _ k Hr) as [s Hs]. unfold read_shard. rewrite Hs.
  eexists; split; [done|]. pose proof (hr_shard _ _ _ Hr _ _ Hs) as Hsr.
  apply NoDup_Permutation.
  - by eapply GetRecipients_NoDup.
  - apply NoDup_filter. eapply NoDup_fmap_1, (hi_ids _ _ Hi).
  - intros c. rewrite (GetRecipients_elem _ _ k s c Hsr). unfold subscribers, subscribed.
    rewrite list_elem_of_filter. naive_solver.
Qed.
End broadcast.

(** ** Steps through client pointers *)

(** Steps that only rewrite client states and callback counters. *)
Definition store_only (h h' : Hub) : Prop :=
  h' = upd_seen (slowSeen h') (fanoutSeen h') (upd_store (λ _, store h') h).

Lemma store_only_refl h : store_only h h.
Proof. by destruct h. Qed.
Lemma store_only_trans h1 h2 h3 : store_only h1 h2 → store_only h2 h3 → store_only h1 h3.
Proof. unfold store_only. intros H1 H2. rewrite H2, H1. by destruct h1. Qed.
Lemma store_only_upd_store h f : store_only h (upd_store f h).
Proof. by destruct h. Qed.
Lemma store_only_upd_seen h s f : store_only h (upd_seen s f h).
Proof. by destruct h. Qed.

#[export] Hint Resolve store_only_refl store_only_upd_store store_only_upd_seen : hub.

Lemma store_only_fields h h' :
  store_only h h' →
  numShards h' = numShards h ∧ shards h' = shards h ∧ limits h' = limits h
  ∧ quotas h' = quotas h ∧ hub_closed h' = hub_closed h ∧ onFanout h' = onFanout h.
Proof. unfold store_only. intros ->. by destruct h. Qed.

Lemma hub_inv_store L h h' :
  hub_inv L h → store_only h h' →
  map_Forall (λ _ s, client_wf s) (store h') →
  (∀ c, c ∈ L → ∃ s, store h' !! ptr c = Some s ∧ unregistered s = false) →
  hub_inv L h'.
Proof.
  intros [I1 I2 I3 I4 I5 I6 I7] Hso Hwf Hl.
  destruct (store_only_fields _ _ Hso) as (E1 & E2 & E3 & E4 & E5 & _).
  split; rewrite ?E1, ?E3, ?E4; try done.
  destruct I1 as [R1 R2 R3]. split; rewrite ?E1, ?E2; done.
Qed.

Lemma enqueue_spec h c frame s :
  store h !! ptr c = Some s → client_wf s →
  wp (enqueue c frame)
     (λ ok h', ok = (enqueue_result c frame s).1.1
               ∧ store h' = <[ptr c := (enqueue_result c frame s).2]> (store h)
               ∧ store_only h h'
               ∧ fanoutSeen h' = fanoutSeen h) h.
Proof.
  intros Hs Hwf. unfold enqueue. wp_step.
  eapply wp_of_run; [eapply on_client_spec; [done|by rewrite EnqueueFrame_spec, <- surjective_pairing]|].
  wp_step. destruct (enqueue_result c frame s) as [[ok slow] s'] eqn:E. simpl.
  assert (∀ h1 : Hub, h1 = upd_store <[ptr c:=s']> h ∨
    h1 = upd_seen (slowSeen h + 1) (fanoutSeen h) (upd_store <[ptr c:=s']> h) →
    ok = ok ∧ store h1 = <[ptr c:=s']> (store h) ∧ store_only h h1 ∧ fanoutSeen h1 = fanoutSeen h) as Hfin
    by (intros h1 [-> | ->]; by destruct h).
  destruct slow; [unfold NotifySlowClient; wp_step|wp_step]; apply wp_ret; apply Hfin; [|by left].
  simpl. destruct (onSlowClient h); auto.
Qed.

(** Whether a client would take a frame now. *)
Definition accepts (h : Hub) (frame : Frame) (c : Client) : bool :=
  match store h !! ptr c with
  | Some s => (enqueue_result c frame s).1.1
  | None => false
  end.

(** A client-state update [f] applied once to each client of a list. *)
Record applied (f : Client → ClientState → ClientState) (cs : list Client) (h h' : Hub) : Prop := {
  dl_frame : store_only h h';
  dl_wf : map_Forall (λ _ s, client_wf s) (store h');
  dl_to c : c ∈ cs → store h' !! ptr c = f c <$> store h !! ptr c;
  dl_others p : p ∉ ptr <$> cs → store h' !! p = store h !! p;
  dl_fanout : fanoutSeen h' = fanoutSeen h;
}.

(** Delivery of one frame to a list of clients. *)
Definition enqueue_to (frame : Frame) (c : Client) (s : ClientState) : ClientState :=
  (enqueue_result c frame s).2.

Abbreviation delivered cs frame := (applied (enqueue_to frame) cs).

Lemma enqueue_all_spec cs frame h :
  NoDup (ptr <$> cs) → map_Forall (λ _ s, client_wf s) (store h) →
  (∀ c, c ∈ cs → is_Some (store h !! ptr c)) →
  wp (enqueue_all cs frame)
     (λ n h', n = Z.of_nat (count (λ c, accepts h frame c = true) cs)
              ∧ delivered cs frame h h') h.
Proof.
  revert h. induction cs as [|c cs IH]; intros h Hnd Hwf Hst; cbn [enqueue_all].
  { apply wp_ret. split; [done|]. split; auto with hub; by intros c ?%elem_of_nil. }
  rewrite fmap_cons, NoDup_cons in Hnd. destruct Hnd as [Hp Hnd].
  destruct (Hst c) as [s Hs]; [left|]. pose proof (Hwf _ _ Hs) as Hs'.
  assert (∀ c', c' ∈ cs → ptr c' ≠ ptr c) as Hne.
  { intros c' Hc' E. apply Hp. rewrite <- E. apply list_elem_of_fmap. eauto. }
  wp_step. eapply wp_mono; [by apply enqueue_spec|]. intros ok h1 (-> & Es & Hso & Hf).
  wp_step. eapply wp_mono.
  { apply IH; [done| |].
    - rewrite Es. apply map_Forall_insert_2; [by apply EnqueueFrame_wf|done].
    - intros c' Hc'. rewrite Es, lookup_insert_ne by (by apply not_eq_sym, Hne).
      apply Hst. by right. }
  intros n h2 [-> [D1 D2 D3 D4 D5]]. apply wp_ret. split.
  - rewrite count_cons.
    assert (accepts h frame c = (enqueue_result c frame s).1.1) as -> by (unfold accepts; by rewrite Hs).
    assert (count (λ c, accepts h1 frame c = true) cs = count (λ c, accepts h frame c = true) cs) as ->.
    { apply count_ext. intros c' Hc'. unfold accepts.
      by rewrite Es, lookup_insert_ne by (by apply not_eq_sym, Hne). }
    destruct (enqueue_result c frame s).1.1; simpl; lia.
  - split; [by eapply store_only_trans|done| | |by rewrite D5].
    + intros c' [->|Hc']%elem_of_cons.
      * by rewrite D4, Es, lookup_insert_eq, Hs by done.
      * rewrite D3, Es, lookup_insert_ne by (done || by apply not_eq_sym, Hne). done.
    + intros p [Hpc Hpcs]%not_elem_of_cons. rewrite D4, Es by done. by rewrite lookup_insert_ne.
Qed.

Lemma applied_inv f L cs h h' :
  (∀ c s, unregistered (f c s) = unregistered s) →
  hub_inv L h → (∀ c, c ∈ cs → c ∈ L) → applied f cs h h' → hub_inv L h'.
Proof.
  intros Hf Hi Hcs [D1 D2 D3 D4 D5]. eapply hub_inv_store; [done..|].
  intros c Hc. destruct (hi_live _ _ Hi c Hc) as (s & Hs & Hu).
  destruct (decide (ptr c ∈ ptr <$> cs)) as [Hin|Hin].
  - apply list_elem_of_fmap in Hin as (c' & Hp & Hc').
    assert (c = c') as <- by (eapply NoDup_fmap_inj_in; [apply (hi_ptrs _ _ Hi)|auto..]).
    rewrite D3, Hs by done. eexists. split; [done|]. by rewrite Hf.
  - rewrite D4 by done. eauto.
Qed.

Lemma delivered_inv L cs frame h h' :
  hub_inv L h → (∀ c, c ∈ cs → c ∈ L) → delivered cs frame h h' → hub_inv L h'.
Proof. apply applied_inv. intros c s. apply EnqueueFrame_unregistered. Qed.

Section conditional_broadcast.
Context `{!GoRange} {X E : Type}.
Implicit Types decrypt : M X (result E (option Frame)).

(** No live subscriber: the callback is not even called. *)
Lemma broadcast_no_subscriber L h k decrypt (x : X) :
  hub_inv L h → subscribers L k = [] →
  ConditionalBroadcast k decrypt (h, x) = Some (Ok 0, (h, x)).
Proof.
  intros Hi Hno. unfold ConditionalBroadcast, mbind, M_bind, on_hub at 1. simpl.
  erewrite getShard_spec by apply (hi_rel _ _ Hi).
  destruct (recipients_spec L h k Hi) as (rs & Hrs & Hp). unfold on_hub. simpl. rewrite Hrs.
  rewrite Hno in Hp. apply Permutation_nil_r in Hp as ->. done.
Qed.

Lemma broadcast_subscribers L h k decrypt (x : X) :
  hub_inv L h → subscribers L k ≠ [] →
  ∃ rs, rs ≡ₚ subscribers L k ∧
  ConditionalBroadcast k decrypt (h, x) =
    match decrypt x with
    | None => None
    | Some (Err e, x') => Some (Err e, (h, x'))
    | Some (Ok None, x') => Some (Ok 0, (h, x'))
    | Some (Ok (Some frame), x') =>
        match enqueue_all rs frame h with
        | None => None
        | Some (n, h') =>
            Some (Ok n, (if onFanout h' then upd_seen (slowSeen h') (fanoutSeen h' + 1) h' else h', x'))
        end
    end.
Proof.
  intros Hi Hsome. unfold ConditionalBroadcast, mbind, M_bind, on_hub at 1. simpl.
  erewrite getShard_spec by apply (hi_rel _ _ Hi).
  destruct (recipients_spec L h k Hi) as (rs & Hrs & Hp). exists rs. split; [done|].
  unfold on_hub at 1. simpl. rewrite Hrs. rewrite decide_False.
  2:{ intros ->. symmetry in Hp. by apply Permutation_nil_r in Hp. }
  unfold on_env. simpl. destruct (decrypt x) as [[[[frame|]|e] x']|]; try done.
  unfold on_hub. simpl. destruct (enqueue_all rs frame h) as [[n h']|]; done.
Qed.

Lemma subscribers_sub L k c : c ∈ subscribers L k → c ∈ L.
Proof. unfold subscribers. intros [_ ?]%list_elem_of_filter. done. Qed.

Lemma subscribers_nil L k : (∀ c, c ∈ L → k ∉ Topics c) → subscribers L k = [].
Proof.
  intros Hno. destruct (subscribers L k) as [|c l] eqn:Es; [done|].
  assert (c ∈ subscribers L k) as Hc by (rewrite Es; left).
  apply list_elem_of_filter in Hc as [Hk Hc]. by apply Hno in Hc.
Qed.

(** What a delivery to the subscribers of [k] does to each live queue. *)
Lemma delivered_to L h h' k frame c st :
  hub_inv L h → delivered (subscribers L k) frame h h' → c ∈ L → store h !! ptr c = Some st →
  store h' !! ptr c = Some (if decide (k ∈ Topics c) then (enqueue_result c frame st).2 else st).
Proof.
  intros Hi [D1 D2 D3 D4 D5] Hc Hst. case_decide as Hk.
  - rewrite D3, Hst; [done|]. by apply list_elem_of_filter.
  - rewrite D4; [done|]. intros (c' & Hp & Hc')%list_elem_of_fmap.
    apply list_elem_of_filter in Hc' as [Hk' Hc'].
    by rewrite (NoDup_fmap_inj_in ptr L c c' (hi_ptrs _ _ Hi) Hc Hc' Hp) in Hk.
Qed.

Lemma broadcast_delivers L h k decrypt (x x' : X) frame :
  hub_inv L h → subscribers L k ≠ [] →
  decrypt x = Some (Ok (Some frame), x') →
  ∃ h' h'', ConditionalBroadcast k decrypt (h, x) =
           Some (Ok (Z.of_nat (count (λ c, accepts h frame c = true) (subscribers L k))), (h'', x'))
         ∧ delivered (subscribers L k) frame h h' ∧ hub_inv L h' ∧ hub_inv L h''
         ∧ store h'' = store h'
         ∧ fanoutSeen h'' = fanoutSeen h + (if onFanout h then 1 else 0).
Proof.
  intros Hi Hsome Hd. destruct (broadcast_subscribers L h k decrypt x Hi Hsome) as (rs & Hp & ->).
  rewrite Hd.
  destruct (wp_run _ _ _ (enqueue_all_spec rs frame h
    ltac:(rewrite Hp; eapply sublist_NoDup; [apply (hi_ptrs _ _ Hi)|apply sublist_filter_fmap])
    (hi_store _ _ Hi)
    ltac:(intros c Hc; rewrite Hp in Hc; apply subscribers_sub in Hc;
          destruct (hi_live _ _ Hi c Hc) as (s & -> & _); eauto)))
    as (n & h' & -> & -> & [D1 D2 D3 D4 D5]).
  assert (delivered (subscribers L k) frame h h') as Hdl.
  { split; [done..| | |done].
    - intros c Hc. apply D3. by rewrite Hp.
    - intros p Hp'. apply D4. by rewrite Hp. }
  assert (hub_inv L h') as Hi' by (eapply delivered_inv; [done| |done]; apply subscribers_sub).
  destruct (store_only_fields _ _ D1) as (_ & _ & _ & _ & _ & Ef).
  rewrite (count_perm _ _ _ Hp). exists h'. eexists. split; [done|].
  split_and!; [done|done| | |].
  - rewrite Ef. destruct (onFanout h); [|done].
    eapply hub_inv_store; [done|apply store_only_upd_seen|apply Hi'|apply Hi'].
  - by destruct (onFanout h').
  - rewrite Ef, <- D5. destruct (onFanout h); simpl; lia.
Qed.
End conditional_broadcast.

(** ** Visiting every shard *)

(** Shard [i] lists the client. *)
Definition lists_on (n : Z) (c : Client) (i : nat) : Prop := Exists (λ k, shard_of n k = i) (Topics c).

Global Instance lists_on_dec n c i : Decision (lists_on n c i).
Proof. apply _. Defined.

Lemma listed_lists_on n L i c : listed n L i c ↔ c ∈ L ∧ lists_on n c i.
Proof. unfold listed, lists_on. by rewrite Exists_exists. Qed.

(** Number of shards, among those visited, that list the client. *)
Definition copies (n : Z) (c : Client) (visited : list nat) : nat := count (lists_on n c) visited.

(** Effect of visiting the shards of [visited]. *)
Record swept (f : Client → ClientState → ClientState) (L : list Client) (visited : list nat)
    (h h' : Hub) : Prop := {
  sw_inv : hub_inv L h';
  sw_frame : store_only h h';
  sw_store c : c ∈ L →
    store h' !! ptr c = Nat.iter (copies (numShards h) c visited) (f c) <$> store h !! ptr c;
  sw_others p : p ∉ ptr <$> L → store h' !! p = store h !! p;
}.

Lemma swept_nil f L h : hub_inv L h → swept f L [] h h.
Proof.
  intros Hi. split; [done|apply store_only_refl| |done].
  intros c _. simpl. by destruct (store h !! ptr c).
Qed.

Lemma swept_snoc f L visited i cs h h1 h2 :
  (∀ c s, unregistered (f c s) = unregistered s) →
  swept f L visited h h1 → (∀ c, c ∈ cs ↔ listed (numShards h) L i c) →
  applied f cs h1 h2 → swept f L (visited ++ [i]) h h2.
Proof.
  intros Hf [S1 S2 S3 S4] Hcs Ha.
  assert (∀ c, c ∈ cs → c ∈ L) as HcsL by (intros c [? _]%Hcs; done).
  pose proof (applied_inv f L cs h1 h2 Hf S1 HcsL Ha) as Hi2. destruct Ha as [D1 D2 D3 D4 D5].
  split; [done|by eapply store_only_trans| |].
  - intros c Hc. unfold copies. rewrite count_app, count_cons, count_nil, Nat.add_0_r.
    fold (copies (numShards h) c visited). destruct (decide (lists_on (numShards h) c i)) as [Hl|Hl].
    + rewrite D3 by (apply Hcs, listed_lists_on; done). rewrite S3 by done.
      rewrite <- option_fmap_compose, Nat.add_1_r. by destruct (store h !! ptr c).
    + rewrite D4, S3 by (done || (intros (c' & Hp & Hc')%list_elem_of_fmap;
        assert (c = c') as <- by (eapply NoDup_fmap_inj_in; [apply (hi_ptrs _ _ S1)|auto..]);
        by apply Hl; apply Hcs, listed_lists_on in Hc' as [_ ?])).
      by rewrite Nat.add_0_r.
  - intros p Hp. rewrite D4; [by apply S4|].
    intros (c & -> & Hc)%list_elem_of_fmap. apply Hp, list_elem_of_fmap. eauto.
Qed.

Section heartbeat.
Context `{!GoRange}.

Lemma all_clients_spec L h i :
  hub_inv L h → (i < length (shards h))%nat →
  ∃ cs, read_shard i GetAllClients h = Some (cs, h) ∧ NoDup cs
        ∧ ∀ c, c ∈ cs ↔ listed (numShards h) L i c.
Proof.
  intros Hi Hlt. destruct (lookup_lt_is_Some_2 (shards h) i Hlt) as [s Hs].
  pose proof (hr_shard _ _ _ (hi_rel _ _ Hi) _ _ Hs) as Hsr.
  unfold read_shard. rewrite Hs. eexists. split; [done|]. split.
  - by eapply GetAllClients_NoDup.
  - intros c. by eapply GetAllClients_elem.
Qed.

(** A loop over the shards whose body updates the listed clients. *)
Lemma sweep_spec f L (body : nat → M Hub ()) h :
  hub_inv L h → (∀ c s, unregistered (f c s) = unregistered s) →
  (∀ i h', hub_inv L h' → store_only h h' → (i < length (shards h'))%nat →
     wp (body i) (λ _ h'', ∃ cs, (∀ c, c ∈ cs ↔ listed (numShards h') L i c) ∧ applied f cs h' h'') h') →
  wp (for_range (shard_positions h) body) (λ _ h', swept f L (shard_positions h) h h') h.
Proof.
  intros Hi Hf Hbody. apply (wp_for_range _ _ (λ visited h', swept f L visited h h'));
    [by apply swept_nil| |done].
  intros visited i rest h' Heq Hsw. pose proof Hsw as [S1 S2 S3 S4].
  destruct (store_only_fields _ _ S2) as (E1 & E2 & _).
  eapply wp_mono; [apply Hbody; [done|done|]|].
  - rewrite E2. assert (i ∈ shard_positions h) as Hin by (rewrite Heq; set_solver).
    apply elem_of_seq in Hin. lia.
  - intros [] h'' (cs & Hcs & Ha). rewrite E1 in Hcs. by eapply swept_snoc.
Qed.

Lemma clients_ptrs L h cs :
  hub_inv L h → NoDup cs → (∀ c, c ∈ cs → c ∈ L) →
  NoDup (ptr <$> cs) ∧ ∀ c, c ∈ cs → is_Some (store h !! ptr c).
Proof.
  intros Hi Hnd Hcs. split.
  - apply NoDup_fmap_2_strong; [|done]. intros c c' Hc Hc' Hp.
    apply (NoDup_fmap_inj_in ptr L); auto. apply Hi.
  - intros c Hc. destruct (hi_live _ _ Hi c (Hcs c Hc)) as (s & -> & _). eauto.
Qed.

Lemma BroadcastHeartbeat_spec L h frame :
  hub_inv L h →
  wp (BroadcastHeartbeat frame)
     (λ _ h', swept (enqueue_to frame) L (shard_positions h) h h') h.
Proof.
  intros Hi. unfold BroadcastHeartbeat. wp_step. wp_step.
  apply sweep_spec; [done|intros; apply EnqueueFrame_unregistered|].
  intros i h' Hi' _ Hlt. destruct (all_clients_spec L h' i Hi' Hlt) as (cs & Er & Hnd & Hcs).
  assert (∀ c, c ∈ cs → c ∈ L) as HL by (intros c [? _]%Hcs; done).
  destruct (clients_ptrs L h' cs Hi' Hnd HL) as [Hp Hst].
  wp_step. eapply wp_of_run; [done|]. wp_step.
  eapply wp_mono; [apply enqueue_all_spec; [done|apply Hi'|done]|].
  intros n h'' [_ Hd]. apply wp_ret. eauto.
Qed.
End heartbeat.

(** ** Theorems *)
Section theorems.
Context `{!GoRange} {X E : Type}.

(** C3: with no live subscriber the decryption callback is not called: the
    event is dropped at once, at no cryptographic cost, with the hub and the
    callback's state untouched, even if the callback would panic or fail. *)
Theorem no_subscriber_no_decrypt L h k (decrypt : M X (result E (option Frame))) x :
  hub_inv L h → (∀ c, c ∈ L → k ∉ Topics c) →
  ConditionalBroadcast k decrypt (h, x) = Some (Ok 0, (h, x)).
Proof.
  intros Hi Hno. apply broadcast_no_subscriber with L; [done|]. by apply subscribers_nil.
Qed.

(** With subscribers, the callback runs once and its frame is offered
    once to each live subscriber of the key and to nobody else; the returned
    count is the number of subscribers that took it, and the live set is
    preserved.  A callback error is returned with the hub untouched. *)
Theorem broadcast_fanout L h k (decrypt : M X (result E (option Frame))) x x' :
  hub_inv L h → subscribers L k ≠ [] →
  (∀ e, decrypt x = Some (Err e, x') → ConditionalBroadcast k decrypt (h, x) = Some (Err e, (h, x')))
  ∧ (∀ frame, decrypt x = Some (Ok (Some frame), x') →
      ∃ h', ConditionalBroadcast k decrypt (h, x) =
              Some (Ok (Z.of_nat (count (λ c, accepts h frame c = true) (subscribers L k))), (h', x'))
            ∧ hub_inv L h'
            ∧ (∀ c s, c ∈ L → k ∈ Topics c → store h !! ptr c = Some s →
                 EnqueueFrame c frame s = Some (enqueue_result c frame s)
                 ∧ store h' !! ptr c = Some (enqueue_result c frame s).2)
            ∧ (∀ c, c ∈ L → k ∉ Topics c → store h' !! ptr c = store h !! ptr c)).
Proof.
  intros Hi Hs. split.
  - intros e Hd. destruct (broadcast_subscribers L h k decrypt x Hi Hs) as (rs & _ & ->). by rewrite Hd.
  - intros frame Hd.
    destruct (broadcast_delivers L h k decrypt x x' frame Hi Hs Hd) as (h1 & h' & E1 & Hd1 & _ & Hi' & Es & _).
    exists h'. split; [done|]. split; [done|]. rewrite Es. split.
    + intros c s Hc Hk Hst. split; [apply EnqueueFrame_spec; by apply (hi_store _ _ Hi _ _ Hst)|].
      rewrite (delivered_to L h h1 k frame c s) by done. by rewrite decide_True.
    + intros c Hc Hk. destruct (hi_live _ _ Hi c Hc) as (s & Hst & _).
      rewrite (delivered_to L h h1 k frame c s) by done. by rewrite decide_False.
Qed.
End theorems.

Lemma no_subscriber_no_decrypt_witness :
  @ConditionalBroadcast range_canonical () () (str "nobody") panic (demo_hub, ()) = Some (Ok 0, (demo_hub, ())).
Proof.
  apply (@no_subscriber_no_decrypt range_canonical () () [demo_client] demo_hub (str "nobody") panic ()).
  - exact demo_hub_inv.
  - intros c ->%list_elem_of_singleton. by_decide.
Defined.

Definition demo_frame : Frame := NewDataFrame (str "order.created") (str "7") (str "ok").

Lemma broadcast_fanout_witness :
  ∃ h', @ConditionalBroadcast range_canonical () () (str "chat") (mret (Ok (Some demo_frame))) (demo_hub, ())
        = Some (Ok 1, (h', ())) ∧ hub_inv [demo_client] h'.
Proof.
  destruct (proj2 (@broadcast_fanout range_canonical () () [demo_client] demo_hub (str "chat")
    (mret (Ok (Some demo_frame))) () () demo_hub_inv ltac:(by_decide)) demo_frame eq_refl)
    as (h' & E & Hi & _).
  exists h'. split; [exact E|exact Hi].
Defined.

(** One heartbeat tick queues the ping on each live connection once per
    shard that holds one of its routing keys, and on no other connection. *)
Theorem heartbeat_once_per_shard `{!GoRange} L h frame :
  hub_inv L h →
  ∃ h', BroadcastHeartbeat frame h = Some ((), h') ∧ hub_inv L h'
        ∧ (∀ c, c ∈ L → store h' !! ptr c =
             Nat.iter (copies (numShards h) c (shard_positions h)) (enqueue_to frame c) <$> store h !! ptr c)
        ∧ (∀ p, p ∉ ptr <$> L → store h' !! p = store h !! p).
Proof.
  intros Hi. destruct (wp_run _ _ _ (BroadcastHeartbeat_spec L h frame Hi)) as ([] & h' & E & [S1 S2 S3 S4]).
  by exists h'.
Qed.

Lemma heartbeat_once_per_shard_witness :
  ∃ h', @BroadcastHeartbeat range_canonical demo_frame demo_hub = Some ((), h') ∧ hub_inv [demo_client] h'.
Proof.
  destruct (@heartbeat_once_per_shard range_canonical [demo_client] demo_hub demo_frame demo_hub_inv)
    as (h' & E & Hi & _).
  exists h'. split; [exact E|exact Hi].
Defined.

(** As a consequence a heartbeat can disconnect an idle connection.  With
    the shipped defaults (256 shards, 32-frame queues, 64 topics per connection,
    [disconnect] policy), one tick overflows the empty queue of a connection
    that follows 64 topics, and the connection is closed as a slow client. *)
Theorem heartbeat_disconnects_idle :
  let keys := (λ i, str "tenant:acme:app:crm:topic:t" ++ FormatInt i) <$> seqZ 0 64 in
  let new := NewClient 1 (str "c1") (str "bob") (str "acme") keys 32 SlowPolicyDisconnect true in
  let h0 := upd_store (<[1%positive := new.2]>) (NewHub 256 (mkLimits 50000 10 0 64)) in
  let h1 := default h0 (snd <$> Register new.1 keys h0) in
  let h2 := default h1 (snd <$> @BroadcastHeartbeat range_canonical (NewHeartbeatFrame (str ": ping")) h1) in
  (λ s, (length (buf (Send s)), IsClosed s)) <$> store h1 !! 1%positive = Some (0%nat, false)
  ∧ (λ s, (length (buf (Send s)), IsClosed s)) <$> store h2 !! 1%positive = Some (32%nat, true).
Proof. vm_compute. done. Qed.
