(* ===== verification/HubRevoke.v ===== *)
(** * Revocation and shutdown of the hub

    [InvalidateUser] closes exactly the connections of the revoked user and
    releases each of their quotas once; [Close] closes every connection. *)

From S2P Require Import Prelude GoStrings Hashutil Chan Frame Quota Client Shard Hub HubSpec HubBroadcast.

Local Open Scope Z_scope.

(** ** Revocation of a user *)

(** A client after [MarkUnregistered] and [Close]. *)
Definition revoke (s : ClientState) : ClientState := mkClientState (Send s) true true true true.

Lemma revoke_wf s : client_wf s → client_wf (revoke s).
Proof. intros [H1 H2 H3 H4 H5]. by split. Qed.

(** Steps that rewrite client states and quota counters. *)
Definition quota_store_only (h h' : Hub) : Prop :=
  h' = upd_quotas (λ _, quotas h') (upd_store (λ _, store h') h).

Lemma quota_store_only_refl h : quota_store_only h h.
Proof. by destruct h. Qed.
Lemma quota_store_only_trans h1 h2 h3 :
  quota_store_only h1 h2 → quota_store_only h2 h3 → quota_store_only h1 h3.
Proof. unfold quota_store_only. intros H1 H2. rewrite H2, H1. by destruct h1. Qed.
Lemma quota_store_only_fields h h' :
  quota_store_only h h' →
  numShards h' = numShards h ∧ shards h' = shards h ∧ limits h' = limits h ∧ hub_closed h' = hub_closed h.
Proof. unfold quota_store_only. intros ->. by destruct h. Qed.

Lemma filter_not_in_cons (c : Client) ms (L : list Client) :
  filter (λ x, x ∉ c :: ms) L = filter (λ x, x ∉ ms) (filter (λ x, x ≠ c) L).
Proof.
  rewrite list_filter_filter. apply list_filter_iff. intros x. rewrite not_elem_of_cons. naive_solver.
Qed.

Lemma filter_ne_notin (c : Client) (L : list Client) : c ∉ L → filter (λ x, x ≠ c) L = L.
Proof.
  induction L as [|x L IH]; intros Hc; [done|]. rewrite filter_cons, decide_True by set_solver.
  f_equal. apply IH. set_solver.
Qed.

Lemma filter_ne_perm (c : Client) (L : list Client) : NoDup L → c ∈ L → L ≡ₚ c :: filter (λ x, x ≠ c) L.
Proof.
  intros Hnd Hc. apply NoDup_Permutation; [done| |].
  - constructor; [|by apply NoDup_filter]. by intros [? ?]%list_elem_of_filter.
  - intros x. rewrite elem_of_cons, list_elem_of_filter. destruct (decide (x = c)); naive_solver.
Qed.

Lemma revoke_client_live L h c s :
  NoDup L → c ∈ L → quota_inv (session_of <$> L) (quotas h) →
  store h !! ptr c = Some s → client_wf s → unregistered s = false →
  ∃ h', revoke_client c h = Some (true, h')
        ∧ quota_inv (session_of <$> filter (λ x, x ≠ c) L) (quotas h')
        ∧ qlimits (quotas h') = qlimits (quotas h)
        ∧ store h' = <[ptr c := revoke s]> (store h) ∧ quota_store_only h h'.
Proof.
  intros Hnd Hc Hq Hs Hwf Hu. unfold revoke_client, mbind, M_bind.
  erewrite on_client_spec; [|done|apply MarkUnregistered_spec]. rewrite Hu. simpl.
  erewrite on_client_spec;
    [|simpl; apply lookup_insert_eq|apply Close_spec; by apply set_unregistered_wf].
  eexists. split; [done|]. simpl. split_and!; [|done|by rewrite insert_insert_eq|by destruct h].
  apply Release_spec. eapply quota_inv_perm, Hq.
  by rewrite (filter_ne_perm c L) at 1 by done.
Qed.

Lemma revoke_client_gone h c s :
  store h !! ptr c = Some s → unregistered s = true → revoke_client c h = Some (false, h).
Proof.
  intros Hs Hu. unfold revoke_client, mbind, M_bind.
  erewrite on_client_spec; [|done|apply MarkUnregistered_spec]. rewrite Hu. simpl.
  unfold mret, M_ret. do 2 f_equal. destruct h, s; simpl in *. subst.
  unfold upd_store, set_unregistered. simpl. f_equal. by apply insert_id.
Qed.

(** Outcome of the inner loop: the clients of [ms] still counted in [L] are
    revoked and released, the others are left alone. *)
Record revoked (ms L : list Client) (n : Z) (h h' : Hub) : Prop := {
  rv_quota : quota_inv (session_of <$> filter (λ c, c ∉ ms) L) (quotas h');
  rv_limits : qlimits (quotas h') = qlimits (quotas h);
  rv_count : n = Z.of_nat (length L) - Z.of_nat (length (filter (λ c, c ∉ ms) L));
  rv_wf : map_Forall (λ _ s, client_wf s) (store h');
  rv_ms c : c ∈ ms → store h' !! ptr c = (if decide (c ∈ L) then revoke else id) <$> store h !! ptr c;
  rv_others p : p ∉ ptr <$> ms → store h' !! p = store h !! p;
  rv_frame : quota_store_only h h';
}.

Lemma close_matched_spec ms L h :
  NoDup L → NoDup (ptr <$> ms) →
  quota_inv (session_of <$> L) (quotas h) →
  map_Forall (λ _ s, client_wf s) (store h) →
  (∀ c, c ∈ ms → ∃ s, store h !! ptr c = Some s ∧ (unregistered s = false ↔ c ∈ L)) →
  wp (close_matched ms) (λ n h', revoked ms L n h h') h.
Proof.
  revert L h. induction ms as [|c ms IH]; intros L h HndL Hnd Hq Hwf Hst; cbn [close_matched].
  { apply wp_ret. assert (filter (λ c, c ∉ []) L = L) as Ef.
    { clear. induction L as [|x L IH]; [done|]. rewrite filter_cons, decide_True, IH; set_solver. }
    split; rewrite ?Ef; try done; [lia|by intros ? ?%elem_of_nil|apply quota_store_only_refl]. }
  rewrite fmap_cons, NoDup_cons in Hnd. destruct Hnd as [Hp Hnd].
  destruct (Hst c) as (s & Hs & Hlive); [left|]. pose proof (Hwf _ _ Hs) as Hs'.
  assert (∀ c', c' ∈ ms → ptr c' ≠ ptr c) as Hne.
  { intros c' Hc' E. apply Hp. rewrite <- E. apply list_elem_of_fmap. eauto. }
  assert (c ∉ ms) as Hcms by (intros Hc; by apply (Hne c)).
  destruct (decide (c ∈ L)) as [Hc|Hc].
  - (* counted: revoked and released now *)
    destruct (revoke_client_live L h c s) as (h1 & E1 & Hq1 & El1 & Es1 & Hf1); [done..|by apply Hlive|].
    wp_step. eapply wp_of_run; [done|]. wp_step. eapply wp_mono.
    { apply (IH (filter (λ x, x ≠ c) L)); [by apply NoDup_filter|done|done| |].
      - rewrite Es1. apply map_Forall_insert_2; [by apply revoke_wf|done].
      - intros c' Hc'. destruct (Hst c') as (s' & Hs1 & Hl'); [by right|]. exists s'.
        rewrite Es1, lookup_insert_ne by (by apply not_eq_sym, Hne). split; [done|].
        rewrite Hl', list_elem_of_filter. naive_solver. }
    intros n h2 [R1 R2 R3 R4 R5 R6 R7]. apply wp_ret.
    rewrite <- filter_not_in_cons in R1, R3.
    assert (length L = S (length (filter (λ x, x ≠ c) L))) as Elen
      by (by rewrite (filter_ne_perm c L) at 1 by done).
    split; [done|by rewrite R2|lia|done| | |by eapply quota_store_only_trans].
    + intros c' [->|Hc']%elem_of_cons.
      * by rewrite R6, Es1, lookup_insert_eq, Hs, decide_True by done.
      * rewrite R5, Es1, lookup_insert_ne by (done || by apply not_eq_sym, Hne).
        assert (c' ≠ c) by (by intros ->). f_equal.
        destruct (decide (c' ∈ L)) as [?|?];
          [rewrite decide_True|rewrite decide_False]; rewrite ?list_elem_of_filter; naive_solver.
    + intros p [Hpc Hpcs]%not_elem_of_cons. rewrite R6, Es1 by done. by rewrite lookup_insert_ne.
  - (* already unregistered: nothing to do *)
    assert (unregistered s = true) as Hu by (destruct (unregistered s); naive_solver).
    wp_step. eapply wp_of_run; [by eapply revoke_client_gone|]. wp_step. eapply wp_mono.
    { apply (IH L); [done..|]. intros c' Hc'. apply Hst. by right. }
    intros n h2 [R1 R2 R3 R4 R5 R6 R7]. apply wp_ret.
    split; rewrite ?filter_not_in_cons, ?filter_ne_notin by done; [done|done|lia|done| | |done].
    + intros c' [->|Hc']%elem_of_cons; [|by apply R5].
      by rewrite R6, Hs, decide_False by done.
    + intros p [Hpc Hpcs]%not_elem_of_cons. by apply R6.
Qed.

(** Clients of the user with a routing key on one of the first [i] shards. *)
Definition matched_before (t u : gostring) (n : Z) (i : nat) (c : Client) : Prop :=
  user_match t u c ∧ Exists (λ k, (shard_of n k < i)%nat) (Topics c).

Global Instance matched_before_dec t u n i c : Decision (matched_before t u n i c).
Proof. apply _. Defined.

(** State after the first [i] shards were visited, [n] connections closed. *)
Record invalidating (L : list Client) (t u : gostring) (h0 : Hub) (i : nat) (n : Z) (h : Hub) : Prop := {
  iv_rel : hub_rel (λ k c, subscribed L k c ∧ ¬ (user_match t u c ∧ shard_of (numShards h0) k < i)%nat)
                   (λ j c, listed (numShards h0) L j c ∧ ¬ (user_match t u c ∧ j < i)%nat) h;
  iv_quota : quota_inv (session_of <$> filter (λ c, ¬ matched_before t u (numShards h0) i c) L) (quotas h);
  iv_limits : qlimits (quotas h) = limits h;
  iv_wf : map_Forall (λ _ s, client_wf s) (store h);
  iv_store c : c ∈ L → store h !! ptr c =
    (if decide (matched_before t u (numShards h0) i c) then revoke else id) <$> store h0 !! ptr c;
  iv_others p : p ∉ ptr <$> L → store h !! p = store h0 !! p;
  iv_count : n = Z.of_nat (length L)
                 - Z.of_nat (length (filter (λ c, ¬ matched_before t u (numShards h0) i c) L));
  iv_frame : numShards h = numShards h0 ∧ limits h = limits h0 ∧ hub_closed h = hub_closed h0;
}.

Lemma matched_before_S t u n i c :
  matched_before t u n (S i) c ↔
    matched_before t u n i c ∨ (user_match t u c ∧ ∃ k, k ∈ Topics c ∧ shard_of n k = i).
Proof.
  unfold matched_before. rewrite !Exists_exists. split.
  - intros [Hm (k & Hk & Hlt)]. destruct (decide (shard_of n k = i)); [right; eauto|].
    left. split; [done|]. exists k. split; [done|lia].
  - intros [[Hm (k & Hk & Hlt)]|[Hm (k & Hk & He)]]; (split; [done|]); exists k; (split; [done|lia]).
Qed.

Section invalidation.
Context `{!GoRange} (L : list Client) (t u : gostring) (h0 : Hub).
Hypothesis Hinv : hub_inv L h0.

Lemma invalidating_start : invalidating L t u h0 0 0 h0.
Proof.
  assert (∀ c, ¬ matched_before t u (numShards h0) 0 c) as Hno.
  { intros c [_ (k & _ & ?)%Exists_exists]. lia. }
  assert (filter (λ c, ¬ matched_before t u (numShards h0) 0 c) L = L) as Ef.
  { clear -Hno. induction L as [|x l IH]; [done|]. rewrite filter_cons, decide_True by done. by f_equal. }
  destruct Hinv as [I1 I2 I3 I4 I5 I6 I7]. split; rewrite ?Ef; try done.
  - eapply hub_rel_ext, I1; intros; split; [intros ?; split; [done|lia]|naive_solver| |naive_solver].
    intros ?; split; [done|lia].
  - intros c Hc. rewrite decide_False by done. by destruct (store h0 !! ptr c).
  - lia.
Qed.

Lemma L_uniq c c' : c ∈ L → c' ∈ L → ID c = ID c' → c = c'.
Proof. by apply hub_inv_uniq with h0. Qed.

Lemma invalidating_step i n h :
  (i < length (shards h0))%nat → invalidating L t u h0 i n h →
  wp (matched ← on_shard i (Shard.InvalidateUser t u); close_matched matched)
     (λ m h', invalidating L t u h0 (S i) (n + m) h') h.
Proof.
  intros Hi [V1 V2 V3 V4 V5 V6 V7 (F1 & F2 & F3)]. set (N := numShards h0) in *.
  destruct (lookup_lt_is_Some_2 (shards h) i) as [s Hs].
  { pose proof (hr_len _ _ _ V1). pose proof (hr_len _ _ _ (hi_rel _ _ Hinv)). unfold N in *. congruence || lia. }
  pose proof (hr_shard _ _ _ V1 _ _ Hs) as Hsr. rewrite F1 in Hsr.
  set (ms := (Shard.InvalidateUser t u s).1).
  assert (∀ c, c ∈ ms ↔ listed N L i c ∧ user_match t u c) as Hms.
  { intros c. unfold ms. rewrite (InvalidateUser_matched _ _ t u s c Hsr).
    split; [naive_solver|]. intros [? ?]. split; [split; [done|lia]|done]. }
  wp_step. eapply wp_of_run; [by apply on_shard_spec|]. fold ms.
  set (h1 := upd_shards _ h).
  assert (∀ c, c ∈ ms → c ∈ L) as HmsL by (intros c [[? _] _]%Hms; done).
  set (Li := filter (λ c, ¬ matched_before t u N i c) L) in *.
  assert (filter (λ c, c ∉ ms) Li = filter (λ c, ¬ matched_before t u N (S i) c) L) as ELi.
  { unfold Li. rewrite list_filter_filter. apply filter_ext_in. intros c Hc.
    rewrite matched_before_S. rewrite Hms. unfold listed. naive_solver. }
  eapply wp_mono; [apply (close_matched_spec ms Li h1)|].
  - apply NoDup_filter. eapply NoDup_fmap_1, (hi_ids _ _ Hinv).
  - apply (clients_ptrs L h0); [done|by eapply InvalidateUser_NoDup|done].
  - done.
  - done.
  - intros c Hc. destruct (hi_live _ _ Hinv c (HmsL c Hc)) as (s0 & Hs0 & Hu0).
    simpl. rewrite V5, Hs0 by auto. eexists; split; [done|].
    unfold Li. rewrite list_elem_of_filter. case_decide; simpl; [|naive_solver].
    split; [done|]. by intros [? _].
  - intros m h2 [R1 R2 R3 R4 R5 R6 R7]. rewrite ELi in *.
    destruct (quota_store_only_fields _ _ R7) as (G1 & G2 & G3 & G4).
    split; fold N; try done.
    + eapply hub_rel_same; [done..|]. eapply hub_rel_update; [done..| | |].
      * rewrite F1. eapply shard_rel_ext; [| |apply (InvalidateUser_rel _ _ t u s Hsr)].
        -- intros k c. simpl. unfold subscribed, listed. split.
           ++ intros [[[[Hc Hk] Hn] Hi'] Hn']. split; [|done]. split; [done|]. intros [Hm _].
              apply Hn'. split; [|done]. split; [|lia]. eauto.
           ++ intros [[[Hc Hk] Hn] Hi']. split; [split; [split; [done|]|done]|]; [lia|].
              intros [_ Hm]. apply Hn. split; [done|lia].
        -- intros c. simpl. split; [intros [[? ?] ?]; split; [done|naive_solver]|].
           intros [? Hn]. split; [split; [done|]|]; [lia|]. intros Hm. apply Hn. split; [done|lia].
        -- simpl. intros k c c' [[[Hc _] _] _] [[Hc' _] _]. by apply L_uniq.
      * intros k c Hne. simpl. rewrite F1 in Hne. split; intros [? Hn]; (split; [done|]); intros [Hm ?]; apply Hn; (split; [done|lia]).
      * intros j c Hne. simpl. split; intros [? Hn]; (split; [done|]); intros [Hm ?]; apply Hn; (split; [done|lia]).
    + by rewrite R2, G3.
    + intros c Hc. destruct (decide (c ∈ ms)) as [Hm|Hm].
      * rewrite R5 by done. simpl. rewrite V5, <- option_fmap_compose by done.
        destruct (store h0 !! ptr c) as [s0|]; [|done]. simpl. f_equal.
        rewrite (decide_True (P := matched_before t u N (S i) c)).
        2:{ rewrite matched_before_S. right. apply Hms in Hm as [[_ ?] ?]. done. }
        destruct (decide (c ∈ Li)) as [E1|E1], (decide (matched_before t u N i c)) as [E2|E2]; try done.
        contradict E1. by apply list_elem_of_filter.
      * rewrite R6.
        2:{ intros (c' & Hp & Hc')%list_elem_of_fmap. apply Hm.
            by rewrite (NoDup_fmap_inj_in ptr L c c' (hi_ptrs _ _ Hinv) Hc (HmsL _ Hc') Hp). }
        simpl. rewrite V5 by done. f_equal. apply decide_ext. rewrite matched_before_S.
        rewrite Hms in Hm. unfold listed in Hm. naive_solver.
    + intros p Hp. rewrite R6; [by apply V6|].
      intros (c' & -> & Hc')%list_elem_of_fmap. apply Hp. apply list_elem_of_fmap. eauto.
    + lia.
    + simpl in *. by rewrite G1, G3, G4.
Qed.

Lemma invalidate_loop i j n h :
  (i + j = length (shards h0))%nat → invalidating L t u h0 i n h →
  wp (invalidate_shards t u (seq i j)) (λ m h', invalidating L t u h0 (i + j) (n + m) h') h.
Proof.
  revert i n h. induction j as [|j IH]; intros i n h Hij Hiv; cbn [seq invalidate_shards].
  { apply wp_ret. by rewrite Nat.add_0_r, Z.add_0_r. }
  apply wp_bind. pose proof (invalidating_step i n h ltac:(lia) Hiv) as Hstep.
  unfold wp at 1 in Hstep. unfold mbind, M_bind in Hstep.
  unfold wp at 1. destruct (on_shard i _ h) as [[ms h1]|]; [|done].
  apply wp_bind. unfold wp at 1. destruct (close_matched ms h1) as [[m h2]|]; [|done].
  apply wp_bind. eapply wp_mono; [apply IH, Hstep; lia|].
  intros m' h' Hiv'. apply wp_ret.
  replace (i + S j)%nat with (S i + j)%nat by lia.
  by replace (n + (m + m')) with (n + m + m') by lia.
Qed.

Lemma InvalidateUser_spec :
  wp (InvalidateUser t u) (λ n h', invalidating L t u h0 (length (shards h0)) n h') h0.
Proof.
  unfold InvalidateUser. wp_step. wp_step.
  eapply wp_mono; [apply (invalidate_loop 0 _ 0), invalidating_start; done|]. done.
Qed.
End invalidation.

(** ** Shutdown *)
Definition close_state (_ : Client) (s : ClientState) : ClientState :=
  mkClientState (Send s) true true true (unregistered s).

Lemma hub_inv_frame L h h' :
  numShards h' = numShards h → shards h' = shards h → limits h' = limits h →
  quotas h' = quotas h → store h' = store h → hub_inv L h → hub_inv L h'.
Proof.
  intros E1 E2 E3 E4 E5 [I1 I2 I3 I4 I5 I6 I7]. split; rewrite ?E1, ?E3, ?E4, ?E5; try done.
  by eapply hub_rel_same.
Qed.

Lemma close_all_spec cs h :
  NoDup (ptr <$> cs) → map_Forall (λ _ s, client_wf s) (store h) →
  (∀ c, c ∈ cs → is_Some (store h !! ptr c)) →
  wp (for_range cs (λ c, on_client c Client.Close)) (λ _ h', applied close_state cs h h') h.
Proof.
  revert h. induction cs as [|c cs IH]; intros h Hnd Hwf Hst; cbn [for_range].
  { apply wp_ret. split; auto with hub; by intros c ?%elem_of_nil. }
  rewrite fmap_cons, NoDup_cons in Hnd. destruct Hnd as [Hp Hnd].
  destruct (Hst c) as [s Hs]; [left|]. pose proof (Hwf _ _ Hs) as Hs'.
  assert (∀ c', c' ∈ cs → ptr c ≠ ptr c') as Hne.
  { intros c' Hc' E. apply Hp. rewrite E. apply list_elem_of_fmap. eauto. }
  wp_step. eapply wp_of_run; [eapply on_client_spec; [done|by apply Client.Close_spec]|].
  eapply wp_mono.
  { apply IH; [done| |].
    - simpl. apply map_Forall_insert_2; [by apply Close_wf|done].
    - intros c' Hc'. simpl. rewrite lookup_insert_ne by auto. apply Hst. by right. }
  intros [] h2 [D1 D2 D3 D4 D5]. simpl in *.
  split; [eapply store_only_trans, D1; apply store_only_upd_store|done| | |done].
  - intros c' [->|Hc']%elem_of_cons.
    + by rewrite D4, lookup_insert_eq, Hs by done.
    + by rewrite D3, lookup_insert_ne by auto.
  - intros p [Hpc Hpcs]%not_elem_of_cons. rewrite D4 by done. by rewrite lookup_insert_ne.
Qed.

Lemma iter_close n c s : (0 < n)%nat → Nat.iter n (close_state c) s = close_state c s.
Proof. destruct n as [|n]; [lia|]. intros _. induction n as [|n IH]; [done|]. simpl in *. by rewrite IH. Qed.

(** A connection with at least one routing key is listed by some shard. *)
Lemma copies_pos L h c :
  hub_inv L h → Topics c ≠ [] → (0 < copies (numShards h) c (shard_positions h))%nat.
Proof.
  intros Hi Ht. destruct (Topics c) as [|k ks] eqn:E; [done|].
  apply count_pos_elem. exists (shard_of (numShards h) k). split.
  - apply elem_of_seq. destruct (hi_rel _ _ Hi) as [R1 R2 _]. rewrite R2.
    split; [lia|]. by apply shard_of_lt.
  - unfold lists_on. rewrite E. by left.
Qed.

Section shutdown.
Context `{!GoRange}.

Lemma hub_Close_spec L h :
  hub_inv L h → hub_closed h = false →
  wp Hub.Close
     (λ _ h', hub_inv L h' ∧ hub_closed h' = true
              ∧ heartbeatCancel h' = None ∧ heartbeats h' = cancel_heartbeat h
              ∧ ∀ c, c ∈ L → Topics c ≠ [] →
                  store h' !! ptr c = close_state c <$> store h !! ptr c) h.
Proof.
  intros Hi Hc. unfold Hub.Close. wp_step. wp_step. rewrite Hc.
  do 2 (wp_step; wp_step). set (h1 := upd_heartbeat _ _ _ _).
  assert (hub_inv L h1) as Hi1 by (by eapply hub_inv_frame, Hi).
  wp_step. wp_step.
  eapply wp_mono; [apply (sweep_spec close_state L); [done|done|]|].
  - intros i h' Hi' _ Hlt. destruct (all_clients_spec L h' i Hi' Hlt) as (cs & Er & Hnd & Hcs).
    assert (∀ c, c ∈ cs → c ∈ L) as HL by (intros c [? _]%Hcs; done).
    destruct (clients_ptrs L h' cs Hi' Hnd HL) as [Hp Hst].
    wp_step. eapply wp_of_run; [done|].
    eapply wp_mono; [apply close_all_spec; [done|apply Hi'|done]|]. intros [] h'' Ha. eauto.
  - intros [] h' [S1 S2 S3 S4]. split; [done|].
    unfold store_only in S2. rewrite S2. split; [done|]. split; [done|]. split; [done|].
    rewrite <- S2. intros c Hc' Ht. rewrite S3 by done.
    pose proof (copies_pos L h1 c Hi1 Ht). simpl. destruct (store h !! ptr c); [|done].
    simpl. f_equal. by apply iter_close.
Qed.

Lemma hub_Close_idempotent h : hub_closed h = true → Hub.Close h = Some ((), h).
Proof. intros Hc. unfold Hub.Close, mbind, M_bind, gets. by rewrite Hc. Qed.
End shutdown.

(** ** Theorems *)

(** After the last shard the live set is the connections of the other users. *)
Section invalidated.
Context (L : list Client) (t u : gostring) (h h' : Hub) (n : Z).
Hypothesis Hi : hub_inv L h.
Hypothesis Htop : ∀ c, c ∈ L → Topics c ≠ [].
Hypothesis Hiv : invalidating L t u h (length (shards h)) n h'.

Lemma matched_all c :
  c ∈ L → matched_before t u (numShards h) (length (shards h)) c ↔ user_match t u c.
Proof.
  intros Hc. pose proof (hi_rel _ _ Hi) as [R1 R2 _]. rewrite R2.
  unfold matched_before. split; [by intros [? _]|]. intros Hm. split; [done|].
  destruct (Topics c) as [|k ks] eqn:Ek; [by apply Htop in Hc|]. left. by apply shard_of_lt.
Qed.

Lemma remaining_eq :
  filter (λ c, ¬ matched_before t u (numShards h) (length (shards h)) c) L =
    filter (λ c, ¬ user_match t u c) L.
Proof. apply filter_ext_in. intros c Hc. by rewrite matched_all. Qed.

Lemma invalidated_count : n = Z.of_nat (count (user_match t u) L).
Proof.
  rewrite (iv_count _ _ _ _ _ _ _ Hiv), remaining_eq. clear. unfold count.
  induction L as [|c l IH]; [done|]. rewrite !filter_cons. repeat case_decide; simpl; try tauto; lia.
Qed.

Lemma invalidating_end : hub_inv (filter (λ c, ¬ user_match t u c) L) h'.
Proof.
  destruct Hiv as [V1 V2 V3 V4 V5 V6 V7 (F1 & F2 & F3)]. rewrite remaining_eq in *.
  pose proof (hi_rel _ _ Hi) as [R1 R2 _].
  assert (∀ k, (shard_of (numShards h) k < length (shards h))%nat) as Hlt
    by (intros k; rewrite R2; by apply shard_of_lt).
  split; rewrite ?F1, ?F2; try done.
  - eapply hub_rel_ext, V1; unfold subscribed, listed; intros; rewrite list_elem_of_filter.
    + split; [|naive_solver]. intros [[Hc Hk] Hn]. split; [split; [|done]|done].
      intros Hm. by apply Hn.
    + split; [|naive_solver]. intros [[Hc (k & Hk & <-)] Hn]. split; [split; [|done]|by eauto].
      intros Hm. by apply Hn.
  - eapply sublist_NoDup; [apply (hi_ids _ _ Hi)|apply sublist_filter_fmap].
  - eapply sublist_NoDup; [apply (hi_ptrs _ _ Hi)|apply sublist_filter_fmap].
  - intros c [Hm Hc]%list_elem_of_filter. destruct (hi_live _ _ Hi c Hc) as (s & Hs & Hu).
    exists s. rewrite V5, Hs, decide_False by (done || by rewrite matched_all). done.
  - by rewrite V3.
Qed.
End invalidated.

(** C5: revoking a user closes, unregisters and uncounts exactly the live
    connections of that user in that tenant, each once, returns their number,
    and leaves every other connection as it was. *)
Theorem invalidate_revokes_exactly `{!GoRange} L h t u :
  hub_inv L h → (∀ c, c ∈ L → Topics c ≠ []) →
  ∃ h', InvalidateUser t u h = Some (Z.of_nat (count (user_match t u) L), h')
        ∧ hub_inv (filter (λ c, ¬ user_match t u c) L) h'
        ∧ (∀ c, c ∈ L → user_match t u c → store h' !! ptr c = revoke <$> store h !! ptr c)
        ∧ (∀ c, c ∈ L → ¬ user_match t u c → store h' !! ptr c = store h !! ptr c).
Proof.
  intros Hi Htop. destruct (wp_run _ _ _ (InvalidateUser_spec L t u h Hi)) as (n & h' & E & Hiv).
  exists h'. rewrite E, (invalidated_count L t u h h' n Hi Htop Hiv).
  split; [done|]. split; [by eapply invalidating_end|].
  split; intros c Hc Hm; rewrite (iv_store _ _ _ _ _ _ _ Hiv) by done.
  - by rewrite decide_True by (by apply (matched_all L t u h Hi Htop)).
  - rewrite decide_False by (by rewrite (matched_all L t u h Hi Htop)). by destruct (store h !! ptr c).
Qed.

Lemma invalidate_revokes_exactly_witness :
  ∃ h', @InvalidateUser range_canonical (str "acme") (str "bob") demo_hub = Some (1, h') ∧ hub_inv [] h'.
Proof.
  destruct (@invalidate_revokes_exactly range_canonical [demo_client] demo_hub (str "acme") (str "bob") demo_hub_inv)
    as (h' & E & Hi & _).
  - intros c ->%list_elem_of_singleton. discriminate.
  - exists h'. split; [exact E|exact Hi].
Defined.

(** Closing the hub refuses registrations from then on, stops the
    heartbeat loop it started and closes every live connection; closing it
    again changes nothing. *)
Theorem hub_close_closes_all `{!GoRange} L h :
  hub_inv L h → (∀ c, c ∈ L → Topics c ≠ []) → hub_closed h = false →
  ∃ h', Hub.Close h = Some ((), h') ∧ hub_inv L h'
        ∧ (∀ c, c ∈ L → IsClosed <$> store h' !! ptr c = Some true ∧ Done <$> store h' !! ptr c = Some true)
        ∧ heartbeats h' = cancel_heartbeat h
        ∧ (∀ c keys, Register c keys h' = Some (Err ErrHubClosed, h'))
        ∧ Hub.Close h' = Some ((), h').
Proof.
  intros Hi Htop Hc. destruct (wp_run _ _ _ (hub_Close_spec L h Hi Hc)) as ([] & h' & E & Hi' & Hcl & _ & Hhb & Hst).
  exists h'. split_and!; try done.
  - intros c Hin. destruct (hi_live _ _ Hi c Hin) as (s & Hs & _).
    rewrite (Hst c Hin (Htop c Hin)), Hs. done.
  - intros c keys. unfold Register, mbind, M_bind, gets. by rewrite Hcl.
  - by apply hub_Close_idempotent.
Qed.

Lemma hub_close_closes_all_witness :
  ∃ h', @Hub.Close range_canonical demo_hub = Some ((), h') ∧ IsClosed <$> store h' !! 1%positive = Some true.
Proof.
  destruct (@hub_close_closes_all range_canonical [demo_client] demo_hub demo_hub_inv) as (h' & E & _ & Hc & _).
  - intros c ->%list_elem_of_singleton. discriminate.
  - reflexivity.
  - exists h'. split; [exact E|]. apply (Hc demo_client). left.
Defined.
