(* ===== verification/HubRun.v ===== *)
(** * Runs of the hub

    The life of a hub as a sequence of method calls: connections are created
    with a fresh pointer and identifier and registered, handlers drain queues
    and unregister, lanes broadcast, the heartbeat ticks, users are revoked, the
    hub is closed.  [hub_step] is one call; the invariant of [HubSpec.v] holds
    in every reachable state and no call panics. *)

From S2P Require Import Prelude GoStrings Hashutil Chan Frame Quota Client Shard Hub HubSpec HubBroadcast HubRevoke.

Local Open Scope Z_scope.

(** The HTTP handler receives the oldest frame of a connection's queue
    (internal/api/handlers.go, the streaming loop of [Events]). *)
Definition take_frame (c : Client) : M Hub (recv_result Frame) :=
  on_client c (λ s, match recv (Send s) with
                    | Received f ch => Some (Received f ch, set_Send ch s)
                    | r => Some (r, s)
                    end).

Section runs.
Context `{!GoRange}.

(** The calls on a hub with live connections [L]: their effect on [L]. *)
Inductive call : Type :=
| CConnect (c : Client) (s : ClientState)
| CUnregister (c : Client)
| CInvalidate (t u : gostring)
| CBroadcast (k : gostring) (r : result () (option Frame))
| CHeartbeat (frame : Frame)
| CStartHeartbeat (interval : Z) (payload : gostring)
| CTake (c : Client)
| CClose.

(** Running a call; the returned list is the new abstract state. *)
Definition exec (op : call) (L : list Client) : M Hub (list Client) :=
  match op with
  | CConnect c s =>
      alloc_client c s ;;
      r ← Register c (Topics c);
      mret (if is_ok r then c :: L else L)
  | CUnregister c => Unregister (Some c) ;; mret (filter (λ x, x ≠ c) L)
  | CInvalidate t u => InvalidateUser t u ;; mret (filter (λ c, ¬ user_match t u c) L)
  | CBroadcast k r => λ h,
      match ConditionalBroadcast k (mret r) (h, ()) with
      | None => None
      | Some (_, (h', _)) => Some (L, h')
      end
  | CHeartbeat frame => BroadcastHeartbeat frame ;; mret L
  | CStartHeartbeat interval payload => StartHeartbeat interval payload ;; mret L
  | CTake c => take_frame c ;; mret L
  | CClose => Hub.Close ;; mret L
  end.

(** When a call is made: a new connection comes from [NewClient] with an
    unused pointer and identifier and at least one topic (the ticket validator
    rejects empty topic lists); a handler works on a connection it created. *)
Definition callable (op : call) (L : list Client) (h : Hub) : Prop :=
  match op with
  | CConnect c s =>
      store h !! ptr c = None ∧ ID c ∉ ID <$> L ∧ Topics c ≠ []
      ∧ ∃ n cb, (c, s) = NewClient (ptr c) (ID c) (UserID c) (TenantID c) (Topics c) n (SlowPolicy c) cb
  | CUnregister c | CTake c =>
      c ∈ L ∨ ∃ s, store h !! ptr c = Some s ∧ unregistered s = true
  | _ => True
  end.

Inductive hub_step : list Client * Hub → list Client * Hub → Prop :=
| do_call op L h L' h' :
    callable op L h → exec op L h = Some (L', h') → hub_step (L, h) (L', h').

Definition run_inv (x : list Client * Hub) : Prop :=
  hub_inv x.1 x.2 ∧ ∀ c, c ∈ x.1 → Topics c ≠ [].

Lemma take_frame_spec L h c s :
  hub_inv L h → store h !! ptr c = Some s →
  wp (take_frame c) (λ _ h', hub_inv L h') h.
Proof.
  intros Hi Hs. pose proof (hi_store _ _ Hi _ _ Hs) as Hwf.
  assert (∀ s', client_wf s' → unregistered s' = unregistered s →
            hub_inv L (upd_store <[ptr c := s']> h)) as Hupd.
  { intros s' Hwf' Hu'. eapply hub_inv_store; [done|apply store_only_upd_store| |].
    - simpl. apply map_Forall_insert_2; [done|apply Hi].
    - intros c' Hc'. destruct (hi_live _ _ Hi c' Hc') as (s0 & Hs0 & Hu0). simpl.
      destruct (decide (ptr c = ptr c')) as [E|E].
      + rewrite E, lookup_insert_eq. rewrite E in Hs. eexists; split; [done|]. congruence.
      + rewrite lookup_insert_ne by done. eauto. }
  unfold take_frame. destruct (recv (Send s)) as [f ch| |] eqn:Er.
  - eapply wp_of_run; [eapply on_client_spec; [done|by rewrite Er]|].
    destruct (recv_wf _ _ _ Er (cw_bound _ Hwf)) as (W1 & W2 & W3).
    apply Hupd; [|done]. apply set_Send_wf; [done..|by rewrite W3, (cw_open _ Hwf)|done].
  - eapply wp_of_run; [eapply on_client_spec; [done|by rewrite Er]|]. by apply Hupd.
  - eapply wp_of_run; [eapply on_client_spec; [done|by rewrite Er]|]. by apply Hupd.
Qed.

Lemma broadcast_runs L h k (r : result () (option Frame)) :
  hub_inv L h →
  ∃ a h', ConditionalBroadcast k (mret r) (h, ()) = Some (a, (h', ())) ∧ hub_inv L h'.
Proof.
  intros Hi. destruct (decide (subscribers L k = [])) as [Hs|Hs].
  { rewrite (broadcast_no_subscriber L) by done. eauto. }
  destruct r as [[frame|]|e].
  - destruct (broadcast_delivers (E := ()) L h k (mret (Ok (Some frame))) () () frame Hi Hs eq_refl)
      as (h1 & h' & -> & _ & _ & Hi' & _). eauto.
  - destruct (broadcast_subscribers (E := ()) L h k (mret (Ok None)) () Hi Hs) as (rs & _ & ->). simpl. eauto.
  - destruct (broadcast_subscribers L h k (mret (Err e)) () Hi Hs) as (rs & _ & ->). simpl. eauto.
Qed.

Lemma unregister_runs L h c :
  hub_inv L h → c ∈ L ∨ (∃ s, store h !! ptr c = Some s ∧ unregistered s = true) →
  wp (Unregister (Some c)) (λ _ h', hub_inv (filter (λ x, x ≠ c) L) h') h.
Proof.
  intros Hi Hc. assert (NoDup L) as Hnd by (eapply NoDup_fmap_1, (hi_ids _ _ Hi)).
  destruct (decide (c ∈ L)) as [Hin|Hin].
  - eapply wp_mono; [apply (Unregister_spec L (filter (λ x, x ≠ c) L)); [done|by apply filter_ne_perm]|].
    intros [] h' [? _]. done.
  - destruct Hc as [?|(s & Hs & Hu)]; [done|].
    eapply wp_of_run; [by eapply Unregister_idempotent|]. by rewrite filter_ne_notin.
Qed.

(** One call: it does not panic and the invariant survives. *)
Lemma exec_spec op L h :
  run_inv (L, h) → callable op L h → wp (exec op L) (λ L' h', run_inv (L', h')) h.
Proof.
  intros [Hi Ht] Hc. simpl in Hi, Ht. unfold run_inv. simpl.
  destruct op as [c s|c|t u|k r|frame|interval payload|c|]; simpl in Hc |- *.
  - destruct Hc as (Hn & Hid & Htop & n & cb & Hnew).
    assert (client_wf s ∧ unregistered s = false) as [Hwf Hu].
    { replace s with (c, s).2 by done. rewrite Hnew. split; [apply NewClient_wf|done]. }
    wp_step. unfold alloc_client. wp_step. wp_step.
    eapply wp_mono; [apply (Register_spec L); [by apply alloc_inv|by apply alloc_fresh]|].
    intros r h' (-> & Hi' & _). apply wp_ret. split; [done|].
    destruct (is_ok _); [|done]. intros c' [->|?]%elem_of_cons; auto.
  - wp_step. eapply wp_mono; [by apply unregister_runs|]. intros [] h' Hi'. apply wp_ret.
    split; [done|]. intros c' [_ ?]%list_elem_of_filter. auto.
  - wp_step. eapply wp_mono; [apply (InvalidateUser_spec L t u h Hi)|].
    intros n h' Hiv. apply wp_ret. split; [by eapply invalidating_end|].
    intros c' [_ ?]%list_elem_of_filter. auto.
  - destruct (broadcast_runs L h k r Hi) as (a & h' & E & Hi'). unfold wp. by rewrite E.
  - wp_step. eapply wp_mono; [by apply BroadcastHeartbeat_spec|].
    intros [] h' [Hi' _ _ _]. by apply wp_ret.
  - wp_step. unfold StartHeartbeat. case_decide; wp_step; apply wp_ret; [done|].
    split; [|done]. by eapply hub_inv_frame, Hi.
  - assert (∃ s, store h !! ptr c = Some s) as [s Hs].
    { destruct Hc as [Hc|(s & Hs & _)]; [|eauto]. destruct (hi_live _ _ Hi c Hc) as (s & Hs & _). eauto. }
    wp_step. eapply wp_mono; [by eapply take_frame_spec|]. intros ? h' ?. by apply wp_ret.
  - wp_step. destruct (hub_closed h) eqn:E.
    + eapply wp_of_run; [by apply hub_Close_idempotent|]. by apply wp_ret.
    + eapply wp_mono; [by apply hub_Close_spec|]. intros [] h' [Hi' _]. by apply wp_ret.
Qed.

Lemma run_inv_steps x y : rtc hub_step x y → run_inv x → run_inv y.
Proof.
  induction 1 as [|x y z Hxy _ IH]; [done|]. intros Hx. apply IH.
  destruct Hxy as [op L h L' h' Hc E].
  pose proof (exec_spec op L h Hx Hc) as Hwp. unfold wp in Hwp. by rewrite E in Hwp.
Qed.

Lemma run_inv_start n limits : n < 2 ^ 32 → run_inv ([], NewHub n limits).
Proof. intros Hn. split; [by apply NewHub_inv|]. by intros c ?%elem_of_nil. Qed.

(** In every reachable state of a hub the sharded maps, the client flags
    and the quota counters describe one and the same set of live connections,
    and the configured ceilings hold. *)
Theorem hub_reachable_inv n limits L h :
  n < 2 ^ 32 → rtc hub_step ([], NewHub n limits) (L, h) →
  hub_inv L h ∧ limits_ok (qlimits (quotas h)) (session_of <$> L).
Proof.
  intros Hn Hrun. destruct (run_inv_steps _ _ Hrun (run_inv_start n limits Hn)) as [Hi _].
  split; [done|]. apply (hi_quota _ _ Hi).
Qed.

(** No hub call panics in a reachable state: no shard index is out of
    range, no channel is closed twice or written after its close, and every
    call terminates with a result. *)
Theorem hub_calls_never_panic n limits L h op :
  n < 2 ^ 32 → rtc hub_step ([], NewHub n limits) (L, h) → callable op L h →
  ∃ L' h', exec op L h = Some (L', h').
Proof.
  intros Hn Hrun Hc. pose proof (run_inv_steps _ _ Hrun (run_inv_start n limits Hn)) as Hi.
  destruct (wp_run _ _ _ (exec_spec op L h Hi Hc)) as (L' & h' & E & _). eauto.
Qed.
End runs.

Lemma hub_reachable_inv_witness : hub_inv [demo_client] demo_hub.
Proof.
  apply (@hub_reachable_inv range_canonical 4 demo_limits [demo_client] demo_hub); [lia|].
  apply rtc_once. apply (@do_call range_canonical (CConnect demo_client demo_state)).
  - split_and!; [reflexivity|by_decide|discriminate|]. exists 2, true. reflexivity.
  - vm_compute. reflexivity.
Defined.

Lemma hub_calls_never_panic_witness :
  ∃ L' h', @exec range_canonical (CInvalidate (str "a") (str "b")) [] (NewHub 4 demo_limits) = Some (L', h').
Proof.
  apply (@hub_calls_never_panic range_canonical 4 demo_limits [] (NewHub 4 demo_limits)
           (CInvalidate (str "a") (str "b"))); [lia|apply rtc_refl|exact I].
Defined.
