(* ===== verification/HubConc.v ===== *)
(** * internal/hub/hub.go under concurrency

    The methods of the hub cut at their atomic operations: a mutex-protected
    method of a shard or of the quota tracker, an operation on a client's flags,
    a load of the closed flag.  [hub_atomic] is one operation of a call,
    [cstep] interleaves any number of calls: registrations by the handlers, the
    [Unregister] a handler defers once [Register] has succeeded, revocations,
    broadcasts, heartbeats and the closing of the hub.  [excl] adds a
    discipline the source does not have: revocations of a user and
    registrations of that user exclude each other. *)

From S2P Require Import Prelude GoStrings Hashutil Chan Frame Quota Client Shard Hub HubSpec.

Local Open Scope Z_scope.

(** ** The calls and where they stand *)
Inductive hpc :=
| RegCheck (c : Client)                              (* closed flag, number of topics *)
| RegAcquire (c : Client)                            (* [quotas.Acquire] *)
| RegInsert (c : Client) (rest : list gostring)      (* the loop over the routing keys *)
| RegDone (r : result HubErr ()) (c : Client)
| UnMark (c : Client)                                (* [MarkUnregistered] *)
| UnClose (c : Client)
| UnRemove (c : Client) (rest : list gostring)       (* the loop over the topics *)
| UnRelease (c : Client)
| UnDone
| InvShard (t u : gostring) (idxs : list nat) (closedCount : Z)
| InvMark (t u : gostring) (cs : list Client) (idxs : list nat) (closedCount : Z)
| InvClose (t u : gostring) (c : Client) (cs : list Client) (idxs : list nat) (closedCount : Z)
| InvRelease (t u : gostring) (c : Client) (cs : list Client) (idxs : list nat) (closedCount : Z)
| InvDone (closedCount : Z)
| FanLookup (k : gostring) (frame : Frame)           (* [ConditionalBroadcast], [frame] from its callback *)
| FanShard (idxs : list nat) (frame : Frame)         (* [BroadcastHeartbeat] *)
| FanSend (k : option gostring) (cs : list Client) (idxs : list nat) (frame : Frame)   (* [k]: the key of a broadcast *)
| CloseFlag                                          (* [Close]: its flag and the heartbeat's stop *)
| CloseShard (idxs : list nat)
| CloseSend (cs : list Client) (idxs : list nat)
| CallDone.

(** ** Lists of calls *)
Section views.
Context {A B : Type}.
Implicit Types (f : A → list B) (ts : list A).

Lemma bind_update_perm f ts j q q' :
  ts !! j = Some q → (<[j := q']> ts ≫= f) ++ f q ≡ₚ (ts ≫= f) ++ f q'.
Proof.
  revert j. induction ts as [|x ts IH]; intros [|j]; simpl; try done.
  - intros [= ->]. by rewrite (Permutation_app_comm (f q' ++ _)), (Permutation_app_comm (f q')), (assoc_L (++)).
  - intros Hj. rewrite <- !(assoc_L (++)). by rewrite (IH j Hj).
Qed.

Lemma bind_update_eq f ts j q q' : ts !! j = Some q → f q' = f q → <[j := q']> ts ≫= f = ts ≫= f.
Proof.
  revert j. induction ts as [|x ts IH]; intros [|j]; simpl; try done.
  - by intros [= ->] ->.
  - intros Hj E. f_equal. by apply (IH j).
Qed.

Lemma bind_snoc f ts q : (ts ++ [q]) ≫= f = (ts ≫= f) ++ f q.
Proof. rewrite bind_app. simpl. by rewrite app_nil_r. Qed.

Lemma elem_bind_update f ts j q q' x :
  ts !! j = Some q → x ∈ <[j := q']> ts ≫= f → x ∈ f q' ∨ x ∈ ts ≫= f.
Proof.
  intros Hj (y & Hx & Hy)%list_elem_of_bind. apply elem_of_insert in Hy as [->|Hy]; [by left|right].
  apply list_elem_of_bind. eauto.
Qed.

Lemma elem_update_keep ts j (q q' x : A) : ts !! j = Some q → x ∈ ts → x = q ∨ x ∈ <[j := q']> ts.
Proof.
  intros Hj (i & Hi)%list_elem_of_lookup. destruct (decide (i = j)) as [->|Hne]; [left; congruence|right].
  apply list_elem_of_lookup. exists i. by rewrite list_lookup_insert_ne.
Qed.

Lemma elem_update_new ts j (q q' : A) : ts !! j = Some q → q' ∈ <[j := q']> ts.
Proof. intros Hj. apply list_elem_of_lookup. exists j. apply list_lookup_insert_eq. by eapply lookup_lt_Some. Qed.
End views.

Section conc.
Context `{!GoRange}.

(** One atomic operation; a call that has returned stays where it is. *)
Definition hub_atomic (q : hpc) : M Hub hpc :=
  match q with
  | RegCheck c =>
      isClosed ← gets hub_closed;
      if isClosed : bool then mret (RegDone (Err ErrHubClosed) c)
      else
        l ← gets limits;
        if decide (MaxTopicsPerConnection l > 0 ∧ Z.of_nat (length (Topics c)) > MaxTopicsPerConnection l)
        then mret (RegDone (Err ErrMaxTopicsExceeded) c) else mret (RegAcquire c)
  | RegAcquire c =>
      r ← quota_acquire (TenantID c) (UserID c);
      mret (match r with Err e => RegDone (Err (ErrQuota e)) c | Ok _ => RegInsert c (Topics c) end)
  | RegInsert c [] => mret (RegDone (Ok ()) c)
  | RegInsert c (k :: rest) =>
      (i ← getShard k; on_shard i (λ s, ((), Shard.Register k c s))) ;; mret (RegInsert c rest)
  | UnMark c =>
      first ← on_client c MarkUnregistered; mret (if first : bool then UnClose c else UnDone)
  | UnClose c => on_client c Client.Close ;; mret (UnRemove c (Topics c))
  | UnRemove c [] => mret (UnRelease c)
  | UnRemove c (k :: rest) =>
      (i ← getShard k; on_shard i (λ s, ((), Shard.Unregister k (ID c) s))) ;; mret (UnRemove c rest)
  | UnRelease c => modify (upd_quotas (Release (TenantID c) (UserID c))) ;; mret UnDone
  | InvShard t u [] n => mret (InvDone n)
  | InvShard t u (i :: idxs) n =>
      matched ← on_shard i (Shard.InvalidateUser t u); mret (InvMark t u matched idxs n)
  | InvMark t u [] idxs n => mret (InvShard t u idxs n)
  | InvMark t u (c :: cs) idxs n =>
      first ← on_client c MarkUnregistered;
      mret (if first : bool then InvClose t u c cs idxs n else InvMark t u cs idxs n)
  | InvClose t u c cs idxs n => on_client c Client.Close ;; mret (InvRelease t u c cs idxs n)
  | InvRelease t u c cs idxs n =>
      modify (upd_quotas (Release (TenantID c) (UserID c))) ;; mret (InvMark t u cs idxs (n + 1))
  | FanLookup k frame =>
      i ← getShard k; cs ← read_shard i (GetRecipients k); mret (FanSend (Some k) cs [] frame)
  | FanShard [] frame => mret CallDone
  | FanShard (i :: idxs) frame => cs ← read_shard i GetAllClients; mret (FanSend None cs idxs frame)
  | FanSend k [] idxs frame => mret (FanShard idxs frame)
  | FanSend k (c :: cs) idxs frame => enqueue c frame ;; mret (FanSend k cs idxs frame)
  | CloseFlag =>
      isClosed ← gets hub_closed;
      if isClosed : bool then mret CallDone
      else
        modify (upd_closed true) ;;
        modify (λ h, upd_heartbeat None (cancel_heartbeat h) (nextCtx h) h) ;;
        idxs ← gets shard_positions; mret (CloseShard idxs)
  | CloseShard [] => mret CallDone
  | CloseShard (i :: idxs) => cs ← read_shard i GetAllClients; mret (CloseSend cs idxs)
  | CloseSend [] idxs => mret (CloseShard idxs)
  | CloseSend (c :: cs) idxs => on_client c Client.Close ;; mret (CloseSend cs idxs)
  | RegDone _ _ | UnDone | InvDone _ | CallDone => mret q
  end.

(** A call that has returned. *)
Definition returned (q : hpc) : bool :=
  match q with RegDone _ _ | UnDone | InvDone _ | CallDone => true | _ => false end.

(** ** Views of a call *)

(** The client of a registration; one in progress; one before [Acquire]. *)
Definition regs (q : hpc) : list Client :=
  match q with RegCheck c | RegAcquire c | RegInsert c _ | RegDone _ c => [c] | _ => [] end.
Definition active (q : hpc) : list Client :=
  match q with RegCheck c | RegAcquire c | RegInsert c _ => [c] | _ => [] end.
Definition starting (q : hpc) : list Client :=
  match q with RegCheck c | RegAcquire c => [c] | _ => [] end.
(** The client whose [Acquire] succeeded. *)
Definition admitted (q : hpc) : list Client :=
  match q with RegInsert c _ | RegDone (Ok _) c => [c] | _ => [] end.
(** The client a call has marked and whose quota it must still release. *)
Definition duty (q : hpc) : list Client :=
  match q with
  | UnClose c | UnRemove c _ | UnRelease c | InvClose _ _ c _ _ _ | InvRelease _ _ c _ _ _ => [c]
  | _ => []
  end.
Definition inserts (q : hpc) : option (Client * list gostring) :=
  match q with RegInsert c rest => Some (c, rest) | _ => None end.
(** An [Unregister] that marked its client: the topics still to remove. *)
Definition removes (q : hpc) : option (Client * list gostring) :=
  match q with
  | UnClose c => Some (c, Topics c) | UnRemove c rest => Some (c, rest) | UnRelease c => Some (c, [])
  | _ => None
  end.
(** A revocation: the shards still to visit and the clients still to mark. *)
Definition revokes (q : hpc) : option (gostring * gostring * list nat * list Client) :=
  match q with
  | InvShard t u idxs _ => Some (t, u, idxs, [])
  | InvMark t u cs idxs _ | InvClose t u _ cs idxs _ | InvRelease t u _ cs idxs _ => Some (t, u, idxs, cs)
  | _ => None
  end.
(** The clients a call is about to touch and the shards it will read. *)
Definition touches (q : hpc) : list Client :=
  match q with
  | UnMark c => [c]
  | InvMark _ _ cs _ _ | InvClose _ _ _ cs _ _ | InvRelease _ _ _ cs _ _ => cs
  | FanSend _ cs _ _ | CloseSend cs _ => cs
  | _ => []
  end.
Definition walks (q : hpc) : list nat :=
  match q with
  | InvShard _ _ idxs _ | InvMark _ _ _ idxs _ | InvClose _ _ _ _ idxs _ | InvRelease _ _ _ _ idxs _ => idxs
  | FanShard idxs _ | FanSend _ _ idxs _ | CloseShard idxs | CloseSend _ idxs => idxs
  | _ => []
  end.

Definition flagged (h : Hub) (c : Client) : bool :=
  match store h !! ptr c with Some s => unregistered s | None => false end.

(** ** Interleaving *)
Inductive cstep (excl : bool) : list hpc * Hub → list hpc * Hub → Prop :=
| c_connect ts h c s :
    store h !! ptr c = None → ID c ∉ ID <$> (ts ≫= regs) →
    (∃ n cb, (c, s) = NewClient (ptr c) (ID c) (UserID c) (TenantID c) (Topics c) n (SlowPolicy c) cb) →
    (excl = true → ∀ q t u idxs cs, q ∈ ts → revokes q = Some (t, u, idxs, cs) → ¬ user_match t u c) →
    cstep excl (ts, h) (ts ++ [RegCheck c], upd_store (<[ptr c := s]>) h)
| c_unregister ts h c :
    RegDone (Ok ()) c ∈ ts → cstep excl (ts, h) (ts ++ [UnMark c], h)
| c_invalidate ts h t u :
    (excl = true → ∀ q c, q ∈ ts → c ∈ active q → ¬ user_match t u c) →
    cstep excl (ts, h) (ts ++ [InvShard t u (shard_positions h) 0], h)
| c_broadcast ts h k frame : cstep excl (ts, h) (ts ++ [FanLookup k frame], h)
| c_heartbeat ts h frame : cstep excl (ts, h) (ts ++ [FanShard (shard_positions h) frame], h)
| c_close ts h : cstep excl (ts, h) (ts ++ [CloseFlag], h)
| c_run ts h j q q' h' :
    ts !! j = Some q → hub_atomic q h = Some (q', h') → cstep excl (ts, h) (<[j := q']> ts, h').

(** ** Invariant *)

(** [P k c]: a topic map lists [c] under [k]; [Q i c]: shard [i] lists [c];
    [O]: the clients that hold a quota. *)
Section inv.
Context (ts : list hpc) (h : Hub) (P : gostring → Client → Prop) (Q : nat → Client → Prop) (O : list Client).

Abbreviation shard k := (shard_of (numShards h) k).

Record core : Prop := {
  k_rel : hub_rel P Q h;
  k_topic k c : P k c → c ∈ ts ≫= admitted;
  k_listed i c : Q i c → c ∈ ts ≫= admitted;
  k_ids : NoDup (ID <$> (ts ≫= regs));
  k_ptrs : NoDup (ptr <$> (ts ≫= regs));
  k_store : map_Forall (λ _ s, client_wf s) (store h);
  k_known c : c ∈ ts ≫= regs → is_Some (store h !! ptr c);
  k_starting c : c ∈ ts ≫= starting → flagged h c = false;
  k_duties : NoDup (ts ≫= duty);
  k_duty c : c ∈ ts ≫= duty → c ∈ ts ≫= admitted ∧ flagged h c = true;
  k_touches c : c ∈ ts ≫= touches → c ∈ ts ≫= admitted;
  k_walks i : i ∈ ts ≫= walks → (i < length (shards h))%nat;
  k_unmark c : UnMark c ∈ ts → RegDone (Ok ()) c ∈ ts;
  k_match q t u idxs cs c : q ∈ ts → revokes q = Some (t, u, idxs, cs) → c ∈ cs → user_match t u c;
  k_hold : NoDup O;
  k_holds c : c ∈ O ↔ c ∈ ts ≫= admitted ∧ (flagged h c = false ∨ c ∈ ts ≫= duty);
  k_quota : quota_inv (session_of <$> O) (quotas h);
  k_limits : qlimits (quotas h) = limits h;
}.

(** An [Unregister] in progress will remove [c] from topic [k]. *)
Definition will_remove (k : gostring) (c : Client) : Prop :=
  ∃ q rest, q ∈ ts ∧ removes q = Some (c, rest) ∧ k ∈ rest.
(** A revocation in progress will visit shard [i] for [c]. *)
Definition will_visit (i : nat) (c : Client) : Prop :=
  ∃ q t u idxs cs, q ∈ ts ∧ revokes q = Some (t, u, idxs, cs) ∧ user_match t u c ∧ i ∈ idxs.
(** A revocation in progress will mark [c]. *)
Definition will_mark (c : Client) : Prop :=
  ∃ q t u idxs cs, q ∈ ts ∧ revokes q = Some (t, u, idxs, cs) ∧ c ∈ cs.
Definition will_insert (k : gostring) (c : Client) : Prop :=
  ∃ q rest, q ∈ ts ∧ inserts q = Some (c, rest) ∧ k ∈ rest.

Record exact : Prop := {
  e_topic k c : P k c → k ∈ Topics c ∧ (Q (shard k) c ∨ will_remove k c);
  e_listed i c : Q i c → ∃ k, k ∈ Topics c ∧ shard k = i;
  e_flagP k c : P k c → flagged h c = true → will_remove k c ∨ will_visit (shard k) c;
  e_flagQ i c : Q i c → flagged h c = true → (∃ k, will_remove k c ∧ shard k = i) ∨ will_visit i c;
  e_clean q t u idxs cs i c : q ∈ ts → revokes q = Some (t, u, idxs, cs) → user_match t u c → Q i c → i ∈ idxs;
  e_cover q c rest k : q ∈ ts → removes q = Some (c, rest) → P k c → k ∈ rest;
  e_insert q c rest : q ∈ ts → inserts q = Some (c, rest) → flagged h c = false ∧ rest ⊆ Topics c;
  e_complete c k : c ∈ ts ≫= admitted → flagged h c = false → k ∈ Topics c →
    will_insert k c ∨ (P k c ∧ Q (shard k) c) ∨ will_mark c;
  e_excl q q' t u idxs cs c : q ∈ ts → revokes q = Some (t, u, idxs, cs) → q' ∈ ts → c ∈ active q' → ¬ user_match t u c;
}.
End inv.

Definition conc_inv (excl : bool) (ts : list hpc) (h : Hub) : Prop :=
  ∃ P Q O, core ts h P Q O ∧ (excl = true → exact ts h P Q).

(** *** Positive views survive when the replaced call hands them on *)
Section keep.
Context (ts : list hpc) (j : nat) (q q' : hpc) (Hj : ts !! j = Some q).

Lemma keep_remove k c :
  will_remove ts k c →
  (∀ rest, removes q = Some (c, rest) → k ∈ rest → ∃ rest', removes q' = Some (c, rest') ∧ k ∈ rest') →
  will_remove (<[j := q']> ts) k c.
Proof.
  intros (q0 & rest & Hq & Hr & Hk) Hmove.
  destruct (elem_update_keep ts j q q' q0 Hj Hq) as [->|Hin].
  - destruct (Hmove rest Hr Hk) as (rest' & ? & ?). exists q', rest'. split; [by eapply elem_update_new|done].
  - by exists q0, rest.
Qed.

Lemma keep_insert k c :
  will_insert ts k c →
  (∀ rest, inserts q = Some (c, rest) → k ∈ rest → ∃ rest', inserts q' = Some (c, rest') ∧ k ∈ rest') →
  will_insert (<[j := q']> ts) k c.
Proof.
  intros (q0 & rest & Hq & Hr & Hk) Hmove.
  destruct (elem_update_keep ts j q q' q0 Hj Hq) as [->|Hin].
  - destruct (Hmove rest Hr Hk) as (rest' & ? & ?). exists q', rest'. split; [by eapply elem_update_new|done].
  - by exists q0, rest.
Qed.

Lemma keep_visit i c :
  will_visit ts i c →
  (∀ t u idxs cs, revokes q = Some (t, u, idxs, cs) → i ∈ idxs →
     ∃ idxs' cs', revokes q' = Some (t, u, idxs', cs') ∧ i ∈ idxs') →
  will_visit (<[j := q']> ts) i c.
Proof.
  intros (q0 & t & u & idxs & cs & Hq & Hr & Hm & Hi) Hmove.
  destruct (elem_update_keep ts j q q' q0 Hj Hq) as [->|Hin].
  - destruct (Hmove t u idxs cs Hr Hi) as (idxs' & cs' & ? & ?). exists q', t, u, idxs', cs'.
    split; [by eapply elem_update_new|done].
  - by exists q0, t, u, idxs, cs.
Qed.

Lemma keep_mark c :
  will_mark ts c →
  (∀ t u idxs cs, revokes q = Some (t, u, idxs, cs) → c ∈ cs →
     ∃ t' u' idxs' cs', revokes q' = Some (t', u', idxs', cs') ∧ c ∈ cs') →
  will_mark (<[j := q']> ts) c.
Proof.
  intros (q0 & t & u & idxs & cs & Hq & Hr & Hc) Hmove.
  destruct (elem_update_keep ts j q q' q0 Hj Hq) as [->|Hin].
  - destruct (Hmove t u idxs cs Hr Hc) as (t' & u' & idxs' & cs' & ? & ?). exists q', t', u', idxs', cs'.
    split; [by eapply elem_update_new|done].
  - by exists q0, t, u, idxs, cs.
Qed.
End keep.

(** What a step that only moves a call may do to the hub. *)
Record same_registry (h h' : Hub) : Prop := {
  sg_num : numShards h' = numShards h;
  sg_shards : shards h' = shards h;
  sg_limits : limits h' = limits h;
  sg_wf : map_Forall (λ _ s, client_wf s) (store h) → map_Forall (λ _ s, client_wf s) (store h');
  sg_dom p : is_Some (store h !! p) → is_Some (store h' !! p);
  sg_flag c : flagged h' c = flagged h c;
}.

Lemma same_registry_refl h : same_registry h h.
Proof. by split. Qed.

(** ... and to the views of the call: what it no longer promises to do is done. *)
Record moves (ts : list hpc) (h : Hub) (P : gostring → Client → Prop) (Q : nat → Client → Prop) (q q' : hpc) : Prop := {
  mv_regs : regs q' = regs q;
  mv_admitted : admitted q' = admitted q;
  mv_starting : starting q' ⊆ starting q;
  mv_active : active q' ⊆ active q;
  mv_touches c : c ∈ touches q' → c ∈ ts ≫= admitted;
  mv_walks i : i ∈ walks q' → (i < length (shards h))%nat;
  mv_unmark c : q' ≠ UnMark c;
  mv_done r c : q = RegDone r c → q' = q;
  mv_removes c rest' : removes q' = Some (c, rest') → ∃ rest, removes q = Some (c, rest) ∧ ∀ k, P k c → k ∈ rest → k ∈ rest';
  mv_removes' c rest k : removes q = Some (c, rest) → k ∈ rest →
    (∃ rest', removes q' = Some (c, rest') ∧ k ∈ rest') ∨ (¬ P k c ∧ ¬ Q (shard_of (numShards h) k) c);
  mv_inserts c rest' : inserts q' = Some (c, rest') → ∃ rest, inserts q = Some (c, rest) ∧ rest' ⊆ rest;
  mv_inserts' c rest k : inserts q = Some (c, rest) → k ∈ rest →
    (∃ rest', inserts q' = Some (c, rest') ∧ k ∈ rest') ∨ (P k c ∧ Q (shard_of (numShards h) k) c);
  mv_revokes t u idxs' cs' : revokes q' = Some (t, u, idxs', cs') →
    (∃ idxs cs, revokes q = Some (t, u, idxs, cs) ∧ ∀ i c, user_match t u c → Q i c → i ∈ idxs → i ∈ idxs')
    ∧ ∀ c, c ∈ cs' → user_match t u c;
  mv_revokes' t u idxs cs : revokes q = Some (t, u, idxs, cs) →
    (idxs = [] ∧ cs = []) ∨ ∃ idxs' cs', revokes q' = Some (t, u, idxs', cs')
      ∧ (∀ i, i ∈ idxs → i ∈ idxs' ∨ ∀ c, user_match t u c → ¬ Q i c)
      ∧ ∀ c, c ∈ cs → flagged h c = false → c ∈ cs';
}.

Lemma moved_core ts h P Q O j q q' h' O' :
  ts !! j = Some q → same_registry h h' → moves ts h P Q q q' → core ts h P Q O →
  NoDup (<[j := q']> ts ≫= duty) → (∀ c, c ∈ <[j := q']> ts ≫= duty → c ∈ ts ≫= duty) →
  NoDup O' → (∀ c, c ∈ O' ↔ c ∈ ts ≫= admitted ∧ (flagged h c = false ∨ c ∈ <[j := q']> ts ≫= duty)) →
  quota_inv (session_of <$> O') (quotas h') → qlimits (quotas h') = limits h →
  core (<[j := q']> ts) h' P Q O'.
Proof.
  intros Hj [G1 G2 G4 G5 G6 G7] Hm [] D1 D2 D3 D4 D5 D6.
  assert (∀ q0 : hpc, q0 ∈ <[j := q']> ts → q0 = q' ∨ q0 ∈ ts) as Hin by (intros; by apply elem_of_insert with j).
  split; rewrite ?(bind_update_eq admitted ts j q q' Hj (mv_admitted _ _ _ _ _ _ Hm)),
    ?(bind_update_eq regs ts j q q' Hj (mv_regs _ _ _ _ _ _ Hm)), ?G4; try done.
  - by eapply hub_rel_same.
  - auto.
  - auto.
  - intros c Hc. rewrite G7. apply k_starting0. apply (elem_bind_update _ _ _ _ _ _ Hj) in Hc as [Hc|?]; [|done].
    apply list_elem_of_bind. exists q. split; [by apply (mv_starting _ _ _ _ _ _ Hm)|by eapply list_elem_of_lookup_2].
  - intros c Hc. rewrite G7. by apply k_duty0, D2.
  - intros c [Hc|Hc]%(elem_bind_update _ _ _ _ _ _ Hj); [by apply (mv_touches _ _ _ _ _ _ Hm)|auto].
  - intros i. rewrite G2. intros [Hc|Hc]%(elem_bind_update _ _ _ _ _ _ Hj); [by apply (mv_walks _ _ _ _ _ _ Hm)|auto].
  - intros c [Hc|Hc]%Hin; [by destruct (mv_unmark _ _ _ _ _ _ Hm c)|].
    apply k_unmark0 in Hc. destruct (elem_update_keep ts j q q' _ Hj Hc) as [E|?]; [|done].
    rewrite E, <- (mv_done _ _ _ _ _ _ Hm (Ok ()) c) by done. by eapply elem_update_new.
  - intros q0 t u idxs cs c [->|Hq]%Hin Hr Hc; [|by eapply k_match0].
    by apply (mv_revokes _ _ _ _ _ _ Hm _ _ _ _ Hr).
  - intros c. rewrite G7. apply D4.
Qed.

Lemma moved_exact ts h P Q j q q' h' :
  ts !! j = Some q → same_registry h h' → moves ts h P Q q q' → exact ts h P Q → exact (<[j := q']> ts) h' P Q.
Proof.
  intros Hj [G1 G2 G4 G5 G6 G7] Hm []. assert (q ∈ ts) as Hq by by eapply list_elem_of_lookup_2.
  assert (∀ q0 : hpc, q0 ∈ <[j := q']> ts → q0 = q' ∨ q0 ∈ ts) as Hin by (intros; by apply elem_of_insert with j).
  assert (∀ k c, will_remove ts k c → P k c ∨ Q (shard_of (numShards h) k) c → will_remove (<[j := q']> ts) k c) as Kr.
  { intros k c Hw Hpq. apply (keep_remove ts j q q' Hj k c Hw). intros rest Hr Hk.
    destruct (mv_removes' _ _ _ _ _ _ Hm _ _ _ Hr Hk) as [?|[? ?]]; [done|]. by destruct Hpq. }
  assert (∀ i c, will_visit ts i c → Q i c → will_visit (<[j := q']> ts) i c) as Kv.
  { intros i c (q0 & t & u & idxs & cs & Hq0 & Hr & Hu & Hi) HQ.
    destruct (elem_update_keep ts j q q' q0 Hj Hq0) as [->|?]; [|by exists q0, t, u, idxs, cs].
    destruct (mv_revokes' _ _ _ _ _ _ Hm _ _ _ _ Hr) as [[-> _]|(idxs' & cs' & ? & Hi' & _)]; [by apply elem_of_nil in Hi|].
    destruct (Hi' i Hi) as [?|Hn]; [|by destruct (Hn c)].
    exists q', t, u, idxs', cs'. split; [by eapply elem_update_new|done]. }
  split; rewrite ?(bind_update_eq admitted ts j q q' Hj (mv_admitted _ _ _ _ _ _ Hm)), ?G1.
  - intros k c HP. destruct (e_topic0 k c HP) as [? [?|?]]; auto.
  - auto.
  - intros k c HP. rewrite G7. intros Hf. destruct (e_topic0 k c HP) as [_ [HQ|?]]; [|auto].
    destruct (e_flagP0 k c HP Hf); auto.
  - intros i c HQ. rewrite G7. intros Hf. destruct (e_flagQ0 i c HQ Hf) as [(k & ? & <-)|?]; [left; exists k; auto|auto].
  - intros q0 t u idxs' cs' i c [->|Hq0]%Hin Hr Hu HQ; [|by eapply e_clean0].
    destruct (mv_revokes _ _ _ _ _ _ Hm _ _ _ _ Hr) as [(idxs & cs & Hr0 & Hi) _]. eapply Hi; [done..|]. by eapply e_clean0.
  - intros q0 c rest k [->|Hq0]%Hin Hr HP; [|by eauto].
    destruct (mv_removes _ _ _ _ _ _ Hm _ _ Hr) as (rest0 & Hr0 & Hk). eauto.
  - intros q0 c rest [->|Hq0]%Hin Hr; rewrite G7; [|by eauto].
    destruct (mv_inserts _ _ _ _ _ _ Hm _ _ Hr) as (rest0 & Hr0 & Hsub). destruct (e_insert0 q c rest0 Hq Hr0). split; [done|]. by etrans.
  - intros c k Hc Hf Hk. rewrite G7 in Hf. destruct (e_complete0 c k Hc Hf Hk) as [Hi|[?|Hw]]; [|by right; left|right; right].
    + destruct Hi as (q0 & rest & Hq0 & Hr & Hk0).
      destruct (elem_update_keep ts j q q' q0 Hj Hq0) as [->|?]; [|left; by exists q0, rest].
      destruct (mv_inserts' _ _ _ _ _ _ Hm _ _ _ Hr Hk0) as [(rest' & ? & ?)|?]; [left|by right; left].
      exists q', rest'. split; [by eapply elem_update_new|done].
    + apply (keep_mark ts j q q' Hj c Hw). intros t u idxs cs Hr Hcs.
      destruct (mv_revokes' _ _ _ _ _ _ Hm _ _ _ _ Hr) as [[_ ->]|(idxs' & cs' & ? & _ & Hcs')]; [by apply elem_of_nil in Hcs|eauto 10].
  - intros q0 q1 t u idxs cs c H0 Hr H1 Hc.
    assert (∃ q2, q2 ∈ ts ∧ c ∈ active q2) as (q2 & H2 & Hc2).
    { apply Hin in H1 as [->|?]; [|eauto]. exists q. split; [done|]. by apply (mv_active _ _ _ _ _ _ Hm). }
    apply Hin in H0 as [->|H0]; [|exact (e_excl0 q0 q2 t u idxs cs c H0 Hr H2 Hc2)].
    destruct (mv_revokes _ _ _ _ _ _ Hm _ _ _ _ Hr) as [(idxs0 & cs0 & Hr0 & _) _]. exact (e_excl0 q q2 t u idxs0 cs0 c Hq Hr0 H2 Hc2).
Qed.

Lemma moved_inv excl ts h j q q' h' :
  ts !! j = Some q → same_registry h h' → quotas h' = quotas h → (∀ P Q O, core ts h P Q O → moves ts h P Q q q') → duty q' = duty q →
  conc_inv excl ts h → conc_inv excl (<[j := q']> ts) h'.
Proof.
  intros Hj Hs Hq Hm Hd (P & Q & O & Hc & He). exists P, Q, O. specialize (Hm P Q O Hc). split; [|intros Hx; by eapply moved_exact; [..|apply He]].
  eapply moved_core; rewrite ?(bind_update_eq duty ts j q q' Hj Hd), ?Hq; [done..|apply Hc|done|apply Hc|apply Hc|apply Hc|apply Hc].
Qed.

(** *** Giving back a quota *)
Lemma released_inv excl ts h j q q' c :
  ts !! j = Some q → duty q = [c] → duty q' = [] → (∀ P Q O, core ts h P Q O → moves ts h P Q q q') →
  conc_inv excl ts h → conc_inv excl (<[j := q']> ts) (upd_quotas (Release (TenantID c) (UserID c)) h).
Proof.
  intros Hj Hd Hd' Hm (P & Q & O & Hc & He). specialize (Hm P Q O Hc).
  assert (same_registry h (upd_quotas (Release (TenantID c) (UserID c)) h)) as Hs by by split.
  assert (ts ≫= duty ≡ₚ c :: (<[j := q']> ts ≫= duty)) as HD.
  { pose proof (bind_update_perm duty ts j q q' Hj) as E. rewrite Hd, Hd', app_nil_r in E. by rewrite <- E, Permutation_app_comm. }
  pose proof (k_duties _ _ _ _ _ Hc) as Hnd. rewrite HD in Hnd. apply NoDup_cons in Hnd as [Hn Hnd].
  destruct (k_duty _ _ _ _ _ Hc c) as [Ha Hf]; [rewrite HD; by left|].
  assert (c ∈ O) as HO by (apply (k_holds _ _ _ _ _ Hc); split; [done|right; rewrite HD; by left]).
  apply elem_of_Permutation in HO as [O' HO].
  pose proof (k_hold _ _ _ _ _ Hc) as HndO. rewrite HO in HndO. apply NoDup_cons in HndO as [HnO HndO].
  exists P, Q, O'. split; [|intros Hx; eapply moved_exact; [done..|by apply He]].
  eapply moved_core; [done|done|done|exact Hc|done| |done| | |].
  - intros c0 Hc0. rewrite HD. by right.
  - intros c0. pose proof (k_holds _ _ _ _ _ Hc c0) as Hk. rewrite HD, HO, !elem_of_cons in Hk.
    destruct (decide (c0 = c)) as [->|Hne]; [|tauto]. split; [done|]. intros [_ [?|?]]; congruence.
  - apply Release_spec. eapply quota_inv_perm; [|apply (k_quota _ _ _ _ _ Hc)]. by rewrite HO.
  - apply (k_limits _ _ _ _ _ Hc).
Qed.

(** *** Clients are told apart by their identifier and their pointer *)
Lemma bind_NoDup_uniq {A B} (f : A → list B) ts q1 q2 x :
  NoDup (ts ≫= f) → q1 ∈ ts → q2 ∈ ts → x ∈ f q1 → x ∈ f q2 → q1 = q2.
Proof.
  induction ts as [|y ts IH]; simpl; [by intros _ ?%elem_of_nil|].
  intros (Hn1 & Hn2 & Hn3)%NoDup_app H1 H2 Hx1 Hx2.
  apply elem_of_cons in H1 as [->|H1]; apply elem_of_cons in H2 as [->|H2]; auto.
  - exfalso. apply (Hn2 x Hx1). apply list_elem_of_bind. eauto.
  - exfalso. apply (Hn2 x Hx2). apply list_elem_of_bind. eauto.
Qed.

Lemma view_known (f : hpc → list Client) (ts : list hpc) c :
  (∀ q, f q ⊆ regs q) → c ∈ ts ≫= f → c ∈ ts ≫= regs.
Proof. intros Hf (q & Hin & Hq)%list_elem_of_bind. apply list_elem_of_bind. exists q. split; [by apply Hf|done]. Qed.
Lemma admitted_known (ts : list hpc) c : c ∈ ts ≫= admitted → c ∈ ts ≫= regs.
Proof. apply view_known. intros [| | |[]| | | | | | | | | | | | | | | | |] x; simpl; rewrite ?elem_of_nil; tauto. Qed.
Lemma starting_known (ts : list hpc) c : c ∈ ts ≫= starting → c ∈ ts ≫= regs.
Proof. apply view_known. intros [] x; simpl; rewrite ?elem_of_nil; tauto. Qed.

Section facts.
Context (ts : list hpc) (h : Hub) (P : gostring → Client → Prop) (Q : nat → Client → Prop) (O : list Client).
Context (Hc : core ts h P Q O).

Lemma known_uniq c c' : c ∈ ts ≫= regs → c' ∈ ts ≫= regs → ID c = ID c' → c = c'.
Proof. apply NoDup_fmap_inj_in, Hc. Qed.
Lemma known_ptr c c' : c ∈ ts ≫= regs → c' ∈ ts ≫= regs → ptr c = ptr c' → c = c'.
Proof. apply NoDup_fmap_inj_in, Hc. Qed.

Lemma regs_NoDup : NoDup (ts ≫= regs).
Proof. eapply NoDup_fmap_1, (k_ids _ _ _ _ _ Hc). Qed.

Lemma starting_not_admitted c : c ∈ ts ≫= starting → c ∉ ts ≫= admitted.
Proof.
  intros (q1 & I1 & H1)%list_elem_of_bind (q2 & I2 & H2)%list_elem_of_bind.
  assert (q1 = q2) as ->.
  { eapply (bind_NoDup_uniq regs ts q1 q2 c regs_NoDup); [done..| |].
    - by destruct q1; simpl in *; rewrite ?elem_of_nil in I1.
    - by destruct q2 as [| | |[]| | | | | | | | | | | | | | | | |]; simpl in *; rewrite ?elem_of_nil in I2. }
  by destruct q2; simpl in *; rewrite ?elem_of_nil in I1; rewrite ?elem_of_nil in I2.
Qed.

Lemma inserting_not_done c rest : RegInsert c rest ∈ ts → RegDone (Ok ()) c ∉ ts.
Proof.
  intros H1 H2. discriminate (bind_NoDup_uniq regs ts _ _ c regs_NoDup H1 H2); left.
Qed.

Lemma admitted_store c : c ∈ ts ≫= admitted → ∃ s, store h !! ptr c = Some s ∧ client_wf s ∧ flagged h c = unregistered s.
Proof.
  intros Ha. destruct (k_known _ _ _ _ _ Hc c) as [s Hs]; [by apply admitted_known|]. exists s. split; [done|].
  split; [by eapply (k_store _ _ _ _ _ Hc)|]. unfold flagged. by rewrite Hs.
Qed.
End facts.

(** *** Marking a client *)
Definition mark (c : Client) (s : ClientState) (h : Hub) : Hub := upd_store (<[ptr c := set_unregistered true s]>) h.

Lemma mark_flag c s h c' : flagged (mark c s h) c' = if decide (ptr c' = ptr c) then true else flagged h c'.
Proof.
  unfold flagged, mark. simpl. case_decide as E.
  - by rewrite E, lookup_insert_eq.
  - by rewrite lookup_insert_ne.
Qed.

(** What the call that marks looks like before and after. *)
Record marks (c : Client) (q q' : hpc) : Prop := {
  ma_regs : regs q = [] ∧ regs q' = [];
  ma_admitted : admitted q = [] ∧ admitted q' = [];
  ma_starting : starting q' = [];
  ma_active : active q' = [];
  ma_duty : duty q = [] ∧ duty q' = [c];
  ma_touches : c ∈ touches q ∧ touches q' ⊆ touches q;
  ma_walks : walks q' = walks q;
  ma_unmark c' : q' ≠ UnMark c';
  ma_removes : removes q = None;
  ma_inserts : inserts q = None ∧ inserts q' = None;
  ma_revokes t u idxs cs : revokes q' = Some (t, u, idxs, cs) → revokes q = Some (t, u, idxs, c :: cs);
  ma_revokes' t u idxs cs0 : revokes q = Some (t, u, idxs, cs0) → ∃ cs, cs0 = c :: cs ∧ revokes q' = Some (t, u, idxs, cs);
}.

Lemma marked_core ts h P Q O j q q' c s :
  ts !! j = Some q → core ts h P Q O → store h !! ptr c = Some s → unregistered s = false → marks c q q' →
  core (<[j := q']> ts) (mark c s h) P Q O.
Proof.
  intros Hj Hc Hs Hu [[R R'] [A A'] S' _ [D D'] [T T'] W U _ _ V _]. pose proof Hc as [].
  assert (q ∈ ts) as Hq by by eapply list_elem_of_lookup_2.
  assert (c ∈ ts ≫= admitted) as Ha by (apply k_touches0, list_elem_of_bind; eauto).
  pose proof (admitted_known ts c Ha) as Hk.
  assert (flagged h c = false) as Hf by (unfold flagged; by rewrite Hs).
  assert (∀ q0 : hpc, q0 ∈ <[j := q']> ts → q0 = q' ∨ q0 ∈ ts) as Hin by (intros; by apply elem_of_insert with j).
  assert (<[j := q']> ts ≫= duty ≡ₚ c :: (ts ≫= duty)) as HD.
  { pose proof (bind_update_perm duty ts j q q' Hj) as E. rewrite D, D', app_nil_r in E. by rewrite E, Permutation_app_comm. }
  assert (∀ c', c' ∈ ts ≫= regs → flagged (mark c s h) c' = true ↔ c' = c ∨ flagged h c' = true) as Hflag.
  { intros c' Hk'. rewrite mark_flag. case_decide as E; [|naive_solver]. apply (known_ptr ts h P Q O Hc) in E; naive_solver. }
  split; rewrite ?(bind_update_eq admitted ts j q q' Hj) by congruence;
    rewrite ?(bind_update_eq regs ts j q q' Hj) by congruence; try done.
  - by eapply hub_rel_same, k_rel0.
  - simpl. apply map_Forall_insert_2; [|done]. apply set_unregistered_wf. by apply (k_store0 _ _ Hs).
  - intros c' Hc'. simpl. destruct (decide (ptr c' = ptr c)) as [->|?];
      [rewrite lookup_insert_eq|rewrite lookup_insert_ne by done]; eauto.
  - intros c' Hc'. apply (elem_bind_update _ _ _ _ _ _ Hj) in Hc' as [Hc'|Hc']; [by rewrite S', elem_of_nil in Hc'|].
    rewrite mark_flag, decide_False; [auto|]. intros E. apply (starting_not_admitted ts h P Q O Hc) in Hc' as Hn.
    apply Hn. apply (known_ptr ts h P Q O Hc) in E as ->; [done|by apply starting_known|done].
  - rewrite HD. apply NoDup_cons. split; [|done]. intros [_ Hn]%k_duty0. congruence.
  - intros c'. rewrite HD, elem_of_cons. intros [->|[Ha' Hf']%k_duty0].
    + split; [done|]. apply Hflag; auto.
    + split; [done|]. apply Hflag; [by apply admitted_known|auto].
  - intros c' [Hc'|Hc']%(elem_bind_update _ _ _ _ _ _ Hj); [|auto]. apply k_touches0, list_elem_of_bind. exists q. auto.
  - intros i [Hc'|Hc']%(elem_bind_update _ _ _ _ _ _ Hj); [|by apply k_walks0]. apply k_walks0, list_elem_of_bind. exists q.
    by rewrite <- W.
  - intros c' [Hc'|Hc']%Hin; [by destruct (U c')|]. apply k_unmark0 in Hc'.
    destruct (elem_update_keep ts j q q' _ Hj Hc') as [E|?]; [|done]. by rewrite <- E in R.
  - intros q0 t u idxs cs c' [->|Hq0]%Hin Hr Hc'; [|by eapply k_match0].
    eapply k_match0; [exact Hq|by apply V|by right].
  - intros c'. rewrite k_holds0, HD, elem_of_cons. split; intros [Ha' Hor]; (split; [done|]).
    + destruct (decide (c' = c)) as [->|Hne]; [auto|]. destruct Hor as [Hor|?]; [left|auto].
      rewrite mark_flag, decide_False; [done|]. intros E. apply Hne, (known_ptr ts h P Q O Hc); auto using admitted_known.
    + rewrite mark_flag in Hor. case_decide as E; [|naive_solver].
      apply (known_ptr ts h P Q O Hc) in E as ->; auto using admitted_known.
Qed.

Lemma marked_exact ts h P Q O j q q' c s :
  ts !! j = Some q → core ts h P Q O → store h !! ptr c = Some s → c ∈ ts ≫= admitted → marks c q q' → exact ts h P Q →
  (∀ k, P k c → will_remove (<[j := q']> ts) k c ∨ will_visit (<[j := q']> ts) (shard_of (numShards h) k) c) →
  (∀ i, Q i c → (∃ k, will_remove (<[j := q']> ts) k c ∧ shard_of (numShards h) k = i) ∨ will_visit (<[j := q']> ts) i c) →
  (∀ q0 rest, q0 ∈ ts → inserts q0 = Some (c, rest) → False) →
  (∀ c' rest k, removes q' = Some (c', rest) → P k c' → k ∈ rest) →
  exact (<[j := q']> ts) (mark c s h) P Q.
Proof.
  intros Hj Hc Hs Ha Hm [] N1 N2 N3 N4. destruct Hm as [_ [A A'] _ Hact _ _ _ _ Hrm [Hi Hi'] V V'].
  assert (q ∈ ts) as Hq by by eapply list_elem_of_lookup_2.
  assert (∀ q0 : hpc, q0 ∈ <[j := q']> ts → q0 = q' ∨ q0 ∈ ts) as Hin by (intros; by apply elem_of_insert with j).
  assert (∀ c', c' ∈ ts ≫= admitted → flagged (mark c s h) c' = true → c' = c ∨ flagged h c' = true) as Hflag.
  { intros c' Ha'. rewrite mark_flag. case_decide as E; [|by right]. left.
    apply (known_ptr ts h P Q O Hc) in E; auto using admitted_known. }
  assert (∀ k c', will_remove ts k c' → will_remove (<[j := q']> ts) k c') as Kr.
  { intros k c' Hw. apply (keep_remove ts j q q' Hj k c' Hw). by rewrite Hrm. }
  assert (∀ i c', will_visit ts i c' → will_visit (<[j := q']> ts) i c') as Kv.
  { intros i c' Hw. apply (keep_visit ts j q q' Hj i c' Hw). intros t u idxs cs (cs' & -> & Hr)%V' ?. eauto. }
  split; simpl; rewrite ?(bind_update_eq admitted ts j q q' Hj) by congruence.
  - intros k c' HP. destruct (e_topic0 k c' HP) as [? [?|?]]; auto.
  - auto.
  - intros k c' HP Hf. apply Hflag in Hf as [->|Hf]; [auto| |by apply (k_topic _ _ _ _ _ Hc) in HP].
    destruct (e_flagP0 k c' HP Hf); auto.
  - intros i c' HQ Hf. apply Hflag in Hf as [->|Hf]; [auto| |by apply (k_listed _ _ _ _ _ Hc) in HQ].
    destruct (e_flagQ0 i c' HQ Hf) as [(k & ? & ?)|?]; eauto.
  - intros q0 t u idxs cs i c' [->|Hq0]%Hin Hr Hu HQ; [|by eapply e_clean0].
    apply V in Hr. by eapply e_clean0.
  - intros q0 c' rest k [->|Hq0]%Hin; by eauto.
  - intros q0 c' rest [->|Hq0]%Hin Hr; [congruence|]. destruct (e_insert0 q0 c' rest Hq0 Hr). split; [|done]. rewrite mark_flag. case_decide as E; [|done].
    exfalso. apply (N3 q0 rest Hq0). destruct q0; simplify_eq/=. f_equal. f_equal.
    apply (known_ptr ts h P Q O Hc); auto using admitted_known. apply list_elem_of_bind. eexists. split; [|exact Hq0]. left.
  - intros c' k Ha' Hf Hk. rewrite mark_flag in Hf. case_decide as E; [done|].
    destruct (e_complete0 c' k Ha' Hf Hk) as [Hw|[?|Hw]]; [left|by right; left|right; right].
    + apply (keep_insert ts j q q' Hj k c' Hw). by rewrite Hi.
    + apply (keep_mark ts j q q' Hj c' Hw). intros t u idxs cs (cs' & -> & Hr)%V' Hcs.
      apply elem_of_cons in Hcs as [->|?]; [done|eauto 10].
  - intros q0 q1 t u idxs cs c' H0 Hr H1 Hc'.
    assert (q1 ∈ ts) as H1' by (apply Hin in H1 as [->|?]; [by rewrite Hact, elem_of_nil in Hc'|done]).
    apply Hin in H0 as [->|H0]; [|exact (e_excl0 q0 q1 t u idxs cs c' H0 Hr H1' Hc')].
    apply V in Hr. exact (e_excl0 q q1 t u idxs _ c' Hq Hr H1' Hc').
Qed.

Lemma unmark_inv excl ts h j c s :
  ts !! j = Some (UnMark c) → store h !! ptr c = Some s → unregistered s = false →
  conc_inv excl ts h → conc_inv excl (<[j := UnClose c]> ts) (mark c s h).
Proof.
  intros Hj Hs Hu (P & Q & O & Hc & He). assert (UnMark c ∈ ts) as Hq by by eapply list_elem_of_lookup_2.
  assert (marks c (UnMark c) (UnClose c)) as Hm.
  { split; simpl; try done. split; [left|by intros ? ?%elem_of_nil]. }
  pose proof (k_unmark _ _ _ _ _ Hc c Hq) as Hdone.
  assert (c ∈ ts ≫= admitted) as Ha by (apply list_elem_of_bind; eexists; split; [|exact Hdone]; left).
  assert (∀ k, k ∈ Topics c → will_remove (<[j := UnClose c]> ts) k c) as Hw.
  { intros k Hk. exists (UnClose c), (Topics c). split; [by eapply elem_update_new|done]. }
  exists P, Q, O. split; [by eapply marked_core|]. intros Hx. specialize (He Hx).
  eapply marked_exact; [done..| | | |].
  - intros k HP. left. apply Hw. by apply (e_topic _ _ _ _ He).
  - intros i HQ. left. destruct (e_listed _ _ _ _ He i c HQ) as (k & ? & ?). eauto.
  - intros q0 rest Hq0 Hr. destruct q0; simplify_eq/=. by eapply (inserting_not_done ts h P Q O Hc).
  - intros c' rest k [= <- <-] HP. by apply (e_topic _ _ _ _ He).
Qed.

Lemma invmark_inv excl ts h j t u c cs idxs n s :
  ts !! j = Some (InvMark t u (c :: cs) idxs n) → store h !! ptr c = Some s → unregistered s = false →
  conc_inv excl ts h → conc_inv excl (<[j := InvClose t u c cs idxs n]> ts) (mark c s h).
Proof.
  intros Hj Hs Hu (P & Q & O & Hc & He). assert (InvMark t u (c :: cs) idxs n ∈ ts) as Hq by by eapply list_elem_of_lookup_2.
  assert (marks c (InvMark t u (c :: cs) idxs n) (InvClose t u c cs idxs n)) as Hm.
  { split; simpl; try done.
    - split; [left|by intros ? ?; right].
    - by intros ? ? ? ? [= -> -> -> ->].
    - intros ? ? ? ? [= -> -> -> <-]. eauto. }
  assert (c ∈ ts ≫= admitted) as Ha.
  { apply (k_touches _ _ _ _ _ Hc). apply list_elem_of_bind. eexists; split; [|exact Hq]; left. }
  assert (user_match t u c) as Hmatch by (eapply (k_match _ _ _ _ _ Hc); [exact Hq|done|left]).
  exists P, Q, O. split; [by eapply marked_core|]. intros Hx. specialize (He Hx).
  assert (∀ i, Q i c → will_visit (<[j := InvClose t u c cs idxs n]> ts) i c) as Hv.
  { intros i HQ. exists (InvClose t u c cs idxs n), t, u, idxs, cs. split; [by eapply elem_update_new|]. split; [done|].
    split; [done|]. by eapply (e_clean _ _ _ _ He). }
  eapply marked_exact; [done..| | | |].
  - intros k HP. destruct (e_topic _ _ _ _ He k c HP) as [_ [HQ|Hw]]; [right; auto|left].
    eapply (keep_remove ts j _ _ Hj k c Hw). done.
  - intros i HQ. right. auto.
  - intros q0 rest Hq0 Hr. apply (e_excl _ _ _ _ He _ q0 t u idxs (c :: cs) c Hq); [done..| |done].
    destruct q0; simplify_eq/=. left.
  - done.
Qed.

(** *** Rewriting a shard *)
Lemma shards_only_flag h h' c : shards_only h h' → flagged h' c = flagged h c.
Proof. intros (_ & _ & _ & _ & E & _)%shards_only_fields. unfold flagged. by rewrite E. Qed.

Lemma shards_core ts h P Q O h' P' Q' :
  core ts h P Q O → hub_rel P' Q' h' → shards_only h h' →
  (∀ k c, P' k c → c ∈ ts ≫= admitted) → (∀ i c, Q' i c → c ∈ ts ≫= admitted) → core ts h' P' Q' O.
Proof.
  intros [] Hr Hso HP HQ. pose proof (shards_only_fields _ _ Hso) as (E1 & E2 & _ & E3 & E4 & _).
  assert (length (shards h') = length (shards h)) as El by (rewrite (hr_len _ _ _ Hr), (hr_len _ _ _ k_rel0); by rewrite E1).
  split; rewrite ?E2, ?E3, ?E4, ?El; try done.
  - intros c Hc. rewrite (shards_only_flag h h') by done. auto.
  - intros c Hc. rewrite (shards_only_flag h h') by done. auto.
  - intros c. rewrite (shards_only_flag h h') by done. auto.
Qed.

Lemma shard_step_inv excl ts h P Q O h' P' Q' j q q' :
  ts !! j = Some q → core ts h P Q O → hub_rel P' Q' h' → shards_only h h' →
  (∀ k c, P' k c → c ∈ ts ≫= admitted) → (∀ i c, Q' i c → c ∈ ts ≫= admitted) →
  moves ts h' P' Q' q q' → duty q' = duty q → (excl = true → exact ts h' P' Q') → conc_inv excl (<[j := q']> ts) h'.
Proof.
  intros Hj Hc Hr Hso HP HQ Hm Hd He. pose proof (shards_core ts h P Q O h' P' Q' Hc Hr Hso HP HQ) as Hc'. exists P', Q', O. split.
  - eapply moved_core; rewrite ?(bind_update_eq duty ts j q q' Hj Hd);
      [done|apply same_registry_refl|exact Hm|exact Hc'|try done; apply Hc'..].
  - intros Hx. eapply moved_exact; [done|apply same_registry_refl|exact Hm|auto].
Qed.

(** *** Registering under one key *)
Lemma inserted_exact ts h P Q O q c k rest h' :
  core ts h P Q O → exact ts h P Q → q ∈ ts → inserts q = Some (c, k :: rest) → shards_only h h' →
  exact ts h' (λ k' c', P k' c' ∨ (k' = k ∧ c' = c)) (λ i c', Q i c' ∨ (i = shard_of (numShards h) k ∧ c' = c)).
Proof.
  intros Hc [] Hq Hi Hso. pose proof (shards_only_fields _ _ Hso) as (E1 & _).
  destruct (e_insert0 q c _ Hq Hi) as [Hf Hsub].
  assert (k ∈ Topics c) as Hk by (apply Hsub; left).
  assert (c ∈ active q) as Hact by (destruct q; simplify_eq/=; left).
  split; rewrite ?E1; try setoid_rewrite (shards_only_flag h h' _ Hso); try done.
  - intros k' c' [HP|[-> ->]]; [|auto]. destruct (e_topic0 k' c' HP) as [? [?|?]]; auto.
  - intros i c' [HQ|[-> ->]]; [auto|eauto].
  - intros k' c' [HP|[-> ->]] Hf'; [auto|congruence].
  - intros i c' [HQ|[-> ->]] Hf'; [auto|congruence].
  - intros q0 t u idxs cs i c' Hq0 Hr Hu [HQ|[-> ->]]; [by eapply e_clean0|].
    by destruct (e_excl0 q0 q t u idxs cs c Hq0 Hr Hq Hact).
  - intros q0 c' rest' k' Hq0 Hr [HP|[-> ->]]; [by eapply e_cover0|].
    destruct (k_duty _ _ _ _ _ Hc c) as [_ ?]; [|congruence]. apply list_elem_of_bind. exists q0. split; [|done].
    destruct q0; simplify_eq/=; left.
  - intros c' k' Ha Hf' Hk'. destruct (e_complete0 c' k' Ha Hf' Hk') as [?|[[? ?]|?]]; auto.
Qed.

Lemma insert_inv excl ts h j c k rest :
  ts !! j = Some (RegInsert c (k :: rest)) → conc_inv excl ts h →
  wp (i ← getShard k; on_shard i (λ s, ((), Shard.Register k c s)))
     (λ _ h', conc_inv excl (<[j := RegInsert c rest]> ts) h') h.
Proof.
  intros Hj (P & Q & O & Hc & He). assert (RegInsert c (k :: rest) ∈ ts) as Hq by by eapply list_elem_of_lookup_2.
  assert (c ∈ ts ≫= admitted) as Ha by (apply list_elem_of_bind; eexists; split; [|exact Hq]; left).
  assert (∀ c', c' ∈ ts ≫= admitted → ID c' = ID c → c' = c) as Hu.
  { intros c' Ha' E. apply (known_uniq ts h P Q O Hc); auto using admitted_known. }
  eapply wp_mono; [apply (register_key P Q c); [..|apply Hc]|].
  { intros k' c' HP. by apply Hu, (k_topic _ _ _ _ _ Hc k'). }
  { intros i c' HQ. by apply Hu, (k_listed _ _ _ _ _ Hc i). }
  intros [] h' [Hr Hso]. pose proof (shards_only_fields _ _ Hso) as (E1 & _).
  eapply shard_step_inv; [done|exact Hc|exact Hr|done|..].
  - intros k' c' [HP|[_ ->]]; [by eapply (k_topic _ _ _ _ _ Hc)|done].
  - intros i c' [HQ|[_ ->]]; [by eapply (k_listed _ _ _ _ _ Hc)|done].
  - split; simpl; try done.
    + by intros ? ?%elem_of_nil.
    + by intros ? ?%elem_of_nil.
    + intros c' rest' [= <- <-]. exists (k :: rest). split; [done|]. by intros ? ?; right.
    + rewrite E1. intros c' rest0 k' [= <- <-] [->|?]%elem_of_cons; [right; auto|left; eauto].
  - done.
  - intros Hx. eapply inserted_exact; [exact Hc|auto|exact Hq|done|done].
Qed.

(** *** Removing one topic *)
Lemma removed_exact ts h P Q O q c k rest h' :
  core ts h P Q O → exact ts h P Q → q ∈ ts → removes q = Some (c, k :: rest) → shards_only h h' →
  exact ts h' (λ k' c', P k' c' ∧ ¬ (k' = k ∧ c' = c)) (λ i c', Q i c' ∧ ¬ (i = shard_of (numShards h) k ∧ c' = c)).
Proof.
  intros Hc [] Hq Hr Hso. pose proof (shards_only_fields _ _ Hso) as (E1 & _).
  assert (flagged h c = true) as Hf.
  { apply (k_duty _ _ _ _ _ Hc c). apply list_elem_of_bind. exists q. split; [|done]. destruct q; simplify_eq/=; left. }
  split; rewrite ?E1; try setoid_rewrite (shards_only_flag h h' _ Hso); try done.
  - intros k' c' [HP Hne]. destruct (e_topic0 k' c' HP) as [? [HQ|?]]; [|auto]. split; [done|].
    destruct (decide (c' = c)) as [->|?]; [right|left; naive_solver]. exists q, (k :: rest). eauto.
  - intros i c' [HQ _]. auto.
  - intros k' c' [HP _]. auto.
  - intros i c' [HQ _]. auto.
  - intros q0 t u idxs cs i c' Hq0 Hr0 Hu [HQ _]. by eapply e_clean0.
  - intros q0 c' rest' k' Hq0 Hr0 [HP _]. by eapply e_cover0.
  - intros c' k' Ha Hf' Hk'. destruct (e_complete0 c' k' Ha Hf' Hk') as [?|[[? ?]|?]]; [by left| |by right; right].
    right; left. split; (split; [done|]); intros [_ ->]; congruence.
Qed.

Lemma remove_inv excl ts h j c k rest :
  ts !! j = Some (UnRemove c (k :: rest)) → conc_inv excl ts h →
  wp (i ← getShard k; on_shard i (λ s, ((), Shard.Unregister k (ID c) s)))
     (λ _ h', conc_inv excl (<[j := UnRemove c rest]> ts) h') h.
Proof.
  intros Hj (P & Q & O & Hc & He). assert (UnRemove c (k :: rest) ∈ ts) as Hq by by eapply list_elem_of_lookup_2.
  assert (c ∈ ts ≫= admitted) as Ha.
  { apply (k_duty _ _ _ _ _ Hc). apply list_elem_of_bind. eexists; split; [|exact Hq]; left. }
  assert (∀ c', c' ∈ ts ≫= admitted → ID c' = ID c → c' = c) as Hu.
  { intros c' Ha' E. apply (known_uniq ts h P Q O Hc); auto using admitted_known. }
  eapply wp_mono; [apply (unregister_key P Q c); [..|apply Hc]|].
  { intros k' c' HP. by apply Hu, (k_topic _ _ _ _ _ Hc k'). }
  { intros i c' HQ. by apply Hu, (k_listed _ _ _ _ _ Hc i). }
  intros [] h' [Hr Hso]. pose proof (shards_only_fields _ _ Hso) as (E1 & _).
  eapply shard_step_inv; [done|exact Hc|exact Hr|done|..].
  - intros k' c' [HP _]. by eapply (k_topic _ _ _ _ _ Hc).
  - intros i c' [HQ _]. by eapply (k_listed _ _ _ _ _ Hc).
  - split; simpl; try done.
    + by intros ? ?%elem_of_nil.
    + by intros ? ?%elem_of_nil.
    + intros c' rest' [= <- <-]. exists (k :: rest). split; [done|]. intros k' [_ Hn] [->|?]%elem_of_cons; [by destruct Hn|done].
    + rewrite E1. intros c' rest0 k' [= <- <-] [->|?]%elem_of_cons; [right; naive_solver|left; eauto].
  - done.
  - intros Hx. eapply removed_exact; [exact Hc|auto|exact Hq|done|done].
Qed.

(** *** Visiting one shard for a revocation *)
Lemma visited_exact ts h P Q O h' i t u :
  core ts h P Q O → exact ts h P Q → shards_only h h' →
  (∀ c, Q i c → user_match t u c → will_mark ts c) →
  exact ts h' (λ k c, P k c ∧ ¬ (shard_of (numShards h) k = i ∧ Q i c ∧ user_match t u c))
              (λ i' c, Q i' c ∧ ¬ (i' = i ∧ user_match t u c)).
Proof.
  intros Hc [] Hso Hmark. pose proof (shards_only_fields _ _ Hso) as (E1 & _).
  split; rewrite ?E1; try setoid_rewrite (shards_only_flag h h' _ Hso); try done.
  - intros k c [HP Hn]. destruct (e_topic0 k c HP) as [? [HQ|?]]; [|auto]. split; [done|]. left. split; [done|]. naive_solver.
  - intros i' c [HQ _]. auto.
  - intros k c [HP _]. auto.
  - intros i' c [HQ _]. auto.
  - intros q0 t0 u0 idxs cs i' c Hq0 Hr0 Hu [HQ _]. by eapply e_clean0.
  - intros q0 c rest k Hq0 Hr0 [HP _]. by eapply e_cover0.
  - intros c k Ha Hf Hk. destruct (e_complete0 c k Ha Hf Hk) as [?|[[HP HQ]|?]]; [by left| |by right; right].
    destruct (decide (shard_of (numShards h) k = i ∧ user_match t u c)) as [[<- Hu]|Hn]; [right; right; auto|right; left].
    naive_solver.
Qed.

Lemma visit_rel ts h P Q O i t u s :
  core ts h P Q O → shards h !! i = Some s →
  let h' := upd_shards (<[i := (Shard.InvalidateUser t u s).2]>) h in
  (∀ c, c ∈ (Shard.InvalidateUser t u s).1 ↔ Q i c ∧ user_match t u c)
  ∧ shards_only h h'
  ∧ hub_rel (λ k c, P k c ∧ ¬ (shard_of (numShards h) k = i ∧ Q i c ∧ user_match t u c))
            (λ i' c, Q i' c ∧ ¬ (i' = i ∧ user_match t u c)) h'.
Proof.
  intros Hc Hs h'. pose proof (hr_shard _ _ _ (k_rel _ _ _ _ _ Hc) _ _ Hs) as Hsr.
  split; [intros c; by apply InvalidateUser_matched with (P := λ k c, P k c ∧ shard_of (numShards h) k = i)|].
  split; [unfold h', shards_only; by destruct h|].
  eapply hub_rel_update; [apply Hc|done| | |].
  - eapply shard_rel_ext; [| |apply (InvalidateUser_rel _ _ t u s Hsr)].
    + intros k c. simpl. naive_solver.
    + intros c. simpl. naive_solver.
    + intros k c c' [HP _] HQ E. apply (known_uniq ts h P Q O Hc); [..|done]; apply admitted_known.
      * by eapply (k_topic _ _ _ _ _ Hc).
      * by eapply (k_listed _ _ _ _ _ Hc).
  - intros k c Hne. naive_solver.
  - intros j c Hne. naive_solver.
Qed.

Lemma visit_inv excl ts h j t u i idxs n :
  ts !! j = Some (InvShard t u (i :: idxs) n) → conc_inv excl ts h →
  wp (on_shard i (Shard.InvalidateUser t u)) (λ matched h', conc_inv excl (<[j := InvMark t u matched idxs n]> ts) h') h.
Proof.
  intros Hj (P & Q & O & Hc & He). set (q := InvShard t u (i :: idxs) n) in *.
  assert (q ∈ ts) as Hq by by eapply list_elem_of_lookup_2.
  assert (∀ i', i' ∈ i :: idxs → (i' < length (shards h))%nat) as Hw.
  { intros i' Hi'. apply (k_walks _ _ _ _ _ Hc). apply list_elem_of_bind. eexists; split; [|exact Hq]. done. }
  destruct (lookup_lt_is_Some_2 (shards h) i) as [s Hs]; [apply Hw; left|].
  destruct (visit_rel ts h P Q O i t u s Hc Hs) as (Hmatched & Hso & Hr).
  eapply wp_of_run; [by apply on_shard_spec|].
  set (matched := (Shard.InvalidateUser t u s).1) in *. set (h' := upd_shards _ h) in *.
  set (qm := InvMark t u matched (i :: idxs) n). set (ts1 := <[j := qm]> ts).
  assert (ts1 !! j = Some qm) as Hj1 by (apply list_lookup_insert_eq; by eapply lookup_lt_Some).
  assert (ts1 ≫= admitted = ts ≫= admitted) as Ead by (apply (bind_update_eq admitted ts j q qm Hj); done).
  assert (moves ts h P Q q qm) as Hm.
  { split; simpl; try done.
    - intros c [HQ _]%Hmatched. by eapply (k_listed _ _ _ _ _ Hc).
    - intros t0 u0 idxs' cs' [= <- <- <- <-]. split; [eauto 10|]. by intros c [_ ?]%Hmatched.
    - intros t0 u0 idxs' cs' [= <- <- <- <-]. right. exists (i :: idxs), matched. split; [done|]. split; [auto|].
      by intros c ?%elem_of_nil. }
  assert (core ts1 h P Q O) as Hc1.
  { eapply moved_core; rewrite ?(bind_update_eq duty ts j q qm Hj eq_refl);
      [exact Hj|apply same_registry_refl|exact Hm|exact Hc|try done; apply Hc..]. }
  replace (<[j := InvMark t u matched idxs n]> ts) with (<[j := InvMark t u matched idxs n]> ts1)
    by apply list_insert_insert_eq.
  eapply shard_step_inv; [exact Hj1|exact Hc1|exact Hr|exact Hso|..].
  - intros k c [HP _]. by eapply (k_topic _ _ _ _ _ Hc1).
  - intros i' c [HQ _]. by eapply (k_listed _ _ _ _ _ Hc1).
  - split; simpl; try done.
    + rewrite Ead. intros c [HQ _]%Hmatched. by eapply (k_listed _ _ _ _ _ Hc).
    + rewrite length_insert. intros i' Hi'. apply Hw. by right.
    + intros t0 u0 idxs' cs' [= <- <- <- <-]. split; [|by intros c [_ ?]%Hmatched]. exists (i :: idxs), matched. split; [done|].
      intros i' c Hu [_ Hn] [->|?]%elem_of_cons; [by destruct Hn|done].
    + intros t0 u0 idxs' cs' [= <- <- <- <-]. right. exists idxs, matched. split; [done|]. split; [|auto].
      intros i' [->|?]%elem_of_cons; [right|by left]. intros c Hu [_ Hn]. by destruct Hn.
  - done.
  - intros Hx. eapply visited_exact; [exact Hc1| |exact Hso|].
    + eapply moved_exact; [exact Hj|apply same_registry_refl|exact Hm|auto].
    + intros c HQ Hu. exists qm, t, u, (i :: idxs), matched. split; [by eapply elem_update_new|]. split; [done|]. by apply Hmatched.
Qed.

(** *** Acquiring a quota *)
Lemma acquired_inv excl ts h j c q1 :
  ts !! j = Some (RegAcquire c) →
  (∀ S, quota_inv S (quotas h) → quota_inv (session_of c :: S) q1) → qlimits q1 = qlimits (quotas h) →
  conc_inv excl ts h → conc_inv excl (<[j := RegInsert c (Topics c)]> ts) (upd_quotas (λ _, q1) h).
Proof.
  intros Hj Hq1 Hl (P & Q & O & Hc & He). set (q := RegAcquire c) in *. set (q' := RegInsert c (Topics c)).
  assert (q ∈ ts) as Hq by by eapply list_elem_of_lookup_2.
  assert (c ∈ ts ≫= starting) as Hst by (apply list_elem_of_bind; eexists; split; [|exact Hq]; left).
  pose proof (starting_not_admitted ts h P Q O Hc c Hst) as Hna. pose proof (k_starting _ _ _ _ _ Hc c Hst) as Hf.
  assert (∀ q0 : hpc, q0 ∈ <[j := q']> ts → q0 = q' ∨ q0 ∈ ts) as Hin by (intros; by apply elem_of_insert with j).
  assert (<[j := q']> ts ≫= admitted ≡ₚ c :: (ts ≫= admitted)) as HA.
  { pose proof (bind_update_perm admitted ts j q q' Hj) as E. simpl in E. rewrite app_nil_r in E. by rewrite E, Permutation_app_comm. }
  exists P, Q, (c :: O). split; [|intros Hx; specialize (He Hx)].
  - destruct Hc. split; rewrite ?(bind_update_eq regs ts j q q' Hj eq_refl), ?(bind_update_eq duty ts j q q' Hj eq_refl); try done.
    + by eapply hub_rel_same, k_rel0.
    + intros k c' HP. rewrite HA. right. eauto.
    + intros i c' HQ. rewrite HA. right. eauto.
    + intros c' [Hc'|Hc']%(elem_bind_update _ _ _ _ _ _ Hj); [by apply elem_of_nil in Hc'|]. by apply k_starting0.
    + intros c' [? ?]%k_duty0. rewrite HA. split; [by right|done].
    + intros c' [Hc'|Hc']%(elem_bind_update _ _ _ _ _ _ Hj); [by apply elem_of_nil in Hc'|]. rewrite HA. right. auto.
    + intros i [Hc'|Hc']%(elem_bind_update _ _ _ _ _ _ Hj); [by apply elem_of_nil in Hc'|]. by apply k_walks0.
    + intros c' [Hc'|Hc']%Hin; [done|]. apply k_unmark0 in Hc'. by destruct (elem_update_keep ts j q q' _ Hj Hc').
    + intros q0 t u idxs cs c' [->|Hq0]%Hin Hr; [done|by eapply k_match0].
    + apply NoDup_cons. split; [|done]. by intros [? _]%k_holds0.
    + intros c'. rewrite HA, !elem_of_cons, k_holds0. split; [intros [->|[? ?]]; auto|].
      intros [[->|?] ?]; [by left|right]. auto.
    + simpl. by apply Hq1.
    + simpl. by rewrite Hl.
  - assert (∀ k c', will_remove ts k c' → will_remove (<[j := q']> ts) k c') as Kr
      by (intros k c' Hw; by apply (keep_remove ts j q q' Hj k c' Hw)).
    assert (∀ i c', will_visit ts i c' → will_visit (<[j := q']> ts) i c') as Kv
      by (intros i c' Hw; by apply (keep_visit ts j q q' Hj i c' Hw)).
    destruct He. split; simpl.
    + intros k c' HP. destruct (e_topic0 k c' HP) as [? [?|?]]; auto.
    + auto.
    + intros k c' HP Hf'. destruct (e_flagP0 k c' HP Hf'); auto.
    + intros i c' HQ Hf'. destruct (e_flagQ0 i c' HQ Hf') as [(k & ? & <-)|?]; [left; exists k; auto|auto].
    + intros q0 t u idxs cs i c' [->|Hq0]%Hin Hr Hu HQ; [done|by eapply e_clean0].
    + intros q0 c' rest k [->|Hq0]%Hin Hr HP; [done|by eapply e_cover0].
    + intros q0 c' rest [->|Hq0]%Hin Hr; [|by eauto]. injection Hr as <- <-. done.
    + intros c' k Ha Hf' Hk. rewrite HA in Ha. apply elem_of_cons in Ha as [->|Ha].
      { left. exists q', (Topics c). split; [by eapply elem_update_new|done]. }
      destruct (e_complete0 c' k Ha Hf' Hk) as [Hw|[?|Hw]]; [left|by right; left|right; right].
      * by apply (keep_insert ts j q q' Hj k c' Hw).
      * by apply (keep_mark ts j q q' Hj c' Hw).
    + intros q0 q2 t u idxs cs c' H0 Hr H1 Hc'.
      assert (∃ q3, q3 ∈ ts ∧ c' ∈ active q3) as (q3 & H3 & Hc3) by (apply Hin in H1 as [->|?]; eauto).
      apply Hin in H0 as [->|H0]; [done|]. exact (e_excl0 q0 q3 t u idxs cs c' H0 Hr H3 Hc3).
Qed.

(** *** One operation *)
Lemma store_same h c s s' :
  store h !! ptr c = Some s → client_wf s' → unregistered s' = unregistered s →
  same_registry h (upd_store (<[ptr c := s']>) h).
Proof.
  intros Hs Hw Hu. split; simpl; try done.
  - intros Hwf. by apply map_Forall_insert_2.
  - intros p [s0 Hp]. destruct (decide (p = ptr c)) as [->|?]; [rewrite lookup_insert_eq|rewrite lookup_insert_ne by done]; eauto.
  - intros c'. unfold flagged. simpl. destruct (decide (ptr c' = ptr c)) as [->|?];
      [by rewrite lookup_insert_eq, Hs|by rewrite lookup_insert_ne].
Qed.

Lemma same_registry_trans h1 h2 h3 : same_registry h1 h2 → same_registry h2 h3 → same_registry h1 h3.
Proof. intros [] []. split; try congruence; naive_solver. Qed.

Lemma enqueue_same c frame h s :
  store h !! ptr c = Some s → client_wf s →
  wp (enqueue c frame) (λ _ h', same_registry h h' ∧ quotas h' = quotas h) h.
Proof.
  intros Hs Hw. pose proof (EnqueueFrame_spec c frame s Hw) as Ee. pose proof (EnqueueFrame_wf c frame s Hw) as Ew.
  pose proof (EnqueueFrame_unregistered c frame s) as Eu. destruct (enqueue_result c frame s) as [[ok slow] s']. simpl in *.
  pose proof (store_same h c s s' Hs Ew Eu) as Hsame. unfold enqueue. apply wp_bind.
  eapply wp_of_run; [eapply on_client_spec; [exact Hs|exact Ee]|]. apply wp_bind. destruct slow; simpl.
  - unfold NotifySlowClient. apply wp_modify, wp_ret. simpl. case_match; (split; [|done]); [|done].
    eapply same_registry_trans; [exact Hsame|by split].
  - by apply wp_ret, wp_ret.
Qed.

Lemma close_same c h s :
  store h !! ptr c = Some s → client_wf s →
  ∃ h', on_client c Client.Close h = Some ((), h') ∧ same_registry h h' ∧ quotas h' = quotas h.
Proof.
  intros Hs Hw. eexists. split; [eapply on_client_spec; [done|by apply Close_spec]|]. split; [|done].
  eapply store_same; [done|by apply Close_wf|done].
Qed.

(** The views of a call after a move that keeps its promises. *)
Ltac same_views :=
  lazymatch goal with
  | |- ∀ c rest', Some _ = Some _ → ∃ rest, _ => intros ? ? [= <- <-]; eauto
  | |- ∀ c rest k, Some _ = Some _ → k ∈ rest → _ => intros ? ? ? [= <- <-] ?; first [left; by eauto|by rewrite elem_of_nil in *]
  | |- ∀ t u idxs cs, Some _ = Some _ → (∃ _, _) ∧ _ =>
      intros ? ? ? ? [= <- <- <- <-]; split; [eexists _, _; split; [done|auto]|first [by intros ? ?%elem_of_nil|by eauto|idtac]]
  | |- ∀ t u idxs cs, Some _ = Some _ → _ ∨ _ =>
      intros ? ? ? ? [= <- <- <- <-]; first [by left|right; eexists _, _; split; [done|split; auto]]
  | _ => idtac
  end.
Ltac moves_tac := intros ? ? ? _; split; simpl in *; try done; try (by intros ? ?%elem_of_nil); same_views; auto.

Lemma atomic_inv excl ts h j q :
  ts !! j = Some q → conc_inv excl ts h → wp (hub_atomic q) (λ q' h', conc_inv excl (<[j := q']> ts) h') h.
Proof.
  intros Hj Hi. assert (q ∈ ts) as Hq by by eapply list_elem_of_lookup_2.
  assert (∀ q' h', same_registry h h' → quotas h' = quotas h → (∀ P Q O, core ts h P Q O → moves ts h P Q q q') →
            duty q' = duty q → conc_inv excl (<[j := q']> ts) h') as Hmove by (intros; by eapply moved_inv).
  pose proof (same_registry_refl h) as Hrefl. pose proof Hi as (P0 & Q0 & O0 & Hc0 & _).
  assert (∀ c, c ∈ touches q → c ∈ ts ≫= admitted) as Htouch.
  { intros c Hc. apply (k_touches _ _ _ _ _ Hc0), list_elem_of_bind. eauto. }
  assert (∀ i, i ∈ walks q → (i < length (shards h))%nat) as Hwalk.
  { intros i Hw. apply (k_walks _ _ _ _ _ Hc0), list_elem_of_bind. eauto. }
  assert (∀ t u idxs cs c, revokes q = Some (t, u, idxs, cs) → c ∈ cs → user_match t u c) as Hmat.
  { intros t u idxs cs c. by apply (k_match _ _ _ _ _ Hc0). }
  assert (∀ c, c ∈ duty q → c ∈ ts ≫= admitted) as Hduty.
  { intros c Hc. apply (k_duty _ _ _ _ _ Hc0), list_elem_of_bind. eauto. }
  pose proof (admitted_store ts h P0 Q0 O0 Hc0) as Hstore.
  assert (∀ i, (i < length (shards h))%nat → ∃ s, shards h !! i = Some s ∧ ∀ c, c ∈ GetAllClients s → c ∈ ts ≫= admitted) as Hall.
  { intros i [s Hs]%lookup_lt_is_Some_2. exists s. split; [done|]. intros c Hc.
    eapply (k_listed _ _ _ _ _ Hc0 i). by apply (GetAllClients_elem _ _ s c (hr_shard _ _ _ (k_rel _ _ _ _ _ Hc0) i s Hs)). }
  destruct q as [c|c|c [|k rest]|r c|c|c|c [|k rest]|c| |t u [|i idxs] n|t u [|c cs] idxs n|t u c cs idxs n|t u c cs idxs n|n
    |k frame|[|i idxs] frame|k [|c cs] idxs frame| |[|i idxs]|[|c cs] idxs|]; simpl in Htouch, Hwalk, Hmat, Hduty |- *.
  - wp_steps; apply Hmove; try done; moves_tac.
  - unfold quota_acquire. destruct (Acquire (TenantID c) (UserID c) (quotas h)) as [r q1] eqn:E.
    destruct (Acquire_spec _ _ (TenantID c) (UserID c) (k_quota _ _ _ _ _ Hc0)) as (q2 & E2 & Hl & Hr). rewrite E in E2.
    wp_step. eapply wp_of_run; [unfold mbind, M_bind; by rewrite E|]. apply wp_ret. destruct r as [[]|e].
    + eapply acquired_inv; [done| | |done].
      * intros S HS. destruct (Acquire_spec S _ (TenantID c) (UserID c) HS) as (q3 & E3 & _ & Hr3). rewrite E in E3.
        injection E3 as E3 <-. by rewrite <- E3 in Hr3.
      * injection E2 as _ <-. done.
    + injection E2 as E2 <-. rewrite <- E2 in Hr. subst q1. apply Hmove; try done; first [by split|moves_tac].
  - apply wp_ret, Hmove; try done. moves_tac.
  - wp_step. eapply wp_mono; [by apply insert_inv|]. intros [] h' ?. by apply wp_ret.
  - apply wp_ret. by rewrite list_insert_id.
  - destruct (Hstore c) as (s & Hs & Hw & Hf); [apply Htouch; left|]. wp_step.
    eapply wp_of_run; [eapply on_client_spec; [exact Hs|apply MarkUnregistered_spec]|]. apply wp_ret.
    destruct (unregistered s) eqn:Eu; simpl.
    + apply Hmove; try done; first [eapply store_same; [done|by apply set_unregistered_wf|done]|moves_tac].
    + by apply (unmark_inv excl ts h j c s).
  - destruct (Hstore c) as (s & Hs & Hw & _); [apply Hduty; left|].
    destruct (close_same c h s Hs Hw) as (h' & E & ? & ?). wp_step. eapply wp_of_run; [exact E|]. apply wp_ret, Hmove; try done. moves_tac.
  - apply wp_ret, Hmove; try done. moves_tac.
  - wp_step. eapply wp_mono; [by apply remove_inv|]. intros [] h' ?. by apply wp_ret.
  - wp_steps. eapply released_inv; try done. moves_tac.
  - apply wp_ret. by rewrite list_insert_id.
  - apply wp_ret, Hmove; try done. moves_tac.
  - wp_step. eapply wp_mono; [by apply visit_inv|]. intros matched h' ?. by apply wp_ret.
  - apply wp_ret, Hmove; try done. moves_tac.
  - destruct (Hstore c) as (s & Hs & Hw & Hf); [apply Htouch; left|]. wp_step.
    eapply wp_of_run; [eapply on_client_spec; [exact Hs|apply MarkUnregistered_spec]|]. apply wp_ret.
    destruct (unregistered s) eqn:Eu; simpl.
    + apply Hmove; try done; [eapply store_same; [done|by apply set_unregistered_wf|done]|]. moves_tac.
      * intros c' Hc'. apply Htouch. by right.
      * intros c' Hc'. eapply Hmat; [done|by right].
      * intros c' [->|?]%elem_of_cons Hn; [congruence|done].
    + by apply (invmark_inv excl ts h j t u c cs idxs n s).
  - destruct (Hstore c) as (s & Hs & Hw & _); [apply Hduty; left|].
    destruct (close_same c h s Hs Hw) as (h' & E & ? & ?). wp_step. eapply wp_of_run; [exact E|]. apply wp_ret, Hmove; try done. moves_tac.
  - wp_steps. eapply released_inv; try done. moves_tac.
  - apply wp_ret. by rewrite list_insert_id.
  - wp_step. eapply wp_of_run; [eapply getShard_spec, (k_rel _ _ _ _ _ Hc0)|].
    destruct (shard_lookup _ _ h k (k_rel _ _ _ _ _ Hc0)) as [s Hs]. wp_step.
    eapply wp_of_run; [unfold read_shard; by rewrite Hs|]. apply wp_ret, Hmove; try done. moves_tac.
    intros c Hc. apply (k_topic _ _ _ _ _ Hc0 k).
    by apply (GetRecipients_elem _ _ k s c (hr_shard _ _ _ (k_rel _ _ _ _ _ Hc0) _ s Hs)).
  - apply wp_ret, Hmove; try done; moves_tac.
  - destruct (Hall i) as (s & Hs & Hin); [apply Hwalk; left|]. wp_step. eapply wp_of_run; [unfold read_shard; by rewrite Hs|].
    apply wp_ret, Hmove; try done. moves_tac. intros i' Hi'. apply Hwalk. by right.
  - apply wp_ret, Hmove; try done; moves_tac.
  - destruct (Hstore c) as (s & Hs & Hw & _); [apply Htouch; left|]. wp_step. eapply wp_mono; [by eapply enqueue_same|].
    intros ok h' [? ?]. apply wp_ret, Hmove; try done. moves_tac. intros c' Hc'. apply Htouch. by right.
  - wp_steps; apply Hmove; try done; moves_tac. intros i. unfold shard_positions. rewrite elem_of_seq. simpl. lia.
  - apply wp_ret, Hmove; try done; moves_tac.
  - destruct (Hall i) as (s & Hs & Hin); [apply Hwalk; left|]. wp_step. eapply wp_of_run; [unfold read_shard; by rewrite Hs|].
    apply wp_ret, Hmove; try done. moves_tac. intros i' Hi'. apply Hwalk. by right.
  - apply wp_ret, Hmove; try done; moves_tac.
  - destruct (Hstore c) as (s & Hs & Hw & _); [apply Htouch; left|].
    destruct (close_same c h s Hs Hw) as (h' & E & ? & ?). wp_step. eapply wp_of_run; [exact E|]. apply wp_ret, Hmove; try done. moves_tac.
    intros c' Hc'. apply Htouch. by right.
  - apply wp_ret. by rewrite list_insert_id.
Qed.

(** *** New calls *)
Lemma spawn_core ts h P Q O q :
  core ts h P Q O → regs q = [] → admitted q = [] → starting q = [] → duty q = [] →
  (∀ c, c ∈ touches q → c ∈ ts ≫= admitted) → (∀ i, i ∈ walks q → (i < length (shards h))%nat) →
  (∀ c, q = UnMark c → RegDone (Ok ()) c ∈ ts) →
  (∀ t u idxs cs, revokes q = Some (t, u, idxs, cs) → cs = []) →
  core (ts ++ [q]) h P Q O.
Proof.
  intros [] R A S D T W U V.
  split; rewrite ?bind_snoc, ?R, ?A, ?S, ?D, ?app_nil_r; try done.
  - intros c [?|?]%elem_of_app; auto.
  - intros i [?|?]%elem_of_app; auto.
  - intros c [Hc|Hc%list_elem_of_singleton]%elem_of_app; apply elem_of_app; left; auto.
  - intros q0 t u idxs cs c [Hq|Hq%list_elem_of_singleton]%elem_of_app Hr Hc; [by eapply k_match0|]. subst q0.
    apply V in Hr as ->. by apply elem_of_nil in Hc.
Qed.

Lemma spawn_exact ts h P Q q :
  exact ts h P Q → admitted q = [] → removes q = None → inserts q = None →
  (∀ c q0 t u idxs cs, c ∈ active q → q0 ∈ ts → revokes q0 = Some (t, u, idxs, cs) → ¬ user_match t u c) →
  (∀ t u idxs cs, revokes q = Some (t, u, idxs, cs) →
     active q = [] ∧ (∀ i c, Q i c → i ∈ idxs) ∧ ∀ q0 c, q0 ∈ ts → c ∈ active q0 → ¬ user_match t u c) →
  exact (ts ++ [q]) h P Q.
Proof.
  intros [] A Hr Hi X V.
  assert (∀ q0, q0 ∈ ts ++ [q] → q0 ∈ ts ∨ q0 = q) as Hin by (intros q0; rewrite elem_of_app, list_elem_of_singleton; tauto).
  assert (∀ q0, q0 ∈ ts → q0 ∈ ts ++ [q]) as Hmono by (intros; apply elem_of_app; auto).
  assert (∀ k c, will_remove ts k c → will_remove (ts ++ [q]) k c) as Kr by (intros k c (q0 & rest & ? & ?); exists q0, rest; auto).
  assert (∀ i c, will_visit ts i c → will_visit (ts ++ [q]) i c) as Kv.
  { intros i c (q0 & t & u & idxs & cs & ? & ?). exists q0, t, u, idxs, cs. auto. }
  split; rewrite ?bind_snoc, ?A, ?app_nil_r.
  - intros k c HP. destruct (e_topic0 k c HP) as [? [?|?]]; auto.
  - auto.
  - intros k c HP Hf. destruct (e_flagP0 k c HP Hf); auto.
  - intros i c HQ Hf. destruct (e_flagQ0 i c HQ Hf) as [(k & ? & ?)|?]; [left; exists k; auto|auto].
  - intros q0 t u idxs cs i c [Hq| ->]%Hin Hr0 Hu HQ; [by eapply e_clean0|]. destruct (V _ _ _ _ Hr0) as (_ & Hv & _). eauto.
  - intros q0 c rest k [Hq| ->]%Hin Hr0 HP; [by eapply e_cover0|congruence].
  - intros q0 c rest [Hq| ->]%Hin Hr0; [by eapply e_insert0|congruence].
  - intros c k Hc Hf Hk. destruct (e_complete0 c k Hc Hf Hk) as [(q0 & rest & ? & ?)|[?|(q0 & t & u & idxs & cs & ? & ?)]].
    + left. exists q0, rest. auto.
    + right; left. done.
    + right; right. exists q0, t, u, idxs, cs. auto.
  - intros q0 q1 t u idxs cs c [H0| ->]%Hin Hr0 [H1| ->]%Hin Hc.
    + exact (e_excl0 q0 q1 t u idxs cs c H0 Hr0 H1 Hc).
    + by eapply X.
    + destruct (V _ _ _ _ Hr0) as (_ & _ & Hv). by eapply Hv.
    + destruct (V _ _ _ _ Hr0) as (E & _). by rewrite E, elem_of_nil in Hc.
Qed.

Lemma spawn_inv excl ts h q :
  conc_inv excl ts h → regs q = [] → (active q = []) → admitted q = [] → starting q = [] → duty q = [] → removes q = None → inserts q = None →
  (∀ c, c ∈ touches q → c ∈ ts ≫= admitted) → (∀ i, i ∈ walks q → (i < length (shards h))%nat) →
  (∀ c, q = UnMark c → RegDone (Ok ()) c ∈ ts) →
  (∀ t u idxs cs, revokes q = Some (t, u, idxs, cs) →
     cs = [] ∧ idxs = shard_positions h ∧ (excl = true → ∀ q0 c, q0 ∈ ts → c ∈ active q0 → ¬ user_match t u c)) →
  conc_inv excl (ts ++ [q]) h.
Proof.
  intros (P & Q & O & Hc & He) R Act A S D Rm Ins T W U V. exists P, Q, O. split.
  - apply spawn_core; try done. intros t u idxs cs Hr. by apply V in Hr as [-> _].
  - intros Hx. specialize (He Hx). apply spawn_exact; try done.
    + intros c q0 t u idxs cs Hact. rewrite Act in Hact. by apply elem_of_nil in Hact.
    + intros t u idxs cs (_ & -> & Hv)%V. split; [done|]. split; [|exact (Hv Hx)]. intros i c HQ.
      destruct (e_listed _ _ _ _ He i c HQ) as (k & _ & <-). unfold shard_positions. rewrite elem_of_seq.
      pose proof (k_rel _ _ _ _ _ Hc) as Hr. rewrite (hr_len _ _ _ Hr). pose proof (shard_of_lt _ k (hr_num _ _ _ Hr)). lia.
Qed.

Lemma connect_inv excl ts h c s :
  store h !! ptr c = None → ID c ∉ ID <$> (ts ≫= regs) → client_wf s → unregistered s = false →
  (excl = true → ∀ q t u idxs cs, q ∈ ts → revokes q = Some (t, u, idxs, cs) → ¬ user_match t u c) →
  conc_inv excl ts h → conc_inv excl (ts ++ [RegCheck c]) (upd_store (<[ptr c := s]>) h).
Proof.
  intros Hs Hid Hw Hu Hx (P & Q & O & Hc & He). set (h' := upd_store _ h).
  assert (∀ c', c' ∈ ts ≫= regs → ptr c' ≠ ptr c) as Hp.
  { intros c' Hk E. destruct (k_known _ _ _ _ _ Hc c' Hk) as [s' Hs']. congruence. }
  assert (∀ c', c' ∈ ts ≫= regs → flagged h' c' = flagged h c') as Hfl.
  { intros c' Hk. unfold flagged, h'. simpl. by rewrite lookup_insert_ne by (intros E; by apply (Hp c' Hk)). }
  assert (flagged h' c = false) as Hf by (unfold flagged, h'; simpl; by rewrite lookup_insert_eq).
  exists P, Q, O. split.
  - pose proof Hc as []. split; rewrite ?bind_snoc; simpl; rewrite ?app_nil_r; try done.
    + by eapply hub_rel_same, k_rel0.
    + rewrite fmap_app, NoDup_app. simpl. split; [done|]. split; [|apply NoDup_singleton].
      intros x Hx0 ->%list_elem_of_singleton. done.
    + rewrite fmap_app, NoDup_app. simpl. split; [done|]. split; [|apply NoDup_singleton].
      intros x (c' & -> & Hc')%list_elem_of_fmap Hx0%list_elem_of_singleton. by apply (Hp c').
    + by apply map_Forall_insert_2.
    + intros c' [Hc'|Hc'%list_elem_of_singleton]%elem_of_app; [|subst; rewrite lookup_insert_eq; eauto].
      rewrite lookup_insert_ne by (intros E; by apply (Hp c' Hc')). auto.
    + intros c' [Hc'|Hc'%list_elem_of_singleton]%elem_of_app; [|by subst]. rewrite Hfl by by apply starting_known. auto.
    + intros c' [? ?]%k_duty0. rewrite Hfl by by apply admitted_known. done.
    + intros c' [Hc'|Hc'%list_elem_of_singleton]%elem_of_app; [|done]. apply elem_of_app. left. auto.
    + intros q0 t u idxs cs c' [Hq|Hq%list_elem_of_singleton]%elem_of_app Hr; [by eapply k_match0|by subst].
    + intros c'. rewrite k_holds0. split; intros [Ha Hor]; (split; [done|]).
      * by rewrite Hfl by by apply admitted_known.
      * by rewrite Hfl in Hor by by apply admitted_known.
  - intros Hex. specialize (He Hex). apply (spawn_exact ts h' P Q (RegCheck c)); try done.
    + destruct He. split; try done.
      * intros k c' HP Hf'. rewrite Hfl in Hf' by by apply admitted_known; eapply (k_topic _ _ _ _ _ Hc). auto.
      * intros i c' HQ Hf'. rewrite Hfl in Hf' by by apply admitted_known; eapply (k_listed _ _ _ _ _ Hc). auto.
      * intros q0 c' rest Hq0 Hr. rewrite Hfl; [by eauto|]. apply list_elem_of_bind. exists q0. split; [|done].
        destruct q0; simplify_eq/=; left.
      * intros c' k Ha Hf'. rewrite Hfl in Hf' by by apply admitted_known. auto.
    + intros c' q0 t u idxs cs ->%list_elem_of_singleton. by apply Hx.
Qed.

Lemma cstep_inv excl x y : cstep excl x y → conc_inv excl x.1 x.2 → conc_inv excl y.1 y.2.
Proof.
  intros Hstep Hi. pose proof Hi as (P & Q & O & Hc & _).
  destruct Hstep as [ts h c s Hs Hid (n & cb & Hnew) Hx|ts h c Hd|ts h t u Hx|ts h k frame|ts h frame|ts h|ts h j q q' h' Hj E]; simpl in *.
  - assert (client_wf s ∧ unregistered s = false) as [? ?].
    { replace s with (c, s).2 by done. rewrite Hnew. split; [apply NewClient_wf|done]. }
    by apply connect_inv.
  - apply spawn_inv; try done.
    + intros c' ->%list_elem_of_singleton. apply list_elem_of_bind. eexists; split; [|exact Hd]; left.
    + by intros i ?%elem_of_nil.
    + by intros c' [= ->].
  - apply spawn_inv; try done.
    + by intros c ?%elem_of_nil.
    + intros i. simpl. unfold shard_positions. rewrite elem_of_seq. lia.
    + intros t0 u0 idxs cs [= <- <- <- <-]. done.
  - apply spawn_inv; try done; by intros ? ?%elem_of_nil.
  - apply spawn_inv; try done; [by intros ? ?%elem_of_nil|]. intros i. simpl. unfold shard_positions. rewrite elem_of_seq. lia.
  - apply spawn_inv; try done; by intros ? ?%elem_of_nil.
  - pose proof (atomic_inv excl ts h j q Hj Hi) as Hw. unfold wp in Hw. by rewrite E in Hw.
Qed.

Lemma start_conc_inv excl n limits : n < 2 ^ 32 → conc_inv excl [] (NewHub n limits).
Proof.
  intros Hn. destruct (NewHub_inv n limits Hn) as [Hr _ _ Hst _ Hq Hl].
  exists (λ _ _, False), (λ _ _, False), []. split.
  - split; simpl; try done; try (by intros ? ?%elem_of_nil); try apply NoDup_nil_2.
    + eapply hub_rel_ext; [| |exact Hr]; unfold subscribed, listed.
      * intros k c. rewrite elem_of_nil. tauto.
      * intros i c. rewrite elem_of_nil. tauto.
    + by intros q t u idxs cs c ?%elem_of_nil.
    + intros c. rewrite elem_of_nil. tauto.
  - intros _. split; simpl; intros; exfalso; try done; match goal with Hn : _ ∈ [] |- _ => by apply elem_of_nil in Hn end.
Qed.

Lemma conc_reachable excl n limits ts h :
  n < 2 ^ 32 → rtc (cstep excl) ([], NewHub n limits) (ts, h) → conc_inv excl ts h.
Proof.
  intros Hn Hrun.
  assert (∀ x y, rtc (cstep excl) x y → conc_inv excl x.1 x.2 → conc_inv excl y.1 y.2) as Hsteps
    by (induction 1; eauto using cstep_inv).
  by apply (Hsteps _ _ Hrun), start_conc_inv.
Qed.

(** ** Theorems *)

(** C28: the quota under races: whatever the interleaving of registrations,
    deferred [Unregister] calls, concurrent revocations of the same
    connections, broadcasts, heartbeats and the closing of the hub, no
    operation panics, and the counters describe exactly the admitted
    connections that nobody has marked or whose marker has yet to release
    them, within the ceilings: no quota is released twice or lost. *)
Theorem quota_exact_under_races excl n limits ts h :
  n < 2 ^ 32 → rtc (cstep excl) ([], NewHub n limits) (ts, h) →
  (∃ O, NoDup O ∧ quota_inv (session_of <$> O) (quotas h) ∧ limits_ok (Hub.limits h) (session_of <$> O)
     ∧ ∀ c, c ∈ O ↔ c ∈ ts ≫= admitted ∧ (flagged h c = false ∨ c ∈ ts ≫= duty))
  ∧ ∀ q, q ∈ ts → is_Some (hub_atomic q h).
Proof.
  intros Hn Hrun. pose proof (conc_reachable excl n limits ts h Hn Hrun) as Hi. split.
  - destruct Hi as (P & Q & O & Hc & _). exists O. split; [apply Hc|]. split; [apply Hc|]. split; [|apply Hc].
    rewrite <- (k_limits _ _ _ _ _ Hc). apply (k_quota _ _ _ _ _ Hc).
  - intros q (j & Hj)%list_elem_of_lookup. destruct (wp_run _ _ _ (atomic_inv excl ts h j q Hj Hi)) as (q' & h' & -> & _). eauto.
Qed.

Lemma quiet_views ts :
  Forall (λ q, returned q = true) ts →
  ts ≫= duty = [] ∧ (∀ k c, ¬ will_remove ts k c) ∧ (∀ i c, ¬ will_visit ts i c) ∧ (∀ c, ¬ will_mark ts c)
  ∧ ∀ k c, ¬ will_insert ts k c.
Proof.
  rewrite Forall_forall. intros Hr. split_and!.
  - destruct (ts ≫= duty) as [|c l] eqn:E; [done|]. assert (c ∈ ts ≫= duty) as Hin by (rewrite E; left).
    apply list_elem_of_bind in Hin as (q & Hc & Hq%Hr). by destruct q; simpl in *; try apply elem_of_nil in Hc.
  - intros k c (q & rest & Hq & E & _). apply Hr in Hq. by destruct q.
  - intros i c (q & t & u & idxs & cs & Hq & E & _). apply Hr in Hq. by destruct q.
  - intros c (q & t & u & idxs & cs & Hq & E & _). apply Hr in Hq. by destruct q.
  - intros k c (q & rest & Hq & E & _). apply Hr in Hq. by destruct q.
Qed.

Lemma NoDup_fmap_sub {A B} (f : A → B) (l l' : list A) : NoDup (f <$> l) → NoDup l' → l' ⊆ l → NoDup (f <$> l').
Proof.
  intros Hf Hl Hsub. apply NoDup_fmap_2_strong; [|done]. intros x y Hx Hy. apply (NoDup_fmap_inj_in f l); auto.
Qed.

(** C29: what the discipline buys: if revocations and registrations of a user
    exclude each other, then whenever no call is in progress the shards, the
    flags and the counters describe one and the same set of live connections,
    that of the connections nobody has marked: the hub is in a state of the
    sequential specification. *)
Theorem exclusion_restores_registry n limits ts h :
  n < 2 ^ 32 → rtc (cstep true) ([], NewHub n limits) (ts, h) → Forall (λ q, returned q = true) ts →
  ∃ L, hub_inv L h ∧ ∀ c, c ∈ L ↔ c ∈ ts ≫= admitted ∧ flagged h c = false.
Proof.
  intros Hn Hrun Hquiet. destruct (conc_reachable true n limits ts h Hn Hrun) as (P & Q & L & Hc & He). specialize (He eq_refl).
  destruct (quiet_views ts Hquiet) as (Hd & Hnr & Hnv & Hnm & Hni).
  assert (∀ c, c ∈ L ↔ c ∈ ts ≫= admitted ∧ flagged h c = false) as HL.
  { intros c. rewrite (k_holds _ _ _ _ _ Hc c), Hd, elem_of_nil. tauto. }
  assert (L ⊆ ts ≫= regs) as Hsub by (intros c [? _]%HL; by apply admitted_known).
  assert (∀ c, c ∈ ts ≫= admitted → flagged h c = true ∨ flagged h c = false) as Hb by (intros c _; destruct (flagged h c); auto).
  exists L. split; [|done]. split; try apply Hc.
  - eapply hub_rel_ext; [| |apply Hc].
    + intros k c. unfold subscribed. rewrite HL. split.
      * intros HP. pose proof (k_topic _ _ _ _ _ Hc k c HP) as Ha. destruct (e_topic _ _ _ _ He k c HP) as [? _]. split; [|done].
        split; [done|]. destruct (Hb c Ha) as [Hf|?]; [|done]. destruct (e_flagP _ _ _ _ He k c HP Hf) as [?%Hnr|?%Hnv]; done.
      * intros [[Ha Hf] Hk]. destruct (e_complete _ _ _ _ He c k Ha Hf Hk) as [?%Hni|[[? _]|?%Hnm]]; done.
    + intros i c. unfold listed. rewrite HL. split.
      * intros HQ. pose proof (k_listed _ _ _ _ _ Hc i c HQ) as Ha. destruct (e_listed _ _ _ _ He i c HQ) as (k & ? & ?). split; [|eauto].
        split; [done|]. destruct (Hb c Ha) as [Hf|?]; [|done]. destruct (e_flagQ _ _ _ _ He i c HQ Hf) as [(k' & ?%Hnr & _)|?%Hnv]; done.
      * intros [[Ha Hf] (k & Hk & <-)]. destruct (e_complete _ _ _ _ He c k Ha Hf Hk) as [?%Hni|[[_ ?]|?%Hnm]]; done.
  - by eapply NoDup_fmap_sub; [apply Hc|apply Hc|].
  - by eapply NoDup_fmap_sub; [apply Hc|apply Hc|].
  - intros c [Ha Hf]%HL. destruct (admitted_store ts h P Q L Hc c Ha) as (s & ? & _ & Hu). exists s. split; [done|congruence].
Qed.

(** ** A call alone is the method of [Hub.v] *)
Definition solo : hpc * Hub → hpc * Hub → Prop := rtc (λ x y, hub_atomic x.1 x.2 = Some y).

Local Instance solo_trans : Transitive solo.
Proof. intros x y z. apply rtc_trans. Qed.

Lemma solo_step q h q' h' y : hub_atomic q h = Some (q', h') → solo (q', h') y → solo (q, h) y.
Proof. intros E Hy. by eapply rtc_l. Qed.

Lemma solo_insert c keys h h' :
  for_range keys (λ rKey, i ← getShard rKey; on_shard i (λ s, ((), Shard.Register rKey c s))) h = Some ((), h') →
  solo (RegInsert c keys, h) (RegDone (Ok ()) c, h').
Proof.
  revert h. induction keys as [|k keys IH]; intros h; simpl.
  - intros [= <-]. by eapply solo_step; [|apply rtc_refl].
  - unfold mbind at 1, M_bind at 1. destruct ((i ← getShard k; _) h) as [[[] h1]|] eqn:E; [|done]. intros Hr.
    eapply solo_step; [|by apply IH]. simpl. unfold mbind at 1, M_bind at 1. by rewrite E.
Qed.

Lemma solo_remove c keys h h' :
  for_range keys (λ topic, i ← getShard topic; on_shard i (λ s, ((), Shard.Unregister topic (ID c) s))) h = Some ((), h') →
  solo (UnRemove c keys, h) (UnRelease c, h').
Proof.
  revert h. induction keys as [|k keys IH]; intros h; simpl.
  - intros [= <-]. by eapply solo_step; [|apply rtc_refl].
  - unfold mbind at 1, M_bind at 1. destruct ((i ← getShard k; _) h) as [[[] h1]|] eqn:E; [|done]. intros Hr.
    eapply solo_step; [|by apply IH]. simpl. unfold mbind at 1, M_bind at 1. by rewrite E.
Qed.

Lemma solo_revoke t u cs idxs n h m h' :
  close_matched cs h = Some (m, h') → solo (InvMark t u cs idxs n, h) (InvMark t u [] idxs (n + m), h').
Proof.
  revert n h m. induction cs as [|c cs IH]; intros n h m; simpl.
  - intros [= <- <-]. rewrite Z.add_0_r. apply rtc_refl.
  - unfold revoke_client, mbind, M_bind. destruct (on_client c MarkUnregistered h) as [[[] h1]|] eqn:E1; [| |done].
    + destruct (on_client c Client.Close h1) as [[[] h2]|] eqn:E2; [|done]. simpl.
      destruct (close_matched cs _) as [[m' h3]|] eqn:E3; [|done]. intros [= <- <-].
      eapply solo_step; [simpl; unfold mbind, M_bind; by rewrite E1|]. simpl.
      eapply solo_step; [simpl; unfold mbind, M_bind; by rewrite E2|].
      eapply solo_step; [done|]. replace (n + (1 + m')) with (n + 1 + m') by lia. by apply IH.
    + simpl. destruct (close_matched cs h1) as [[m' h3]|] eqn:E3; [|done]. intros [= <- <-].
      eapply solo_step; [simpl; unfold mbind, M_bind; by rewrite E1|]. simpl. replace (n + (0 + m')) with (n + m') by lia. by apply IH.
Qed.

Lemma solo_invalidate t u idxs n h m h' :
  invalidate_shards t u idxs h = Some (m, h') → solo (InvShard t u idxs n, h) (InvDone (n + m), h').
Proof.
  revert n h m. induction idxs as [|i idxs IH]; intros n h m; simpl.
  - intros [= <- <-]. rewrite Z.add_0_r. by eapply solo_step; [|apply rtc_refl].
  - unfold mbind, M_bind. destruct (on_shard i (Shard.InvalidateUser t u) h) as [[matched h1]|] eqn:E1; [|done].
    destruct (close_matched matched h1) as [[m1 h2]|] eqn:E2; [|done].
    destruct (invalidate_shards t u idxs h2) as [[m2 h3]|] eqn:E3; [|done]. intros [= <- <-].
    eapply solo_step; [simpl; unfold mbind, M_bind; by rewrite E1|].
    etrans; [by apply solo_revoke|]. eapply solo_step; [done|].
    replace (n + (m1 + m2)) with (n + m1 + m2) by lia. by apply IH.
Qed.

(** A call that runs alone does what the method of [Hub.v] does: the
    operations of [hub_atomic] compose to [Register], [Unregister] and
    [InvalidateUser], results included. *)
Theorem calls_alone_are_the_methods h h' :
  (∀ c r, Register c (Topics c) h = Some (r, h') → solo (RegCheck c, h) (RegDone r c, h'))
  ∧ (∀ c, Unregister (Some c) h = Some ((), h') → solo (UnMark c, h) (UnDone, h'))
  ∧ (∀ t u n, InvalidateUser t u h = Some (n, h') → solo (InvShard t u (shard_positions h) 0, h) (InvDone n, h')).
Proof.
  split_and!.
  - intros c r. unfold Register, gets, mbind, M_bind. destruct (hub_closed h) eqn:Ec.
    { intros [= <- <-]. eapply solo_step; [simpl; unfold gets, mbind, M_bind; by rewrite Ec|apply rtc_refl]. }
    case_decide as Ed.
    { intros [= <- <-]. eapply solo_step; [simpl; unfold gets, mbind, M_bind; by rewrite Ec, decide_True|apply rtc_refl]. }
    destruct (quota_acquire (TenantID c) (UserID c) h) as [[r1 h1]|] eqn:Eq; [|done]. intros Hr.
    eapply solo_step; [simpl; unfold gets, mbind, M_bind; by rewrite Ec, decide_False|].
    eapply solo_step; [simpl; unfold mbind, M_bind; by rewrite Eq|]. destruct r1 as [[]|e].
    + destruct (for_range _ _ h1) as [[[] h2]|] eqn:Ef; [|done]. injection Hr as <- <-. by apply solo_insert.
    + injection Hr as <- <-. apply rtc_refl.
  - intros c. unfold Unregister, mbind, M_bind. destruct (on_client c MarkUnregistered h) as [[[] h1]|] eqn:E1; [| |done].
    + destruct (on_client c Client.Close h1) as [[[] h2]|] eqn:E2; [|done].
      destruct (for_range _ _ h2) as [[[] h3]|] eqn:Ef; [|done]. intros [= <-].
      eapply solo_step; [simpl; unfold mbind, M_bind; by rewrite E1|].
      eapply solo_step; [simpl; unfold mbind, M_bind; by rewrite E2|].
      etrans; [by apply solo_remove|]. by eapply solo_step; [|apply rtc_refl].
    + intros [= <-]. eapply solo_step; [simpl; unfold mbind, M_bind; by rewrite E1|apply rtc_refl].
  - intros t u n. unfold InvalidateUser, gets, mbind, M_bind. intros E. by apply (solo_invalidate t u _ 0 h n h').
Qed.
End conc.

(** ** Concrete schedules *)
Inductive cact := AConnect (c : Client) | AUnregister (c : Client) | AInvalidate (t u : gostring) | ABroadcast (k : gostring) (frame : Frame) | ARun (j : nat).

Section schedule.
Context `{!GoRange}.

Definition succeeded (c : Client) (q : hpc) : bool :=
  match q with RegDone (Ok _) c' => bool_decide (c' = c) | _ => false end.

(** The checks of the discipline. *)
Definition revoking (c : Client) (q : hpc) : bool :=
  match revokes q with Some (t, u, _, _) => bool_decide (user_match t u c) | None => false end.
Definition registering (t u : gostring) (q : hpc) : bool := bool_decide (Exists (user_match t u) (active q)).

(** One action; the new client is one of [NewClient]'s. *)
Definition run_cact (excl : bool) (a : cact) (x : list hpc * Hub) : option (list hpc * Hub) :=
  let '(ts, h) := x in
  match a with
  | AConnect c =>
      match store h !! ptr c with
      | Some _ => None
      | None =>
          if decide (ID c ∉ ID <$> (ts ≫= regs) ∧ SlowPolicy c ≠ [] ∧ (excl && existsb (revoking c) ts) = false) then
            let s := (NewClient (ptr c) (ID c) (UserID c) (TenantID c) (Topics c) 4 (SlowPolicy c) (onSlow c)).2 in
            Some (ts ++ [RegCheck c], upd_store (<[ptr c := s]>) h)
          else None
      end
  | AUnregister c => if existsb (succeeded c) ts then Some (ts ++ [UnMark c], h) else None
  | AInvalidate t u => if excl && existsb (registering t u) ts then None else Some (ts ++ [InvShard t u (shard_positions h) 0], h)
  | ABroadcast k frame => Some (ts ++ [FanLookup k frame], h)
  | ARun j => q ← ts !! j; '(q', h') ← hub_atomic q h; Some (<[j := q']> ts, h')
  end.
Fixpoint run_cacts (excl : bool) (l : list cact) (x : list hpc * Hub) : option (list hpc * Hub) :=
  match l with [] => Some x | a :: l' => y ← run_cact excl a x; run_cacts excl l' y end.

Lemma existsb_false {A} (f : A → bool) (l : list A) x : existsb f l = false → x ∈ l → f x = false.
Proof. intros Hf Hx. destruct (f x) eqn:E; [|done]. rewrite <- Hf. symmetry. apply existsb_exists. exists x. by rewrite <- list_elem_of_In. Qed.

Lemma run_cact_step excl a x y : run_cact excl a x = Some y → cstep excl x y.
Proof.
  destruct x as [ts h], a as [c|c|t u|k frame|j]; simpl.
  - destruct (store h !! ptr c) eqn:Es; [done|]. case_decide as Hd; [|done]. intros [= <-]. destruct Hd as (Hid & Hp & Hx).
    apply c_connect; [done..| |].
    2: { intros -> q t u idxs cs Hq Hr Hm. simpl in Hx. pose proof (existsb_false _ _ q Hx Hq) as E. unfold revoking in E.
         rewrite Hr in E. by apply bool_decide_eq_false in E. }
    exists 4, (onSlow c). unfold NewClient. rewrite (decide_False (P := SlowPolicy c = [])) by done.
    by destruct c.
  - destruct (existsb _ ts) eqn:Ee; [|done]. intros [= <-]. apply c_unregister.
    apply existsb_exists in Ee as (q & Hq & Hs). destruct q as [| | |[[]|]| | | | | | | | | | | | | | | | |]; try done.
    apply bool_decide_eq_true in Hs as ->. by apply list_elem_of_In.
  - destruct (excl && _) eqn:Hx; [done|]. intros [= <-]. apply c_invalidate. intros -> q c Hq Hc Hm. simpl in Hx.
    pose proof (existsb_false _ _ q Hx Hq) as E. apply bool_decide_eq_false in E. apply E, Exists_exists. eauto.
  - intros [= <-]. apply c_broadcast.
  - destruct (ts !! j) as [q|] eqn:Ej; [|done]. simpl. destruct (hub_atomic q h) as [[q' h']|] eqn:E; [|done].
    intros [= <-]. by eapply c_run.
Qed.

Lemma run_cacts_steps excl l x y : run_cacts excl l x = Some y → rtc (cstep excl) x y.
Proof.
  revert x. induction l as [|a l IH]; intros x; simpl; [intros [= ->]; apply rtc_refl|].
  destruct (run_cact excl a x) as [z|] eqn:E; [|done]. simpl. intros Hy. eapply rtc_l; [by eapply run_cact_step|auto].
Qed.
End schedule.

(** A client with two topics registers; between its two insertions a
    revocation of its user runs to its end; then the registration goes on, and
    the handler's [Unregister] finds the client marked. *)
Definition race_client : Client :=
  mkClient 1 (str "c1") (str "bob") (str "acme") [str "t1"; str "t2"] SlowPolicyDisconnect false.
Definition race_schedule : list cact :=
  [AConnect race_client; ARun 0; ARun 0; ARun 0; AInvalidate (str "acme") (str "bob")]
  ++ replicate 13 (ARun 1) ++ [ARun 0; ARun 0; AUnregister race_client; ARun 2].
Definition conc_start : list hpc * Hub := ([], NewHub 4 demo_limits).
Definition after (excl : bool) (l : list cact) : list hpc * Hub := default conc_start (run_cacts (H := range_canonical) excl l conc_start).

Lemma after_reached excl l : is_Some (run_cacts (H := range_canonical) excl l conc_start) →
  rtc (cstep (H := range_canonical) excl) conc_start (after excl l).
Proof. intros [y E]. unfold after. rewrite E. by eapply run_cacts_steps. Qed.


(** The same calls one after the other. *)
Definition calm_schedule : list cact :=
  [AConnect race_client] ++ replicate 5 (ARun 0) ++ [AInvalidate (str "acme") (str "bob")] ++ replicate 13 (ARun 1)
  ++ [AUnregister race_client; ARun 2].

Lemma quota_exact_under_races_witness :
  ∃ O, quota_inv (session_of <$> O) (quotas (after false race_schedule).2).
Proof.
  destruct (quota_exact_under_races (H := range_canonical) false 4 demo_limits (after false race_schedule).1
              (after false race_schedule).2) as [(O & _ & HO & _) _]; [lia| |by exists O].
  rewrite <- surjective_pairing. apply after_reached. vm_compute. eauto.
Defined.

Lemma exclusion_restores_registry_witness :
  ∃ L, hub_inv L (after true calm_schedule).2 ∧ HasSubscribers (str "t2") (after true calm_schedule).2
                                                = Some (false, (after true calm_schedule).2).
Proof.
  destruct (exclusion_restores_registry (H := range_canonical) 4 demo_limits (after true calm_schedule).1
              (after true calm_schedule).2) as (L & HL & _).
  - lia.
  - rewrite <- surjective_pairing. apply after_reached. vm_compute. eauto.
  - vm_compute. repeat constructor.
  - exists L. split; [exact HL|]. vm_compute. reflexivity.
Defined.

Lemma calls_alone_are_the_methods_witness :
  ∃ h', Register race_client (Topics race_client) (after false [AConnect race_client]).2 = Some (Ok (), h')
    ∧ solo (H := range_canonical) (RegCheck race_client, (after false [AConnect race_client]).2) (RegDone (Ok ()) race_client, h').
Proof.
  assert (is_Some (Register race_client (Topics race_client) (after false [AConnect race_client]).2)) as [[r h'] E]
    by (vm_compute; eauto).
  assert (r = Ok ()) as -> by (apply (f_equal (fmap fst)) in E; vm_compute in E; congruence).
  exists h'. split; [done|]. by apply (calls_alone_are_the_methods (H := range_canonical)).
Defined.
