(* ===== verification/Router.v ===== *)
(** * internal/event/router.go: routing keys

    [NewRouter] turns a key template into an anchored regular expression by
    text substitution; [BuildKey] fills the template, [ParseKey] reads a key
    back.  The regular expressions this produces are sequences of literal bytes
    and of named groups over [[^:]+] or [.+]: [regexp_compile] reads that text
    and [FindStringSubmatch] matches it, leftmost-first and greedy, on bytes. *)

From S2P Require Import Prelude GoStrings.

(** ** The part of package [regexp] in use *)

Definition meta_bytes : gostring := str "\.+*?()|[]{}^$".

(** [regexp.QuoteMeta] *)
Definition QuoteMeta (s : gostring) : gostring :=
  s ≫= λ c, if decide (c ∈ meta_bytes) then str "\" ++ [c] else [c].

Inductive class := NotColon | AnyChar.

Definition class_has (k : class) (c : ascii) : bool :=
  match k with
  | NotColon => bool_decide (c ≠ ":"%char)
  | AnyChar => bool_decide (c ≠ LF)
  end.

Inductive item :=
| Lit (c : ascii)
| Group (name : gostring) (k : class).

Inductive RegexpErr := ErrInvalidUTF8 | ErrDuplicateName.

Fixpoint span_name (s : gostring) : option (gostring * gostring) :=
  match s with
  | [] => None
  | c :: s' => if decide (c = ">"%char) then Some ([], s')
               else '(n, r) ← span_name s'; Some (c :: n, r)
  end.

(** [(?P<name>[^:]+)] or [(?P<name>.+)] at the head of the pattern. *)
Definition parse_group (s : gostring) : option (item * gostring) :=
  r ← CutPrefix s (str "(?P<");
  '(name, r) ← span_name r;
  match CutPrefix r (str "[^:]+)") with
  | Some r => Some (Group name NotColon, r)
  | None => r ← CutPrefix r (str ".+)"); Some (Group name AnyChar, r)
  end.

(** The items of a pattern body; every item takes at least one byte, so the
    length of the text is enough fuel.  [None]: other regular expressions. *)
Fixpoint parse_items (fuel : nat) (s : gostring) : option (list item) :=
  match fuel, s with
  | _, [] => Some []
  | O, _ => None
  | S n, c :: s' =>
      match parse_group s with
      | Some (g, r) => l ← parse_items n r; Some (g :: l)
      | None =>
          if decide (c = "\"%char) then
            match s' with
            | [] => None
            | c' :: s'' => l ← parse_items n s''; Some (Lit c' :: l)
            end
          else if decide (c ∈ meta_bytes) then None
          else l ← parse_items n s'; Some (Lit c :: l)
      end
  end.

Definition group_names (l : list item) : list gostring :=
  omap (λ i, match i with Group n _ => Some n | Lit _ => None end) l.

(** [regexp.Compile] on ["^" ++ body ++ "$"]. *)
Definition regexp_compile (body : gostring) : option (result RegexpErr (list item)) :=
  if ValidString body then
    l ← parse_items (length body) body;
    Some (if decide (NoDup (group_names l)) then Ok l else Err ErrDuplicateName)
  else Some (Err ErrInvalidUTF8).

(** [rx.SubexpIndex(name)]: 1 for the first group, -1 when there is none. *)
Definition SubexpIndex (rx : list item) (name : gostring) : Z :=
  match list_find (eq name) (group_names rx) with
  | Some (i, _) => Z.of_nat i + 1
  | None => -1
  end.

(** Length of the longest prefix over a class. *)
Fixpoint run_length (k : class) (s : gostring) : nat :=
  match s with
  | c :: s' => if class_has k c then S (run_length k s') else 0
  | [] => 0
  end.

(** The first of the lengths [n], [n-1], ..., 1 that lets the rest match. *)
Fixpoint try_lengths {A} (n : nat) (f : nat → option A) : option A :=
  match n with
  | O => None
  | S n' => match f n with Some a => Some a | None => try_lengths n' f end
  end.

(** Anchored match: the texts of the groups, in order. *)
Fixpoint match_items (rx : list item) (s : gostring) : option (list gostring) :=
  match rx with
  | [] => if decide (s = []) then Some [] else None
  | Lit c :: rx' =>
      match s with
      | c' :: s' => if decide (c = c') then match_items rx' s' else None
      | [] => None
      end
  | Group _ k :: rx' =>
      try_lengths (run_length k s) (λ n, m ← match_items rx' (drop n s); Some (take n s :: m))
  end.

Definition FindStringSubmatch (rx : list item) (s : gostring) : option (list gostring) :=
  m ← match_items rx s; Some (s :: m).

(** ** The router *)
Record Router := mkRouter {
  template : gostring;
  matcherRegex : list item;
  tenantIdx : Z;
  appIdx : Z;
  topicIdx : Z;
}.

Definition default_template : gostring := str "tenant:{tenant}:app:{app}:topic:{topic}".

Definition tenant_group : gostring := str "(?P<tenant>[^:]+)".
Definition app_group : gostring := str "(?P<app>[^:]+)".
Definition topic_group : gostring := str "(?P<topic>.+)".

Definition router_pattern (template : gostring) : gostring :=
  let pattern := QuoteMeta template in
  let pattern := ReplaceAll pattern (str "\{tenant\}") tenant_group in
  let pattern := ReplaceAll pattern (str "\{app\}") app_group in
  ReplaceAll pattern (str "\{topic\}") topic_group.

Definition NewRouter (template : gostring) : option (result RegexpErr Router) :=
  let template := if decide (template = []) then default_template else template in
  rx ← regexp_compile (router_pattern template);
  Some (match rx with
        | Err e => Err e
        | Ok rx => Ok (mkRouter template rx (SubexpIndex rx (str "tenant"))
                         (SubexpIndex rx (str "app")) (SubexpIndex rx (str "topic")))
        end).

Definition sanitizeKeyPart (s : gostring) : gostring := ReplaceAll s (str ":") (str "_").

Definition BuildKey (r : Router) (tenantID appID topicID : gostring) : gostring :=
  let res := ReplaceAll (template r) (str "{tenant}") (sanitizeKeyPart tenantID) in
  let res := ReplaceAll res (str "{app}") (sanitizeKeyPart appID) in
  ReplaceAll res (str "{topic}") topicID.

(** [if idx > 0 && idx < len(matches) { out = matches[idx] }] *)
Definition pick (matches : list gostring) (idx : Z) : gostring :=
  if decide (0 < idx < Z.of_nat (length matches))%Z
  then default [] (matches !! Z.to_nat idx) else [].

Definition ParseKey (r : Router) (key : gostring) : gostring * gostring * gostring * bool :=
  match FindStringSubmatch (matcherRegex r) key with
  | None => ([], [], [], false)
  | Some matches => (pick matches (tenantIdx r), pick matches (appIdx r), pick matches (topicIdx r), true)
  end.

Definition default_router : Router :=
  Eval vm_compute in
    match NewRouter [] with
    | Some (Ok r) => r
    | _ => mkRouter [] [] 0 0 0
    end.

Lemma default_router_eq : NewRouter [] = Some (Ok default_router).
Proof. vm_compute. reflexivity. Qed.

Lemma default_router_rx :
  matcherRegex default_router =
    (Lit <$> str "tenant:") ++ [Group (str "tenant") NotColon] ++ (Lit <$> str ":app:")
    ++ [Group (str "app") NotColon] ++ (Lit <$> str ":topic:") ++ [Group (str "topic") AnyChar].
Proof. vm_compute. reflexivity. Qed.

(** ** Filling the default template *)

Definition canonical_key (tenantID appID topicID : gostring) : gostring :=
  str "tenant:" ++ tenantID ++ str ":app:" ++ appID ++ str ":topic:" ++ topicID.

Lemma sanitize_no_colon s : ":"%char ∉ sanitizeKeyPart s.
Proof.
  intros [[_ H]|H]%elem_of_ReplaceAll_byte; [done|]. revert H. by_decide.
Qed.

Lemma sanitize_id s : ":"%char ∉ s → sanitizeKeyPart s = s.
Proof. apply ReplaceAll_id. Qed.

Lemma sanitize_no_brace s : "{"%char ∉ s → "{"%char ∉ sanitizeKeyPart s.
Proof. intros Hs [[H _]|H]%elem_of_ReplaceAll_byte; [done|]. revert H. by_decide. Qed.

Lemma BuildKey_default t a p :
  "{"%char ∉ t → "{"%char ∉ a →
  BuildKey default_router t a p = canonical_key (sanitizeKeyPart t) (sanitizeKeyPart a) p.
Proof.
  intros Ht%sanitize_no_brace Ha%sanitize_no_brace. unfold BuildKey.
  generalize dependent (sanitizeKeyPart a). generalize dependent (sanitizeKeyPart t). clear t a.
  intros t Ht a Ha. change (str "{app}") with ("{"%char :: str "app}").
  change (str "{topic}") with ("{"%char :: str "topic}").
  assert (∀ s, "{"%char ∉ str "tenant:" ++ s ↔ "{"%char ∉ s) as Hpre.
  { intros s. rewrite not_elem_of_app. split; [tauto|]. split; [by_decide|done]. }
  transitivity (ReplaceAll (ReplaceAll ((str "tenant:" ++ t) ++ str ":app:{app}:topic:{topic}")
    ("{"%char :: str "app}") a) ("{"%char :: str "topic}") p).
  { reflexivity. }
  rewrite ReplaceAll_clean by by apply Hpre.
  change (ReplaceAll (str ":app:{app}:topic:{topic}") ("{"%char :: str "app}") a)
    with (str ":app:" ++ a ++ str ":topic:{topic}").
  transitivity (ReplaceAll ((str "tenant:" ++ t ++ str ":app:" ++ a) ++ str ":topic:{topic}")
    ("{"%char :: str "topic}") p); [by rewrite <- !(assoc_L (++))|].
  rewrite ReplaceAll_clean by (rewrite !not_elem_of_app; split_and!; try done; by_decide).
  change (ReplaceAll (str ":topic:{topic}") ("{"%char :: str "topic}") p) with (str ":topic:" ++ p ++ []).
  unfold canonical_key. by rewrite app_nil_r, <- !(assoc_L (++)).
Qed.

(** ** Matching *)

Lemma match_lits l rx s : match_items ((Lit <$> l) ++ rx) (l ++ s) = match_items rx s.
Proof. induction l as [|c l IH]; [done|]. simpl. by rewrite decide_True by done. Qed.

Lemma run_length_stop k s c r :
  Forall (λ x, class_has k x = true) s → class_has k c = false → run_length k (s ++ c :: r) = length s.
Proof. induction 1 as [|x s Hx _ IH]; intros Hc; simpl; [by rewrite Hc|]. rewrite Hx. by f_equal; apply IH. Qed.

Lemma run_length_all k s : Forall (λ x, class_has k x = true) s → run_length k s = length s.
Proof. induction 1 as [|x s Hx _ IH]; simpl; [done|]. by rewrite Hx, IH. Qed.

(** A group whose text is as long as its class allows matches at once. *)
Lemma match_group name k rx s r m :
  s ≠ [] → run_length k (s ++ r) = length s → match_items rx r = Some m →
  match_items (Group name k :: rx) (s ++ r) = Some (s :: m).
Proof.
  intros Hs Hrun Hm. cbn [match_items]. rewrite Hrun.
  destruct (length s) as [|n] eqn:E; [by apply nil_length_inv in E|]. cbn [try_lengths].
  rewrite <- E, drop_app_length, take_app_length, Hm. done.
Qed.

Lemma not_colon_class s : ":"%char ∉ s → Forall (λ x, class_has NotColon x = true) s.
Proof. intros Hs. apply Forall_forall. intros x Hx. simpl. apply bool_decide_eq_true_2. by intros ->. Qed.

Lemma any_class s : LF ∉ s → Forall (λ x, class_has AnyChar x = true) s.
Proof. intros Hs. apply Forall_forall. intros x Hx. simpl. apply bool_decide_eq_true_2. by intros ->. Qed.

Lemma match_canonical t a p :
  ":"%char ∉ t → ":"%char ∉ a → LF ∉ p → t ≠ [] → a ≠ [] → p ≠ [] →
  FindStringSubmatch (matcherRegex default_router) (canonical_key t a p)
    = Some [canonical_key t a p; t; a; p].
Proof.
  intros Ht Ha Hp Ht0 Ha0 Hp0. unfold FindStringSubmatch.
  assert (match_items (matcherRegex default_router) (canonical_key t a p) = Some [t; a; p]) as ->; [|done].
  rewrite default_router_rx. unfold canonical_key. rewrite match_lits.
  apply match_group; [done|apply (run_length_stop NotColon t ":"%char); [by apply not_colon_class|done]|].
  rewrite match_lits.
  apply match_group; [done|apply (run_length_stop NotColon a ":"%char); [by apply not_colon_class|done]|].
  rewrite match_lits. rewrite <- (app_nil_r p) at 1.
  apply match_group; [done| |done]. rewrite app_nil_r. apply run_length_all. by apply any_class.
Qed.

Lemma sanitize_nonempty s : s ≠ [] → sanitizeKeyPart s ≠ [].
Proof.
  unfold sanitizeKeyPart. change (str ":") with [":"%char]. rewrite ReplaceAll_byte.
  destruct s as [|c s]; [done|]. intros _. simpl. by case_decide.
Qed.

(** With the default template, [ParseKey] reads back what [BuildKey] wrote:
    the sanitised tenant and application and the topic, whenever tenant and
    application contain no brace, the topic no line feed, and none is empty. *)
Theorem key_roundtrip t a p :
  "{"%char ∉ t → "{"%char ∉ a → LF ∉ p → t ≠ [] → a ≠ [] → p ≠ [] →
  ∃ r, NewRouter [] = Some (Ok r)
    ∧ ParseKey r (BuildKey r t a p) = (sanitizeKeyPart t, sanitizeKeyPart a, p, true).
Proof.
  intros Ht Ha Hp Ht0 Ha0 Hp0. exists default_router. split; [apply default_router_eq|].
  unfold ParseKey. rewrite BuildKey_default by done.
  by rewrite match_canonical by auto using sanitize_no_colon, sanitize_nonempty.
Qed.

Lemma key_roundtrip_witness :
  ∃ r, NewRouter [] = Some (Ok r)
    ∧ ParseKey r (BuildKey r (str "acme:eu") (str "crm") (str "orders:42"))
      = (str "acme_eu", str "crm", str "orders:42", true).
Proof. apply (key_roundtrip (str "acme:eu") (str "crm") (str "orders:42")); by_decide. Defined.

(** ** Isolation *)

(** Two texts cut at their first colon. *)
Lemma cut_first_colon (s s' r r' : gostring) :
  ":"%char ∉ s → ":"%char ∉ s' → s ++ ":"%char :: r = s' ++ ":"%char :: r' → s = s' ∧ r = r'.
Proof.
  revert s'. induction s as [|c s IH]; intros [|c' s'] Hs Hs'; simpl; intros E; simplify_eq; [done|set_solver..|].
  destruct (IH s') as [-> ->]; [set_solver..|done].
Qed.

Lemma canonical_key_inj t a p t' a' p' :
  ":"%char ∉ t → ":"%char ∉ a → ":"%char ∉ t' → ":"%char ∉ a' →
  canonical_key t a p = canonical_key t' a' p' → t = t' ∧ a = a' ∧ p = p'.
Proof.
  intros Ht Ha Ht' Ha' E. unfold canonical_key in E. apply app_inv_head in E.
  change (str ":app:" ++ ?x) with (":"%char :: str "app:" ++ x) in E.
  apply cut_first_colon in E as [-> E]; [|done..]. apply app_inv_head in E.
  change (str ":topic:" ++ ?x) with (":"%char :: str "topic:" ++ x) in E.
  apply cut_first_colon in E as [-> E]; [|done..]. by apply app_inv_head in E as ->.
Qed.

(** C34: with the default template, two subscriptions share a routing key only
    if they name the same tenant, application and topic, for identifiers with
    no colon and no opening brace; the topic is unrestricted. *)
Theorem key_isolation t a p t' a' p' :
  Forall (λ s, ":"%char ∉ s ∧ "{"%char ∉ s) [t; a; t'; a'] →
  BuildKey default_router t a p = BuildKey default_router t' a' p' → t = t' ∧ a = a' ∧ p = p'.
Proof.
  rewrite !Forall_cons. intros ([? ?] & [? ?] & [? ?] & [? ?] & _).
  rewrite !BuildKey_default, !sanitize_id by done. by apply canonical_key_inj.
Qed.

Lemma key_isolation_witness :
  str "a" = str "a" ∧ str "b" = str "b" ∧ str "c:{app}" = str "c:{app}".
Proof.
  apply (key_isolation (str "a") (str "b") (str "c:{app}") (str "a") (str "b") (str "c:{app}"));
    [by_decide|reflexivity].
Defined.

(** Outside those identifiers the isolation fails: a colon is rewritten to
    an underscore that another tenant may have, and a tenant named after the
    application placeholder is filled with the application of the event. *)
Theorem key_collisions :
  BuildKey default_router (str "acme:eu") (str "crm") (str "x")
    = BuildKey default_router (str "acme_eu") (str "crm") (str "x")
  ∧ BuildKey default_router (str "{app}") (str "acme") (str "x")
    = BuildKey default_router (str "acme") (str "acme") (str "x").
Proof. split; vm_compute; reflexivity. Qed.

(** ** Every template compiles

    The pattern text of any template lies in the fragment [regexp_compile]
    reads: a sequence of plain bytes, escaped bytes and the three groups. *)
Definition group_texts : list gostring := [tenant_group; app_group; topic_group].

Inductive tokens : gostring → Prop :=
| tok_nil : tokens []
| tok_plain c s : c ∉ meta_bytes → tokens s → tokens (c :: s)
| tok_escaped c s : c ∈ meta_bytes → tokens s → tokens ("\"%char :: c :: s)
| tok_group g s : g ∈ group_texts → tokens s → tokens (g ++ s).

Lemma QuoteMeta_tokens s : tokens (QuoteMeta s).
Proof.
  unfold QuoteMeta. induction s as [|c s IH]; [constructor|]. cbn [mbind list_bind].
  case_decide; simpl; by constructor.
Qed.

Lemma group_head g : g ∈ group_texts → ∃ r, g = "("%char :: r ∧ "\"%char ∉ g.
Proof.
  intros Hg. repeat (apply elem_of_cons in Hg as [->|Hg]); [| | |by apply elem_of_nil in Hg];
    eexists; (split; [reflexivity|]); by_decide.
Qed.

(** What follows a plain, an escaped byte. *)
Lemma tokens_plain_inv c s : c ∉ meta_bytes → tokens (c :: s) → tokens s.
Proof.
  intros Hc H. inversion H as [|c' s' ? ?|c' s' ? ?|g s' Hg ? E]; simplify_eq; [done|by destruct Hc; by_decide|].
  destruct (group_head g Hg) as (r & -> & _). simplify_eq/=. destruct Hc. by_decide.
Qed.

Lemma tokens_escaped_inv c s : tokens ("\"%char :: c :: s) → tokens s ∧ c ∈ meta_bytes.
Proof.
  intros H. inversion H as [|c' s' Hc ?|c' s' ? ?|g s' Hg ? E]; simplify_eq; [destruct Hc; by_decide|done|].
  by destruct (group_head g Hg) as (r & -> & _).
Qed.

Lemma tokens_word_inv w s : Forall (λ c, c ∉ meta_bytes) w → tokens (w ++ s) → tokens s.
Proof. induction 1; [done|]. simpl. eauto using tokens_plain_inv. Qed.

Lemma tokens_no_brace s : ¬ tokens ("{"%char :: s).
Proof.
  intros H. inversion H as [|c' s' Hc ?|c' s' ? ?|g s' Hg ? E]; simplify_eq; [destruct Hc; by_decide|].
  by destruct (group_head g Hg) as (r & -> & _).
Qed.

Section replace_tokens.
Context (w new : gostring) (Hw : Forall (λ c, c ∉ meta_bytes) w) (Hnew : new ∈ group_texts).
Let old : gostring := "\"%char :: "{"%char :: w ++ str "\}".

Lemma tokens_old_inv s : tokens (old ++ s) → tokens s.
Proof.
  unfold old. simpl. intros [H _]%tokens_escaped_inv. rewrite <- (assoc_L (++)) in H.
  apply tokens_word_inv in H; [|done]. by apply tokens_escaped_inv in H as [? _].
Qed.

Lemma ReplaceAll_tokens s : tokens s → tokens (ReplaceAll s old new).
Proof.
  remember (length s) as n eqn:Hn. revert s Hn.
  induction n as [n IH] using lt_wf_ind. intros s -> H.
  destruct H as [|c s Hc H|c s Hc H|g s Hg H].
  - constructor.
  - change (c :: s) with ([c] ++ s). unfold old. rewrite ReplaceAll_clean.
    + simpl. constructor; [done|]. eapply IH; [|done..]. simpl. lia.
    + intros Hin%list_elem_of_singleton; subst c. destruct Hc. by_decide.
  - destruct (HasPrefix ("\"%char :: c :: s) old) eqn:E.
    + apply bool_decide_eq_true_1 in E as [r E%CutPrefix_Some]. rewrite E.
      rewrite (ReplaceAll_match _ _ new r : ReplaceAll (old ++ r) old new = _). apply tok_group; [done|]. eapply IH; [|done|].
      * apply (f_equal length) in E. rewrite E. unfold old. simpl. rewrite !length_app. simpl. lia.
      * apply tokens_old_inv. rewrite <- E. by constructor.
    + unfold ReplaceAll, Replace. cbn [replacer find_match]. rewrite E.
      assert (HasPrefix (c :: s) old = false) as ->.
      { apply bool_decide_eq_false_2. intros [r E'%CutPrefix_Some]. unfold old in E'. simplify_eq/=.
        by eapply tokens_no_brace. }
      constructor; [done|]. eapply IH; [|done..]. simpl. lia.
  - unfold old. rewrite ReplaceAll_clean by (by destruct (group_head g Hg) as (? & _ & ?)).
    apply tok_group; [done|]. eapply IH; [|done..].
    destruct (group_head g Hg) as (r & -> & _). rewrite length_app. simpl. lia.
Qed.
End replace_tokens.

Lemma parse_group_text g s : g ∈ group_texts → ∃ i, parse_group (g ++ s) = Some (i, s).
Proof.
  intros Hg. repeat (apply elem_of_cons in Hg as [->|Hg]); [| | |by apply elem_of_nil in Hg];
    eexists; reflexivity.
Qed.

Lemma parse_group_none c s : c ≠ "("%char → parse_group (c :: s) = None.
Proof. intros Hc. unfold parse_group. simpl. by rewrite decide_False by done. Qed.

Lemma parse_items_tokens n s : tokens s → length s ≤ n → is_Some (parse_items n s).
Proof.
  intros H. revert n. induction H as [|c s Hc H IH|c s Hc H IH|g s Hg H IH]; intros n Hn.
  - by destruct n.
  - destruct n as [|n]; simpl in Hn; [lia|]. cbn [parse_items].
    rewrite parse_group_none by (intros ->; apply Hc; by_decide).
    rewrite !decide_False; [|done|intros ->; apply Hc; by_decide].
    destruct (IH n) as [l ->]; [lia|]. by eexists.
  - destruct n as [|n]; simpl in Hn; [lia|]. cbn [parse_items].
    rewrite parse_group_none by done. rewrite decide_True by done.
    destruct (IH n) as [l ->]; [lia|]. by eexists.
  - destruct (parse_group_text g s Hg) as [i Hi]. destruct (group_head g Hg) as (r & -> & _).
    destruct n as [|n]; simpl in Hn; [lia|]. rewrite length_app in Hn. cbn [app parse_items] in *.
    rewrite Hi. destruct (IH n) as [l ->]; [lia|]. by eexists.
Qed.

(** [NewRouter] always answers: a template that is valid UTF-8 gives a
    router that keeps the template, or the error of a repeated placeholder;
    no other template text makes the compilation fail. *)
Theorem NewRouter_total tpl :
  let t := if decide (tpl = []) then default_template else tpl in
  ∃ res, NewRouter tpl = Some res ∧
    match res with
    | Ok r => template r = t ∧ NoDup (group_names (matcherRegex r))
    | Err ErrInvalidUTF8 => ValidString (router_pattern t) = false
    | Err ErrDuplicateName =>
        ∃ l, parse_items (length (router_pattern t)) (router_pattern t) = Some l ∧ ¬ NoDup (group_names l)
    end.
Proof.
  intros t. unfold NewRouter. fold t.
  assert (tokens (router_pattern t)) as Ht.
  { unfold router_pattern.
    apply (ReplaceAll_tokens (str "topic")); [by_decide|by_decide|].
    apply (ReplaceAll_tokens (str "app")); [by_decide|by_decide|].
    apply (ReplaceAll_tokens (str "tenant")); [by_decide|by_decide|]. apply QuoteMeta_tokens. }
  destruct (parse_items_tokens (length (router_pattern t)) _ Ht) as [l Hl]; [done|].
  unfold regexp_compile. rewrite Hl.
  destruct (ValidString (router_pattern t)) eqn:E; simpl; [case_decide|]; eexists; (split; [done|]); simpl; eauto.
Qed.
