(* ===== verification/Aes.v ===== *)
(** * crypto/aes and crypto/cipher: AES-256-GCM

    The standard-library cipher that [internal/crypto/aes.go] calls:
    [aes.NewCipher] with a 32-byte key, [cipher.NewGCM] (12-byte nonces,
    16-byte tags), [Open], and [Seal] on the producers' side.  Bytes are
    integers in [0, 256) inside this file; the examples at the end are the
    published test vectors. *)

From S2P Require Import Prelude.

Local Open Scope Z_scope.

(** ** The field GF(2^8) and the S-box *)

Definition xtime (a : Z) : Z :=
  let b := Z.shiftl a 1 in if Z.testbit b 8 then Z.lxor b 283 else b.

Fixpoint gmul_bits (n : nat) (a b : Z) : Z :=
  match n with
  | O => 0
  | S n' => Z.lxor (if Z.odd b then a else 0) (gmul_bits n' (xtime a) (Z.shiftr b 1))
  end.
Definition gmul (a b : Z) : Z := gmul_bits 8 a b.

(** The inverse is the 254th power. *)
Definition ginv (a : Z) : Z :=
  let a2 := gmul a a in let a4 := gmul a2 a2 in let a8 := gmul a4 a4 in
  let a16 := gmul a8 a8 in let a32 := gmul a16 a16 in let a64 := gmul a32 a32 in
  let a128 := gmul a64 a64 in
  gmul a2 (gmul a4 (gmul a8 (gmul a16 (gmul a32 (gmul a64 a128))))).

Definition rotl8 (x n : Z) : Z := Z.land (Z.lor (Z.shiftl x n) (Z.shiftr x (8 - n))) 255.

Definition sbox_entry (a : Z) : Z :=
  let x := ginv a in
  Z.lxor 99 (Z.lxor x (Z.lxor (rotl8 x 1) (Z.lxor (rotl8 x 2) (Z.lxor (rotl8 x 3) (rotl8 x 4))))).

Definition sbox_table : list Z := Eval vm_compute in map sbox_entry (seqZ 0 256).
Definition SubByte (a : Z) : Z := nth (Z.to_nat a) sbox_table 0.

(** ** Key expansion: words of four bytes *)

Definition xor_bytes (a b : list Z) : list Z := zip_with Z.lxor a b.

Fixpoint words (n : nat) (l : list Z) : list (list Z) :=
  match n with O => [] | S n' => take 4 l :: words n' (drop 4 l) end.

Definition RotWord (w : list Z) : list Z := drop 1 w ++ take 1 w.

Fixpoint rcon (i : nat) : Z := match i with O => 1 | S i' => xtime (rcon i') end.

(** The schedule is built backwards: [ws] holds the words so far, latest
    first; [i] is the index of the next one. *)
Fixpoint expand (fuel i : nat) (ws : list (list Z)) : list (list Z) :=
  match fuel with
  | O => ws
  | S n =>
      let prev := nth 0 ws [] in
      let temp :=
        if Nat.eqb (i mod 8) 0 then xor_bytes (map SubByte (RotWord prev)) [rcon (i / 8 - 1); 0; 0; 0]
        else if Nat.eqb (i mod 8) 4 then map SubByte prev
        else prev in
      expand n (S i) (xor_bytes (nth 7 ws []) temp :: ws)
  end.

Fixpoint group4 (l : list (list Z)) : list (list Z) :=
  match l with
  | a :: b :: c :: d :: r => (a ++ b ++ c ++ d) :: group4 r
  | _ => []
  end.

(** The fifteen round keys of AES-256. *)
Definition KeyExpansion (key : list Z) : list (list Z) :=
  group4 (rev (expand 52 8 (rev (words 8 key)))).

(** ** Rounds on the state, a list of sixteen bytes by columns *)

Definition SubBytes (s : list Z) : list Z := map SubByte s.

Definition ShiftRows (s : list Z) : list Z :=
  map (λ i, nth i s 0) [0; 5; 10; 15; 4; 9; 14; 3; 8; 13; 2; 7; 12; 1; 6; 11]%nat.

Definition MixColumn (c : list Z) : list Z :=
  match c with
  | [a; b; c; d] =>
      let x2 := xtime in let x3 v := Z.lxor (xtime v) v in
      [Z.lxor (Z.lxor (x2 a) (x3 b)) (Z.lxor c d);
       Z.lxor (Z.lxor a (x2 b)) (Z.lxor (x3 c) d);
       Z.lxor (Z.lxor a b) (Z.lxor (x2 c) (x3 d));
       Z.lxor (Z.lxor (x3 a) b) (Z.lxor c (x2 d))]
  | _ => c
  end.

Definition MixColumns (s : list Z) : list Z := mjoin (map MixColumn (words 4 s)).

Fixpoint aes_rounds (keys : list (list Z)) (s : list Z) : list Z :=
  match keys with
  | [] => s
  | [k] => xor_bytes (ShiftRows (SubBytes s)) k
  | k :: keys' => aes_rounds keys' (xor_bytes (MixColumns (ShiftRows (SubBytes s))) k)
  end.

(** [block.Encrypt] for a key schedule. *)
Definition aes_encrypt (keys : list (list Z)) (block : list Z) : list Z :=
  match keys with
  | [] => block
  | k0 :: ks => aes_rounds ks (xor_bytes block k0)
  end.

(** ** Galois/counter mode *)

Definition be_value (l : list Z) : Z := foldl (λ acc b, acc * 256 + b) 0 l.
Fixpoint be_bytes (n : nat) (v : Z) : list Z :=
  match n with O => [] | S n' => be_bytes n' (v / 256) ++ [v mod 256] end.

Definition ghash_R : Z := Z.shiftl 225 120.

(** Multiplication in GF(2^128), most significant bit first. *)
Fixpoint gf128_mul_bits (n : nat) (x v z : Z) : Z :=
  match n with
  | O => z
  | S n' =>
      gf128_mul_bits n' x
        (if Z.odd v then Z.lxor (Z.shiftr v 1) ghash_R else Z.shiftr v 1)
        (if Z.testbit x (Z.of_nat n') then Z.lxor z v else z)
  end.
Definition gf128_mul (x y : Z) : Z := gf128_mul_bits 128 x y 0.

(** Sixteen-byte blocks, the last one padded with zeros. *)
Fixpoint blocks (fuel : nat) (l : list Z) : list (list Z) :=
  match fuel, l with
  | S n, _ :: _ => let b := take 16 l in (b ++ replicate (16 - length b) 0) :: blocks n (drop 16 l)
  | _, _ => []
  end.
Definition padded_blocks (l : list Z) : list (list Z) := blocks (length l) l.

Definition ghash (h : Z) (bs : list (list Z)) : Z :=
  foldl (λ y b, gf128_mul (Z.lxor y (be_value b)) h) 0 bs.

Definition len_block (aad ct : list Z) : list Z :=
  be_bytes 8 (8 * Z.of_nat (length aad)) ++ be_bytes 8 (8 * Z.of_nat (length ct)).

(** The key stream: blocks for counters [ctr], [ctr+1], ... (32 bits). *)
Fixpoint keystream (n : nat) (keys : list (list Z)) (nonce : list Z) (ctr : Z) : list Z :=
  match n with
  | O => []
  | S n' => aes_encrypt keys (nonce ++ be_bytes 4 (ctr mod 2 ^ 32)) ++ keystream n' keys nonce (ctr + 1)
  end.

Definition gctr (keys : list (list Z)) (nonce data : list Z) : list Z :=
  zip_with Z.lxor data (keystream (length data / 16 + 1) keys nonce 2).

Definition gcm_tag (keys : list (list Z)) (nonce aad ct : list Z) : list Z :=
  let h := be_value (aes_encrypt keys (replicate 16 0)) in
  xor_bytes (be_bytes 16 (ghash h (padded_blocks aad ++ padded_blocks ct ++ [len_block aad ct])))
            (aes_encrypt keys (nonce ++ [0; 0; 0; 1])).

Definition NonceSize : Z := 12.
Definition TagSize : nat := 16.

Definition to_Z (s : gostring) : list Z := byte_val <$> s.
Definition of_Z (l : list Z) : gostring := byte_of <$> l.

(** [gcm.Seal(nil, nonce, plaintext, aad)] *)
Definition Seal (key nonce plaintext aad : gostring) : gostring :=
  let keys := KeyExpansion (to_Z key) in
  let ct := gctr keys (to_Z nonce) (to_Z plaintext) in
  of_Z (ct ++ gcm_tag keys (to_Z nonce) (to_Z aad) ct).

(** [gcm.Open(nil, nonce, ciphertext, aad)]; [None] is its error. *)
Definition Open (key nonce ciphertext aad : gostring) : option gostring :=
  let keys := KeyExpansion (to_Z key) in
  let n := (length ciphertext - TagSize)%nat in
  let ct := to_Z (take n ciphertext) in
  if decide (length ciphertext < TagSize)%nat then None
  else if decide (Z.of_nat (length ciphertext) > (2 ^ 32 - 2) * 16 + 16) then None
  else if decide (of_Z (gcm_tag keys (to_Z nonce) (to_Z aad) ct) = drop n ciphertext)
  then Some (of_Z (gctr keys (to_Z nonce) ct))
  else None.

(** ** Published vectors *)

Definition hex_val (c : ascii) : Z :=
  let z := byte_val c in if decide (z < 58) then z - 48 else z - 87.
Fixpoint unhex (s : gostring) : list Z :=
  match s with
  | a :: b :: r => (16 * hex_val a + hex_val b) :: unhex r
  | _ => []
  end.

(** FIPS 197, appendix C.3 *)
Example aes256_fips197 :
  aes_encrypt (KeyExpansion (seqZ 0 32)) (unhex (str "00112233445566778899aabbccddeeff"))
  = unhex (str "8ea2b7ca516745bfeafc49904b496089").
Proof. vm_compute. reflexivity. Qed.

(** GCM specification, test cases 13 and 14 *)
Example gcm_case13 :
  Seal (replicate 32 Ascii.zero) (replicate 12 Ascii.zero) [] []
  = of_Z (unhex (str "530f8afbc74536b9a963b4f1c4cb738b")).
Proof. vm_compute. reflexivity. Qed.

Example gcm_case14 :
  Seal (replicate 32 Ascii.zero) (replicate 12 Ascii.zero) (replicate 16 Ascii.zero) []
  = of_Z (unhex (str "cea7403d4d606b6e074ec5d3baf39d18d0d1c8a799996bf0265b98b5d48ab919")).
Proof. vm_compute. reflexivity. Qed.

(** Test case 16, with additional data *)
Definition case16_key : gostring :=
  of_Z (unhex (str "feffe9928665731c6d6a8f9467308308feffe9928665731c6d6a8f9467308308")).
Definition case16_nonce : gostring := of_Z (unhex (str "cafebabefacedbaddecaf888")).
Definition case16_aad : gostring := of_Z (unhex (str "feedfacedeadbeeffeedfacedeadbeefabaddad2")).
Definition case16_plaintext : gostring :=
  of_Z (unhex (str "d9313225f88406e5a55909c5aff5269a86a7a9531534f7da2e4c303d8a318a721c3c0c95956809532fcf0e2449a6b525b16aedf5aa0de657ba637b39")).

Example gcm_case16 :
  Seal case16_key case16_nonce case16_plaintext case16_aad
  = of_Z (unhex (str "522dc1f099567d07f47f37a32a84427d643a8cdcbfe5c0c97598a2bd2555d1aa8cb08e48590dbb3da7b08b1056828838c5f61e6393ba7a0abcc9f66276fc6ece0f4e1768cddf8853bb2d551b")).
Proof. vm_compute. reflexivity. Qed.

(** ** Opening what was sealed *)

Definition is_byte (a : Z) : Prop := 0 ≤ a < 256.
Definition bytes_of (n : nat) (l : list Z) : Prop := length l = n ∧ Forall is_byte l.

Lemma byte_table (P : Z → Prop) : Forall P (seqZ 0 256) → ∀ a, is_byte a → P a.
Proof. rewrite Forall_forall. intros H a Ha. apply H. apply elem_of_seqZ. unfold is_byte in Ha. lia. Qed.

Lemma lxor_byte a b : is_byte a → is_byte b → is_byte (Z.lxor a b).
Proof.
  unfold is_byte. intros Ha Hb. split; [apply Z.lxor_nonneg; lia|].
  destruct (decide (Z.lxor a b = 0)) as [->|Hne]; [lia|].
  assert (0 ≤ Z.lxor a b) by (apply Z.lxor_nonneg; lia).
  apply (Z.log2_lt_pow2 _ 8); [lia|]. pose proof (Z.log2_lxor a b).
  assert (∀ x, 0 ≤ x < 256 → Z.log2 x < 8) as Hlog.
  { intros x Hx. destruct (decide (x = 0)) as [->|]; [done|]. apply Z.log2_lt_pow2; lia. }
  pose proof (Hlog a). pose proof (Hlog b). lia.
Qed.

Lemma xtime_byte a : is_byte a → is_byte (xtime a).
Proof. apply (byte_table (λ a, is_byte (xtime a))). unfold is_byte. by_decide. Qed.

Lemma SubByte_byte a : is_byte (SubByte a).
Proof.
  unfold SubByte. destruct (nth_in_or_default (Z.to_nat a) sbox_table 0) as [H| ->]; [|split; lia].
  apply list_elem_of_In in H. revert H. generalize (nth (Z.to_nat a) sbox_table 0). apply Forall_forall.
  unfold is_byte. by_decide.
Qed.

Lemma xor_bytes_of n a b : bytes_of n a → bytes_of n b → bytes_of n (xor_bytes a b).
Proof.
  intros [Ha Fa] [Hb Fb]. split; [unfold xor_bytes; rewrite length_zip_with; lia|].
  unfold xor_bytes. clear Ha Hb. revert b Fb.
  induction Fa as [|x a Hx Fa IH]; intros [|y b] Fb; simpl; auto.
  apply Forall_cons in Fb as [Hy Fb]. constructor; [by apply lxor_byte|by apply IH].
Qed.

Lemma map_SubByte_of n a : length a = n → bytes_of n (map SubByte a).
Proof.
  intros <-. split; [apply length_map|]. apply Forall_forall. intros x Hx.
  apply list_elem_of_In, in_map_iff in Hx as (y & <- & _). apply SubByte_byte.
Qed.

Lemma bytes_of_take n m l : bytes_of (n + m) l → bytes_of n (take n l) ∧ bytes_of m (drop n l).
Proof.
  intros [H F]. split; split; try (by apply Forall_take || by apply Forall_drop).
  - rewrite length_take. lia.
  - rewrite length_drop. lia.
Qed.

Lemma bytes_of_app n m l k : bytes_of n l → bytes_of m k → bytes_of (n + m) (l ++ k).
Proof. intros [H F] [H' F']. split; [rewrite length_app; lia|by apply Forall_app]. Qed.

Lemma words_of n l : bytes_of (4 * n) l → Forall (bytes_of 4) (words n l).
Proof.
  revert l. induction n as [|n IH]; intros l H; simpl; [constructor|].
  replace (4 * S n)%nat with (4 + 4 * n)%nat in H by lia. apply bytes_of_take in H as [H1 H2].
  constructor; [done|]. by apply IH.
Qed.

Lemma rcon_byte i : is_byte (rcon i).
Proof. induction i; simpl; [split; lia|by apply xtime_byte]. Qed.

Lemma RotWord_of w : bytes_of 4 w → bytes_of 4 (RotWord w).
Proof. intros H. apply (bytes_of_take 1 3) in H as [? ?]. by apply (bytes_of_app 3 1). Qed.

Lemma expand_of fuel i ws :
  (8 ≤ length ws)%nat → Forall (bytes_of 4) ws →
  Forall (bytes_of 4) (expand fuel i ws) ∧ length (expand fuel i ws) = (fuel + length ws)%nat.
Proof.
  revert i ws. induction fuel as [|n IH]; intros i ws Hl Hw; [done|]. cbn [expand].
  assert (∀ k, (k < 8)%nat → bytes_of 4 (nth k ws [])) as Hnth.
  { intros k Hk. apply (proj1 (Forall_forall _ _) Hw), list_elem_of_In, nth_In. lia. }
  set (w := xor_bytes (nth 7 ws []) _).
  assert (bytes_of 4 w) as Hw'.
  { apply xor_bytes_of; [apply Hnth; lia|]. repeat case_match.
    - apply xor_bytes_of; [by apply map_SubByte_of, RotWord_of, Hnth, Nat.lt_0_succ|].
      split; [done|]. repeat constructor; try lia; apply rcon_byte.
    - apply map_SubByte_of. apply Hnth. lia.
    - apply Hnth. lia. }
  destruct (IH (S i) (w :: ws)) as [H1 H2]; [simpl; lia|by constructor|]. split; [done|].
  rewrite H2. simpl. lia.
Qed.

Lemma group4_of l : Forall (bytes_of 4) l → Forall (bytes_of 16) (group4 l).
Proof.
  remember (length l) as n eqn:Hn. revert l Hn. induction n as [n IH] using lt_wf_ind.
  intros [|a [|b [|c [|d r]]]] -> H; simpl; try constructor;
    rewrite !Forall_cons in H; destruct H as (Ha & Hb & Hc & Hd & H).
  - apply (bytes_of_app 4 12); [done|]. apply (bytes_of_app 4 8); [done|]. by apply (bytes_of_app 4 4).
  - apply (IH (length r)); [simpl; lia|done|done].
Qed.

Lemma KeyExpansion_of key : bytes_of 32 key → Forall (bytes_of 16) (KeyExpansion key).
Proof.
  intros Hk. apply group4_of, Forall_rev, expand_of.
  - done.
  - apply Forall_rev. by apply (words_of 8).
Qed.

Lemma MixColumn_of c : bytes_of 4 c → bytes_of 4 (MixColumn c).
Proof.
  intros [Hl Hf]. destruct c as [|a [|b [|c [|d [|]]]]]; simplify_eq/=.
  rewrite !Forall_cons in Hf. destruct Hf as (? & ? & ? & ? & _).
  split; [done|]. cbn [MixColumn]. repeat constructor; repeat apply lxor_byte; auto using xtime_byte.
Qed.

Lemma MixColumns_of s : bytes_of 16 s → bytes_of 16 (MixColumns s).
Proof.
  intros H. apply (words_of 4) in H. unfold MixColumns. simpl words in *.
  rewrite !Forall_cons in H. destruct H as (H1 & H2 & H3 & H4 & _). cbn [map mjoin list_join].
  apply (bytes_of_app 4 12); [by apply MixColumn_of|]. apply (bytes_of_app 4 8); [by apply MixColumn_of|].
  apply (bytes_of_app 4 4); [by apply MixColumn_of|]. apply (bytes_of_app 4 0); [by apply MixColumn_of|]. by split.
Qed.

Lemma SubShift_of s : length s = 16%nat → bytes_of 16 (ShiftRows (SubBytes s)).
Proof.
  intros Hs. destruct (map_SubByte_of 16 s Hs) as [Hl Hf]. split; [done|]. unfold ShiftRows, SubBytes.
  assert (∀ i, is_byte (nth i (map SubByte s) 0)) as Hn.
  { intros i. destruct (nth_in_or_default i (map SubByte s) 0) as [H| ->]; [|split; lia].
    by apply (proj1 (Forall_forall _ _) Hf), list_elem_of_In. }
  cbn [map]. repeat constructor; apply Hn.
Qed.

Lemma aes_rounds_of ks s : Forall (bytes_of 16) ks → bytes_of 16 s → bytes_of 16 (aes_rounds ks s).
Proof.
  intros Hk. revert s. induction Hk as [|k ks Hk Hks IH]; intros s Hs; [done|]. cbn [aes_rounds].
  assert (bytes_of 16 (ShiftRows (SubBytes s))) as Hsub by apply SubShift_of, Hs.
  destruct ks; [by apply xor_bytes_of|]. apply IH, xor_bytes_of; [by apply MixColumns_of|done].
Qed.

Lemma aes_encrypt_of ks b : Forall (bytes_of 16) ks → bytes_of 16 b → bytes_of 16 (aes_encrypt ks b).
Proof.
  intros Hk Hb. destruct Hk as [|k ks Hk Hks]; [done|]. by apply aes_rounds_of, xor_bytes_of.
Qed.

Lemma be_bytes_of n v : bytes_of n (be_bytes n v).
Proof.
  revert v. induction n as [|n IH]; intros v; [by split|]. simpl. replace (S n) with (n + 1)%nat by lia.
  apply bytes_of_app; [apply IH|]. split; [done|]. repeat constructor; apply Z.mod_pos_bound; lia.
Qed.

Lemma keystream_of n ks nonce ctr :
  Forall (bytes_of 16) ks → bytes_of 12 nonce → bytes_of (n * 16) (keystream n ks nonce ctr).
Proof.
  intros Hk Hn. revert ctr. induction n as [|n IH]; intros ctr; [by split|]. cbn [keystream].
  apply (bytes_of_app 16); [|apply IH]. apply aes_encrypt_of; [done|].
  apply (bytes_of_app 12 4); [done|apply be_bytes_of].
Qed.

Lemma xor_stream_involutive (d s : list Z) :
  (length d ≤ length s)%nat → zip_with Z.lxor (zip_with Z.lxor d s) s = d.
Proof.
  revert s. induction d as [|x d IH]; intros [|y s] Hl; simpl in *; try lia; [done..|].
  rewrite Z.lxor_assoc, Z.lxor_nilpotent, Z.lxor_0_r. f_equal. apply IH. lia.
Qed.

Lemma to_Z_of n s : length s = n → bytes_of n (to_Z s).
Proof.
  intros <-. split; [apply length_fmap|]. apply Forall_fmap, Forall_forall. intros c _. apply byte_val_range.
Qed.

Lemma to_of_Z l : Forall is_byte l → to_Z (of_Z l) = l.
Proof.
  intros H. unfold to_Z, of_Z. rewrite <- list_fmap_compose. rewrite <- (list_fmap_id l) at 2.
  apply list_fmap_ext. intros i x Hx. simpl. rewrite byte_val_of. apply Z.mod_small.
  by apply (Forall_lookup_1 _ _ _ _ H Hx).
Qed.

Lemma of_to_Z s : of_Z (to_Z s) = s.
Proof.
  unfold to_Z, of_Z. rewrite <- list_fmap_compose. rewrite <- (list_fmap_id s) at 2.
  apply list_fmap_ext. intros i x _. apply byte_of_val.
Qed.

Section gcm.
Context (key nonce : gostring) (Hkey : length key = 32%nat) (Hnonce : length nonce = 12%nat).
Let keys := KeyExpansion (to_Z key).

Lemma keys_of : Forall (bytes_of 16) keys.
Proof using Hkey. by apply KeyExpansion_of, to_Z_of. Qed.

Lemma stream_long (data : list Z) : (length data ≤ length (keystream (length data / 16 + 1) keys (to_Z nonce) 2))%nat.
Proof using Hkey Hnonce.
  destruct (keystream_of (length data / 16 + 1) keys (to_Z nonce) 2 keys_of (to_Z_of 12 _ Hnonce)) as [-> _].
  pose proof (Nat.div_mod_eq (length data) 16). pose proof (Nat.mod_upper_bound (length data) 16). lia.
Qed.

Lemma gctr_length (data : list Z) : length (gctr keys (to_Z nonce) data) = length data.
Proof using Hkey Hnonce. unfold gctr. rewrite length_zip_with. pose proof (stream_long data). lia. Qed.

Lemma gctr_bytes data : Forall is_byte data → Forall is_byte (gctr keys (to_Z nonce) data).
Proof using Hkey Hnonce.
  intros Hd. unfold gctr.
  destruct (keystream_of (length data / 16 + 1) keys (to_Z nonce) 2 keys_of (to_Z_of 12 _ Hnonce)) as [_ Hs].
  revert Hs. generalize (keystream (length data / 16 + 1) keys (to_Z nonce) 2).
  induction Hd as [|x d Hx Hd IH]; intros [|y s] Hs; simpl; auto.
  apply Forall_cons in Hs as [Hy Hs]. constructor; [by apply lxor_byte|by apply IH].
Qed.

Lemma gctr_involutive data : gctr keys (to_Z nonce) (gctr keys (to_Z nonce) data) = data.
Proof using Hkey Hnonce.
  unfold gctr at 1. rewrite gctr_length. apply xor_stream_involutive, stream_long.
Qed.

Lemma gcm_tag_length aad ct : length (gcm_tag keys (to_Z nonce) aad ct) = TagSize.
Proof using Hkey Hnonce.
  unfold gcm_tag. destruct (xor_bytes_of 16 (be_bytes 16 (ghash
    (be_value (aes_encrypt keys (replicate 16 0)))
    (padded_blocks aad ++ padded_blocks ct ++ [len_block aad ct])))
    (aes_encrypt keys (to_Z nonce ++ [0; 0; 0; 1]))) as [H _]; [apply be_bytes_of| |done].
  apply aes_encrypt_of; [apply keys_of|]. apply (bytes_of_app 12 4); [by apply to_Z_of|].
  split; [done|]. repeat constructor; lia.
Qed.

(** Opening a body followed by a tag of sixteen bytes. *)
Lemma Open_app (c tag aad : gostring) :
  length tag = TagSize → Z.of_nat (length c) ≤ (2 ^ 32 - 2) * 16 →
  Open key nonce (c ++ tag) aad =
    if decide (of_Z (gcm_tag keys (to_Z nonce) (to_Z aad) (to_Z c)) = tag)
    then Some (of_Z (gctr keys (to_Z nonce) (to_Z c))) else None.
Proof using Hkey Hnonce.
  intros Ht Hc. unfold Open. fold keys. rewrite length_app, Ht.
  replace (length c + TagSize - TagSize)%nat with (length c) by lia.
  rewrite decide_False by (unfold TagSize; lia). rewrite decide_False by (unfold TagSize; lia).
  by rewrite take_app_length, drop_app_length.
Qed.

Lemma Open_Seal p aad :
  Z.of_nat (length p) ≤ (2 ^ 32 - 2) * 16 → Open key nonce (Seal key nonce p aad) aad = Some p.
Proof using Hkey Hnonce.
  intros Hp. unfold Seal. fold keys. set (ct := gctr keys (to_Z nonce) (to_Z p)).
  assert (length ct = length p) as Hct by (unfold ct; rewrite gctr_length; apply length_fmap).
  assert (to_Z (of_Z ct) = ct) as Hrt.
  { apply to_of_Z, gctr_bytes. apply (to_Z_of (length p) p eq_refl). }
  rewrite (fmap_app byte_of ct _ : of_Z (_ ++ _) = _). rewrite Open_app.
  - fold (of_Z ct). rewrite Hrt, decide_True by done. unfold ct. by rewrite gctr_involutive, of_to_Z.
  - rewrite length_fmap. apply gcm_tag_length.
  - rewrite length_fmap, Hct. done.
Qed.
End gcm.
