(* ===== verification/Base64.v ===== *)
(** * encoding/base64: [base64.StdEncoding]

    [DecodeString] as the gateway uses it on untrusted fields: line breaks are
    skipped wherever they stand, padding is mandatory, nothing may follow it,
    and the unused low bits of the last digit are not checked.
    [EncodeToString] is what producers apply. *)

From S2P Require Import Prelude GoStrings.

Local Open Scope Z_scope.

Definition b64_alphabet : gostring :=
  str "ABCDEFGHIJKLMNOPQRSTUVWXYZabcdefghijklmnopqrstuvwxyz0123456789+/".
Definition PAD : ascii := "="%char.

Definition b64_digit (v : Z) : ascii := nth (Z.to_nat v) b64_alphabet PAD.

Definition b64_val (c : ascii) : option Z :=
  match list_find (eq c) b64_alphabet with
  | Some (i, _) => Some (Z.of_nat i)
  | None => None
  end.

(** The bytes of a 24-bit group, most significant first. *)
Definition byte_at (v : Z) (k : Z) : ascii := byte_of (Z.shiftr v k).

(** Decoding without line breaks, one quantum of four digits at a time. *)
Fixpoint b64_quanta (s : gostring) : option gostring :=
  match s with
  | [] => Some []
  | a :: b :: c :: d :: r =>
      x ← b64_val a; y ← b64_val b;
      if decide (c = PAD) then
        if decide (d = PAD ∧ r = []) then Some [byte_at (x * 2 ^ 18 + y * 2 ^ 12) 16] else None
      else
        z ← b64_val c;
        if decide (d = PAD) then
          if decide (r = []) then
            let v := x * 2 ^ 18 + y * 2 ^ 12 + z * 2 ^ 6 in Some [byte_at v 16; byte_at v 8]
          else None
        else
          w ← b64_val d;
          rest ← b64_quanta r;
          let v := x * 2 ^ 18 + y * 2 ^ 12 + z * 2 ^ 6 + w in
          Some (byte_at v 16 :: byte_at v 8 :: byte_at v 0 :: rest)
  | _ => None
  end.

Definition DecodeString (s : gostring) : option gostring :=
  b64_quanta (filter (λ c, c ≠ CR ∧ c ≠ LF) s).

Definition digit_at (v : Z) (k : Z) : ascii := b64_digit (Z.land (Z.shiftr v k) 63).

Fixpoint EncodeToString (s : gostring) : gostring :=
  match s with
  | [] => []
  | [a] =>
      let v := byte_val a * 2 ^ 16 in [digit_at v 18; digit_at v 12; PAD; PAD]
  | [a; b] =>
      let v := byte_val a * 2 ^ 16 + byte_val b * 2 ^ 8 in
      [digit_at v 18; digit_at v 12; digit_at v 6; PAD]
  | a :: b :: c :: r =>
      let v := byte_val a * 2 ^ 16 + byte_val b * 2 ^ 8 + byte_val c in
      digit_at v 18 :: digit_at v 12 :: digit_at v 6 :: digit_at v 0 :: EncodeToString r
  end.

Example b64_vector : EncodeToString (str "foobar") = str "Zm9vYmFy".
Proof. vm_compute. reflexivity. Qed.
Example b64_vector_padded : DecodeString (str "Zm9vYg==") = Some (str "foob").
Proof. vm_compute. reflexivity. Qed.

(** ** Decoding what was encoded *)

Lemma b64_digit_val v : 0 ≤ v < 64 → b64_val (b64_digit v) = Some v ∧ b64_digit v ≠ PAD ∧ b64_digit v ≠ CR ∧ b64_digit v ≠ LF.
Proof.
  intros Hv. revert v Hv.
  assert (Forall (λ v, b64_val (b64_digit v) = Some v ∧ b64_digit v ≠ PAD ∧ b64_digit v ≠ CR ∧ b64_digit v ≠ LF)
            (seqZ 0 64)) as H by by_decide.
  rewrite Forall_forall in H. intros v Hv. apply H, elem_of_seqZ. lia.
Qed.

Lemma sextet_range v k : 0 ≤ v → 0 ≤ Z.land (Z.shiftr v k) 63 < 64.
Proof.
  intros Hv. change 63 with (Z.ones 6). rewrite Z.land_ones by lia. apply Z.mod_pos_bound. lia.
Qed.

Lemma digit_at_val v k :
  0 ≤ v → b64_val (digit_at v k) = Some (Z.shiftr v k mod 64)
          ∧ digit_at v k ≠ PAD ∧ digit_at v k ≠ CR ∧ digit_at v k ≠ LF.
Proof.
  intros Hv. pose proof (sextet_range v k Hv) as Hr. unfold digit_at.
  destruct (b64_digit_val _ Hr) as (H1 & H2). split; [|done]. rewrite H1.
  change 63 with (Z.ones 6). by rewrite Z.land_ones by lia.
Qed.

(** A 24-bit value is the sum of its four sextets. *)
Lemma sextets v :
  0 ≤ v < 2 ^ 24 →
  (Z.shiftr v 18 mod 64) * 2 ^ 18 + (Z.shiftr v 12 mod 64) * 2 ^ 12 + (Z.shiftr v 6 mod 64) * 2 ^ 6
    + Z.shiftr v 0 mod 64 = v.
Proof. intros Hv. rewrite !Z.shiftr_div_pow2 by lia. Z.to_euclidean_division_equations. lia. Qed.

Lemma byte_at_group a b c :
  let v := byte_val a * 2 ^ 16 + byte_val b * 2 ^ 8 + byte_val c in
  byte_at v 16 = a ∧ byte_at v 8 = b ∧ byte_at v 0 = c.
Proof.
  pose proof (byte_val_range a). pose proof (byte_val_range b). pose proof (byte_val_range c).
  unfold byte_at. rewrite !Z.shiftr_div_pow2 by lia.
  assert (∀ z x, z mod 256 = byte_val x → byte_of z = x) as Hb.
  { intros z x Hx. rewrite <- (byte_of_val x). unfold byte_of. rewrite Hx.
    by rewrite (Z.mod_small (byte_val x)) by apply byte_val_range. }
  split_and!; apply Hb; Z.to_euclidean_division_equations; lia.
Qed.

Lemma EncodeToString_clean s : Forall (λ c, c ≠ CR ∧ c ≠ LF) (EncodeToString s).
Proof.
  remember (length s) as n eqn:Hn. revert s Hn. induction n as [n IH] using lt_wf_ind.
  intros [|a [|b [|c r]]] ->; cbn [EncodeToString]; repeat constructor;
    try (by apply digit_at_val; pose proof (byte_val_range a); try pose proof (byte_val_range b);
         try pose proof (byte_val_range c); lia); try done.
  apply (IH (length r)); [simpl; lia|done].
Qed.

Lemma quanta_EncodeToString s : b64_quanta (EncodeToString s) = Some s.
Proof.
  remember (length s) as n eqn:Hn. revert s Hn. induction n as [n IH] using lt_wf_ind.
  intros [|a [|b [|c r]]] ->; cbn [EncodeToString]; [done| | |];
    pose proof (byte_val_range a); try pose proof (byte_val_range b); try pose proof (byte_val_range c).
  - set (v := byte_val a * 2 ^ 16).
    assert (0 ≤ v < 2 ^ 24) as Hv by lia. cbn [b64_quanta].
    destruct (digit_at_val v 18) as [-> _]; [lia|]. destruct (digit_at_val v 12) as [-> _]; [lia|]. simpl.
    pose proof (sextets v Hv) as Hs. rewrite !Z.shiftr_div_pow2 in * by lia.
    replace (_ + _) with v by (unfold v in *; Z.to_euclidean_division_equations; lia).
    destruct (byte_at_group a Ascii.zero Ascii.zero) as [E _].
    change (byte_val Ascii.zero) with 0 in *. rewrite Z.mul_0_l, !Z.add_0_r in E. fold v in E. by rewrite E.
  - set (v := byte_val a * 2 ^ 16 + byte_val b * 2 ^ 8).
    assert (0 ≤ v < 2 ^ 24) as Hv by lia. cbn [b64_quanta].
    destruct (digit_at_val v 18) as [-> _]; [lia|]. destruct (digit_at_val v 12) as [-> _]; [lia|].
    destruct (digit_at_val v 6) as (-> & Hp & _); [lia|]. simpl. rewrite decide_False by done.
    pose proof (sextets v Hv) as Hs. rewrite !Z.shiftr_div_pow2 in * by lia.
    replace (_ + _) with v by (unfold v in *; Z.to_euclidean_division_equations; lia).
    destruct (byte_at_group a b Ascii.zero) as (E1 & E2 & _).
    change (byte_val Ascii.zero) with 0 in *. rewrite Z.add_0_r in *. fold v in E1, E2. by rewrite E1, E2.
  - set (v := byte_val a * 2 ^ 16 + byte_val b * 2 ^ 8 + byte_val c).
    assert (0 ≤ v < 2 ^ 24) as Hv by lia. cbn [b64_quanta].
    destruct (digit_at_val v 18) as [-> _]; [lia|]. destruct (digit_at_val v 12) as [-> _]; [lia|].
    destruct (digit_at_val v 6) as (-> & Hp & _); [lia|]. destruct (digit_at_val v 0) as (-> & Hp' & _); [lia|].
    simpl. rewrite !decide_False by done.
    rewrite (IH (length r)) by (simpl; lia || done). simpl.
    rewrite (sextets v Hv). destruct (byte_at_group a b c) as (E1 & E2 & E3). fold v in E1, E2, E3.
    by rewrite E1, E2, E3.
Qed.

Lemma DecodeString_EncodeToString s : DecodeString (EncodeToString s) = Some s.
Proof. unfold DecodeString. rewrite filter_all by apply EncodeToString_clean. apply quanta_EncodeToString. Qed.

(** Encoded text is ASCII, so valid UTF-8. *)
Lemma digit_at_ascii v k : 0 ≤ v → in_range 0 127 (digit_at v k) = true.
Proof.
  intros Hv. pose proof (sextet_range v k Hv) as Hr. unfold digit_at. revert Hr. generalize (Z.land (Z.shiftr v k) 63) as d. intros d Hd.
  assert (d ∈ seqZ 0 64) as Hin by (apply elem_of_seqZ; lia). clear Hd. revert d Hin. apply Forall_forall. by_decide.
Qed.

Lemma EncodeToString_valid s : ValidString (EncodeToString s) = true.
Proof.
  induction s as [s IH] using (induction_ltof1 _ length). unfold ltof in IH.
  destruct s as [|a [|b [|c r]]]; cbn [EncodeToString]; [done|..]; pose proof (byte_val_range a);
    try pose proof (byte_val_range b); try pose proof (byte_val_range c); cbn [ValidString];
    rewrite ?digit_at_ascii by lia; [done..|]. apply IH. simpl. lia.
Qed.
