(* ===== verification/Crypto.v ===== *)
(** * internal/crypto: additional data, payload decryption, key hygiene

    aes.go, zeroize.go and the types of unwrap.go.  Byte slices that hold
    secrets live in a memory of buffers ([Mem]), so that erasing one is visible
    through every alias; slices that are only read are plain byte strings. *)

From S2P Require Import Prelude GoStrings Base64 Aes.

Local Open Scope Z_scope.

(** ** Memory of byte buffers *)
Record Mem := mkMem {
  bufs : gmap positive gostring;
  nextBuf : positive;
}.

Definition mem_wf (m : Mem) : Prop := ∀ p, is_Some (bufs m !! p) → (p < nextBuf m)%positive.

(** A fresh slice with the given contents. *)
Definition alloc (b : gostring) : M Mem positive := λ m,
  Some (nextBuf m, mkMem (<[nextBuf m := b]> (bufs m)) (Pos.succ (nextBuf m))).

Definition load (p : positive) : M Mem gostring := λ m,
  match bufs m !! p with Some b => Some (b, m) | None => None end.

Definition zeros (n : nat) : gostring := replicate n Ascii.zero.

(** [Zeroize(b)]: [clear(b)], then a read-only pass. *)
Definition Zeroize (p : positive) : M Mem () :=
  b ← load p;
  if decide (length b = 0%nat) then mret ()
  else modify (λ m, mkMem (<[p := zeros (length b)]> (bufs m)) (nextBuf m)).

(** ** Errors *)
Inductive CryptoErr :=
| ErrUnwrapFailed
| ErrInvalidEnvelope
| ErrCryptoServiceUnavailable
| ErrInvalidKeySize
| ErrDecryptFailed
| ErrPayloadTooLarge
| ErrMissingPayloadNonce
| ErrNonceBase64
| ErrCiphertextBase64
| ErrNonceLength (n : Z)
| ErrUnwrapRequest         (* the HTTP request could not be built *)
| ErrUnwrapResponse        (* undecodable reply of the unwrapping service *)
| ErrMarshal.              (* serialisation of the clear payload *)

(** ** Envelopes *)
Record WrappedKeyEnvelope := mkEnvelope {
  Algorithm : gostring;
  EnvVersion : gostring;
  SuiteID : Z;                  (* uint16 *)
  EncapsulatedKey : gostring;
  EnvNonce : gostring;
  WrappedKey : gostring;
}.

Global Instance WrappedKeyEnvelope_eq_dec : EqDecision WrappedKeyEnvelope.
Proof. solve_decision. Defined.

(** ** Additional authenticated data *)
Definition DefaultAADTemplate : gostring :=
  str "{tenant_id}|{app_id}|{topic_id}|{event_id}|{version}".

Record AADContext := mkAAD {
  aad_TenantID : gostring;
  aad_AppID : gostring;
  aad_TopicID : gostring;
  aad_EventID : gostring;
  aad_Version : Z;              (* int64 *)
}.

Definition BuildAAD (template : gostring) (ctx : AADContext) : gostring :=
  if decide (template = []) then []
  else Replace [(str "{tenant_id}", aad_TenantID ctx); (str "{app_id}", aad_AppID ctx);
                (str "{topic_id}", aad_TopicID ctx); (str "{event_id}", aad_EventID ctx);
                (str "{version}", FormatInt (aad_Version ctx))] template.

(** ** Decryption *)
Definition DecryptPayload (dek : positive) (nonceB64 ciphertextB64 aad : gostring) (maxBytes : Z)
    : M Mem (result CryptoErr positive) :=
  key ← load dek;
  if decide (length key ≠ 32%nat) then mret (Err ErrInvalidKeySize)
  else match DecodeString nonceB64 with
  | None => mret (Err ErrNonceBase64)
  | Some nonce =>
      match DecodeString ciphertextB64 with
      | None => mret (Err ErrCiphertextBase64)
      | Some ciphertext =>
          if decide (Z.of_nat (length nonce) ≠ NonceSize)
          then mret (Err (ErrNonceLength (Z.of_nat (length nonce))))
          else match Open key nonce ciphertext aad with
          | None => mret (Err ErrDecryptFailed)
          | Some b =>
              plaintext ← alloc b;
              if decide (maxBytes > 0 ∧ Z.of_nat (length b) > maxBytes) then
                Zeroize plaintext ;; mret (Err ErrPayloadTooLarge)
              else mret (Ok plaintext)
          end
      end
  end.

(** ** Memory lemmas *)

Lemma alloc_spec b m (Q : positive → Mem → Prop) :
  Q (nextBuf m) (mkMem (<[nextBuf m := b]> (bufs m)) (Pos.succ (nextBuf m))) → wp (alloc b) Q m.
Proof. done. Qed.

Lemma wp_load p b m (Q : gostring → Mem → Prop) : bufs m !! p = Some b → Q b m → wp (load p) Q m.
Proof. intros H. unfold wp, load. by rewrite H. Qed.

Lemma zeros_length b : length b = 0%nat → b = zeros (length b).
Proof. by intros ->%nil_length_inv. Qed.

(** Erasing leaves the same buffer full of zeros and touches no other. *)
Lemma Zeroize_spec p b m :
  bufs m !! p = Some b →
  Zeroize p m = Some ((), mkMem (<[p := zeros (length b)]> (bufs m)) (nextBuf m)).
Proof.
  intros H. unfold Zeroize, load, mbind, M_bind. rewrite H. case_decide as E; [|done].
  apply zeros_length in E as E'. rewrite <- E'. unfold mret, M_ret.
  rewrite insert_id by done. by destruct m.
Qed.

Lemma alloc_wf b m : mem_wf m → mem_wf (mkMem (<[nextBuf m := b]> (bufs m)) (Pos.succ (nextBuf m))).
Proof.
  intros Hm p. simpl. destruct (decide (p = nextBuf m)) as [->|]; [intros _; lia|].
  rewrite lookup_insert_ne by done. intros ?%Hm. lia.
Qed.

Lemma fresh_buf m : mem_wf m → bufs m !! nextBuf m = None.
Proof. intros Hm. apply eq_None_not_Some. intros ?%Hm. lia. Qed.

Lemma insert_wf p b m : mem_wf m → is_Some (bufs m !! p) → mem_wf (mkMem (<[p := b]> (bufs m)) (nextBuf m)).
Proof.
  intros Hm Hp q. simpl. destruct (decide (p = q)) as [->|]; [intros _; by apply Hm|].
  rewrite lookup_insert_ne by done. apply Hm.
Qed.

(** Outcome of [DecryptPayload] as a function of the key bytes. *)
Definition decrypt_bytes (key nonceB64 ciphertextB64 aad : gostring) (maxBytes : Z)
    : result CryptoErr gostring :=
  if decide (length key ≠ 32%nat) then Err ErrInvalidKeySize
  else match DecodeString nonceB64, DecodeString ciphertextB64 with
  | None, _ => Err ErrNonceBase64
  | _, None => Err ErrCiphertextBase64
  | Some nonce, Some ciphertext =>
      if decide (Z.of_nat (length nonce) ≠ NonceSize) then Err (ErrNonceLength (Z.of_nat (length nonce)))
      else match Open key nonce ciphertext aad with
      | None => Err ErrDecryptFailed
      | Some b => if decide (maxBytes > 0 ∧ Z.of_nat (length b) > maxBytes) then Err ErrPayloadTooLarge else Ok b
      end
  end.

(** [DecryptPayload] computes [decrypt_bytes]; it changes no buffer that
    existed, and a buffer it leaves behind is the plaintext it returns or full
    of zeros. *)
Lemma DecryptPayload_spec dek key nonceB64 ctB64 aad maxBytes m :
  mem_wf m → bufs m !! dek = Some key →
  wp (DecryptPayload dek nonceB64 ctB64 aad maxBytes) (λ r m',
    mem_wf m' ∧ bufs m ⊆ bufs m'
    ∧ match decrypt_bytes key nonceB64 ctB64 aad maxBytes with
      | Ok b => ∃ p, r = Ok p ∧ bufs m' = <[p := b]> (bufs m) ∧ bufs m !! p = None
      | Err e => r = Err e ∧ ∀ p b, bufs m' !! p = Some b → bufs m !! p = None → b = zeros (length b)
      end) m.
Proof.
  intros Hwf Hk. unfold DecryptPayload, decrypt_bytes. wp_step. eapply wp_load; [done|].
  assert (∀ p b, bufs m !! p = Some b → bufs m !! p = None → b = zeros (length b)) as Hno by congruence.
  case_decide; [by apply wp_ret|].
  destruct (DecodeString nonceB64) as [nonce|]; [|by apply wp_ret].
  destruct (DecodeString ctB64) as [ct|]; [|by apply wp_ret].
  case_decide; [by apply wp_ret|].
  destruct (Open key nonce ct aad) as [b|]; [|by apply wp_ret].
  wp_step. apply alloc_spec. pose proof (fresh_buf m Hwf) as Hf.
  assert (bufs m ⊆ <[nextBuf m := b]> (bufs m)) as Hsub by by apply insert_subseteq.
  case_decide.
  - wp_step. eapply wp_of_run; [apply Zeroize_spec; simpl; apply lookup_insert_eq|]. apply wp_ret. simpl.
    rewrite insert_insert_eq. split_and!; [|by apply insert_subseteq|done|].
    + by apply alloc_wf.
    + intros p b'. destruct (decide (p = nextBuf m)) as [->|]; [|rewrite lookup_insert_ne by done; congruence].
      rewrite lookup_insert_eq. intros [= <-] _. unfold zeros. by rewrite length_replicate.
  - apply wp_ret. simpl. split_and!; [by apply alloc_wf|done|]. by eexists.
Qed.

(** Decrypting what a producer sealed. *)
Lemma decrypt_bytes_Seal key nonce p aad maxBytes :
  length key = 32%nat → length nonce = 12%nat → Z.of_nat (length p) ≤ (2 ^ 32 - 2) * 16 →
  decrypt_bytes key (EncodeToString nonce) (EncodeToString (Seal key nonce p aad)) aad maxBytes =
    if decide (maxBytes > 0 ∧ Z.of_nat (length p) > maxBytes) then Err ErrPayloadTooLarge else Ok p.
Proof.
  intros Hkl Hnl Hp. unfold decrypt_bytes. rewrite !DecodeString_EncodeToString, Open_Seal by done.
  rewrite decide_False by tauto. by rewrite decide_False by (rewrite Hnl; unfold NonceSize; lia).
Qed.

(** ** The unwrapping interface

    What [crypto.KeyUnwrapper] promises its callers: a successful [Unwrap]
    yields a fresh buffer, which the caller owns and must erase, and changes no
    existing buffer.  Its size is checked by [DecryptPayload]. *)
Definition unwrap_post (m : Mem) (r : result CryptoErr positive) (m' : Mem) : Prop :=
  mem_wf m' ∧ bufs m ⊆ bufs m'
  ∧ match r with
    | Ok p => bufs m !! p = None ∧ ∃ key, bufs m' = <[p := key]> (bufs m)
    | Err _ => True
    end.

Lemma unwrap_post_err m e : mem_wf m → unwrap_post m (Err e) m.
Proof. by intros Hm. Qed.

Class KeyUnwrapper := {
  unwrap_dek : WrappedKeyEnvelope → M Mem (result CryptoErr positive);
  unwrap_dek_promise env m : mem_wf m → wp (unwrap_dek env) (unwrap_post m) m;
}.

(** *** internal/crypto/mock.go: the development unwrapper *)
Record MockUnwrapper := mkMockUnwrapper {
  KnownKeys : gmap gostring gostring;
  FailNext : bool;
  HealthErr : option CryptoErr;
  DefaultKey : gostring;
}.

Definition NewMockUnwrapper (defaultDEK : gostring) : MockUnwrapper :=
  mkMockUnwrapper ∅ false None defaultDEK.

Definition mock_Unwrap (u : MockUnwrapper) (envelope : WrappedKeyEnvelope) : M Mem (result CryptoErr positive) :=
  if FailNext u then mret (Err ErrUnwrapFailed)
  else match KnownKeys u !! WrappedKey envelope with
  | Some dek => p ← alloc dek; mret (Ok p)
  | None =>
      if decide (length (DefaultKey u) = 32%nat) then p ← alloc (DefaultKey u); mret (Ok p)
      else match DecodeString (WrappedKey envelope) with
      | Some decoded =>
          if decide (length decoded = 32%nat) then p ← alloc decoded; mret (Ok p)
          else mret (Err ErrUnwrapFailed)
      | None => mret (Err ErrUnwrapFailed)
      end
  end.

Definition mock_Health (u : MockUnwrapper) : result CryptoErr () :=
  match HealthErr u with Some e => Err e | None => Ok () end.
Definition mock_Check (u : MockUnwrapper) : result CryptoErr () := mock_Health u.
Definition mock_Name : gostring := str "mock_crypto_service".

Lemma alloc_promise b m :
  mem_wf m → wp (p ← alloc b; mret (Ok p)) (unwrap_post m) m.
Proof.
  intros Hm. wp_step. apply alloc_spec, wp_ret. pose proof (fresh_buf m Hm).
  split; [by apply alloc_wf|]. split; [by apply insert_subseteq|]. split; [done|]. by exists b.
Qed.

Lemma mock_promise u env m : mem_wf m → wp (mock_Unwrap u env) (unwrap_post m) m.
Proof.
  intros Hm. unfold mock_Unwrap.
  repeat (first [by apply alloc_promise | apply wp_ret; by apply unwrap_post_err | case_match]).
Qed.

Definition mock_unwrapper (u : MockUnwrapper) : KeyUnwrapper :=
  {| unwrap_dek := mock_Unwrap u; unwrap_dek_promise := mock_promise u |}.

(** ** Claims *)

(** A payload sealed by a producer under a 32-byte key, a 12-byte nonce and
    some additional data, and sent in base64, is decrypted to the original
    bytes under the same key and data, unless it exceeds the configured bound:
    then the call fails and the plaintext buffer is erased. *)
Theorem decrypt_roundtrip dek key nonce aad p maxBytes m :
  mem_wf m → bufs m !! dek = Some key → length key = 32%nat → length nonce = 12%nat →
  Z.of_nat (length p) ≤ (2 ^ 32 - 2) * 16 →
  ∃ r m', DecryptPayload dek (EncodeToString nonce) (EncodeToString (Seal key nonce p aad)) aad maxBytes m
            = Some (r, m')
    ∧ bufs m' !! dek = Some key
    ∧ (maxBytes ≤ 0 ∨ Z.of_nat (length p) ≤ maxBytes → ∃ q, r = Ok q ∧ bufs m' !! q = Some p)
    ∧ (0 < maxBytes < Z.of_nat (length p) →
       r = Err ErrPayloadTooLarge
       ∧ ∀ q b, bufs m' !! q = Some b → bufs m !! q = None → b = zeros (length b)).
Proof.
  intros Hwf Hk Hkl Hnl Hp.
  destruct (wp_run _ _ _ (DecryptPayload_spec dek key (EncodeToString nonce)
    (EncodeToString (Seal key nonce p aad)) aad maxBytes m Hwf Hk)) as (r & m' & E & _ & Hsub & Hr).
  exists r, m'. split; [done|]. split; [by eapply lookup_weaken|].
  rewrite decrypt_bytes_Seal in Hr by done. case_decide; (split; [|]); intros Hb; try lia.
  - by destruct Hr.
  - destruct Hr as (q & -> & -> & _). exists q. split; [done|]. apply lookup_insert_eq.
Qed.

Definition demo_mem : Mem := mkMem {[1%positive := case16_key]} 2.

Lemma demo_mem_wf : mem_wf demo_mem.
Proof. intros p [b Hb]. simpl in *. apply lookup_singleton_Some in Hb as [<- _]. lia. Qed.

Lemma decrypt_roundtrip_witness :
  ∃ r m', DecryptPayload 1 (EncodeToString case16_nonce)
            (EncodeToString (Seal case16_key case16_nonce (str "{}") [])) [] 5 demo_mem = Some (r, m')
    ∧ ∃ q, r = Ok q ∧ bufs m' !! q = Some (str "{}").
Proof.
  destruct (decrypt_roundtrip 1 case16_key case16_nonce [] (str "{}") 5 demo_mem)
    as (r & m' & E & _ & H & _); [apply demo_mem_wf|reflexivity..|vm_compute; discriminate|].
  exists r, m'. split; [exact E|]. apply H. right. vm_compute. discriminate.
Defined.

Lemma default_aad ctx :
  BuildAAD DefaultAADTemplate ctx =
    aad_TenantID ctx ++ str "|" ++ aad_AppID ctx ++ str "|" ++ aad_TopicID ctx ++ str "|"
    ++ aad_EventID ctx ++ str "|" ++ FormatInt (aad_Version ctx) ++ [].
Proof. reflexivity. Qed.

Definition BAR : ascii := "|"%char.

(** Two texts cut at their first bar. *)
Lemma cut_first_bar (s s' r r' : gostring) :
  BAR ∉ s → BAR ∉ s' → s ++ str "|" ++ r = s' ++ str "|" ++ r' → s = s' ∧ r = r'.
Proof.
  revert s'. induction s as [|c s IH]; intros [|c' s'] Hs Hs'; simpl; intros E; simplify_eq;
    [done|unfold BAR in *; set_solver..|].
  destruct (IH s') as [-> ->]; [set_solver..|done].
Qed.

(** With the default template the additional data determines the whole
    routing context (tenant, application, topic, event and version) for
    identifiers without the separator: a ciphertext bound to one context has
    other additional data in any other context. *)
Theorem aad_binds_context c c' :
  Forall (λ s, BAR ∉ s) [aad_TenantID c; aad_AppID c; aad_TopicID c; aad_EventID c] →
  Forall (λ s, BAR ∉ s) [aad_TenantID c'; aad_AppID c'; aad_TopicID c'; aad_EventID c'] →
  BuildAAD DefaultAADTemplate c = BuildAAD DefaultAADTemplate c' → c = c'.
Proof.
  destruct c as [t a k e v], c' as [t' a' k' e' v']. rewrite !default_aad, !app_nil_r, !Forall_cons. simpl.
  intros (? & ? & ? & ? & _) (? & ? & ? & ? & _) E.
  apply cut_first_bar in E as [-> E]; [|done..]. apply cut_first_bar in E as [-> E]; [|done..].
  apply cut_first_bar in E as [-> E]; [|done..]. apply cut_first_bar in E as [-> E]; [|done..].
  apply FormatInt_inj in E. by subst.
Qed.

Definition demo_aad : AADContext := mkAAD (str "acme") (str "crm") (str "orders") (str "e-1") (-7).

Lemma aad_binds_context_witness : demo_aad = demo_aad.
Proof. apply (aad_binds_context demo_aad demo_aad); [by_decide|by_decide|reflexivity]. Defined.

(** Identifiers that contain the separator escape the binding: two
    different tenants get the same additional data. *)
Theorem aad_separator_ambiguity :
  ∃ c c', aad_TenantID c ≠ aad_TenantID c'
    ∧ BuildAAD DefaultAADTemplate c = BuildAAD DefaultAADTemplate c'.
Proof.
  exists (mkAAD (str "a|b") (str "c") (str "k") (str "e") 1),
         (mkAAD (str "a") (str "b|c") (str "k") (str "e") 1).
  split; [discriminate|vm_compute; reflexivity].
Qed.
