(* ===== verification/Json.v ===== *)
(** * encoding/json: what the gateway serialises

    String quoting (with the HTML-safe escapes [json.Marshal] applies), the
    scanner that validates a [json.RawMessage] and its compaction, and the
    RFC 3339 text of a [time.Time].  The scanner is Go's push-down automaton,
    one state per step function. *)

From S2P Require Import Prelude GoStrings.

Local Open Scope Z_scope.

(** ** Quoting strings *)

Definition json_hex (z : Z) : ascii := nth (Z.to_nat z) (str "0123456789abcdef") "0"%char.

Definition u00 (c : ascii) : gostring :=
  str "\u00" ++ [json_hex (byte_val c / 16); json_hex (byte_val c mod 16)].

Definition html_byte (c : ascii) : bool :=
  bool_decide (c = "<"%char) || bool_decide (c = ">"%char) || bool_decide (c = "&"%char).

(** An ASCII byte of a quoted string. *)
Definition quote_ascii (c : ascii) : gostring :=
  let z := byte_val c in
  if decide (c = DQUOTE ∨ c = BACKSLASH) then [BACKSLASH; c]
  else if decide (z = 8) then str "\b"
  else if decide (z = 12) then str "\f"
  else if decide (z = 10) then str "\n"
  else if decide (z = 13) then str "\r"
  else if decide (z = 9) then str "\t"
  else if bool_decide (z < 32) || html_byte c then u00 c
  else [c].

(** U+2028 and U+2029 are E2 80 A8 and E2 80 A9. *)
Definition line_separator (b0 b1 b2 : ascii) : bool :=
  in_range 226 226 b0 && in_range 128 128 b1 && in_range 168 169 b2.
Definition u202 (b2 : ascii) : gostring := str "\u202" ++ [json_hex (byte_val b2 mod 16)].

Definition replacement : gostring := str "\ufffd".

(** The body of a quoted string, rune by rune; a byte that starts no valid rune
    is replaced. *)
Fixpoint quote_body (s : gostring) : gostring :=
  match s with
  | [] => []
  | b0 :: s0 =>
      if in_range 0 127 b0 then quote_ascii b0 ++ quote_body s0
      else match s0 with
           | [] => replacement
           | b1 :: s1 =>
               if in_range 194 223 b0 && utf8_cont b1 then b0 :: b1 :: quote_body s1
               else match s1 with
                    | b2 :: s2 =>
                        if utf8_second3 b0 b1 && utf8_cont b2 then
                          (if line_separator b0 b1 b2 then u202 b2 else [b0; b1; b2]) ++ quote_body s2
                        else match s2 with
                             | b3 :: s3 =>
                                 if utf8_second4 b0 b1 && utf8_cont b2 && utf8_cont b3
                                 then b0 :: b1 :: b2 :: b3 :: quote_body s3
                                 else replacement ++ quote_body s0
                             | [] => replacement ++ quote_body s0
                             end
                    | [] => replacement ++ quote_body s0
                    end
           end
  end.

Definition quote_json (s : gostring) : gostring := [DQUOTE] ++ quote_body s ++ [DQUOTE].

(** ** The scanner *)

Inductive frame_state := ParseObjectKey | ParseObjectValue | ParseArrayValue.

Inductive scan_state :=
| BeginValue | BeginValueOrEmpty | BeginStringOrEmpty | BeginString
| EndValue | EndTop
| InString | InStringEsc | InStringEscU (remaining : nat)
| Neg | Digits | Zero | Dot | Dot0 | Exp | ExpSign | Exp0
| Literal (rest : gostring).

Record scanner := mkScanner { sstep : scan_state; stack : list frame_state }.

Inductive scan_op := Continue | Skip.

Definition json_space (c : ascii) : bool :=
  bool_decide (c ∈ (byte_of <$> [9; 10; 13; 32])).
Definition digit (c : ascii) : bool := in_range 48 57 c.
Definition hex_digit_in (c : ascii) : bool := digit c || in_range 97 102 c || in_range 65 70 c.
Definition maxNestingDepth : nat := 10000.

Definition push (f : frame_state) (st : scan_state) (k : list frame_state) : option (scanner * scan_op) :=
  if decide (S (length k) ≤ maxNestingDepth)%nat then Some (mkScanner st (f :: k), Continue) else None.

Definition pop (k : list frame_state) : scanner :=
  match tail k with [] => mkScanner EndTop [] | k' => mkScanner EndValue k' end.

Definition scan_begin (c : ascii) (k : list frame_state) : option (scanner * scan_op) :=
  if json_space c then Some (mkScanner BeginValue k, Skip)
  else if decide (c = "{"%char) then push ParseObjectKey BeginStringOrEmpty k
  else if decide (c = "["%char) then push ParseArrayValue BeginValueOrEmpty k
  else if decide (c = DQUOTE) then Some (mkScanner InString k, Continue)
  else if decide (c = "-"%char) then Some (mkScanner Neg k, Continue)
  else if decide (c = "0"%char) then Some (mkScanner Zero k, Continue)
  else if decide (c = "t"%char) then Some (mkScanner (Literal (str "rue")) k, Continue)
  else if decide (c = "f"%char) then Some (mkScanner (Literal (str "alse")) k, Continue)
  else if decide (c = "n"%char) then Some (mkScanner (Literal (str "ull")) k, Continue)
  else if digit c then Some (mkScanner Digits k, Continue)
  else None.

Definition scan_end (c : ascii) (k : list frame_state) : option (scanner * scan_op) :=
  match k with
  | [] => if json_space c then Some (mkScanner EndTop [], Skip) else None
  | f :: k' =>
      if json_space c then Some (mkScanner EndValue k, Skip)
      else match f with
      | ParseObjectKey =>
          if decide (c = ":"%char) then Some (mkScanner BeginValue (ParseObjectValue :: k'), Continue) else None
      | ParseObjectValue =>
          if decide (c = ","%char) then Some (mkScanner BeginString (ParseObjectKey :: k'), Continue)
          else if decide (c = "}"%char) then Some (pop k, Continue) else None
      | ParseArrayValue =>
          if decide (c = ","%char) then Some (mkScanner BeginValue k, Continue)
          else if decide (c = "]"%char) then Some (pop k, Continue) else None
      end
  end.

Definition scan_begin_string (c : ascii) (k : list frame_state) : option (scanner * scan_op) :=
  if json_space c then Some (mkScanner BeginString k, Skip)
  else if decide (c = DQUOTE) then Some (mkScanner InString k, Continue)
  else None.

Definition is_exp (c : ascii) : bool := bool_decide (c = "e"%char) || bool_decide (c = "E"%char).

(** [scan.step(scan, c)]; [None] is [scanError]. *)
Definition scan_step (sc : scanner) (c : ascii) : option (scanner * scan_op) :=
  let k := stack sc in
  let go st := Some (mkScanner st k, Continue) in
  match sstep sc with
  | BeginValue => scan_begin c k
  | BeginValueOrEmpty =>
      if json_space c then Some (mkScanner BeginValueOrEmpty k, Skip)
      else if decide (c = "]"%char) then scan_end c k else scan_begin c k
  | BeginStringOrEmpty =>
      if json_space c then Some (mkScanner BeginStringOrEmpty k, Skip)
      else if decide (c = "}"%char) then scan_end c (ParseObjectValue :: tail k)
      else scan_begin_string c k
  | BeginString => scan_begin_string c k
  | EndValue | EndTop => scan_end c k
  | InString =>
      if decide (c = DQUOTE) then go EndValue
      else if decide (c = BACKSLASH) then go InStringEsc
      else if decide (byte_val c < 32) then None else go InString
  | InStringEsc =>
      if decide (c ∈ str "bfnrt/" ++ [BACKSLASH; DQUOTE]) then go InString
      else if decide (c = "u"%char) then go (InStringEscU 4) else None
  | InStringEscU n =>
      if hex_digit_in c then go (if decide (n ≤ 1)%nat then InString else InStringEscU (n - 1)) else None
  | Neg => if decide (c = "0"%char) then go Zero else if digit c then go Digits else None
  | Digits =>
      if digit c then go Digits
      else if decide (c = "."%char) then go Dot else if is_exp c then go Exp else scan_end c k
  | Zero => if decide (c = "."%char) then go Dot else if is_exp c then go Exp else scan_end c k
  | Dot => if digit c then go Dot0 else None
  | Dot0 => if digit c then go Dot0 else if is_exp c then go Exp else scan_end c k
  | Exp =>
      if decide (c = "+"%char ∨ c = "-"%char) then go ExpSign
      else if digit c then go Exp0 else None
  | ExpSign => if digit c then go Exp0 else None
  | Exp0 => if digit c then go Exp0 else scan_end c k
  | Literal [] => None
  | Literal (x :: r) =>
      if decide (c = x) then go (match r with [] => EndValue | _ => Literal r end) else None
  end.

(** [scan.eof()]: the end of the text is tried as a space. *)
Definition scan_eof (sc : scanner) : bool :=
  match sstep sc with
  | EndTop => true
  | _ => match scan_step sc " "%char with
         | Some (mkScanner EndTop _, _) => true
         | _ => false
         end
  end.

(** ** [appendCompact(dst, src, escape = true)] *)

(** The last byte of a line separator that starts with [c]. *)
Definition separator_at (c : ascii) (src : gostring) : option ascii :=
  match src with
  | b1 :: b2 :: _ => if line_separator c b1 b2 then Some b2 else None
  | _ => None
  end.

(** [skip] counts the bytes of a line separator already written in escaped
    form; the scanner still reads them. *)
Fixpoint compact_from (sc : scanner) (skip : nat) (src : gostring) : option gostring :=
  match src with
  | [] => if scan_eof sc then Some [] else None
  | c :: src' =>
      match scan_step sc c with
      | None => None
      | Some (sc', op) =>
          match skip with
          | S n => compact_from sc' n src'
          | O =>
              match separator_at c src' with
              | Some b2 => rest ← compact_from sc' 2 src'; Some (u202 b2 ++ rest)
              | None =>
                  rest ← compact_from sc' 0 src';
                  Some ((if html_byte c then u00 c else match op with Skip => [] | Continue => [c] end) ++ rest)
              end
          end
      end
  end.

Definition compact (src : gostring) : option gostring := compact_from (mkScanner BeginValue []) 0 src.

(** [json.RawMessage.MarshalJSON] followed by compaction: the nil message,
    which is what decryption yields for an empty plaintext, is [null]. *)
Definition marshal_raw (m : gostring) : option gostring :=
  if decide (m = []) then Some (str "null") else compact m.

(** Text with ['] for the double quote. *)
Definition jtext (s : string) : gostring := (λ c, if decide (c = "'"%char) then DQUOTE else c) <$> str s.

Example compact_spaces :
  compact (jtext " { 'a' : [ 1.5e3 , true , null, {} , 'x<y' ] } ")
  = Some (jtext "{'a':[1.5e3,true,null,{},'x\u003cy']}").
Proof. vm_compute. reflexivity. Qed.
Example compact_rejects :
  compact <$> [jtext "{'a':}"; jtext "[1,]"; jtext "'a"; jtext "01"; jtext "nul"; jtext "1 2"; jtext ""]
  = replicate 7 None.
Proof. vm_compute. reflexivity. Qed.

(** ** [time.Time.MarshalJSON]: RFC 3339 with nanoseconds *)
Record Time := mkTime {
  year : Z; month : Z; day : Z; hour : Z; minute : Z; sec : Z; nsec : Z;
  zoneOffset : Z;             (* minutes east of UTC *)
}.

(** Decimal digits of a non-negative number, zero-padded to [n] places. *)
Fixpoint padded (n : nat) (v : Z) : gostring :=
  match n with O => [] | S n' => padded n' (v / 10) ++ [byte_of (48 + v mod 10)] end.

Fixpoint drop_zeros (s : gostring) : gostring :=
  match s with
  | c :: s' => if decide (c = "0"%char) then drop_zeros s' else s
  | [] => []
  end.

Definition fraction (ns : Z) : gostring :=
  if decide (ns = 0) then [] else str "." ++ reverse (drop_zeros (reverse (padded 9 ns))).

Definition zone_text (off : Z) : gostring :=
  if decide (off = 0) then str "Z"
  else (if decide (off < 0) then str "-" else str "+")
       ++ padded 2 (Z.abs off / 60) ++ str ":" ++ padded 2 (Z.abs off mod 60).

Definition rfc3339 (t : Time) : gostring :=
  padded 4 (year t) ++ str "-" ++ padded 2 (month t) ++ str "-" ++ padded 2 (day t) ++ str "T"
  ++ padded 2 (hour t) ++ str ":" ++ padded 2 (minute t) ++ str ":" ++ padded 2 (sec t)
  ++ fraction (nsec t) ++ zone_text (zoneOffset t).

(** Years outside [0, 9999] and zones of a day or more have no text. *)
Definition marshal_time (t : Time) : option gostring :=
  if decide (0 ≤ year t ≤ 9999 ∧ Z.abs (zoneOffset t) < 24 * 60)
  then Some ([DQUOTE] ++ rfc3339 t ++ [DQUOTE]) else None.

Example rfc3339_ex :
  rfc3339 (mkTime 2024 2 29 7 5 9 120000000 (-90)) = str "2024-02-29T07:05:09.12-01:30".
Proof. vm_compute. reflexivity. Qed.

(** ** No control bytes in serialised text *)

Definition printable (c : ascii) : Prop := 32 ≤ byte_val c.
Definition clean (s : gostring) : Prop := Forall printable s.

Global Instance printable_dec c : Decision (printable c).
Proof. unfold printable. apply _. Defined.
Global Instance clean_dec s : Decision (clean s).
Proof. unfold clean. apply _. Defined.

Lemma clean_app s t : clean s → clean t → clean (s ++ t).
Proof. intros. by apply Forall_app. Qed.

Lemma clean_no_break s : clean s → LF ∉ s ∧ CR ∉ s.
Proof.
  unfold clean. rewrite Forall_forall. intros H. split; intros Hin%H; revert Hin; by_decide.
Qed.

Lemma clean_single c : printable c → clean [c].
Proof. by repeat constructor. Qed.

Create HintDb json.
#[export] Hint Resolve clean_app clean_single : json.

Lemma json_hex_printable z : printable (json_hex z).
Proof.
  unfold json_hex. destruct (nth_in_or_default (Z.to_nat z) (str "0123456789abcdef") "0"%char) as [H| ->];
    [|by_decide].
  apply list_elem_of_In in H. revert H. generalize (nth (Z.to_nat z) (str "0123456789abcdef") "0"%char).
  apply Forall_forall. by_decide.
Qed.

Lemma u00_clean c : clean (u00 c).
Proof. apply clean_app; [by_decide|]. repeat constructor; apply json_hex_printable. Qed.

Lemma u202_clean c : clean (u202 c).
Proof. apply clean_app; [by_decide|]. apply clean_single, json_hex_printable. Qed.

Lemma quote_ascii_clean c : clean (quote_ascii c).
Proof. revert c. apply byte_forall. by_decide. Qed.

Lemma high_byte_printable lo hi c : 32 ≤ lo → in_range lo hi c = true → printable c.
Proof. intros Hlo H%bool_decide_eq_true_1. unfold printable. lia. Qed.

Lemma utf8_cont_printable c : utf8_cont c = true → printable c.
Proof. apply (high_byte_printable 128 191). lia. Qed.

Lemma second3_printable b0 b1 : utf8_second3 b0 b1 = true → printable b0 ∧ printable b1.
Proof.
  unfold utf8_second3. rewrite !orb_true_iff, !andb_true_iff.
  intros [[[[]|[]]|[]]|[]]; split; (eapply high_byte_printable; [|done]); lia.
Qed.

Lemma second4_printable b0 b1 : utf8_second4 b0 b1 = true → printable b0 ∧ printable b1.
Proof.
  unfold utf8_second4. rewrite !orb_true_iff, !andb_true_iff.
  intros [[[]|[]]|[]]; split; (eapply high_byte_printable; [|done]); lia.
Qed.

Lemma quote_body_clean s : clean (quote_body s).
Proof.
  remember (length s) as n eqn:Hn. revert s Hn. induction n as [n IH] using lt_wf_ind.
  intros s ->. assert (∀ s', (length s' < length s)%nat → clean (quote_body s')) as H by eauto. clear IH.
  assert (clean replacement) as Hr by by_decide.
  destruct s as [|b0 s0]; [by_decide|]. cbn [quote_body].
  destruct (in_range 0 127 b0); [apply clean_app; [apply quote_ascii_clean|apply H; simpl; lia]|].
  assert (clean (replacement ++ quote_body s0)) as Hbad by (apply clean_app; [done|apply H; simpl; lia]).
  destruct s0 as [|b1 s1]; [done|].
  destruct (in_range 194 223 b0 && utf8_cont b1) eqn:E2.
  { apply andb_true_iff in E2 as [E1 E2]. repeat apply Forall_cons_2;
      [by apply (high_byte_printable 194 223)|by apply utf8_cont_printable|apply H; simpl; lia]. }
  destruct s1 as [|b2 s2]; [done|].
  destruct (utf8_second3 b0 b1 && utf8_cont b2) eqn:E3.
  { apply andb_true_iff in E3 as [[E1 E2']%second3_printable E3%utf8_cont_printable].
    apply clean_app; [|apply H; simpl; lia]. case_match; [apply u202_clean|by repeat constructor]. }
  destruct s2 as [|b3 s3]; [done|].
  destruct (utf8_second4 b0 b1 && utf8_cont b2 && utf8_cont b3) eqn:E4; [|done].
  rewrite !andb_true_iff in E4. destruct E4 as [[[E1 E2']%second4_printable E5%utf8_cont_printable] E6%utf8_cont_printable].
  repeat apply Forall_cons_2; try done. apply H. simpl. lia.
Qed.

Lemma quote_json_clean s : clean (quote_json s).
Proof. apply clean_app; [by_decide|]. apply clean_app; [apply quote_body_clean|by_decide]. Qed.

(** A byte the scanner keeps is not a control byte. *)
Lemma digit_printable c : digit c = true → printable c.
Proof. apply (high_byte_printable 48 57). lia. Qed.

(** The only literals the scanner expects are [true], [false] and [null]. *)
Definition scan_ok (sc : scanner) : Prop :=
  match sstep sc with Literal r => clean r | _ => True end.

Lemma scan_begin_ok c k sc op : scan_begin c k = Some (sc, op) → scan_ok sc.
Proof. unfold scan_begin, push. intros E. repeat case_match; simplify_eq; try done; by_decide. Qed.

Lemma scan_end_ok c k sc op : scan_end c k = Some (sc, op) → scan_ok sc.
Proof. unfold scan_end, pop. intros E. repeat case_match; simplify_eq; done. Qed.

Lemma scan_step_ok sc c sc' op : scan_ok sc → scan_step sc c = Some (sc', op) → scan_ok sc'.
Proof.
  intros Hok E. unfold scan_step, scan_begin_string in E. unfold scan_ok in Hok.
  destruct (sstep sc) as [| | | | | | | |n| | | | | | | | |[|x r]]; repeat case_match; simplify_eq;
    eauto using scan_begin_ok, scan_end_ok; try done.
  unfold scan_ok. simpl. by apply Forall_cons in Hok as [_ ?].
Qed.

(** A control byte is never kept, in any state. *)
Lemma scan_step_control sc c sc' :
  scan_ok sc → scan_step sc c = Some (sc', Continue) → printable c.
Proof.
  destruct (decide (printable c)) as [|Hc]; [done|]. intros Hok E. exfalso. revert E.
  assert (byte_val c < 32) as Hlow by (unfold printable in Hc; lia).
  assert (∀ x : ascii, printable x → c ≠ x) as Hne by (intros x Hx ->; done).
  assert (digit c = false) as Hd.
  { destruct (digit c) eqn:E; [|done]. by apply digit_printable in E. }
  assert (hex_digit_in c = false) as Hh.
  { unfold hex_digit_in. rewrite Hd. simpl. unfold in_range. rewrite !bool_decide_eq_false_2 by lia. done. }
  assert (is_exp c = false) as He.
  { unfold is_exp. rewrite !bool_decide_eq_false_2; [done|apply Hne; by_decide..]. }
  assert (scan_begin c (stack sc) ≠ Some (sc', Continue)) as Hb.
  { unfold scan_begin. rewrite Hd. destruct (json_space c); [done|].
    rewrite !decide_False by (apply Hne; by_decide). done. }
  assert (∀ k, scan_end c k ≠ Some (sc', Continue)) as Hend.
  { intros [|[] k]; unfold scan_end; destruct (json_space c); try done;
      rewrite ?decide_False by (apply Hne; by_decide); done. }
  assert (scan_begin_string c (stack sc) ≠ Some (sc', Continue)) as Hs.
  { unfold scan_begin_string. destruct (json_space c); [done|]. by rewrite decide_False by (apply Hne; by_decide). }
  assert (c ∉ str "bfnrt/" ++ [BACKSLASH; DQUOTE]) as Hesc.
  { intros Hin. apply Hc.
    assert (Forall printable (str "bfnrt/" ++ [BACKSLASH; DQUOTE])) as Hall by by_decide.
    rewrite Forall_forall in Hall. by apply Hall. }
  assert (c ≠ "]"%char ∧ c ≠ "}"%char ∧ c ≠ DQUOTE ∧ c ≠ BACKSLASH ∧ c ≠ "u"%char ∧ c ≠ "0"%char
          ∧ c ≠ "."%char ∧ c ≠ "+"%char ∧ c ≠ "-"%char) as (N1 & N2 & N3 & N4 & N5 & N6 & N7 & N8 & N9).
  { split_and!; apply Hne; by_decide. }
  unfold scan_ok in Hok. unfold scan_step.
  destruct (sstep sc) as [| | | | | | | |n| | | | | | | | |[|x r]]; rewrite ?Hd, ?Hh, ?He;
    try done; try apply Hend.
  - destruct (json_space c); [done|]. by rewrite decide_False.
  - destruct (json_space c); [done|]. by rewrite decide_False.
  - rewrite !decide_False by done. by rewrite decide_True.
  - by rewrite !decide_False.
  - by rewrite decide_False.
  - rewrite decide_False by done. apply Hend.
  - rewrite decide_False by done. apply Hend.
  - by rewrite decide_False by tauto.
  - apply Forall_cons in Hok as [Hx _]. by rewrite decide_False by by apply Hne.
Qed.

Lemma compact_from_clean sc skip src out :
  scan_ok sc → compact_from sc skip src = Some out → clean out.
Proof.
  revert sc skip out. induction src as [|c src IH]; intros sc skip out Hok; cbn [compact_from].
  { case_match; [|done]. intros [= <-]. by_decide. }
  destruct (scan_step sc c) as [[sc' op]|] eqn:E; [|done].
  pose proof (scan_step_ok _ _ _ _ Hok E) as Hok'. destruct skip as [|n]; [|by apply IH].
  destruct (separator_at c src) as [b2|].
  - intros (rest & Hr & Heq)%bind_Some. injection Heq as <-.
    apply (clean_app (u202 b2)); [apply u202_clean|by eapply IH].
  - intros (rest & Hr & Heq)%bind_Some. injection Heq as <-. apply clean_app; [|by eapply IH].
    case_match; [apply u00_clean|]. destruct op; [|by_decide]. apply clean_single. by apply (scan_step_control sc c sc').
Qed.

(** What [json.Marshal] writes for a decrypted [RawMessage] contains no
    control byte at all, in particular no line break, whatever the plaintext. *)
Lemma marshal_raw_clean m out : marshal_raw m = Some out → clean out.
Proof. unfold marshal_raw. case_decide; [intros [= <-]; by_decide|]. by apply compact_from_clean. Qed.

Lemma padded_clean n v : clean (padded n v).
Proof.
  revert v. induction n as [|n IH]; intros v; simpl; [by_decide|]. apply clean_app; [apply IH|].
  apply clean_single. unfold printable. rewrite byte_val_of.
  pose proof (Z.mod_pos_bound v 10). rewrite Z.mod_small; lia.
Qed.

Lemma drop_zeros_clean s : clean s → clean (drop_zeros s).
Proof. induction 1; simpl; [by_decide|]. case_decide; [done|by constructor]. Qed.

Lemma fraction_clean ns : clean (fraction ns).
Proof.
  unfold fraction. case_decide; [by_decide|]. apply (clean_app (str ".")); [by_decide|].
  apply Forall_reverse, drop_zeros_clean, Forall_reverse, padded_clean.
Qed.

Lemma zone_text_clean off : clean (zone_text off).
Proof.
  unfold zone_text. case_decide; [by_decide|].
  unfold clean. rewrite !Forall_app. split_and!; try apply padded_clean; [case_decide; by_decide|by_decide].
Qed.

Lemma rfc3339_clean t : clean (rfc3339 t).
Proof.
  unfold rfc3339, clean. rewrite !Forall_app.
  split_and!; first [apply padded_clean | apply fraction_clean | apply zone_text_clean | by_decide].
Qed.

Lemma marshal_time_clean t out : marshal_time t = Some out → clean out.
Proof.
  unfold marshal_time. generalize (rfc3339_clean t). generalize (rfc3339 t). intros s Hs.
  case_decide; [|done]. intros Heq. injection Heq as <-.
  constructor; [by_decide|]. apply clean_app; [done|by_decide].
Qed.
