(* ===== verification/JsonParse.v ===== *)
(** * encoding/json: reading

    The values of a JSON text as a tree ([parse_value], with the grammar and
    the nesting bound of the scanner of [Json.v]), the text of a tree
    ([print]), and what a quoted string stands for ([unquote]: escapes, UTF-16
    surrogates, replacement of invalid UTF-8).  A string of the tree is the raw
    text between its quotes: [time.Time] reads it without unquoting. *)

From S2P Require Import Prelude GoStrings Json.

Local Open Scope Z_scope.

Inductive json :=
| JNull
| JBool (b : bool)
| JNumber (text : gostring)
| JString (raw : gostring)
| JArray (l : list json)
| JObject (l : list (gostring * json)).

(** Induction with the members of arrays and objects. *)
Section json_ind.
Context (P : json → Prop) (Hnull : P JNull) (Hbool : ∀ b, P (JBool b)) (Hnum : ∀ t, P (JNumber t))
  (Hstr : ∀ r, P (JString r)) (Harr : ∀ l, Forall P l → P (JArray l))
  (Hobj : ∀ l, Forall (λ m, P m.2) l → P (JObject l)).
Fixpoint json_induction (j : json) : P j :=
  match j with
  | JNull => Hnull
  | JBool b => Hbool b
  | JNumber t => Hnum t
  | JString r => Hstr r
  | JArray l => Harr l ((fix go l : Forall P l := match l with
                                     | [] => Forall_nil_2 _
                                     | x :: l' => Forall_cons_2 _ _ _ (json_induction x) (go l')
                                     end) l)
  | JObject l => Hobj l ((fix go l : Forall (λ m, P m.2) l :=
                            match l with
                            | [] => Forall_nil_2 _
                            | m :: l' => Forall_cons_2 _ _ _ (json_induction m.2) (go l')
                            end) l)
  end.
End json_ind.

(** ** Tokens *)
Fixpoint skip_spaces (s : gostring) : gostring :=
  match s with
  | c :: s' => if json_space c then skip_spaces s' else s
  | [] => []
  end.

Definition prepend (p : gostring) (r : gostring * gostring) : gostring * gostring := (p ++ r.1, r.2).

Definition simple_escape (c : ascii) : bool := bool_decide (c ∈ str "bfnrt/" ++ [BACKSLASH; DQUOTE]).

(** A string after its opening quote: its raw text and what follows. *)
Fixpoint lex_string (s : gostring) : option (gostring * gostring) :=
  match s with
  | [] => None
  | c :: s' =>
      if decide (c = DQUOTE) then Some ([], s')
      else if decide (c = BACKSLASH) then
        match s' with
        | e :: s1 =>
            if simple_escape e then prepend [c; e] <$> lex_string s1
            else if decide (e = "u"%char) then
              match s1 with
              | h1 :: h2 :: h3 :: h4 :: s2 =>
                  if hex_digit_in h1 && hex_digit_in h2 && hex_digit_in h3 && hex_digit_in h4
                  then prepend [c; e; h1; h2; h3; h4] <$> lex_string s2 else None
              | _ => None
              end
            else None
        | [] => None
        end
      else if decide (byte_val c < 32) then None
      else prepend [c] <$> lex_string s'
  end.

(** The longest run of digits. *)
Fixpoint span_digits (s : gostring) : gostring * gostring :=
  match s with
  | c :: s' => if digit c then prepend [c] (span_digits s') else ([], s)
  | [] => ([], [])
  end.

(** One digit or more. *)
Definition digits1 (s : gostring) : option (gostring * gostring) :=
  match s with c :: s' => if digit c then Some (span_digits s) else None | [] => None end.

Definition lex_int (s : gostring) : option (gostring * gostring) :=
  match s with
  | c :: s' => if decide (c = "0"%char) then Some ([c], s') else digits1 s
  | [] => None
  end.

Definition lex_frac (s : gostring) : option (gostring * gostring) :=
  match s with
  | c :: s' => if decide (c = "."%char) then prepend [c] <$> digits1 s' else Some ([], s)
  | [] => Some ([], [])
  end.

Definition lex_exp (s : gostring) : option (gostring * gostring) :=
  match s with
  | c :: s' =>
      if is_exp c then
        match s' with
        | d :: s'' =>
            if decide (d = "+"%char ∨ d = "-"%char) then prepend [c; d] <$> digits1 s''
            else prepend [c] <$> digits1 s'
        | [] => None
        end
      else Some ([], s)
  | [] => Some ([], [])
  end.

Definition lex_unsigned (s : gostring) : option (gostring * gostring) :=
  '(i, s1) ← lex_int s;
  '(f, s2) ← lex_frac s1;
  '(e, s3) ← lex_exp s2;
  Some (i ++ f ++ e, s3).

Definition lex_number (s : gostring) : option (gostring * gostring) :=
  match s with
  | c :: s' => if decide (c = "-"%char) then prepend [c] <$> lex_unsigned s' else lex_unsigned s
  | [] => None
  end.

(** ** Values

    [depth] is the number of arrays and objects around the value.  Twice the
    length of the text is enough fuel: of two rounds one reads a byte
    ([parse_value_fuel]). *)
Fixpoint parse_value (fuel depth : nat) (s : gostring) : option (json * gostring) :=
  match fuel with
  | O => None
  | S fuel =>
      match skip_spaces s with
      | [] => None
      | c :: s' =>
          if decide (c = "{"%char) then
            if decide (S depth ≤ maxNestingDepth)%nat then
              match skip_spaces s' with
              | d :: r =>
                  if decide (d = "}"%char) then Some (JObject [], r)
                  else '(l, r) ← parse_members fuel (S depth) s'; Some (JObject l, r)
              | [] => None
              end
            else None
          else if decide (c = "["%char) then
            if decide (S depth ≤ maxNestingDepth)%nat then
              match skip_spaces s' with
              | d :: r =>
                  if decide (d = "]"%char) then Some (JArray [], r)
                  else '(l, r) ← parse_elements fuel (S depth) s'; Some (JArray l, r)
              | [] => None
              end
            else None
          else if decide (c = DQUOTE) then '(raw, r) ← lex_string s'; Some (JString raw, r)
          else if decide (c = "t"%char) then r ← CutPrefix s' (str "rue"); Some (JBool true, r)
          else if decide (c = "f"%char) then r ← CutPrefix s' (str "alse"); Some (JBool false, r)
          else if decide (c = "n"%char) then r ← CutPrefix s' (str "ull"); Some (JNull, r)
          else '(t, r) ← lex_number (c :: s'); Some (JNumber t, r)
      end
  end
with parse_members (fuel depth : nat) (s : gostring) : option (list (gostring * json) * gostring) :=
  match fuel with
  | O => None
  | S fuel =>
      match skip_spaces s with
      | q :: s1 =>
          if decide (q = DQUOTE) then
            '(k, s2) ← lex_string s1;
            match skip_spaces s2 with
            | c :: s3 =>
                if decide (c = ":"%char) then
                  '(v, s4) ← parse_value fuel depth s3;
                  match skip_spaces s4 with
                  | d :: s5 =>
                      if decide (d = ","%char) then '(l, r) ← parse_members fuel depth s5; Some ((k, v) :: l, r)
                      else if decide (d = "}"%char) then Some ([(k, v)], s5) else None
                  | [] => None
                  end
                else None
            | [] => None
            end
          else None
      | [] => None
      end
  end
with parse_elements (fuel depth : nat) (s : gostring) : option (list json * gostring) :=
  match fuel with
  | O => None
  | S fuel =>
      '(v, s1) ← parse_value fuel depth s;
      match skip_spaces s1 with
      | d :: s2 =>
          if decide (d = ","%char) then '(l, r) ← parse_elements fuel depth s2; Some (v :: l, r)
          else if decide (d = "]"%char) then Some ([v], s2) else None
      | [] => None
      end
  end.

Definition first_value (s : gostring) : option (json * gostring) := parse_value (2 * length s + 1) 0 s.

(** A text that is one value and nothing else ([checkValid]). *)
Definition parse_text (s : gostring) : option json :=
  '(v, r) ← first_value s;
  if decide (skip_spaces r = []) then Some v else None.

Example parse_text_ex :
  parse_text (jtext " { 'a' : [ 1.5e3 , true , null, {} , 'x\n' ] , 'b':-0 } ")
  = Some (JObject [(str "a", JArray [JNumber (str "1.5e3"); JBool true; JNull; JObject []; JString (str "x\n")]);
                   (str "b", JNumber (str "-0"))]).
Proof. vm_compute. reflexivity. Qed.
Example parse_text_rejects :
  parse_text <$> [jtext "{'a':}"; jtext "[1,]"; jtext "'a"; jtext "01"; jtext "nul"; jtext "1 2"; jtext "";
                  jtext "-"; jtext "1."; jtext "2e"; jtext "{'a' 1}"; jtext "'\x'"; jtext "'\u12g4'"; jtext "[1"; jtext "{,}"]
  = replicate 15 None.
Proof. vm_compute. reflexivity. Qed.

(** ** Text of a tree *)
Fixpoint print (j : json) : gostring :=
  match j with
  | JNull => str "null"
  | JBool b => if b then str "true" else str "false"
  | JNumber t => t
  | JString raw => [DQUOTE] ++ raw ++ [DQUOTE]
  | JArray l => str "[" ++ (fix go l := match l with
                                        | [] => []
                                        | [x] => print x
                                        | x :: l' => print x ++ str "," ++ go l'
                                        end) l ++ str "]"
  | JObject l => str "{" ++ (fix go l := match l with
                                         | [] => []
                                         | [(k, v)] => [DQUOTE] ++ k ++ [DQUOTE] ++ str ":" ++ print v
                                         | (k, v) :: l' => [DQUOTE] ++ k ++ [DQUOTE] ++ str ":" ++ print v ++ str "," ++ go l'
                                         end) l ++ str "}"
  end.

(** ** Strings *)
Definition hex_val (c : ascii) : Z :=
  let v := byte_val c in
  if digit c then v - 48 else if in_range 97 102 c then v - 87 else if in_range 65 70 c then v - 55 else 0.
Definition u4 (h1 h2 h3 h4 : ascii) : Z := ((hex_val h1 * 16 + hex_val h2) * 16 + hex_val h3) * 16 + hex_val h4.

Definition is_surrogate (r : Z) : bool := bool_decide (55296 ≤ r < 57344).
Definition rune_error : gostring := byte_of <$> [239; 191; 189].   (* U+FFFD *)

(** [utf8.EncodeRune] *)
Definition encode_rune (r : Z) : gostring :=
  if decide (r < 128) then [byte_of r]
  else if decide (r < 2048) then [byte_of (192 + r / 64); byte_of (128 + r mod 64)]
  else if is_surrogate r || bool_decide (1114111 < r) then rune_error
  else if decide (r < 65536) then [byte_of (224 + r / 4096); byte_of (128 + r / 64 mod 64); byte_of (128 + r mod 64)]
  else [byte_of (240 + r / 262144); byte_of (128 + r / 4096 mod 64); byte_of (128 + r / 64 mod 64); byte_of (128 + r mod 64)].

(** [utf16.DecodeRune]: [None] is the replacement rune. *)
Definition decode_pair (r1 r2 : Z) : option Z :=
  if decide (55296 ≤ r1 < 56320 ∧ 56320 ≤ r2 < 57344) then Some ((r1 - 55296) * 1024 + (r2 - 56320) + 65536) else None.

Definition unescape (e : ascii) : ascii :=
  if decide (e = "b"%char) then byte_of 8
  else if decide (e = "f"%char) then byte_of 12
  else if decide (e = "n"%char) then byte_of 10
  else if decide (e = "r"%char) then byte_of 13
  else if decide (e = "t"%char) then byte_of 9
  else e.

(** [unquoteBytes] on the text between the quotes. *)
Fixpoint unquote (s : gostring) : gostring :=
  match s with
  | [] => []
  | b0 :: s0 =>
      if decide (b0 = BACKSLASH) then
        match s0 with
        | [] => []
        | e :: s1 =>
            if decide (e = "u"%char) then
              match s1 with
              | h1 :: h2 :: h3 :: h4 :: s2 =>
                  let rr := u4 h1 h2 h3 h4 in
                  if is_surrogate rr then
                    match s2 with
                    | b :: u :: g1 :: g2 :: g3 :: g4 :: s3 =>
                        if decide (b = BACKSLASH ∧ u = "u"%char) then
                          match decode_pair rr (u4 g1 g2 g3 g4) with
                          | Some dec => encode_rune dec ++ unquote s3
                          | None => rune_error ++ unquote s2
                          end
                        else rune_error ++ unquote s2
                    | _ => rune_error ++ unquote s2
                    end
                  else encode_rune rr ++ unquote s2
              | _ => []
              end
            else if simple_escape e then unescape e :: unquote s1 else []
        end
      else if in_range 0 127 b0 then b0 :: unquote s0
      else match s0 with
           | [] => rune_error
           | b1 :: s1 =>
               if in_range 194 223 b0 && utf8_cont b1 then b0 :: b1 :: unquote s1
               else match s1 with
                    | b2 :: s2 =>
                        if utf8_second3 b0 b1 && utf8_cont b2 then b0 :: b1 :: b2 :: unquote s2
                        else match s2 with
                             | b3 :: s3 =>
                                 if utf8_second4 b0 b1 && utf8_cont b2 && utf8_cont b3
                                 then b0 :: b1 :: b2 :: b3 :: unquote s3
                                 else rune_error ++ unquote s0
                             | [] => rune_error ++ unquote s0
                             end
                    | [] => rune_error ++ unquote s0
                    end
           end
  end.

Example unquote_ex :
  unquote (str "a\u00e9\n\ud83d\ude00\ud83dx\/") = str "aé" ++ [LF] ++ str "😀" ++ rune_error ++ str "x/".
Proof. vm_compute. reflexivity. Qed.

(** ** Lexing a text that goes on *)

Lemma lex_string_rest s a b rest : lex_string s = Some (a, b) → lex_string (s ++ rest) = Some (a, b ++ rest).
Proof.
  revert a b. induction s as [s IH] using (induction_ltof1 _ length). unfold ltof in IH. intros a b.
  assert (∀ p s', (length s' < length s)%nat → prepend p <$> lex_string s' = Some (a, b) →
            prepend p <$> lex_string (s' ++ rest) = Some (a, b ++ rest)) as Hpre.
  { intros p s' Hl H. destruct (lex_string s') as [[a' b']|] eqn:E; [|done]. injection H as <- <-.
    by rewrite (IH _ Hl _ _ E). }
  destruct s as [|c s]; [done|]. simpl in *. case_decide; [by intros [= <- <-]|].
  case_decide; [|case_decide; [done|by apply Hpre; lia]]. destruct s as [|e s]; [done|]. simpl in *.
  destruct (simple_escape e); [apply Hpre; lia|]. case_decide; [|done].
  destruct s as [|h1 [|h2 [|h3 [|h4 s]]]]; try done. simpl in *.
  destruct (_ && hex_digit_in h4); [apply Hpre; lia|done].
Qed.

(** What may follow a number without prolonging it. *)
Definition num_end (s : gostring) : Prop :=
  match s with c :: _ => digit c = false ∧ c ≠ "."%char ∧ is_exp c = false | [] => True end.

Lemma span_digits_rest s a b rest :
  (b = [] → num_end rest) → span_digits s = (a, b) → span_digits (s ++ rest) = (a, b ++ rest).
Proof.
  intros Hr. revert a b Hr. induction s as [|c s IH]; simpl; intros a b Hr.
  - intros [= <- <-]. destruct rest as [|c rest]; [done|]. destruct Hr as (Hd & _); [done|]. simpl. by rewrite Hd.
  - destruct (digit c); [|by intros [= <- <-]]. destruct (span_digits s) as [a' b'] eqn:E. intros [= <- <-].
    by rewrite (IH a' b').
Qed.

Lemma digits1_rest s a b rest :
  (b = [] → num_end rest) → digits1 s = Some (a, b) → digits1 (s ++ rest) = Some (a, b ++ rest).
Proof.
  intros Hr. destruct s as [|c s]; [done|]. change ((c :: s) ++ rest) with (c :: (s ++ rest)). unfold digits1.
  destruct (digit c); [|done]. intros H. apply (inj Some) in H. f_equal. by apply (span_digits_rest (c :: s)).
Qed.

Lemma lex_int_rest s a b rest :
  (b = [] → num_end rest) → lex_int s = Some (a, b) → lex_int (s ++ rest) = Some (a, b ++ rest).
Proof.
  intros Hr. destruct s as [|c s]; [done|]. simpl. case_decide; [by intros [= <- <-]|]. by apply (digits1_rest (c :: s)).
Qed.

Lemma prepend_digits1_rest p s a b rest :
  (b = [] → num_end rest) → prepend p <$> digits1 s = Some (a, b) → prepend p <$> digits1 (s ++ rest) = Some (a, b ++ rest).
Proof.
  intros Hr. destruct (digits1 s) as [[a' b']|] eqn:E; [|done]. intros [= <- <-]. by erewrite digits1_rest.
Qed.

Lemma lex_frac_rest s a b rest :
  (b = [] → num_end rest) → lex_frac s = Some (a, b) → lex_frac (s ++ rest) = Some (a, b ++ rest).
Proof.
  intros Hr. destruct s as [|c s]; simpl.
  - intros [= <- <-]. destruct rest as [|c rest]; [done|]. simpl. destruct Hr as (_ & Hd & _); [done|]. by rewrite decide_False.
  - case_decide; [by apply prepend_digits1_rest|]. by intros [= <- <-].
Qed.

Lemma lex_exp_rest s a b rest :
  (b = [] → num_end rest) → lex_exp s = Some (a, b) → lex_exp (s ++ rest) = Some (a, b ++ rest).
Proof.
  intros Hr. destruct s as [|c s]; simpl.
  - intros [= <- <-]. destruct rest as [|c rest]; [done|]. simpl. destruct Hr as (_ & _ & Hd); [done|]. by rewrite Hd.
  - destruct (is_exp c); [|by intros [= <- <-]]. destruct s as [|d s]; [done|]. simpl.
    case_decide; [by apply prepend_digits1_rest|]. by apply (prepend_digits1_rest [c] (d :: s)).
Qed.

Lemma lex_unsigned_rest s a b rest :
  (b = [] → num_end rest) → lex_unsigned s = Some (a, b) → lex_unsigned (s ++ rest) = Some (a, b ++ rest).
Proof.
  intros Hr. unfold lex_unsigned. intros ([i s1] & Hi & H)%bind_Some.
  apply bind_Some in H as ([f s2] & Hf & H). apply bind_Some in H as ([e s3] & He & [= <- <-]).
  assert (s2 = [] → num_end rest) as Hr2. { intros ->. apply Hr. by injection He as <- <-. }
  assert (s1 = [] → num_end rest) as Hr1. { intros ->. apply Hr2. by injection Hf as <- <-. }
  rewrite (lex_int_rest _ _ _ _ Hr1 Hi). simpl. rewrite (lex_frac_rest _ _ _ _ Hr2 Hf). simpl.
  by rewrite (lex_exp_rest _ _ _ _ Hr He).
Qed.

Lemma lex_number_rest s a b rest :
  (b = [] → num_end rest) → lex_number s = Some (a, b) → lex_number (s ++ rest) = Some (a, b ++ rest).
Proof.
  intros Hr. destruct s as [|c s]; [done|]. simpl. case_decide; [|by apply (lex_unsigned_rest (c :: s))].
  destruct (lex_unsigned s) as [[a' b']|] eqn:E; [|done]. intros [= <- <-]. by erewrite lex_unsigned_rest.
Qed.

(** ** Printing and reading back *)
Fixpoint print_elements (l : list json) : gostring :=
  match l with [] => [] | [x] => print x | x :: l' => print x ++ str "," ++ print_elements l' end.
Definition print_key (k : gostring) : gostring := [DQUOTE] ++ k ++ [DQUOTE] ++ str ":".
Fixpoint print_members (l : list (gostring * json)) : gostring :=
  match l with
  | [] => []
  | [(k, v)] => print_key k ++ print v
  | (k, v) :: l' => print_key k ++ print v ++ str "," ++ print_members l'
  end.

Lemma print_array l : print (JArray l) = str "[" ++ print_elements l ++ str "]".
Proof.
  cbn [print]. apply (f_equal (λ t, str "[" ++ t ++ str "]")). induction l as [|x l IH]; [done|]. destruct l as [|y l]; [done|].
  change (print_elements (x :: y :: l)) with (print x ++ str "," ++ print_elements (y :: l)). by rewrite <- IH.
Qed.
Lemma print_object l : print (JObject l) = str "{" ++ print_members l ++ str "}".
Proof.
  cbn [print]. apply (f_equal (λ t, str "{" ++ t ++ str "}")). induction l as [|[k v] l IH]; [done|].
  destruct l as [|y l]; [cbn [print_members]; unfold print_key; by rewrite <- !(assoc_L (++))|].
  change (print_members ((k, v) :: y :: l)) with (print_key k ++ print v ++ str "," ++ print_members (y :: l)).
  rewrite <- IH. unfold print_key. by rewrite <- !(assoc_L (++)).
Qed.

Definition number_ok (t : gostring) : Prop := lex_number t = Some (t, []).
Definition string_ok (raw : gostring) : Prop := lex_string (raw ++ [DQUOTE]) = Some (raw, []).

(** A tree that can stand inside [depth] arrays and objects. *)
Fixpoint json_ok (depth : nat) (j : json) : Prop :=
  match j with
  | JNull | JBool _ => True
  | JNumber t => number_ok t
  | JString raw => string_ok raw
  | JArray l => (S depth ≤ maxNestingDepth)%nat ∧
      (fix go l := match l with [] => True | x :: l' => json_ok (S depth) x ∧ go l' end) l
  | JObject l => (S depth ≤ maxNestingDepth)%nat ∧
      (fix go l := match l with [] => True | (k, v) :: l' => (string_ok k ∧ json_ok (S depth) v) ∧ go l' end) l
  end.

Lemma json_ok_array depth l :
  json_ok depth (JArray l) ↔ (S depth ≤ maxNestingDepth)%nat ∧ Forall (json_ok (S depth)) l.
Proof. simpl. f_equiv. induction l as [|x l IH]; [done|]. by rewrite Forall_cons, IH. Qed.
Lemma json_ok_object depth l :
  json_ok depth (JObject l) ↔ (S depth ≤ maxNestingDepth)%nat ∧ Forall (λ m, string_ok m.1 ∧ json_ok (S depth) m.2) l.
Proof. simpl. f_equiv. induction l as [|[k v] l IH]; [done|]. by rewrite Forall_cons, IH. Qed.

Lemma lex_string_ok raw rest : string_ok raw → lex_string (raw ++ DQUOTE :: rest) = Some (raw, rest).
Proof. intros H. rewrite (cons_middle DQUOTE), (assoc_L (++)). by rewrite (lex_string_rest _ _ _ _ H). Qed.

Lemma lex_number_ok t rest : number_ok t → num_end rest → lex_number (t ++ rest) = Some (t, rest).
Proof. intros H Hr. by rewrite (lex_number_rest _ _ _ _ (λ _, Hr) H). Qed.

(** The first byte of a number is a minus sign or a digit. *)
Lemma lex_number_head c s r : lex_number (c :: s) = Some r → c = "-"%char ∨ digit c = true.
Proof.
  simpl. case_decide; [by left|]. unfold lex_unsigned. intros (i & Hi & _)%bind_Some. right.
  simpl in Hi. case_decide; [subst; by_decide|]. unfold digits1 in Hi. by destruct (digit c).
Qed.

Definition number_head (c : ascii) : bool := bool_decide (c = "-"%char) || digit c.
Lemma number_head_other c :
  number_head c = true →
  json_space c = false ∧ c ≠ "{"%char ∧ c ≠ "["%char ∧ c ≠ DQUOTE ∧ c ≠ "t"%char ∧ c ≠ "f"%char ∧ c ≠ "n"%char
  ∧ c ≠ "]"%char ∧ c ≠ "}"%char.
Proof. pattern c. apply byte_forall. by_decide. Qed.

Lemma skip_spaces_cons c s : json_space c = false → skip_spaces (c :: s) = c :: s.
Proof. simpl. by intros ->. Qed.

(** The first byte of a printed value. *)
Lemma print_head depth j :
  json_ok depth j → ∃ c s, print j = c :: s ∧ json_space c = false ∧ c ≠ "]"%char ∧ c ≠ "}"%char.
Proof.
  destruct j as [|[]|t| | |]; simpl; try (intros _; eexists _, _; split; [done|]; split; [done|by split]).
  intros Ht. destruct t as [|c t]; [done|]. exists c, t. split; [done|].
  assert (number_head c = true) as Hh.
  { apply lex_number_head in Ht as [->|Ht]; [done|]. unfold number_head. rewrite Ht. apply orb_true_r. }
  pose proof (number_head_other c Hh). naive_solver.
Qed.

Lemma print_not_close depth j s : json_ok depth j → ∃ d r, skip_spaces (print j ++ s) = d :: r ∧ d ≠ "]"%char ∧ d ≠ "}"%char.
Proof. intros (c & r & -> & Hc & ? & ?)%print_head. exists c, (r ++ s). split; [by apply skip_spaces_cons|done]. Qed.

(** What may follow a value. *)
Definition may_follow (j : json) (rest : gostring) : Prop := match j with JNumber _ => num_end rest | _ => True end.
Lemma num_end_follows j rest : num_end rest → may_follow j rest.
Proof. by destruct j. Qed.

Definition reads_back (depth : nat) (j : json) : Prop := ∀ f rest,
  (2 * length (print j ++ rest) < f)%nat → may_follow j rest → parse_value f depth (print j ++ rest) = Some (j, rest).

Lemma elements_read depth l rest f :
  l ≠ [] → Forall (reads_back depth) l → (2 * length (print_elements l ++ str "]" ++ rest) + 1 < f)%nat →
  parse_elements f depth (print_elements l ++ str "]" ++ rest) = Some (l, rest).
Proof.
  intros Hne Hl. revert f Hne. induction Hl as [|x l Hx Hl IH]; intros f Hne Hf; [done|].
  destruct f as [|f]; [lia|]. destruct l as [|y l].
  - cbn [print_elements parse_elements]. unfold print_elements in Hf. rewrite Hx; [done| |by apply num_end_follows]. simpl in *. lia.
  - cbn [parse_elements]. change (print_elements (x :: y :: l)) with (print x ++ str "," ++ print_elements (y :: l)) in *.
    rewrite <- !(assoc_L (++)) in *. rewrite !length_app in Hf. rewrite Hx; [|rewrite !length_app in *; lia|by apply num_end_follows].
    cbn [mbind option_bind]. simpl (skip_spaces _). cbn iota. rewrite decide_True by done.
    change (","%char :: ?u) with (str "," ++ u). rewrite IH; [done..|]. simpl in Hf |- *. rewrite !length_app in *. simpl in *. lia.
Qed.

Lemma members_read depth l rest f :
  l ≠ [] → Forall (λ m, string_ok m.1 ∧ reads_back depth m.2) l →
  (2 * length (print_members l ++ str "}" ++ rest) + 1 < f)%nat →
  parse_members f depth (print_members l ++ str "}" ++ rest) = Some (l, rest).
Proof.
  intros Hne Hl. revert f Hne. induction Hl as [|[k v] l [Hk Hv] Hl IH]; intros f Hne Hf; [done|].
  simpl in Hk, Hv. destruct f as [|f]; [lia|].
  assert (∀ t f', parse_members (S f') depth (print_key k ++ t) =
            '(v, s4) ← parse_value f' depth t;
            match skip_spaces s4 with
            | d :: s5 =>
                if decide (d = ","%char) then '(l, r) ← parse_members f' depth s5; Some ((k, v) :: l, r)
                else if decide (d = "}"%char) then Some ([(k, v)], s5) else None
            | [] => None
            end) as Hkey.
  { intros t f'. unfold print_key. rewrite <- !(assoc_L (++)). cbn [parse_members app str String.list_ascii_of_string].
    rewrite skip_spaces_cons by done. rewrite decide_True by done. rewrite (lex_string_ok k (":"%char :: t) Hk).
    cbn [mbind option_bind]. rewrite skip_spaces_cons by done. by rewrite decide_True by done. }
  destruct l as [|m l].
  - cbn [print_members] in *. rewrite <- !(assoc_L (++)) in *. rewrite Hkey, Hv; [done| |by apply num_end_follows].
    rewrite !length_app in *. simpl in *. lia.
  - change (print_members ((k, v) :: m :: l)) with (print_key k ++ print v ++ str "," ++ print_members (m :: l)) in *.
    rewrite <- !(assoc_L (++)) in *. rewrite Hkey, Hv; [|rewrite !length_app in *; lia|by apply num_end_follows].
    cbn [mbind option_bind]. simpl (skip_spaces _). cbn iota. rewrite decide_True by done.
    rewrite IH; [done..|]. rewrite !length_app in *. simpl in *. lia.
Qed.

Ltac head_decides := repeat match goal with
  | |- context [decide (@eq ascii ?c ?d)] => first [rewrite (decide_True (P := c = d)) by reflexivity
                                                   | rewrite (decide_False (P := c = d)) by done]
  end.

(** A printed tree reads back. *)
Lemma print_reads_back depth j : json_ok depth j → reads_back depth j.
Proof.
  revert depth. induction j as [|b|t|raw|l IH|l IH] using json_induction; intros depth Hj f rest Hf Hr;
    (destruct f as [|f]; [lia|]).
  - done.
  - by destruct b.
  - simpl in Hj. destruct (print_head depth (JNumber t) Hj) as (c & s & E & Hc & _). simpl in E. subst t.
    pose proof (lex_number_ok _ rest Hj Hr) as Hn. pose proof (lex_number_head c s _ Hj) as Hh.
    destruct (number_head_other c) as (_ & ? & ? & ? & ? & ? & ? & _).
    { unfold number_head. destruct Hh as [Hh|Hh]; [by subst|]. rewrite Hh. apply orb_true_r. }
    cbn [print parse_value app] in *. rewrite skip_spaces_cons by done. head_decides. by rewrite Hn.
  - cbn [print parse_value app]. rewrite skip_spaces_cons by done. head_decides. rewrite <- !(assoc_L (++)). cbn [app].
    by rewrite (lex_string_ok raw rest Hj).
  - apply json_ok_array in Hj as [Hd Hl]. rewrite print_array in *. rewrite <- !(assoc_L (++)) in *.
    cbn [app str String.list_ascii_of_string parse_value] in *. rewrite skip_spaces_cons by done. head_decides.
    rewrite decide_True by done. destruct l as [|x l]; [done|].
    assert (Forall (reads_back (S depth)) (x :: l)) as Hrd.
    { apply Forall_forall. intros y Hy. rewrite Forall_forall in IH, Hl. eauto. }
    assert (parse_elements f (S depth) (print_elements (x :: l) ++ "]"%char :: rest) = Some (x :: l, rest)) as ->.
    { apply elements_read; [done..|]. simpl in *. rewrite !length_app in *. simpl in *. lia. }
    apply Forall_cons in Hl as [Hx _].
    assert (∃ t, print_elements (x :: l) = print x ++ t) as [t ->].
    { destruct l; [exists []; by rewrite app_nil_r|by eexists]. }
    rewrite <- !(assoc_L (++)). destruct (print_not_close _ x (t ++ "]"%char :: rest) Hx) as (d & r & -> & Hd1 & Hd2).
    by rewrite decide_False.
  - apply json_ok_object in Hj as [Hd Hl]. rewrite print_object in *. rewrite <- !(assoc_L (++)) in *.
    cbn [app str String.list_ascii_of_string parse_value] in *. rewrite skip_spaces_cons by done. head_decides.
    rewrite decide_True by done. destruct l as [|[k v] l]; [done|].
    assert (parse_members f (S depth) (print_members ((k, v) :: l) ++ "}"%char :: rest) = Some ((k, v) :: l, rest)) as ->.
    { apply members_read; [done| |simpl in *; rewrite !length_app in *; simpl in *; lia].
      apply Forall_forall. intros y Hy. rewrite Forall_forall in IH, Hl. split; [by apply Hl|]. apply IH; [done|]. by apply Hl. }
    assert (∃ t, print_members ((k, v) :: l) = DQUOTE :: t) as [t ->]; [|done].
    destruct l as [|m l]; by eexists.
Qed.

(** Reading a text that is a printed tree. *)
Lemma parse_print j : json_ok 0 j → parse_text (print j) = Some j.
Proof.
  intros Hj. unfold parse_text, first_value. rewrite <- (app_nil_r (print j)) at 2.
  rewrite (print_reads_back 0 j Hj); [done| |by apply num_end_follows]. rewrite app_nil_r. lia.
Qed.

(** The first value of a stream that starts with an object. *)
Lemma first_value_object ms rest : json_ok 0 (JObject ms) → first_value (print (JObject ms) ++ rest) = Some (JObject ms, rest).
Proof. intros Hj. unfold first_value. apply (print_reads_back 0); [done|lia|done]. Qed.

(** ** Quoted strings *)
Lemma prepend_app p q r : prepend p (prepend q r) = prepend (p ++ q) r.
Proof. unfold prepend. simpl. by rewrite (assoc_L (++)). Qed.

(** One byte or rune of a quoted string, followed by anything. *)
Definition lexes (p : gostring) : Prop := ∀ s, lex_string (p ++ s) = prepend p <$> lex_string s.

Lemma lexes_ascii c : in_range 0 127 c = true → lexes (quote_ascii c).
Proof.
  pattern c. apply byte_forall. repeat (apply Forall_cons; split; [first [discriminate 1 | intros _ s; reflexivity]|]). done.
Qed.

Lemma lexes_high c : in_range 128 255 c = true → lexes [c].
Proof.
  pattern c. apply byte_forall. repeat (apply Forall_cons; split; [first [discriminate 1 | intros _ s; reflexivity]|]). done.
Qed.

Lemma lexes_app p q : lexes p → lexes q → lexes (p ++ q).
Proof.
  intros Hp Hq s. rewrite <- (assoc_L (++)), Hp, Hq. destruct (lex_string s); [|done]. simpl. by rewrite prepend_app.
Qed.

Lemma lexes_u202 b2 : in_range 168 169 b2 = true → lexes (u202 b2).
Proof.
  pattern b2. apply byte_forall. repeat (apply Forall_cons; split; [first [discriminate 1 | intros _ s; reflexivity]|]). done.
Qed.

Lemma string_ok_app p s : lexes p → string_ok s → string_ok (p ++ s).
Proof. unfold string_ok. intros Hp Hs. by rewrite <- (assoc_L (++)), Hp, Hs. Qed.

Lemma in_range_weaken lo hi lo' hi' c : lo' ≤ lo → hi ≤ hi' → in_range lo hi c = true → in_range lo' hi' c = true.
Proof. unfold in_range. rewrite !bool_decide_eq_true. lia. Qed.

Lemma high_of_low c : in_range 0 127 c = false → in_range 128 255 c = true.
Proof. unfold in_range. rewrite bool_decide_eq_false, bool_decide_eq_true. pose proof (byte_val_range c). lia. Qed.

Lemma cont_high c : utf8_cont c = true → in_range 128 255 c = true.
Proof. by apply in_range_weaken. Qed.

Lemma second3_high b0 b1 : utf8_second3 b0 b1 = true → in_range 128 255 b1 = true.
Proof.
  unfold utf8_second3. rewrite !orb_true_iff, !andb_true_iff.
  intros [[[[_ H]|[_ H]]|[_ H]]|[_ H]]; revert H; by apply in_range_weaken.
Qed.
Lemma second4_high b0 b1 : utf8_second4 b0 b1 = true → in_range 128 255 b1 = true.
Proof.
  unfold utf8_second4. rewrite !orb_true_iff, !andb_true_iff.
  intros [[[_ H]|[_ H]]|[_ H]]; revert H; by apply in_range_weaken.
Qed.

Lemma lexes_highs l : Forall (λ c, in_range 128 255 c = true) l → lexes l.
Proof.
  induction 1 as [|c l Hc Hl IH]; [intros s; simpl app; destruct (lex_string s) as [[a b]|]; reflexivity|]. apply (lexes_app [c]); [by apply lexes_high|done].
Qed.

(** Whatever the string, its quotation is lexed as one token. *)
Lemma quote_string_ok s : string_ok (quote_body s).
Proof.
  induction s as [s IH] using (induction_ltof1 _ length). unfold ltof in IH.
  assert (∀ p s', lexes p → (length s' < length s)%nat → string_ok (p ++ quote_body s')) as Hgo.
  { intros p s' Hp Hl. apply string_ok_app; [done|by apply IH]. }
  assert (lexes replacement) as Hrep by done.
  destruct s as [|b0 s0]; [done|]. cbn [quote_body]. destruct (in_range 0 127 b0) eqn:H0; [apply Hgo; [by apply lexes_ascii|simpl; lia]|].
  apply high_of_low in H0. destruct s0 as [|b1 s1]; [done|]. cbn beta iota.
  destruct (_ && utf8_cont b1) eqn:E2.
  { apply andb_true_iff in E2 as [_ ?%cont_high]. apply (Hgo [b0; b1]); [apply lexes_highs; by repeat constructor|simpl; lia]. }
  destruct s1 as [|b2 s2]; [apply (Hgo _ [b1]); [done|simpl; lia]|]. cbn beta iota. destruct (utf8_second3 b0 b1 && _) eqn:E3.
  { apply andb_true_iff in E3 as [?%second3_high ?%cont_high]. destruct (line_separator b0 b1 b2) eqn:El.
    - apply Hgo; [|simpl; lia]. apply lexes_u202. unfold line_separator in El. by apply andb_true_iff in El as [_ ?].
    - apply (Hgo [b0; b1; b2]); [apply lexes_highs; by repeat constructor|simpl; lia]. }
  destruct s2 as [|b3 s3]; [apply (Hgo _ [b1; b2]); [done|simpl; lia]|]. cbn beta iota. destruct (_ && utf8_cont b3) eqn:E4.
  - rewrite !andb_true_iff in E4. destruct E4 as [[?%second4_high ?%cont_high] ?%cont_high].
    apply (Hgo [b0; b1; b2; b3]); [apply lexes_highs; by repeat constructor|simpl; lia].
  - apply (Hgo _ (b1 :: b2 :: b3 :: s3)); [done|simpl; lia].
Qed.

(** What a piece of a quoted string stands for, whatever follows. *)
Definition unquotes (p t : gostring) : Prop := ∀ s, unquote (p ++ s) = t ++ unquote s.

Lemma unquotes_ascii c : in_range 0 127 c = true → unquotes (quote_ascii c) [c].
Proof.
  pattern c. apply byte_forall. repeat (apply Forall_cons; split; [first [discriminate 1 | intros _ s; reflexivity]|]). done.
Qed.

Lemma unquotes_separator b0 b1 b2 : line_separator b0 b1 b2 = true → unquotes (u202 b2) [b0; b1; b2].
Proof.
  unfold line_separator, in_range. rewrite !andb_true_iff, !bool_decide_eq_true. intros [[H0 H1] H2] s.
  rewrite <- (byte_of_val b0), <- (byte_of_val b1), <- (byte_of_val b2).
  replace (byte_val b0) with 226 by lia. replace (byte_val b1) with 128 by lia.
  assert (byte_val b2 = 168 ∨ byte_val b2 = 169) as [-> | ->] by lia; reflexivity.
Qed.

Lemma high_plain c : in_range 128 255 c = true → c ≠ BACKSLASH ∧ in_range 0 127 c = false.
Proof.
  unfold in_range. rewrite bool_decide_eq_true, bool_decide_eq_false. intros H. split; [intros ->; vm_compute in H; naive_solver lia|lia].
Qed.

(** A valid string is what its quotation stands for. *)
Lemma unquote_quote s : ValidString s = true → unquote (quote_body s) = s.
Proof.
  induction s as [s IH] using (induction_ltof1 _ length). unfold ltof in IH.
  destruct s as [|b0 s0]; [done|]. cbn [quote_body ValidString]. destruct (in_range 0 127 b0) eqn:H0.
  { intros Hv. rewrite (unquotes_ascii b0 H0). simpl. f_equal. apply IH; [simpl; lia|done]. }
  destruct (high_plain b0 (high_of_low _ H0)) as [Hb _]. destruct s0 as [|b1 s1]; [done|]. cbn beta iota.
  destruct (_ && utf8_cont b1) eqn:E2.
  { intros Hv. simpl. rewrite decide_False, H0, E2 by done. do 2 f_equal. apply IH; [simpl; lia|done]. }
  destruct s1 as [|b2 s2]; [done|]. cbn beta iota. destruct (utf8_second3 b0 b1 && _) eqn:E3.
  { intros Hv. assert (unquote (quote_body s2) = s2) as HIH by (apply IH; [simpl; lia|done]).
    destruct (line_separator b0 b1 b2) eqn:El; [rewrite (unquotes_separator _ _ _ El); simpl; by rewrite HIH|].
    simpl. rewrite decide_False, H0, E2, E3 by done. by rewrite HIH. }
  destruct s2 as [|b3 s3]; [done|]. cbn beta iota. rewrite !andb_true_iff. intros [[[E4 E5] E6] Hv]. rewrite E4, E5, E6.
  simpl. rewrite decide_False, H0, E2, E3, E4, E5, E6 by done. do 4 f_equal. apply IH; [simpl; lia|done].
Qed.

(** *** The value of a quoted string is valid UTF-8 *)
Lemma valid_app s t : ValidString s = true → ValidString t = true → ValidString (s ++ t) = true.
Proof.
  intros Hs Ht. induction s as [s IH] using (induction_ltof1 _ length). unfold ltof in IH.
  destruct s as [|b0 s0]; [done|]. cbn [ValidString app] in *. destruct (in_range 0 127 b0); [apply IH; [simpl; lia|done]|].
  destruct s0 as [|b1 s1]; [done|]. cbn [app] in *. destruct (_ && utf8_cont b1); [apply IH; [simpl; lia|done]|].
  destruct s1 as [|b2 s2]; [done|]. cbn [app] in *. destruct (_ && utf8_cont b2); [apply IH; [simpl; lia|done]|].
  destruct s2 as [|b3 s3]; [done|]. cbn [app] in *. apply andb_true_iff in Hs as [-> Hs]. apply IH; [simpl; lia|done].
Qed.

Lemma in_range_of lo hi z : 0 ≤ z < 256 → in_range lo hi (byte_of z) = bool_decide (lo ≤ z ≤ hi).
Proof. intros Hz. unfold in_range. by rewrite byte_val_of, Z.mod_small. Qed.

Ltac decide_ranges := repeat match goal with
  | |- context [bool_decide ?P] => first [rewrite (bool_decide_eq_true_2 P) by lia | rewrite (bool_decide_eq_false_2 P) by lia]
  end.

(** A rune above the Basic Latin block from its base-64 digits. *)
Lemma base64_digits r :
  0 ≤ r → r = r / 262144 * 262144 + r / 4096 mod 64 * 4096 + r / 64 mod 64 * 64 + r mod 64
          ∧ 0 ≤ r mod 64 < 64 ∧ 0 ≤ r / 64 mod 64 < 64 ∧ 0 ≤ r / 4096 mod 64 < 64 ∧ 0 ≤ r / 262144.
Proof.
  intros Hr. change 262144 with (4096 * 64). rewrite <- (Z.div_div r 4096) by lia.
  change 4096 with (64 * 64). rewrite <- (Z.div_div r 64 64) by lia.
  pose proof (Z.div_mod r 64). pose proof (Z.div_mod (r / 64) 64). pose proof (Z.div_mod (r / 64 / 64) 64).
  pose proof (Z.mod_pos_bound r 64 eq_refl). pose proof (Z.mod_pos_bound (r / 64) 64 eq_refl).
  pose proof (Z.mod_pos_bound (r / 64 / 64) 64 eq_refl).
  assert (0 ≤ r / 64 / 64 / 64) by (repeat apply Z.div_pos; lia). lia.
Qed.

Lemma encode_rune_valid r : 0 ≤ r → ValidString (encode_rune r) = true.
Proof.
  intros Hr. destruct (base64_digits r Hr) as (Er & B0 & B1 & B2 & B3). unfold encode_rune, is_surrogate. case_decide as H1.
  { simpl. rewrite in_range_of by lia. by decide_ranges. }
  case_decide as H2.
  { assert (2 ≤ r / 64 < 32) by (split; [apply Z.div_le_lower_bound; lia|apply Z.div_lt_upper_bound; lia]).
    simpl. unfold utf8_cont. rewrite !in_range_of by lia. by decide_ranges. }
  destruct (_ || _) eqn:H3; [done|]. rewrite orb_false_iff, !bool_decide_eq_false in H3.
  case_decide as H4.
  - assert (r / 4096 < 16) by (apply Z.div_lt_upper_bound; lia). assert (0 ≤ r / 4096) by (apply Z.div_pos; lia).
    assert (r / 4096 mod 64 = r / 4096) as E by (apply Z.mod_small; lia). rewrite E in *.
    assert (r / 262144 = 0) as E' by (apply Z.div_small; lia). rewrite E' in Er.
    simpl. unfold utf8_second3, utf8_cont. rewrite !in_range_of by lia.
    assert (r / 4096 = 0 ∨ 1 ≤ r / 4096 ≤ 12 ∨ r / 4096 = 13 ∨ 14 ≤ r / 4096) as [?|[?|[?|?]]] by lia; by decide_ranges.
  - assert (r / 262144 ≤ 4) by (apply Z.lt_succ_r, Z.div_lt_upper_bound; lia).
    simpl. unfold utf8_second3, utf8_second4, utf8_cont. rewrite !in_range_of by lia.
    assert (r / 262144 = 0 ∨ 1 ≤ r / 262144 ≤ 3 ∨ r / 262144 = 4) as [?|[?|?]] by lia; by decide_ranges.
Qed.

Lemma hex_val_range c : 0 ≤ hex_val c < 16.
Proof. pattern c. apply byte_forall. by_decide. Qed.
Lemma u4_range a b c d : 0 ≤ u4 a b c d < 65536.
Proof. unfold u4. pose proof (hex_val_range a). pose proof (hex_val_range b). pose proof (hex_val_range c). pose proof (hex_val_range d). lia. Qed.

Lemma decode_pair_range r1 r2 r : decode_pair r1 r2 = Some r → 0 ≤ r.
Proof. unfold decode_pair. case_decide; [|done]. intros [= <-]. lia. Qed.

Lemma unescape_ascii e : simple_escape e = true → in_range 0 127 (unescape e) = true.
Proof. pattern e. apply byte_forall. by_decide. Qed.

Lemma unquote_valid s : ValidString (unquote s) = true.
Proof.
  induction s as [s IH] using (induction_ltof1 _ length). unfold ltof in IH.
  assert (∀ p s', ValidString p = true → (length s' < length s)%nat → ValidString (p ++ unquote s') = true) as Hgo.
  { intros p s' Hp Hl. apply valid_app; [done|by apply IH]. }
  assert (ValidString rune_error = true) as Herr by done.
  destruct s as [|b0 s0]; [done|]. cbn [unquote]. case_decide.
  { destruct s0 as [|e s1]; [done|]. cbn beta iota. case_decide.
    - destruct s1 as [|h1 [|h2 [|h3 [|h4 s2]]]]; try done. cbn beta iota zeta. pose proof (u4_range h1 h2 h3 h4).
      destruct (is_surrogate _).
      + assert (ValidString (rune_error ++ unquote s2) = true) as Hrep by (apply Hgo; [done|simpl; lia]).
        destruct s2 as [|b [|u [|g1 [|g2 [|g3 [|g4 s3]]]]]]; try exact Hrep. cbn beta iota. case_decide; [|exact Hrep].
        destruct (decode_pair _ _) as [r|] eqn:Ed; [|exact Hrep]. apply Hgo; [|simpl; lia].
        eapply encode_rune_valid, decode_pair_range, Ed.
      + apply Hgo; [apply encode_rune_valid; lia|simpl; lia].
    - destruct (simple_escape e) eqn:He; [|done]. apply (Hgo [_]); [|simpl; lia]. simpl. by rewrite unescape_ascii. }
  destruct (in_range 0 127 b0) eqn:H0; [apply (Hgo [_]); [simpl; by rewrite H0|simpl; lia]|].
  destruct s0 as [|b1 s1]; [done|]. cbn beta iota. destruct (_ && utf8_cont b1) eqn:E2.
  { apply (Hgo [b0; b1]); [simpl; by rewrite H0, E2|simpl; lia]. }
  destruct s1 as [|b2 s2]; [apply Hgo; [done|simpl; lia]|]. cbn beta iota. destruct (utf8_second3 b0 b1 && _) eqn:E3.
  { apply (Hgo [b0; b1; b2]); [simpl; by rewrite H0, E2, E3|simpl; lia]. }
  destruct s2 as [|b3 s3]; [apply Hgo; [done|simpl; lia]|]. cbn beta iota. destruct (_ && utf8_cont b3) eqn:E4.
  - apply (Hgo [b0; b1; b2; b3]); [|simpl; lia]. simpl. rewrite H0, E2, E3. apply andb_true_iff in E4 as [E4 ->]. by rewrite E4.
  - apply Hgo; [done|simpl; lia].
Qed.

(** ** Numbers *)
Lemma span_digits_text d : span_digits (digits_text d) = (digits_text d, []).
Proof. induction d; [done|..]; simpl; by rewrite IHd. Qed.

Lemma format_number_ok v : number_ok (FormatInt v).
Proof.
  destruct (FormatInt_shape v) as [[-> ->]|(p & d & Hd & Hne & H)]; [done|].
  assert (lex_unsigned (digits_text d) = Some (digits_text d, [])) as Hu.
  { unfold lex_unsigned. assert (lex_int (digits_text d) = Some (digits_text d, [])) as ->; [|simpl; by rewrite app_nil_r].
    pose proof (span_digits_text d) as Hs. destruct (digits_text d) as [|c s] eqn:E; [done|]. pose proof (digits_text_head _ _ _ E) as Hc.
    simpl. rewrite decide_False.
    - unfold digit. rewrite Hc. simpl in Hs. unfold digit in Hs. rewrite Hc in Hs. by rewrite Hs.
    - intros ->. destruct d; try done. by eapply to_uint_no_leading_zero. }
  unfold number_ok. destruct H as [[-> ->]|[-> ->]]; [|simpl; by rewrite Hu].
  destruct (digits_text d) as [|c s] eqn:E; [done|]. pose proof (digits_text_head _ _ _ E) as Hc. unfold lex_number.
  rewrite decide_False; [done|]. intros ->. by vm_compute in Hc.
Qed.
(** ** Enough fuel *)
Lemma skip_spaces_le s : (length (skip_spaces s) ≤ length s)%nat.
Proof. induction s as [|c s IH]; [done|]. simpl. destruct (json_space c); simpl; lia. Qed.

Lemma skip_spaces_lt s c r : skip_spaces s = c :: r → (length r < length s)%nat.
Proof. intros E. pose proof (skip_spaces_le s) as H. rewrite E in H. simpl in H. lia. Qed.

Lemma lex_string_lt s a b : lex_string s = Some (a, b) → (length b < length s)%nat.
Proof.
  revert a b. induction s as [s IH] using (induction_ltof1 _ length). unfold ltof in IH. intros a b.
  assert (∀ p s', (length s' < length s)%nat → prepend p <$> lex_string s' = Some (a, b) → (length b < length s)%nat) as Hpre.
  { intros p s' Hl H. destruct (lex_string s') as [[a' b']|] eqn:E; [|done]. injection H as <- <-. specialize (IH _ Hl _ _ E). lia. }
  destruct s as [|c s]; [done|]. cbn [lex_string]. case_decide; [intros [= <- <-]; simpl; lia|].
  case_decide; [|case_decide; [done|apply Hpre; simpl; lia]]. destruct s as [|e s]; [done|]. cbn beta iota.
  destruct (simple_escape e); [apply Hpre; simpl; lia|]. case_decide; [|done].
  destruct s as [|h1 [|h2 [|h3 [|h4 s]]]]; try done. cbn beta iota.
  destruct (_ && hex_digit_in h4); [apply Hpre; simpl; lia|done].
Qed.

Lemma span_digits_split s a b : span_digits s = (a, b) → s = a ++ b.
Proof.
  revert a b. induction s as [|c s IH]; simpl; intros a b; [by intros [= <- <-]|].
  destruct (digit c); [|by intros [= <- <-]]. destruct (span_digits s) as [a' b']. intros [= <- <-]. simpl. f_equal. by apply IH.
Qed.
Lemma digits1_split s a b : digits1 s = Some (a, b) → s = a ++ b ∧ a ≠ [].
Proof.
  destruct s as [|c s]; [done|]. unfold digits1. destruct (digit c) eqn:Hc; [|done]. intros H. apply (inj Some) in H.
  split; [by apply span_digits_split|]. simpl in H. rewrite Hc in H. destruct (span_digits s). by injection H as <- <-.
Qed.
Lemma prepend_digits1_split p s a b : prepend p <$> digits1 s = Some (a, b) → p ++ s = a ++ b.
Proof. destruct (digits1 s) as [[a' b']|] eqn:E; [|done]. intros [= <- <-]. apply digits1_split in E as [-> _]. simpl. by rewrite (assoc_L (++)). Qed.
Lemma lex_unsigned_split s a b : lex_unsigned s = Some (a, b) → s = a ++ b ∧ a ≠ [].
Proof.
  unfold lex_unsigned. intros ([i s1] & Hi & H)%bind_Some. apply bind_Some in H as ([f s2] & Hf & H).
  apply bind_Some in H as ([e s3] & He & [= <- <-]).
  assert (s = i ++ s1 ∧ i ≠ []) as [-> Hne].
  { destruct s as [|c s]; [done|]. simpl in Hi. case_decide; [by simplify_eq|by apply (digits1_split (c :: s))]. }
  assert (s1 = f ++ s2) as ->.
  { destruct s1 as [|c s1]; simpl in Hf; [by simplify_eq|]. case_decide; [by apply prepend_digits1_split in Hf|by simplify_eq]. }
  assert (s2 = e ++ s3) as ->.
  { destruct s2 as [|c s2]; simpl in He; [by simplify_eq|]. destruct (is_exp c); [|by simplify_eq]. destruct s2 as [|d s2]; [done|].
    case_decide; by apply prepend_digits1_split in He. }
  split; [by rewrite <- !(assoc_L (++))|]. by destruct i.
Qed.
Lemma lex_number_lt s a b : lex_number s = Some (a, b) → (length b < length s)%nat.
Proof.
  destruct s as [|c s]; [done|]. unfold lex_number. case_decide.
  - destruct (lex_unsigned s) as [[a' b']|] eqn:E; [|done]. intros [= <- <-]. apply lex_unsigned_split in E as [-> _].
    simpl. rewrite length_app. lia.
  - intros [E Hne]%lex_unsigned_split. rewrite E, length_app. destruct a; [done|simpl; lia].
Qed.

Lemma CutPrefix_le s p r : CutPrefix s p = Some r → (length r ≤ length s)%nat.
Proof. intros ->%CutPrefix_Some. rewrite length_app. lia. Qed.

(** What follows a value is shorter. *)
Lemma parse_shrinks f :
  (∀ d s v r, parse_value f d s = Some (v, r) → (length r < length s)%nat)
  ∧ (∀ d s l r, parse_members f d s = Some (l, r) → (length r < length s)%nat)
  ∧ (∀ d s l r, parse_elements f d s = Some (l, r) → (length r < length s)%nat).
Proof.
  induction f as [|f (IHv & IHm & IHe)]; [done|]. split_and!; intros d s.
  - intros v r. cbn [parse_value]. destruct (skip_spaces s) as [|c s'] eqn:Es; [done|]. apply skip_spaces_lt in Es.
    intros H. enough (length r < length (c :: s'))%nat by (simpl in *; lia). revert H.
    case_decide; [case_decide; [|done]|].
    { destruct (skip_spaces s') as [|e r'] eqn:Es'; [done|]. apply skip_spaces_lt in Es'. case_decide; [intros [= <- <-]; simpl; lia|].
      intros ([l r''] & Hx%IHm & [= <- <-])%bind_Some. simpl. lia. }
    case_decide; [case_decide; [|done]|].
    { destruct (skip_spaces s') as [|e r'] eqn:Es'; [done|]. apply skip_spaces_lt in Es'. case_decide; [intros [= <- <-]; simpl; lia|].
      intros ([l r''] & Hx%IHe & [= <- <-])%bind_Some. simpl. lia. }
    case_decide; [intros ([raw r''] & Hx%lex_string_lt & [= <- <-])%bind_Some; simpl; lia|].
    do 3 (case_decide; [intros (r'' & Hx%CutPrefix_le & [= <- <-])%bind_Some; simpl; lia|]).
    intros ([t r''] & Hx%lex_number_lt & [= <- <-])%bind_Some. done.
  - intros l r. cbn [parse_members]. destruct (skip_spaces s) as [|q s1] eqn:E1; [done|]. apply skip_spaces_lt in E1.
    case_decide; [|done]. intros ([k s2] & E2%lex_string_lt & Hk)%bind_Some. revert Hk.
    destruct (skip_spaces s2) as [|c s3] eqn:E3; [done|]. apply skip_spaces_lt in E3. case_decide; [|done].
    intros ([v s4] & E4%IHv & Hv)%bind_Some. revert Hv. destruct (skip_spaces s4) as [|e s5] eqn:E5; [done|]. apply skip_spaces_lt in E5.
    case_decide; [intros ([l' r'] & E6%IHm & [= <- <-])%bind_Some; lia|]. case_decide; [|done]. intros [= <- <-]. lia.
  - intros l r. cbn [parse_elements]. intros ([v s1] & E1%IHv & Hv)%bind_Some. revert Hv.
    destruct (skip_spaces s1) as [|e s2] eqn:E2; [done|]. apply skip_spaces_lt in E2.
    case_decide; [intros ([l' r'] & E6%IHe & [= <- <-])%bind_Some; lia|]. case_decide; [|done]. intros [= <- <-]. lia.
Qed.

(** More fuel than the length asks for changes nothing. *)
Lemma parse_fuel f : ∀ f',
  (∀ d s, (2 * length s < f)%nat → (2 * length s < f')%nat → parse_value f d s = parse_value f' d s)
  ∧ (∀ d s, (2 * length s + 1 < f)%nat → (2 * length s + 1 < f')%nat → parse_members f d s = parse_members f' d s)
  ∧ (∀ d s, (2 * length s + 1 < f)%nat → (2 * length s + 1 < f')%nat → parse_elements f d s = parse_elements f' d s).
Proof.
  induction f as [|f IH]; intros f'; [split_and!; intros; lia|]. destruct f' as [|f']; [split_and!; intros; lia|].
  destruct (IH f') as (IHv & IHm & IHe). clear IH. destruct (parse_shrinks f') as (Sv & _ & _).
  split_and!; intros d s Hf Hf'.
  - cbn [parse_value]. destruct (skip_spaces s) as [|c s'] eqn:Es; [done|]. apply skip_spaces_lt in Es.
    rewrite IHm by lia. by rewrite IHe by lia.
  - cbn [parse_members]. destruct (skip_spaces s) as [|q s1] eqn:E1; [done|]. apply skip_spaces_lt in E1.
    case_decide; [|done]. destruct (lex_string s1) as [[k s2]|] eqn:E2; [|done]. apply lex_string_lt in E2. cbn [mbind option_bind].
    destruct (skip_spaces s2) as [|c s3] eqn:E3; [done|]. apply skip_spaces_lt in E3. case_decide; [|done].
    rewrite IHv by lia. destruct (parse_value f' d s3) as [[v s4]|] eqn:E4; [|done]. apply Sv in E4. cbn [mbind option_bind].
    destruct (skip_spaces s4) as [|e s5] eqn:E5; [done|]. apply skip_spaces_lt in E5. by rewrite IHm by lia.
  - cbn [parse_elements]. rewrite IHv by lia. destruct (parse_value f' d s) as [[v s1]|] eqn:E1; [|done]. apply Sv in E1. cbn [mbind option_bind].
    destruct (skip_spaces s1) as [|e s2] eqn:E2; [done|]. apply skip_spaces_lt in E2. by rewrite IHe by lia.
Qed.

Lemma parse_value_fuel f d s : (2 * length s < f)%nat → parse_value f d s = parse_value (2 * length s + 1) d s.
Proof. intros Hf. apply parse_fuel; lia. Qed.
