(* ===== verification/JsonDecode.v ===== *)
(** * encoding/json: decoding into Go values

    [json.Unmarshal] and [Decoder.Decode] into a struct: the field of a key
    (exact name first, then case folding), strings, integers at their width,
    [time.Time] (RFC 3339 as [time.Parse] reads it) and nested structs.  A value
    of the wrong type is skipped and makes the call fail at its end
    ([Mistyped]); an error of [Time.UnmarshalJSON] stops it at once
    ([Rejected]). *)

From S2P Require Import Prelude GoStrings Json JsonParse.

Local Open Scope Z_scope.

(** ** Times *)
Definition leap_year (y : Z) : bool :=
  bool_decide (y mod 4 = 0) && (negb (bool_decide (y mod 100 = 0)) || bool_decide (y mod 400 = 0)).
Definition daysIn (m y : Z) : Z :=
  if decide (m = 2) then (if leap_year y then 29 else 28)
  else if decide (m ∈ [4; 6; 9; 11]) then 30 else 31.

Definition digit_val (c : ascii) : Z := byte_val c - 48.

(** [getnum]: two digits, or one if [fixed] is not asked for. *)
Definition getnum (fixed : bool) (s : gostring) : option (Z * gostring) :=
  match s with
  | a :: s1 =>
      if digit a then
        match s1 with
        | b :: s2 => if digit b then Some (10 * digit_val a + digit_val b, s2)
                     else if fixed then None else Some (digit_val a, s1)
        | [] => if fixed then None else Some (digit_val a, [])
        end
      else None
  | [] => None
  end.

Definition literal (c : ascii) (s : gostring) : option gostring := CutPrefix s [c].
Definition within (lo hi : Z) (r : Z * gostring) : option (Z * gostring) := if decide (lo ≤ r.1 ≤ hi) then Some r else None.

Definition get_year (s : gostring) : option (Z * gostring) :=
  if decide (4 ≤ length s)%nat then v ← parse_digits 0 (take 4 s); Some (v, drop 4 s) else None.

(** [parseNanoseconds]: at most nine digits count. *)
Definition nanoseconds (ds : gostring) : option Z :=
  v ← parse_digits 0 (take 9 ds); Some (v * 10 ^ (9 - Z.of_nat (length (take 9 ds)))).
Definition get_fraction (s : gostring) : option (Z * gostring) :=
  match s with
  | c :: d :: s' =>
      if decide (c = "."%char ∨ c = ","%char) then
        if digit d then let '(ds, r) := span_digits (d :: s') in v ← nanoseconds ds; Some (v, r) else Some (0, s)
      else Some (0, s)
  | _ => Some (0, s)
  end.

(** [Z] or [±hh:mm]; offsets of 24 hours and 60 minutes are tolerated. *)
Definition get_zone (s : gostring) : option (Z * gostring) :=
  match s with
  | c :: s' =>
      if decide (c = "Z"%char) then Some (0, s')
      else
        '(hr, s1) ← getnum true s';
        s2 ← literal ":" s1;
        '(mm, s3) ← getnum true s2;
        if decide (hr ≤ 24 ∧ mm ≤ 60) then
          if decide (c = "+"%char) then Some (hr * 60 + mm, s3)
          else if decide (c = "-"%char) then Some (- (hr * 60 + mm), s3) else None
        else None
  | [] => None
  end.

(** [time.Parse(time.RFC3339, s)]; the strict parser it tries first accepts
    fewer texts, with the same result. *)
Definition parse_time (s : gostring) : option Time :=
  '(y, s) ← get_year s;
  s ← literal "-" s;
  '(mo, s) ← getnum true s ≫= within 1 12;
  s ← literal "-" s;
  '(d, s) ← getnum true s;
  s ← literal "T" s;
  '(h, s) ← getnum false s ≫= within 0 23;
  s ← literal ":" s;
  '(mi, s) ← getnum true s ≫= within 0 59;
  s ← literal ":" s;
  '(se, s) ← getnum true s ≫= within 0 59;
  '(ns, s) ← get_fraction s;
  '(off, s) ← get_zone s;
  if decide (s = [] ∧ 1 ≤ d ≤ daysIn mo y) then Some (mkTime y mo d h mi se ns off) else None.

Example parse_time_ex :
  parse_time <$> (str <$> ["2024-02-29T07:05:09.12-01:30"; "2023-02-29T07:05:09Z"; "2024-12-31T7:05:09,5+24:00";
                           "2024-13-01T00:00:00Z"; "2024-01-01T00:00:00"; "2024-01-01T00:00:00.1234567899Z"]%string)
  = [Some (mkTime 2024 2 29 7 5 9 120000000 (-90)); None; Some (mkTime 2024 12 31 7 5 9 500000000 1440); None; None;
     Some (mkTime 2024 1 1 0 0 0 123456789 0)].
Proof. vm_compute. reflexivity. Qed.

(** [time.Time{}] *)
Definition zeroTime : Time := mkTime 1 1 1 0 0 0 0 0.

(** ** Fields *)
Inductive outcome := Decoded | Mistyped | Rejected.

(** [literalStore], [array] and [object] on a field of each kind; [null] leaves
    the field as it is. *)
Section store.
Context {T : Type}.

Definition store_string (set : gostring → T → T) (v : json) (t : T) : T * outcome :=
  match v with
  | JString raw => (set (unquote raw) t, Decoded)
  | JNull => (t, Decoded)
  | _ => (t, Mistyped)
  end.

(** [strconv.ParseUint(s, 10, 64)] *)
Definition ParseUint (s : gostring) : option Z :=
  if decide (s = []) then None
  else v ← parse_digits 0 s; if decide (v < 2 ^ 64) then Some v else None.

Definition store_number (parse : gostring → option Z) (lo hi : Z) (set : Z → T → T) (v : json) (t : T) : T * outcome :=
  match v with
  | JNumber text =>
      match parse text with
      | Some n => if decide (lo ≤ n ≤ hi) then (set n t, Decoded) else (t, Mistyped)
      | None => (t, Mistyped)
      end
  | JNull => (t, Decoded)
  | _ => (t, Mistyped)
  end.
Definition store_int64 : (Z → T → T) → json → T → T * outcome := store_number ParseInt (- 2 ^ 63) (2 ^ 63 - 1).
Definition store_uint16 : (Z → T → T) → json → T → T * outcome := store_number ParseUint 0 65535.

(** [Time.UnmarshalJSON] on the raw text of the value. *)
Definition store_time (set : Time → T → T) (v : json) (t : T) : T * outcome :=
  match v with
  | JNull => (t, Decoded)
  | JString raw =>
      match parse_time raw with
      | Some tm => (set tm t, Decoded)
      | None => (set zeroTime t, Rejected)
      end
  | _ => (t, Rejected)
  end.

Record field := mkField { fname : gostring; fstore : json → T → T * outcome }.

(** [foldName]: the case of ASCII letters; U+017F and U+212A are the only other
    runes that fold to ASCII. *)
Definition long_s : gostring := byte_of <$> [197; 191].
Definition kelvin : gostring := byte_of <$> [226; 132; 170].
Fixpoint fold_name (s : gostring) : gostring :=
  match s with
  | [] => []
  | b0 :: s0 =>
      let plain := lower_byte b0 :: fold_name s0 in
      match s0 with
      | b1 :: s1 =>
          if decide ([b0; b1] = long_s) then "s"%char :: fold_name s1
          else match s1 with
               | b2 :: s2 => if decide ([b0; b1; b2] = kelvin) then "k"%char :: fold_name s2 else plain
               | [] => plain
               end
      | [] => plain
      end
  end.

Definition find_field (fs : list field) (key : gostring) : option field :=
  match find (λ f, bool_decide (fname f = key)) fs with
  | Some f => Some f
  | None => find (λ f, bool_decide (fold_name (fname f) = fold_name key)) fs
  end.

(** The error a call ends with is the first one. *)
Definition first_error (o o' : outcome) : outcome := match o with Decoded => o' | _ => o end.

(** The members of an object, in the order of the text. *)
Fixpoint store_members (fs : list field) (ms : list (gostring * json)) (t : T) : T * outcome :=
  match ms with
  | [] => (t, Decoded)
  | (k, v) :: ms' =>
      match find_field fs (unquote k) with
      | None => store_members fs ms' t
      | Some f =>
          match fstore f v t with
          | (t', Rejected) => (t', Rejected)
          | (t', o) => let '(t'', o') := store_members fs ms' t' in (t'', first_error o o')
          end
      end
  end.

Definition store_struct (fs : list field) (v : json) (t : T) : T * outcome :=
  match v with
  | JObject ms => store_members fs ms t
  | JNull => (t, Decoded)
  | _ => (t, Mistyped)
  end.

(** [json.Unmarshal(data, &t)]: the value afterwards, and whether there is no
    error. *)
Definition succeeded (r : T * outcome) : T * bool := (r.1, match r.2 with Decoded => true | _ => false end).
Definition Unmarshal (fs : list field) (data : gostring) (t : T) : T * bool :=
  match parse_text data with
  | None => (t, false)
  | Some v => succeeded (store_struct fs v t)
  end.

(** [json.NewDecoder(r).Decode(&t)]: the first value of a stream; what follows
    it is not read.  [broken]: the stream ends with a read error instead of its
    end, which only matters to a scalar that nothing follows. *)
Definition scalar (v : json) : bool := match v with JArray _ | JObject _ => false | _ => true end.
Definition Decode (fs : list field) (data : gostring) (broken : bool) (t : T) : T * bool :=
  match first_value data with
  | None => (t, false)
  | Some (v, rest) =>
      if broken && scalar v && bool_decide (rest = []) then (t, false)
      else succeeded (store_struct fs v t)
  end.
End store.
Arguments field : clear implicits.
Arguments mkField {T} fname fstore.

(** A struct inside another. *)
Definition store_nested {T U} (fs : list (field U)) (get : T → U) (set : U → T → T) (v : json) (t : T) : T * outcome :=
  let '(u, o) := store_struct fs v (get t) in (set u t, o).

(** ** Encoding structs *)
Definition text_member (k : string) (s : gostring) : list (gostring * json) := [(str k, JString (quote_body s))].
Definition omit_text (k : string) (s : gostring) : list (gostring * json) := if decide (s = []) then [] else text_member k s.
Definition int_member (k : string) (z : Z) : list (gostring * json) := [(str k, JNumber (FormatInt z))].
Definition omit_int (k : string) (z : Z) : list (gostring * json) := if decide (z = 0) then [] else int_member k z.
Definition time_member (k : string) (t : Time) : option (list (gostring * json)) :=
  if decide (0 ≤ year t ≤ 9999 ∧ Z.abs (zoneOffset t) < 24 * 60) then Some [(str k, JString (rfc3339 t))] else None.
(** ** A time reads back *)
Record time_ok (t : Time) : Prop := {
  ok_year : 0 ≤ year t ≤ 9999;
  ok_month : 1 ≤ month t ≤ 12;
  ok_day : 1 ≤ day t ≤ daysIn (month t) (year t);
  ok_hour : 0 ≤ hour t ≤ 23;
  ok_minute : 0 ≤ minute t ≤ 59;
  ok_sec : 0 ≤ sec t ≤ 59;
  ok_nsec : 0 ≤ nsec t < 10 ^ 9;
  ok_zone : Z.abs (zoneOffset t) < 24 * 60;
}.
Global Instance time_ok_dec t : Decision (time_ok t).
Proof.
  destruct (decide (0 ≤ year t ≤ 9999 ∧ 1 ≤ month t ≤ 12 ∧ 1 ≤ day t ≤ daysIn (month t) (year t) ∧ 0 ≤ hour t ≤ 23
    ∧ 0 ≤ minute t ≤ 59 ∧ 0 ≤ sec t ≤ 59 ∧ 0 ≤ nsec t < 10 ^ 9 ∧ Z.abs (zoneOffset t) < 24 * 60)) as [H|H].
  - left. by split; apply H.
  - right. intros []. naive_solver.
Defined.

Lemma digit_of z : 0 ≤ z < 10 → digit (byte_of (48 + z)) = true ∧ digit_val (byte_of (48 + z)) = z.
Proof.
  intros Hz. unfold digit, digit_val. rewrite in_range_of by lia. rewrite bool_decide_eq_true_2 by lia.
  rewrite byte_val_of, Z.mod_small by lia. split; [done|lia].
Qed.

Lemma padded_length n v : length (padded n v) = n.
Proof. revert v. induction n as [|n IH]; intros v; [done|]. simpl. rewrite length_app, IH. simpl. lia. Qed.

Lemma parse_digits_app acc s t : parse_digits acc (s ++ t) = parse_digits acc s ≫= λ a, parse_digits a t.
Proof. revert acc. induction s as [|c s IH]; intros acc; [done|]. simpl. destruct (in_range 48 57 c); [apply IH|done]. Qed.

Lemma parse_padded n v acc : 0 ≤ v < 10 ^ Z.of_nat n → parse_digits acc (padded n v) = Some (acc * 10 ^ Z.of_nat n + v).
Proof.
  revert v acc. induction n as [|n IH]; intros v acc Hv; [simpl in *; f_equal; lia|]. cbn [padded].
  assert (10 ^ Z.of_nat (S n) = 10 * 10 ^ Z.of_nat n) as Ep by (rewrite Nat2Z.inj_succ, Z.pow_succ_r by lia; done).
  rewrite Ep in *. pose proof (Z.mod_pos_bound v 10 eq_refl). pose proof (Z.div_mod v 10).
  rewrite parse_digits_app, IH by (split; [apply Z.div_pos; lia|apply Z.div_lt_upper_bound; lia]). cbn [mbind option_bind parse_digits].
  destruct (digit_of (v mod 10)) as [Hd Hv']; [lia|]. unfold digit in Hd. rewrite Hd. unfold digit_val in Hv'. rewrite Hv'. f_equal. lia.
Qed.

Lemma getnum_padded b v rest : 0 ≤ v < 100 → getnum b (padded 2 v ++ rest) = Some (v, rest).
Proof.
  intros Hv. pose proof (Z.mod_pos_bound v 10 eq_refl). pose proof (Z.div_mod v 10).
  assert (0 ≤ v / 10 < 10) by (split; [apply Z.div_pos; lia|apply Z.div_lt_upper_bound; lia]).
  cbn [padded app getnum]. rewrite (Z.mod_small (v / 10)) by lia. destruct (digit_of (v / 10)) as [-> ->]; [lia|].
  destruct (digit_of (v mod 10)) as [-> ->]; [lia|]. f_equal. f_equal. lia.
Qed.

Lemma get_year_padded v rest : 0 ≤ v ≤ 9999 → get_year (padded 4 v ++ rest) = Some (v, rest).
Proof.
  intros Hv. unfold get_year. pose proof (padded_length 4 v) as Hl. rewrite decide_True by (rewrite length_app; lia).
  rewrite take_app_le, take_ge by lia. rewrite parse_padded by lia. cbn [mbind option_bind]. rewrite drop_app_ge, Hl by lia.
  repeat f_equal; lia.
Qed.

(** Digits followed by zeros that were dropped. *)
Lemma dropped_zeros s : ∃ n, s = reverse (drop_zeros (reverse s)) ++ replicate n "0"%char.
Proof.
  rewrite <- (reverse_involutive s). rewrite (reverse_involutive (reverse s)). generalize (reverse s) as t. intros t. induction t as [|c t [n IH]]; [by exists 0%nat|].
  simpl. case_decide as E; [|exists 0%nat; by rewrite app_nil_r]. subst. exists (S n). rewrite reverse_cons, IH, <- (assoc_L (++)). f_equal.
  symmetry. apply replicate_cons_app.
Qed.

Lemma parse_zeros n acc : parse_digits acc (replicate n "0"%char) = Some (acc * 10 ^ Z.of_nat n).
Proof.
  revert acc. induction n as [|n IH]; intros acc; [simpl; f_equal; lia|]. cbn [replicate parse_digits].
  change (in_range 48 57 "0"%char) with true. cbn iota. rewrite IH. f_equal. rewrite Nat2Z.inj_succ, Z.pow_succ_r by lia.
  change (byte_val "0"%char) with 48. lia.
Qed.

Lemma parse_digits_digits acc s v : parse_digits acc s = Some v → Forall (λ c, digit c = true) s.
Proof. revert acc. induction s as [|c s IH]; intros acc; [done|]. simpl. destruct (in_range 48 57 c) eqn:E; [|done]. constructor; [done|eauto]. Qed.

Lemma span_digits_all s rest :
  Forall (λ c, digit c = true) s → match rest with c :: _ => digit c = false | [] => True end → span_digits (s ++ rest) = (s, rest).
Proof.
  induction 1 as [|c s Hc Hs IH]; intros Hr; simpl.
  - destruct rest as [|c rest]; [done|]. simpl. by rewrite Hr.
  - by rewrite Hc, IH.
Qed.

Lemma get_fraction_text ns rest :
  0 ≤ ns < 10 ^ 9 → match rest with c :: _ => digit c = false ∧ c ≠ "."%char ∧ c ≠ ","%char | [] => True end →
  get_fraction (fraction ns ++ rest) = Some (ns, rest).
Proof.
  intros Hn Hr. unfold fraction. case_decide as E0.
  { subst. simpl. destruct rest as [|c [|d rest]]; [done..|]. simpl. rewrite decide_False by naive_solver. done. }
  set (ds := reverse (drop_zeros (reverse (padded 9 ns)))). destruct (dropped_zeros (padded 9 ns)) as [n Hz]. fold ds in Hz.
  pose proof (parse_padded 9 ns 0 Hn) as Hp. rewrite Hz, parse_digits_app in Hp. apply bind_Some in Hp as (v & Hv & Hp).
  rewrite parse_zeros in Hp. injection Hp as Hp.
  assert (length ds + n = 9)%nat as Hl. { rewrite <- (padded_length 9 ns), Hz, length_app, length_replicate. done. }
  assert (Forall (λ c, digit c = true) ds) as Hd by by eapply parse_digits_digits.
  destruct ds as [|d ds'] eqn:Eds; [simpl in *; injection Hv as <-; lia|].
  change ((str "." ++ d :: ds') ++ rest) with ("."%char :: d :: (ds' ++ rest)). unfold get_fraction.
  rewrite decide_True by by left. apply Forall_cons in Hd as Hd'. destruct Hd' as [-> _].
  change (d :: ds' ++ rest) with ((d :: ds') ++ rest). rewrite (span_digits_all (d :: ds') rest Hd) by (destruct rest; naive_solver).
  unfold nanoseconds. rewrite take_ge by lia. rewrite Hv. cbn [mbind option_bind]. f_equal. f_equal.
  replace (9 - Z.of_nat (length (d :: ds'))) with (Z.of_nat n) by lia. lia.
Qed.

Lemma get_zone_text off : Z.abs off < 24 * 60 → get_zone (zone_text off) = Some (off, []).
Proof.
  intros Ho. unfold zone_text. case_decide as E; [by subst|].
  pose proof (Z.mod_pos_bound (Z.abs off) 60 eq_refl). pose proof (Z.div_mod (Z.abs off) 60).
  assert (0 ≤ Z.abs off / 60 < 24) by (split; [apply Z.div_pos; lia|apply Z.div_lt_upper_bound; lia]).
  assert (∀ c, c ≠ "Z"%char → get_zone (c :: padded 2 (Z.abs off / 60) ++ str ":" ++ padded 2 (Z.abs off mod 60))
               = if decide (c = "+"%char) then Some (Z.abs off, []) else if decide (c = "-"%char) then Some (- Z.abs off, []) else None) as Hz.
  { intros c Hc. unfold get_zone. rewrite decide_False by done. rewrite getnum_padded by lia. cbn [mbind option_bind].
    change (literal ":" (str ":" ++ ?x)) with (Some x). cbn [mbind option_bind]. rewrite <- (app_nil_r (padded 2 (_ mod _))).
    rewrite getnum_padded by lia. cbn [mbind option_bind]. rewrite decide_True by lia.
    replace (Z.abs off / 60 * 60 + Z.abs off mod 60) with (Z.abs off) by lia. done. }
  case_decide.
  - etrans; [by apply (Hz "-"%char)|]. simpl. repeat f_equal; lia.
  - etrans; [by apply (Hz "+"%char)|]. simpl. repeat f_equal; lia.
Qed.

Lemma zone_text_head off : match zone_text off with c :: _ => digit c = false ∧ c ≠ "."%char ∧ c ≠ ","%char | [] => True end.
Proof. unfold zone_text. case_decide; [done|]. by case_decide. Qed.

Lemma literal_app c s : literal c (c :: s) = Some s.
Proof. unfold literal. simpl. by rewrite decide_True. Qed.

Lemma within_ok lo hi v s : lo ≤ v ≤ hi → within lo hi (v, s) = Some (v, s).
Proof. intros H. unfold within. by rewrite decide_True. Qed.

Ltac read_fields := repeat first
  [ progress cbn [mbind option_bind] | rewrite literal_app | rewrite get_year_padded by lia | rewrite getnum_padded by lia
  | rewrite within_ok by lia ].

Lemma parse_rfc3339 t : time_ok t → parse_time (rfc3339 t) = Some t.
Proof.
  intros [Hy Hmo Hd Hh Hmi Hs Hn Hz]. unfold parse_time, rfc3339. assert (daysIn (month t) (year t) ≤ 31).
  { unfold daysIn. repeat case_match; lia. }
  cbn [app str String.list_ascii_of_string]. read_fields.
  rewrite get_fraction_text by (done || apply zone_text_head). cbn [mbind option_bind]. rewrite get_zone_text by done.
  read_fields. rewrite decide_True by done. by destruct t.
Qed.

(** The text of a time is a string token. *)
Definition plain (c : ascii) : bool := bool_decide (32 ≤ byte_val c < 128 ∧ c ≠ DQUOTE ∧ c ≠ BACKSLASH).

Lemma plain_string_ok s : Forall (λ c, plain c = true) s → string_ok s.
Proof.
  induction 1 as [|c s Hc Hs IH]; [done|]. apply (string_ok_app [c]); [|done].
  apply bool_decide_eq_true in Hc as (H1 & H2 & H3). intros t. simpl.
  rewrite (decide_False (P := c = DQUOTE)), (decide_False (P := c = BACKSLASH)), (decide_False (P := byte_val c < 32)) by (done || lia). done.
Qed.

Lemma plain_digit v : plain (byte_of (48 + v mod 10)) = true.
Proof.
  pose proof (Z.mod_pos_bound v 10 eq_refl). assert (0 ≤ v mod 10 < 10) as Hv by lia. revert Hv. generalize (v mod 10) as d. intros d Hd.
  assert (d ∈ seqZ 0 10) as Hin by (apply elem_of_seqZ; lia). clear Hd. revert d Hin. apply Forall_forall. by_decide.
Qed.

Lemma plain_padded n v : Forall (λ c, plain c = true) (padded n v).
Proof. revert v. induction n as [|n IH]; intros v; [done|]. apply Forall_app. split; [apply IH|]. apply Forall_singleton, plain_digit. Qed.

Lemma plain_fraction ns : Forall (λ c, plain c = true) (fraction ns).
Proof.
  unfold fraction. case_decide; [done|]. constructor; [done|]. destruct (dropped_zeros (padded 9 ns)) as [n E].
  pose proof (plain_padded 9 ns) as Hp. rewrite E in Hp. by apply Forall_app in Hp as [Hp _].
Qed.

Lemma plain_unquote s : Forall (λ c, plain c = true) s → unquote s = s.
Proof.
  induction 1 as [|c s Hc Hs IH]; [done|]. apply bool_decide_eq_true in Hc as (H1 & H2 & H3). cbn [unquote]. rewrite decide_False by done.
  assert (in_range 0 127 c = true) as -> by (unfold in_range; apply bool_decide_eq_true; lia). by rewrite IH.
Qed.

Lemma rfc3339_plain t : Forall (λ c, plain c = true) (rfc3339 t).
Proof.
  unfold rfc3339, zone_text.
  repeat first [apply plain_padded | apply plain_fraction | case_decide | solve [repeat constructor] | apply Forall_app; split].
Qed.
Lemma rfc3339_string_ok t : string_ok (rfc3339 t).
Proof. apply plain_string_ok, rfc3339_plain. Qed.

(** ** Decoding what was encoded, member by member *)
Section members.
Context {T : Type} (fs : list (field T)).
Implicit Types (ms : list (gostring * json)) (t : T).

Lemma store_decoded k v f ms t t' :
  find_field fs (unquote k) = Some f → fstore f v t = (t', Decoded) →
  store_members fs ((k, v) :: ms) t = store_members fs ms t'.
Proof. intros Hf Hs. simpl. rewrite Hf, Hs. by destruct (store_members fs ms t'). Qed.

Lemma store_text k s n set ms t :
  find_field fs (unquote (str k)) = Some (mkField n (store_string set)) → ValidString s = true →
  store_members fs (text_member k s ++ ms) t = store_members fs ms (set s t).
Proof. intros Hf Hs. eapply store_decoded; [done|]. simpl. by rewrite unquote_quote. Qed.

Lemma store_omit_text k s n set ms t :
  find_field fs (unquote (str k)) = Some (mkField n (store_string set)) → ValidString s = true → set [] t = t →
  store_members fs (omit_text k s ++ ms) t = store_members fs ms (set s t).
Proof. intros Hf Hs Ht. unfold omit_text. case_decide; [subst; simpl; by rewrite Ht|]. by eapply store_text. Qed.

Lemma store_omit_int k z n parse lo hi set ms t :
  find_field fs (unquote (str k)) = Some (mkField n (store_number parse lo hi set)) →
  parse (FormatInt z) = Some z → lo ≤ z ≤ hi → set 0 t = t →
  store_members fs (omit_int k z ++ ms) t = store_members fs ms (set z t).
Proof.
  intros Hf Hp Hz Ht. unfold omit_int. case_decide; [subst; simpl; by rewrite Ht|]. eapply store_decoded; [done|].
  simpl. rewrite Hp. by rewrite decide_True.
Qed.

Lemma store_time_text k (tm : Time) n set ms t :
  find_field fs (unquote k) = Some (mkField n (store_time set)) → time_ok tm →
  store_members fs ((k, JString (rfc3339 tm)) :: ms) t = store_members fs ms (set tm t).
Proof. intros Hf Ht. eapply store_decoded; [done|]. simpl. by rewrite parse_rfc3339. Qed.

(** Any decoding keeps a property that every field keeps. *)
Lemma store_members_inv (P : T → Prop) :
  Forall (λ f, ∀ v t, P t → P (fstore f v t).1) fs → ∀ ms t, P t → P (store_members fs ms t).1.
Proof.
  intros Hfs ms. induction ms as [|[k v] ms IH]; intros t Ht; [done|]. simpl.
  destruct (find_field fs (unquote k)) as [f|] eqn:Ef; [|by apply IH].
  assert (f ∈ fs) as Hf.
  { unfold find_field in Ef. apply list_elem_of_In. destruct (find _ fs) as [f'|] eqn:E; [injection Ef as ->; by eapply find_some|].
    by eapply find_some. }
  rewrite Forall_forall in Hfs. pose proof (Hfs f Hf v t Ht) as Hv. destruct (fstore f v t) as [t' o]. simpl in Hv.
  pose proof (IH t' Hv) as H'. destruct (store_members fs ms t') as [t'' o']. by destruct o.
Qed.

Lemma store_struct_inv (P : T → Prop) v t :
  Forall (λ f, ∀ v t, P t → P (fstore f v t).1) fs → P t → P (store_struct fs v t).1.
Proof. intros Hfs Ht. destruct v; try done. simpl. by apply store_members_inv. Qed.
End members.

(** *** What each kind of field can hold *)
Lemma store_string_inv {T} (P : T → Prop) set v t :
  (∀ s t, ValidString s = true → P t → P (set s t)) → P t → P (store_string set v t).1.
Proof. intros Hs Ht. destruct v; try done. simpl. apply Hs; [apply unquote_valid|done]. Qed.

Lemma store_number_inv {T} (P : T → Prop) parse lo hi set v t :
  (∀ z t, lo ≤ z ≤ hi → P t → P (set z t)) → P t → P (store_number parse lo hi set v t).1.
Proof. intros Hs Ht. destruct v; try done. simpl. destruct (parse text); [|done]. case_decide; [|done]. by apply Hs. Qed.

(** A time that was read: its offset may reach a day. *)
Definition time_read (t : Time) : Prop :=
  0 ≤ year t ≤ 9999 ∧ 1 ≤ month t ≤ 12 ∧ 1 ≤ day t ≤ daysIn (month t) (year t) ∧ 0 ≤ hour t ≤ 23 ∧ 0 ≤ minute t ≤ 59
  ∧ 0 ≤ sec t ≤ 59 ∧ 0 ≤ nsec t < 10 ^ 9 ∧ Z.abs (zoneOffset t) ≤ 25 * 60.

Lemma digit_val_range c : digit c = true → 0 ≤ digit_val c < 10.
Proof. unfold digit, in_range, digit_val. rewrite bool_decide_eq_true. lia. Qed.

Lemma parse_digits_bound s acc v :
  parse_digits acc s = Some v → 0 ≤ acc → acc * 10 ^ Z.of_nat (length s) ≤ v < (acc + 1) * 10 ^ Z.of_nat (length s).
Proof.
  revert acc. induction s as [|c s IH]; intros acc; [intros [= <-]; simpl; lia|]. simpl length. rewrite Nat2Z.inj_succ, Z.pow_succ_r by lia.
  simpl. destruct (in_range 48 57 c) eqn:E; [|done]. unfold in_range in E. rewrite bool_decide_eq_true in E.
  intros Hv Ha. specialize (IH _ Hv). pose proof (Z.pow_pos_nonneg 10 (Z.of_nat (length s))). nia.
Qed.

Lemma nanoseconds_bound ds v : nanoseconds ds = Some v → 0 ≤ v < 10 ^ 9.
Proof.
  unfold nanoseconds. intros (w & Hw & [= <-])%bind_Some. apply parse_digits_bound in Hw; [|lia].
  assert (length (take 9 ds) ≤ 9)%nat as Hl by (rewrite length_take; lia). set (n := Z.of_nat (length (take 9 ds))) in *.
  assert (10 ^ 9 = 10 ^ n * 10 ^ (9 - n)) as E by (rewrite <- Z.pow_add_r by lia; f_equal; lia).
  pose proof (Z.pow_pos_nonneg 10 (9 - n)). nia.
Qed.

Lemma get_fraction_bound s v r : get_fraction s = Some (v, r) → 0 ≤ v < 10 ^ 9.
Proof.
  destruct s as [|c [|d s]]; simpl; [intros [= <- _]; lia..|]. case_decide; [|intros [= <- _]; lia].
  destruct (digit d); [|intros [= <- _]; lia]. destruct (prepend _ _) as [ds r']. intros (w & Hw%nanoseconds_bound & [= <- _])%bind_Some. done.
Qed.

Lemma getnum_bound b s v r : getnum b s = Some (v, r) → 0 ≤ v < 100.
Proof.
  destruct s as [|a s]; [done|]. simpl. destruct (digit a) eqn:Ha; [|done]. apply digit_val_range in Ha.
  destruct s as [|c s]; [destruct b; [done|intros [= <- _]; lia]|]. destruct (digit c) eqn:Hc; [apply digit_val_range in Hc; intros [= <- _]; lia|].
  destruct b; [done|intros [= <- _]; lia].
Qed.

Lemma get_zone_bound s v r : get_zone s = Some (v, r) → Z.abs v ≤ 25 * 60.
Proof.
  destruct s as [|c s]; [done|]. simpl. case_decide; [intros [= <- _]; lia|]. intros ([hr s1] & Hh%getnum_bound & H')%bind_Some.
  apply bind_Some in H' as (s2 & _ & H'). apply bind_Some in H' as ([mm s3] & Hm%getnum_bound & H'). revert H'.
  case_decide; [|done]. case_decide; [intros [= <- _]; lia|]. case_decide; [|done]. intros [= <- _]. lia.
Qed.

Lemma within_Some lo hi r v s : within lo hi r = Some (v, s) → lo ≤ v ≤ hi.
Proof. unfold within. case_decide; [|done]. by intros [= ->]. Qed.

Lemma parse_time_read s t : parse_time s = Some t → time_read t.
Proof.
  unfold parse_time. intros ([y s1] & Hy & H)%bind_Some.
  assert (0 ≤ y ≤ 9999).
  { unfold get_year in Hy. case_decide as Hl; [|done]. apply bind_Some in Hy as (w & Hw & [= <- _]). apply parse_digits_bound in Hw; [|lia].
    rewrite length_take, Nat.min_l in Hw by done. simpl in Hw. lia. }
  repeat (let r := fresh "r" in apply bind_Some in H as (r & ? & H); try (destruct r as [? ?]; [idtac])).
  case_decide; [|done]. injection H as <-.
  repeat match goal with Hb : _ ≫= within _ _ = Some _ |- _ => apply bind_Some in Hb as (? & _ & ?%within_Some) end.
  repeat match goal with Hb : get_fraction _ = Some _ |- _ => apply get_fraction_bound in Hb | Hb : get_zone _ = Some _ |- _ => apply get_zone_bound in Hb end.
  unfold time_read. simpl in *. naive_solver.
Qed.

Lemma store_time_inv {T} (P : T → Prop) set v t :
  (∀ tm t, time_read tm → P t → P (set tm t)) → P t → P (store_time set v t).1.
Proof.
  intros Hs Ht. destruct v; try done. simpl. destruct (parse_time raw) eqn:E; apply Hs; try done. by eapply parse_time_read.
Qed.

(** *** Encoded members can be printed *)
Definition member_ok (depth : nat) (m : gostring * json) : Prop := string_ok m.1 ∧ json_ok depth m.2.

Lemma text_member_ok d k s : string_ok (str k) → Forall (member_ok d) (text_member k s).
Proof. intros Hk. apply Forall_singleton. split; [done|]. apply quote_string_ok. Qed.
Lemma omit_text_ok d k s : string_ok (str k) → Forall (member_ok d) (omit_text k s).
Proof. intros Hk. unfold omit_text. case_decide; [done|]. by apply text_member_ok. Qed.
Lemma int_member_ok d k z : string_ok (str k) → Forall (member_ok d) (int_member k z).
Proof. intros Hk. apply Forall_singleton. split; [done|]. apply format_number_ok. Qed.
Lemma omit_int_ok d k z : string_ok (str k) → Forall (member_ok d) (omit_int k z).
Proof. intros Hk. unfold omit_int. case_decide; [done|]. by apply int_member_ok. Qed.
Lemma time_member_ok d k t ms : string_ok (str k) → time_member k t = Some ms → Forall (member_ok d) ms.
Proof.
  intros Hk. unfold time_member. case_decide; [|done]. intros [= <-]. apply Forall_singleton. split; [done|]. apply rfc3339_string_ok.
Qed.

Lemma object_ok depth ms : (S depth ≤ maxNestingDepth)%nat → Forall (member_ok (S depth)) ms → json_ok depth (JObject ms).
Proof. intros Hd Hms. by apply json_ok_object. Qed.

Create HintDb json_ok.
#[export] Hint Resolve text_member_ok omit_text_ok int_member_ok omit_int_ok time_member_ok : json_ok.
#[export] Hint Extern 1 (string_ok (str _)) => reflexivity : json_ok.

(** The members of a struct, one by one. *)
Ltac solve_members := repeat (apply Forall_app; split); eauto with json_ok; try done.

(** [ParseUint] reads what [FormatInt] writes of a natural number. *)
Lemma ParseUint_FormatInt v : 0 ≤ v < 2 ^ 64 → ParseUint (FormatInt v) = Some v.
Proof.
  intros Hv. destruct (FormatInt_shape v) as [[-> ->]|(p & d & Hd & Hne & [[-> ->]|[-> _]])]; [done| |lia].
  unfold ParseUint. rewrite decide_False by done. rewrite parse_digits_text, <- Hd, DecimalPos.Unsigned.of_to.
  cbn [mbind option_bind Z.of_N]. rewrite decide_True; [done|lia].
Qed.
