(* ===== verification/JsonCompact.v ===== *)
(** * encoding/json: compaction keeps the value

    [Json.compact] (the scanner of [appendCompact], which also escapes the HTML
    bytes and the line separators) against the parser of [JsonParse.v]: what the
    scanner accepts is a value, and the compacted text is the printed value with
    its strings escaped, which denotes the same value. *)

From S2P Require Import Prelude GoStrings Json JsonParse.

Local Open Scope Z_scope.

(** ** The escaped form of a string *)
Fixpoint esc (s : gostring) : gostring :=
  match s with
  | [] => []
  | b0 :: s0 =>
      let one := (if html_byte b0 then u00 b0 else [b0]) ++ esc s0 in
      match s0 with
      | b1 :: b2 :: s2 => if line_separator b0 b1 b2 then u202 b2 ++ esc s2 else one
      | _ => one
      end
  end.

Definition is_sep (b0 : ascii) (s0 : gostring) : bool :=
  match s0 with b1 :: b2 :: _ => line_separator b0 b1 b2 | _ => false end.

Lemma esc_cons b0 s0 : is_sep b0 s0 = false → esc (b0 :: s0) = (if html_byte b0 then u00 b0 else [b0]) ++ esc s0.
Proof. destruct s0 as [|b1 [|b2 s2]]; [done..|]. simpl. by intros ->. Qed.
Lemma esc_sep b0 b1 b2 s2 : line_separator b0 b1 b2 = true → esc (b0 :: b1 :: b2 :: s2) = u202 b2 ++ esc s2.
Proof. intros H. simpl. by rewrite H. Qed.

Lemma is_sep_head b0 s0 : byte_val b0 ≠ 226 → is_sep b0 s0 = false.
Proof.
  intros H. destruct s0 as [|b1 [|b2 s2]]; [done..|]. simpl. unfold line_separator, in_range.
  rewrite (bool_decide_eq_false_2 (226 ≤ byte_val b0 ≤ 226)) by lia. done.
Qed.

Lemma html_ascii c : html_byte c = true → 0 ≤ byte_val c < 128.
Proof. pattern c. apply byte_forall. by_decide. Qed.

(** A byte that passes through. *)
Lemma esc_plain c s : html_byte c = false → byte_val c ≠ 226 → esc (c :: s) = c :: esc s.
Proof. intros Hh Hc. rewrite esc_cons by by apply is_sep_head. by rewrite Hh. Qed.

Lemma cont_plain c : utf8_cont c = true → html_byte c = false ∧ byte_val c ≠ 226.
Proof. pattern c. apply byte_forall. by_decide. Qed.

Definition head_cont (s : gostring) : bool := match s with c :: _ => utf8_cont c | [] => false end.

(** Escaping neither makes nor hides a continuation byte. *)
Lemma esc_head_cont s : head_cont (esc s) = head_cont s.
Proof.
  destruct s as [|c s]; [done|]. destruct (is_sep c s) eqn:Es.
  { destruct s as [|b1 [|b2 s]]; [done..|]. simpl in Es. rewrite (esc_sep c b1 b2 s Es).
    unfold line_separator, in_range in Es. rewrite !andb_true_iff, !bool_decide_eq_true in Es.
    simpl. unfold utf8_cont, in_range. rewrite (bool_decide_eq_false_2 (128 ≤ byte_val c ≤ 191)) by lia. done. }
  rewrite esc_cons by done. destruct (html_byte c) eqn:Hh; [|done]. apply html_ascii in Hh. simpl.
  unfold utf8_cont, in_range. rewrite (bool_decide_eq_false_2 (128 ≤ byte_val c ≤ 191)) by lia. done.
Qed.

(** ** Runes: how many bytes follow a leading byte *)
Definition rune_tail (b0 : ascii) (s : gostring) : option nat :=
  match s with
  | b1 :: s1 =>
      if in_range 194 223 b0 && utf8_cont b1 then Some 1%nat
      else match s1 with
           | b2 :: s2 =>
               if utf8_second3 b0 b1 && utf8_cont b2 then Some 2%nat
               else match s2 with
                    | b3 :: _ => if utf8_second4 b0 b1 && utf8_cont b2 && utf8_cont b3 then Some 3%nat else None
                    | [] => None
                    end
           | [] => None
           end
  | [] => None
  end.

Lemma unquote_high b0 s0 :
  in_range 128 255 b0 = true →
  unquote (b0 :: s0) = match rune_tail b0 s0 with
                       | Some n => b0 :: take n s0 ++ unquote (drop n s0)
                       | None => rune_error ++ unquote s0
                       end.
Proof.
  intros H. destruct (high_plain b0 H) as [Hb H0]. cbn [unquote]. rewrite decide_False, H0 by done.
  destruct s0 as [|b1 s1]; [done|]. cbn [rune_tail]. destruct (_ && utf8_cont b1); [done|].
  destruct s1 as [|b2 s2]; [done|]. destruct (utf8_second3 _ _ && _); [done|]. destruct s2 as [|b3 s3]; [done|].
  by destruct (_ && utf8_cont b3).
Qed.

Lemma second3_cont b0 b1 : utf8_second3 b0 b1 = true → utf8_cont b1 = true.
Proof.
  unfold utf8_second3. rewrite !orb_true_iff, !andb_true_iff.
  intros [[[[_ H]|[_ H]]|[_ H]]|[_ H]]; revert H; by apply in_range_weaken.
Qed.
Lemma second4_cont b0 b1 : utf8_second4 b0 b1 = true → utf8_cont b1 = true.
Proof.
  unfold utf8_second4. rewrite !orb_true_iff, !andb_true_iff.
  intros [[[_ H]|[_ H]]|[_ H]]; revert H; by apply in_range_weaken.
Qed.

(** The tail of a rune is made of continuation bytes, and any text with the
    same leading continuation bytes has the same tail. *)
Definition conts (n : nat) (s : gostring) : Prop := Forall (λ c, utf8_cont c = true) (take n s) ∧ (n ≤ length s)%nat.

Lemma rune_tail_conts b0 s n : rune_tail b0 s = Some n → conts n s.
Proof.
  destruct s as [|b1 s1]; [done|]. simpl. destruct (_ && utf8_cont b1) eqn:E1.
  { intros [= <-]. apply andb_true_iff in E1 as [_ ?]. split; [by repeat constructor|simpl; lia]. }
  destruct s1 as [|b2 s2]; [done|]. destruct (utf8_second3 _ _ && _) eqn:E2.
  { intros [= <-]. apply andb_true_iff in E2 as [?%second3_cont ?]. split; [by repeat constructor|simpl; lia]. }
  destruct s2 as [|b3 s3]; [done|]. destruct (_ && utf8_cont b3) eqn:E3; [|done].
  intros [= <-]. rewrite !andb_true_iff in E3. destruct E3 as [[?%second4_cont ?] ?]. split; [by repeat constructor|simpl; lia].
Qed.

Lemma esc_conts n s : conts n s → take n (esc s) = take n s ∧ drop n (esc s) = esc (drop n s).
Proof.
  revert s. induction n as [|n IH]; intros s [Hs Hl]; [done|]. destruct s as [|c s]; [simpl in Hl; lia|].
  simpl in Hs. apply Forall_cons in Hs as [Hc Hs]. destruct (cont_plain c Hc) as [Hh Hv]. rewrite esc_plain by done.
  destruct (IH s) as [E1 E2]; [split; [done|simpl in Hl; lia]|]. simpl. by rewrite E1, E2.
Qed.

Lemma conts_esc n s : conts n (esc s) → conts n s.
Proof.
  revert s. induction n as [|n IH]; intros s [Hs Hl]; [split; [done|simpl; lia]|].
  pose proof (esc_head_cont s) as Hh. destruct (esc s) as [|c t] eqn:E; [simpl in Hl; lia|].
  simpl in Hs. apply Forall_cons in Hs as [Hc Hs]. simpl in Hh. rewrite Hc in Hh.
  destruct s as [|d s]; [done|]. simpl in Hh. destruct (cont_plain d (eq_sym Hh)) as [Hd Hv]. rewrite esc_plain in E by done.
  injection E as <- <-. destruct (IH s) as [H1 H2]; [split; [done|simpl in Hl; lia]|]. split; [|simpl; lia]. simpl. by constructor.
Qed.

Lemma rune_tail_take b0 s t n : rune_tail b0 s = Some n → take n t = take n s → rune_tail b0 t = Some n.
Proof.
  intros Hn. pose proof (rune_tail_conts b0 s n Hn) as [_ Hl]. revert Hn.
  destruct s as [|b1 s1]; [done|]. simpl. destruct (_ && utf8_cont b1) eqn:E1.
  { intros [= <-]. simpl. destruct t as [|c t]; [done|]. simpl. intros [= ->]. by rewrite E1. }
  destruct s1 as [|b2 s2]; [done|]. destruct (utf8_second3 _ _ && _) eqn:E2.
  { intros [= <-]. simpl. destruct t as [|c [|c' t]]; [done..|]. simpl. intros [= -> ->]. by rewrite E1, E2. }
  destruct s2 as [|b3 s3]; [done|]. destruct (_ && utf8_cont b3) eqn:E3; [|done].
  intros [= <-]. simpl. destruct t as [|c [|c' [|c'' t]]]; [done..|]. simpl. intros [= -> -> ->]. by rewrite E1, E2, E3.
Qed.

Lemma rune_tail_esc b0 s : rune_tail b0 (esc s) = rune_tail b0 s.
Proof.
  destruct (rune_tail b0 s) as [n|] eqn:E.
  - apply (rune_tail_take b0 s); [done|]. by apply esc_conts, rune_tail_conts with b0.
  - destruct (rune_tail b0 (esc s)) as [n|] eqn:E'; [|done]. rewrite <- E. symmetry.
    apply (rune_tail_take b0 (esc s)); [done|]. symmetry. apply esc_conts, conts_esc. by eapply rune_tail_conts.
Qed.

(** ** The pieces of a string token *)
Inductive piece : gostring → Prop :=
| piece_byte c : c ≠ DQUOTE → c ≠ BACKSLASH → 32 ≤ byte_val c → piece [c]
| piece_simple e : simple_escape e = true → piece [BACKSLASH; e]
| piece_unicode h1 h2 h3 h4 :
    hex_digit_in h1 && hex_digit_in h2 && hex_digit_in h3 && hex_digit_in h4 = true →
    piece [BACKSLASH; "u"%char; h1; h2; h3; h4].

Lemma string_ok_cases raw : string_ok raw → raw = [] ∨ ∃ p s, raw = p ++ s ∧ piece p ∧ string_ok s.
Proof.
  unfold string_ok. intros H. destruct raw as [|c raw]; [by left|right]. simpl in H.
  assert (∀ p s, prepend p <$> lex_string (s ++ [DQUOTE]) = Some (p ++ s, []) → lex_string (s ++ [DQUOTE]) = Some (s, [])) as Hpre.
  { intros p s E. destruct (lex_string (s ++ [DQUOTE])) as [[a b]|]; [|done]. apply (inj Some) in E. unfold prepend in E. simpl in E.
    injection E as E ->. by apply app_inv_head in E as ->. }
  case_decide; [by injection H|]. case_decide; [subst|].
  - destruct raw as [|e raw]; [done|]. simpl in H. destruct (simple_escape e) eqn:He.
    { exists [BACKSLASH; e], raw. split; [done|]. split; [by constructor|]. by apply (Hpre [BACKSLASH; e]). }
    case_decide; [subst|done]. destruct raw as [|h1 [|h2 [|h3 [|h4 raw]]]]; simpl in H; try done.
    { change (hex_digit_in DQUOTE) with false in H. by rewrite andb_false_r in H. }
    destruct (_ && hex_digit_in h4) eqn:Eh; [|done]. exists [BACKSLASH; "u"%char; h1; h2; h3; h4], raw.
    split; [done|]. split; [by constructor|]. by apply (Hpre [BACKSLASH; "u"%char; h1; h2; h3; h4]).
  - case_decide; [done|]. exists [c], raw. split; [done|]. split; [constructor; [done..|lia]|]. by apply (Hpre [c]).
Qed.

Lemma piece_lexes p : piece p → lexes p.
Proof.
  intros [c H1 H2 H3|e He|h1 h2 h3 h4 Hh] s; simpl.
  - rewrite (decide_False (P := c = DQUOTE)), (decide_False (P := c = BACKSLASH)), (decide_False (P := byte_val c < 32)) by (done || lia). done.
  - rewrite He. done.
  - by rewrite Hh.
Qed.

Lemma string_ok_tail c s : c ≠ DQUOTE → c ≠ BACKSLASH → string_ok (c :: s) → string_ok s.
Proof.
  intros H1 H2 [?|(p & t & E & Hp & Ht)]%string_ok_cases; [done|].
  destruct Hp; simpl in E; by injection E as -> ->.
Qed.

Lemma cont_string_ok n s : conts n s → string_ok s → string_ok (drop n s).
Proof.
  revert s. induction n as [|n IH]; intros s [Hc Hl] Hs; [done|]. destruct s as [|c s]; [done|]. simpl in *.
  apply Forall_cons in Hc as [Hc Hcs]. destruct (high_plain c (cont_high c Hc)) as [Hb _]. apply IH; [split; [done|lia]|].
  apply (string_ok_tail c); [|done..]. intros ->. by vm_compute in Hc.
Qed.

Lemma hex_plain c : hex_digit_in c = true → html_byte c = false ∧ byte_val c ≠ 226.
Proof. pattern c. apply byte_forall. by_decide. Qed.
Lemma simple_plain c : simple_escape c = true → html_byte c = false ∧ byte_val c ≠ 226 ∧ c ≠ "u"%char.
Proof. pattern c. apply byte_forall. by_decide. Qed.

Lemma esc_plains l s : Forall (λ c, html_byte c = false ∧ byte_val c ≠ 226) l → esc (l ++ s) = l ++ esc s.
Proof. induction 1 as [|c l [Hh Hv] Hl IH]; [done|]. simpl app. by rewrite esc_plain, IH. Qed.

Lemma esc_simple e s : simple_escape e = true → esc (BACKSLASH :: e :: s) = BACKSLASH :: e :: esc s.
Proof. intros He. apply (esc_plains [BACKSLASH; e]). destruct (simple_plain e He) as (? & ? & _). by repeat constructor. Qed.
Lemma esc_unicode h1 h2 h3 h4 s :
  hex_digit_in h1 && hex_digit_in h2 && hex_digit_in h3 && hex_digit_in h4 = true →
  esc (BACKSLASH :: "u"%char :: h1 :: h2 :: h3 :: h4 :: s) = BACKSLASH :: "u"%char :: h1 :: h2 :: h3 :: h4 :: esc s.
Proof.
  rewrite !andb_true_iff. intros [[[?%hex_plain ?%hex_plain] ?%hex_plain] ?%hex_plain].
  apply (esc_plains [BACKSLASH; "u"%char; h1; h2; h3; h4]).
  repeat (apply Forall_cons; split; [first [assumption|by_decide]|]). done.
Qed.

(** *** A surrogate looks at the escape that follows it *)
Definition pair_next (rr : Z) (s : gostring) : option (Z * gostring) :=
  match s with
  | b :: u :: g1 :: g2 :: g3 :: g4 :: s3 =>
      if decide (b = BACKSLASH ∧ u = "u"%char) then (λ dec, (dec, s3)) <$> decode_pair rr (u4 g1 g2 g3 g4) else None
  | _ => None
  end.

Lemma unquote_unicode h1 h2 h3 h4 s :
  unquote (BACKSLASH :: "u"%char :: h1 :: h2 :: h3 :: h4 :: s) =
  let rr := u4 h1 h2 h3 h4 in
  if is_surrogate rr then
    match pair_next rr s with Some (dec, s3) => encode_rune dec ++ unquote s3 | None => rune_error ++ unquote s end
  else encode_rune rr ++ unquote s.
Proof.
  cbn [unquote]. rewrite decide_True by done. rewrite decide_True by done. cbv zeta. destruct (is_surrogate _); [|done].
  destruct s as [|b [|u [|g1 [|g2 [|g3 [|g4 s3]]]]]]; try done. cbn [pair_next]. case_decide; [|done]. by destruct (decode_pair _ _).
Qed.

Lemma unquote_simple e s : simple_escape e = true → unquote (BACKSLASH :: e :: s) = unescape e :: unquote s.
Proof.
  intros He. destruct (simple_plain e He) as (_ & _ & Hu). cbn [unquote]. rewrite (decide_True (P := BACKSLASH = BACKSLASH)) by done.
  by rewrite decide_False, He by done.
Qed.

Lemma decode_pair_low r1 r2 : r2 < 56320 → decode_pair r1 r2 = None.
Proof. intros H. unfold decode_pair. by rewrite decide_False by lia. Qed.

Lemma pair_next_other rr b s : b ≠ BACKSLASH → pair_next rr (b :: s) = None.
Proof. intros Hb. destruct s as [|u [|g1 [|g2 [|g3 [|g4 s3]]]]]; try done. cbn [pair_next]. rewrite decide_False; [done|naive_solver]. Qed.

Lemma pair_next_html rr c s : html_byte c = true → pair_next rr (u00 c ++ s) = None.
Proof.
  intros Hc. simpl. rewrite ?decide_True by done. rewrite decode_pair_low; [done|]. revert Hc. pattern c. apply byte_forall. by_decide.
Qed.

Lemma pair_next_sep rr b0 b1 b2 s : line_separator b0 b1 b2 = true → pair_next rr (u202 b2 ++ s) = None.
Proof.
  intros Hc. simpl. rewrite ?decide_True by done. rewrite decode_pair_low; [done|]. clear Hc. pattern b2. apply byte_forall. by_decide.
Qed.

Lemma pair_next_esc rr s : string_ok s → pair_next rr (esc s) = prod_map id esc <$> pair_next rr s.
Proof.
  intros [->|(p & t & -> & Hp & Ht)]%string_ok_cases; [done|]. destruct Hp as [c H1 H2 H3|e He|h1 h2 h3 h4 Hh].
  - simpl app. rewrite (pair_next_other rr c t) by done. destruct (is_sep c t) eqn:Es.
    + destruct t as [|b1 [|b2 t]]; [done..|]. simpl in Es. rewrite (esc_sep c b1 b2 t Es). by eapply pair_next_sep.
    + rewrite esc_cons by done. destruct (html_byte c) eqn:Eh; [by apply pair_next_html|]. by apply pair_next_other.
  - simpl app. rewrite esc_simple by done. destruct (simple_plain e He) as (_ & _ & Hu).
    assert (∀ x, pair_next rr (BACKSLASH :: e :: x) = None) as H; [|by rewrite !H].
    intros x. destruct x as [|g1 [|g2 [|g3 [|g4 s3]]]]; try done. cbn [pair_next]. rewrite decide_False; [done|naive_solver].
  - simpl app. rewrite esc_unicode by done. cbn [pair_next]. rewrite decide_True by done. by destruct (decode_pair _ _).
Qed.

(** ** Escaping keeps what a string stands for *)
Lemma unquotes_html c : html_byte c = true → unquotes (u00 c) [c].
Proof.
  pattern c. apply byte_forall. repeat (apply Forall_cons; split; [first [discriminate 1 | intros _ s; reflexivity]|]). done.
Qed.

Lemma esc_unquote raw : string_ok raw → unquote (esc raw) = unquote raw.
Proof.
  induction raw as [raw IH] using (induction_ltof1 _ length). unfold ltof in IH.
  intros H. pose proof (string_ok_cases raw H) as [->|(p & t & -> & Hp & Ht)]; [done|]. destruct Hp as [c H1 H2 H3|e He|h1 h2 h3 h4 Hh].
  - simpl app in *. assert (unquote (esc t) = unquote t) as HIH by (apply IH; [simpl; lia|done]).
    destruct (in_range 0 127 c) eqn:E0.
    { assert (byte_val c ≠ 226) as Hv by (unfold in_range in E0; rewrite bool_decide_eq_true in E0; lia).
      rewrite esc_cons by by apply is_sep_head. assert (unquote (c :: t) = c :: unquote t) as ->.
      { cbn [unquote]. by rewrite decide_False, E0. }
      destruct (html_byte c) eqn:Eh; [rewrite (unquotes_html c Eh); simpl; by rewrite HIH|].
      cbn [app unquote]. rewrite decide_False, E0 by done. by rewrite HIH. }
    apply high_of_low in E0. destruct (is_sep c t) eqn:Es.
    { destruct t as [|b1 [|b2 t]]; [done..|]. simpl in Es. rewrite (esc_sep c b1 b2 t Es), (unquotes_separator _ _ _ Es).
      rewrite unquote_high by done. assert (rune_tail c (b1 :: b2 :: t) = Some 2%nat) as Hr.
      { unfold line_separator, in_range in Es. rewrite !andb_true_iff, !bool_decide_eq_true in Es. destruct Es as [[? ?] ?].
        cbn [rune_tail]. unfold utf8_second3, utf8_cont, in_range. by decide_ranges. }
      rewrite Hr. simpl. rewrite drop_0, IH; [done|simpl; lia|]. by apply (cont_string_ok 2 (b1 :: b2 :: t)); [eapply rune_tail_conts|]. }
    rewrite esc_cons by done. assert (html_byte c = false) as ->.
    { destruct (html_byte c) eqn:Eh; [|done]. apply html_ascii in Eh. unfold in_range in E0. rewrite bool_decide_eq_true in E0. lia. }
    cbn [app]. rewrite !unquote_high by done. rewrite rune_tail_esc. destruct (rune_tail c t) as [n|] eqn:Er; [|by rewrite HIH].
    pose proof (rune_tail_conts _ _ _ Er) as Hn. destruct (esc_conts n t Hn) as [-> ->]. do 2 f_equal.
    apply IH; [rewrite length_drop; simpl; lia|]. by apply cont_string_ok.
  - simpl app in *. rewrite esc_simple, !unquote_simple by done. f_equal. apply IH; [simpl; lia|done].
  - simpl app in *. rewrite esc_unicode, !unquote_unicode by done. cbv zeta. rewrite pair_next_esc by done.
    assert (unquote (esc t) = unquote t) as HIH by (apply IH; [simpl; lia|done]). rewrite HIH. destruct (is_surrogate _); [|done].
    destruct (pair_next _ t) as [[dec s3]|] eqn:Ep; [|done]. simpl. f_equal.
    destruct t as [|b [|u [|g1 [|g2 [|g3 [|g4 s3']]]]]]; try done. cbn [pair_next] in Ep. case_decide as Hbu; [|done]. destruct Hbu as [-> ->].
    destruct (decode_pair _ _); [|done]. injection Ep as _ ->. apply IH; [simpl; lia|].
    apply string_ok_cases in Ht as [?|(p & x & E & Hp & Hx)]; [done|]. destruct Hp; simpl in E; by simplify_eq.
Qed.

Lemma esc_string_ok raw : string_ok raw → string_ok (esc raw).
Proof.
  induction raw as [raw IH] using (induction_ltof1 _ length). unfold ltof in IH.
  intros H. pose proof (string_ok_cases raw H) as [->|(p & t & -> & Hp & Ht)]; [done|]. pose proof (piece_lexes p Hp) as Hl.
  destruct Hp as [c H1 H2 H3|e He|h1 h2 h3 h4 Hh]; simpl app in *.
  - destruct (is_sep c t) eqn:Es.
    + destruct t as [|b1 [|b2 t]]; [done..|]. simpl in Es. rewrite (esc_sep c b1 b2 t Es).
      unfold line_separator in Es. apply andb_true_iff in Es as [Es Hb2]. apply andb_true_iff in Es as [_ Hb1].
      apply string_ok_app; [by apply lexes_u202|]. apply IH; [simpl; lia|]. apply (cont_string_ok 2 (b1 :: b2 :: t)); [|done].
      split; [|simpl; lia]. apply Forall_cons. split; [by apply (in_range_weaken 128 128)|]. apply Forall_singleton. by apply (in_range_weaken 168 169).
    + rewrite esc_cons by done. apply string_ok_app; [|apply IH; [simpl; lia|done]]. destruct (html_byte c) eqn:Eh; [|done].
      apply html_ascii in Eh as Ha. assert (u00 c = quote_ascii c) as ->; [|apply lexes_ascii; unfold in_range; apply bool_decide_eq_true; lia].
      clear -Eh. revert Eh. pattern c. apply byte_forall. by_decide.
  - rewrite esc_simple by done. apply (string_ok_app [BACKSLASH; e]); [done|]. apply IH; [simpl; lia|done].
  - rewrite esc_unicode by done. apply (string_ok_app [BACKSLASH; "u"%char; h1; h2; h3; h4]); [done|]. apply IH; [simpl; lia|done].
Qed.

(** ** Escaped and denoted values *)
Fixpoint escape (j : json) : json :=
  match j with
  | JString raw => JString (esc raw)
  | JArray l => JArray (List.map escape l)
  | JObject l => JObject (List.map (λ '(k, v), (esc k, escape v)) l)
  | _ => j
  end.

(** The value: strings and names without their quoting. *)
Fixpoint denote (j : json) : json :=
  match j with
  | JString raw => JString (unquote raw)
  | JArray l => JArray (List.map denote l)
  | JObject l => JObject (List.map (λ '(k, v), (unquote k, denote v)) l)
  | _ => j
  end.

Definition good (depth : nat) (v : json) : Prop := json_ok depth (escape v) ∧ denote (escape v) = denote v.

Lemma good_string depth raw : string_ok raw → good depth (JString raw).
Proof. intros H. split; [by apply esc_string_ok|]. simpl. by rewrite esc_unquote. Qed.

Lemma good_array depth l : (S depth ≤ maxNestingDepth)%nat → Forall (good (S depth)) l → good depth (JArray l).
Proof.
  intros Hd Hl. split.
  - apply json_ok_array. split; [done|]. induction Hl as [|x l [Hx _] Hl IH]; by constructor.
  - simpl. f_equal. induction Hl as [|x l [_ Hx] Hl IH]; [done|]. simpl. by rewrite Hx, IH.
Qed.

Lemma good_object depth l :
  (S depth ≤ maxNestingDepth)%nat → Forall (λ m, string_ok m.1 ∧ good (S depth) m.2) l → good depth (JObject l).
Proof.
  intros Hd Hl. split.
  - apply json_ok_object. split; [done|]. induction Hl as [|[k v] l [Hk [Hv _]] Hl IH]; [done|]. constructor; [|done].
    split; [by apply esc_string_ok|done].
  - simpl. f_equal. induction Hl as [|[k v] l [Hk [_ Hv]] Hl IH]; [done|]. simpl in *. by rewrite Hv, IH, esc_unquote.
Qed.

(** ** The scanner, one byte at a time *)
Abbreviation from st k s := (compact_from (mkScanner st k) 0 s).

Lemma separator_is_sep c s : is_sep c s = false → separator_at c s = None.
Proof. destruct s as [|b1 [|b2 s]]; [done..|]. simpl. by intros ->. Qed.

Lemma from_byte st k c s out :
  is_sep c s = false → from st k (c :: s) = Some out →
  ∃ sc op out', scan_step (mkScanner st k) c = Some (sc, op) ∧ compact_from sc 0 s = Some out'
    ∧ out = (if html_byte c then u00 c else match op with Skip => [] | Continue => [c] end) ++ out'.
Proof.
  intros Hs. cbn [compact_from]. destruct (scan_step _ c) as [[sc op]|]; [|done]. rewrite separator_is_sep by done.
  intros (out' & H & <-%(inj Some))%bind_Some. eauto 10.
Qed.

(** A byte that is copied. *)
Lemma from_copy st k c s out sc :
  html_byte c = false → byte_val c ≠ 226 → scan_step (mkScanner st k) c = Some (sc, Continue) →
  from st k (c :: s) = Some out → ∃ out', compact_from sc 0 s = Some out' ∧ out = c :: out'.
Proof.
  intros Hh Hv Hs H. destruct (from_byte st k c s out (is_sep_head c s Hv) H) as (sc' & op & out' & E & H' & ->).
  rewrite E in Hs. injection Hs as -> ->. rewrite Hh. eauto.
Qed.

Lemma from_nil st k out : from st k [] = Some out → scan_eof (mkScanner st k) = true ∧ out = [].
Proof. cbn [compact_from]. destruct (scan_eof _); [|done]. by intros [= <-]. Qed.

Lemma from_error st k c s : scan_step (mkScanner st k) c = None → from st k (c :: s) = None.
Proof. intros H. cbn [compact_from]. by rewrite H. Qed.

(** *** Strings *)
Lemma lex_string_split s raw r : lex_string s = Some (raw, r) → s = raw ++ DQUOTE :: r.
Proof.
  revert raw r. induction s as [s IH] using (induction_ltof1 _ length). unfold ltof in IH. intros raw r.
  assert (∀ p s', (length s' < length s)%nat → prepend p <$> lex_string s' = Some (raw, r) → p ++ s' = raw ++ DQUOTE :: r) as Hpre.
  { intros p s' Hl H. destruct (lex_string s') as [[a b]|] eqn:E; [|done]. apply (inj Some) in H. injection H as <- <-.
    by rewrite (IH _ Hl _ _ E), (assoc_L (++)). }
  destruct s as [|c s]; [done|]. cbn [lex_string]. case_decide; [intros [= <- <-]; by subst|].
  case_decide; [|case_decide; [done|apply (Hpre [c]); simpl; lia]]. destruct s as [|e s]; [done|]. cbn beta iota.
  destruct (simple_escape e); [apply (Hpre [c; e]); simpl; lia|]. case_decide; [|done].
  destruct s as [|h1 [|h2 [|h3 [|h4 s]]]]; try done. cbn beta iota.
  destruct (_ && hex_digit_in h4); [apply (Hpre [c; e; h1; h2; h3; h4]); simpl; lia|done].
Qed.

Lemma is_sep_prefix c raw t : is_sep c (raw ++ t) = false → is_sep c raw = false.
Proof. destruct raw as [|b1 [|b2 raw]]; done. Qed.

(** The token of a string the scanner went through. *)
Definition string_token (k : list frame_state) (s out : gostring) : Prop := ∃ raw r out',
  lex_string s = Some (raw, r) ∧ string_ok raw ∧ out = esc raw ++ DQUOTE :: out' ∧ from EndValue k r = Some out'.

(** A token with one more piece in front. *)
Lemma token_piece k p s x out :
  piece p → (∀ raw t, s = raw ++ t → esc (p ++ raw) = x ++ esc raw) → string_token k s out → string_token k (p ++ s) (x ++ out).
Proof.
  intros Hp Hx (raw & r & out' & Hl & Hok & -> & Hr). exists (p ++ raw), r, out'. split; [by rewrite (piece_lexes p Hp), Hl|].
  split; [by apply string_ok_app; [apply piece_lexes|]|]. split; [|done].
  rewrite (Hx raw (DQUOTE :: r) (lex_string_split _ _ _ Hl)). by rewrite (assoc_L (++)).
Qed.

Lemma quote_plain : html_byte DQUOTE = false ∧ byte_val DQUOTE ≠ 226.
Proof. by_decide. Qed.
Lemma backslash_plain : html_byte BACKSLASH = false ∧ byte_val BACKSLASH ≠ 226.
Proof. by_decide. Qed.

Ltac scan_simpl := unfold scan_step; cbn [sstep stack].

Lemma in_string_plain k c :
  c ≠ DQUOTE → c ≠ BACKSLASH → 32 ≤ byte_val c → scan_step (mkScanner InString k) c = Some (mkScanner InString k, Continue).
Proof.
  intros H1 H2 H3. scan_simpl.
  by rewrite (decide_False (P := c = DQUOTE)), (decide_False (P := c = BACKSLASH)), (decide_False (P := byte_val c < 32)) by (done || lia).
Qed.
Lemma high_in_string lo hi c : 128 ≤ lo → in_range lo hi c = true → c ≠ DQUOTE ∧ c ≠ BACKSLASH ∧ 32 ≤ byte_val c.
Proof.
  unfold in_range. rewrite bool_decide_eq_true. intros Hlo Hc. pose proof (byte_val_range c).
  split_and!; [intros ->; change (byte_val DQUOTE) with 34 in *; lia|intros ->; change (byte_val BACKSLASH) with 92 in *; lia|lia].
Qed.

(** Four hexadecimal digits. *)
Lemma from_hex k s out :
  from (InStringEscU 4) k s = Some out →
  ∃ h1 h2 h3 h4 s' out', s = h1 :: h2 :: h3 :: h4 :: s' ∧ out = h1 :: h2 :: h3 :: h4 :: out'
    ∧ hex_digit_in h1 && hex_digit_in h2 && hex_digit_in h3 && hex_digit_in h4 = true ∧ from InString k s' = Some out'.
Proof.
  assert (∀ n s out, from (InStringEscU n) k s = Some out → ∃ h s' out', s = h :: s' ∧ hex_digit_in h = true ∧ out = h :: out'
            ∧ from (if decide (n ≤ 1)%nat then InString else InStringEscU (n - 1)) k s' = Some out') as Hone.
  { intros n s0 out0 H. destruct s0 as [|h s0]; [apply from_nil in H as [H _]; by vm_compute in H|].
    destruct (hex_digit_in h) eqn:Eh; [|rewrite from_error in H; [done|scan_simpl; by rewrite Eh]].
    destruct (hex_plain h Eh) as [Hh Hv]. apply from_copy with (sc := mkScanner (if decide (n ≤ 1)%nat then InString else InStringEscU (n - 1)) k) in H as (out' & H & ->);
      [eauto 10|done|done|]. scan_simpl. by rewrite Eh. }
  intros (h1 & s1 & o1 & -> & E1 & -> & H1)%Hone. apply Hone in H1 as (h2 & s2 & o2 & -> & E2 & -> & H2).
  apply Hone in H2 as (h3 & s3 & o3 & -> & E3 & -> & H3). apply Hone in H3 as (h4 & s4 & o4 & -> & E4 & -> & H4).
  exists h1, h2, h3, h4, s4, o4. split; [done|]. split; [done|]. rewrite E1, E2, E3, E4. done.
Qed.

Lemma from_separator k b0 b1 b2 s out :
  line_separator b0 b1 b2 = true → from InString k (b0 :: b1 :: b2 :: s) = Some out →
  ∃ out', from InString k s = Some out' ∧ out = u202 b2 ++ out'.
Proof.
  intros Hs. assert (∀ c lo hi, 128 ≤ lo → in_range lo hi c = true →
                        scan_step (mkScanner InString k) c = Some (mkScanner InString k, Continue)) as Hstep.
  { intros c lo hi Hlo Hc. destruct (high_in_string lo hi c Hlo Hc) as (? & ? & ?). by apply in_string_plain. }
  pose proof Hs as Hs'. unfold line_separator in Hs'. rewrite !andb_true_iff in Hs'. destruct Hs' as [[H0 H1] H2].
  cbn [compact_from]. rewrite (Hstep b0 226 226 ltac:(done) H0). simpl separator_at. rewrite Hs.
  rewrite (Hstep b1 128 128 ltac:(done) H1), (Hstep b2 168 169 ltac:(done) H2).
  intros (out' & H & <-%(inj Some))%bind_Some. eauto.
Qed.

Lemma scan_string k s out : from InString k s = Some out → string_token k s out.
Proof.
  revert out. induction s as [s IH] using (induction_ltof1 _ length). unfold ltof in IH. intros out H.
  destruct s as [|c s]; [apply from_nil in H as [H _]; by vm_compute in H|].
  destruct (is_sep c s) eqn:Es.
  { destruct s as [|b1 [|b2 s]]; [done..|]. simpl in Es. apply (from_separator k c b1 b2) in H as (out' & H & ->); [|done].
    apply IH in H; [|simpl; lia]. pose proof Es as Es'. unfold line_separator in Es'. rewrite !andb_true_iff in Es'. destruct Es' as [[H0 H1] H2].
    assert (∀ b lo hi, 128 ≤ lo → in_range lo hi b = true → lexes [b]) as Hhigh.
    { intros b lo hi Hlo Hb. destruct (high_in_string lo hi b Hlo Hb) as (? & ? & ?). apply piece_lexes. by constructor. }
    destruct H as (raw & r & out'' & Hl & Hok & -> & Hr). exists (c :: b1 :: b2 :: raw), r, out''.
    assert (lexes [c; b1; b2]) as Hlex.
    { apply (lexes_app [c]); [by apply (Hhigh c 226 226)|]. apply (lexes_app [b1]); [by apply (Hhigh b1 128 128)|by apply (Hhigh b2 168 169)]. }
    split; [change (c :: b1 :: b2 :: s) with ([c; b1; b2] ++ s); by rewrite Hlex, Hl|].
    split; [by apply (string_ok_app [c; b1; b2])|]. split; [|done]. rewrite (esc_sep c b1 b2 raw Es). by rewrite (assoc_L (++)). }
  destruct (decide (c = DQUOTE)) as [->|Hq].
  { destruct quote_plain. apply from_copy with (sc := mkScanner EndValue k) in H as (out' & H & ->); [|done..]. exists [], s, out'. done. }
  destruct (decide (c = BACKSLASH)) as [->|Hb].
  { destruct backslash_plain. apply from_copy with (sc := mkScanner InStringEsc k) in H as (out' & H & ->); [|done..].
    destruct s as [|e s]; [apply from_nil in H as [H _]; by vm_compute in H|]. destruct (simple_escape e) eqn:Ee.
    - destruct (simple_plain e Ee) as (Hh & Hv & _). apply from_copy with (sc := mkScanner InString k) in H as (out'' & H & ->); [|done..|].
      2: { scan_simpl. apply bool_decide_eq_true in Ee. by rewrite decide_True. }
      apply IH in H; [|simpl; lia]. apply (token_piece k [BACKSLASH; e] s [BACKSLASH; e]); [by constructor| |done].
      intros raw t _. by apply esc_simple.
    - apply bool_decide_eq_false in Ee. destruct (decide (e = "u"%char)) as [->|Hu].
      2: { rewrite from_error in H; [done|]. scan_simpl. by rewrite decide_False, decide_False. }
      apply from_copy with (sc := mkScanner (InStringEscU 4) k) in H as (out'' & H & ->); [|by_decide..|done].
      apply from_hex in H as (h1 & h2 & h3 & h4 & s' & out' & -> & -> & Hh & H). apply IH in H; [|simpl; lia].
      apply (token_piece k [BACKSLASH; "u"%char; h1; h2; h3; h4] s' [BACKSLASH; "u"%char; h1; h2; h3; h4]); [by constructor| |done].
      intros raw t _. by apply esc_unicode. }
  destruct (decide (byte_val c < 32)) as [Hc|Hc]; [rewrite from_error in H; [done|scan_simpl; by rewrite (decide_False (P := c = DQUOTE)), (decide_False (P := c = BACKSLASH)), decide_True]|].
  apply from_byte in H as (sc & op & out' & E & H & ->); [|done]. rewrite in_string_plain in E by (done || lia). injection E as <- <-.
  apply IH in H; [|simpl; lia]. apply (token_piece k [c] s); [by constructor; [..|lia]| |done].
  intros raw t ->. apply esc_cons. by eapply is_sep_prefix.
Qed.

(** *** Numbers *)
Definition scans (st : scan_state) (L : gostring → option (gostring * gostring)) : Prop := ∀ k s out,
  from st k s = Some out → ∃ t r out', L s = Some (t, r) ∧ out = t ++ out' ∧ from EndValue k r = Some out'.

(** A state that the next byte, or the end, closes. *)
Lemma from_end st k s :
  st ≠ EndTop → (∀ c, c = " "%char ∨ head s = Some c → scan_step (mkScanner st k) c = scan_end c k) → from st k s = from EndValue k s.
Proof.
  intros Hst H. destruct s as [|c s]; cbn [compact_from].
  - unfold scan_eof. cbn [sstep]. destruct st; try done; (rewrite (H " "%char) by (by left)); done.
  - rewrite (H c) by (by right). done.
Qed.

Lemma digit_plain c : digit c = true → html_byte c = false ∧ byte_val c ≠ 226.
Proof. pattern c. apply byte_forall. by_decide. Qed.
Lemma exp_plain c : is_exp c = true → html_byte c = false ∧ byte_val c ≠ 226 ∧ digit c = false ∧ c ≠ "."%char.
Proof. pattern c. apply byte_forall. by_decide. Qed.

(** States that read digits as long as there are some. *)
Lemma scan_digits st (L : gostring → option (gostring * gostring)) :
  st ≠ EndTop →
  (∀ k c, digit c = true → scan_step (mkScanner st k) c = Some (mkScanner st k, Continue)) →
  (∀ k s out, (∀ c, head s = Some c → digit c = false) → from st k s = Some out →
     ∃ t r out', L s = Some (t, r) ∧ out = t ++ out' ∧ from EndValue k r = Some out') →
  scans st (λ s, let '(a, s1) := span_digits s in '(t, r) ← L s1; Some (a ++ t, r)).
Proof.
  intros Hst Hd Hend k s. induction s as [|c s IH]; intros out H.
  - apply Hend in H as (t & r & out' & HL & -> & Hr); [|done]. exists t, r, out'. simpl. by rewrite HL.
  - destruct (digit c) eqn:Hc.
    + destruct (digit_plain c Hc) as [Hh Hv]. apply from_copy with (sc := mkScanner st k) in H as (out' & H & ->); [|by auto..].
      apply IH in H as (t & r & out'' & HL & -> & Hr). simpl. rewrite Hc. destruct (span_digits s) as [a s1]. simpl.
      destruct (L s1) as [[t' r']|]; [|done]. simpl in *. injection HL as <- <-. by exists (c :: a ++ t'), r', out''.
    + apply Hend in H as (t & r & out' & HL & -> & Hr); [|by intros ? [= <-]]. exists t, r, out'. simpl. by rewrite Hc, HL.
Qed.

Lemma space_not_number : digit " "%char = false ∧ " "%char ≠ "."%char ∧ is_exp " "%char = false.
Proof. by_decide. Qed.

Lemma scan_Exp0 : scans Exp0 (λ s, Some (span_digits s)).
Proof.
  assert (scans Exp0 (λ s, let '(a, s1) := span_digits s in '(t, r) ← Some ([], s1); Some (a ++ t, r))) as H.
  { apply (scan_digits Exp0 (λ s, Some ([], s))); [done|intros k c Hc; scan_simpl; by rewrite Hc|].
    intros k s out Hn H. exists [], s, out. split; [done|]. split; [done|]. rewrite <- (from_end Exp0 k s); [done..|].
    intros c Hc. scan_simpl. destruct Hc as [->|Hc]; [by destruct space_not_number as [-> _]|]. by rewrite (Hn c Hc). }
  intros k s out (t & r & out' & HL & -> & Hr)%H. exists t, r, out'. split; [|done].
  destruct (span_digits s) as [a s1]. simpl in HL. by rewrite app_nil_r in HL.
Qed.

(** At least one digit, then [st]. *)
Lemma scan_first_digit st st' (L : gostring → option (gostring * gostring)) :
  (∀ k c, digit c = true → scan_step (mkScanner st k) c = Some (mkScanner st' k, Continue)) →
  (∀ k c, digit c = false → scan_step (mkScanner st k) c = None) →
  st ≠ EndTop → scans st' (λ s, let '(a, s1) := span_digits s in '(t, r) ← L s1; Some (a ++ t, r)) →
  scans st (λ s, '(a, s1) ← digits1 s; '(t, r) ← L s1; Some (a ++ t, r)).
Proof.
  intros Hd Hn Hst Hs k s out H. destruct s as [|c s].
  { exfalso. apply from_nil in H as [H _]. unfold scan_eof in H. cbn [sstep] in H. rewrite Hn in H by done. by destruct st. }
  destruct (digit c) eqn:Hc; [|by rewrite from_error in H by auto]. destruct (digit_plain c Hc) as [Hh Hv].
  apply from_copy with (sc := mkScanner st' k) in H as (out' & H & ->); [|by auto..].
  apply Hs in H as (t & r & out'' & HL & -> & Hr). unfold digits1. rewrite Hc. simpl. rewrite Hc.
  destruct (span_digits s) as [a s1]. simpl. destruct (L s1) as [[t' r']|]; [|done]. simpl in *. injection HL as <- <-.
  by exists (c :: a ++ t'), r', out''.
Qed.

Lemma scan_digits1 st : (∀ k c, digit c = true → scan_step (mkScanner st k) c = Some (mkScanner Exp0 k, Continue)) →
  (∀ k c, digit c = false → scan_step (mkScanner st k) c = None) → st ≠ EndTop → scans st digits1.
Proof.
  intros Hd Hn Hst. assert (scans st (λ s, '(a, s1) ← digits1 s; '(t, r) ← Some ([], s1); Some (a ++ t, r))) as H.
  { apply (scan_first_digit st Exp0 (λ s, Some ([], s))); [done..|]. intros k s out (t & r & out' & HL & -> & Hr)%scan_Exp0.
    exists t, r, out'. split; [|done]. injection HL as ->. simpl. by rewrite app_nil_r. }
  intros k s out (t & r & out' & HL & -> & Hr)%H. exists t, r, out'. split; [|done].
  destruct (digits1 s) as [[a s1]|]; [|done]. simpl in HL. by rewrite app_nil_r in HL.
Qed.

Lemma scan_ExpSign : scans ExpSign digits1.
Proof. apply scan_digits1; [| |done]; intros k c Hc; scan_simpl; by rewrite Hc. Qed.

(** After the letter of an exponent. *)
Definition lex_exp_tail (s : gostring) : option (gostring * gostring) :=
  match s with
  | d :: s' => if decide (d = "+"%char ∨ d = "-"%char) then prepend [d] <$> digits1 s' else digits1 s
  | [] => None
  end.

Lemma scan_Exp : scans Exp lex_exp_tail.
Proof.
  intros k s out H. destruct s as [|d s]; [apply from_nil in H as [H _]; by vm_compute in H|]. cbn [lex_exp_tail]. case_decide as Hd.
  - apply from_copy with (sc := mkScanner ExpSign k) in H as (out' & H & ->); [|destruct Hd as [-> | ->]; by_decide..|scan_simpl; by rewrite decide_True].
    apply scan_ExpSign in H as (t & r & out'' & HL & -> & Hr). exists (d :: t), r, out''. by rewrite HL.
  - assert (∀ k' c, c = d → scan_step (mkScanner Exp k') c = scan_step (mkScanner ExpSign k') c) as He.
    { intros k' c ->. scan_simpl. by rewrite decide_False. }
    apply scan_ExpSign. cbn [compact_from] in *. by rewrite <- He.
Qed.

(** An optional exponent, where a value may end. *)
Lemma scan_opt_exp st k s out :
  st ≠ EndTop → (∀ c, digit c = false → c ≠ "."%char → scan_step (mkScanner st k) c = if is_exp c then Some (mkScanner Exp k, Continue) else scan_end c k) →
  (∀ c, head s = Some c → digit c = false ∧ c ≠ "."%char) → from st k s = Some out →
  ∃ t r out', lex_exp s = Some (t, r) ∧ out = t ++ out' ∧ from EndValue k r = Some out'.
Proof.
  intros Hst Hstep Hhd H. assert ((∀ c, head s = Some c → is_exp c = false) → from EndValue k s = Some out) as Hend.
  { intros He. rewrite <- (from_end st k s); [done..|]. intros c [->|Hc].
    - rewrite Hstep by apply space_not_number. by destruct space_not_number as (_ & _ & ->).
    - destruct (Hhd c Hc). rewrite Hstep by done. by rewrite He. }
  destruct s as [|c s]; [exists [], [], out; split; [done|]; split; [done|]; by apply Hend|]. simpl.
  destruct (is_exp c) eqn:He.
  2: { exists [], (c :: s), out. split; [done|]. split; [done|]. apply Hend. by intros ? [= <-]. }
  destruct (exp_plain c He) as (Hh & Hv & Hd & Hdot). apply from_copy with (sc := mkScanner Exp k) in H as (out' & H & ->); [|done..|].
  2: { rewrite Hstep by done. by rewrite He. }
  apply scan_Exp in H as (t & r & out'' & HL & -> & Hr). exists (c :: t), r, out''. split; [|done].
  destruct s as [|d s]; [done|]. cbn [lex_exp_tail] in HL. case_decide; [|by rewrite HL].
  destruct (digits1 s) as [[a b]|]; [|done]. simpl in *. by injection HL as <- <-.
Qed.

Definition lex_dot_tail (s : gostring) : option (gostring * gostring) := '(a, s1) ← digits1 s; '(t, r) ← lex_exp s1; Some (a ++ t, r).

Lemma scan_Dot : scans Dot lex_dot_tail.
Proof.
  apply (scan_first_digit Dot Dot0 lex_exp); [intros k c Hc; scan_simpl; by rewrite Hc..|done|].
  apply (scan_digits Dot0 lex_exp); [done|intros k c Hc; scan_simpl; by rewrite Hc|].
  intros k s out Hn H. pose proof (Hn) as Hn'. destruct s as [|c s].
  - eapply (scan_opt_exp Dot0 k []); [done| |done|done]. intros c Hc _. scan_simpl. by rewrite Hc.
  - destruct (decide (c = "."%char)) as [->|Hdot].
    + exists [], ("."%char :: s), out. split; [done|]. split; [done|]. by rewrite <- (from_end Dot0 k); [done..|intros c [->|[= <-]]].
    + eapply (scan_opt_exp Dot0 k (c :: s)); [done| | |done].
      * intros c' Hc _. scan_simpl. by rewrite Hc.
      * intros ? [= <-]. split; [by apply Hn|done].
Qed.

(** After the integer part. *)
Definition lex_int_tail (s : gostring) : option (gostring * gostring) := '(f, s1) ← lex_frac s; '(e, r) ← lex_exp s1; Some (f ++ e, r).

Lemma scan_int_tail st k s out :
  st ≠ EndTop →
  (∀ c, digit c = false → scan_step (mkScanner st k) c = if decide (c = "."%char) then Some (mkScanner Dot k, Continue)
                                     else if is_exp c then Some (mkScanner Exp k, Continue) else scan_end c k) →
  (∀ c, head s = Some c → digit c = false) → from st k s = Some out →
  ∃ t r out', lex_int_tail s = Some (t, r) ∧ out = t ++ out' ∧ from EndValue k r = Some out'.
Proof.
  intros Hst Hstep Hhd H. destruct (decide (head s = Some "."%char)) as [Hdot|Hdot].
  - destruct s as [|c s]; [done|]. injection Hdot as ->. apply from_copy with (sc := mkScanner Dot k) in H as (out' & H & ->); [|by_decide..|by rewrite Hstep].
    apply scan_Dot in H as (t & r & out'' & HL & -> & Hr). exists ("."%char :: t), r, out''. split; [|done].
    unfold lex_int_tail. simpl. unfold lex_dot_tail in HL. destruct (digits1 s) as [[a s1]|]; [|done]. simpl in *.
    destruct (lex_exp s1) as [[e r']|]; [|done]. simpl in *. by injection HL as <- <-.
  - assert (∀ c, head s = Some c → digit c = false ∧ c ≠ "."%char) as Hh by (intros c Hc; split; [auto|by intros ->]).
    assert (lex_int_tail s = lex_exp s) as Et.
    { unfold lex_int_tail. destruct s as [|c s]; [done|]. unfold lex_frac. rewrite decide_False by (by intros ->).
      cbn [mbind option_bind]. by destruct (lex_exp (c :: s)) as [[]|]. }
    rewrite Et. eapply scan_opt_exp; [done| |done|done]. intros c Hc Hc'. rewrite Hstep by done. by rewrite decide_False.
Qed.

Lemma scan_Zero : scans Zero lex_int_tail.
Proof.
  intros k s out H. assert ((∀ c, head s = Some c → digit c = false) ∨ ∃ c s', s = c :: s' ∧ digit c = true) as [Hn|(c & s' & -> & Hd)].
  { destruct s as [|c s]; [by left|]. destruct (digit c) eqn:Hd; [right; eauto|left]. by intros ? [= <-]. }
  - by eapply (scan_int_tail Zero).
  - assert (c ≠ "."%char ∧ is_exp c = false) as [Hdot He].
    { split; [intros ->; by vm_compute in Hd|]. destruct (is_exp c) eqn:He; [|done]. apply exp_plain in He as (_ & _ & He & _). congruence. }
    exists [], (c :: s'), out. split; [unfold lex_int_tail; simpl; rewrite decide_False by done; simpl; by rewrite He|]. split; [done|].
    rewrite <- (from_end Zero k); [done..|]. intros c' [->|[= <-]]; scan_simpl; [done|]. by rewrite decide_False, He.
Qed.

Lemma scan_Digits : scans Digits (λ s, let '(a, s1) := span_digits s in '(t, r) ← lex_int_tail s1; Some (a ++ t, r)).
Proof.
  apply scan_digits; [done|intros k c Hc; scan_simpl; by rewrite Hc|]. intros k s out Hn H.
  eapply (scan_int_tail Digits); [done| |done|done]. intros c Hc. scan_simpl. by rewrite Hc.
Qed.

(** The digits of a number, from a state that goes to [Zero] or [Digits]. *)
Lemma scan_unsigned st k c s out :
  digit c = true → scan_step (mkScanner st k) c = Some (mkScanner (if decide (c = "0"%char) then Zero else Digits) k, Continue) →
  from st k (c :: s) = Some out →
  ∃ t r out', lex_unsigned (c :: s) = Some (t, r) ∧ out = t ++ out' ∧ from EndValue k r = Some out'.
Proof.
  intros Hd Hs H. destruct (digit_plain c Hd) as [Hh Hv]. eapply from_copy in H as (out' & H & ->); [|done..].
  unfold lex_unsigned. simpl. case_decide as Hz.
  - apply scan_Zero in H as (t & r & out'' & HL & -> & Hr). exists (c :: t), r, out''. split; [|done].
    unfold lex_int_tail in HL. cbn [mbind option_bind]. destruct (lex_frac s) as [[f s2]|]; [|done]. cbn [mbind option_bind] in *.
    destruct (lex_exp s2) as [[e s3]|]; [|done]. cbn [mbind option_bind] in *. by injection HL as <- <-.
  - apply scan_Digits in H as (t & r & out'' & HL & -> & Hr). exists (c :: t), r, out''. split; [|done]. rewrite Hd.
    destruct (span_digits s) as [a s1]. unfold lex_int_tail in HL. cbn [mbind option_bind prepend fst snd] in *.
    destruct (lex_frac s1) as [[f s2]|]; [|done]. cbn [mbind option_bind] in *.
    destruct (lex_exp s2) as [[e s3]|]; [|done]. cbn [mbind option_bind] in *. injection HL as <- <-. done.
Qed.

Lemma scan_number k c s out :
  number_head c = true → from BeginValue k (c :: s) = Some out →
  ∃ t r out', lex_number (c :: s) = Some (t, r) ∧ out = t ++ out' ∧ from EndValue k r = Some out'.
Proof.
  intros Hc H. destruct (number_head_other c Hc) as (Hsp & ? & ? & ? & ? & ? & ? & _). unfold number_head in Hc. apply orb_true_iff in Hc as [Hm|Hd].
  - apply bool_decide_eq_true in Hm as ->. apply from_copy with (sc := mkScanner Neg k) in H as (out' & H & ->); [|by_decide..|done].
    destruct s as [|d s]; [apply from_nil in H as [H _]; by vm_compute in H|].
    destruct (digit d) eqn:Hd.
    2: { rewrite from_error in H; [done|]. scan_simpl. rewrite Hd. rewrite decide_False; [done|]. intros ->. by vm_compute in Hd. }
    apply scan_unsigned in H as (t & r & out'' & HL & -> & Hr); [|done|scan_simpl; rewrite Hd; by case_decide].
    exists ("-"%char :: t), r, out''. split; [|done]. unfold lex_number. rewrite decide_True by done. by rewrite HL.
  - assert (c ≠ "-"%char) by (intros ->; by vm_compute in Hd).
    apply scan_unsigned in H as (t & r & out'' & HL & -> & Hr); [|done|].
    + exists t, r, out''. split; [|done]. unfold lex_number. by rewrite decide_False.
    + scan_simpl. unfold scan_begin. rewrite Hsp. rewrite !decide_False by done. case_decide; [done|]. rewrite !decide_False by done. by rewrite Hd.
Qed.

(** *** Literals *)
Lemma scan_literal w k s out :
  w ≠ [] → Forall (λ c, html_byte c = false ∧ byte_val c ≠ 226 ∧ c ≠ " "%char) w → from (Literal w) k s = Some out →
  ∃ r out', CutPrefix s w = Some r ∧ out = w ++ out' ∧ from EndValue k r = Some out'.
Proof.
  intros Hne Hw. revert s out. induction Hw as [|x w (Hh & Hv & Hx) Hw IH]; intros s out H; [done|].
  destruct s as [|c s].
  { apply from_nil in H as [H _]. unfold scan_eof in H. cbn [sstep] in H. unfold scan_step in H. cbn [sstep stack] in H.
    rewrite decide_False in H by congruence. done. }
  simpl. destruct (decide (c = x)) as [->|Hc].
  2: { rewrite from_error in H; [done|]. scan_simpl. by rewrite decide_False. }
  rewrite decide_True by done.
  apply from_copy with (sc := mkScanner (match w with [] => EndValue | _ => Literal w end) k) in H as (out' & H & ->); [|done..|scan_simpl; by rewrite decide_True].
  destruct w as [|y w]; [exists s, out'; done|]. destruct (IH ltac:(done) s out' H) as (r & out'' & E & -> & Hr). exists r, out''. done.
Qed.

(** *** Spaces *)
Lemma from_top s : compact_from (mkScanner EndTop []) 0 s = from EndValue [] s.
Proof. by destruct s. Qed.
Lemma from_pop f k s : compact_from (pop (f :: k)) 0 s = from EndValue k s.
Proof. destruct k; [apply from_top|done]. Qed.

Lemma space_plain c : json_space c = true → html_byte c = false ∧ byte_val c ≠ 226.
Proof. pattern c. apply byte_forall. by_decide. Qed.

Lemma from_space st k c s sc :
  json_space c = true → scan_step (mkScanner st k) c = Some (sc, Skip) → from st k (c :: s) = compact_from sc 0 s.
Proof.
  intros Hc Hs. destruct (space_plain c Hc) as [Hh Hv]. cbn [compact_from]. rewrite Hs, separator_is_sep by by apply is_sep_head. rewrite Hh.
  by destruct (compact_from sc 0 s).
Qed.

Lemma from_skip st k s :
  (∀ c, json_space c = true → scan_step (mkScanner st k) c = Some (mkScanner st k, Skip)) → from st k s = from st k (skip_spaces s).
Proof.
  intros Hst. induction s as [|c s IH]; [done|]. simpl skip_spaces. destruct (json_space c) eqn:Hc; [|done]. by rewrite (from_space st k c s _ Hc (Hst c Hc)).
Qed.

Lemma skip_value k s : from BeginValue k s = from BeginValue k (skip_spaces s).
Proof. apply from_skip. intros c Hc. scan_simpl. unfold scan_begin. by rewrite Hc. Qed.
Lemma skip_key k s : from BeginString k s = from BeginString k (skip_spaces s).
Proof. apply from_skip. intros c Hc. scan_simpl. unfold scan_begin_string. by rewrite Hc. Qed.
Lemma skip_end k s : from EndValue k s = from EndValue k (skip_spaces s).
Proof.
  destruct k as [|f k]; [|apply from_skip; intros c Hc; scan_simpl; unfold scan_end; by rewrite Hc].
  induction s as [|c s IH]; [done|]. simpl skip_spaces. destruct (json_space c) eqn:Hc; [|done].
  rewrite (from_space EndValue [] c s (mkScanner EndTop [])), from_top by (done || (scan_simpl; unfold scan_end; by rewrite Hc)). done.
Qed.
Lemma skip_first_key k s : from BeginStringOrEmpty k s = from BeginStringOrEmpty k (skip_spaces s).
Proof. apply from_skip. intros c Hc. scan_simpl. by rewrite Hc. Qed.
Lemma skip_first_value k s : from BeginValueOrEmpty k s = from BeginValueOrEmpty k (skip_spaces s).
Proof. apply from_skip. intros c Hc. scan_simpl. by rewrite Hc. Qed.

Lemma skip_spaces_head s c r : skip_spaces s = c :: r → json_space c = false.
Proof. induction s as [|d s IH]; [done|]. simpl. destruct (json_space d) eqn:Hd; [done|]. by intros [= <- _]. Qed.

Lemma skip_spaces_idem s : skip_spaces (skip_spaces s) = skip_spaces s.
Proof. induction s as [|c s IH]; [done|]. simpl. destruct (json_space c) eqn:Hc; [done|]. simpl. by rewrite Hc. Qed.

(** After the opening bracket, an array or an object that is not empty. *)
Lemma first_value_state k s c r :
  skip_spaces s = c :: r → c ≠ "]"%char → from BeginValueOrEmpty k s = from BeginValue k s.
Proof.
  intros E Hc. rewrite skip_first_value, skip_value, E. pose proof (skip_spaces_head _ _ _ E) as Hs. cbn [compact_from].
  assert (scan_step (mkScanner BeginValueOrEmpty k) c = scan_step (mkScanner BeginValue k) c) as ->; [|done].
  scan_simpl. by rewrite Hs, decide_False.
Qed.
Lemma first_key_state k s c r :
  skip_spaces s = c :: r → c ≠ "}"%char → from BeginStringOrEmpty k s = from BeginString k s.
Proof.
  intros E Hc. rewrite skip_first_key, skip_key, E. pose proof (skip_spaces_head _ _ _ E) as Hs. cbn [compact_from].
  assert (scan_step (mkScanner BeginStringOrEmpty k) c = scan_step (mkScanner BeginString k) c) as ->; [|done].
  scan_simpl. by rewrite Hs, decide_False.
Qed.

(** A number read from a text is a number by itself. *)
Lemma span_digits_alone s a b : span_digits s = (a, b) → span_digits a = (a, []).
Proof.
  revert a b. induction s as [|c s IH]; simpl; intros a b; [by intros [= <- <-]|].
  destruct (digit c) eqn:Hc; [|by intros [= <- <-]]. destruct (span_digits s) as [a' b']. intros [= <- <-]. simpl. by rewrite Hc, (IH a' b').
Qed.
Lemma span_digits_followed s a b t : span_digits s = (a, b) → (∀ c, head t = Some c → digit c = false) → span_digits (a ++ t) = (a, t).
Proof.
  revert a b. induction s as [|c s IH]; simpl; intros a b.
  - intros [= <- <-] Ht. destruct t as [|d t]; [done|]. simpl. by rewrite Ht.
  - destruct (digit c) eqn:Hc; [|intros [= <- <-] Ht; destruct t as [|d t]; [done|simpl; by rewrite Ht]].
    destruct (span_digits s) as [a' b']. intros [= <- <-] Ht. simpl. by rewrite Hc, (IH a' b').
Qed.
Lemma digits1_followed s a b t : digits1 s = Some (a, b) → (∀ c, head t = Some c → digit c = false) → digits1 (a ++ t) = Some (a, t).
Proof.
  destruct s as [|c s]; [done|]. unfold digits1 at 1. destruct (digit c) eqn:Hc; [|done]. intros H Ht. apply (inj Some) in H.
  pose proof (span_digits_followed _ _ _ t H Ht) as Hf. simpl in H. rewrite Hc in H. destruct (span_digits s) as [a' b']. injection H as <- <-.
  simpl app in *. unfold digits1. rewrite Hc. by rewrite Hf.
Qed.
Lemma prepend_digits1_followed p s a b t :
  prepend p <$> digits1 s = Some (a, b) → (∀ c, head t = Some c → digit c = false) → ∃ d, a = p ++ d ∧ d ≠ [] ∧ digits1 (d ++ t) = Some (d, t).
Proof.
  intros H Ht. destruct (digits1 s) as [[d b']|] eqn:E; [|done]. injection H as <- <-. exists d. split; [done|].
  split; [by apply digits1_split in E as [_ ?]|]. by eapply digits1_followed.
Qed.

Lemma lex_exp_alone s a b : lex_exp s = Some (a, b) → lex_exp a = Some (a, []) ∧ ∀ c, head a = Some c → is_exp c = true.
Proof.
  destruct s as [|c s]; simpl; [by intros [= <- <-]|]. destruct (is_exp c) eqn:He; [|by intros [= <- <-]].
  destruct s as [|d s]; [done|]. case_decide as Hd; intros (x & -> & Hne & Hx)%(prepend_digits1_followed _ _ _ _ []); try done; rewrite app_nil_r in Hx.
  - simpl. rewrite He, decide_True, Hx by done. split; [done|]. by intros ? [= <-].
  - simpl. rewrite He. destruct x as [|y x]; [done|]. unfold digits1 in Hx. destruct (digit y) eqn:Hy; [|done].
    rewrite decide_False; [|intros [-> | ->]; by vm_compute in Hy]. unfold digits1. rewrite Hy. apply (inj Some) in Hx. rewrite Hx. simpl. split; [done|]. by intros ? [= <-].
Qed.

Lemma lex_frac_followed s a b t :
  lex_frac s = Some (a, b) → (∀ c, head t = Some c → is_exp c = true) →
  lex_frac (a ++ t) = Some (a, t) ∧ ∀ c, head a = Some c → c = "."%char.
Proof.
  intros H Ht. assert (∀ c, head t = Some c → digit c = false ∧ c ≠ "."%char) as Ht'.
  { intros c Hc. apply Ht, exp_plain in Hc as (_ & _ & ? & ?). done. }
  assert (lex_frac ([] ++ t) = Some ([], t)) as Hnil.
  { destruct t as [|c t]; [done|]. simpl. rewrite decide_False; [done|]. by apply Ht'. }
  destruct s as [|c s]; simpl in H; [by injection H as <- <-|]. case_decide as Hc; [|by injection H as <- <-].
  apply (prepend_digits1_followed _ _ _ _ t) in H as (d & -> & Hne & Hd); [|intros c' Hc'; by apply Ht'].
  subst. simpl. rewrite Hd. split; [done|]. by intros ? [= <-].
Qed.

Lemma lex_unsigned_alone s a b : lex_unsigned s = Some (a, b) → lex_unsigned a = Some (a, []).
Proof.
  unfold lex_unsigned. intros ([i s1] & Hi & H)%bind_Some. apply bind_Some in H as ([f s2] & Hf & H).
  apply bind_Some in H as ([e s3] & He & [= <- <-]). destruct (lex_exp_alone _ _ _ He) as [He' Hexp].
  destruct (lex_frac_followed _ _ _ e Hf Hexp) as [Hf' Hdot].
  assert (lex_int (i ++ f ++ e) = Some (i, f ++ e)) as ->.
  { destruct s as [|c s]; [done|]. unfold lex_int in Hi. case_decide; [injection Hi as <- <-; by subst|].
    assert (∀ c, head (f ++ e) = Some c → digit c = false) as Hnd.
    { intros c' Hc'. destruct f as [|x f]; simpl in Hc'; [apply Hexp, exp_plain in Hc' as (_ & _ & ? & _); done|].
      injection Hc' as <-. by rewrite (Hdot x). }
    pose proof (digits1_followed _ _ _ _ Hi Hnd) as Hd. unfold digits1 in Hi. destruct (digit c) eqn:Ec; [|done]. apply (inj Some) in Hi.
    simpl in Hi. rewrite Ec in Hi. destruct (span_digits s) as [a' b']. injection Hi as <- <-. change (lex_int ((c :: a') ++ f ++ e) = Some (c :: a', f ++ e)). unfold lex_int. change ((c :: a') ++ f ++ e) with (c :: (a' ++ f ++ e)) in *.
    cbn beta iota. rewrite (decide_False (P := c = "0"%char)) by done. exact Hd. }
  cbn [mbind option_bind]. rewrite Hf'. cbn [mbind option_bind]. by rewrite He'.
Qed.

Lemma lex_number_token s a b : lex_number s = Some (a, b) → number_ok a.
Proof.
  unfold number_ok. destruct s as [|c s]; [done|]. unfold lex_number at 1. case_decide as Hc.
  - destruct (lex_unsigned s) as [[a' b']|] eqn:E; [|done]. intros [= <- <-]. subst. simpl. by rewrite (lex_unsigned_alone _ _ _ E).
  - intros H. pose proof (lex_unsigned_alone _ _ _ H) as H'. apply lex_unsigned_split in H as [E Hne]. destruct a as [|d a]; [done|].
    injection E as -> _. unfold lex_number. by rewrite decide_False.
Qed.

(** ** Values *)
Definition value_token (k : list frame_state) (f : nat) (s out : gostring) : Prop := ∃ v r out',
  parse_value f (length k) s = Some (v, r) ∧ good (length k) v ∧ out = print (escape v) ++ out' ∧ from EndValue k r = Some out'.
Definition elements_token (k : list frame_state) (f : nat) (s out : gostring) : Prop := ∃ l r out',
  parse_elements f (S (length k)) s = Some (l, r) ∧ l ≠ [] ∧ Forall (good (S (length k))) l
  ∧ out = print_elements (List.map escape l) ++ str "]" ++ out' ∧ from EndValue k r = Some out'.
Definition members_token (k : list frame_state) (f : nat) (s out : gostring) : Prop := ∃ l r out',
  parse_members f (S (length k)) s = Some (l, r) ∧ l ≠ [] ∧ Forall (λ m, string_ok m.1 ∧ good (S (length k)) m.2) l
  ∧ out = print_members (List.map (λ '(k, v), (esc k, escape v)) l) ++ str "}" ++ out' ∧ from EndValue k r = Some out'.

(** The scanner's claims on shorter texts. *)
Definition below (n : nat) : Prop :=
  (∀ k s out f, (length s < n)%nat → (2 * length s < f)%nat → from BeginValue k s = Some out → value_token k f s out)
  ∧ (∀ k s out f, (length s < n)%nat → (2 * length s + 1 < f)%nat → from BeginValue (ParseArrayValue :: k) s = Some out → elements_token k f s out)
  ∧ (∀ k s out f, (length s < n)%nat → (2 * length s + 1 < f)%nat → from BeginString (ParseObjectKey :: k) s = Some out → members_token k f s out).

Lemma eof_inside st f k out : from st (f :: k) [] = Some out → st ∈ [BeginValue; BeginValueOrEmpty; BeginStringOrEmpty; BeginString; EndValue] → False.
Proof.
  intros [H _]%from_nil Hst. revert H. unfold scan_eof. cbn [sstep]. rewrite !elem_of_cons in Hst.
  destruct Hst as [-> |[-> |[-> |[-> |[-> |H%elem_of_nil]]]]]; done.
Qed.

(** The byte after an element or a member. *)
Lemma end_bracket_array k s out :
  from EndValue (ParseArrayValue :: k) s = Some out →
  ∃ d r out', skip_spaces s = d :: r ∧ out = d :: out' ∧
    ((d = ","%char ∧ from BeginValue (ParseArrayValue :: k) r = Some out') ∨ (d = "]"%char ∧ from EndValue k r = Some out')).
Proof.
  rewrite skip_end. intros H. destruct (skip_spaces s) as [|d r] eqn:E; [exfalso; eapply eof_inside; [done|set_solver]|].
  pose proof (skip_spaces_head _ _ _ E) as Hd. destruct (decide (d = ","%char)) as [->|H1].
  { apply from_copy with (sc := mkScanner BeginValue (ParseArrayValue :: k)) in H as (out' & H & ->); [|by_decide..|done]. exists ","%char, r, out'. eauto. }
  destruct (decide (d = "]"%char)) as [->|H2].
  - apply from_copy with (sc := pop (ParseArrayValue :: k)) in H as (out' & H & ->); [|by_decide..|done]. rewrite from_pop in H. exists "]"%char, r, out'. eauto 6.
  - rewrite from_error in H; [done|]. scan_simpl. unfold scan_end. by rewrite Hd, !decide_False.
Qed.

Lemma end_bracket_object k s out :
  from EndValue (ParseObjectValue :: k) s = Some out →
  ∃ d r out', skip_spaces s = d :: r ∧ out = d :: out' ∧
    ((d = ","%char ∧ from BeginString (ParseObjectKey :: k) r = Some out') ∨ (d = "}"%char ∧ from EndValue k r = Some out')).
Proof.
  rewrite skip_end. intros H. destruct (skip_spaces s) as [|d r] eqn:E; [exfalso; eapply eof_inside; [done|set_solver]|].
  pose proof (skip_spaces_head _ _ _ E) as Hd. destruct (decide (d = ","%char)) as [->|H1].
  { apply from_copy with (sc := mkScanner BeginString (ParseObjectKey :: k)) in H as (out' & H & ->); [|by_decide..|done]. exists ","%char, r, out'. eauto. }
  destruct (decide (d = "}"%char)) as [->|H2].
  - apply from_copy with (sc := pop (ParseObjectValue :: k)) in H as (out' & H & ->); [|by_decide..|done]. rewrite from_pop in H. exists "}"%char, r, out'. eauto 6.
  - rewrite from_error in H; [done|]. scan_simpl. unfold scan_end. by rewrite Hd, !decide_False.
Qed.

Lemma elements_below n k s out f :
  below n → (∀ out f, (2 * length s < f)%nat → from BeginValue (ParseArrayValue :: k) s = Some out → value_token (ParseArrayValue :: k) f s out) →
  (length s ≤ n)%nat → (2 * length s + 1 < f)%nat → from BeginValue (ParseArrayValue :: k) s = Some out → elements_token k f s out.
Proof.
  intros (_ & Hels & _) Hval Hn Hf H. destruct f as [|f]; [lia|].
  destruct (Hval out f ltac:(lia) H) as (v & r & out' & Hp & Hg & -> & Hr). simpl length in Hp, Hg.
  assert (length r < length s)%nat as Hl by (by eapply (proj1 (parse_shrinks f))).
  apply end_bracket_array in Hr as (d & r' & out'' & E & -> & [[-> Hr]|[-> Hr]]); pose proof (skip_spaces_lt _ _ _ E) as Hl'.
  - destruct (Hels k r' out'' f ltac:(lia) ltac:(lia) Hr) as (l & r'' & o & Hpl & Hne & Hgl & -> & Hrl).
    exists (v :: l), r'', o. split; [cbn [parse_elements]; rewrite Hp; cbn [mbind option_bind]; rewrite E, decide_True, Hpl by done; done|].
    split; [done|]. split; [by constructor|]. split; [|done]. destruct l as [|w l]; [done|]. simpl. by rewrite <- !(assoc_L (++)).
  - exists [v], r', out''. split; [cbn [parse_elements]; rewrite Hp; cbn [mbind option_bind]; by rewrite E, decide_False, decide_True|].
    split; [done|]. split; [by apply Forall_singleton|]. done.
Qed.

Lemma members_below n k s out f :
  below n → (length s ≤ n)%nat → (2 * length s + 1 < f)%nat → from BeginString (ParseObjectKey :: k) s = Some out → members_token k f s out.
Proof.
  intros (Hval & _ & Hmem) Hn Hf. destruct f as [|f]; [lia|]. rewrite skip_key. intros H.
  destruct (skip_spaces s) as [|q s1] eqn:E1; [exfalso; eapply eof_inside; [done|set_solver]|].
  pose proof (skip_spaces_head _ _ _ E1) as Hq. pose proof (skip_spaces_lt _ _ _ E1) as L1.
  destruct (decide (q = DQUOTE)) as [->|Hne]; [|rewrite from_error in H; [done|scan_simpl; unfold scan_begin_string; by rewrite Hq, decide_False]].
  apply from_copy with (sc := mkScanner InString (ParseObjectKey :: k)) in H as (o1 & H & ->); [|apply quote_plain..|done].
  apply scan_string in H as (key & s2 & o2 & Hkey & Hok & -> & H). pose proof (lex_string_lt _ _ _ Hkey) as L2.
  rewrite skip_end in H. destruct (skip_spaces s2) as [|c s3] eqn:E2; [exfalso; eapply eof_inside; [done|set_solver]|].
  pose proof (skip_spaces_head _ _ _ E2) as Hc. pose proof (skip_spaces_lt _ _ _ E2) as L3.
  destruct (decide (c = ":"%char)) as [->|Hcol]; [|rewrite from_error in H; [done|scan_simpl; unfold scan_end; by rewrite Hc, decide_False]].
  apply from_copy with (sc := mkScanner BeginValue (ParseObjectValue :: k)) in H as (o3 & H & ->); [|by_decide..|done].
  destruct (Hval (ParseObjectValue :: k) s3 o3 f ltac:(lia) ltac:(lia) H) as (v & s4 & o4 & Hp & Hg & -> & Hr). simpl length in Hp, Hg.
  assert (length s4 < length s3)%nat as L4 by (by eapply (proj1 (parse_shrinks f))).
  apply end_bracket_object in Hr as (d & s5 & o5 & E5 & -> & [[-> Hr]|[-> Hr]]); pose proof (skip_spaces_lt _ _ _ E5) as L5.
  - destruct (Hmem k s5 o5 f ltac:(lia) ltac:(lia) Hr) as (l & r & o & Hpl & Hnel & Hgl & -> & Hrl).
    exists ((key, v) :: l), r, o. split.
    { cbn [parse_members]. rewrite E1, decide_True, Hkey by done. cbn [mbind option_bind]. rewrite E2, decide_True, Hp by done.
      cbn [mbind option_bind]. rewrite E5, decide_True, Hpl by done. done. }
    split; [done|]. split; [by constructor|]. split; [|done]. destruct l as [|[k2 v2] l]; [done|].
    change (print_members (List.map (λ '(k, v), (esc k, escape v)) ((key, v) :: (k2, v2) :: l)))
      with (print_key (esc key) ++ print (escape v) ++ str "," ++ print_members (List.map (λ '(k, v), (esc k, escape v)) ((k2, v2) :: l))).
    unfold print_key. rewrite <- !(assoc_L (++)). done.
  - exists [(key, v)], s5, o5. split.
    { cbn [parse_members]. rewrite E1, decide_True, Hkey by done. cbn [mbind option_bind]. rewrite E2, decide_True, Hp by done.
      cbn [mbind option_bind]. by rewrite E5, decide_False, decide_True. }
    split; [done|]. split; [by apply Forall_singleton|]. split; [|done]. simpl. unfold print_key. rewrite <- !(assoc_L (++)). done.
Qed.

(** One value, from the values inside it. *)
Lemma value_below n k s out f :
  below n → (length s ≤ n)%nat → (2 * length s < f)%nat → from BeginValue k s = Some out → value_token k f s out.
Proof.
  intros (_ & Hels & Hmem) Hn Hf. destruct f as [|f]; [lia|]. rewrite skip_value. intros H. unfold value_token. cbn [parse_value].
  destruct (skip_spaces s) as [|c s'] eqn:E.
  { exfalso. apply from_nil in H as [H _]. by destruct k as [|[] ?]. }
  pose proof (skip_spaces_head _ _ _ E) as Hc. pose proof (skip_spaces_lt _ _ _ E) as L.
  destruct (decide (c = "{"%char)) as [->|H1].
  { destruct (decide (S (length k) ≤ maxNestingDepth)%nat) as [Hd|Hd].
    2: { rewrite from_error in H; [done|]. scan_simpl. unfold scan_begin. simpl. unfold push. by rewrite decide_False. }
    apply from_copy with (sc := mkScanner BeginStringOrEmpty (ParseObjectKey :: k)) in H as (o1 & H & ->); [|by_decide..|].
    2: { scan_simpl. unfold scan_begin. simpl. unfold push. by rewrite decide_True. }
    destruct (skip_spaces s') as [|d r] eqn:E'; [rewrite skip_first_key, E' in H; exfalso; eapply eof_inside; [done|set_solver]|].
    destruct (decide (d = "}"%char)) as [->|Hd'].
    - rewrite skip_first_key, E' in H. apply from_copy with (sc := pop (ParseObjectValue :: k)) in H as (o2 & H & ->); [|by_decide..|done].
      rewrite from_pop in H. exists (JObject []), r, o2. split; [done|]. split; [by apply good_object|]. done.
    - rewrite (first_key_state _ _ _ _ E' Hd') in H.
      destruct (Hmem k s' o1 f ltac:(lia) ltac:(lia) H) as (l & r' & o & Hp & Hne & Hg & -> & Hr).
      exists (JObject l), r', o. rewrite Hp. split; [done|]. split; [by apply good_object|]. split; [|done].
      cbn [escape]. rewrite print_object. by rewrite <- !(assoc_L (++)). }
  destruct (decide (c = "["%char)) as [->|H2].
  { destruct (decide (S (length k) ≤ maxNestingDepth)%nat) as [Hd|Hd].
    2: { rewrite from_error in H; [done|]. scan_simpl. unfold scan_begin. simpl. unfold push. by rewrite decide_False. }
    apply from_copy with (sc := mkScanner BeginValueOrEmpty (ParseArrayValue :: k)) in H as (o1 & H & ->); [|by_decide..|].
    2: { scan_simpl. unfold scan_begin. simpl. unfold push. by rewrite decide_True. }
    destruct (skip_spaces s') as [|d r] eqn:E'; [rewrite skip_first_value, E' in H; exfalso; eapply eof_inside; [done|set_solver]|].
    destruct (decide (d = "]"%char)) as [->|Hd'].
    - rewrite skip_first_value, E' in H. apply from_copy with (sc := pop (ParseArrayValue :: k)) in H as (o2 & H & ->); [|by_decide..|done].
      rewrite from_pop in H. exists (JArray []), r, o2. split; [done|]. split; [by apply good_array|]. done.
    - rewrite (first_value_state _ _ _ _ E' Hd') in H.
      destruct (Hels k s' o1 f ltac:(lia) ltac:(lia) H) as (l & r' & o & Hp & Hne & Hg & -> & Hr).
      exists (JArray l), r', o. rewrite Hp. split; [done|]. split; [by apply good_array|]. split; [|done].
      cbn [escape]. rewrite print_array. by rewrite <- !(assoc_L (++)). }
  destruct (decide (c = DQUOTE)) as [->|H3].
  { apply from_copy with (sc := mkScanner InString k) in H as (o1 & H & ->); [|apply quote_plain..|done].
    apply scan_string in H as (raw & r & o2 & Hl & Hok & -> & Hr). exists (JString raw), r, o2. rewrite Hl. split; [done|].
    split; [by apply good_string|]. split; [|done]. simpl. by rewrite <- (assoc_L (++)). }
  assert (∀ w b, good (length k) b → w ≠ [] → Forall (λ c, html_byte c = false ∧ byte_val c ≠ 226 ∧ c ≠ " "%char) (c :: w) → print (escape b) = c :: w →
            scan_step (mkScanner BeginValue k) c = Some (mkScanner (Literal w) k, Continue) →
            ∃ v r out', (r ← CutPrefix s' w; Some (b, r)) = Some (v, r) ∧ good (length k) v ∧ out = print (escape v) ++ out'
              ∧ from EndValue k r = Some out') as Hlit.
  { intros w b Hb Hne [(? & ? & ?) Hw]%Forall_cons Hpr Hs. apply from_copy with (sc := mkScanner (Literal w) k) in H as (o1 & H & ->); [|done..].
    apply scan_literal in H as (r & o2 & Hcut & -> & Hr); [|done..]. exists b, r, o2. rewrite Hcut. split; [done|]. split; [done|]. by rewrite Hpr. }
  destruct (decide (c = "t"%char)) as [->|H4]; [apply (Hlit (str "rue") (JBool true)); [done|done|by_decide|done|done]|].
  destruct (decide (c = "f"%char)) as [->|H5]; [apply (Hlit (str "alse") (JBool false)); [done|done|by_decide|done|done]|].
  destruct (decide (c = "n"%char)) as [->|H6]; [apply (Hlit (str "ull") JNull); [done|done|by_decide|done|done]|].
  destruct (number_head c) eqn:Hnum.
  - apply scan_number in H as (t & r & o & HL & -> & Hr); [|done]. exists (JNumber t), r, o. rewrite HL. split; [done|].
    split; [|done]. split; [|done]. by eapply lex_number_token.
  - rewrite from_error in H; [done|]. unfold number_head in Hnum. apply orb_false_iff in Hnum as [Hm Hd]. apply bool_decide_eq_false in Hm.
    scan_simpl. unfold scan_begin. rewrite Hc, !decide_False by done. rewrite decide_False by (intros ->; by vm_compute in Hd).
    rewrite !decide_False by done. by rewrite Hd.
Qed.

Lemma all_below n : below n.
Proof.
  induction n as [|n IH]; [split_and!; intros; lia|]. pose proof IH as IH'. split_and!; intros k s out f Hl Hf H.
  - apply (value_below n); [done|lia|done..].
  - apply (elements_below n); [done| |lia|done..]. intros o f' Hf' H'. apply (value_below n); [done|lia|done..].
  - apply (members_below n); [done|lia|done..].
Qed.

(** What the compaction accepts is a value, and its output prints that value
    escaped. *)
Lemma compact_sound src out :
  compact src = Some out → ∃ v, parse_text src = Some v ∧ good 0 v ∧ out = print (escape v).
Proof.
  intros H. destruct (all_below (S (length src))) as (Hv & _). destruct (Hv [] src out (2 * length src + 1)%nat) as (v & r & o & Hp & Hg & -> & Hr); [lia..|done|].
  exists v. rewrite skip_end in Hr. destruct (skip_spaces r) as [|c r'] eqn:E.
  - apply from_nil in Hr as [_ ->]. rewrite app_nil_r. split; [|done]. unfold parse_text, first_value. simpl length in Hp. rewrite Hp. simpl. by rewrite E, decide_True.
  - rewrite from_error in Hr; [done|]. scan_simpl. unfold scan_end. by rewrite (skip_spaces_head _ _ _ E).
Qed.

(** ** Nesting *)
Fixpoint height (j : json) : nat :=
  match j with
  | JArray l => S (list_max (List.map height l))
  | JObject l => S (list_max (List.map (λ '(_, v), height v) l))
  | _ => 0
  end.

(** A value that can be printed somewhere can be printed wherever there is room
    for its nesting. *)
Lemma json_ok_room d d' j : json_ok d j → (d' + height j ≤ maxNestingDepth)%nat → json_ok d' j.
Proof.
  revert d d'. induction j as [| | | |l IH|l IH] using json_induction; intros d d' Hj Hh; try done.
  - apply json_ok_array in Hj as [_ Hl]. apply json_ok_array. simpl in Hh. split; [lia|].
    apply Forall_forall. intros x Hx. rewrite Forall_forall in IH, Hl. apply (IH x Hx (S d)); [by apply Hl|].
    assert (height x ≤ list_max (List.map height l))%nat; [|lia]. pose proof (list_max_le (List.map height l) (list_max (List.map height l))) as [Hm _].
    specialize (Hm (le_n _)). rewrite List.Forall_forall in Hm. apply Hm, in_map. by apply list_elem_of_In.
  - apply json_ok_object in Hj as [_ Hl]. apply json_ok_object. simpl in Hh. split; [lia|].
    apply Forall_forall. intros [k v] Hx. rewrite Forall_forall in IH, Hl. destruct (Hl _ Hx) as [Hk Hv]. split; [done|].
    apply (IH _ Hx (S d)); [done|]. simpl.
    assert (height v ≤ list_max (List.map (λ '(_, v), height v) l))%nat; [|lia].
    pose proof (list_max_le (List.map (λ '(_, v), height v) l) (list_max (List.map (λ '(_, v), height v) l))) as [Hm _].
    specialize (Hm (le_n _)). rewrite List.Forall_forall in Hm. apply Hm, in_map_iff. exists (k, v). split; [done|]. by apply list_elem_of_In.
Qed.

Lemma height_escape j : height (escape j) = height j.
Proof.
  induction j as [| | | |l IH|l IH] using json_induction; try done; simpl; do 2 f_equal; rewrite map_map.
  - induction IH as [|x l Hx Hl IHl]; [done|]. simpl. by rewrite Hx, IHl.
  - induction IH as [|[k v] l Hx Hl IHl]; [done|]. simpl in *. by rewrite Hx, IHl.
Qed.
