(* ===== verification/HttpClient.v ===== *)
(** * internal/crypto/httpclient/client.go: the key-unwrapping client

    Client configuration, authentication headers, the binary V2 envelope, the
    JSON of the requests and of the replies, and the two transports.  The remote
    service is a parameter [service] of the section: what the HTTP exchange
    returns for a request. *)

From S2P Require Import Prelude GoStrings Base64 Aes Crypto Json JsonParse JsonDecode.

Local Open Scope Z_scope.

(** ** Configuration *)
Record ClientConfig := mkClientConfig {
  BaseURL : gostring;
  UnwrapPath : gostring;
  HealthPath : gostring;
  ConnectTimeout : Z;            (* nanoseconds *)
  RequestTimeout : Z;
  MaxIdleConns : Z;
  MaxIdleConnsPerHost : Z;
  IdleConnTimeout : Z;
  AuthMode : gostring;
  BearerToken : gostring;
  BasicUsername : gostring;
  BasicPassword : gostring;
  TLSEnabled : bool;
  BinaryMode : bool;
}.

Inductive Dial := DialTCP | DialUnix (socketPath : gostring).

Record HttpClient := mkHttpClient {
  hc_cfg : ClientConfig;
  hc_dial : Dial;
  hc_http2 : bool;
  hc_tls : bool;
  unwrapURL : gostring;
  healthURL : gostring;
}.

Inductive ClientErr := ErrMissingBaseURL | ErrMissingSocketPath | ErrTLSConfig.

Definition second : Z := 1000000000.
Definition or_default (v d : Z) : Z := if decide (v ≤ 0) then d else v.
Definition or_default_str (v d : gostring) : gostring := if decide (v = []) then d else v.

Definition unixSchemePrefix : gostring := str "unix://".
Definition unixLocalHost : gostring := str "http://localhost".

(** [tls_ok]: outcome of building the TLS configuration from its files. *)
Definition NewClient (tls_ok : bool) (cfg : ClientConfig) : result ClientErr HttpClient :=
  if decide (BaseURL cfg = []) then Err ErrMissingBaseURL
  else
    let cut := CutPrefix (BaseURL cfg) unixSchemePrefix in
    if decide (cut = Some []) then Err ErrMissingSocketPath
    else
      let isUnix := bool_decide (is_Some cut) in
      let base := if isUnix then unixLocalHost else BaseURL cfg in
      let tls := if isUnix then false else TLSEnabled cfg in
      let cfg' := mkClientConfig base
        (or_default_str (UnwrapPath cfg) (str "/unwrap-key")) (or_default_str (HealthPath cfg) (str "/health"))
        (or_default (ConnectTimeout cfg) (1 * second)) (or_default (RequestTimeout cfg) (3 * second))
        (or_default (MaxIdleConns cfg) 256) (or_default (MaxIdleConnsPerHost cfg) 256)
        (or_default (IdleConnTimeout cfg) (90 * second)) (AuthMode cfg) (BearerToken cfg)
        (BasicUsername cfg) (BasicPassword cfg) tls (BinaryMode cfg) in
      if tls && negb tls_ok then Err ErrTLSConfig
      else
        let b := TrimRight base (str "/") in
        Ok (mkHttpClient cfg'
              (match cut with Some path => DialUnix path | None => DialTCP end) (negb isUnix) tls
              (b ++ str "/" ++ TrimLeft (UnwrapPath cfg') (str "/"))
              (b ++ str "/" ++ TrimLeft (HealthPath cfg') (str "/"))).

(** ** Requests *)
Inductive HttpMethod := MethodGet | MethodPost.

Record HttpRequest := mkRequest {
  req_method : HttpMethod;
  req_url : gostring;
  req_contentType : gostring;
  req_accept : gostring;
  req_authorization : gostring;   (* empty: header absent *)
  req_body : gostring;
}.

Record HttpResponse := mkResponse {
  StatusCode : Z;
  Body : gostring;
  BodyReadFails : bool;           (* reading the body ends in an error *)
}.

Definition contentTypeJSON : gostring := str "application/json; charset=utf-8".
Definition contentTypeBinary : gostring := str "application/octet-stream".

Definition applyAuth (c : HttpClient) : gostring :=
  let cfg := hc_cfg c in
  let mode := ToLower (AuthMode cfg) in
  if decide (mode = str "bearer") then
    if decide (BearerToken cfg = []) then [] else str "Bearer " ++ BearerToken cfg
  else if decide (mode = str "basic") then
    if decide (BasicUsername cfg = [] ∧ BasicPassword cfg = []) then []
    else str "Basic " ++ EncodeToString (BasicUsername cfg ++ str ":" ++ BasicPassword cfg)
  else [].

(** ** The binary envelope *)
Definition gcmNonceSize : Z := 12.
Definition dekSize : Z := 32.
Definition MaxUint16 : Z := 65535.

(** [binary.BigEndian.AppendUint16] *)
Definition AppendUint16 (buf : gostring) (v : Z) : gostring :=
  buf ++ [byte_of (Z.shiftr v 8); byte_of v].

Definition encodeBinaryEnvelope (envelope : WrappedKeyEnvelope) : result CryptoErr gostring :=
  match DecodeString (EncapsulatedKey envelope) with
  | None => Err ErrInvalidEnvelope
  | Some encapKey =>
      match DecodeString (EnvNonce envelope) with
      | None => Err ErrInvalidEnvelope
      | Some nonce =>
          match DecodeString (WrappedKey envelope) with
          | None => Err ErrInvalidEnvelope
          | Some wrappedKey =>
              if decide (Z.of_nat (length nonce) ≠ gcmNonceSize) then Err ErrInvalidEnvelope
              else if decide (Z.of_nat (length encapKey) > MaxUint16) then Err ErrInvalidEnvelope
              else
                let buf := str "PQ" ++ [byte_of 2] in
                let buf := AppendUint16 buf (SuiteID envelope) in
                let buf := AppendUint16 buf (Z.of_nat (length encapKey) mod 2 ^ 16) in
                Ok (buf ++ encapKey ++ nonce ++ wrappedKey)
          end
      end
  end.

(** Reader of the documented V2 layout, as the receiving gateway applies it:
    ['P' 'Q' 0x02 | suite | len | encapKey | nonce[12] | wrappedKey]. *)
Definition uint16_of (a b : ascii) : Z := byte_val a * 256 + byte_val b.

Definition parse_v2 (s : gostring) : option (Z * gostring * gostring * gostring) :=
  match s with
  | p :: q :: v :: s1 :: s0 :: l1 :: l0 :: rest =>
      if decide (p = "P"%char ∧ q = "Q"%char ∧ v = byte_of 2) then
        let n := Z.to_nat (uint16_of l1 l0) in
        if decide (n + 12 ≤ length rest)%nat then
          Some (uint16_of s1 s0, take n rest, take 12 (drop n rest), drop 12 (drop n rest))
        else None
      else None
  | _ => None
  end.

Lemma uint16_append v : 0 ≤ v < 2 ^ 16 → uint16_of (byte_of (Z.shiftr v 8)) (byte_of v) = v.
Proof.
  intros Hv. unfold uint16_of. rewrite !byte_val_of, Z.shiftr_div_pow2 by lia.
  Z.to_euclidean_division_equations. lia.
Qed.

(** The binary envelope is read back by the V2 layout as the suite
    identifier, the encapsulated key, the twelve-byte nonce and the wrapped
    key that the event carried in base64; encoding fails exactly when one of
    them is not base64, the nonce has another size or the encapsulated key
    does not fit the 16-bit length field. *)
Theorem envelope_roundtrip env :
  0 ≤ SuiteID env < 2 ^ 16 →
  match encodeBinaryEnvelope env with
  | Ok buf => ∃ k n w, parse_v2 buf = Some (SuiteID env, k, n, w)
      ∧ DecodeString (EncapsulatedKey env) = Some k ∧ DecodeString (EnvNonce env) = Some n
      ∧ DecodeString (WrappedKey env) = Some w
  | Err e => e = ErrInvalidEnvelope ∧
      (DecodeString (EncapsulatedKey env) = None ∨ DecodeString (EnvNonce env) = None
       ∨ DecodeString (WrappedKey env) = None
       ∨ (∃ n, DecodeString (EnvNonce env) = Some n ∧ length n ≠ 12%nat)
       ∨ (∃ k, DecodeString (EncapsulatedKey env) = Some k ∧ Z.of_nat (length k) > 65535))
  end.
Proof.
  intros Hs. unfold encodeBinaryEnvelope, gcmNonceSize, MaxUint16.
  destruct (DecodeString (EncapsulatedKey env)) as [k|]; [|tauto].
  destruct (DecodeString (EnvNonce env)) as [n|]; [|tauto].
  destruct (DecodeString (WrappedKey env)) as [w|]; [|tauto].
  case_decide as Hn; [split; [done|]; right; right; right; left; exists n; split; [done|lia]|].
  case_decide as Hk; [split; [done|]; do 4 right; by exists k|].
  exists k, n, w. split; [|done]. assert (length n = 12%nat) as Hn' by lia.
  rewrite (Z.mod_small (Z.of_nat (length k))) by lia. unfold AppendUint16. rewrite <- !(assoc_L (++)).
  cbn [app str String.list_ascii_of_string parse_v2].
  rewrite decide_True by done. rewrite !uint16_append by lia. rewrite Nat2Z.id.
  rewrite decide_True by (rewrite !length_app; lia).
  rewrite take_app_length, drop_app_length. by rewrite <- Hn', take_app_length, drop_app_length.
Qed.

Definition demo_envelope : WrappedKeyEnvelope :=
  mkEnvelope [] [] 513 (EncodeToString (str "kem")) (EncodeToString case16_nonce) (EncodeToString (str "wrapped")).

Lemma envelope_roundtrip_witness :
  match encodeBinaryEnvelope demo_envelope with
  | Ok buf => ∃ k n w, parse_v2 buf = Some (513, k, n, w)
  | Err _ => False
  end.
Proof.
  assert (is_ok (encodeBinaryEnvelope demo_envelope) = true) as Hok by (vm_compute; reflexivity).
  pose proof (envelope_roundtrip demo_envelope) as H.
  destruct (encodeBinaryEnvelope demo_envelope); [|discriminate Hok].
  destruct H as (k & n & w & H & _); [vm_compute; split; [discriminate|reflexivity]|]. exists k, n, w. exact H.
Defined.

(** ** Unwrapping *)

(** [unwrapResponse], the JSON reply of the service. *)
Record unwrapResponse := mkUnwrapResponse {
  PlaintextKey : gostring;
  KeyLength : Z;
  RespError : gostring;
  Details : gostring;
}.

Definition set_response_text (n : nat) (v : gostring) (r : unwrapResponse) : unwrapResponse :=
  let pick i old := if decide (i = n) then v else old in
  mkUnwrapResponse (pick 0%nat (PlaintextKey r)) (KeyLength r) (pick 1%nat (RespError r)) (pick 2%nat (Details r)).
Definition set_key_length (z : Z) (r : unwrapResponse) : unwrapResponse :=
  mkUnwrapResponse (PlaintextKey r) z (RespError r) (Details r).

Definition response_text (k : string) (n : nat) : field unwrapResponse := mkField (str k) (store_string (set_response_text n)).
Definition response_fields : list (field unwrapResponse) :=
  [response_text "plaintext_key" 0; mkField (str "key_length") (store_int64 set_key_length); response_text "error" 1;
   response_text "details" 2].

(** [json.NewDecoder(resp.Body).Decode(&unwrapResp)] *)
Definition decode_response (resp : HttpResponse) : option unwrapResponse :=
  match Decode response_fields (Body resp) (BodyReadFails resp) (mkUnwrapResponse [] 0 [] []) with
  | (r, true) => Some r
  | (_, false) => None
  end.

(** [json.Marshal(unwrapRequest{...})] *)
Definition request_json (envelope : WrappedKeyEnvelope) : json :=
  JObject (omit_text "algorithm" (Algorithm envelope) ++ omit_text "version" (EnvVersion envelope)
    ++ omit_int "suite_id" (SuiteID envelope) ++ text_member "encapsulated_key" (EncapsulatedKey envelope)
    ++ text_member "nonce" (EnvNonce envelope) ++ text_member "wrapped_key" (WrappedKey envelope)).
Definition marshal_request (envelope : WrappedKeyEnvelope) : gostring := print (request_json envelope).

Section unwrap.
(** The remote service: the reply to a request, or a transport error. *)
Context (service : HttpRequest → option HttpResponse).
(** Whether [http.NewRequestWithContext] accepts the URL. *)
Context (url_ok : gostring → bool).

(** [io.ReadAll(io.LimitReader(resp.Body, n))]: the bytes read, and whether
    an error ended the read before the limit. *)
Definition read_limited (n : Z) (resp : HttpResponse) : gostring * bool :=
  (take (Z.to_nat n) (Body resp),
   bool_decide (Z.of_nat (length (Body resp)) < n) && BodyReadFails resp).

Definition unwrapBinary (c : HttpClient) (envelope : WrappedKeyEnvelope) : M Mem (result CryptoErr positive) :=
  match encodeBinaryEnvelope envelope with
  | Err e => mret (Err e)
  | Ok body =>
      if negb (url_ok (unwrapURL c)) then mret (Err ErrUnwrapRequest)
      else match service (mkRequest MethodPost (unwrapURL c) contentTypeBinary contentTypeBinary (applyAuth c) body) with
      | None => mret (Err ErrCryptoServiceUnavailable)
      | Some resp =>
          if decide (StatusCode resp ≠ 200) then mret (Err ErrUnwrapFailed)
          else
            let '(b, readFailed) := read_limited (dekSize + 1) resp in
            rawDEK ← alloc b;
            if readFailed : bool then mret (Err ErrUnwrapFailed)
            else if decide (Z.of_nat (length b) ≠ dekSize) then
              Zeroize rawDEK ;; mret (Err ErrUnwrapFailed)
            else mret (Ok rawDEK)
      end
  end.

Definition unwrapJSON (c : HttpClient) (envelope : WrappedKeyEnvelope) : M Mem (result CryptoErr positive) :=
  if negb (url_ok (unwrapURL c)) then mret (Err ErrUnwrapRequest)
  else match service (mkRequest MethodPost (unwrapURL c) contentTypeJSON (str "application/json") (applyAuth c)
                        (marshal_request envelope)) with
  | None => mret (Err ErrCryptoServiceUnavailable)
  | Some resp =>
      if decide (StatusCode resp ≠ 200) then mret (Err ErrUnwrapFailed)
      else match decode_response resp with
      | None => mret (Err ErrUnwrapResponse)
      | Some r =>
          if decide (RespError r ≠ []) then mret (Err ErrUnwrapFailed)
          else if decide (PlaintextKey r = []) then mret (Err ErrUnwrapFailed)
          else match DecodeString (PlaintextKey r) with
          | None => mret (Err ErrUnwrapResponse)
          | Some b =>
              rawDEK ← alloc b;
              if decide (Z.of_nat (length b) ≠ dekSize) then
                Zeroize rawDEK ;; mret (Err ErrUnwrapFailed)
              else mret (Ok rawDEK)
          end
      end
  end.

Definition Unwrap (c : HttpClient) (envelope : WrappedKeyEnvelope) : M Mem (result CryptoErr positive) :=
  if decide (EncapsulatedKey envelope = [] ∨ WrappedKey envelope = []) then mret (Err ErrInvalidEnvelope)
  else if BinaryMode (hc_cfg c) then unwrapBinary c envelope
  else unwrapJSON c envelope.

Definition Health (c : HttpClient) : result CryptoErr () :=
  if negb (url_ok (healthURL c)) then Err ErrUnwrapRequest
  else match service (mkRequest MethodGet (healthURL c) [] [] (applyAuth c) []) with
  | None => Err ErrCryptoServiceUnavailable
  | Some resp => if decide (StatusCode resp ≠ 200) then Err ErrCryptoServiceUnavailable else Ok ()
  end.

Definition client_Check (c : HttpClient) : result CryptoErr () := Health c.
Definition client_Name : gostring := str "crypto_service".

(** A key buffer that is kept when it has 32 bytes and erased otherwise. *)
Definition keep_post (m : Mem) (r : result CryptoErr positive) (m' : Mem) : Prop :=
  mem_wf m' ∧ bufs m ⊆ bufs m'
  ∧ match r with
    | Ok p => bufs m !! p = None ∧ ∃ key, bufs m' = <[p := key]> (bufs m) ∧ length key = 32%nat
    | Err _ => ∀ p b, bufs m' !! p = Some b → bufs m !! p = None → b = zeros (length b)
    end.

Lemma keep_post_err m e : mem_wf m → keep_post m (Err e) m.
Proof. intros Hm. split; [done|]. split; [done|]. congruence. Qed.

Lemma keep_dek_spec b m :
  mem_wf m →
  wp (if decide (Z.of_nat (length b) ≠ dekSize) then
        Zeroize (nextBuf m) ;; mret (Err ErrUnwrapFailed)
      else mret (Ok (nextBuf m))) (keep_post m)
     (mkMem (<[nextBuf m := b]> (bufs m)) (Pos.succ (nextBuf m))).
Proof.
  intros Hm. pose proof (fresh_buf m Hm) as Hf. case_decide as Hl.
  - wp_step. eapply wp_of_run; [apply Zeroize_spec; simpl; apply lookup_insert_eq|]. apply wp_ret.
    simpl. rewrite insert_insert_eq. split; [by apply alloc_wf|]. split; [by apply insert_subseteq|].
    intros p b'. destruct (decide (p = nextBuf m)) as [->|]; [|simpl; rewrite lookup_insert_ne by done; congruence].
    simpl. rewrite lookup_insert_eq. intros [= <-] _. unfold zeros. by rewrite length_replicate.
  - apply wp_ret. split; [by apply alloc_wf|]. split; [by apply insert_subseteq|].
    split; [done|]. exists b. split; [done|]. unfold dekSize in Hl. lia.
Qed.

(** Both transports meet the promise of [crypto.KeyUnwrapper]. *)
Lemma Unwrap_promise c env m : mem_wf m → wp (Unwrap c env) (unwrap_post m) m.
Proof.
  intros Hm. unfold Unwrap, unwrapBinary, unwrapJSON, read_limited.
  assert (∀ r m', keep_post m r m' → unwrap_post m r m') as Hkeep.
  { intros r m' (H1 & H2 & H3). split; [done|]. split; [done|]. destruct r; naive_solver. }
  repeat (first [eapply wp_mono; [by apply keep_dek_spec|by apply Hkeep]
                | apply wp_ret; by apply unwrap_post_err
                | apply wp_bind, alloc_spec | case_match]).
  apply wp_ret. split; [by apply alloc_wf|]. split; [|done].
  by apply insert_subseteq, fresh_buf.
Qed.

Definition http_unwrapper (c : HttpClient) : KeyUnwrapper :=
  {| unwrap_dek := Unwrap c; unwrap_dek_promise := Unwrap_promise c |}.

(** C35: in binary mode, whatever the service replies, [Unwrap] returns a
    fresh buffer of exactly 32 bytes or an error; existing buffers are
    untouched, and unless the connection breaks while the key is being read,
    every buffer a failed call had allocated is erased. *)
Theorem unwrap_key_hygiene c env m :
  mem_wf m → BinaryMode (hc_cfg c) = true →
  (∀ req resp, service req = Some resp → BodyReadFails resp = false) →
  ∃ r m', Unwrap c env m = Some (r, m') ∧ bufs m ⊆ bufs m'
    ∧ match r with
      | Ok p => bufs m !! p = None ∧ ∃ key, bufs m' !! p = Some key ∧ length key = 32%nat
      | Err _ => ∀ p b, bufs m' !! p = Some b → bufs m !! p = None → b = zeros (length b)
      end.
Proof.
  intros Hm Hbin Hread.
  assert (wp (Unwrap c env) (keep_post m) m) as Hwp.
  { unfold Unwrap, unwrapBinary, read_limited. rewrite Hbin.
    repeat (first [by apply keep_dek_spec | apply wp_ret; by apply keep_post_err
                  | apply wp_bind, alloc_spec | case_match]).
    exfalso. rewrite (Hread _ _ H2), andb_false_r in *. done. }
  destruct (wp_run _ _ _ Hwp) as (r & m' & E & _ & Hsub & Hr).
  exists r, m'. split; [done|]. split; [done|]. destruct r as [p|e]; [|done].
  destruct Hr as (Hn & key & -> & Hl). split; [done|]. exists key. by rewrite lookup_insert_eq.
Qed.
(** ** The JSON transport *)

(** The request as its receiver reads it. *)
Definition set_envelope_text (n : nat) (v : gostring) (e : WrappedKeyEnvelope) : WrappedKeyEnvelope :=
  let pick i old := if decide (i = n) then v else old in
  mkEnvelope (pick 0%nat (Algorithm e)) (pick 1%nat (EnvVersion e)) (SuiteID e) (pick 2%nat (EncapsulatedKey e))
    (pick 3%nat (EnvNonce e)) (pick 4%nat (WrappedKey e)).
Definition set_envelope_suite (z : Z) (e : WrappedKeyEnvelope) : WrappedKeyEnvelope :=
  mkEnvelope (Algorithm e) (EnvVersion e) z (EncapsulatedKey e) (EnvNonce e) (WrappedKey e).
Definition request_text (k : string) (n : nat) : field WrappedKeyEnvelope := mkField (str k) (store_string (set_envelope_text n)).
Definition request_fields : list (field WrappedKeyEnvelope) :=
  [request_text "algorithm" 0; request_text "version" 1; mkField (str "suite_id") (store_uint16 set_envelope_suite);
   request_text "encapsulated_key" 2; request_text "nonce" 3; request_text "wrapped_key" 4].

Record envelope_typed (e : WrappedKeyEnvelope) : Prop := {
  ev_texts : Forall (λ s, ValidString s = true) [Algorithm e; EnvVersion e; EncapsulatedKey e; EnvNonce e; WrappedKey e];
  ev_suite : 0 ≤ SuiteID e < 2 ^ 16;
}.

Lemma request_read_back env :
  envelope_typed env → Unmarshal request_fields (marshal_request env) (mkEnvelope [] [] 0 [] [] []) = (env, true).
Proof.
  intros [Ht Hs]. repeat apply Forall_cons in Ht as [? Ht]. unfold Unmarshal, marshal_request.
  rewrite parse_print by (apply object_ok; [by_decide|solve_members]). unfold request_json. cbn [store_struct].
  do 2 (erewrite (store_omit_text request_fields) by done).
  erewrite (store_omit_int request_fields); [|done|apply ParseUint_FormatInt; lia|lia|done].
  do 2 (erewrite (store_text request_fields) by done).
  rewrite <- (app_nil_r (text_member _ (WrappedKey env))). erewrite (store_text request_fields) by done. by destruct env.
Qed.

(** A reply that carries a key. *)
Definition key_members (key : gostring) : list (gostring * json) :=
  text_member "plaintext_key" (EncodeToString key) ++ int_member "key_length" (Z.of_nat (length key)).
Definition key_reply (key : gostring) : gostring := print (JObject (key_members key)).

Lemma decode_key_reply key rest broken :
  Z.of_nat (length key) < 2 ^ 63 →
  decode_response (mkResponse 200 (key_reply key ++ rest) broken)
  = Some (mkUnwrapResponse (EncodeToString key) (Z.of_nat (length key)) [] []).
Proof.
  intros Hl. unfold decode_response, Decode, key_reply. cbn [Body BodyReadFails].
  rewrite first_value_object by (apply object_ok; [by_decide|unfold key_members; solve_members]).
  rewrite andb_false_r. cbn [andb store_struct]. unfold key_members.
  erewrite (store_text response_fields); [|done|apply EncodeToString_valid]. unfold int_member.
  erewrite store_decoded; [|reflexivity|cbn [fstore]; unfold store_int64, store_number; rewrite ParseInt_FormatInt by lia;
    rewrite decide_True by lia; reflexivity]. done.
Qed.

End unwrap.

(** A binary-mode client and a service that returns a key of 31 bytes. *)
Definition demo_http : HttpClient :=
  mkHttpClient (mkClientConfig (str "http://c") (str "/unwrap-key") (str "/health") 1 1 1 1 1 [] [] [] [] false true)
    DialTCP true false (str "http://c/unwrap-key") (str "http://c/health").
Definition short_service (broken : bool) (_ : HttpRequest) : option HttpResponse :=
  Some (mkResponse 200 (replicate 31 "k"%char) broken).

Lemma unwrap_key_hygiene_witness :
  ∃ r m', Unwrap (short_service false) (λ _, true) demo_http demo_envelope (mkMem ∅ 1) = Some (r, m')
    ∧ bufs (mkMem ∅ 1) ⊆ bufs m'.
Proof.
  destruct (unwrap_key_hygiene (short_service false) (λ _, true) demo_http demo_envelope (mkMem ∅ 1))
    as (r & m' & E & H & _).
  - intros p [b Hb]. discriminate Hb.
  - reflexivity.
  - intros req resp [= <-]. reflexivity.
  - exists r, m'. split; [exact E|exact H].
Defined.

(** When the connection breaks in the middle of the key, the bytes already
    read stay in memory: this error path does not erase its buffer. *)
Theorem broken_read_leaves_key_bytes :
  ∃ m', Unwrap (short_service true) (λ _, true) demo_http demo_envelope (mkMem ∅ 1)
          = Some (Err ErrUnwrapFailed, m')
    ∧ bufs m' !! 1%positive = Some (replicate 31 "k"%char).
Proof. eexists. split; vm_compute; reflexivity. Qed.

(** A JSON-mode client and a service that always returns the same key. *)
Definition demo_json_http : HttpClient :=
  mkHttpClient (mkClientConfig (str "http://c") (str "/unwrap-key") (str "/health") 1 1 1 1 1 [] [] [] [] false false)
    DialTCP true false (str "http://c/unwrap-key") (str "http://c/health").
Definition json_service (_ : HttpRequest) : option HttpResponse :=
  Some (mkResponse 200 (key_reply (replicate 32 "k"%char) ++ [LF]) false).

