(* ===== verification/Bus.v ===== *)
(** * internal/bus: events and the in-memory bus

    bus.go (the event format, the schema check, the key envelope) and
    memory/memory.go (subscriber channels guarded by one lock: every method is
    one atomic step). *)

From S2P Require Import Prelude GoStrings Chan Crypto Json.

(** ** bus.go *)
Definition SupportedEventSchema : gostring := str "realtime-event-v1".

Record EncryptedPayload := mkEncryptedPayload {
  ep_Algorithm : gostring;
  ep_Version : gostring;
  ep_SuiteID : Z;
  ep_EncapsulatedKey : gostring;
  ep_WrappedKey : gostring;
  ep_Nonce : gostring;
  ep_PayloadNonce : gostring;
  ep_Ciphertext : gostring;
}.

Record EncryptedEvent := mkEncryptedEvent {
  ee_Schema : gostring;
  ee_EventID : gostring;
  ee_TenantID : gostring;
  ee_AppID : gostring;
  ee_TopicID : gostring;
  ee_Type : gostring;
  ee_EntityID : gostring;
  ee_Version : Z;                (* int64 *)
  ee_OriginUserID : gostring;
  ee_UserID : gostring;
  ee_CreatedAt : Time;
  ee_Crypto : EncryptedPayload;
  ee_RawChannel : gostring;
  ee_RoutingKey : gostring;
}.

Definition IsSchemaSupported (e : EncryptedEvent) : bool :=
  bool_decide (ee_Schema e = []) || bool_decide (ee_Schema e = SupportedEventSchema).

Definition ToEnvelope (e : EncryptedEvent) : WrappedKeyEnvelope :=
  let c := ee_Crypto e in
  mkEnvelope (ep_Algorithm c) (ep_Version c) (ep_SuiteID c) (ep_EncapsulatedKey c) (ep_Nonce c) (ep_WrappedKey c).

(** ** memory/memory.go

    Channels are shared with the readers, so they live in a store indexed by
    identity; [subscribers] lists the identities the bus still feeds. *)
Record MemBus := mkMemBus {
  chans : gmap positive (chan EncryptedEvent);
  nextChan : positive;
  subscribers : list positive;
  mb_closed : bool;
  bufferSize : Z;
}.

Inductive BusErr := ErrBusClosed | ErrBusUnavailable.

Definition NewBus (bufferSize : Z) : MemBus :=
  mkMemBus ∅ 1 [] false (if decide (bufferSize ≤ 0)%Z then 1024%Z else bufferSize).

Definition Subscribe : M MemBus (result BusErr positive) := λ b,
  if mb_closed b then Some (Err ErrBusClosed, b)
  else
    let ch := nextChan b in
    Some (Ok ch, mkMemBus (<[ch := make_chan (Z.to_nat (bufferSize b))]> (chans b)) (Pos.succ ch)
                   (subscribers b ++ [ch]) false (bufferSize b)).

(** Closing one channel; a missing channel cannot happen, a closed one panics. *)
Definition close_one (ch : positive) : M MemBus () := λ b,
  match chans b !! ch with
  | None => None
  | Some c =>
      match close_chan c with
      | None => None
      | Some c' => Some ((), mkMemBus (<[ch := c']> (chans b)) (nextChan b) (subscribers b) (mb_closed b) (bufferSize b))
      end
  end.

(** The goroutine of [Subscribe] once its context is done: remove the first
    occurrence of the channel and close it; nothing if it is gone. *)
Fixpoint remove_first (ch : positive) (l : list positive) : option (list positive) :=
  match l with
  | [] => None
  | x :: l' => if decide (x = ch) then Some l' else (x ::.) <$> remove_first ch l'
  end.

Definition context_done (ch : positive) : M MemBus () :=
  subs ← gets subscribers;
  match remove_first ch subs with
  | None => mret ()
  | Some subs' =>
      modify (λ b, mkMemBus (chans b) (nextChan b) subs' (mb_closed b) (bufferSize b)) ;;
      close_one ch
  end.

(** [select { case sub <- event: default: }] *)
Definition send_one (ev : EncryptedEvent) (ch : positive) : M MemBus () := λ b,
  match chans b !! ch with
  | None => None
  | Some c =>
      match try_send ev c with
      | None => None
      | Some (_, c') => Some ((), mkMemBus (<[ch := c']> (chans b)) (nextChan b) (subscribers b) (mb_closed b) (bufferSize b))
      end
  end.

Definition Publish (event : EncryptedEvent) : M MemBus () :=
  isClosed ← gets mb_closed;
  if isClosed : bool then mret ()
  else subs ← gets subscribers; for_range subs (send_one event).

Definition Health (b : MemBus) : result BusErr () := if mb_closed b then Err ErrBusClosed else Ok ().

Definition mem_Check (b : MemBus) : result BusErr () := Health b.
Definition mem_Name : gostring := str "memory_event_bus".

Definition Close : M MemBus () :=
  isClosed ← gets mb_closed;
  if isClosed : bool then mret ()
  else
    modify (λ b, mkMemBus (chans b) (nextChan b) (subscribers b) true (bufferSize b)) ;;
    subs ← gets subscribers;
    for_range subs close_one ;;
    modify (λ b, mkMemBus (chans b) (nextChan b) [] (mb_closed b) (bufferSize b)).

(** A subscriber takes the next event. *)
Definition receive (ch : positive) : M MemBus (option EncryptedEvent) := λ b,
  match chans b !! ch with
  | None => None
  | Some c =>
      match recv c with
      | Received ev c' =>
          Some (Some ev, mkMemBus (<[ch := c']> (chans b)) (nextChan b) (subscribers b) (mb_closed b) (bufferSize b))
      | _ => Some (None, b)
      end
  end.

(** ** Invariant: the listed channels are exactly the open ones *)
Record bus_inv (b : MemBus) : Prop := {
  bi_nodup : NoDup (subscribers b);
  bi_open : ∀ ch c, chans b !! ch = Some c → (ch ∈ subscribers b ↔ is_closed c = false);
  bi_known : ∀ ch, ch ∈ subscribers b → is_Some (chans b !! ch);
  bi_fresh : ∀ ch, is_Some (chans b !! ch) → (ch < nextChan b)%positive;
  bi_closed : mb_closed b = true → subscribers b = [];
  bi_bound : ∀ ch c, chans b !! ch = Some c → chan_wf c;
}.

Lemma NewBus_inv n : bus_inv (NewBus n).
Proof.
  split; simpl; try done; try (intros ? [? ?]; done); [constructor|].
  intros ch. by rewrite elem_of_nil.
Qed.

(** An update of one channel that keeps its open flag keeps the invariant. *)
Lemma bus_inv_update b ch c c' :
  bus_inv b → chans b !! ch = Some c → is_closed c' = is_closed c → chan_wf c' →
  bus_inv (mkMemBus (<[ch := c']> (chans b)) (nextChan b) (subscribers b) (mb_closed b) (bufferSize b)).
Proof.
  intros [I1 I2 I3 I4 I5 I6] Hc Hcl Hwf. split; simpl; try done.
  - intros ch0 c0. destruct (decide (ch0 = ch)) as [->|].
    + rewrite lookup_insert_eq. intros [= <-]. rewrite Hcl. by apply I2.
    + rewrite lookup_insert_ne by done. apply I2.
  - intros ch0 H0. destruct (decide (ch0 = ch)) as [->|]; [rewrite lookup_insert_eq; eauto|].
    rewrite lookup_insert_ne by done. by apply I3.
  - intros ch0. destruct (decide (ch0 = ch)) as [->|]; [intros _; eauto|].
    rewrite lookup_insert_ne by done. apply I4.
  - intros ch0 c0. destruct (decide (ch0 = ch)) as [->|].
    + rewrite lookup_insert_eq. by intros [= <-].
    + rewrite lookup_insert_ne by done. apply I6.
Qed.

Lemma Subscribe_inv b : bus_inv b → wp Subscribe (λ _ b', bus_inv b') b.
Proof.
  intros Hi. pose proof Hi as [I1 I2 I3 I4 I5 I6]. unfold wp, Subscribe.
  destruct (mb_closed b) eqn:E; [done|].
  assert (chans b !! nextChan b = None) as Hn.
  { apply eq_None_not_Some. intros ?%I4. lia. }
  assert (nextChan b ∉ subscribers b) as Hns by (intros ?%I3%I4; lia).
  split; simpl; try done.
  - apply NoDup_app. split_and!; [done| |apply NoDup_singleton]. intros x Hx ->%list_elem_of_singleton. done.
  - intros ch c. rewrite elem_of_app, list_elem_of_singleton. destruct (decide (ch = nextChan b)) as [->|].
    + rewrite lookup_insert_eq. intros [= <-]. simpl. tauto.
    + rewrite lookup_insert_ne by done. intros Hc. rewrite <- (I2 _ _ Hc). tauto.
  - intros ch. rewrite elem_of_app, list_elem_of_singleton. destruct (decide (ch = nextChan b)) as [->|].
    + rewrite lookup_insert_eq. eauto.
    + rewrite lookup_insert_ne by done. intros [?| ->]; [by apply I3|done].
  - intros ch. destruct (decide (ch = nextChan b)) as [->|]; [intros _; lia|].
    rewrite lookup_insert_ne by done. intros ?%I4. lia.
  - intros ch c. destruct (decide (ch = nextChan b)) as [->|].
    + rewrite lookup_insert_eq. intros [= <-]. apply make_chan_wf.
    + rewrite lookup_insert_ne by done. apply I6.
Qed.

Lemma Publish_inv b ev : bus_inv b → wp (Publish ev) (λ _ b', bus_inv b') b.
Proof.
  intros Hi. unfold Publish. wp_step. wp_step. destruct (mb_closed b); [by apply wp_ret|].
  wp_step. wp_step.
  eapply (wp_for_range _ _ (λ _ b', bus_inv b' ∧ subscribers b' = subscribers b)); [done| |by intros ? []].
  intros dn ch rest b' Hl [Hi' Hs]. unfold wp, send_one.
  assert (ch ∈ subscribers b') as Hch by (rewrite Hs, Hl; set_solver).
  destruct (bi_known _ Hi' ch Hch) as [c Hc]. rewrite Hc.
  assert (is_closed c = false) as Hcl by by apply (bi_open _ Hi' ch c Hc).
  destruct (try_send ev c) as [[ok c']|] eqn:E; [|unfold try_send in E; rewrite Hcl in E; by case_decide].
  destruct (try_send_wf _ _ _ _ E (bi_bound _ Hi' _ _ Hc)) as (W1 & _ & W3).
  split; [by eapply bus_inv_update|done].
Qed.

Lemma remove_first_spec ch l l' :
  remove_first ch l = Some l' → NoDup l → ch ∈ l ∧ NoDup l' ∧ ∀ x, x ∈ l' ↔ x ∈ l ∧ x ≠ ch.
Proof.
  revert l'. induction l as [|y l IH]; intros l'; simpl; [done|]. case_decide as E.
  - intros [= ->] [Hy Hnd]%NoDup_cons. subst y. split_and!; [left|done|]. intros x. set_solver.
  - destruct (remove_first ch l) as [l0|] eqn:E0; simpl; [|done]. intros [= <-] [Hy Hnd]%NoDup_cons.
    destruct (IH _ eq_refl Hnd) as (H1 & H2 & H3). split_and!; [by right| |].
    + apply NoDup_cons. split; [|done]. by rewrite H3; intros [].
    + intros x. rewrite !elem_of_cons, H3. naive_solver.
Qed.

Lemma context_done_inv b ch : bus_inv b → wp (context_done ch) (λ _ b', bus_inv b') b.
Proof.
  intros Hi. unfold context_done. wp_step. wp_step.
  destruct (remove_first ch (subscribers b)) as [l|] eqn:E; [|by apply wp_ret].
  destruct (remove_first_spec _ _ _ E (bi_nodup _ Hi)) as (H1 & H2 & H3).
  wp_step. wp_step. unfold wp, close_one. simpl.
  destruct (bi_known _ Hi ch H1) as [c Hc]. rewrite Hc. unfold close_chan.
  rewrite (proj1 (bi_open _ Hi ch c Hc) H1). destruct Hi as [I1 I2 I3 I4 I5 I6]. split; simpl; try done.
  - intros ch0 c0. rewrite H3. destruct (decide (ch0 = ch)) as [->|].
    + rewrite lookup_insert_eq. intros [= <-]. simpl. naive_solver.
    + rewrite lookup_insert_ne by done. intros Hc0. rewrite (I2 _ _ Hc0). naive_solver.
  - intros ch0 [H0 Hne]%H3. rewrite lookup_insert_ne by done. by apply I3.
  - intros ch0. destruct (decide (ch0 = ch)) as [->|]; [intros _; eauto|].
    rewrite lookup_insert_ne by done. apply I4.
  - intros Hcl. rewrite I5 in H1 by done. by apply elem_of_nil in H1.
  - intros ch0 c0. destruct (decide (ch0 = ch)) as [->|].
    + rewrite lookup_insert_eq. intros [= <-]. unfold chan_wf. simpl. by apply (I6 _ _ Hc).
    + rewrite lookup_insert_ne by done. apply I6.
Qed.

(** State of the closing loop: the channels [dn] are closed, the others as
    before. *)
Record closing (b : MemBus) (dn : list positive) (b' : MemBus) : Prop := {
  cl_subs : subscribers b' = subscribers b;
  cl_next : nextChan b' = nextChan b;
  cl_flag : mb_closed b' = true;
  cl_chan : ∀ ch, chans b' !! ch =
    (λ c, if decide (ch ∈ dn) then Chan (buf c) (cap c) true else c) <$> chans b !! ch;
}.

Lemma Close_inv b : bus_inv b → wp Close (λ _ b', bus_inv b' ∧ mb_closed b' = true) b.
Proof.
  intros Hi. unfold Close. wp_step. wp_step. destruct (mb_closed b) eqn:E; [by apply wp_ret|].
  wp_step. wp_step. wp_step. wp_step. simpl. wp_step.
  eapply (wp_for_range _ _ (closing b)).
  - split; try done. intros ch. simpl. destruct (chans b !! ch); [|done]. done.
  - intros dn ch rest b' Hl [C1 C2 C3 C4]. unfold wp, close_one.
    assert (ch ∈ subscribers b) as Hch by (rewrite Hl; set_solver).
    assert (ch ∉ dn) as Hdn.
    { pose proof (bi_nodup _ Hi) as Hnd. rewrite Hl in Hnd. apply NoDup_app in Hnd as (_ & Hnd & _).
      intros ?%Hnd. set_solver. }
    destruct (bi_known _ Hi ch Hch) as [c Hc]. rewrite C4, Hc. simpl. rewrite decide_False by done.
    unfold close_chan. rewrite (proj1 (bi_open _ Hi ch c Hc) Hch).
    split; simpl; try done. intros ch0. destruct (decide (ch0 = ch)) as [->|].
    + rewrite lookup_insert_eq, Hc. simpl. by rewrite decide_True by set_solver.
    + rewrite lookup_insert_ne by done. rewrite C4. destruct (chans b !! ch0); [|done]. simpl.
      f_equal. repeat case_decide; set_solver.
  - intros b' [C1 C2 C3 C4]. wp_step. destruct Hi as [I1 I2 I3 I4 I5 I6].
    split; [|done]. split; simpl; try done.
    + constructor.
    + intros ch c. rewrite elem_of_nil, C4. intros (c0 & Hc0 & ->)%fmap_Some.
      split; [done|]. case_decide as Hd; [done|]. intros Hcl. by apply (I2 _ _ Hc0) in Hcl.
    + intros ch. by rewrite elem_of_nil.
    + intros ch. rewrite C4, C2. rewrite fmap_is_Some. apply I4.
    + intros ch c. rewrite C4. intros (c0 & Hc0 & ->)%fmap_Some. apply I6 in Hc0. by case_decide.
Qed.

Lemma receive_inv b ch : bus_inv b → is_Some (chans b !! ch) → wp (receive ch) (λ _ b', bus_inv b') b.
Proof.
  intros Hi [c Hc]. unfold wp, receive. rewrite Hc. destruct (recv c) as [ev c'| |] eqn:E; try done.
  destruct (recv_wf _ _ _ E (bi_bound _ Hi _ _ Hc)) as (W1 & _ & W3). by eapply bus_inv_update.
Qed.

(** ** Runs *)
Inductive bus_op :=
| BSubscribe | BContextDone (ch : positive) | BPublish (ev : EncryptedEvent) | BReceive (ch : positive) | BClose.

Definition bus_exec (op : bus_op) : M MemBus () :=
  match op with
  | BSubscribe => Subscribe ;; mret ()
  | BContextDone ch => context_done ch
  | BPublish ev => Publish ev
  | BReceive ch => receive ch ;; mret ()
  | BClose => Close
  end.

Definition bus_callable (op : bus_op) (b : MemBus) : Prop :=
  match op with BReceive ch => is_Some (chans b !! ch) | _ => True end.

Inductive bus_step : MemBus → MemBus → Prop :=
| bus_call op b b' : bus_callable op b → bus_exec op b = Some ((), b') → bus_step b b'.

Lemma bus_exec_inv op b : bus_inv b → bus_callable op b → wp (bus_exec op) (λ _ b', bus_inv b') b.
Proof.
  intros Hi Hc. destruct op; simpl.
  - wp_step. eapply wp_mono; [by apply Subscribe_inv|]. intros. by apply wp_ret.
  - by apply context_done_inv.
  - by apply Publish_inv.
  - wp_step. eapply wp_mono; [by apply receive_inv|]. intros. by apply wp_ret.
  - eapply wp_mono; [by apply Close_inv|]. by intros ? ? [].
Qed.

Lemma bus_reach b b' : rtc bus_step b b' → bus_inv b → bus_inv b'.
Proof.
  induction 1 as [|b b1 b2 Hstep _ IH]; [done|]. intros Hi. apply IH.
  destruct Hstep as [op b b1 Hc E]. pose proof (bus_exec_inv op b Hi Hc) as H. unfold wp in H. by rewrite E in H.
Qed.

(** Whatever the order of subscriptions, cancellations, publications,
    receptions and closings, no call on the in-memory bus panics (no channel is
    closed twice, none is written after its close), and the channels the bus
    feeds are exactly the ones still open. *)
Theorem memory_bus_safe n b op :
  rtc bus_step (NewBus n) b → bus_callable op b →
  (∃ b', bus_exec op b = Some ((), b'))
  ∧ ∀ ch c, chans b !! ch = Some c → (ch ∈ subscribers b ↔ is_closed c = false).
Proof.
  intros Hrun Hc. pose proof (bus_reach _ _ Hrun (NewBus_inv n)) as Hi. split.
  - destruct (wp_run _ _ _ (bus_exec_inv op b Hi Hc)) as ([] & b' & E & _). eauto.
  - apply Hi.
Qed.

Definition demo_bus : MemBus :=
  mkMemBus {[1%positive := make_chan 8]} 2 [1%positive] false 8.

Lemma memory_bus_safe_witness :
  ∃ b', bus_exec BClose demo_bus = Some ((), b').
Proof.
  apply (memory_bus_safe 8 demo_bus BClose); [|exact I].
  apply rtc_once. apply (bus_call BSubscribe); [exact I|vm_compute; reflexivity].
Defined.
