(* ===== verification/EventJson.v ===== *)
(** * The wire format of events

    bus.go's struct tags with [json.Unmarshal] (what the Valkey bus does with a
    message) and [json.Marshal] (what a producer does, tests/harness). *)

From S2P Require Import Prelude GoStrings Chan Crypto Json JsonParse JsonDecode Bus.

Local Open Scope Z_scope.

(** ** Decoding *)

(** Assignment to the [n]-th string field of a payload and of an event. *)
Definition set_payload_text (n : nat) (v : gostring) (p : EncryptedPayload) : EncryptedPayload :=
  let pick i old := if decide (i = n) then v else old in
  mkEncryptedPayload (pick 0%nat (ep_Algorithm p)) (pick 1%nat (ep_Version p)) (ep_SuiteID p)
    (pick 2%nat (ep_EncapsulatedKey p)) (pick 3%nat (ep_WrappedKey p)) (pick 4%nat (ep_Nonce p))
    (pick 5%nat (ep_PayloadNonce p)) (pick 6%nat (ep_Ciphertext p)).
Definition set_suite (z : Z) (p : EncryptedPayload) : EncryptedPayload :=
  mkEncryptedPayload (ep_Algorithm p) (ep_Version p) z (ep_EncapsulatedKey p) (ep_WrappedKey p) (ep_Nonce p)
    (ep_PayloadNonce p) (ep_Ciphertext p).

Definition set_event_text (n : nat) (v : gostring) (e : EncryptedEvent) : EncryptedEvent :=
  let pick i old := if decide (i = n) then v else old in
  mkEncryptedEvent (pick 0%nat (ee_Schema e)) (pick 1%nat (ee_EventID e)) (pick 2%nat (ee_TenantID e)) (pick 3%nat (ee_AppID e))
    (pick 4%nat (ee_TopicID e)) (pick 5%nat (ee_Type e)) (pick 6%nat (ee_EntityID e)) (ee_Version e)
    (pick 7%nat (ee_OriginUserID e)) (pick 8%nat (ee_UserID e)) (ee_CreatedAt e) (ee_Crypto e) (ee_RawChannel e) (ee_RoutingKey e).
Definition set_version (z : Z) (e : EncryptedEvent) : EncryptedEvent :=
  mkEncryptedEvent (ee_Schema e) (ee_EventID e) (ee_TenantID e) (ee_AppID e) (ee_TopicID e) (ee_Type e) (ee_EntityID e) z
    (ee_OriginUserID e) (ee_UserID e) (ee_CreatedAt e) (ee_Crypto e) (ee_RawChannel e) (ee_RoutingKey e).
Definition set_created (t : Time) (e : EncryptedEvent) : EncryptedEvent :=
  mkEncryptedEvent (ee_Schema e) (ee_EventID e) (ee_TenantID e) (ee_AppID e) (ee_TopicID e) (ee_Type e) (ee_EntityID e)
    (ee_Version e) (ee_OriginUserID e) (ee_UserID e) t (ee_Crypto e) (ee_RawChannel e) (ee_RoutingKey e).
Definition set_crypto (c : EncryptedPayload) (e : EncryptedEvent) : EncryptedEvent :=
  mkEncryptedEvent (ee_Schema e) (ee_EventID e) (ee_TenantID e) (ee_AppID e) (ee_TopicID e) (ee_Type e) (ee_EntityID e)
    (ee_Version e) (ee_OriginUserID e) (ee_UserID e) (ee_CreatedAt e) c (ee_RawChannel e) (ee_RoutingKey e).

Definition payload_text (k : string) (n : nat) : field EncryptedPayload := mkField (str k) (store_string (set_payload_text n)).
Definition payload_fields : list (field EncryptedPayload) :=
  [payload_text "algorithm" 0; payload_text "version" 1; mkField (str "suite_id") (store_uint16 set_suite);
   payload_text "encapsulated_key" 2; payload_text "wrapped_key" 3; payload_text "nonce" 4;
   payload_text "payload_nonce" 5; payload_text "ciphertext" 6].

(** [RawChannel] and [RoutingKey] have the tag "-" and no entry. *)
Definition event_text (k : string) (n : nat) : field EncryptedEvent := mkField (str k) (store_string (set_event_text n)).
Definition event_fields : list (field EncryptedEvent) :=
  [event_text "schema" 0; event_text "event_id" 1; event_text "tenant_id" 2; event_text "app_id" 3; event_text "topic_id" 4;
   event_text "type" 5; event_text "entity_id" 6; mkField (str "version") (store_int64 set_version);
   event_text "origin_user_id" 7; event_text "user_id" 8; mkField (str "created_at") (store_time set_created);
   mkField (str "crypto") (store_nested payload_fields ee_Crypto set_crypto)].

Definition zeroPayload : EncryptedPayload := mkEncryptedPayload [] [] 0 [] [] [] [] [].
Definition zeroEvent : EncryptedEvent := mkEncryptedEvent [] [] [] [] [] [] [] 0 [] [] zeroTime zeroPayload [] [].

(** [var event bus.EncryptedEvent; json.Unmarshal(message, &event)]; [None] when
    it returns an error. *)
Definition UnmarshalEvent (message : gostring) : option EncryptedEvent :=
  match Unmarshal event_fields message zeroEvent with
  | (e, true) => Some e
  | (_, false) => None
  end.

(** ** Encoding *)
Definition payload_json (p : EncryptedPayload) : json :=
  JObject (omit_text "algorithm" (ep_Algorithm p) ++ omit_text "version" (ep_Version p) ++ omit_int "suite_id" (ep_SuiteID p)
    ++ omit_text "encapsulated_key" (ep_EncapsulatedKey p) ++ omit_text "wrapped_key" (ep_WrappedKey p)
    ++ omit_text "nonce" (ep_Nonce p) ++ omit_text "payload_nonce" (ep_PayloadNonce p) ++ omit_text "ciphertext" (ep_Ciphertext p)).

(** A struct is never empty: [created_at] and [crypto] are always there. *)
Definition event_json (e : EncryptedEvent) : option json :=
  created ← time_member "created_at" (ee_CreatedAt e);
  Some (JObject (omit_text "schema" (ee_Schema e) ++ omit_text "event_id" (ee_EventID e) ++ text_member "tenant_id" (ee_TenantID e)
    ++ omit_text "app_id" (ee_AppID e) ++ omit_text "topic_id" (ee_TopicID e) ++ text_member "type" (ee_Type e)
    ++ omit_text "entity_id" (ee_EntityID e) ++ omit_int "version" (ee_Version e) ++ omit_text "origin_user_id" (ee_OriginUserID e)
    ++ omit_text "user_id" (ee_UserID e) ++ created ++ [(str "crypto", payload_json (ee_Crypto e))])).

Definition MarshalEvent (e : EncryptedEvent) : option gostring := print <$> event_json e.

Example unmarshal_ex :
  UnmarshalEvent (jtext "{'tenant_id':'acme','TYPE':'order','x':[1,{}],'version':-7,'crypto':{'suite_id':513,'nonce':null},'type':'late'}")
  = Some (mkEncryptedEvent [] [] (str "acme") [] [] (str "late") [] (-7) [] [] zeroTime (mkEncryptedPayload [] [] 513 [] [] [] [] []) [] []).
Proof. vm_compute. reflexivity. Qed.
Example unmarshal_rejects :
  UnmarshalEvent <$> [jtext "{'version':1.0}"; jtext "{'version':9223372036854775808}"; jtext "{'crypto':{'suite_id':65536}}";
    jtext "{'tenant_id':5}"; jtext "{'created_at':'yesterday'}"; jtext "[]"; jtext "{'type':'a'} x"; jtext "{'crypto':{'suite_id':-0}}"]
  = replicate 8 None.
Proof. vm_compute. reflexivity. Qed.
Example unmarshal_null : UnmarshalEvent (str "null") = Some zeroEvent.
Proof. vm_compute. reflexivity. Qed.

(** ** Properties *)

Abbreviation valid s := (ValidString s = true).

(** What a payload and an event can hold after decoding. *)
Record payload_typed (p : EncryptedPayload) : Prop := {
  pt_texts : Forall (λ s, valid s) [ep_Algorithm p; ep_Version p; ep_EncapsulatedKey p; ep_WrappedKey p; ep_Nonce p;
                                    ep_PayloadNonce p; ep_Ciphertext p];
  pt_suite : 0 ≤ ep_SuiteID p < 2 ^ 16;
}.
Record event_typed (e : EncryptedEvent) : Prop := {
  et_texts : Forall (λ s, valid s) [ee_Schema e; ee_EventID e; ee_TenantID e; ee_AppID e; ee_TopicID e; ee_Type e; ee_EntityID e;
                                    ee_OriginUserID e; ee_UserID e];
  et_version : - 2 ^ 63 ≤ ee_Version e < 2 ^ 63;
  et_created : time_read (ee_CreatedAt e);
  et_crypto : payload_typed (ee_Crypto e);
  et_channel : ee_RawChannel e = [];
  et_routing : ee_RoutingKey e = [];
}.

Lemma set_payload_text_typed n s p : valid s → payload_typed p → payload_typed (set_payload_text n s p).
Proof.
  intros Hs [Ht Hsu]. split; [|done]. simpl. repeat apply Forall_cons in Ht as [? Ht].
  repeat (apply Forall_cons; split; [by case_decide|]). done.
Qed.
Lemma set_event_text_typed n s e : valid s → event_typed e → event_typed (set_event_text n s e).
Proof.
  intros Hs [Ht ? ? ? ? ?]. split; try done. simpl. repeat apply Forall_cons in Ht as [? Ht].
  repeat (apply Forall_cons; split; [by case_decide|]). done.
Qed.

Lemma payload_store_typed v p : payload_typed p → payload_typed (store_struct payload_fields v p).1.
Proof.
  apply store_struct_inv. repeat (apply Forall_cons; split; [intros v' p'|]); [..|done]; simpl;
    first [apply store_string_inv; intros; by apply set_payload_text_typed | apply store_number_inv; intros z q Hz [? ?]; split; [done|simpl; lia]].
Qed.

Lemma event_store_typed v e : event_typed e → event_typed (store_struct event_fields v e).1.
Proof.
  apply store_struct_inv. repeat (apply Forall_cons; split; [intros v' e'|]); [..|done]; simpl;
    first [ apply store_string_inv; intros; by apply set_event_text_typed
          | apply store_number_inv; intros z q Hz []; split; try done; simpl; lia
          | apply store_time_inv; intros tm q Hz []; by split
          | idtac ].
  intros He. unfold store_nested. pose proof (payload_store_typed v' (ee_Crypto e') (et_crypto _ He)) as Hp.
  destruct (store_struct payload_fields v' (ee_Crypto e')) as [p o]. simpl in *. destruct He. by split.
Qed.

Lemma zeroEvent_typed : event_typed zeroEvent.
Proof. split; [by_decide|done|unfold time_read; by_decide|split; [by_decide|done]|done..]. Qed.

(** C14: whatever bytes arrive on the bus, an event that decoding accepts is
    well-formed: every text is valid UTF-8, the version fits 64 bits, the suite
    identifier 16, the creation time is a date of the calendar, and neither the
    source channel nor the routing key can be set by the message. *)
Theorem decoded_event_typed message e : UnmarshalEvent message = Some e → event_typed e.
Proof.
  unfold UnmarshalEvent, Unmarshal. destruct (parse_text message) as [v|]; [|done]. unfold succeeded.
  pose proof (event_store_typed v zeroEvent zeroEvent_typed) as H. destruct (store_struct event_fields v zeroEvent) as [e' o].
  destruct o; [|done..]. by intros [= <-].
Qed.

Definition demo_message : gostring :=
  jtext "{ 'schema':'realtime-event-v1','event_id':'e1','tenant_id':'acme','app_id':'shop','topic_id':'orders','type':'order\u00e9', 'created_at':'2024-02-29T07:05:09.12-01:30','version':7,'RoutingKey':'evil','routing_key':'evil','crypto':{'suite_id':513}}".

Lemma decoded_event_typed_witness : ∃ e, UnmarshalEvent demo_message = Some e ∧ ee_RoutingKey e = [].
Proof.
  assert (is_Some (UnmarshalEvent demo_message)) as [e He] by (vm_compute; eauto). exists e. split; [exact He|].
  exact (et_routing _ (decoded_event_typed demo_message e He)).
Defined.

(** An event a producer can write: what decoding can yield, at most a day off
    UTC. *)
Record event_ok (e : EncryptedEvent) : Prop := {
  eo_typed : event_typed e;
  eo_created : time_ok (ee_CreatedAt e);
}.

Lemma payload_json_ok p : json_ok 1 (payload_json p).
Proof. apply object_ok; [by_decide|]. solve_members. Qed.

Lemma event_json_ok e j : event_json e = Some j → json_ok 0 j.
Proof.
  unfold event_json. intros (created & Hc & <-%(inj Some))%bind_Some. apply object_ok; [by_decide|]. solve_members.
  - by apply (time_member_ok _ "created_at" (ee_CreatedAt e)).
  - apply Forall_singleton. split; [done|apply payload_json_ok].
Qed.

(** The members of a payload set its fields. *)
Lemma store_payload p :
  payload_typed p → store_struct payload_fields (payload_json p) zeroPayload = (p, Decoded).
Proof.
  intros [Ht Hs]. repeat apply Forall_cons in Ht as [? Ht]. unfold payload_json, store_struct.
  do 2 (erewrite (store_omit_text payload_fields) by done).
  erewrite (store_omit_int payload_fields); [|done|apply ParseUint_FormatInt; lia|lia|done].
  do 4 (erewrite (store_omit_text payload_fields) by done).
  rewrite <- (app_nil_r (omit_text _ (ep_Ciphertext p))). erewrite (store_omit_text payload_fields) by done. by destruct p.
Qed.

Lemma store_crypto p e :
  payload_typed p → ee_Crypto e = zeroPayload →
  store_members event_fields [(str "crypto", payload_json p)] e = (set_crypto p e, Decoded).
Proof.
  intros Hp He. erewrite store_decoded; [| |]; [|reflexivity|].
  2: { cbn [fstore]. unfold store_nested. rewrite He, store_payload by done. reflexivity. }
  done.
Qed.

(** An event a producer can write has a text, and the text decodes to it. *)
Lemma event_json_defined e :
  time_ok (ee_CreatedAt e) → time_member "created_at" (ee_CreatedAt e) = Some [(str "created_at", JString (rfc3339 (ee_CreatedAt e)))].
Proof. intros Hk. unfold time_member. rewrite decide_True; [done|]. split; apply Hk. Qed.

Lemma store_event e j : event_ok e → event_json e = Some j → store_struct event_fields j zeroEvent = (e, Decoded).
Proof.
  intros [[Ht Hv _ Hp Hc Hr] Hk] Ej. repeat apply Forall_cons in Ht as [? Ht].
  unfold event_json in Ej. rewrite event_json_defined in Ej by done. apply (inj Some) in Ej as <-. cbn [store_struct].
  do 2 (erewrite (store_omit_text event_fields) by done). erewrite (store_text event_fields) by done.
  do 2 (erewrite (store_omit_text event_fields) by done). erewrite (store_text event_fields) by done.
  erewrite (store_omit_text event_fields) by done.
  erewrite (store_omit_int event_fields); [|done|by apply ParseInt_FormatInt|lia|done].
  do 2 (erewrite (store_omit_text event_fields) by done). cbn [app].
  erewrite (store_time_text event_fields) by done. rewrite store_crypto by done.
  simpl. destruct e. simpl in *. by subst.
Qed.

Lemma event_text_decodes e : event_ok e → ∃ text, MarshalEvent e = Some text ∧ UnmarshalEvent text = Some e.
Proof.
  intros He. destruct (event_json e) as [j|] eqn:Ej; [|unfold event_json in Ej; by rewrite event_json_defined in Ej by apply He].
  exists (print j). split; [unfold MarshalEvent; by rewrite Ej|]. unfold UnmarshalEvent, Unmarshal.
  by rewrite (parse_print j (event_json_ok e j Ej)), (store_event e j He Ej).
Qed.

(** C15: what a producer marshals is what the gateway decodes: every event with
    valid texts, a version and a suite within their widths and a creation time
    has a JSON text, and that text decodes to the same event; so two events
    with the same text are the same event. *)
Theorem event_wire_roundtrip e :
  event_ok e →
  ∃ text, MarshalEvent e = Some text ∧ UnmarshalEvent text = Some e
    ∧ ∀ e', event_ok e' → MarshalEvent e' = Some text → e' = e.
Proof.
  intros He. destruct (event_text_decodes e He) as (text & Hm & Hu). exists text. split; [done|]. split; [done|].
  intros e' He' Hm'. destruct (event_text_decodes e' He') as (text' & Hm2 & Hu2). congruence.
Qed.

Definition demo_wire_event : EncryptedEvent :=
  mkEncryptedEvent SupportedEventSchema (str "e1") (str "acme") (str "shop") (str "orders") (str "order<é>") [] (-42) [] []
    (mkTime 2024 2 29 7 5 9 120000000 (-90)) (mkEncryptedPayload [] [] 513 (str "QUJD") (str "RA==") [] [] (str "x")) [] [].

Lemma event_wire_roundtrip_witness :
  ∃ text, MarshalEvent demo_wire_event = Some text ∧ UnmarshalEvent text = Some demo_wire_event.
Proof.
  destruct (event_wire_roundtrip demo_wire_event) as (text & Hm & Hu & _); [|by exists text]. split; [split|]; [by_decide|done|unfold time_read; by_decide|split; [by_decide|done]|done|done|by_decide].
Defined.
