(* ===== verification/Lanes.v ===== *)
(** * internal/event/lane.go: the lane dispatcher

    The dispatcher is a concurrent object: callers of [Dispatch] under a read
    lock, one worker per lane, and [Close].  Each is cut at its atomic
    operations (lock operations, atomic flags, channel operations); a state
    machine interleaves them freely.  [Dispatch] calls are the list
    [dispatchers] of program counters; the call of [Close] that wins the
    compare-and-swap is [closer]; a lane holds its channel, its worker and, as
    history, the events it accepted and those its worker has processed. *)

From S2P Require Import Prelude GoStrings Hashutil Chan Crypto Json Bus.

Local Open Scope Z_scope.

(** ** State *)
Inductive worker :=
| WRecv                         (* at [for ev := range ch] *)
| WDec (ev : EncryptedEvent)    (* received, before [queueDepth.Add(-1)] *)
| WHandle (ev : EncryptedEvent) (* before the handler returns *)
| WExit.                        (* channel closed and drained, [wg.Done()] *)

Record Lane := mkLane {
  lane_ch : chan EncryptedEvent;
  lane_worker : worker;
  accepted : list EncryptedEvent;
  processed : list EncryptedEvent;
}.

Inductive dpc :=
| DStart (ev : EncryptedEvent)             (* before [mu.RLock()] *)
| DCheck (ev : EncryptedEvent)             (* before [closed.Load()] *)
| DSend (ev : EncryptedEvent)              (* before the [select] *)
| DAdd (ev : EncryptedEvent)               (* sent, before [queueDepth.Add(1)] *)
| DUnlock (ok : bool) (ev : EncryptedEvent)  (* before the deferred [RUnlock] *)
| DRet (ok : bool) (ev : EncryptedEvent).

Inductive cpc :=
| CIdle                         (* [Close] not called *)
| CWaitLock                     (* won the swap, before [mu.Lock()] *)
| CClosing (i : nat)            (* lock held, about to close lane [i] *)
| CDrain                        (* waiting for the workers or the timeout *)
| CCancel (timedOut : bool)     (* before [d.cancel()] *)
| CDone (timedOut : bool).

Global Instance cpc_eq_dec : EqDecision cpc.
Proof. solve_decision. Defined.

Record Dispatcher := mkDispatcher {
  numLanes : Z;
  lanes : list Lane;
  d_closed : bool;
  queueDepth : Z;
  drainTimeout : Z;             (* nanoseconds *)
  readers : nat;                (* holders of the read lock *)
  writer : bool;                (* the write lock is held *)
  cancelled : bool;             (* the handlers' context *)
  closer : cpc;
  dispatchers : list dpc;
}.

Definition upd_lanes (l : list Lane) (d : Dispatcher) : Dispatcher :=
  mkDispatcher (numLanes d) l (d_closed d) (queueDepth d) (drainTimeout d) (readers d) (writer d)
               (cancelled d) (closer d) (dispatchers d).
Definition upd_depth (z : Z) (d : Dispatcher) : Dispatcher :=
  mkDispatcher (numLanes d) (lanes d) (d_closed d) z (drainTimeout d) (readers d) (writer d)
               (cancelled d) (closer d) (dispatchers d).
Definition upd_readers (n : nat) (d : Dispatcher) : Dispatcher :=
  mkDispatcher (numLanes d) (lanes d) (d_closed d) (queueDepth d) (drainTimeout d) n (writer d)
               (cancelled d) (closer d) (dispatchers d).
Definition upd_dispatchers (l : list dpc) (d : Dispatcher) : Dispatcher :=
  mkDispatcher (numLanes d) (lanes d) (d_closed d) (queueDepth d) (drainTimeout d) (readers d) (writer d)
               (cancelled d) (closer d) l.
Definition upd_closer (cl w cn : bool) (c : cpc) (d : Dispatcher) : Dispatcher :=
  mkDispatcher (numLanes d) (lanes d) cl (queueDepth d) (drainTimeout d) (readers d) w cn c (dispatchers d).
Definition upd_timeout (t : Z) (d : Dispatcher) : Dispatcher :=
  mkDispatcher (numLanes d) (lanes d) (d_closed d) (queueDepth d) t (readers d) (writer d)
               (cancelled d) (closer d) (dispatchers d).

Definition second : Z := 1000000000.

Definition NewDispatcher (numLanes queueSize : Z) : Dispatcher :=
  let numLanes := if decide (numLanes ≤ 0) then 64 else numLanes in
  let queueSize := if decide (queueSize ≤ 0) then 1024 else queueSize in
  mkDispatcher numLanes
    (replicate (Z.to_nat numLanes) (mkLane (make_chan (Z.to_nat queueSize)) WRecv [] []))
    false 0 (10 * second) 0 false false CIdle [].

(** ** Atomic operations *)

(** The outcome of letting a thread run one operation. *)
Inductive outcome (A : Type) := Panic | Blocked | Next (a : A).
Arguments Panic {A}.
Arguments Blocked {A}.
Arguments Next {A} a.

(** The routing key of an event on the dispatch path. *)
Definition dispatch_key (ev : EncryptedEvent) : gostring :=
  if decide (ee_RoutingKey ev = [])
  then ee_TenantID ev ++ str ":" ++ ee_AppID ev ++ str ":" ++ ee_TopicID ev
  else ee_RoutingKey ev.

Definition push_lane (ev : EncryptedEvent) (ch : chan EncryptedEvent) (l : Lane) : Lane :=
  mkLane ch (lane_worker l) (accepted l ++ [ev]) (processed l).

(** [select { case lane <- ev: ...; default: ... }] on [d.lanes[laneIdx]]. *)
Definition dispatch_send (ev : EncryptedEvent) (d : Dispatcher) : outcome (dpc * Dispatcher) :=
  match ShardIndex (dispatch_key ev) (numLanes d) with
  | None => Panic
  | Some idx =>
      match lanes d !! Z.to_nat idx with
      | None => Panic
      | Some l =>
          match try_send ev (lane_ch l) with
          | None => Panic
          | Some (true, ch) => Next (DAdd ev, upd_lanes (<[Z.to_nat idx := push_lane ev ch l]> (lanes d)) d)
          | Some (false, _) => Next (DUnlock false ev, d)
          end
      end
  end.

(** One operation of a [Dispatch] call. *)
Definition dispatch_atomic (p : dpc) (d : Dispatcher) : outcome (dpc * Dispatcher) :=
  match p with
  | DStart ev => if writer d then Blocked else Next (DCheck ev, upd_readers (S (readers d)) d)
  | DCheck ev => Next (if d_closed d then DUnlock false ev else DSend ev, d)
  | DSend ev => dispatch_send ev d
  | DAdd ev => Next (DUnlock true ev, upd_depth (queueDepth d + 1) d)
  | DUnlock ok ev => Next (DRet ok ev, upd_readers (readers d - 1)%nat d)
  | DRet _ _ => Blocked
  end.

(** One operation of a worker: the lane and the change of [queueDepth]. *)
Definition worker_atomic (l : Lane) : outcome (Lane * Z) :=
  match lane_worker l with
  | WRecv =>
      match recv (lane_ch l) with
      | Received ev ch => Next (mkLane ch (WDec ev) (accepted l) (processed l), 0)
      | EndOfStream => Next (mkLane (lane_ch l) WExit (accepted l) (processed l), 0)
      | WouldBlock => Blocked
      end
  | WDec ev => Next (mkLane (lane_ch l) (WHandle ev) (accepted l) (processed l), -1)
  | WHandle ev => Next (mkLane (lane_ch l) WRecv (accepted l) (processed l ++ [ev]), 0)
  | WExit => Blocked
  end.

Definition exited (l : Lane) : bool := match lane_worker l with WExit => true | _ => false end.

(** One operation of [Close]; [expired] tells whether the drain timer fired. *)
Definition close_atomic (expired : bool) (d : Dispatcher) : outcome Dispatcher :=
  match closer d with
  | CIdle => if d_closed d then Blocked else Next (upd_closer true (writer d) (cancelled d) CWaitLock d)
  | CWaitLock =>
      if decide (writer d = false ∧ readers d = 0%nat)
      then Next (upd_closer (d_closed d) true (cancelled d) (CClosing 0) d) else Blocked
  | CClosing i =>
      match lanes d !! i with
      | None => Next (upd_closer (d_closed d) false (cancelled d) CDrain d)
      | Some l =>
          match close_chan (lane_ch l) with
          | None => Panic
          | Some ch =>
              Next (upd_closer (d_closed d) true (cancelled d) (CClosing (S i))
                      (upd_lanes (<[i := mkLane ch (lane_worker l) (accepted l) (processed l)]> (lanes d)) d))
          end
      end
  | CDrain =>
      if expired then Next (upd_closer (d_closed d) (writer d) (cancelled d) (CCancel true) d)
      else if forallb exited (lanes d) then Next (upd_closer (d_closed d) (writer d) (cancelled d) (CCancel false) d)
      else Blocked
  | CCancel t => Next (upd_closer (d_closed d) (writer d) true (CDone t) d)
  | CDone _ => Blocked
  end.

(** ** Interleaving *)
Inductive lstep : Dispatcher → Dispatcher → Prop :=
| call_dispatch ev d : lstep d (upd_dispatchers (dispatchers d ++ [DStart ev]) d)
| run_dispatch i p p' d d' :
    dispatchers d !! i = Some p → dispatch_atomic p d = Next (p', d') →
    lstep d (upd_dispatchers (<[i := p']> (dispatchers d')) d')
| run_worker i l l' z d :
    lanes d !! i = Some l → worker_atomic l = Next (l', z) →
    lstep d (upd_depth (queueDepth d + z) (upd_lanes (<[i := l']> (lanes d)) d))
| run_close expired d d' : close_atomic expired d = Next d' → lstep d d'
| set_drain_timeout t d :
    writer d = false → readers d = 0%nat → lstep d (upd_timeout t d).

Definition QueueDepth (d : Dispatcher) : Z := queueDepth d.

(** ** Invariant *)

Definition holds_lock (p : dpc) : nat :=
  match p with DCheck _ | DSend _ | DAdd _ | DUnlock _ _ => 1 | _ => 0 end.
Definition adding (p : dpc) : nat := match p with DAdd _ => 1 | _ => 0 end.
Definition decrementing (l : Lane) : nat := match lane_worker l with WDec _ => 1 | _ => 0 end.
Definition queued (l : Lane) : nat := length (buf (lane_ch l)).

Definition inflight (w : worker) : list EncryptedEvent :=
  match w with WDec ev | WHandle ev => [ev] | _ => [] end.

(** Is lane [i] closed, given where [Close] stands? *)
Definition lane_closed (c : cpc) (i : nat) : bool :=
  match c with
  | CIdle | CWaitLock => false
  | CClosing j => bool_decide (i < j)%nat
  | _ => true
  end.

Definition closing_now (c : cpc) : bool := match c with CClosing _ => true | _ => false end.
Definition drained (c : cpc) : bool := match c with CCancel false | CDone false => true | _ => false end.

Record lane_ok (c : cpc) (i : nat) (l : Lane) : Prop := {
  lo_wf : chan_wf (lane_ch l);
  lo_closed : is_closed (lane_ch l) = lane_closed c i;
  lo_flow : processed l ++ inflight (lane_worker l) ++ buf (lane_ch l) = accepted l;
  lo_exit : lane_worker l = WExit → is_closed (lane_ch l) = true ∧ buf (lane_ch l) = [];
}.

Record disp_inv (d : Dispatcher) : Prop := {
  di_num : 0 < numLanes d < 2 ^ 32;
  di_len : length (lanes d) = Z.to_nat (numLanes d);
  di_readers : readers d = sum_list_with holds_lock (dispatchers d);
  di_writer : writer d = closing_now (closer d);
  di_excl : writer d = true → readers d = 0%nat;
  di_closed : d_closed d = true ↔ closer d ≠ CIdle;
  di_sending : ∀ i ev, dispatchers d !! i = Some (DSend ev) → closer d = CIdle ∨ closer d = CWaitLock;
  di_lane : ∀ i l, lanes d !! i = Some l → lane_ok (closer d) i l;
  di_drained : drained (closer d) = true → ∀ i l, lanes d !! i = Some l → lane_worker l = WExit;
  di_depth : queueDepth d + Z.of_nat (sum_list_with adding (dispatchers d))
             = Z.of_nat (sum_list_with queued (lanes d) + sum_list_with decrementing (lanes d));
  di_keys : ∀ i l ev, lanes d !! i = Some l → ev ∈ accepted l →
            ShardIndex (dispatch_key ev) (numLanes d) = Some (Z.of_nat i);
}.

Lemma NewDispatcher_inv n q : n < 2 ^ 32 → disp_inv (NewDispatcher n q).
Proof.
  intros Hn. unfold NewDispatcher. set (m := if decide _ then 64 else n).
  assert (0 < m < 2 ^ 32) as Hm by (unfold m; case_decide; lia).
  split; simpl; try done.
  - by rewrite length_replicate.
  - intros i l [-> _]%lookup_replicate. split; simpl; try done. apply make_chan_wf.
  - clear. induction (Z.to_nat m); simpl; lia.
  - intros i l ev [-> _]%lookup_replicate Hev. simpl in Hev. by apply elem_of_nil in Hev.
Qed.

(** A thread's program counter after an update of the list. *)
Lemma lookup_insert_cases {A} (l : list A) i j x y :
  <[i := x]> l !! j = Some y → (j = i ∧ y = x) ∨ (j ≠ i ∧ l !! j = Some y).
Proof.
  intros H. apply list_lookup_insert_Some in H. naive_solver.
Qed.

Lemma lane_update_inv d i l l' z :
  disp_inv d → lanes d !! i = Some l → lane_ok (closer d) i l' →
  accepted l' = accepted l → (lane_worker l = WExit → lane_worker l' = WExit) →
  z + Z.of_nat (queued l + decrementing l) = Z.of_nat (queued l' + decrementing l') →
  disp_inv (upd_depth (queueDepth d + z) (upd_lanes (<[i := l']> (lanes d)) d)).
Proof.
  intros [I1 I2 I3 I4 I5 I6 I7 I8 I9 I10 I11] Hl Hok Hacc Hexit Hz. split; simpl; try done.
  - by rewrite length_insert.
  - intros j l0 [[-> ->]|[_ H]]%lookup_insert_cases; [done|by apply I8].
  - intros Hd j l0 [[-> ->]|[_ H]]%lookup_insert_cases; [|by eapply I9]. by apply Hexit, (I9 Hd i).
  - pose proof (sum_list_with_insert queued (lanes d) i l l' Hl).
    pose proof (sum_list_with_insert decrementing (lanes d) i l l' Hl). lia.
  - intros j l0 ev [[-> ->]|[_ H]]%lookup_insert_cases; [|by apply I11].
    rewrite Hacc. by apply I11.
Qed.

Lemma worker_inv d i l l' z :
  disp_inv d → lanes d !! i = Some l → worker_atomic l = Next (l', z) →
  disp_inv (upd_depth (queueDepth d + z) (upd_lanes (<[i := l']> (lanes d)) d)).
Proof.
  intros Hi Hl Hw. destruct (di_lane _ Hi i l Hl) as [L1 L2 L3 L4].
  unfold worker_atomic in Hw. destruct l as [[b n cl] w acc pr]. cbn in *.
  destruct w as [|ev|ev|]; [|injection Hw as <- <-..|done].
  - unfold recv in Hw. cbn in Hw. destruct b as [|ev b]; [destruct cl eqn:Ecl; [|done]|]; injection Hw as <- <-.
    + by eapply lane_update_inv.
    + eapply lane_update_inv; try done; [split; simpl; try done; unfold chan_wf in *; simpl in *; lia|].
      unfold queued, decrementing. simpl. lia.
  - eapply lane_update_inv; try done. unfold queued, decrementing. simpl. lia.
  - eapply lane_update_inv; try done. split; simpl; try done. by rewrite <- (assoc_L (++)).
Qed.

(** An update of one call's program counter and of the number of readers. *)
Lemma dispatcher_update_inv d i p p' n :
  disp_inv d → dispatchers d !! i = Some p →
  (n + holds_lock p = readers d + holds_lock p')%nat → adding p' = adding p →
  (writer d = true → n = 0%nat) →
  (∀ ev, p' = DSend ev → closer d = CIdle ∨ closer d = CWaitLock) →
  disp_inv (upd_dispatchers (<[i := p']> (dispatchers d)) (upd_readers n d)).
Proof.
  intros [I1 I2 I3 I4 I5 I6 I7 I8 I9 I10 I11] Hp Hh Ha Hw Hs. split; simpl; try done.
  - pose proof (sum_list_with_insert holds_lock (dispatchers d) i p p' Hp). lia.
  - intros j ev [[_ H]|[_ H]]%lookup_insert_cases; [by apply (Hs ev)|by eapply I7].
  - pose proof (sum_list_with_insert adding (dispatchers d) i p p' Hp). lia.
Qed.

Lemma upd_readers_id d : upd_readers (readers d) d = d.
Proof. by destruct d. Qed.

(** While a call is at the [select], no lane is closed. *)
Lemma sending_lane d i ev idx :
  disp_inv d → dispatchers d !! i = Some (DSend ev) →
  ShardIndex (dispatch_key ev) (numLanes d) = Some idx →
  ∃ l, lanes d !! Z.to_nat idx = Some l ∧ lane_ok (closer d) (Z.to_nat idx) l ∧ is_closed (lane_ch l) = false
       ∧ 0 ≤ idx.
Proof.
  intros Hi Hp Hidx. pose proof (di_num _ Hi) as Hn.
  destruct (ShardIndex_in_range (dispatch_key ev) (numLanes d)) as (k & Hk & Hr); [lia|].
  rewrite Hidx in Hk. simplify_eq.
  destruct (lookup_lt_is_Some_2 (lanes d) (Z.to_nat k)) as [l Hl]; [rewrite (di_len _ Hi); lia|].
  exists l. pose proof (di_lane _ Hi _ _ Hl) as Hok. split_and!; [done..| |lia].
  rewrite (lo_closed _ _ _ Hok). by destruct (di_sending _ Hi i ev Hp) as [-> | ->].
Qed.

Lemma send_inv d i ev :
  disp_inv d → dispatchers d !! i = Some (DSend ev) →
  ∃ p' d', dispatch_send ev d = Next (p', d') ∧ disp_inv (upd_dispatchers (<[i := p']> (dispatchers d')) d').
Proof.
  intros Hi Hp. unfold dispatch_send. pose proof (di_num _ Hi) as Hn.
  destruct (ShardIndex_in_range (dispatch_key ev) (numLanes d)) as (idx & Hidx & Hr); [lia|]. rewrite Hidx.
  destruct (sending_lane d i ev idx Hi Hp Hidx) as (l & Hl & [L1 L2 L3 L4] & Hcl & _). rewrite Hl.
  unfold try_send. rewrite Hcl. case_decide as Hroom.
  - eexists _, _. split; [done|]. destruct Hi as [I1 I2 I3 I4 I5 I6 I7 I8 I9 I10 I11].
    set (l' := push_lane ev _ l).
    assert (drained (closer d) = false) as Hnd by by destruct (I7 i ev Hp) as [-> | ->].
    split; simpl; try done.
    + by rewrite length_insert.
    + pose proof (sum_list_with_insert holds_lock (dispatchers d) i _ (DAdd ev) Hp). simpl in *. lia.
    + intros j ev' [[-> ?]|[_ H]]%lookup_insert_cases; [done|by eapply I7].
    + intros j l0 [[-> ->]|[_ H]]%lookup_insert_cases; [|by apply I8]. split; simpl.
      * unfold chan_wf. simpl. rewrite length_app. simpl. lia.
      * by rewrite <- L2.
      * by rewrite <- L3, <- !(assoc_L (++)).
      * intros He. destruct (L4 He). congruence.
    + by rewrite Hnd.
    + pose proof (sum_list_with_insert adding (dispatchers d) i _ (DAdd ev) Hp).
      pose proof (sum_list_with_insert queued (lanes d) _ l l' Hl).
      pose proof (sum_list_with_insert decrementing (lanes d) _ l l' Hl).
      assert (queued l' = S (queued l)) by (unfold queued, l'; simpl; rewrite length_app; simpl; lia).
      assert (decrementing l' = decrementing l) by done. simpl in *. lia.
    + intros j l0 ev' [[-> ->]|[_ H]]%lookup_insert_cases; [|by apply I11].
      simpl. intros [H| ->%list_elem_of_singleton]%elem_of_app; [by apply (I11 _ _ _ Hl)|].
      rewrite Hidx. f_equal. lia.
  - eexists _, _. split; [done|]. rewrite <- (upd_readers_id d) at 2.
    eapply dispatcher_update_inv; try done. apply Hi.
Qed.

Lemma dispatch_inv d i p :
  disp_inv d → dispatchers d !! i = Some p →
  dispatch_atomic p d ≠ Panic ∧
  ∀ p' d', dispatch_atomic p d = Next (p', d') → disp_inv (upd_dispatchers (<[i := p']> (dispatchers d')) d').
Proof.
  intros Hi Hp. pose proof (di_excl _ Hi) as Hex. destruct p as [ev|ev|ev|ev|ok ev|ok ev]; simpl.
  - destruct (writer d) eqn:Ew; [done|]. split; [done|]. intros p' d' [= <- <-]. simpl.
    eapply dispatcher_update_inv; try done; simpl; [lia|congruence].
  - split; [done|]. intros p' d' [= <- <-]. rewrite <- (upd_readers_id d) at 3.
    eapply dispatcher_update_inv; try done.
    + by destruct (d_closed d).
    + by destruct (d_closed d).
    + intros ev' He. destruct (d_closed d) eqn:Ec; [done|]. left.
      destruct (decide (closer d = CIdle)) as [|Hne]; [done|]. apply (di_closed _ Hi) in Hne. congruence.
  - destruct (send_inv d i ev Hi Hp) as (p' & d' & E & Hi'). rewrite E. split; [done|]. by intros ? ? [= <- <-].
  - split; [done|]. intros p' d' [= <- <-]. destruct Hi as [I1 I2 I3 I4 I5 I6 I7 I8 I9 I10 I11].
    split; simpl; try done.
    + pose proof (sum_list_with_insert holds_lock (dispatchers d) i _ (DUnlock true ev) Hp). simpl in *. lia.
    + intros j ev' [[-> ?]|[_ H]]%lookup_insert_cases; [done|by eapply I7].
    + pose proof (sum_list_with_insert adding (dispatchers d) i _ (DUnlock true ev) Hp). simpl in *. lia.
  - split; [done|]. intros p' d' [= <- <-]. simpl.
    pose proof (sum_list_with_lookup holds_lock _ _ _ Hp) as Hle. rewrite <- (di_readers _ Hi) in Hle. simpl in Hle.
    eapply dispatcher_update_inv; try done; simpl; [lia|]. intros Hw. apply Hex in Hw. lia.
  - by split.
Qed.

(** An update of the closer that keeps the lanes. *)
Lemma closer_update_inv d cl w cn c :
  disp_inv d →
  w = closing_now c → (w = true → readers d = 0%nat) → (cl = true ↔ c ≠ CIdle) →
  (∀ i ev, dispatchers d !! i = Some (DSend ev) → c = CIdle ∨ c = CWaitLock) →
  (∀ i l, lanes d !! i = Some l → lane_closed c i = lane_closed (closer d) i) →
  (drained c = true → ∀ i l, lanes d !! i = Some l → lane_worker l = WExit) →
  disp_inv (upd_closer cl w cn c d).
Proof.
  intros [I1 I2 I3 I4 I5 I6 I7 I8 I9 I10 I11] Hw Hr Hc Hs Hl Hd. split; simpl; try done.
  intros i l Hil. destruct (I8 i l Hil) as [L1 L2 L3 L4]. split; try done. by rewrite L2, (Hl i l Hil).
Qed.

Lemma no_sender d : disp_inv d → readers d = 0%nat → ∀ i ev, dispatchers d !! i ≠ Some (DSend ev).
Proof.
  intros Hi Hr i ev Hp. pose proof (sum_list_with_lookup holds_lock _ _ _ Hp) as Hle.
  rewrite <- (di_readers _ Hi), Hr in Hle. simpl in Hle. lia.
Qed.

Lemma close_lane_inv d j l ch :
  disp_inv d → closer d = CClosing j → lanes d !! j = Some l → close_chan (lane_ch l) = Some ch →
  disp_inv (upd_closer (d_closed d) true (cancelled d) (CClosing (S j))
              (upd_lanes (<[j := mkLane ch (lane_worker l) (accepted l) (processed l)]> (lanes d)) d)).
Proof.
  intros Hi Hc Hl Hch. pose proof Hi as [I1 I2 I3 I4 I5 I6 I7 I8 I9 I10 I11].
  assert (writer d = true) as Hw by by rewrite I4, Hc.
  destruct (I8 j l Hl) as [L1 L2 L3 L4]. unfold close_chan in Hch.
  destruct (is_closed (lane_ch l)) eqn:Ecl; [done|]. injection Hch as <-.
  split; simpl; try done.
  - by rewrite length_insert.
  - by intros _; apply I5.
  - rewrite I6, Hc. done.
  - intros i ev Hp. by destruct (no_sender d Hi (I5 Hw) i ev).
  - intros i l0 [[-> ->]|[Hne H]]%lookup_insert_cases.
    + split; simpl; try done; [by rewrite bool_decide_eq_true_2 by lia|].
      intros He. by destruct (L4 He).
    + destruct (I8 i l0 H) as [K1 K2 K3 K4]. split; try done. rewrite K2, Hc. simpl.
      apply bool_decide_ext. lia.
  - set (l' := mkLane _ _ _ _).
    pose proof (sum_list_with_insert queued (lanes d) j l l' Hl).
    pose proof (sum_list_with_insert decrementing (lanes d) j l l' Hl).
    assert (queued l' = queued l ∧ decrementing l' = decrementing l) as [? ?] by done. lia.
  - intros i l0 ev [[-> ->]|[Hne H]]%lookup_insert_cases; [by apply (I11 _ _ _ Hl)|by apply I11].
Qed.

Lemma close_inv d expired :
  disp_inv d →
  close_atomic expired d ≠ Panic ∧ ∀ d', close_atomic expired d = Next d' → disp_inv d'.
Proof.
  intros Hi. pose proof Hi as [I1 I2 I3 I4 I5 I6 I7 I8 I9 I10 I11].
  unfold close_atomic. destruct (closer d) as [| |j| |t|t] eqn:Ec.
  - destruct (d_closed d) eqn:Ecl; [done|]. split; [done|]. intros d' [= <-].
    apply closer_update_inv; try done; rewrite ?Ec; try done; naive_solver.
  - case_decide as Hw; [|done]. split; [done|]. intros d' [= <-]. destruct Hw as [Hw Hr].
    apply closer_update_inv; try done; rewrite ?Ec; try done.
    + by rewrite I6.
    + intros i ev Hp. by destruct (no_sender d Hi Hr i ev).
  - destruct (lanes d !! j) as [l|] eqn:El.
    + destruct (I8 j l El) as [L1 L2 L3 L4]. rewrite ?Ec in L2. simpl in L2.
      rewrite bool_decide_eq_false_2 in L2 by lia.
      destruct (close_chan (lane_ch l)) as [ch|] eqn:Ech;
        [|unfold close_chan in Ech; by rewrite L2 in Ech].
      split; [done|]. intros d' [= <-]. by eapply close_lane_inv.
    + split; [done|]. intros d' [= <-]. apply lookup_ge_None in El.
      apply closer_update_inv; try done; rewrite ?Ec; try done.
      * by rewrite I6.
      * intros i ev Hp. by destruct (no_sender d Hi (I5 I4) i ev).
      * intros i l Hl%lookup_lt_Some. simpl. by rewrite bool_decide_eq_true_2 by lia.
  - split; [by repeat case_match|]. intros d' E.
    destruct expired; [|destruct (forallb exited (lanes d)) eqn:Ex; [|done]]; injection E as <-;
      (apply closer_update_inv; try done; rewrite ?Ec; try done).
    + by rewrite I6.
    + intros i ev Hp. by destruct (I7 i ev Hp).
    + by rewrite I6.
    + intros i ev Hp. by destruct (I7 i ev Hp).
    + intros _ i l Hl. rewrite forallb_forall in Ex.
      assert (exited l = true) as He by (eapply Ex, list_elem_of_In, list_elem_of_lookup_2, Hl).
      unfold exited in He. by destruct (lane_worker l).
  - split; [done|]. intros d' [= <-]. apply closer_update_inv; try done; rewrite ?Ec; try done.
    + by rewrite I6.
    + intros i ev Hp. by destruct (I7 i ev Hp).
  - done.
Qed.

Lemma lstep_inv d d' : lstep d d' → disp_inv d → disp_inv d'.
Proof.
  intros Hstep Hi. destruct Hstep as [ev d|i p p' d d' Hp E|i l l' z d Hl E|ex d d' E|t d Hw Hr].
  - destruct Hi as [I1 I2 I3 I4 I5 I6 I7 I8 I9 I10 I11]. split; simpl; try done.
    + rewrite sum_list_with_app. simpl. lia.
    + intros i ev' [H|[_ H]]%lookup_app_Some; [by eapply I7|].
      by apply list_lookup_singleton_Some in H as [_ ?].
    + rewrite sum_list_with_app. simpl. lia.
  - by eapply (dispatch_inv d i p).
  - by eapply worker_inv.
  - by eapply close_inv.
  - by destruct Hi.
Qed.

Lemma lanes_reach n q d : n < 2 ^ 32 → rtc lstep (NewDispatcher n q) d → disp_inv d.
Proof.
  intros Hn Hrun. pose proof (NewDispatcher_inv n q Hn) as Hi.
  induction Hrun; eauto using lstep_inv.
Qed.

(** The events of a lane that carry a routing key. *)
Definition with_key (k : gostring) (l : list EncryptedEvent) : list EncryptedEvent :=
  filter (λ ev, dispatch_key ev = k) l.

(** Under every interleaving of callers, workers and [Close], no operation
    of the dispatcher panics: no event is sent on a closed lane, no lane is
    closed twice, and no lane index is out of range. *)
Theorem dispatcher_never_panics n q d :
  n < 2 ^ 32 → rtc lstep (NewDispatcher n q) d →
  (∀ i p, dispatchers d !! i = Some p → dispatch_atomic p d ≠ Panic)
  ∧ (∀ expired, close_atomic expired d ≠ Panic)
  ∧ (writer d = true → readers d = 0%nat).
Proof.
  intros Hn Hrun. pose proof (lanes_reach n q d Hn Hrun) as Hi. split_and!.
  - intros i p Hp. by apply (dispatch_inv d i p).
  - intros e. by apply close_inv.
  - apply Hi.
Qed.

(** Events are processed in the order they were accepted: on each lane the
    processed events, the one in the worker's hands and the queue are together
    the accepted sequence; all events of a routing key go to the same lane, so
    the processed events of a key are a prefix of the accepted ones. *)
Theorem lane_order n q d i l :
  n < 2 ^ 32 → rtc lstep (NewDispatcher n q) d → lanes d !! i = Some l →
  processed l ++ inflight (lane_worker l) ++ buf (lane_ch l) = accepted l
  ∧ (∀ k, with_key k (processed l) `prefix_of` with_key k (accepted l))
  ∧ (∀ j l' ev, lanes d !! j = Some l' → ev ∈ accepted l' →
       ∀ ev', ev' ∈ accepted l → dispatch_key ev' = dispatch_key ev → i = j).
Proof.
  intros Hn Hrun Hl. pose proof (lanes_reach n q d Hn Hrun) as Hi.
  pose proof (lo_flow _ _ _ (di_lane _ Hi i l Hl)) as Hflow. split_and!; [done| |].
  - intros k. rewrite <- Hflow. unfold with_key. rewrite filter_app. by eexists.
  - intros j l' ev Hl' Hev ev' Hev' Hk. pose proof (di_keys _ Hi _ _ _ Hl Hev') as H1.
    pose proof (di_keys _ Hi _ _ _ Hl' Hev) as H2. rewrite Hk, H2 in H1. injection H1 as H1. lia.
Qed.

(** When [Close] ends because the workers are done and not because of the
    drain timeout, every event that [Dispatch] ever accepted has been
    processed, in order, and before the handlers' context was cancelled. *)
Theorem close_drains_all n q d :
  n < 2 ^ 32 → rtc lstep (NewDispatcher n q) d →
  closer d = CCancel false ∨ closer d = CDone false →
  ∀ i l, lanes d !! i = Some l → processed l = accepted l.
Proof.
  intros Hn Hrun Hc i l Hl. pose proof (lanes_reach n q d Hn Hrun) as Hi.
  assert (lane_worker l = WExit) as Hw.
  { eapply (di_drained _ Hi); [|done]. by destruct Hc as [-> | ->]. }
  destruct (di_lane _ Hi i l Hl) as [_ _ Hflow Hexit]. destruct (Hexit Hw) as [_ Hb].
  rewrite Hw, Hb in Hflow. by rewrite !app_nil_r in Hflow.
Qed.

(** [queueDepth] counts the queued events, up to the calls that have sent
    and not yet incremented and the workers that have received and not yet
    decremented; with neither it is exactly the total of the lane queues. *)
Theorem queue_depth_exact n q d :
  n < 2 ^ 32 → rtc lstep (NewDispatcher n q) d →
  QueueDepth d = Z.of_nat (sum_list_with queued (lanes d))
                 + Z.of_nat (sum_list_with decrementing (lanes d))
                 - Z.of_nat (sum_list_with adding (dispatchers d)).
Proof.
  intros Hn Hrun. pose proof (di_depth _ (lanes_reach n q d Hn Hrun)). unfold QueueDepth. lia.
Qed.

(** ** A schedule, evaluated *)
Inductive action := ACall (ev : EncryptedEvent) | ADispatch (i : nat) | AWorker (i : nat) | AClose (expired : bool).

Definition act (a : action) (d : Dispatcher) : option Dispatcher :=
  match a with
  | ACall ev => Some (upd_dispatchers (dispatchers d ++ [DStart ev]) d)
  | ADispatch i =>
      p ← dispatchers d !! i;
      match dispatch_atomic p d with
      | Next (p', d') => Some (upd_dispatchers (<[i := p']> (dispatchers d')) d')
      | _ => None
      end
  | AWorker i =>
      l ← lanes d !! i;
      match worker_atomic l with
      | Next (l', z) => Some (upd_depth (queueDepth d + z) (upd_lanes (<[i := l']> (lanes d)) d))
      | _ => None
      end
  | AClose e => match close_atomic e d with Next d' => Some d' | _ => None end
  end.

Fixpoint schedule (s : list action) (d : Dispatcher) : option Dispatcher :=
  match s with
  | [] => Some d
  | a :: s' => match act a d with Some d' => schedule s' d' | None => None end
  end.

Lemma schedule_steps s d d' : schedule s d = Some d' → rtc lstep d d'.
Proof.
  revert d. induction s as [|a s IH]; intros d E; simpl in E; [by simplify_eq|].
  destruct (act a d) as [d1|] eqn:Ea; [|done]. eapply rtc_l; [|by apply IH]. clear IH E.
  destruct a as [ev|i|i|e]; simpl in Ea.
  - injection Ea as <-. constructor.
  - destruct (dispatchers d !! i) as [p|] eqn:Ep; simpl in Ea; [|done].
    destruct (dispatch_atomic p d) as [| |[p' d2]] eqn:E; try done. injection Ea as <-. by eapply run_dispatch.
  - destruct (lanes d !! i) as [l|] eqn:El; simpl in Ea; [|done].
    destruct (worker_atomic l) as [| |[l' z]] eqn:E; try done. injection Ea as <-. by eapply run_worker.
  - destruct (close_atomic e d) as [| |d2] eqn:E; try done. injection Ea as <-. by eapply run_close.
Qed.

Definition lane_event (id : string) : EncryptedEvent :=
  mkEncryptedEvent [] (str id) (str "t") (str "a") (str "k") (str "x") [] 0 [] [] (mkTime 2024 1 1 0 0 0 0 0)
    (mkEncryptedPayload [] [] 0 [] [] [] [] []) [] [].

(** One event dispatched and processed; the worker decrements before the caller
    increments. *)
Definition racing_schedule : list action :=
  [ACall (lane_event "1"); ADispatch 0; ADispatch 0; ADispatch 0; AWorker 0; AWorker 0].
Definition draining_schedule : list action :=
  racing_schedule ++ [ADispatch 0; AClose false; ADispatch 0; AClose false; AClose false; AClose false;
                      AWorker 0; AWorker 0; AClose false].

Definition lane_state (s : list action) : Dispatcher :=
  default (NewDispatcher 1 4) (schedule s (NewDispatcher 1 4)).

Lemma racing_reach : rtc lstep (NewDispatcher 1 4) (lane_state racing_schedule).
Proof. apply (schedule_steps racing_schedule). vm_compute. reflexivity. Qed.
Lemma draining_reach : rtc lstep (NewDispatcher 1 4) (lane_state draining_schedule).
Proof. apply (schedule_steps draining_schedule). vm_compute. reflexivity. Qed.

Lemma dispatcher_never_panics_witness : close_atomic false (lane_state racing_schedule) ≠ Panic.
Proof.
  apply (dispatcher_never_panics 1 4 (lane_state racing_schedule)); [lia|exact racing_reach].
Defined.

Lemma lane_order_witness :
  ∃ l, lanes (lane_state draining_schedule) !! 0%nat = Some l
    ∧ processed l ++ inflight (lane_worker l) ++ buf (lane_ch l) = accepted l ∧ accepted l ≠ [].
Proof.
  eexists. split; [vm_compute; reflexivity|]. split; [|discriminate].
  apply (lane_order 1 4 (lane_state draining_schedule) 0); [lia|exact draining_reach|vm_compute; reflexivity].
Defined.

Lemma close_drains_all_witness :
  ∃ l, lanes (lane_state draining_schedule) !! 0%nat = Some l ∧ processed l = accepted l.
Proof.
  eexists. split; [vm_compute; reflexivity|].
  apply (close_drains_all 1 4 (lane_state draining_schedule) ltac:(lia) draining_reach
           ltac:(left; vm_compute; reflexivity) 0). vm_compute. reflexivity.
Defined.

Lemma queue_depth_exact_witness :
  QueueDepth (lane_state racing_schedule)
  = Z.of_nat (sum_list_with queued (lanes (lane_state racing_schedule)))
    + Z.of_nat (sum_list_with decrementing (lanes (lane_state racing_schedule)))
    - Z.of_nat (sum_list_with adding (dispatchers (lane_state racing_schedule))).
Proof. apply (queue_depth_exact 1 4 (lane_state racing_schedule)); [lia|exact racing_reach]. Defined.

(** The increment follows the send, so a fast worker can bring the counter
    below zero: a reader of [QueueDepth] may see -1. *)
Theorem queue_depth_may_be_negative :
  ∃ d, rtc lstep (NewDispatcher 1 4) d ∧ QueueDepth d = -1.
Proof. exists (lane_state racing_schedule). split; [exact racing_reach|]. vm_compute. reflexivity. Qed.
