(* ===== verification/Pipeline.v ===== *)
(** * internal/pipeline/processor.go: from an encrypted event to frames

    The processor unwraps the key, decrypts, serialises and hands the frame to
    the hub.  Its own state [Pipe] is the memory of key buffers and the
    counters of internal/metrics that it drives.  The key service is any
    instance of the [KeyUnwrapper] interface. *)

From S2P Require Import Prelude GoStrings Hashutil Chan Frame Quota Client Shard Hub HubSpec HubBroadcast Router Aes Base64 Crypto Json Bus.

Local Open Scope Z_scope.

(** ** internal/event/model.go *)
Record DecryptedEventPayload := mkPayload {
  dp_EventID : gostring;
  dp_TenantID : gostring;
  dp_AppID : gostring;
  dp_TopicID : gostring;
  dp_Type : gostring;
  dp_EntityID : gostring;
  dp_Version : Z;
  dp_OriginUserID : gostring;
  dp_CreatedAt : Time;
  dp_Data : gostring;
}.

(** A member of a JSON object, with its key. *)
Definition member (key : string) (value : gostring) : gostring :=
  [DQUOTE] ++ str key ++ [DQUOTE] ++ str ":" ++ value ++ str ",".
(** [omitempty] on a string. *)
Definition member_omitempty (key : string) (s : gostring) : gostring :=
  if decide (s = []) then [] else member key (quote_json s).

(** [json.Marshal(decryptedPayload)] *)
Definition marshal_payload (p : DecryptedEventPayload) : option gostring :=
  created ← marshal_time (dp_CreatedAt p);
  data ← marshal_raw (dp_Data p);
  Some (str "{"
    ++ member "event_id" (quote_json (dp_EventID p))
    ++ member "tenant_id" (quote_json (dp_TenantID p))
    ++ member "app_id" (quote_json (dp_AppID p))
    ++ member "topic_id" (quote_json (dp_TopicID p))
    ++ member "type" (quote_json (dp_Type p))
    ++ member_omitempty "entity_id" (dp_EntityID p)
    ++ member "version" (FormatInt (dp_Version p))
    ++ member_omitempty "origin_user_id" (dp_OriginUserID p)
    ++ member "created_at" created
    ++ [DQUOTE] ++ str "data" ++ [DQUOTE] ++ str ":" ++ data ++ str "}").

(** ** The processor *)
Record CryptoConfig := mkCryptoConfig {
  AADEnabled : bool;
  AADTemplate : gostring;
  MaxPayloadBytes : Z;
}.

Record Processor := mkProcessor {
  pr_router : Router;
  pr_cfg : CryptoConfig;
  pr_metrics : bool;            (* the metrics registry is not nil *)
}.

(** [NewProcessor]; the unwrapper and the hub come with the calls. *)
Definition NewProcessor (router : Router) (cfg : CryptoConfig) (metrics : bool) : Processor := mkProcessor router cfg metrics.

Record Pipe := mkPipe {
  mem : Mem;
  DecryptErrorsTotal : Z;
  EventsDecryptedTotal : Z;
  EventProcessed : Z;           (* observations of the processing duration *)
  FanoutTotal : Z;
  FanoutRecipientsTotal : Z;
  EventsNoSubscriberTotal : Z;
}.

Definition on_mem {A} (m : M Mem A) : M Pipe A := λ s,
  match m (mem s) with
  | None => None
  | Some (a, m') => Some (a, mkPipe m' (DecryptErrorsTotal s) (EventsDecryptedTotal s) (EventProcessed s)
                              (FanoutTotal s) (FanoutRecipientsTotal s) (EventsNoSubscriberTotal s))
  end.

Definition count_metrics (p : Processor) (errors decrypted processed fanout recipients nosub : Z) : M Pipe () :=
  modify (λ s, if pr_metrics p
               then mkPipe (mem s) (DecryptErrorsTotal s + errors) (EventsDecryptedTotal s + decrypted)
                      (EventProcessed s + processed) (FanoutTotal s + fanout)
                      (FanoutRecipientsTotal s + recipients) (EventsNoSubscriberTotal s + nosub)
               else s).
Definition inc_errors (p : Processor) : M Pipe () := count_metrics p 1 0 0 0 0 0.
Definition inc_decrypted (p : Processor) : M Pipe () := count_metrics p 0 1 0 0 0 0.

Definition event_aad (p : Processor) (ev : EncryptedEvent) : gostring :=
  if AADEnabled (pr_cfg p)
  then BuildAAD (AADTemplate (pr_cfg p))
         (mkAAD (ee_TenantID ev) (ee_AppID ev) (ee_TopicID ev) (ee_EventID ev) (ee_Version ev))
  else [].

Definition max_payload (p : Processor) : Z :=
  if decide (MaxPayloadBytes (pr_cfg p) ≤ 0) then 5 * 1024 * 1024 else MaxPayloadBytes (pr_cfg p).

Definition clear_payload (ev : EncryptedEvent) (data : gostring) : DecryptedEventPayload :=
  mkPayload (ee_EventID ev) (ee_TenantID ev) (ee_AppID ev) (ee_TopicID ev) (ee_Type ev) (ee_EntityID ev)
            (ee_Version ev) (ee_OriginUserID ev) (ee_CreatedAt ev) data.

Section processor.
Context `{!GoRange, !KeyUnwrapper}.

(** The body of [DecryptAndBuildFrame] once the key is there. *)
Definition decrypt_with (p : Processor) (ev : EncryptedEvent) (dek : positive)
    : M Pipe (result CryptoErr (option Frame)) :=
  r ← on_mem (DecryptPayload dek (ep_PayloadNonce (ee_Crypto ev)) (ep_Ciphertext (ee_Crypto ev))
                (event_aad p ev) (max_payload p));
  match r with
  | Err e => inc_errors p ;; mret (Err e)
  | Ok plaintext =>
      inc_decrypted p ;;
      data ← on_mem (load plaintext);
      mret (match marshal_payload (clear_payload ev data) with
            | None => Err ErrMarshal
            | Some serializedJSON => Ok (Some (NewDataFrame (ee_Type ev) (ee_EventID ev) serializedJSON))
            end)
  end.

Definition DecryptAndBuildFrame (p : Processor) (ev : EncryptedEvent)
    : M Pipe (result CryptoErr (option Frame)) :=
  if decide (ep_PayloadNonce (ee_Crypto ev) = []) then
    inc_errors p ;; mret (Err ErrMissingPayloadNonce)
  else
    r ← on_mem (unwrap_dek (ToEnvelope ev));
    match r with
    | Err e => inc_errors p ;; mret (Err e)
    | Ok dek =>
        (* defer crypto.Zeroize(dek) *)
        res ← decrypt_with p ev dek;
        on_mem (Zeroize dek) ;;
        mret res
    end.

Definition event_key (p : Processor) (ev : EncryptedEvent) : gostring :=
  if decide (ee_RoutingKey ev = [])
  then BuildKey (pr_router p) (ee_TenantID ev) (ee_AppID ev) (ee_TopicID ev)
  else ee_RoutingKey ev.

Definition HandleEvent (p : Processor) (ev : EncryptedEvent) : M (Hub * Pipe) () :=
  r ← ConditionalBroadcast (event_key p ev) (DecryptAndBuildFrame p ev);
  match r with
  | Err _ => mret ()
  | Ok recipients =>
      on_env (if decide (recipients > 0) then count_metrics p 0 0 1 1 recipients 0
              else count_metrics p 0 0 1 0 0 1)
  end.
End processor.

(** ** Serialised payloads hold no line break *)

Lemma FormatInt_clean v : clean (FormatInt v).
Proof.
  apply Forall_forall. intros c Hc%FormatInt_bytes. revert c Hc. apply Forall_forall. by_decide.
Qed.

Lemma member_clean key v : clean (str key) → clean v → clean (member key v).
Proof. intros Hk Hv. unfold member, clean. rewrite !Forall_app. split_and!; try done; by_decide. Qed.

Lemma member_omitempty_clean key s : clean (str key) → clean (member_omitempty key s).
Proof.
  intros Hk. unfold member_omitempty. case_decide; [by_decide|].
  apply member_clean; [done|apply quote_json_clean].
Qed.

Lemma marshal_payload_clean p out : marshal_payload p = Some out → clean out.
Proof.
  unfold marshal_payload. intros (created & Hc%marshal_time_clean & H)%bind_Some.
  apply bind_Some in H as (data & Hd%marshal_raw_clean & H).
  apply (inj Some) in H. rewrite <- H. unfold clean at 1. rewrite !Forall_app.
  split_and!; try done;
    first [ apply member_clean; [by_decide|first [apply quote_json_clean|apply FormatInt_clean|done]]
          | apply member_omitempty_clean; by_decide | by_decide ].
Qed.

Lemma marshal_payload_line_safe p out : marshal_payload p = Some out → line_safe out.
Proof. intros H%marshal_payload_clean. by apply clean_no_break. Qed.

(** ** Specification of the decryption step *)

Definition set_mem (m : Mem) (s : Pipe) : Pipe :=
  mkPipe m (DecryptErrorsTotal s) (EventsDecryptedTotal s) (EventProcessed s)
         (FanoutTotal s) (FanoutRecipientsTotal s) (EventsNoSubscriberTotal s).

Lemma wp_on_mem {A} (m : M Mem A) (Q : A → Pipe → Prop) s :
  wp m (λ a m', Q a (set_mem m' s)) (mem s) → wp (on_mem m) Q s.
Proof. unfold wp, on_mem. by destruct (m (mem s)) as [[a m']|]. Qed.

Lemma wp_count p e d n f r z (Q : () → Pipe → Prop) s :
  (∀ s', mem s' = mem s → Q () s') → wp (count_metrics p e d n f r z) Q s.
Proof. intros H. apply wp_modify, H. by destruct (pr_metrics p). Qed.

(** The frame built from the key bytes. *)
Definition frame_of_key (p : Processor) (ev : EncryptedEvent) (key : gostring) : result CryptoErr (option Frame) :=
  match decrypt_bytes key (ep_PayloadNonce (ee_Crypto ev)) (ep_Ciphertext (ee_Crypto ev))
          (event_aad p ev) (max_payload p) with
  | Err e => Err e
  | Ok data =>
      match marshal_payload (clear_payload ev data) with
      | None => Err ErrMarshal
      | Some json => Ok (Some (NewDataFrame (ee_Type ev) (ee_EventID ev) json))
      end
  end.

Section specification.
Context `{!GoRange, U : !KeyUnwrapper}.

Lemma decrypt_with_spec p ev dek key s :
  mem_wf (mem s) → bufs (mem s) !! dek = Some key →
  wp (decrypt_with p ev dek) (λ r s', r = frame_of_key p ev key
    ∧ mem_wf (mem s') ∧ bufs (mem s) ⊆ bufs (mem s')) s.
Proof.
  intros Hwf Hk. unfold decrypt_with, frame_of_key. wp_step. apply wp_on_mem.
  eapply wp_mono; [by eapply DecryptPayload_spec|]. intros r m' (Hwf' & Hsub & Hr).
  destruct (decrypt_bytes _ _ _ _ _) as [data|e].
  - destruct Hr as (q & -> & Hb & Hq). wp_step. apply wp_count. intros s' Hs'. simpl in Hs'.
    wp_step. apply wp_on_mem. eapply wp_load; [rewrite Hs', Hb; apply lookup_insert_eq|].
    apply wp_ret. simpl. rewrite Hs'. by destruct (marshal_payload _).
  - destruct Hr as [-> _]. wp_step. apply wp_count. intros s' Hs'. apply wp_ret. simpl in Hs'. by rewrite Hs'.
Qed.

(** What [DecryptAndBuildFrame] does, given what the unwrapper returns. *)
Definition build_post (p : Processor) (ev : EncryptedEvent) (m : Mem)
    (r : result CryptoErr (option Frame)) (m' : Mem) : Prop :=
  mem_wf m' ∧ bufs m ⊆ bufs m' ∧
  if decide (ep_PayloadNonce (ee_Crypto ev) = []) then r = Err ErrMissingPayloadNonce ∧ m' = m
  else match unwrap_dek (ToEnvelope ev) m with
  | None => False
  | Some (Err e, m1) => r = Err e ∧ m' = m1
  | Some (Ok dek, m1) =>
      ∃ key, bufs m1 !! dek = Some key ∧ bufs m' !! dek = Some (zeros (length key)) ∧ r = frame_of_key p ev key
  end.

Lemma DecryptAndBuildFrame_spec p ev s :
  mem_wf (mem s) → wp (DecryptAndBuildFrame p ev) (λ r s', build_post p ev (mem s) r (mem s')) s.
Proof.
  intros Hwf. unfold DecryptAndBuildFrame, build_post. case_decide.
  { wp_step. apply wp_count. intros s' Hs'. apply wp_ret. by rewrite Hs'. }
  destruct (wp_run _ _ _ (unwrap_dek_promise (ToEnvelope ev) (mem s) Hwf)) as (r & m1 & E & Hwf1 & Hsub & Hr).
  rewrite E. wp_step. apply wp_on_mem. eapply wp_of_run; [exact E|]. destruct r as [dek|e].
  - destruct Hr as (Hn & key & Hb). assert (bufs m1 !! dek = Some key) as Hk by (rewrite Hb; apply lookup_insert_eq).
    wp_step. eapply wp_mono; [by apply decrypt_with_spec|].
    intros r s2 (-> & Hwf2 & Hsub2). simpl in Hsub2. wp_step. apply wp_on_mem.
    assert (bufs (mem s2) !! dek = Some key) as Hk2 by by eapply lookup_weaken.
    eapply wp_of_run; [by apply Zeroize_spec|]. apply wp_ret. simpl. split_and!.
    + apply insert_wf; eauto.
    + rewrite map_subseteq_spec. intros q b Hq. rewrite lookup_insert_ne by congruence.
      eapply lookup_weaken, Hsub2. by eapply lookup_weaken.
    + exists key. rewrite lookup_insert_eq. done.
  - wp_step. apply wp_count. intros s' Hs'. apply wp_ret. simpl in Hs'. by rewrite Hs'.
Qed.

Lemma build_not_nil p ev m m' : ¬ build_post p ev m (Ok None) m'.
Proof.
  intros (_ & _ & Hp). case_decide; [by destruct Hp|].
  destruct (unwrap_dek _ _) as [[[dek|e] m1]|]; [|by destruct Hp|done].
  destruct Hp as (key & _ & _ & Hf). unfold frame_of_key in Hf. by repeat case_match.
Qed.

(** C1: [DecryptAndBuildFrame] always returns, and whatever its outcome
    (success, wrong key size, bad base64, failed authentication, payload too
    large, serialisation error) the key buffer the unwrapper handed over is
    full of zeros afterwards; buffers that existed before are untouched; an
    event without payload nonce is refused before any unwrapping. *)
Theorem dek_always_erased p ev s :
  mem_wf (mem s) →
  ∃ r s', DecryptAndBuildFrame p ev s = Some (r, s') ∧ bufs (mem s) ⊆ bufs (mem s')
    ∧ (ep_PayloadNonce (ee_Crypto ev) = [] → r = Err ErrMissingPayloadNonce ∧ mem s' = mem s)
    ∧ ∀ dek m1, ep_PayloadNonce (ee_Crypto ev) ≠ [] → unwrap_dek (ToEnvelope ev) (mem s) = Some (Ok dek, m1) →
        ∃ key, bufs m1 !! dek = Some key ∧ bufs (mem s') !! dek = Some (zeros (length key)).
Proof.
  intros Hwf. destruct (wp_run _ _ _ (DecryptAndBuildFrame_spec p ev s Hwf)) as (r & s' & E & _ & Hsub & Hp).
  exists r, s'. split; [done|]. split; [done|]. case_decide; [naive_solver|]. split; [done|].
  intros dek m1 _ Hu. rewrite Hu in Hp. naive_solver.
Qed.

(** C13: a frame built from a decrypted event reads, on the subscriber's side,
    as exactly one event whose data is the serialised clear payload: neither
    the plaintext nor any field of the event can inject a line, a field or a
    second event into the stream. *)
Theorem decrypted_frame_is_one_event p ev s s' frame :
  mem_wf (mem s) → DecryptAndBuildFrame p ev s = Some (Ok (Some frame), s') →
  ∃ data json, marshal_payload (clear_payload ev data) = Some json
    ∧ frame = NewDataFrame (ee_Type ev) (ee_EventID ev) json
    ∧ sse_parse (Data frame) = [frame_event (ee_Type ev) (ee_EventID ev) json []].
Proof.
  intros Hwf E. pose proof (DecryptAndBuildFrame_spec p ev s Hwf) as Hp. unfold wp in Hp. rewrite E in Hp.
  destruct Hp as (_ & _ & Hp). case_decide; [by destruct Hp|].
  destruct (unwrap_dek _ _) as [[[dek|e] m1]|]; [|by destruct Hp|done].
  destruct Hp as (key & _ & _ & Hf). unfold frame_of_key in Hf.
  destruct (decrypt_bytes _ _ _ _ _) as [data|]; [|done].
  destruct (marshal_payload (clear_payload ev data)) as [json|] eqn:Ej; [|done].
  assert (frame = NewDataFrame (ee_Type ev) (ee_EventID ev) json) as -> by congruence. clear Hf. exists data, json. split; [done|]. split; [done|].
  unfold sse_parse, sse_init. by rewrite read_data_frame by by eapply marshal_payload_line_safe.
Qed.

(** End to end: an event whose payload a producer sealed under the key
    that the unwrapper returns, with the additional data of its own routing
    context, yields the frame of its original payload; one larger than the
    bound yields [ErrPayloadTooLarge]. *)
Theorem sealed_event_delivered p ev s dek key m1 nonce data json :
  mem_wf (mem s) →
  unwrap_dek (ToEnvelope ev) (mem s) = Some (Ok dek, m1) → bufs m1 !! dek = Some key →
  length key = 32%nat → length nonce = 12%nat → Z.of_nat (length data) ≤ (2 ^ 32 - 2) * 16 →
  ep_PayloadNonce (ee_Crypto ev) = EncodeToString nonce →
  ep_Ciphertext (ee_Crypto ev) = EncodeToString (Seal key nonce data (event_aad p ev)) →
  marshal_payload (clear_payload ev data) = Some json →
  ∃ s', DecryptAndBuildFrame p ev s =
    Some (if decide (Z.of_nat (length data) ≤ max_payload p)
          then Ok (Some (NewDataFrame (ee_Type ev) (ee_EventID ev) json))
          else Err ErrPayloadTooLarge, s').
Proof.
  intros Hwf Hu Hk Hkl Hnl Hdl Hn Hc Hj.
  destruct (wp_run _ _ _ (DecryptAndBuildFrame_spec p ev s Hwf)) as (r & s' & E & _ & _ & Hp).
  exists s'. rewrite E. do 2 f_equal. rewrite decide_False in Hp.
  2:{ rewrite Hn. by destruct nonce as [|? [|? [|]]]. }
  rewrite Hu in Hp. destruct Hp as (key' & Hk' & _ & ->). rewrite Hk in Hk'. simplify_eq.
  unfold frame_of_key. rewrite Hn, Hc, decrypt_bytes_Seal by done.
  assert (0 < max_payload p) by (unfold max_payload; case_decide; lia).
  destruct (decide (Z.of_nat (length data) ≤ max_payload p)).
  - rewrite decide_False by lia. by rewrite Hj.
  - by rewrite decide_True by lia.
Qed.

(** An event nobody listens to costs nothing: no key is unwrapped and
    nothing is decrypted; only the counters of processed and of unheard
    events move. *)
Theorem unheard_event_no_crypto L h p ev s :
  hub_inv L h → (∀ c, c ∈ L → event_key p ev ∉ Topics c) →
  ∃ s', HandleEvent p ev (h, s) = Some ((), (h, s')) ∧ mem s' = mem s
    ∧ DecryptErrorsTotal s' = DecryptErrorsTotal s ∧ EventsDecryptedTotal s' = EventsDecryptedTotal s
    ∧ EventsNoSubscriberTotal s' = EventsNoSubscriberTotal s + (if pr_metrics p then 1 else 0).
Proof.
  intros Hi Hno. unfold HandleEvent, mbind, M_bind.
  rewrite (broadcast_no_subscriber L h (event_key p ev)).
  - unfold on_env, count_metrics, modify. simpl. eexists. split; [done|].
    destruct (pr_metrics p); simpl; split_and!; lia || done.
  - done.
  - by apply subscribers_nil.
Qed.

(** An event with subscribers is decrypted once and its frame offered to
    each of them and to nobody else; when decryption fails no queue changes,
    the event is dropped and the lane goes on; the fan-out counters record
    how many subscribers took the frame. *)
Theorem handle_event_outcome L h p ev s :
  hub_inv L h → mem_wf (mem s) → HubBroadcast.subscribers L (event_key p ev) ≠ [] →
  ∃ r s1 h' s', DecryptAndBuildFrame p ev s = Some (r, s1)
    ∧ HandleEvent p ev (h, s) = Some ((), (h', s')) ∧ hub_inv L h' ∧ mem s' = mem s1
    ∧ match r with
      | Err _ => h' = h ∧ s' = s1
      | Ok None => False
      | Ok (Some frame) =>
          let n := Z.of_nat (count (λ c, accepts h frame c = true) (HubBroadcast.subscribers L (event_key p ev))) in
          FanoutRecipientsTotal s' = FanoutRecipientsTotal s1 + (if pr_metrics p then n else 0)
          ∧ ∀ c st, c ∈ L → store h !! ptr c = Some st →
              store h' !! ptr c = Some (if decide (event_key p ev ∈ Topics c) then (enqueue_result c frame st).2 else st)
      end.
Proof.
  intros Hi Hwf Hs.
  destruct (wp_run _ _ _ (DecryptAndBuildFrame_spec p ev s Hwf)) as (r & s1 & E & Hpost).
  exists r, s1. unfold HandleEvent, mbind, M_bind. destruct r as [[frame|]|e].
  - destruct (broadcast_delivers L h (event_key p ev) (DecryptAndBuildFrame p ev) s s1 frame Hi Hs E)
      as (h1 & h2 & -> & Hd & Hi1 & Hi2 & Hst & _).
    set (n := Z.of_nat _).
    assert (∀ c st, c ∈ L → store h !! ptr c = Some st →
              store h2 !! ptr c = Some (if decide (event_key p ev ∈ Topics c) then (enqueue_result c frame st).2 else st)).
    { intros c st Hc Hst'. rewrite Hst. by apply (delivered_to L h). }
    unfold on_env, count_metrics, modify. cbn [fst snd].
    destruct (decide (n > 0)); exists h2; eexists; (split; [exact E|]); (split; [reflexivity|]);
      (split; [done|]); destruct (pr_metrics p); simpl; (split; [done|]); (split; [lia|done]).
  - by apply build_not_nil in Hpost.
  - destruct (broadcast_subscribers L h (event_key p ev) (DecryptAndBuildFrame p ev) s Hi Hs) as (rs & _ & ->).
    rewrite E. simpl. eauto 10.
Qed.
End specification.

(** ** A concrete event *)
Definition demo_processor : Processor :=
  mkProcessor default_router (mkCryptoConfig true DefaultAADTemplate 0) true.
Definition demo_unwrapper : KeyUnwrapper := mock_unwrapper (NewMockUnwrapper case16_key).
Definition demo_time : Time := mkTime 2024 2 29 12 0 0 0 0.
Definition demo_data : gostring := jtext "{ 'total' : 42 }".

Definition demo_event_ciphertext : gostring :=
  Eval vm_compute in
    EncodeToString (Seal case16_key case16_nonce demo_data
      (BuildAAD DefaultAADTemplate (mkAAD (str "acme") (str "crm") (str "orders") (str "e-1") 3))).

Definition demo_event : EncryptedEvent :=
  mkEncryptedEvent (str "realtime-event-v1") (str "e-1") (str "acme") (str "crm") (str "orders")
    (str "order.created") [] 3 [] [] demo_time
    (mkEncryptedPayload [] [] 1 (str "a2Vt") (str "d3JhcHBlZA==") [] (EncodeToString case16_nonce) demo_event_ciphertext)
    [] (str "chat").

Definition demo_pipe : Pipe := mkPipe (mkMem ∅ 1) 0 0 0 0 0 0.

Lemma demo_pipe_wf : mem_wf (mem demo_pipe).
Proof. intros p [b Hb]. discriminate Hb. Qed.

Definition demo_json : gostring :=
  jtext "{'event_id':'e-1','tenant_id':'acme','app_id':'crm','topic_id':'orders','type':'order.created','version':3,'created_at':'2024-02-29T12:00:00Z','data':{'total':42}}".

Lemma dek_always_erased_witness :
  ∃ r s', @DecryptAndBuildFrame demo_unwrapper demo_processor demo_event demo_pipe = Some (r, s')
    ∧ ∃ key : gostring, bufs (mem s') !! 1%positive = Some (zeros (length key)).
Proof.
  destruct (@dek_always_erased demo_unwrapper demo_processor demo_event demo_pipe demo_pipe_wf)
    as (r & s' & E & _ & _ & H).
  exists r, s'. split; [exact E|].
  destruct (H 1%positive (mkMem {[1%positive := case16_key]} 2)) as (key & _ & Hz).
  - by_decide.
  - vm_compute. reflexivity.
  - exists key. exact Hz.
Defined.

Lemma decrypted_frame_is_one_event_witness :
  ∃ data json, marshal_payload (clear_payload demo_event data) = Some json
    ∧ sse_parse (Data (NewDataFrame (str "order.created") (str "e-1") demo_json))
      = [frame_event (str "order.created") (str "e-1") json []].
Proof.
  destruct (@decrypted_frame_is_one_event demo_unwrapper demo_processor demo_event demo_pipe
    (mkPipe (mkMem (<[1%positive := zeros 32]> {[2%positive := demo_data]}) 3) 0 1 0 0 0 0)
    (NewDataFrame (str "order.created") (str "e-1") demo_json) demo_pipe_wf) as (data & json & Hj & _ & Hp).
  - vm_compute. reflexivity.
  - exists data, json. split; [exact Hj|exact Hp].
Defined.

Lemma sealed_event_delivered_witness :
  ∃ s', @DecryptAndBuildFrame demo_unwrapper demo_processor demo_event demo_pipe
    = Some (Ok (Some (NewDataFrame (str "order.created") (str "e-1") demo_json)), s').
Proof.
  apply (@sealed_event_delivered demo_unwrapper demo_processor demo_event demo_pipe 1%positive case16_key
    (mkMem {[1%positive := case16_key]} 2) case16_nonce demo_data demo_json).
  - exact demo_pipe_wf.
  - vm_compute. reflexivity.
  - vm_compute. reflexivity.
  - vm_compute. reflexivity.
  - vm_compute. reflexivity.
  - vm_compute. discriminate.
  - reflexivity.
  - vm_compute. reflexivity.
  - vm_compute. reflexivity.
Defined.

Lemma unheard_event_no_crypto_witness :
  ∃ s', @HandleEvent range_canonical demo_unwrapper demo_processor demo_event (NewHub 4 demo_limits, demo_pipe)
          = Some ((), (NewHub 4 demo_limits, s')) ∧ mem s' = mem demo_pipe.
Proof.
  destruct (@unheard_event_no_crypto range_canonical demo_unwrapper [] (NewHub 4 demo_limits)
    demo_processor demo_event demo_pipe) as (s' & E & H & _).
  - apply NewHub_inv. lia.
  - intros c Hc. by apply elem_of_nil in Hc.
  - exists s'. split; [exact E|exact H].
Defined.

Lemma handle_event_outcome_witness :
  ∃ h' s', @HandleEvent range_canonical demo_unwrapper demo_processor demo_event (demo_hub, demo_pipe)
             = Some ((), (h', s')) ∧ hub_inv [demo_client] h'.
Proof.
  destruct (@handle_event_outcome range_canonical demo_unwrapper [demo_client] demo_hub
    demo_processor demo_event demo_pipe demo_hub_inv demo_pipe_wf ltac:(by_decide))
    as (r & s1 & h' & s' & _ & E & Hi & _).
  exists h', s'. split; [exact E|exact Hi].
Defined.
