(* ===== verification/Auth.v ===== *)
(** * internal/auth: ticket validation

    validator.go (capabilities and errors), jwt.go (configuration of the JWT
    parser and extraction of the capability) and mock.go.  The JWT library and
    the X.509 parser are parameters; [jwt_documented] states what the library
    documents of the tokens it accepts.  Times are nanoseconds. *)

From S2P Require Import Prelude GoStrings Base64.

Local Open Scope Z_scope.

(** ** validator.go *)
Inductive AuthErr :=
| ErrMissingTicket
| ErrInvalidTicket
| ErrExpiredTicket
| ErrInvalidAudience
| ErrInvalidIssuer
| ErrMissingClaims.

Record Capability := mkCapability {
  cap_UserID : gostring;
  cap_TenantID : gostring;
  cap_AppID : gostring;
  cap_Topics : list gostring;
  cap_Audience : gostring;
  cap_Issuer : gostring;
  cap_ExpiresAt : option Z;     (* the zero time is [None] *)
}.

(** ** jwt.go: configuration *)
Record JWTConfig := mkJWTConfig {
  jc_Algorithm : gostring;
  jc_PublicKeyFile : gostring;
  jc_PublicKeyBytes : gostring;
  jc_SecretKeyBytes : gostring;
  jc_Audience : gostring;
  jc_Issuer : gostring;
  jc_ClockSkew : Z;
  jc_RequireExp : bool;
  jc_RequireAud : bool;
  jc_RequireIss : bool;
}.

(** The parser options in use. *)
Record ParserOpts := mkParserOpts {
  leeway : Z;
  validMethods : list gostring;
  expirationRequired : bool;
  wantAudience : option gostring;
  wantIssuer : option gostring;
}.

(** The verification keys: what [key any] may hold. *)
Inductive VerifKey :=
| Ed25519Key (b : gostring)
| RSAKey (b : gostring)
| ECKey (b : gostring)
| HMACKey (b : gostring).

Record JWTValidator := mkJWTValidator { v_key : VerifKey; v_opts : ParserOpts }.

Inductive JWTConfigErr :=
| ErrKeyFileUnreadable | ErrMissingKey | ErrKeyParse | ErrUnsupportedAlgorithm.

Definition second : Z := 1000000000.

(** base64.RawStdEncoding: no padding, a last group of two or three digits. *)
Fixpoint raw_quanta (s : gostring) : option gostring :=
  match s with
  | [] => Some []
  | [a; b] => b64_quanta [a; b; PAD; PAD]
  | [a; b; c] => if decide (c = PAD) then None else b64_quanta [a; b; c; PAD]
  | a :: b :: c :: d :: r =>
      if decide (c = PAD ∨ d = PAD) then None
      else g ← b64_quanta [a; b; c; d]; rest ← raw_quanta r; Some (g ++ rest)
  | _ => None
  end.
Definition RawDecodeString (s : gostring) : option gostring :=
  raw_quanta (filter (λ c, c ≠ CR ∧ c ≠ LF) s).

(** The URL-safe alphabet has [-] and [_] in place of [+] and [/]. *)
Definition url_to_std (s : gostring) : option gostring :=
  if decide ("+"%char ∈ s ∨ "/"%char ∈ s) then None
  else Some ((λ c, if decide (c = "-"%char) then "+"%char else if decide (c = "_"%char) then "/"%char else c) <$> s).
Definition URLDecodeString (s : gostring) : option gostring := s ← url_to_std s; DecodeString s.
Definition RawURLDecodeString (s : gostring) : option gostring := s ← url_to_std s; RawDecodeString s.

Definition PublicKeySize : nat := 32.

Section keys.
(** [pem.Decode], [x509.ParsePKIXPublicKey] (the Ed25519 key it holds, if that
    is its kind) and the PEM parsers of the JWT library. *)
Context (pem_decode : gostring → option gostring).
Context (parse_pkix : gostring → option (option gostring)).
Context (parse_rsa_pem parse_ec_pem : gostring → option gostring).
(** [os.ReadFile] *)
Context (read_file : gostring → option gostring).

(** The loop over the encodings. *)
Fixpoint try_encodings (encs : list (gostring → option gostring)) (trimmed : gostring) : option gostring :=
  match encs with
  | [] => None
  | enc :: encs' =>
      match enc trimmed with
      | Some decoded =>
          if decide (length decoded = PublicKeySize) then Some decoded
          else match parse_pkix decoded with
               | Some (Some edPub) => Some edPub
               | _ => try_encodings encs' trimmed
               end
      | None => try_encodings encs' trimmed
      end
  end.

Definition parseEd25519PublicKey (keyBytes : gostring) : option gostring :=
  match pem_decode keyBytes with
  | Some block => match parse_pkix block with Some (Some edPub) => Some edPub | _ => None end
  | None =>
      if decide (length keyBytes = PublicKeySize) then Some keyBytes
      else try_encodings [DecodeString; RawDecodeString; URLDecodeString; RawURLDecodeString] (TrimSpace keyBytes)
  end.

Definition key_bytes (cfg : JWTConfig) : result JWTConfigErr gostring :=
  if decide (jc_PublicKeyBytes cfg ≠ []) then Ok (jc_PublicKeyBytes cfg)
  else if decide (jc_PublicKeyFile cfg ≠ []) then
    match read_file (jc_PublicKeyFile cfg) with Some data => Ok data | None => Err ErrKeyFileUnreadable end
  else Ok [].

(** The [switch] on the algorithm: canonical name and verification key. *)
Definition select_key (cfg : JWTConfig) (alg keyBytes : gostring) : result JWTConfigErr (gostring * VerifKey) :=
  let up := ToUpper alg in
  let with_key (parse : gostring → option gostring) (mk : gostring → VerifKey) (name : gostring) :=
    if decide (keyBytes = []) then Err ErrMissingKey
    else match parse keyBytes with Some pk => Ok (name, mk pk) | None => Err ErrKeyParse end in
  if decide (up = str "EDDSA") then with_key parseEd25519PublicKey Ed25519Key (str "EdDSA")
  else if decide (up ∈ [str "RS256"; str "RS384"; str "RS512"]) then with_key parse_rsa_pem RSAKey up
  else if decide (up ∈ [str "ES256"; str "ES384"; str "ES512"]) then with_key parse_ec_pem ECKey up
  else if decide (up ∈ [str "HS256"; str "HS384"; str "HS512"]) then
    if decide (jc_SecretKeyBytes cfg = [] ∧ keyBytes = []) then Err ErrMissingKey
    else Ok (up, HMACKey (if decide (jc_SecretKeyBytes cfg ≠ []) then jc_SecretKeyBytes cfg else keyBytes))
  else Err ErrUnsupportedAlgorithm.

Definition NewJWTValidator (cfg : JWTConfig) : result JWTConfigErr JWTValidator :=
  let alg := if decide (jc_Algorithm cfg = []) then str "EdDSA" else jc_Algorithm cfg in
  let skew := if decide (jc_ClockSkew cfg ≤ 0) then 30 * second else jc_ClockSkew cfg in
  match key_bytes cfg with
  | Err e => Err e
  | Ok keyBytes =>
      match select_key cfg alg keyBytes with
      | Err e => Err e
      | Ok (canonicalAlg, key) =>
          Ok (mkJWTValidator key
                (mkParserOpts skew [canonicalAlg] (jc_RequireExp cfg)
                   (if jc_RequireAud cfg && bool_decide (jc_Audience cfg ≠ []) then Some (jc_Audience cfg) else None)
                   (if jc_RequireIss cfg && bool_decide (jc_Issuer cfg ≠ []) then Some (jc_Issuer cfg) else None)))
      end
  end.
End keys.

(** ** jwt.go: validation *)

(** The claims of a parsed token. *)
Record CustomClaims := mkClaims {
  cl_Subject : gostring;
  cl_Issuer : gostring;
  cl_Audience : list gostring;
  cl_ExpiresAt : option Z;
  cl_TenantID : gostring;
  cl_AppID : gostring;
  cl_Topics : list gostring;
}.

(** A parsed token: its algorithm, claims and validity flag. *)
Record Token := mkToken { tk_alg : gostring; tk_claims : CustomClaims; tk_valid : bool }.

(** The library's error wraps any of its sentinel errors. *)
Record JWTErr := mkJWTErr { je_expired : bool; je_audience : bool; je_issuer : bool }.

Section validate.
(** [jwt.ParseWithClaims] at a given time. *)
Context (ParseWithClaims : Z → VerifKey → ParserOpts → gostring → result JWTErr Token).

Definition check_claims (c : Capability) : result AuthErr Capability :=
  if decide (cap_UserID c = []) then Err ErrMissingClaims
  else if decide (cap_TenantID c = []) then Err ErrMissingClaims
  else if decide (cap_Topics c = []) then Err ErrMissingClaims
  else Ok c.

Definition Validate (now : Z) (v : JWTValidator) (rawTicket : gostring) : result AuthErr Capability :=
  if decide (rawTicket = []) then Err ErrMissingTicket
  else match ParseWithClaims now (v_key v) (v_opts v) rawTicket with
  | Err e =>
      if je_expired e then Err ErrExpiredTicket
      else if je_audience e then Err ErrInvalidAudience
      else if je_issuer e then Err ErrInvalidIssuer
      else Err ErrInvalidTicket
  | Ok token =>
      if negb (tk_valid token) then Err ErrInvalidTicket
      else
        let cl := tk_claims token in
        check_claims (mkCapability (cl_Subject cl) (cl_TenantID cl) (cl_AppID cl) (cl_Topics cl)
          (match cl_Audience cl with a :: _ => a | [] => [] end) (cl_Issuer cl) (cl_ExpiresAt cl))
  end.

(** What the library documents of an accepted token: its algorithm is one of
    the valid methods; an expiry, when present, is not past by more than the
    leeway, and is present when required; the wanted audience is among the
    token's; the wanted issuer is the token's. *)
Definition jwt_documented : Prop :=
  ∀ now key opts raw t, ParseWithClaims now key opts raw = Ok t →
    tk_alg t ∈ validMethods opts
    ∧ (∀ e, cl_ExpiresAt (tk_claims t) = Some e → now < e + leeway opts)
    ∧ (expirationRequired opts = true → is_Some (cl_ExpiresAt (tk_claims t)))
    ∧ (∀ a, wantAudience opts = Some a → a ∈ cl_Audience (tk_claims t))
    ∧ (∀ i, wantIssuer opts = Some i → cl_Issuer (tk_claims t) = i).
End validate.

(** The capability an accepted token gives. *)
Lemma Validate_ok parse now v raw c :
  Validate parse now v raw = Ok c →
  ∃ t, parse now (v_key v) (v_opts v) raw = Ok t ∧ tk_valid t = true ∧ raw ≠ []
    ∧ cap_UserID c = cl_Subject (tk_claims t) ∧ cap_TenantID c = cl_TenantID (tk_claims t)
    ∧ cap_Topics c = cl_Topics (tk_claims t) ∧ cap_ExpiresAt c = cl_ExpiresAt (tk_claims t)
    ∧ cap_Issuer c = cl_Issuer (tk_claims t) ∧ cap_AppID c = cl_AppID (tk_claims t)
    ∧ cap_UserID c ≠ [] ∧ cap_TenantID c ≠ [] ∧ cap_Topics c ≠ [].
Proof.
  unfold Validate, check_claims. case_decide; [done|].
  destruct (parse now (v_key v) (v_opts v) raw) as [t|e]; [|by repeat case_match].
  destruct (tk_valid t) eqn:Ev; simpl; [|done]. intros Hc. exists t.
  repeat case_decide; simplify_eq/=; done.
Qed.

(** The method the parser insists on is the configured algorithm. *)
Lemma select_key_alg pem pkix rsa ec cfg alg kb name key :
  select_key pem pkix rsa ec cfg alg kb = Ok (name, key) → ToUpper name = ToUpper alg.
Proof.
  unfold select_key. intros E.
  assert (∀ l, Forall (λ x, ToUpper x = x) l → ToUpper alg ∈ l → ToUpper (ToUpper alg) = ToUpper alg) as Hid.
  { intros l. rewrite Forall_forall. auto. }
  repeat case_decide; repeat case_match; simplify_eq; try done;
    (eapply Hid; [|by match goal with H : _ ∈ _ |- _ => exact H end]; by_decide).
Qed.


(** ** A parser that accepts one ticket *)
Definition demo_claims : CustomClaims :=
  mkClaims (str "bob") (str "idp") [str "sse"] (Some (100 * second)) (str "acme") (str "crm") [str "orders"].
Definition demo_parse (now : Z) (key : VerifKey) (opts : ParserOpts) (raw : gostring) : result JWTErr Token :=
  match validMethods opts with
  | alg :: _ =>
      if decide (raw = str "ok" ∧ now < 100 * second + leeway opts
                 ∧ (wantAudience opts = None ∨ wantAudience opts = Some (str "sse"))
                 ∧ (wantIssuer opts = None ∨ wantIssuer opts = Some (str "idp")))
      then Ok (mkToken alg demo_claims true) else Err (mkJWTErr true false false)
  | [] => Err (mkJWTErr false false false)
  end.

Lemma demo_parse_documented : jwt_documented demo_parse.
Proof.
  intros now key opts raw t. unfold demo_parse. destruct (validMethods opts) as [|alg ms]; [done|].
  case_decide as Hd; [|done]. intros [= <-]. destruct Hd as (_ & Hn & Ha & Hi). simpl. split_and!.
  - left.
  - intros e [= <-]. done.
  - eauto.
  - intros a E. destruct Ha as [Ha|Ha]; [congruence|]. assert (a = str "sse") as -> by congruence. by_decide.
  - intros i E. destruct Hi as [Hi|Hi]; [congruence|]. by assert (i = str "idp") as -> by congruence.
Qed.

Definition demo_jwt_config : JWTConfig :=
  mkJWTConfig (str "eddsa") [] (replicate 32 "k"%char) [] (str "sse") (str "idp") 0 true true true.


(** [ErrMissingClaims] announces that tenant, application and topics are
    mandatory, but a ticket without application is accepted. *)
Theorem ticket_without_app_accepted :
  ∃ parse v c, jwt_documented parse ∧ Validate parse 0 v (str "ok") = Ok c ∧ cap_AppID c = [].
Proof.
  exists (λ now key opts raw,
    match validMethods opts, wantAudience opts, wantIssuer opts with
    | [alg], None, None =>
        if decide (now < 1 + leeway opts)
        then Ok (mkToken alg (mkClaims (str "bob") [] [] (Some 1) (str "acme") [] [str "orders"]) true)
        else Err (mkJWTErr true false false)
    | _, _, _ => Err (mkJWTErr false false false)
    end).
  exists (mkJWTValidator (HMACKey (str "s")) (mkParserOpts (30 * second) [str "HS256"] true None None)).
  eexists. split; [|split; [vm_compute; reflexivity|reflexivity]].
  intros now key opts raw t. repeat case_match; try done. intros [= <-]. simpl.
  split_and!; try done; try (by intros e [= <-]); eauto; left.
Qed.

(** ** mock.go *)
Record MockValidator := mkMockValidator {
  ValidTickets : gmap gostring Capability;
  DefaultCap : option Capability;
  mv_FailNext : bool;
  mv_HealthErr : option AuthErr;
}.

Definition NewMockValidator (now : Z) : MockValidator :=
  mkMockValidator ∅ (Some (mkCapability (str "user-test-1") (str "tenant-default") (str "app-default")
    [str "topic-1"; str "topic-2"] (str "sse-gateway") [] (Some (now + 3600 * second)))) false None.

Definition mock_Validate (now : Z) (m : MockValidator) (rawTicket : gostring) : result AuthErr Capability :=
  if mv_FailNext m then Err ErrInvalidTicket
  else match ValidTickets m !! rawTicket with
  | Some c =>
      match cap_ExpiresAt c with
      | Some e => if decide (now > e) then Err ErrExpiredTicket else Ok c
      | None => Ok c
      end
  | None => match DefaultCap m with Some c => Ok c | None => Err ErrInvalidTicket end
  end.

(** [Health] of the two validators; [None] is the nil error. *)
Definition mock_validator_Health (m : MockValidator) : option AuthErr := mv_HealthErr m.
Definition jwt_Health (key : option VerifKey) : option gostring :=
  match key with None => Some (str "validateur JWT sans clé active") | Some _ => None end.

(** The mock the program builds keeps the promise of the tickets it grants. *)
Lemma mock_Validate_new now0 now raw c :
  mock_Validate now (NewMockValidator now0) raw = Ok c → cap_UserID c ≠ [] ∧ cap_TenantID c ≠ [] ∧ cap_Topics c ≠ [].
Proof. unfold mock_Validate. cbn. rewrite lookup_empty. by intros [= <-]. Qed.
