(* ===== verification/ApiHttp.v ===== *)
(** * internal/api: helpers, middlewares and rate limiting

    helpers.go (client address extraction, responses), middleware.go (trace
    identifiers, response interception) and ratelimit.go.  Addresses and blocks
    are those of [NetAddr.v]; the token bucket of golang.org/x/time/rate is a
    parameter. *)

From S2P Require Import Prelude GoStrings NetAddr Json.

Local Open Scope Z_scope.

Record Request := mkRequest {
  rq_Method : gostring;
  rq_RemoteAddr : gostring;
  rq_Header : gmap gostring gostring;   (* canonical names; first value *)
  rq_Query : gmap gostring gostring;
}.
Definition header (r : Request) (name : string) : gostring := default [] (rq_Header r !! str name).

(** ** helpers.go: the client's address *)
Definition isIPInCIDRs (ip : option IP) (cidrs : list gostring) : bool :=
  match ip with
  | None => false
  | Some ip => existsb (λ cidr, InCIDR cidr ip) cidrs
  end.

(** The loop over the parts of X-Forwarded-For, from the last to the first. *)
Fixpoint scan_forwarded (trustedCIDRs : list gostring) (parts_rev : list gostring) : option gostring :=
  match parts_rev with
  | [] => None
  | part :: rest =>
      let candidate := TrimSpace part in
      match ParseIP candidate with
      | None => scan_forwarded trustedCIDRs rest
      | Some parsed =>
          if bool_decide (trustedCIDRs ≠ []) && isIPInCIDRs (Some parsed) trustedCIDRs
          then scan_forwarded trustedCIDRs rest
          else Some candidate
      end
  end.

Definition extractClientIP (r : Request) (trustProxy : bool) (trustedCIDRs : list gostring) : gostring :=
  let remoteIPStr := default (rq_RemoteAddr r) (SplitHostPort (rq_RemoteAddr r)) in
  if negb trustProxy then remoteIPStr
  else if bool_decide (trustedCIDRs ≠ []) && negb (isIPInCIDRs (ParseIP remoteIPStr) trustedCIDRs)
  then remoteIPStr
  else
    let xff := header r "X-Forwarded-For" in
    let from_xff := if decide (xff = []) then None
                    else scan_forwarded trustedCIDRs (rev (Split xff ","%char)) in
    match from_xff with
    | Some candidate => candidate
    | None =>
        let xrip := header r "X-Real-Ip" in
        let clientIP := TrimSpace xrip in
        if bool_decide (xrip ≠ []) && bool_decide (is_Some (ParseIP clientIP)) then clientIP else remoteIPStr
    end.

(** A part that the scan passes over: not an address, or a trusted proxy. *)
Definition passed_over (trustedCIDRs : list gostring) (part : gostring) : Prop :=
  ∀ ip, ParseIP (TrimSpace part) = Some ip → isIPInCIDRs (Some ip) trustedCIDRs = true.

Lemma scan_forwarded_skip cidrs skipped rest :
  cidrs ≠ [] → Forall (passed_over cidrs) skipped →
  scan_forwarded cidrs (skipped ++ rest) = scan_forwarded cidrs rest.
Proof.
  intros Hc. induction 1 as [|part l Hp _ IH]; [done|]. cbn [app scan_forwarded].
  destruct (ParseIP (TrimSpace part)) as [ip|] eqn:E; [|done].
  by rewrite (Hp _ E), bool_decide_eq_true_2.
Qed.

(** C37: a client cannot choose the address it is rate-limited under.  A request
    from outside the trusted networks is known by its own address, whatever
    headers it sends; behind trusted proxies the address is the last element of
    X-Forwarded-For that is not itself a trusted proxy, whatever the client
    wrote to the left of it. *)
Theorem client_ip_not_spoofable r cidrs forged client proxies ip :
  cidrs ≠ [] →
  let remote := default (rq_RemoteAddr r) (SplitHostPort (rq_RemoteAddr r)) in
  (isIPInCIDRs (ParseIP remote) cidrs = false → extractClientIP r true cidrs = remote)
  ∧ (isIPInCIDRs (ParseIP remote) cidrs = true →
     Split (header r "X-Forwarded-For") ","%char = forged ++ [client] ++ proxies →
     header r "X-Forwarded-For" ≠ [] →
     Forall (passed_over cidrs) proxies →
     ParseIP (TrimSpace client) = Some ip → isIPInCIDRs (Some ip) cidrs = false →
     extractClientIP r true cidrs = TrimSpace client).
Proof.
  intros Hc remote. unfold extractClientIP. fold remote. rewrite (bool_decide_eq_true_2 (cidrs ≠ [])) by done.
  cbn [andb negb]. split; [by intros ->|].
  intros -> Hs Hx Hp Hip Hout. rewrite decide_False by done. rewrite Hs, !rev_app_distr. cbn [rev app negb].
  rewrite <- (assoc_L (++)). rewrite scan_forwarded_skip by (done || by apply Forall_rev).
  cbn [app scan_forwarded]. rewrite Hip, bool_decide_eq_true_2 by done. by rewrite Hout.
Qed.

(** When proxies are not trusted, forwarding headers are ignored. *)
Theorem untrusted_headers_ignored r cidrs h q :
  extractClientIP r false cidrs = extractClientIP (mkRequest (rq_Method r) (rq_RemoteAddr r) h q) false cidrs.
Proof. reflexivity. Qed.

(** The address and the prefix length of a block, when it can be read. *)
Definition block_of (cidr : gostring) : option (list Z * Z) :=
  '(addr, mask) ← CutByte "/"%char cidr; a ← ParseAddr addr; n ← prefix_length mask;
  if decide (n ≤ 8 * Z.of_nat (length a)) then Some (a, n) else None.

Lemma InCIDR_block cidr ip :
  (∀ a n, block_of cidr = Some (a, n) → take 12 a ≠ v4InV6Prefix) → length ip = 16%nat → Forall byte_ok ip →
  InCIDR cidr ip = true ↔ let b := default ip (To4 ip) in ∃ a n, block_of cidr = Some (a, n) ∧ length b = length a ∧ prefix n b = prefix n a.
Proof.
  intros Hmap Hl Hb. simpl. destruct (block_of cidr) as [[a n]|] eqn:E.
  - pose proof E as E'. unfold block_of in E'. apply bind_Some in E' as ([addr mask] & Hc & E'). apply bind_Some in E' as (a' & Ha & E').
    apply bind_Some in E' as (n' & Hn & E'). case_decide; [|done]. injection E' as -> ->.
    rewrite (InCIDR_exact cidr addr mask a n ip) by (done || by eapply Hmap). split; [eauto 10|]. by intros (? & ? & [= <- <-] & ?).
  - split; [|by intros (? & ? & ? & _)]. unfold InCIDR, ParseCIDR. revert E. unfold block_of.
    destruct (CutByte _ cidr) as [[addr mask]|]; [|done]. simpl. destruct (ParseAddr addr); [|done]. simpl.
    destruct (prefix_length mask); [|done]. simpl. by case_decide.
Qed.

(** C38: the addresses taken for trusted proxies are exactly those that agree
    with one of the configured blocks on its leading bits, family by family:
    a block that cannot be read trusts nobody, and an address written in the
    mapped form counts as IPv4.  (Blocks written in the mapped form excepted.) *)
Theorem trusted_network_exact text ip cidrs :
  ParseIP text = Some ip → Forall (λ x, take 12 x.1 ≠ v4InV6Prefix) (omap block_of cidrs) →
  let b := default ip (To4 ip) in
  isIPInCIDRs (Some ip) cidrs = true ↔ ∃ a n, (a, n) ∈ omap block_of cidrs ∧ length b = length a ∧ prefix n b = prefix n a.
Proof.
  unfold ParseIP. intros (x & Hx & ->)%fmap_Some Hmap. pose proof (As16_ok x (ParseAddr_ok _ _ Hx)) as [Hl Hb].
  rewrite Forall_forall in Hmap. simpl. rewrite existsb_exists. split.
  - intros (cidr & Hin%list_elem_of_In & Hc). apply (InCIDR_block cidr (As16 x)) in Hc as (a & n & Hblk & H); try done.
    + exists a, n. split; [|done]. apply list_elem_of_omap. eauto.
    + intros a n Hblk. apply (Hmap (a, n)), list_elem_of_omap. eauto.
  - intros (a & n & (cidr & Hin & Hblk)%list_elem_of_omap & H). exists cidr. split; [by apply list_elem_of_In|].
    apply InCIDR_block; eauto 10. intros a' n' Hblk'. apply (Hmap (a', n')), list_elem_of_omap. eauto.
Qed.

Lemma trusted_network_exact_witness :
  isIPInCIDRs (ParseIP (str "::ffff:10.1.2.3")) [str "bad"; str "2001:db8::/32"; str "10.1.128.0/17"] = false
  ∧ isIPInCIDRs (ParseIP (str "::ffff:10.1.2.3")) [str "bad"; str "2001:db8::/32"; str "10.1.128.0/16"] = true.
Proof.
  split; [vm_compute; reflexivity|].
  apply (trusted_network_exact (str "::ffff:10.1.2.3") (v4InV6Prefix ++ [10; 1; 2; 3])).
  - vm_compute. reflexivity.
  - by_decide.
  - exists [10; 1; 128; 0], 16. split; [by_decide|]. split; vm_compute; reflexivity.
Defined.

(** A request through one trusted proxy, with a forged address in front. *)
Definition demo_request : Request :=
  mkRequest (str "GET") (str "10.0.0.1:4711") {[str "X-Forwarded-For" := str "6.6.6.6, 2001:db8::9,10.0.0.2"]} ∅.

Lemma client_ip_not_spoofable_witness : extractClientIP demo_request true [str "10.0.0.0/8"] = str "2001:db8::9".
Proof.
  eapply (client_ip_not_spoofable demo_request [str "10.0.0.0/8"] [str "6.6.6.6"] (str " 2001:db8::9") [str "10.0.0.2"]).
  - discriminate.
  - vm_compute. reflexivity.
  - vm_compute. reflexivity.
  - vm_compute. discriminate.
  - constructor; [|constructor]. intros ip [= <-]. vm_compute. reflexivity.
  - vm_compute. reflexivity.
  - vm_compute. reflexivity.
Defined.

(** ** middleware.go: trace identifiers *)
Definition trace_byte (c : ascii) : bool :=
  in_range 97 122 c || in_range 65 90 c || in_range 48 57 c
  || bool_decide (c = "-"%char) || bool_decide (c = "_"%char).

Definition isSafeTraceID (s : gostring) : bool :=
  if decide (length s = 0%nat ∨ (64 < length s)%nat) then false else forallb trace_byte s.

Definition hex_digit (z : Z) : ascii := nth (Z.to_nat z) (str "0123456789abcdef") "0"%char.
Definition hex_EncodeToString (b : gostring) : gostring :=
  b ≫= λ c, [hex_digit (byte_val c / 16); hex_digit (byte_val c mod 16)].

(** The identifier [TraceMiddleware] attaches, given sixteen random bytes. *)
Definition trace_id (random : gostring) (r : Request) : gostring :=
  let traceID := header r "X-Request-Id" in
  let traceID := if decide (traceID = []) then header r "X-Trace-Id" else traceID in
  if isSafeTraceID traceID then traceID else hex_EncodeToString random.

Lemma hex_digit_trace z : trace_byte (hex_digit z) = true.
Proof.
  unfold hex_digit. destruct (nth_in_or_default (Z.to_nat z) (str "0123456789abcdef") "0"%char) as [H| ->];
    [|by vm_compute].
  apply list_elem_of_In in H. revert H. generalize (nth (Z.to_nat z) (str "0123456789abcdef") "0"%char).
  apply Forall_forall. by_decide.
Qed.

Lemma hex_length b : length (hex_EncodeToString b) = (2 * length b)%nat.
Proof. unfold hex_EncodeToString. induction b as [|c b IH]; [done|]. cbn [mbind list_bind app length] in *. lia. Qed.

Lemma hex_trace b : forallb trace_byte (hex_EncodeToString b) = true.
Proof.
  unfold hex_EncodeToString. induction b as [|c b IH]; [done|]. cbn [mbind list_bind app forallb] in *.
  by rewrite !hex_digit_trace.
Qed.

(** Whatever headers a request carries, the identifier that reaches the
    logs and the response has 1 to 64 bytes, all letters, digits, hyphens or
    underscores; a well-formed identifier of the caller is kept. *)
Theorem trace_id_always_safe random r :
  length random = 16%nat →
  isSafeTraceID (trace_id random r) = true
  ∧ (isSafeTraceID (header r "X-Request-Id") = true → trace_id random r = header r "X-Request-Id").
Proof.
  intros Hr. unfold trace_id. split.
  - set (t := if decide _ then _ else _). destruct (isSafeTraceID t) eqn:E; [done|].
    unfold isSafeTraceID. rewrite hex_length, Hr. rewrite decide_False by lia. apply hex_trace.
  - intros Hs. rewrite decide_False; [by rewrite Hs|]. intros E. by rewrite E in Hs.
Qed.

Lemma trace_id_always_safe_witness :
  isSafeTraceID (trace_id (replicate 16 LF)
    (mkRequest (str "GET") [] {[str "X-Request-Id" := str "a" ++ [LF] ++ str "b"]} ∅)) = true.
Proof.
  apply (trace_id_always_safe (replicate 16 LF)
    (mkRequest (str "GET") [] {[str "X-Request-Id" := str "a" ++ [LF] ++ str "b"]} ∅)). reflexivity.
Defined.

(** ** Response writers

    The connection's writer, under the interceptors that wrap it (outermost
    first). *)
Record Conn := mkConn {
  cn_status : Z;                       (* 0: header not sent *)
  cn_header : gmap gostring gostring;
  cn_body : gostring;
  cn_deadline : option Z;              (* write deadline *)
}.
Record responseWriterInterceptor := mkInterceptor { statusCode : Z; bytesCount : Z }.
Record Writer := mkWriter { layers : list responseWriterInterceptor; conn : Conn }.

Definition SetHeader (name : string) (v : gostring) : M Writer () :=
  modify (λ w, mkWriter (layers w) (mkConn (cn_status (conn w)) (<[str name := v]> (cn_header (conn w)))
                                      (cn_body (conn w)) (cn_deadline (conn w)))).

(** [WriteHeader(code)]: every interceptor notes it; the first call counts. *)
Definition WriteHeader (code : Z) : M Writer () :=
  modify (λ w, mkWriter ((λ i, mkInterceptor code (bytesCount i)) <$> layers w)
    (mkConn (if decide (cn_status (conn w) = 0) then code else cn_status (conn w))
            (cn_header (conn w)) (cn_body (conn w)) (cn_deadline (conn w)))).

(** [Write(b)]; [ok] is the network's verdict. *)
Definition Write (ok : bool) (b : gostring) : M Writer bool := λ w,
  let note i := mkInterceptor (if decide (statusCode i = 0) then 200 else statusCode i)
                              (bytesCount i + (if ok then Z.of_nat (length b) else 0)) in
  let c := conn w in
  Some (ok, mkWriter (note <$> layers w)
    (mkConn (if decide (cn_status c = 0) then 200 else cn_status c) (cn_header c)
            (if ok then cn_body c ++ b else cn_body c) (cn_deadline c))).

Inductive ControllerErr := ErrNotSupported.

(** [http.ResponseController.SetWriteDeadline]: it looks for a method of that
    name or for [Unwrap], and the interceptor has neither. *)
Definition SetWriteDeadline (t : Z) : M Writer (result ControllerErr ()) := λ w,
  match layers w with
  | [] => Some (Ok (), mkWriter [] (mkConn (cn_status (conn w)) (cn_header (conn w)) (cn_body (conn w)) (Some t)))
  | _ :: _ => Some (Err ErrNotSupported, w)
  end.

(** helpers.go: [respondJSON] with an encoded payload, and [respondError]; the
    encoder ends its output with a line feed, and the error of the write is
    ignored. *)
Definition respondJSON (code : Z) (payload : gostring) : M Writer () :=
  SetHeader "Content-Type" (str "application/json; charset=utf-8") ;;
  WriteHeader code ;;
  Write true (payload ++ [LF]) ;; mret ().

Definition error_json (message details : gostring) : gostring :=
  str "{" ++ [DQUOTE] ++ str "error" ++ [DQUOTE] ++ str ":" ++ quote_json message
  ++ (if decide (details = []) then []
      else str "," ++ [DQUOTE] ++ str "details" ++ [DQUOTE] ++ str ":" ++ quote_json details)
  ++ str "}".

Definition respondError (code : Z) (message details : gostring) : M Writer () :=
  respondJSON code (error_json message details).

(** ** The middleware chain

    A handler answers whether it panicked, with the writer as it left it. *)
Definition HTTPHandler : Type := Request → Writer → bool * Writer.

(** Writer operations before the next handler. *)
Definition before (m : M Writer ()) (next : HTTPHandler) (r : Request) (w : Writer) : bool * Writer :=
  match m w with
  | Some (_, w') => next r w'
  | None => (true, w)
  end.

Definition SecurityHeadersMiddleware (next : HTTPHandler) : HTTPHandler :=
  before (SetHeader "X-Content-Type-Options" (str "nosniff") ;;
          SetHeader "X-Frame-Options" (str "DENY") ;;
          SetHeader "Content-Security-Policy" (str "default-src 'none'") ;;
          SetHeader "Referrer-Policy" (str "no-referrer")) next.

(** The deferred [recover()]. *)
Definition RecoveryMiddleware (next : HTTPHandler) : HTTPHandler := λ r w,
  let '(panicked, w') := next r w in
  if panicked : bool then
    match respondError 500 (str "erreur interne du serveur") (str "une exception inattendue est survenue") w' with
    | Some (_, w'') => (false, w'')
    | None => (true, w')
    end
  else (false, w').

(** The interceptor lives for the duration of the inner handler; what it saw
    goes to the access log. *)
Definition LoggerMiddleware (next : HTTPHandler) : HTTPHandler := λ r w,
  let '(panicked, w') := next r (mkWriter (mkInterceptor 0 0 :: layers w) (conn w)) in
  (panicked, mkWriter (tail (layers w')) (conn w')).

Definition TraceMiddleware (random : gostring) (next : HTTPHandler) : HTTPHandler := λ r w,
  before (SetHeader "X-Request-Id" (trace_id random r)) next r w.

(** [NewRouter]: the chain around the multiplexer. *)
Definition router_chain (random : gostring) (mux : HTTPHandler) : HTTPHandler :=
  TraceMiddleware random (LoggerMiddleware (RecoveryMiddleware (SecurityHeadersMiddleware mux))).

Definition fresh_conn : Conn := mkConn 0 ∅ [] None.

(** What the multiplexer finds: one interceptor and the hardening headers. *)
Definition mux_writer (random : gostring) (r : Request) : Writer :=
  mkWriter [mkInterceptor 0 0]
    (mkConn 0 (<[str "Referrer-Policy" := str "no-referrer"]>
               (<[str "Content-Security-Policy" := str "default-src 'none'"]>
                (<[str "X-Frame-Options" := str "DENY"]>
                 (<[str "X-Content-Type-Options" := str "nosniff"]>
                  {[str "X-Request-Id" := trace_id random r]})))) [] None).

Lemma router_chain_runs random mux r :
  router_chain random mux r (mkWriter [] fresh_conn) =
    let '(panicked, w) := RecoveryMiddleware (λ r _, mux r (mux_writer random r)) r (mux_writer random r) in
    (panicked, mkWriter (tail (layers w)) (conn w)).
Proof. reflexivity. Qed.

(** No panic of a handler escapes the router: the request is answered
    (with status 500 when nothing had been sent yet, otherwise with the status
    already sent), and a handler that does not panic is not interfered with. *)
Theorem panics_are_contained random mux r panicked w :
  mux r (mux_writer random r) = (panicked, w) →
  ∃ w', router_chain random mux r (mkWriter [] fresh_conn) = (false, w')
    ∧ cn_status (conn w') = (if panicked && bool_decide (cn_status (conn w) = 0) then 500 else cn_status (conn w))
    ∧ (panicked = false → conn w' = conn w).
Proof.
  intros E. rewrite router_chain_runs. unfold RecoveryMiddleware. rewrite E. destruct panicked; simpl.
  - eexists. split; [done|]. simpl. split; [|done]. case_bool_decide as Hs; repeat case_decide; done || congruence.
  - eauto.
Qed.

Lemma panics_are_contained_witness :
  ∃ w', router_chain (replicate 16 LF) (λ _ w, (true, w)) (mkRequest (str "GET") [] ∅ ∅) (mkWriter [] fresh_conn)
          = (false, w') ∧ cn_status (conn w') = 500.
Proof.
  destruct (panics_are_contained (replicate 16 LF) (λ _ w, (true, w)) (mkRequest (str "GET") [] ∅ ∅)
              true _ eq_refl) as (w' & E & Hs & _).
  exists w'. split; [exact E|exact Hs].
Defined.

(** The write deadline that the streaming handler asks for before each
    write never takes effect: through the middleware chain the response writer
    is an interceptor that hides the connection from the response controller,
    the call fails (and its error is ignored). *)
Theorem write_deadline_never_set random r t :
  SetWriteDeadline t (mux_writer random r) = Some (Err ErrNotSupported, mux_writer random r)
  ∧ SetWriteDeadline t (mkWriter [] fresh_conn) = Some (Ok (), mkWriter [] (mkConn 0 ∅ [] (Some t))).
Proof. split; reflexivity. Qed.

(** ** ratelimit.go *)
Section rate_limit.
(** The token bucket: a new one, and [Allow] at a given time. *)
Context {Limiter : Type} (NewLimiter : Limiter) (Allow : Z → Limiter → bool * Limiter).

Definition minute : Z := 60 * 1000000000.

Record clientLimiter := mkClientLimiter { cl_limiter : positive; cl_lastSeen : Z }.

Record IPRateLimiter := mkIPRateLimiter {
  rl_clients : gmap gostring clientLimiter;
  rl_store : gmap positive Limiter;     (* the limiters behind the pointers *)
  rl_next : positive;
  rl_stopped : bool;
}.

Definition NewIPRateLimiter : IPRateLimiter := mkIPRateLimiter ∅ ∅ 1 false.

Definition GetLimiter (now : Z) (ip : gostring) : M IPRateLimiter positive := λ i,
  match rl_clients i !! ip with
  | None =>
      let p := rl_next i in
      Some (p, mkIPRateLimiter (<[ip := mkClientLimiter p now]> (rl_clients i)) (<[p := NewLimiter]> (rl_store i))
                 (Pos.succ p) (rl_stopped i))
  | Some lim =>
      Some (cl_limiter lim, mkIPRateLimiter (<[ip := mkClientLimiter (cl_limiter lim) now]> (rl_clients i))
                              (rl_store i) (rl_next i) (rl_stopped i))
  end.

(** [l.Allow()] through the pointer. *)
Definition allow_at (now : Z) (p : positive) : M IPRateLimiter bool := λ i,
  match rl_store i !! p with
  | None => None
  | Some l =>
      let '(ok, l') := Allow now l in
      Some (ok, mkIPRateLimiter (rl_clients i) (<[p := l']> (rl_store i)) (rl_next i) (rl_stopped i))
  end.

(** The verdict of [RateLimitMiddleware]. *)
Definition rate_check (now : Z) (ip : gostring) : M IPRateLimiter bool :=
  l ← GetLimiter now ip; allow_at now l.

(** [RateLimitMiddleware] for a request whose client address is [clientIP]. *)
Definition RateLimitMiddleware (now : Z) (clientIP : gostring) (next : HTTPHandler) (r : Request)
    (i : IPRateLimiter) (w : Writer) : bool * IPRateLimiter * Writer :=
  match rate_check now clientIP i with
  | None => (true, i, w)
  | Some (true, i') => let '(panicked, w') := next r w in (panicked, i', w')
  | Some (false, i') =>
      match respondError 429 (str "limite de débit dépassée")
              (str "trop de requêtes soumises, veuillez réitérer ultérieurement") w with
      | Some (_, w') => (false, i', w')
      | None => (true, i', w)
      end
  end.

(** One tick of [cleanupLoop]. *)
Definition cleanup (now : Z) : M IPRateLimiter () :=
  modify (λ i, mkIPRateLimiter (filter (λ x, ¬ cl_lastSeen x.2 < now - 10 * minute) (rl_clients i))
                 (rl_store i) (rl_next i) (rl_stopped i)).

Definition Stop : M IPRateLimiter () :=
  modify (λ i, mkIPRateLimiter (rl_clients i) (rl_store i) (rl_next i) true).

(** The bucket an address has, if any. *)
Definition bucket (i : IPRateLimiter) (ip : gostring) : option Limiter :=
  lim ← rl_clients i !! ip; rl_store i !! cl_limiter lim.

Record rl_inv (i : IPRateLimiter) : Prop := {
  ri_known : ∀ ip lim, rl_clients i !! ip = Some lim → is_Some (rl_store i !! cl_limiter lim);
  ri_fresh : ∀ p, is_Some (rl_store i !! p) → (p < rl_next i)%positive;
  ri_own : ∀ ip ip' lim lim', rl_clients i !! ip = Some lim → rl_clients i !! ip' = Some lim' →
           cl_limiter lim = cl_limiter lim' → ip = ip';
}.

Lemma NewIPRateLimiter_inv : rl_inv NewIPRateLimiter.
Proof. split; intros; simplify_map_eq/=. by destruct H. Qed.

Lemma GetLimiter_spec now ip i :
  rl_inv i →
  ∃ p i', GetLimiter now ip i = Some (p, i') ∧ rl_inv i'
    ∧ rl_clients i' !! ip = Some (mkClientLimiter p now)
    ∧ bucket i' ip = Some (default NewLimiter (bucket i ip))
    ∧ ∀ ip', ip' ≠ ip → rl_clients i' !! ip' = rl_clients i !! ip' ∧ bucket i' ip' = bucket i ip'.
Proof.
  intros [K F O]. unfold GetLimiter. destruct (rl_clients i !! ip) as [[p t]|] eqn:E.
  - eexists _, _. split; [done|]. simpl. split_and!.
    + split; simpl; [|done|].
      * intros ip0 lim. destruct (decide (ip0 = ip)) as [->|]; simplify_map_eq; [|by apply K].
        intros [= <-]. apply (K _ _ E).
      * intros ip0 ip' lim lim'.
        destruct (decide (ip0 = ip)) as [->|], (decide (ip' = ip)) as [->|]; simplify_map_eq; try done; eauto;
          intros; simplify_eq; [by eapply O|by eapply O].
    + by simplify_map_eq.
    + unfold bucket. simpl. simplify_map_eq. destruct (K _ _ E) as [l Hl]. simpl in *. by rewrite Hl.
    + intros ip' Hne. unfold bucket. simpl. by simplify_map_eq.
  - assert (rl_store i !! rl_next i = None) as Hn by (apply eq_None_not_Some; intros ?%F; lia).
    eexists _, _. split; [done|]. simpl. split_and!.
    + split; simpl.
      * intros ip0 lim. destruct (decide (ip0 = ip)) as [->|]; simplify_map_eq; [intros [= <-]; simpl; simplify_map_eq; eauto|].
        intros H. destruct (decide (cl_limiter lim = rl_next i)) as [->|]; simplify_map_eq; eauto.
      * intros p. destruct (decide (p = rl_next i)) as [->|]; simplify_map_eq; [intros _; lia|]. intros ?%F. lia.
      * intros ip0 ip' lim lim'.
        assert (∀ ip1 lim1, rl_clients i !! ip1 = Some lim1 → cl_limiter lim1 ≠ rl_next i) as Hold.
        { intros ip1 lim1 H1 H2. apply K in H1 as [l Hl]. rewrite H2 in Hl. congruence. }
        destruct (decide (ip0 = ip)) as [->|], (decide (ip' = ip)) as [->|]; simplify_map_eq; try done; eauto;
          intros H1 H2 H3; simplify_eq/=; exfalso; eapply Hold; eauto.
    + by simplify_map_eq.
    + unfold bucket. simpl. by simplify_map_eq.
    + intros ip' Hne. unfold bucket. simpl. simplify_map_eq. split; [done|].
      destruct (rl_clients i !! ip') as [lim|] eqn:E'; [|done]. simpl.
      rewrite lookup_insert_ne; [done|]. intros H. apply K in E' as [l Hl]. rewrite <- H in Hl. congruence.
Qed.

Lemma rate_check_spec now ip i :
  rl_inv i →
  ∃ ok i', rate_check now ip i = Some (ok, i') ∧ rl_inv i'
    ∧ (ok, bucket i' ip) = (let '(ok, l) := Allow now (default NewLimiter (bucket i ip)) in (ok, Some l))
    ∧ ∀ ip', ip' ≠ ip → bucket i' ip' = bucket i ip'.
Proof.
  intros Hi. destruct (GetLimiter_spec now ip i Hi) as (p & i1 & E & [K F O] & Hc & Hb & Hother).
  unfold rate_check, mbind, M_bind. rewrite E. unfold allow_at.
  assert (rl_store i1 !! p = Some (default NewLimiter (bucket i ip))) as Hp.
  { unfold bucket in Hb at 1. rewrite Hc in Hb. done. }
  rewrite Hp. destruct (Allow now _) as [ok l']. eexists _, _. split; [done|]. simpl. split_and!.
  - split; simpl; [| |done].
    + intros ip0 lim H. destruct (decide (cl_limiter lim = p)) as [->|]; simplify_map_eq; eauto.
    + intros q. destruct (decide (q = p)) as [->|]; simplify_map_eq; eauto.
  - unfold bucket at 1. simpl. rewrite Hc. simpl. by simplify_map_eq.
  - intros ip' Hne. destruct (Hother ip' Hne) as [H1 H2]. rewrite <- H2. unfold bucket. simpl.
    destruct (rl_clients i1 !! ip') as [lim|] eqn:El; [|done]. simpl.
    rewrite lookup_insert_ne; [done|]. intros Heq. apply Hne. symmetry. by eapply O; [exact Hc|exact El|].
Qed.

(** Rate limiting isolates addresses: a request is judged by the bucket of
    its own address (a new one on the first request), the buckets of the other
    addresses stay as they were, an accepted request runs the handler and a
    refused one gets a 429 answer without running it. *)
Theorem rate_limit_per_address now ip next r i w :
  rl_inv i →
  let '(ok, l) := Allow now (default NewLimiter (bucket i ip)) in
  ∃ i', rl_inv i' ∧ bucket i' ip = Some l ∧ (∀ ip', ip' ≠ ip → bucket i' ip' = bucket i ip')
    ∧ RateLimitMiddleware now ip next r i w =
        (if ok : bool then (let '(panicked, w') := next r w in (panicked, i', w'))
         else (false, i', default w (snd <$> respondError 429 (str "limite de débit dépassée")
                                     (str "trop de requêtes soumises, veuillez réitérer ultérieurement") w))).
Proof.
  intros Hi. destruct (rate_check_spec now ip i Hi) as (ok & i' & E & Hi' & Hb & Ho).
  destruct (Allow now _) as [ok' l]. injection Hb as <- Hb. exists i'.
  split_and!; [done..|]. unfold RateLimitMiddleware. rewrite E. by destruct ok.
Qed.

(** The periodic purge drops exactly the addresses not seen for ten
    minutes; a purged address starts again with a new bucket. *)
Theorem cleanup_purges_idle now i :
  rl_inv i →
  ∃ i', cleanup now i = Some ((), i') ∧ rl_inv i' ∧
    ∀ ip, bucket i' ip = match rl_clients i !! ip with
                         | Some lim => if decide (cl_lastSeen lim < now - 10 * minute) then None else bucket i ip
                         | None => None
                         end.
Proof.
  intros [K F O]. eexists. split; [done|]. split.
  - split; simpl; [|done|].
    + intros ip lim [H _]%map_lookup_filter_Some. eauto.
    + intros ip ip' lim lim' [H _]%map_lookup_filter_Some [H' _]%map_lookup_filter_Some. eauto.
  - intros ip. unfold bucket. simpl. destruct (rl_clients i !! ip) as [lim|] eqn:E.
    + case_decide.
      * rewrite map_lookup_filter_None_2; [done|]. right. intros lim' H'. simplify_eq. simpl. tauto.
      * by rewrite (map_lookup_filter_Some_2 _ _ _ lim).
    + by rewrite map_lookup_filter_None_2 by auto.
Qed.
End rate_limit.

(** A bucket of [n] tokens that are never refilled. *)
Definition demo_allow (_ : Z) (n : nat) : bool * nat := match n with O => (false, O) | S n' => (true, n') end.

Lemma rate_limit_per_address_witness :
  ∃ i', RateLimitMiddleware 0%nat demo_allow 5 (str "1.2.3.4") (λ _ w, (true, w)) demo_request (@NewIPRateLimiter nat)
          (mkWriter [] fresh_conn)
        = (false, i', mkWriter [] (mkConn 429 {[str "Content-Type" := str "application/json; charset=utf-8"]}
            (error_json (str "limite de débit dépassée")
               (str "trop de requêtes soumises, veuillez réitérer ultérieurement") ++ [LF]) None)).
Proof.
  destruct (rate_limit_per_address 0%nat demo_allow 5 (str "1.2.3.4") (λ _ w, (true, w)) demo_request
              (@NewIPRateLimiter nat) (mkWriter [] fresh_conn) NewIPRateLimiter_inv)
    as (i' & _ & _ & _ & E).
  exists i'. rewrite E. reflexivity.
Defined.

Lemma cleanup_purges_idle_witness :
  ∃ i', cleanup 5 (@NewIPRateLimiter nat) = Some ((), i') ∧ rl_inv i'.
Proof.
  destruct (cleanup_purges_idle 1%nat demo_allow 5 (@NewIPRateLimiter nat) NewIPRateLimiter_inv) as (i' & E & H & _).
  exists i'. split; [exact E|exact H].
Defined.
