(* ===== verification/Mux.v ===== *)
(** * net/http: the request multiplexer

    The standard library's [ServeMux], which api/router.go fills and the server
    asks for every request: the syntax of patterns, the conflicts that make
    registration panic, and the choice of a handler.  The routing tree is read
    as the list of registered patterns, cut segment by segment along the path:
    the children of a node are the patterns that agree with the path so far. *)

From S2P Require Import Prelude GoStrings NetAddr.

Local Open Scope Z_scope.

(** ** Paths *)

(** [url.PathUnescape]: [None] on a malformed escape. *)
Fixpoint PathUnescape (s : gostring) : option gostring :=
  match s with
  | [] => Some []
  | "%"%char :: s' =>
      match s' with
      | h :: l :: rest => x ← hex_value h; y ← hex_value l; t ← PathUnescape rest; Some (byte_of (x * 16 + y) :: t)
      | _ => None
      end
  | c :: s' => t ← PathUnescape s'; Some (c :: t)
  end.
Definition pathUnescape (s : gostring) : gostring := default s (PathUnescape s).

(** [path.Clean] on the elements of a rooted path; [out] holds what is kept,
    last first. *)
Fixpoint clean_elements (out : list gostring) (l : list gostring) : list gostring :=
  match l with
  | [] => rev out
  | e :: l =>
      if decide (e = [] ∨ e = str ".") then clean_elements out l
      else if decide (e = str "..") then clean_elements (tail out) l
      else clean_elements (e :: out) l
  end.
Definition join_path (l : list gostring) : gostring := concat (List.map (λ e, "/"%char :: e) l).
Definition Clean (p : gostring) : gostring :=
  match clean_elements [] (Split p "/"%char) with [] => str "/" | l => join_path l end.

Definition ends_with_slash (p : gostring) : bool := bool_decide (last p = Some "/"%char).

Definition cleanPath (p : gostring) : gostring :=
  if decide (p = []) then str "/"
  else
    let p := if decide (head p = Some "/"%char) then p else "/"%char :: p in
    let np := Clean p in
    if ends_with_slash p && bool_decide (np ≠ str "/") then np ++ str "/" else np.

(** ** Patterns *)
Record segment := mkSegment { seg_s : gostring; seg_wild : bool; seg_multi : bool }.
Record pattern := mkPattern { pat_method : gostring; pat_host : gostring; pat_segments : list segment }.

#[global] Instance segment_eq_dec : EqDecision segment.
Proof. solve_decision. Defined.

Definition token_byte (c : ascii) : bool :=
  in_range 48 57 c || in_range 65 90 c || in_range 97 122 c || bool_decide (c ∈ str "!#$%&'*+-.^_`|~").
Definition validMethod (method : gostring) : bool := bool_decide (method ≠ []) && forallb token_byte method.

Definition name_first (c : ascii) : bool := in_range 65 90 c || in_range 97 122 c || bool_decide (c = "_"%char).
Definition name_next (c : ascii) : bool := name_first c || in_range 48 57 c.
(** A Go identifier; names with letters outside ASCII are left out of the
    model. *)
Definition isValidWildcardName (s : gostring) : bool :=
  match s with [] => false | c :: s' => name_first c && forallb name_next s' end.

Definition CutSuffix (s suffix : gostring) : option gostring := t ← CutPrefix (rev s) (rev suffix); Some (rev t).

(** The loop of [parsePattern] on the elements of the path; [names] are the
    wildcards seen. *)
Fixpoint parse_segments (names : list gostring) (l : list gostring) : option (list segment) :=
  match l with
  | [] => Some []
  | seg :: rest =>
      if decide (seg = [] ∧ rest = []) then Some [mkSegment [] true true]
      else if decide ("{"%char ∈ seg) then
        (* a wildcard fills the segment *)
        name ← CutPrefix seg (str "{"); name ← CutSuffix name (str "}");
        if decide (name = str "$") then
          if decide (rest = []) then Some [mkSegment (str "/") false false] else None
        else
          let multi := bool_decide (is_Some (CutSuffix name (str "..."))) in
          let name := default name (CutSuffix name (str "...")) in
          if multi && bool_decide (rest ≠ []) then None
          else if isValidWildcardName name && bool_decide (name ∉ names)
          then t ← parse_segments (name :: names) rest; Some (mkSegment name true multi :: t)
          else None
      else t ← parse_segments names rest; Some (mkSegment (pathUnescape seg) false false :: t)
  end.

(** The method and the rest of a pattern: cut at the first blank. *)
Fixpoint cut_blank (s : gostring) : option (gostring * gostring) :=
  match s with
  | [] => None
  | c :: s' => if decide (c = " "%char ∨ c = byte_of 9) then Some ([], s') else '(a, b) ← cut_blank s'; Some (c :: a, b)
  end.

Definition parsePattern (s : gostring) : option pattern :=
  let '(method, rest) :=
    match cut_blank s with Some (m, r) => (m, TrimLeft r [" "%char; byte_of 9]) | None => ([], s) end in
  if decide (s = [] ∨ method ≠ [] ∧ validMethod method = false) then None
  else
    '(host, path) ← CutByte "/"%char rest;
    if decide ("{"%char ∈ host) then None
    else if decide (method ≠ [] ∧ method ≠ str "CONNECT" ∧ "/"%char :: path ≠ cleanPath ("/"%char :: path)) then None
    else segments ← parse_segments [] (Split path "/"%char); Some (mkPattern method host segments).

(** ** Conflicts *)
Inductive relationship := equivalent | moreGeneral | moreSpecific | disjoint | overlaps.
#[global] Instance relationship_eq_dec : EqDecision relationship.
Proof. solve_decision. Defined.

Definition inverseRelationship (r : relationship) : relationship :=
  match r with moreSpecific => moreGeneral | moreGeneral => moreSpecific | _ => r end.

Definition combineRelationships (r1 r2 : relationship) : relationship :=
  match r1 with
  | equivalent => r2
  | disjoint => disjoint
  | overlaps => match r2 with disjoint => disjoint | _ => overlaps end
  | moreGeneral | moreSpecific =>
      match r2 with
      | equivalent => r1
      | _ => if decide (r2 = inverseRelationship r1) then overlaps else r2
      end
  end.

Definition compareMethods (m1 m2 : gostring) : relationship :=
  if decide (m1 = m2) then equivalent
  else if decide (m1 = []) then moreGeneral
  else if decide (m2 = []) then moreSpecific
  else if decide (m1 = str "GET" ∧ m2 = str "HEAD") then moreGeneral
  else if decide (m2 = str "GET" ∧ m1 = str "HEAD") then moreSpecific
  else disjoint.

Definition compareSegments (s1 s2 : segment) : relationship :=
  if seg_multi s1 && seg_multi s2 then equivalent
  else if seg_multi s1 then moreGeneral
  else if seg_multi s2 then moreSpecific
  else if seg_wild s1 && seg_wild s2 then equivalent
  else if seg_wild s1 then if decide (seg_s s2 = str "/") then disjoint else moreGeneral
  else if seg_wild s2 then if decide (seg_s s1 = str "/") then disjoint else moreSpecific
  else if decide (seg_s s1 = seg_s s2) then equivalent else disjoint.

Definition ends_multi (l : list segment) : bool := match last l with Some s => seg_multi s | None => false end.

(** The loop of [comparePaths]; [m1] and [m2] tell whether the patterns end in
    a multi wildcard. *)
Fixpoint compare_from (m1 m2 : bool) (rel : relationship) (l1 l2 : list segment) : relationship :=
  match l1, l2 with
  | [], [] => rel
  | [], _ :: _ => if m1 then combineRelationships rel moreGeneral else disjoint
  | _ :: _, [] => if m2 then combineRelationships rel moreSpecific else disjoint
  | s1 :: l1, s2 :: l2 =>
      let rel := combineRelationships rel (compareSegments s1 s2) in
      if decide (rel = disjoint) then disjoint else compare_from m1 m2 rel l1 l2
  end.
Definition comparePaths (l1 l2 : list segment) : relationship :=
  let m1 := ends_multi l1 in let m2 := ends_multi l2 in
  if decide (length l1 ≠ length l2 ∧ m1 = false ∧ m2 = false) then disjoint else compare_from m1 m2 equivalent l1 l2.

Definition comparePathsAndMethods (p1 p2 : pattern) : relationship :=
  let mrel := compareMethods (pat_method p1) (pat_method p2) in
  if decide (mrel = disjoint) then disjoint
  else combineRelationships mrel (comparePaths (pat_segments p1) (pat_segments p2)).

Definition conflictsWith (p1 p2 : pattern) : bool :=
  bool_decide (pat_host p1 = pat_host p2)
  && match comparePathsAndMethods p1 p2 with equivalent | overlaps => true | _ => false end.

(** ** Registration *)

(** The key of a segment among the children of its node; [None] for the child
    of a multi wildcard. *)
Definition seg_key (s : segment) : option gostring :=
  if seg_multi s then None else Some (if seg_wild s then [] else seg_s s).
Definition leaf_key (p : pattern) : gostring * gostring * list (option gostring) :=
  (pat_host p, pat_method p, List.map seg_key (pat_segments p)).

Section mux.
Context {H : Type}.

(** The registered patterns with their handlers, last first. *)
Definition ServeMux : Type := list (pattern * H).

(** [mux.Handle]: [None] is the panic, on a pattern that cannot be read, on a
    conflict, or on a leaf that is taken. *)
Definition Handle (patstr : gostring) (handler : H) (mux : ServeMux) : option ServeMux :=
  p ← parsePattern patstr;
  if decide (Exists (λ x, conflictsWith p x.1 = true) mux) then None
  else if decide (ends_multi (pat_segments p) = false ∧ Exists (λ x, leaf_key p = leaf_key x.1) mux) then None
  else Some ((p, handler) :: mux).

Fixpoint HandleAll (routes : list (gostring * H)) (mux : ServeMux) : option ServeMux :=
  match routes with
  | [] => Some mux
  | (patstr, handler) :: routes => mux ← Handle patstr handler mux; HandleAll routes mux
  end.

(** ** Matching *)

(** A node: the patterns below it with the segments still to match. *)
Definition node : Type := list (list segment * (pattern * H)).

Definition child (key : option gostring) (n : node) : node :=
  omap (λ '(segs, x), match segs with s :: segs' => if decide (seg_key s = key) then Some (segs', x) else None | [] => None end) n.
Definition leaf (n : node) : option (pattern * H) :=
  head (omap (λ '(segs, x), match segs with [] => Some x | _ => None end) n).

(** [matchPath] on the elements of the path after its first slash. *)
Fixpoint matchPath (n : node) (path : list gostring) : option (pattern * H) :=
  match path with
  | [] => leaf n
  | raw :: rest =>
      let seg := if decide (raw = [] ∧ rest = []) then str "/" else pathUnescape raw in
      match matchPath (child (Some seg) n) rest with
      | Some x => Some x
      | None =>
          match (if decide (seg = str "/") then None else matchPath (child (Some []) n) rest) with
          | Some x => Some x
          | None => leaf (child None n)
          end
      end
  end.

Definition path_elements (path : gostring) : list gostring := tail (Split path "/"%char).

Definition method_node (mux : ServeMux) (host method : gostring) : node :=
  List.map (λ x, (pat_segments x.1, x)) (filter (λ x, pat_host x.1 = host ∧ pat_method x.1 = method) mux).

Definition or_else {A} (a b : option A) : option A := match a with Some x => Some x | None => b end.

Definition matchMethodAndPath (mux : ServeMux) (host method path : gostring) : option (pattern * H) :=
  or_else (matchPath (method_node mux host method) (path_elements path))
    (or_else (if decide (method = str "HEAD") then matchPath (method_node mux host (str "GET")) (path_elements path) else None)
       (matchPath (method_node mux host []) (path_elements path))).

Definition match_request (mux : ServeMux) (host method path : gostring) : option (pattern * H) :=
  or_else (if decide (host = []) then None else matchMethodAndPath mux host method path) (matchMethodAndPath mux [] method path).

(** Whether the match is with the path itself, not with a subtree of it. *)
Definition exactMatch (x : option (pattern * H)) (path : gostring) : bool :=
  match x with
  | None => false
  | Some (p, _) =>
      if negb (ends_multi (pat_segments p)) then true
      else if bool_decide (path ≠ []) && negb (ends_with_slash path) then false
      else bool_decide (length (pat_segments p) = count (λ c, c = "/"%char) path)
  end.

(** What the multiplexer does with a request. *)
Inductive Served := Handled (h : H) | Redirected (path : gostring) | MethodNotAllowed | PageNotFound.

(** Patterns that match but for the method. *)
Definition matching_methods (mux : ServeMux) (host path : gostring) : bool :=
  existsb (λ x, bool_decide (is_Some (matchMethodAndPath mux host (pat_method x.1) path))
                || bool_decide (is_Some (matchMethodAndPath mux [] (pat_method x.1) path))) mux.

(** [findHandler], for a request that is not a CONNECT; [host] is [r.Host]
    without its port and [urlPath] the decoded path, which a redirection to the
    path with a final slash starts from. *)
Definition findHandler (mux : ServeMux) (host method escapedPath urlPath : gostring) : Served :=
  let path := cleanPath escapedPath in
  let n := match_request mux host method path in
  if negb (exactMatch n path) && negb (ends_with_slash path)
     && exactMatch (match_request mux host method (path ++ str "/")) (path ++ str "/")
  then Redirected (cleanPath urlPath ++ str "/")
  else if decide (path ≠ escapedPath) then Redirected path
  else match n with
  | Some (_, h) => Handled h
  | None => if matching_methods mux host path then MethodNotAllowed else PageNotFound
  end.
End mux.
Arguments ServeMux : clear implicits.
Arguments Served : clear implicits.

Example parse_pattern_ex :
  parsePattern <$> [str "/v1/events"; str "healthz"; str "GET /a/{id}/"; str "/a/{x}/{x}"; str "/a{b}"; str "G@T /"; str "GET //"; str "/{$}"; []]
  = [Some (mkPattern [] [] [mkSegment (str "v1") false false; mkSegment (str "events") false false]); None;
     Some (mkPattern (str "GET") [] [mkSegment (str "a") false false; mkSegment (str "id") true false; mkSegment [] true true]);
     None; None; None; None; Some (mkPattern [] [] [mkSegment (str "/") false false]); None].
Proof. vm_compute. reflexivity. Qed.

Definition demo_mux : option (ServeMux Z) :=
  HandleAll [(str "/", 0); (str "/v1/events", 1); (str "GET /a/", 2); (str "/b/{x}", 3); (str "/b/c", 4)] [].
Example find_handler_ex :
  (λ mux, (λ '(m, p), findHandler mux (str "h") (str m) (str p) (str p)) <$>
    [("GET", "/v1/events"); ("GET", "/v1/%65vents"); ("GET", "/v1//events"); ("GET", "/a"); ("HEAD", "/a/q/r"); ("POST", "/a/"); ("GET", "/b/z");
     ("GET", "/b/c"); ("GET", "/b/c/d"); ("GET", "/x/../v1/events")]%string) <$> demo_mux
  = Some [Handled 1; Handled 1; Redirected (str "/v1/events"); Redirected (str "/a/"); Handled 2; Handled 0; Handled 3; Handled 4; Handled 0;
          Redirected (str "/v1/events")].
Proof. vm_compute. reflexivity. Qed.
Example handle_panics :
  (λ l, bool_decide (HandleAll l ([] : ServeMux Z) = None)) <$>
    [[(str "/a", 1); (str "/a", 2)]; [(str "/a/{x}", 1); (str "/{y}/b", 2)]; [(str "metrics", 1)]; [(str "GET /a", 1); (str "/a", 2)]]
  = [true; true; true; false].
Proof. vm_compute. reflexivity. Qed.

(** ** Literal paths

    What a path of the configuration is meant to be: elements of ordinary
    bytes, no final slash. *)
Definition special_bytes : gostring := str "/{% " ++ [byte_of 9].
Definition literal_element (e : gostring) : Prop :=
  e ≠ [] ∧ e ≠ str "." ∧ e ≠ str ".." ∧ Forall (λ c, c ∉ special_bytes) e.
Definition literal_path (p : gostring) : Prop :=
  p = join_path (path_elements p) ∧ path_elements p ≠ [] ∧ Forall literal_element (path_elements p).

#[global] Instance literal_element_dec e : Decision (literal_element e).
Proof. unfold literal_element. apply _. Defined.
#[global] Instance literal_path_dec p : Decision (literal_path p).
Proof. unfold literal_path. apply _. Defined.

Definition literal (e : gostring) : segment := mkSegment e false false.
Definition literal_pattern (p : gostring) : pattern := mkPattern [] [] (List.map literal (path_elements p)).

Lemma literal_byte e c : literal_element e → c ∈ e → c ∉ special_bytes.
Proof. intros (_ & _ & _ & He). rewrite Forall_forall in He. apply He. Qed.
Lemma literal_no c e : literal_element e → c ∈ special_bytes → c ∉ e.
Proof. intros He Hc Hin. by apply (literal_byte e c He). Qed.

Lemma Split_join e l : Forall (λ e, "/"%char ∉ e) (e :: l) → Split (e ++ join_path l) "/"%char = e :: l.
Proof.
  revert e. induction l as [|e' l IH]; intros e [He Hl]%Forall_cons.
  - unfold join_path. simpl. rewrite app_nil_r. by apply Split_one.
  - change (join_path (e' :: l)) with ("/"%char :: (e' ++ join_path l)). rewrite Split_first by done. by rewrite IH.
Qed.

Lemma split_on_rejoin sep cur s : ∃ e l, split_on sep cur s = e :: l ∧ reverse cur ++ s = e ++ concat (List.map (λ e, sep :: e) l).
Proof.
  revert cur. induction s as [|c s IH]; intros cur; simpl; [by exists (reverse cur), []|]. case_decide as Hc.
  - subst c. destruct (IH []) as (e & l & -> & E). exists (reverse cur), (e :: l). split; [done|]. change (reverse []) with ([] : gostring) in E. cbn in E. rewrite E. done.
  - destruct (IH (c :: cur)) as (e & l & -> & E). exists e, l. split; [done|]. rewrite <- E. by rewrite reverse_cons, <- (assoc_L (++)).
Qed.

Lemma split_on_no_sep sep cur s : sep ∉ cur → Forall (λ e, sep ∉ e) (split_on sep cur s).
Proof.
  revert cur. induction s as [|c s IH]; intros cur Hc; simpl.
  - apply Forall_singleton. by rewrite elem_of_reverse.
  - case_decide; [constructor; [by rewrite elem_of_reverse|apply IH, not_elem_of_nil]|]. apply IH. by apply not_elem_of_cons.
Qed.
Lemma Split_no_sep sep s : Forall (λ e, sep ∉ e) (tail (Split s sep)).
Proof. apply Forall_tail, split_on_no_sep, not_elem_of_nil. Qed.

(** A path that starts with a slash is its elements, joined. *)
Lemma path_rejoin s : "/"%char :: s = join_path (path_elements ("/"%char :: s)).
Proof.
  destruct (split_on_rejoin "/"%char [] s) as (e & l & E & Hs). unfold path_elements, Split. cbn [split_on]. rewrite decide_True by done.
  cbn [tail]. rewrite E. simpl in Hs. unfold join_path. simpl. by rewrite Hs.
Qed.

Lemma path_elements_join l : Forall (λ e, "/"%char ∉ e) l → path_elements (join_path l) = l.
Proof. intros Hl. unfold path_elements. change (join_path l) with ([] ++ join_path l). rewrite Split_join by (constructor; [apply not_elem_of_nil|done]). done. Qed.

(** *** Literal patterns *)
Lemma literal_elements_no c l : Forall literal_element l → c ∈ special_bytes → Forall (λ e, c ∉ e) l.
Proof. intros Hl Hc. eapply Forall_impl; [exact Hl|]. intros e He. by apply literal_no. Qed.

Lemma no_byte_join c l : c ≠ "/"%char → Forall (λ e, c ∉ e) l → c ∉ join_path l.
Proof.
  intros Hc. induction 1 as [|e l He Hl IH]; [apply not_elem_of_nil|]. change (join_path (e :: l)) with ("/"%char :: (e ++ join_path l)).
  rewrite elem_of_cons, elem_of_app. tauto.
Qed.

Lemma cut_blank_none s : " "%char ∉ s → byte_of 9 ∉ s → cut_blank s = None.
Proof.
  induction s as [|c s IH]; [done|]. rewrite !not_elem_of_cons. intros [H1 H1'] [H2 H2']. simpl.
  rewrite decide_False by (intros [?|?]; congruence). by rewrite IH.
Qed.

Lemma PathUnescape_id s : "%"%char ∉ s → PathUnescape s = Some s.
Proof.
  induction s as [|c s IH]; [done|]. intros [Hc Hs]%not_elem_of_cons.
  assert (PathUnescape (c :: s) = (t ← PathUnescape s; Some (c :: t))) as ->; [|by rewrite IH].
  simpl. repeat case_match; try done; congruence.
Qed.
Lemma pathUnescape_id s : "%"%char ∉ s → pathUnescape s = s.
Proof. intros Hs. unfold pathUnescape. by rewrite PathUnescape_id. Qed.

Lemma parse_literals names l : Forall literal_element l → parse_segments names l = Some (List.map literal l).
Proof.
  induction 1 as [|e l He Hl IH]; [done|]. simpl. rewrite decide_False by (intros [? _]; by destruct He).
  rewrite decide_False by (apply (literal_no _ _ He); by_decide). rewrite IH. simpl.
  by rewrite pathUnescape_id by (apply (literal_no _ _ He); by_decide).
Qed.

Lemma parse_literal p : literal_path p → parsePattern p = Some (literal_pattern p).
Proof.
  intros (Hp & Hne & Hl). unfold parsePattern, literal_pattern. destruct (path_elements p) as [|e l] eqn:El; [done|].
  pose proof (literal_elements_no "/"%char (e :: l) Hl ltac:(by_decide)) as Hs.
  rewrite cut_blank_none; [|rewrite Hp; apply no_byte_join; [done|apply literal_elements_no; [done|by_decide]]..].
  rewrite decide_False by (rewrite Hp; intros [?|[? _]]; done).
  assert (p = "/"%char :: (e ++ join_path l)) as -> by done.
  cbn [CutByte]. rewrite decide_True by done. cbn [mbind option_bind]. rewrite decide_False by apply not_elem_of_nil.
  rewrite decide_False by (by intros [? _]). rewrite Split_join by done. by rewrite parse_literals by done.
Qed.

Lemma clean_literals out l : Forall literal_element l → clean_elements out l = rev out ++ l.
Proof.
  intros Hl. revert out. induction Hl as [|e l (H1 & H2 & H3 & _) Hl IH]; intros out; simpl; [by rewrite app_nil_r|].
  rewrite decide_False by (intros [?|?]; done). rewrite decide_False by done. rewrite IH. simpl. by rewrite <- (assoc_L (++)).
Qed.

Lemma last_join l e : last (join_path (l ++ [e])) = if decide (e = []) then Some "/"%char else last e.
Proof.
  unfold join_path. rewrite List.map_app, List.concat_app. simpl. rewrite app_nil_r. rewrite last_app_cons. destruct e as [|c e]; [done|].
  rewrite decide_False by done. by rewrite last_cons_cons.
Qed.

Lemma literal_no_final_slash p : literal_path p → ends_with_slash p = false.
Proof.
  intros (Hp & Hne & Hl). apply bool_decide_eq_false. rewrite Hp. destruct (path_elements p) as [|e l _] using rev_ind; [done|].
  rewrite last_join. apply Forall_app in Hl as [_ He]. apply Forall_cons in He as [He _]. rewrite decide_False by apply He. intros E%last_Some_elem_of.
  by apply (literal_no "/"%char e He); [by_decide|].
Qed.

Lemma clean_literal p : literal_path p → cleanPath p = p.
Proof.
  intros Hlit. pose proof (literal_no_final_slash p Hlit) as Hs. destruct Hlit as (Hp & Hne & Hl). unfold cleanPath.
  destruct p as [|c p']; [done|]. rewrite decide_False by done.
  assert (c = "/"%char) as ->. { destruct (path_elements (c :: p')); [done|]. by injection Hp. }
  rewrite decide_True by done. rewrite Hs. cbn [andb].
  assert (clean_elements [] (Split ("/"%char :: p') "/"%char) = path_elements ("/"%char :: p')) as E.
  { change (Split ("/"%char :: p') "/"%char) with ([] :: path_elements ("/"%char :: p')).
    change (clean_elements [] ([] :: ?l)) with (clean_elements [] l). by apply clean_literals. }
  unfold Clean. rewrite E. rewrite Hp at 2. by destruct (path_elements _).
Qed.

(** *** Registration of literal paths *)
Lemma combine_disjoint r : combineRelationships r disjoint = disjoint.
Proof. by destruct r. Qed.

Lemma compare_literals l1 l2 :
  compare_from false false equivalent (List.map literal l1) (List.map literal l2) = if decide (l1 = l2) then equivalent else disjoint.
Proof.
  revert l2. induction l1 as [|e1 l1 IH]; intros [|e2 l2]; try done. cbn [List.map compare_from combineRelationships].
  unfold compareSegments. cbn [literal seg_multi seg_wild seg_s andb]. destruct (decide (e1 = e2)) as [->|Hne].
  - rewrite decide_False by done. rewrite IH. by repeat case_decide; congruence.
  - rewrite decide_True by done. rewrite decide_False by congruence. done.
Qed.

Lemma literals_no_multi l : ends_multi (List.map literal l) = false.
Proof.
  destruct l as [|e l _] using rev_ind; [done|]. unfold ends_multi. rewrite List.map_app. simpl. by rewrite last_snoc.
Qed.

Lemma literal_elements_inj p q : literal_path p → literal_path q → path_elements p = path_elements q → p = q.
Proof. intros (Hp & _) (Hq & _) E. congruence. Qed.

Lemma literal_conflict p q :
  literal_path p → literal_path q → conflictsWith (literal_pattern p) (literal_pattern q) = bool_decide (p = q).
Proof.
  intros Hp Hq. unfold conflictsWith, comparePathsAndMethods, comparePaths, literal_pattern. cbn [pat_host pat_method pat_segments].
  rewrite !literals_no_multi, !List.length_map, compare_literals, bool_decide_true by done.
  change (compareMethods [] []) with equivalent. rewrite (decide_False (P := equivalent = disjoint)) by done. cbn [combineRelationships andb].
  destruct (decide (path_elements p = path_elements q)) as [E|E].
  - rewrite decide_False by (intros [? _]; congruence). by rewrite (literal_elements_inj p q Hp Hq E), bool_decide_true.
  - rewrite bool_decide_false by congruence. by case_decide.
Qed.

Lemma literal_keys l : List.map seg_key (List.map literal l) = List.map Some l.
Proof. induction l as [|e l IH]; [done|]. simpl. by rewrite IH. Qed.

Lemma map_Some_inj {A} (l l' : list A) : List.map Some l = List.map Some l' → l = l'.
Proof. revert l'. induction l as [|e l IH]; intros [|e' l']; try done. intros [= -> Hk]. by rewrite (IH l'). Qed.

Lemma omap_ext_all {A B} (f g : A → option B) (l : list A) : (∀ x, f x = g x) → omap f l = omap g l.
Proof. intros E. induction l as [|x l IH]; [done|]. csimpl. by rewrite E, IH. Qed.
Lemma omap_omap_all {A B C} (f : A → option B) (g : B → option C) (l : list A) : omap g (omap f l) = omap (λ x, f x ≫= g) l.
Proof. induction l as [|x l IH]; [done|]. csimpl. destruct (f x); csimpl; by rewrite IH. Qed.

Section literal_mux.
Context {H : Type}.
Implicit Types (routes : list (gostring * H)) (mux : ServeMux H).

Definition literal_mux routes : ServeMux H := List.map (λ '(p, h), (literal_pattern p, h)) routes.

Lemma Handle_literal p (h : H) routes :
  literal_path p → Forall (λ x, literal_path x.1) routes →
  Handle p h (literal_mux routes) = if decide (p ∈ routes.*1) then None else Some (literal_mux ((p, h) :: routes)).
Proof.
  intros Hp Hr. unfold Handle. rewrite parse_literal by done. cbn [mbind option_bind].
  assert (Exists (λ x, conflictsWith (literal_pattern p) x.1 = true) (literal_mux routes) ↔ p ∈ routes.*1) as Hex.
  { rewrite Exists_exists, list_elem_of_fmap. rewrite Forall_forall in Hr. split.
    - intros (x & (y & <- & Hy%list_elem_of_In)%list_elem_of_In%in_map_iff & Hc). destruct y as [q h']. cbn [fst] in Hc. exists (q, h'). split; [|done].
      rewrite literal_conflict in Hc by (done || by apply (Hr _ Hy)). by apply bool_decide_eq_true in Hc.
    - intros ([q h'] & -> & Hy). exists (literal_pattern q, h'). split; [apply list_elem_of_In, in_map_iff; exists (q, h'); by rewrite <- list_elem_of_In|].
      cbn [fst]. rewrite literal_conflict by (apply (Hr _ Hy)). by apply bool_decide_eq_true. }
  destruct (decide (p ∈ routes.*1)) as [Hin|Hout].
  - by rewrite decide_True by (by apply Hex).
  - rewrite decide_False by (by rewrite Hex). rewrite decide_False; [done|]. intros [_ Hk]. apply Hout.
    apply Exists_exists in Hk as (x & (y & <- & Hy%list_elem_of_In)%list_elem_of_In%in_map_iff & Hk). destruct y as [q h'].
    rewrite Forall_forall in Hr. unfold leaf_key, literal_pattern in Hk. cbn [fst pat_host pat_method pat_segments] in Hk.
    rewrite !literal_keys in Hk. apply (f_equal snd) in Hk. cbn [snd] in Hk. apply list_elem_of_fmap. exists (q, h'). split; [|done].
    apply literal_elements_inj; [done|by apply (Hr _ Hy)|]. by apply map_Some_inj.
Qed.

Lemma HandleAll_literal routes done_ :
  Forall (λ x, literal_path x.1) routes → Forall (λ x, literal_path x.1) done_ → NoDup done_.*1 →
  HandleAll routes (literal_mux done_) =
    if decide (NoDup (rev routes ++ done_).*1) then Some (literal_mux (rev routes ++ done_)) else None.
Proof.
  revert done_. induction routes as [|[p h] routes IH]; intros done_ Hr Hd Hn; simpl; [by rewrite decide_True|].
  apply Forall_cons in Hr as [Hp Hr]. rewrite Handle_literal by done. rewrite <- (assoc_L (++)). cbn [app].
  destruct (decide (p ∈ done_.*1)) as [Hin|Hout].
  - rewrite decide_False; [done|]. rewrite fmap_app. intros (_ & _ & HND)%NoDup_app. simpl in HND. by apply NoDup_cons in HND as [? _].
  - cbn [mbind option_bind]. apply IH; [done|by constructor|]. simpl. by constructor.
Qed.

(** *** Matching *)
Fixpoint request_segments (path : list gostring) : list gostring :=
  match path with
  | [] => []
  | raw :: rest => (if decide (raw = [] ∧ rest = []) then str "/" else pathUnescape raw) :: request_segments rest
  end.

Definition literal_node (n : node (H := H)) : Prop := Forall (λ x, ∃ l, x.1 = List.map literal l ∧ Forall (λ e, e ≠ []) l) n.

Lemma matchPath_nil path : matchPath ([] : node (H := H)) path = None.
Proof. induction path as [|raw rest IH]; [done|]. simpl. rewrite IH. case_decide; by rewrite ?IH. Qed.

Lemma child_literal_none n : literal_node n → child None n = [] ∧ child (Some []) n = [].
Proof.
  induction 1 as [|[segs x] n (l & E & Hl) Hn [IH1 IH2]]; [done|]. simpl in E. subst segs.
  destruct l as [|e l]; simpl; [done|]. apply Forall_cons in Hl as [He _].
  rewrite !decide_False by (unfold seg_key; simpl; congruence). done.
Qed.

Lemma child_literal_node k n : literal_node n → literal_node (child (Some k) n).
Proof.
  induction 1 as [|[segs x] n (l & E & Hl) Hn IH]; [constructor|]. simpl in E. subst segs.
  destruct l as [|e l]; simpl; [done|]. apply Forall_cons in Hl as [_ Hl]. case_decide; [|done]. constructor; [by exists l|done].
Qed.

Definition select (path : list gostring) (n : node (H := H)) : option (pattern * H) :=
  head (omap (λ '(segs, x), if decide (List.map seg_key segs = List.map Some path) then Some x else None) n).

Lemma matchPath_literal n path : literal_node n → matchPath n path = select (request_segments path) n.
Proof.
  revert n. induction path as [|raw rest IH]; intros n Hn.
  - cbn [matchPath request_segments]. unfold leaf, select. f_equal. apply omap_ext_all. intros [[|sg segs] x]; [done|].
    cbn [List.map]. by rewrite decide_False.
  - cbn [matchPath request_segments]. set (seg := if decide _ then _ else _).
    destruct (child_literal_none n Hn) as [-> ->]. rewrite matchPath_nil. rewrite IH by by apply child_literal_node.
    assert (select (request_segments rest) (child (Some seg) n) = select (seg :: request_segments rest) n) as ->.
    { unfold select, child. rewrite omap_omap_all. f_equal. apply omap_ext_all. intros [[|sg segs] x]; cbn [List.map mbind option_bind]; [done|].
      destruct (decide (seg_key sg = Some seg)) as [E|E]; cbn [mbind option_bind].
      - rewrite E. by repeat case_decide; congruence.
      - by rewrite decide_False by congruence. }
    destruct (select _ n); [done|]. by case_decide.
Qed.

Definition find_route (segs : list gostring) routes : option (pattern * H) :=
  head (omap (λ '(p, h), if decide (path_elements p = segs) then Some (literal_pattern p, h) else None) routes).

Lemma method_node_literal routes host method :
  method_node (literal_mux routes) host method =
    if decide (host = [] ∧ method = []) then List.map (λ '(p, h), (List.map literal (path_elements p), (literal_pattern p, h))) routes else [].
Proof.
  unfold method_node, literal_mux, ServeMux, node in *. induction routes as [|[p h] routes IH]; [by case_decide|]. rewrite !List.map_cons.
  rewrite filter_cons. cbn [fst pat_host pat_method literal_pattern].
  destruct (decide (host = [] ∧ method = [])) as [[-> ->]|Hno].
  - rewrite decide_True by done. cbn [List.map fst]. by rewrite IH.
  - rewrite decide_False by naive_solver. exact IH.
Qed.

Lemma match_literal routes host method path :
  Forall (λ x, literal_path x.1) routes →
  match_request (literal_mux routes) host method path = find_route (request_segments (path_elements path)) routes.
Proof.
  intros Hr.
  assert (∀ h m, matchPath (method_node (literal_mux routes) h m) (path_elements path) =
            if decide (h = [] ∧ m = []) then find_route (request_segments (path_elements path)) routes else None) as E.
  { intros h m. rewrite method_node_literal. case_decide; [|apply matchPath_nil]. rewrite matchPath_literal.
    - unfold select, find_route. f_equal. clear. induction routes as [|[p h'] routes IH]; [done|]. csimpl. rewrite literal_keys.
      destruct (decide (path_elements p = request_segments (path_elements path))) as [->|Hne].
      + rewrite decide_True by done. by rewrite IH.
      + rewrite decide_False by (by intros ?%map_Some_inj). apply IH.
    - apply Forall_forall. intros x ([p h'] & <- & Hin%list_elem_of_In)%list_elem_of_In%in_map_iff. exists (path_elements p). split; [done|].
      rewrite Forall_forall in Hr. destruct (Hr _ Hin) as (_ & _ & Hl). eapply Forall_impl; [exact Hl|]. by intros e [? _]. }
  unfold match_request, matchMethodAndPath. rewrite !E.
  destruct (find_route _ routes) as [x|]; repeat case_decide; naive_solver.
Qed.

Lemma request_segments_literal l : Forall literal_element l → request_segments l = l.
Proof.
  induction 1 as [|e l He Hl IH]; [done|]. simpl. rewrite decide_False by (intros [? _]; by destruct He).
  rewrite IH, pathUnescape_id; [done|]. apply (literal_no _ _ He). by_decide.
Qed.

Lemma find_route_some routes segs x : find_route segs routes = Some x → ∃ p, p ∈ routes.*1 ∧ path_elements p = segs.
Proof.
  unfold find_route. intros E%head_Some_elem_of. apply list_elem_of_omap in E as ([p h] & Hin & E). case_decide; [|done].
  exists p. split; [|done]. apply list_elem_of_fmap. by exists (p, h).
Qed.

Lemma find_route_own routes p h :
  Forall (λ x, literal_path x.1) routes → NoDup routes.*1 → (p, h) ∈ routes → find_route (path_elements p) routes = Some (literal_pattern p, h).
Proof.
  unfold find_route. induction routes as [|[q h'] routes IH]; [by intros _ _ ?%elem_of_nil|].
  intros [Hq Hr]%Forall_cons [Hn HN]%NoDup_cons Hin. csimpl. apply elem_of_cons in Hin as [[= -> ->]|Hin]; [by rewrite decide_True|].
  rewrite decide_False; [by apply IH|]. intros E. apply Hn, list_elem_of_fmap. exists (p, h). split; [|done].
  rewrite Forall_forall in Hr. apply literal_elements_inj; [done|by apply (Hr _ Hin)|done].
Qed.

(** No literal path matches a path with a final slash. *)
Lemma request_segments_slash l : ends_with_slash (join_path l) = true → Forall (λ e, "/"%char ∉ e) l → str "/" ∈ request_segments l.
Proof.
  intros Hs Hl. apply bool_decide_eq_true in Hs. destruct l as [|e l _] using rev_ind; [done|]. rewrite last_join in Hs.
  apply Forall_app in Hl as [_ He]. apply Forall_cons in He as [He _]. case_decide as Hnil; [|by apply last_Some_elem_of in Hs].
  subst e. clear. induction l as [|e l IH]; [by_decide|]. simpl. by apply elem_of_cons; right.
Qed.

Lemma find_route_slash routes path :
  Forall (λ x, literal_path x.1) routes → head path = Some "/"%char → ends_with_slash path = true →
  find_route (request_segments (path_elements path)) routes = None.
Proof.
  intros Hr Hh Hs. destruct (find_route _ routes) as [x|] eqn:E; [|done]. apply find_route_some in E as (p & Hp & Hel).
  destruct path as [|c path]; [done|]. injection Hh as ->. rewrite path_rejoin in Hs.
  assert (Forall (λ e, "/"%char ∉ e) (path_elements ("/"%char :: path))) as Hno by apply Split_no_sep.
  pose proof (request_segments_slash _ Hs Hno) as Hin. rewrite <- Hel in Hin.
  apply list_elem_of_fmap in Hp as ([q h] & -> & Hp). rewrite Forall_forall in Hr. destruct (Hr _ Hp) as (_ & _ & Hl). rewrite Forall_forall in Hl.
  exfalso. by apply (literal_no "/"%char _ (Hl _ Hin)); by_decide.
Qed.

Lemma request_segments_plain l :
  Forall (λ e, "%"%char ∉ e) l → str "/" ∉ request_segments l → request_segments l = l.
Proof.
  induction 1 as [|e l He Hl IH]; [done|]. simpl. rewrite not_elem_of_cons. intros [H1 H2]. case_decide as Hd; [done|].
  by rewrite pathUnescape_id, IH.
Qed.

Lemma elem_of_split_on sep cur s e c : e ∈ split_on sep cur s → c ∈ e → c ∈ cur ∨ c ∈ s.
Proof.
  revert cur. induction s as [|b s IH]; intros cur; simpl.
  - intros ->%list_elem_of_singleton. rewrite elem_of_reverse. auto.
  - case_decide; [intros [->|Hin]%elem_of_cons|intros Hin]; rewrite ?elem_of_reverse, ?elem_of_cons.
    + auto.
    + intros Hc. destruct (IH _ Hin Hc) as [?%elem_of_nil|?]; auto. done.
    + intros Hc. destruct (IH _ Hin Hc) as [[?|?]%elem_of_cons|?]; auto.
Qed.

(** A request path without escapes that matches a literal path is that path. *)
Lemma route_of_path q p :
  head q = Some "/"%char → "%"%char ∉ q → literal_path p → path_elements p = request_segments (path_elements q) → q = p.
Proof.
  intros Hh Hq (Hp & _ & Hl) E. destruct q as [|c q]; [done|]. injection Hh as ->.
  rewrite request_segments_plain in E.
  - rewrite Hp, E. apply path_rejoin.
  - apply Forall_forall. intros e He Hc. unfold path_elements, Split in He. apply Hq.
    destruct (elem_of_split_on "/"%char [] ("/"%char :: q) e "%"%char) as [?%elem_of_nil|?]; try done.
    revert He. case (split_on "/"%char [] ("/"%char :: q)) as [|x l]; [done|]. intros He. by apply elem_of_cons; right.
  - rewrite <- E. intros Hin. rewrite Forall_forall in Hl. by apply (literal_no "/"%char _ (Hl _ Hin)); by_decide.
Qed.

Lemma cleanPath_head p : head (cleanPath p) = Some "/"%char.
Proof.
  unfold cleanPath. case_decide; [done|].
  assert (∀ q, head (Clean q) = Some "/"%char) as Hc by (intros q; unfold Clean; by destruct (clean_elements [] _)).
  set (q := if decide _ then _ else _). clearbody q. case_match; [|apply Hc]. specialize (Hc q). by destruct (Clean q).
Qed.

Lemma no_subtree_redirect routes host method path :
  Forall (λ x, literal_path x.1) routes → head path = Some "/"%char →
  exactMatch (match_request (literal_mux routes) host method (path ++ str "/")) (path ++ str "/") = false.
Proof.
  intros Hr Hh. rewrite match_literal, find_route_slash; [done|done|by destruct path| |done]. unfold ends_with_slash. apply bool_decide_eq_true.
  apply last_snoc.
Qed.

Lemma literal_not_found routes host path :
  Forall (λ x, literal_path x.1) routes → find_route (request_segments (path_elements path)) routes = None →
  matching_methods (literal_mux routes) host path = false.
Proof.
  intros Hr Hn. unfold matching_methods. apply not_true_iff_false. intros (x & Hx & Hm)%existsb_exists.
  assert (∀ h m, match_request (literal_mux routes) h m path = None) as E by (intros; by rewrite match_literal).
  assert (∀ h m, matchMethodAndPath (literal_mux routes) h m path = None) as E'.
  { intros h m. specialize (E h m). unfold match_request in E. destruct (decide (h = [])) as [->|]; [done|]. by destruct (matchMethodAndPath _ h m path). }
  by rewrite !E' in Hm.
Qed.

(** A multiplexer over literal paths serves each of them, and nothing else. *)
Lemma literal_mux_serves routes host method escaped url :
  Forall (λ x, literal_path x.1) routes →
  findHandler (literal_mux routes) host method escaped url =
    if decide (cleanPath escaped ≠ escaped) then Redirected (cleanPath escaped)
    else match find_route (request_segments (path_elements escaped)) routes with Some (_, h) => Handled h | None => PageNotFound end.
Proof.
  intros Hr. unfold findHandler. rewrite no_subtree_redirect by (done || apply cleanPath_head). rewrite andb_false_r.
  destruct (decide (cleanPath escaped ≠ escaped)) as [|E]; [done|]. apply dec_stable in E. rewrite !E, match_literal by done.
  destruct (find_route _ routes) as [[p h]|] eqn:Ef; [done|]. by rewrite literal_not_found.
Qed.
End literal_mux.
