(* ===== verification/ApiHandlers.v ===== *)
(** * internal/api/handlers.go: admission, streaming and probes

    The handlers on the state of one request ([Web]: the shared gateway state
    and the request's response writer).  [Events] is cut where goroutines can
    interleave: [handler_step] runs one stretch of it (the early refusals and
    the semaphore; the ticket and the advisory limits; the registration; the
    response headers and the first frame; one turn of the [select] loop; the
    deferred [Unregister]) and answers where the handler stands next.
    [Events] chains the stretches.  A [choice] holds what the program does not
    decide: the time, the address and random identifier of the new client, the
    case the [select] takes and the outcome of a network write.  The ticket
    validator is any instance of the [TicketValidator] interface. *)

From S2P Require Import Prelude GoStrings Hashutil Chan Frame Quota Client Shard Hub HubSpec HubBroadcast HubRevoke HubRun Router Json Auth ApiHttp.

Local Open Scope Z_scope.

(** What a validator promises of the capabilities it grants. *)
Class TicketValidator := {
  validate_ticket : Z → gostring → result AuthErr Capability;
  validate_ticket_promise now raw c : validate_ticket now raw = Ok c →
    cap_UserID c ≠ [] ∧ cap_TenantID c ≠ [] ∧ cap_Topics c ≠ [];
}.

(** The JWT validator keeps the promise, whatever its parser. *)
Lemma jwt_promise parse v now raw c :
  Validate parse now v raw = Ok c → cap_UserID c ≠ [] ∧ cap_TenantID c ≠ [] ∧ cap_Topics c ≠ [].
Proof. intros H%Validate_ok. naive_solver. Qed.

Definition jwt_validator parse (v : JWTValidator) : TicketValidator :=
  {| validate_ticket now raw := Validate parse now v raw; validate_ticket_promise := jwt_promise parse v |}.

(** ** State *)
Record HandlerConfig := mkHandlerConfig {
  MaxPendingHandshakes : Z;
  QueryParameter : gostring;
  ClientQueueSize : Z;
  ClientSlowPolicy : gostring;
  ClientWriteTimeout : Z;
  HeartbeatInterval : Z;            (* nanoseconds *)
  has_metrics : bool;               (* [h.metrics != nil] *)
}.

(** [cap(h.handshakeSem)] *)
Definition sem_cap (cfg : HandlerConfig) : Z :=
  if decide (MaxPendingHandshakes cfg ≤ 0) then 1000 else MaxPendingHandshakes cfg.

(** What the requests share. *)
Record Gateway := mkGateway {
  g_hub : Hub;
  handshakeSem : Z;                 (* tokens in the channel *)
  isShuttingDown : bool;
  ConnectionsActive : Z;
  ConnectionsTotal : Z;
  ClientsDisconnectedTotal : Z;
}.
Record Web := mkWeb { w_gw : Gateway; w_writer : Writer }.

Definition set_hub (h : Hub) (g : Gateway) : Gateway :=
  mkGateway h (handshakeSem g) (isShuttingDown g) (ConnectionsActive g) (ConnectionsTotal g) (ClientsDisconnectedTotal g).
Definition add_sem (z : Z) (g : Gateway) : Gateway :=
  mkGateway (g_hub g) (handshakeSem g + z) (isShuttingDown g) (ConnectionsActive g) (ConnectionsTotal g) (ClientsDisconnectedTotal g).
Definition SetShuttingDown (b : bool) (g : Gateway) : Gateway :=
  mkGateway (g_hub g) (handshakeSem g) b (ConnectionsActive g) (ConnectionsTotal g) (ClientsDisconnectedTotal g).

(** The connection gauges, when metrics are on. *)
Definition conn_opened (cfg : HandlerConfig) (g : Gateway) : Gateway :=
  if has_metrics cfg
  then mkGateway (g_hub g) (handshakeSem g) (isShuttingDown g) (ConnectionsActive g + 1) (ConnectionsTotal g + 1) (ClientsDisconnectedTotal g)
  else g.
Definition conn_closed (cfg : HandlerConfig) (g : Gateway) : Gateway :=
  if has_metrics cfg
  then mkGateway (g_hub g) (handshakeSem g) (isShuttingDown g) (ConnectionsActive g - 1) (ConnectionsTotal g) (ClientsDisconnectedTotal g + 1)
  else g.

Definition on_whub {A} (m : M Hub A) : M Web A := λ w,
  match m (g_hub (w_gw w)) with
  | None => None
  | Some (a, h) => Some (a, mkWeb (set_hub h (w_gw w)) (w_writer w))
  end.
Definition on_writer {A} (m : M Writer A) : M Web A := λ w,
  match m (w_writer w) with
  | None => None
  | Some (a, x) => Some (a, mkWeb (w_gw w) x)
  end.
Definition on_gw (f : Gateway → Gateway) : M Web () := modify (λ w, mkWeb (f (w_gw w)) (w_writer w)).

(** [err.Error()] of the hub's and the quota tracker's errors. *)
Definition quota_text (e : QuotaErr) : gostring :=
  match e with
  | ErrMaxConnectionsReached n =>
      str "plafond maximal de connexions simultanées atteint sur la passerelle (" ++ FormatInt n ++ str ")"
  | ErrMaxConnectionsPerUserReached n =>
      str "nombre maximal de connexions simultanées dépassé pour cet utilisateur (max: " ++ FormatInt n ++ str ")"
  | ErrMaxConnectionsPerTenantReached n =>
      str "nombre maximal de connexions simultanées dépassé pour ce tenant (max: " ++ FormatInt n ++ str ")"
  end.
Definition limit_text (e : HubErr) : gostring :=
  match e with
  | ErrMaxTopicsExceeded => str "nombre maximal de topics par connexion dépassé"
  | ErrHubClosed => str "le hub SSE est arrêté"
  | ErrQuota e => quota_text e
  end.

(** The case the [select] of the streaming loop takes. *)
Inductive select_case := CaseContextDone | CaseClientDone | CaseSend.

Record choice := mkChoice {
  ch_now : Z;
  ch_ptr : positive;
  ch_random : gostring;
  ch_case : select_case;
  ch_write : bool;
}.

(** Where the handler of [/v1/events] stands. *)
Inductive pc :=
| PStart                        (* not started *)
| PTicket                       (* in [admit], holding a semaphore slot *)
| PAdmit (c : Capability)       (* ticket and advisory limits passed *)
| POpen (c : Client)            (* registered *)
| PStream (c : Client)          (* in the loop *)
| PUnregister (c : Client)      (* the deferred call *)
| PEnd.

Section handler.
Context `{!TicketValidator} (cfg : HandlerConfig) (router : Router).

Definition ticketParam : gostring :=
  if decide (QueryParameter cfg = []) then str "ticket" else QueryParameter cfg.

(** [r.URL.Query().Get(ticketParam)] *)
Definition rawTicket (r : Request) : gostring := default [] (rq_Query r !! ticketParam).

(** The non-blocking send on the semaphore. *)
Definition acquire_slot : M Web bool := λ w,
  if decide (handshakeSem (w_gw w) < sem_cap cfg)
  then Some (true, mkWeb (add_sem 1 (w_gw w)) (w_writer w))
  else Some (false, w).

(** [Events] and [admit] up to the semaphore. *)
Definition events_start (r : Request) : M Web pc :=
  shutting ← gets (λ w, isShuttingDown (w_gw w));
  if shutting : bool then
    on_writer (respondError 503 (str "service en cours d'arrêt") (str "les nouvelles connexions sont temporairement refusées")) ;;
    mret PEnd
  else if decide (rq_Method r ≠ str "GET") then
    on_writer (respondError 405 (str "méthode non autorisée") (str "seule la méthode GET est acceptée pour le flux SSE")) ;;
    mret PEnd
  else
    slot ← acquire_slot;
    if slot : bool then mret PTicket
    else
      on_writer (respondError 503 (str "serveur saturé") (str "le nombre maximal de handshakes simultanés est atteint")) ;;
      mret PEnd.

(** [admit]: a refusal releases the slot (deferred). *)
Definition refuse (code : Z) (message details : gostring) : M Web pc :=
  on_writer (respondError code message details) ;;
  on_gw (add_sem (-1)) ;;
  mret PEnd.

(** [admit]: the ticket and the advisory check of the limits. *)
Definition admit_ticket (now : Z) (r : Request) : M Web pc :=
  if decide (rawTicket r = []) then
    refuse 401 (str "ticket manquant") (str "le paramètre d'URL '" ++ ticketParam ++ str "' est obligatoire")
  else match validate_ticket now (rawTicket r) with
  | Err _ => refuse 401 (str "authentification échouée") (str "ticket invalide ou expiré")
  | Ok capability =>
      limits ← on_whub (CheckLimits (cap_TenantID capability) (cap_UserID capability)
                          (Z.of_nat (length (cap_Topics capability))));
      match limits with
      | Err e => refuse 429 (str "limite de connexions atteinte") (limit_text e)
      | Ok _ => mret (PAdmit capability)
      end
  end.

(** The client [admit] builds for a capability. *)
Definition admitted_client (p : positive) (random : gostring) (capability : Capability) : Client * ClientState :=
  Client.NewClient p (hex_EncodeToString random) (cap_UserID capability) (cap_TenantID capability)
    (BuildKey router (cap_TenantID capability) (cap_AppID capability) <$> cap_Topics capability)
    (ClientQueueSize cfg) (ClientSlowPolicy cfg) true.

(** [admit]: routing keys, client and registration. *)
Definition admit_register (p : positive) (random : gostring) (capability : Capability) : M Web pc :=
  let '(client, state) := admitted_client p random capability in
  on_whub (alloc_client client state) ;;
  reg ← on_whub (Hub.Register client (Topics client));
  match reg with
  | Err e => refuse 429 (str "échec d'enregistrement de la connexion") (limit_text e)
  | Ok _ => on_gw (add_sem (-1)) ;; mret (POpen client)
  end.

Definition writeTimeout : Z :=
  if decide (ClientWriteTimeout cfg ≤ 0) then 5 * second else ClientWriteTimeout cfg.

(** [Events]: headers, the "connected" frame and the gauges. *)
Definition events_open (now : Z) (ok : bool) (client : Client) : M Web pc :=
  on_writer (SetHeader "Content-Type" (str "text/event-stream; charset=utf-8")) ;;
  on_writer (SetHeader "Cache-Control" (str "no-cache, no-transform")) ;;
  on_writer (SetHeader "X-Accel-Buffering" (str "no")) ;;
  on_writer (SetWriteDeadline (now + writeTimeout)) ;;
  written ← on_writer (Write ok (Data (NewConnectedFrame (ID client) (HeartbeatInterval cfg `quot` second))));
  if written : bool then on_gw (conn_opened cfg) ;; mret (PStream client)
  else mret (PUnregister client).

(** Leaving the loop: the gauges' deferred function runs first. *)
Definition leave_loop (client : Client) : M Web pc :=
  on_gw (conn_closed cfg) ;; mret (PUnregister client).

(** One turn of the loop; a case that is not ready is not taken. *)
Definition events_select (now : Z) (case : select_case) (ok : bool) (client : Client) : M Web pc :=
  match case with
  | CaseContextDone => leave_loop client
  | CaseClientDone =>
      isDone ← on_whub (on_client client (gets Done));
      if isDone : bool then leave_loop client else mret (PStream client)
  | CaseSend =>
      received ← on_whub (take_frame client);
      match received with
      | WouldBlock => mret (PStream client)
      | EndOfStream => leave_loop client
      | Received frame _ =>
          on_writer (SetWriteDeadline (now + writeTimeout)) ;;
          written ← on_writer (Write ok (Data frame));
          if written : bool then mret (PStream client) else leave_loop client
      end
  end.

Definition handler_step (r : Request) (x : choice) (q : pc) : M Web pc :=
  match q with
  | PStart => events_start r
  | PTicket => admit_ticket (ch_now x) r
  | PAdmit capability => admit_register (ch_ptr x) (ch_random x) capability
  | POpen client => events_open (ch_now x) (ch_write x) client
  | PStream client => events_select (ch_now x) (ch_case x) (ch_write x) client
  | PUnregister client => on_whub (Hub.Unregister (Some client)) ;; mret PEnd
  | PEnd => mret PEnd
  end.

(** The handler run alone, one choice per stretch. *)
Fixpoint run_handler (r : Request) (xs : list choice) (q : pc) : M Web pc :=
  match xs with
  | [] => mret q
  | x :: xs' => q' ← handler_step r x q; run_handler r xs' q'
  end.
Definition Events (r : Request) (xs : list choice) : M Web pc := run_handler r xs PStart.
End handler.
