(* ===== verification/Server.v ===== *)
(** * The gateway under concurrent requests

    The HTTP server runs one handler per request on the shared hub, semaphore
    and gauges, next to the event lanes, the heartbeat and the revocation
    consumer.  [server_step] interleaves them: a request arrives, a handler
    advances by one stretch ([ApiHandlers.handler_step]), another component
    calls the hub, the shutdown flag is set.  [srv_inv] relates, in every
    reachable state, the live connections of the hub to the requests that own
    them, the semaphore to the handshakes in progress, and the gauge to the
    streams. *)

From S2P Require Import Prelude GoStrings Hashutil Chan Frame Quota Client Shard Hub HubSpec HubBroadcast HubRevoke HubRun Router Json Auth ApiHttp ApiHandlers.

Local Open Scope Z_scope.

(** ** What the hub never takes back

    [gone h p]: the client at address [p] has been unregistered; [told h p]: its
    notification channel is closed.  No operation of the hub undoes either, nor
    the closing of the hub ([later]); [keeps] is closed under the combinators, so
    that the proofs follow the code. *)
Definition gone (h : Hub) (p : positive) : Prop :=
  ∃ s, store h !! p = Some s ∧ unregistered s = true.
Definition told (h : Hub) (p : positive) : Prop :=
  ∃ s, store h !! p = Some s ∧ Done s = true.

Definition grows (s s' : ClientState) : Prop :=
  (unregistered s = true → unregistered s' = true) ∧ (Done s = true → Done s' = true).
#[global] Instance grows_preorder : PreOrder grows.
Proof. split; [by intros s|]. intros s1 s2 s3 [? ?] [? ?]. split; auto. Qed.

(** With [closing] false the hub is not closed on the way. *)
Definition later (closing : bool) (h h' : Hub) : Prop :=
  (hub_closed h = true → hub_closed h' = true) ∧ (closing = false → hub_closed h' = hub_closed h)
  ∧ ∀ p s, store h !! p = Some s → ∃ s', store h' !! p = Some s' ∧ grows s s'.
#[global] Instance later_preorder cl : PreOrder (later cl).
Proof.
  split; [intros h; split_and!; [done..|]; intros p s Hs; by exists s|].
  intros h1 h2 h3 (Ha & He & Hb) (Hc & He' & Hd). split_and!; [auto|intros Hf; by rewrite (He' Hf), (He Hf)|].
  intros p s Hs. destruct (Hb p s Hs) as (s' & Hs' & Hg). destruct (Hd p s' Hs') as (s'' & Hs'' & Hg'). exists s''. split; [done|by etrans].
Qed.
Lemma later_gone cl h h' p : later cl h h' → gone h p → gone h' p.
Proof. intros (_ & _ & Hl) (s & Hs & Hu). destruct (Hl p s Hs) as (s' & Hs' & Hg & _). exists s'. auto. Qed.
Lemma later_told cl h h' p : later cl h h' → told h p → told h' p.
Proof. intros (_ & _ & Hl) (s & Hs & Hu). destruct (Hl p s Hs) as (s' & Hs' & _ & Hg). exists s'. auto. Qed.
Lemma later_same cl h h' : store h' = store h → hub_closed h' = hub_closed h → later cl h h'.
Proof. intros E1 E2. split_and!; [by rewrite E2|done|]. rewrite E1. intros p s Hs. by exists s. Qed.

Definition keeps (closing : bool) {A} (m : M Hub A) : Prop := ∀ h a h', m h = Some (a, h') → later closing h h'.

Create HintDb keeps.

Lemma keeps_ret cl {A} (a : A) : keeps cl (mret a).
Proof. intros h a' h' [= <- <-]. done. Qed.
Lemma keeps_gets cl {A} (f : Hub → A) : keeps cl (gets f).
Proof. intros h a' h' [= <- <-]. done. Qed.
Lemma keeps_bind cl {A B} (m : M Hub A) (k : A → M Hub B) :
  keeps cl m → (∀ a, keeps cl (k a)) → keeps cl (m ≫= k).
Proof.
  intros Hm Hk h b h'. unfold mbind, M_bind. destruct (m h) as [[a h1]|] eqn:E; [|done].
  intros E'. etrans; [by eapply Hm|by eapply Hk].
Qed.
Lemma keeps_modify cl f :
  (∀ h, store (f h) = store h) → (∀ h, hub_closed h = true → hub_closed (f h) = true) →
  (∀ h, cl = false → hub_closed (f h) = hub_closed h) → keeps cl (modify f).
Proof. intros Hf Hc He h [] h' [= <-]. split_and!; [apply Hc|apply He|]. rewrite Hf. intros p s Hs. by exists s. Qed.
Lemma keeps_for_range cl {A} (l : list A) body : (∀ x, keeps cl (body x)) → keeps cl (for_range l body).
Proof. intros Hb. induction l as [|x l IH]; simpl; [apply keeps_ret|]. by apply keeps_bind. Qed.
Lemma keeps_getShard cl k : keeps cl (getShard k).
Proof. intros h a h' E. unfold getShard in E. by repeat case_match; simplify_eq. Qed.
Lemma keeps_on_shard cl {A} i (f : Shard → A * Shard) : keeps cl (on_shard i f).
Proof. intros h a h' E. unfold on_shard in E. repeat case_match; simplify_eq. by apply later_same. Qed.
Lemma keeps_read_shard cl {A} i (f : Shard → A) : keeps cl (read_shard i f).
Proof. intros h a h' E. unfold read_shard in E. by repeat case_match; simplify_eq. Qed.

(** Client operations never clear the flags. *)
Definition keeps_flag {A} (m : M ClientState A) : Prop := ∀ s a s', m s = Some (a, s') → grows s s'.

Lemma keeps_on_client cl {A} c (m : M ClientState A) : keeps_flag m → keeps cl (on_client c m).
Proof.
  intros Hm h a h' E. unfold on_client in E. destruct (store h !! ptr c) as [s0|] eqn:E0; [|done].
  destruct (m s0) as [[a' s1]|] eqn:E1; [|done]. simplify_eq. split_and!; [done..|]. simpl. intros p s Hs.
  destruct (decide (ptr c = p)) as [<-|Hne]; [|rewrite lookup_insert_ne by done; by exists s].
  rewrite lookup_insert_eq. exists s1. split; [done|]. simplify_eq. by eapply Hm.
Qed.

Lemma flag_Mark : keeps_flag MarkUnregistered.
Proof. intros s a s' E. unfold MarkUnregistered in E. by repeat case_match; simplify_eq. Qed.
Lemma flag_Close : keeps_flag Client.Close.
Proof. intros s a s' E. unfold Client.Close in E. by repeat case_match; simplify_eq. Qed.
Lemma flag_ret {A} (a : A) : keeps_flag (mret a).
Proof. intros s a' s' [= <- <-]. done. Qed.
Lemma flag_gets {A} (f : ClientState → A) : keeps_flag (gets f).
Proof. intros s a' s' [= <- <-]. done. Qed.
Lemma flag_bind {A B} (m : M ClientState A) (k : A → M ClientState B) :
  keeps_flag m → (∀ a, keeps_flag (k a)) → keeps_flag (m ≫= k).
Proof.
  intros Hm Hk s b s' E. unfold mbind, M_bind in E. destruct (m s) as [[a s1]|] eqn:E1; [|done].
  etrans; [by eapply Hm|by eapply Hk].
Qed.
Lemma flag_send frame : keeps_flag (send_nb frame).
Proof. intros s a s' E. unfold send_nb in E. by repeat case_match; simplify_eq. Qed.
Lemma flag_discard : keeps_flag discard_oldest.
Proof. intros s a s' [= <- <-]. by destruct (recv (Send s)). Qed.

#[export] Hint Resolve keeps_ret keeps_gets keeps_bind keeps_for_range keeps_getShard keeps_on_shard
  keeps_read_shard keeps_on_client flag_Mark flag_Close flag_ret flag_gets flag_bind flag_send flag_discard : keeps.
#[export] Hint Extern 2 (keeps _ (modify _)) => apply keeps_modify; intros; repeat case_match; first [reflexivity|done] : keeps.
#[export] Hint Extern 2 (keeps _ (if ?b then _ else _)) => destruct b : keeps.
#[export] Hint Extern 2 (keeps _ (match ?x with _ => _ end)) => destruct x : keeps.
#[export] Hint Extern 2 (keeps_flag (if ?b then _ else _)) => destruct b : keeps.
#[export] Hint Extern 2 (keeps_flag (match ?x with _ => _ end)) => destruct x : keeps.

Lemma flag_Enqueue c frame : keeps_flag (EnqueueFrame c frame).
Proof. unfold EnqueueFrame. auto 20 with keeps. Qed.
Lemma keeps_enqueue cl c frame : keeps cl (enqueue c frame).
Proof. unfold enqueue, NotifySlowClient. pose proof flag_Enqueue. auto 10 with keeps. Qed.
Lemma keeps_enqueue_all cl cs frame : keeps cl (enqueue_all cs frame).
Proof. pose proof keeps_enqueue. induction cs; simpl; auto 10 with keeps. Qed.
#[export] Hint Resolve keeps_enqueue_all : keeps.

Lemma keeps_Register cl c ks : keeps cl (Register c ks).
Proof.
  assert (∀ t u, keeps cl (quota_acquire t u)).
  { intros t u h a h' E. unfold quota_acquire in E. repeat case_match; simplify_eq; by apply later_same. }
  unfold Register. auto 20 with keeps.
Qed.
Lemma keeps_Unregister cl c : keeps cl (Unregister c).
Proof. unfold Unregister. destruct c; auto 20 with keeps. Qed.
Lemma keeps_take cl c : keeps cl (take_frame c).
Proof.
  apply keeps_on_client. intros s a s' E. destruct (recv (Send s)); by simplify_eq.
Qed.

Section exec.
Context `{!GoRange}.

Lemma keeps_broadcast cl k (r : result () (option Frame)) h a h' :
  ConditionalBroadcast k (mret r) (h, ()) = Some (a, (h', ())) → later cl h h'.
Proof.
  unfold ConditionalBroadcast, on_hub, on_env, mbind, M_bind, mret, M_ret, modify. simpl.
  intros E. destruct (getShard k h) as [[i h1]|] eqn:E1; [|done]. apply (keeps_getShard cl) in E1. cbn [fst snd] in E.
  destruct (read_shard i (GetRecipients k) h1) as [[rs h2]|] eqn:E2; [|done]. apply (keeps_read_shard cl) in E2. simpl in E.
  assert (later cl h h2) as H2 by (by etrans).
  destruct (decide (rs = [])) as [Hrs|Hrs]; [by simplify_eq|]. destruct r as [[frame|]|e]; simpl in E; [|by simplify_eq..].
  destruct (enqueue_all rs frame h2) as [[n h3]|] eqn:E3; [|done]. apply (keeps_enqueue_all cl) in E3. simplify_eq.
  etrans; [exact H2|]. etrans; [exact E3|]. apply later_same; simpl; by destruct (onFanout h3).
Qed.

(** Calls made by the rest of the program. *)
Definition internal_call (op : call) : Prop :=
  match op with
  | CConnect _ _ | CUnregister _ | CTake _ => False
  | _ => True
  end.

Definition closes (op : call) : bool := match op with CClose => true | _ => false end.
Lemma keeps_exec op L : internal_call op → keeps (closes op) (exec op L).
Proof.
  destruct op as [c s|c|t u|k r|frame|interval payload|c|]; intros Hop; try done; simpl.
  - unfold InvalidateUser. assert (∀ cs, keeps false (close_matched cs)) as Hc.
    { induction cs; simpl; unfold revoke_client; auto 10 with keeps. }
    assert (∀ ix, keeps false (invalidate_shards t u ix)) as Hs by (induction ix; simpl; auto 10 with keeps).
    auto with keeps.
  - intros h L' h' E. destruct (ConditionalBroadcast k (mret r) (h, ())) as [[a [h1 []]]|] eqn:E1; [|done].
    simplify_eq. by eapply keeps_broadcast.
  - unfold BroadcastHeartbeat. auto 10 with keeps.
  - unfold StartHeartbeat. auto 10 with keeps.
  - unfold Hub.Close. auto 20 with keeps.
Qed.

(** Such a call leaves every connection live or unregistered. *)
Lemma exec_internal op L h :
  run_inv (L, h) → internal_call op →
  wp (exec op L) (λ L' h', run_inv (L', h') ∧ L' ⊆ L ∧ (∀ c, c ∈ L → c ∈ L' ∨ gone h' (ptr c))
                           ∧ (∀ p, gone h p → gone h' p)) h.
Proof.
  intros Hi Hop. pose proof (exec_spec op L h Hi ltac:(by destruct op)) as Hwp.
  destruct (wp_run _ _ _ Hwp) as (L' & h' & E & Hi'). eapply wp_of_run; [done|].
  assert (∀ p, gone h p → gone h' p) as Hk by (intros p; by eapply later_gone, (keeps_exec op L Hop h L')).
  split; [done|].
  destruct op as [c s|c|t u|k r|frame|interval payload|c|]; try done; simpl in E;
    unfold mbind, M_bind, mret, M_ret in E; try (repeat case_match; simplify_eq; naive_solver).
  destruct (wp_run _ _ _ (InvalidateUser_spec L t u h (proj1 Hi))) as (n & h1 & E1 & Hiv).
  rewrite E1 in E. simplify_eq. split; [by intros c [_ ?]%list_elem_of_filter|]. split; [|done].
  intros c Hc. destruct (decide (user_match t u c)) as [Hm|Hm]; [right|left; by apply list_elem_of_filter].
  destruct (hi_live _ _ (proj1 Hi) c Hc) as (s & Hs & _). simpl in Hs.
  exists (revoke s). split; [|done]. rewrite (iv_store _ _ _ _ _ _ _ Hiv), Hs, decide_True; [done| |done].
  by apply (matched_all L t u h (proj1 Hi) (proj2 Hi)).
Qed.
(** *** A closed hub has told everyone *)
Definition closed_told (x : list Client * Hub) : Prop :=
  hub_closed x.2 = true → ∀ c, c ∈ x.1 → told x.2 (ptr c).

Lemma keeps_connect c s L h L' h' :
  store h !! ptr c = None → exec (CConnect c s) L h = Some (L', h') →
  later false h h' ∧ (hub_closed h = true → L' = L).
Proof.
  intros Hn E. simpl in E. unfold alloc_client, modify, mbind, M_bind in E. simpl in E.
  destruct (Register c (Topics c) _) as [[r h1]|] eqn:Er; [|done]. injection E as <- <-. split.
  - etrans; [|exact (keeps_Register false c (Topics c) _ _ _ Er)]. split_and!; [done..|]. intros p s0 Hs. exists s0. simpl.
    rewrite lookup_insert_ne by congruence. by split.
  - intros Hc. unfold Register, mbind, M_bind, gets in Er. simpl in Er. rewrite Hc in Er. by injection Er as <- <-.
Qed.

(** A call other than [Close] on a closed hub registers nobody. *)
Lemma call_later op L h L' h' :
  callable op L h → closes op = false → exec op L h = Some (L', h') →
  later false h h' ∧ (hub_closed h = true → L' ⊆ L).
Proof.
  intros Hc Hcl E. destruct op as [c s|c|t u|k r|frame|interval payload|c|]; try done.
  1: { destruct Hc as [Hn _]. destruct (keeps_connect c s L h L' h' Hn E) as [Hl HL]. split; [done|]. by intros ->%HL. }
  1: { apply M_bind_inv in E as (u & h1 & Eu & [= <- <-]).
       split; [by eapply keeps_Unregister|]. by intros _ x [_ ?]%list_elem_of_filter. }
  5: { apply M_bind_inv in E as (u & h1 & Eu & [= <- <-]).
       split; [by eapply keeps_take|done]. }
  all: split; [refine (keeps_exec _ L _ _ _ _ E); done|]; intros _; cbn [exec] in E;
    first [apply M_bind_inv in E as (? & ? & _ & [= <- <-])|repeat case_match; simplify_eq]; try done.
  by intros y [_ ?]%list_elem_of_filter.
Qed.

Lemma Close_told L h h' :
  run_inv (L, h) → closed_told (L, h) → Hub.Close h = Some ((), h') → hub_closed h' = true ∧ closed_told (L, h').
Proof.
  intros [Hi Ht] Hc E. destruct (hub_closed h) eqn:Eh; [rewrite hub_Close_idempotent in E by done; by simplify_eq|].
  destruct (wp_run _ _ _ (hub_Close_spec L h Hi Eh)) as ([] & h1 & E1 & _ & Hcl & _ & _ & Hst). simplify_eq. split; [done|].
  intros _ c Hin. destruct (hi_live _ _ Hi c Hin) as (s & Hs & _). simpl in Hs. exists (close_state c s). split; [|done].
  simpl. by rewrite (Hst c Hin (Ht c Hin)), Hs.
Qed.

Lemma closed_told_step x y : hub_step x y → run_inv x → closed_told x → closed_told y.
Proof.
  intros [op L h L' h' Hc E] Hi Ht. destruct (closes op) eqn:Ecl.
  - destruct op; try done. apply M_bind_inv in E as ([] & h1 & Eh & [= <- <-]).
    by eapply Close_told.
  - destruct (call_later op L h L' h' Hc Ecl E) as [Hl HL]. intros Hcl c Hin. pose proof Hl as (_ & He & _). simpl in Hcl. rewrite He in Hcl by done.
    eapply later_told; [done|]. by apply Ht, HL.
Qed.
Lemma closed_told_steps x y : rtc hub_step x y → run_inv x → closed_told x → closed_told y.
Proof.
  induction 1 as [|x y z Hxy _ IH]; [done|]. intros Hi Ht. apply IH; [|by eapply closed_told_step].
  eapply run_inv_steps; [by apply rtc_once|done].
Qed.
End exec.

(** ** Requests and steps *)
Record Req := mkReq { req : Request; at_pc : pc; req_writer : Writer }.
Definition Server : Type := Gateway * list Req.

(** The connection a handler has to unregister. *)
Definition owner (q : pc) : option Client :=
  match q with
  | POpen c | PStream c | PUnregister c => Some c
  | _ => None
  end.
Definition in_handshake (q : pc) : bool := match q with PTicket | PAdmit _ => true | _ => false end.
Definition streaming (q : pc) : bool := match q with PStream _ => true | _ => false end.

Definition slots (qs : list Req) : nat := count (λ q, in_handshake (at_pc q) = true) qs.
Definition streams (qs : list Req) : nat := count (λ q, streaming (at_pc q) = true) qs.

Section server.
Context `{!GoRange, !TicketValidator} (cfg : HandlerConfig) (router : Router).

(** A new client gets an unused address, and its random identifier is none of
    those in use. *)
Definition fresh_choice (x : choice) (S : Server) : Prop :=
  store (g_hub S.1) !! ch_ptr x = None
  ∧ ∀ q c, q ∈ S.2 → owner (at_pc q) = Some c → ID c ≠ hex_EncodeToString (ch_random x).

Inductive server_step : Server → Server → Prop :=
| arrive g qs r w : server_step (g, qs) (g, qs ++ [mkReq r PStart w])
| handle g qs i q x q' g' w' :
    qs !! i = Some q → fresh_choice x (g, qs) →
    handler_step cfg router (req q) x (at_pc q) (mkWeb g (req_writer q)) = Some (q', mkWeb g' w') →
    server_step (g, qs) (g', <[i := mkReq (req q) q' w']> qs)
| other g qs op L h' :
    internal_call op → exec op [] (g_hub g) = Some (L, h') →
    server_step (g, qs) (set_hub h' g, qs)
| shut_down g qs b : server_step (g, qs) (SetShuttingDown b g, qs).

Definition start_gateway (n : Z) (limits : LimitsConfig) : Gateway := mkGateway (NewHub n limits) 0 false 0 0 0.

(** The connection [c] was granted by the ticket of the request [r]: its
    identity and its routing keys are the ticket's. *)
Definition granted (r : Request) (c : Client) : Prop :=
  ∃ now p random capability,
    validate_ticket now (rawTicket cfg r) = Ok capability ∧ c = (admitted_client cfg router p random capability).1.

Definition pc_granted (r : Request) (q : pc) : Prop :=
  match q with
  | PAdmit capability => ∃ now, validate_ticket now (rawTicket cfg r) = Ok capability
  | POpen c | PStream c | PUnregister c => granted r c
  | _ => True
  end.

Definition live_or_gone (L : list Client) (h : Hub) (c : Client) : Prop := c ∈ L ∨ gone h (ptr c).

Record srv_inv_at (L : list Client) (S : Server) : Prop := {
  si_hub : run_inv (L, g_hub S.1);
  si_owned c : c ∈ L → ∃ q, q ∈ S.2 ∧ owner (at_pc q) = Some c;
  si_owner q c : q ∈ S.2 → owner (at_pc q) = Some c → live_or_gone L (g_hub S.1) c;
  si_granted q : q ∈ S.2 → pc_granted (req q) (at_pc q);
  si_sem : handshakeSem S.1 = Z.of_nat (slots S.2);
  si_cap : handshakeSem S.1 ≤ sem_cap cfg;
  si_active : ConnectionsActive S.1 = (if has_metrics cfg then Z.of_nat (streams S.2) else 0);
}.
Definition srv_inv (S : Server) : Prop := ∃ L, srv_inv_at L S.

(** *** One stretch of a handler *)
Definition slot (q : pc) : Z := if in_handshake q then 1 else 0.
Definition stream_of (q : pc) : Z := if has_metrics cfg && streaming q then 1 else 0.

Record stretch (r : Request) (L : list Client) (g : Gateway) (q : pc) (L' : list Client) (g' : Gateway) (q' : pc) : Prop := {
  st_hub : run_inv (L', g_hub g');
  st_keep c : live_or_gone L (g_hub g) c → live_or_gone L' (g_hub g') c;
  st_owner c : owner q' = Some c → live_or_gone L' (g_hub g') c;
  st_owned c : c ∈ L' → owner q' = Some c ∨ c ∈ L ∧ owner q ≠ Some c;
  st_granted : pc_granted r q';
  st_sem : handshakeSem g' = handshakeSem g + slot q' - slot q;
  st_cap : handshakeSem g' ≤ Z.max (handshakeSem g) (sem_cap cfg);
  st_active : ConnectionsActive g' = ConnectionsActive g + stream_of q' - stream_of q;
}.

(** Rules for the parts of the state of a request. *)
Lemma wp_on_whub {A} (m : M Hub A) (Q : A → Web → Prop) g wr :
  wp m (λ a h', Q a (mkWeb (set_hub h' g) wr)) (g_hub g) → wp (on_whub m) Q (mkWeb g wr).
Proof. unfold wp, on_whub. simpl. by destruct (m (g_hub g)) as [[a h']|]. Qed.

Lemma wp_on_writer {A} (m : M Writer A) (Q : A → Web → Prop) g wr :
  (∀ w, is_Some (m w)) → (∀ a wr', Q a (mkWeb g wr')) → wp (on_writer m) Q (mkWeb g wr).
Proof. intros Hm HQ. unfold wp, on_writer. simpl. by destruct (Hm wr) as [[a wr'] ->]. Qed.

Lemma wp_on_gw f (Q : () → Web → Prop) g wr : Q () (mkWeb (f g) wr) → wp (on_gw f) Q (mkWeb g wr).
Proof. done. Qed.

Lemma respond_total code m d w : is_Some (respondError code m d w).
Proof. by eexists. Qed.
Lemma Write_total ok b w : is_Some (Write ok b w).
Proof. by eexists. Qed.
Lemma SetHeader_total n v w : is_Some (SetHeader n v w).
Proof. by eexists. Qed.
Lemma Deadline_total t w : is_Some (SetWriteDeadline t w).
Proof. unfold SetWriteDeadline. destruct (layers w); by eexists. Qed.

(** A stretch that leaves the hub alone. *)
Lemma stretch_same r L g g' q q' :
  run_inv (L, g_hub g) → g_hub g' = g_hub g → owner q' = owner q → pc_granted r q' →
  (∀ c, owner q = Some c → live_or_gone L (g_hub g) c) →
  handshakeSem g' = handshakeSem g + slot q' - slot q → handshakeSem g' ≤ Z.max (handshakeSem g) (sem_cap cfg) →
  ConnectionsActive g' = ConnectionsActive g + stream_of q' - stream_of q →
  stretch r L g q L g' q'.
Proof.
  intros Hi Hh Ho Hg Hl Hs Hc Ha. split; rewrite ?Hh, ?Ho; try done.
  intros c Hc'. destruct (decide (owner q = Some c)); auto.
Qed.

Lemma refuse_spec code m d r L g wr q :
  run_inv (L, g_hub g) → in_handshake q = true →
  wp (refuse code m d) (λ q' w', ∃ L', stretch r L g q L' (w_gw w') q') (mkWeb g wr).
Proof.
  intros Hi Hq. unfold refuse. wp_step. apply wp_on_writer; [apply respond_total|]. intros [] wr'.
  wp_step. apply wp_on_gw. apply wp_ret. exists L.
  apply stretch_same; unfold slot, stream_of; destruct q; try done; simpl; rewrite ?andb_false_r; lia.
Qed.

Lemma events_start_spec L g wr r :
  run_inv (L, g_hub g) →
  wp (events_start cfg r) (λ q' w', ∃ L', stretch r L g PStart L' (w_gw w') q') (mkWeb g wr).
Proof.
  intros Hi. unfold events_start.
  assert (∀ code m d, wp (on_writer (respondError code m d) ;; mret PEnd)
            (λ q' w', ∃ L', stretch r L g PStart L' (w_gw w') q') (mkWeb g wr)) as Hend.
  { intros. wp_step. apply wp_on_writer; [apply respond_total|]. intros [] wr'. apply wp_ret. exists L.
    apply stretch_same; unfold slot, stream_of; simpl; rewrite ?andb_false_r; done || lia. }
  wp_step. wp_step. destruct (isShuttingDown _); [apply Hend|]. case_decide; [apply Hend|].
  wp_step. unfold wp at 1, acquire_slot. simpl. case_decide; [|apply Hend]. apply wp_ret. exists L.
  apply stretch_same; unfold slot, stream_of; simpl; rewrite ?andb_false_r; done || lia.
Qed.

Lemma admit_ticket_spec L g wr r now :
  run_inv (L, g_hub g) →
  wp (admit_ticket cfg now r) (λ q' w', ∃ L', stretch r L g PTicket L' (w_gw w') q') (mkWeb g wr).
Proof.
  intros Hi. unfold admit_ticket. case_decide; [by apply refuse_spec|].
  destruct (validate_ticket now _) as [capability|e] eqn:Hv; [|by apply refuse_spec].
  wp_step. apply wp_on_whub.
  assert (∀ h t u n, ∃ r, CheckLimits t u n h = Some (r, h)) as Hcl.
  { intros. unfold CheckLimits, mbind, M_bind, gets. repeat case_match; eauto. }
  destruct (Hcl (g_hub g) (cap_TenantID capability) (cap_UserID capability)
              (Z.of_nat (length (cap_Topics capability)))) as [res E].
  eapply wp_of_run; [done|]. replace (set_hub (g_hub g) g) with g by (by destruct g).
  destruct res as [[]|e]; [|by apply refuse_spec]. apply wp_ret. exists L.
  apply stretch_same; unfold slot, stream_of; simpl; rewrite ?andb_false_r; try done; try lia; eauto.
Qed.

Lemma admitted_topics p random capability now raw :
  validate_ticket now raw = Ok capability → Topics (admitted_client cfg router p random capability).1 ≠ [].
Proof.
  intros (_ & _ & Ht)%validate_ticket_promise. simpl. by destruct (cap_Topics capability).
Qed.

Lemma admit_register_spec r L g wr p random capability :
  run_inv (L, g_hub g) → pc_granted r (PAdmit capability) →
  store (g_hub g) !! p = None → hex_EncodeToString random ∉ ID <$> L →
  wp (admit_register cfg router p random capability)
     (λ q' w', ∃ L', stretch r L g (PAdmit capability) L' (w_gw w') q') (mkWeb g wr).
Proof.
  intros [Hi Ht] (now & Hv) Hp Hid. simpl in Hi, Ht. unfold admit_register.
  pose proof (admitted_topics p random capability now (rawTicket cfg r) Hv) as Htop.
  assert (granted r (admitted_client cfg router p random capability).1) as Hgr by (repeat eexists; eauto).
  assert (client_wf (admitted_client cfg router p random capability).2) as Hwf by apply NewClient_wf.
  assert (unregistered (admitted_client cfg router p random capability).2 = false) as Hu by done.
  assert (ptr (admitted_client cfg router p random capability).1 = p) as Hptr by done.
  assert (ID (admitted_client cfg router p random capability).1 = hex_EncodeToString random) as HID by done.
  destruct (admitted_client cfg router p random capability) as [c s]. cbn [fst snd] in *.
  rewrite <- Hptr in Hp. rewrite <- HID in Hid.
  assert (∀ h', store h' = <[ptr c := s]> (store (g_hub g)) → ∀ p', gone (g_hub g) p' → gone h' p') as Hgone.
  { intros h' E p' (s' & Hs' & Hu'). exists s'. rewrite E, lookup_insert_ne; [done|]. congruence. }
  wp_step. apply wp_on_whub. unfold alloc_client. wp_step. wp_step. apply wp_on_whub.
  eapply wp_mono; [apply (Register_spec L); [by apply alloc_inv|by apply alloc_fresh]|].
  intros res h' (_ & Hi' & Hst & _). simpl in Hst.
  destruct res as [[]|e]; simpl in Hi'.
  - wp_step. apply wp_on_gw. apply wp_ret. exists (c :: L).
    split; unfold slot, stream_of; simpl; rewrite ?andb_false_r; try lia; try done.
    + split; simpl; [done|]. intros c' [->|?]%elem_of_cons; auto.
    + intros c' [?|?]; [left; by right|right; eauto].
    + intros c' [= <-]. left. left.
    + intros c' [->|?]%elem_of_cons; auto.
  - eapply wp_mono; [apply (refuse_spec _ _ _ r L _ _ (PAdmit capability)); done|].
    intros q' w' (L' & [S1 S2 S3 S4 S5 S6 S7 S8]). exists L'. split; try done.
    intros c' Hc'. apply S2. destruct Hc' as [?|?]; [by left|right; simpl; eauto].
Qed.

Lemma events_open_spec r L g wr now ok c :
  run_inv (L, g_hub g) → granted r c → live_or_gone L (g_hub g) c →
  wp (events_open cfg now ok c) (λ q' w', ∃ L', stretch r L g (POpen c) L' (w_gw w') q') (mkWeb g wr).
Proof.
  intros Hi Hg Hl. unfold events_open.
  do 3 (wp_step; apply wp_on_writer; [apply SetHeader_total|]; intros [] ?).
  wp_step. apply wp_on_writer; [apply Deadline_total|]. intros ? ?.
  wp_step. apply wp_on_writer; [apply Write_total|]. intros [] ?.
  - wp_step. apply wp_on_gw, wp_ret. exists L. unfold conn_opened.
    apply stretch_same; unfold slot, stream_of; simpl; try done; try congruence;
      destruct (has_metrics cfg); simpl; done || lia.
  - apply wp_ret. exists L.
    apply stretch_same; unfold slot, stream_of; simpl; rewrite ?andb_false_r; try done; try lia; congruence.
Qed.

Lemma leave_loop_spec r L g wr c :
  run_inv (L, g_hub g) → granted r c → live_or_gone L (g_hub g) c →
  wp (leave_loop cfg c) (λ q' w', ∃ L', stretch r L g (PStream c) L' (w_gw w') q') (mkWeb g wr).
Proof.
  intros Hi Hg Hl. unfold leave_loop. wp_step. apply wp_on_gw, wp_ret. exists L. unfold conn_closed.
  apply stretch_same; unfold slot, stream_of; simpl; try done; try congruence;
    destruct (has_metrics cfg); simpl; done || lia.
Qed.

Lemma live_or_gone_store L g c :
  run_inv (L, g_hub g) → live_or_gone L (g_hub g) c → ∃ s, store (g_hub g) !! ptr c = Some s.
Proof.
  intros [Hi _] [Hc|(s & Hs & _)]; [|eauto]. destruct (hi_live _ _ Hi c Hc) as (s & Hs & _). eauto.
Qed.

Lemma events_select_spec r L g wr now case ok c :
  run_inv (L, g_hub g) → granted r c → live_or_gone L (g_hub g) c →
  wp (events_select cfg now case ok c) (λ q' w', ∃ L', stretch r L g (PStream c) L' (w_gw w') q') (mkWeb g wr).
Proof.
  intros Hi Hg Hl. destruct (live_or_gone_store L g c Hi Hl) as [s Hs].
  assert (∀ h' wr', run_inv (L, h') → (∀ p, gone (g_hub g) p → gone h' p) → ∀ m,
            (∀ g' wr', run_inv (L, g_hub g') → live_or_gone L (g_hub g') c →
               wp m (λ q' w', ∃ L', stretch r L g' (PStream c) L' (w_gw w') q') (mkWeb g' wr')) →
            wp m (λ q' w', ∃ L', stretch r L g (PStream c) L' (w_gw w') q') (mkWeb (set_hub h' g) wr')) as Hsub.
  { intros h' wr' Hi' Hk m Hm. eapply wp_mono; [apply Hm; [done|]|].
    - destruct Hl; [by left|right; by apply Hk].
    - intros q' w' (L' & [S1 S2 S3 S4 S5 S6 S7 S8]). exists L'. split; try done.
      intros c' [?|?]; apply S2; [by left|right; by apply Hk]. }
  assert (∀ g' wr', run_inv (L, g_hub g') → live_or_gone L (g_hub g') c →
            wp (mret (PStream c)) (λ q' w', ∃ L', stretch r L g' (PStream c) L' (w_gw w') q') (mkWeb g' wr')) as Hstay.
  { intros g' wr' Hi' Hl'. apply wp_ret. exists L. apply stretch_same; simpl; try done; try lia; congruence. }
  pose proof (leave_loop_spec r) as Hleave. destruct case; cbn [events_select].
  - by apply Hleave.
  - wp_step. apply wp_on_whub. eapply wp_of_run; [by eapply on_client_spec|].
    replace (set_hub _ g) with g; [destruct (Done s); auto|].
    destruct g as [[]]; unfold set_hub, upd_store; simpl in *. by rewrite insert_id.
  - wp_step. apply wp_on_whub.
    destruct (wp_run _ _ _ (take_frame_spec L _ c s (proj1 Hi) Hs)) as (res & h' & E & Hi').
    eapply wp_of_run; [done|]. apply Hsub; [by split; [|apply Hi]|intros p; by eapply later_gone, (keeps_take false)|].
    intros g' wr' Hig Hlg. destruct res as [frame ch| |]; [|auto..].
    wp_step. apply wp_on_writer; [apply Deadline_total|]. intros ? ?.
    wp_step. apply wp_on_writer; [apply Write_total|]. intros [] ?; auto.
Qed.

Lemma unregister_gone L h c :
  hub_inv L h → live_or_gone L h c →
  wp (Hub.Unregister (Some c)) (λ _ h', hub_inv (filter (λ x, x ≠ c) L) h' ∧ gone h' (ptr c)
                                        ∧ ∀ p, gone h p → gone h' p) h.
Proof.
  intros Hi Hc. destruct (wp_run _ _ _ (unregister_runs L h c Hi Hc)) as ([] & h' & E & Hi').
  assert (∀ p, gone h p → gone h' p) as Hk by (intros p; by eapply later_gone, (keeps_Unregister false)).
  eapply wp_of_run; [done|]. split; [done|]. split; [|done].
  destruct Hc as [Hc|Hc]; [|by apply Hk].
  assert (NoDup L) as Hnd by (eapply NoDup_fmap_1, (hi_ids _ _ Hi)).
  pose proof (Unregister_spec L _ h c Hi (filter_ne_perm c L Hnd Hc)) as Hwp.
  unfold wp in Hwp. rewrite E in Hwp. destruct Hwp as (_ & _ & _ & s & _ & Es).
  unfold gone. rewrite Es, lookup_insert_eq. eauto.
Qed.

(** Every stretch runs to its end and keeps the books. *)
Lemma handler_step_spec L g wr r x q :
  run_inv (L, g_hub g) → pc_granted r q → (∀ c, owner q = Some c → live_or_gone L (g_hub g) c) →
  store (g_hub g) !! ch_ptr x = None → hex_EncodeToString (ch_random x) ∉ ID <$> L →
  wp (handler_step cfg router r x q) (λ q' w', ∃ L', stretch r L g q L' (w_gw w') q') (mkWeb g wr).
Proof.
  intros Hi Hg Ho Hp Hid. destruct q as [| |capability|c|c|c|]; cbn [handler_step].
  - by apply events_start_spec.
  - by apply admit_ticket_spec.
  - by apply admit_register_spec.
  - apply events_open_spec; auto.
  - apply events_select_spec; auto.
  - wp_step. apply wp_on_whub. destruct Hi as [Hi Ht].
    eapply wp_mono; [apply (unregister_gone L); auto|]. intros [] h' (Hi' & Hgone & Hk). apply wp_ret.
    exists (filter (λ x, x ≠ c) L).
    split; unfold slot, stream_of; simpl; rewrite ?andb_false_r; try done; try lia.
    + split; [done|]. simpl. intros c' [_ ?]%list_elem_of_filter. auto.
    + intros c' [Hc'|Hc']; [|right; simpl; auto]. destruct (decide (c' = c)) as [->|]; [by right|].
      left. by apply list_elem_of_filter.
    + intros c' [? ?]%list_elem_of_filter. right. split; [done|]. congruence.
  - apply wp_ret. exists L. apply stretch_same; simpl; try done; lia.
Qed.

(** *** The system *)
Lemma slots_insert qs i q q' :
  qs !! i = Some q →
  Z.of_nat (slots (<[i := q']> qs)) = Z.of_nat (slots qs) + slot (at_pc q') - slot (at_pc q)
  ∧ Z.of_nat (streams (<[i := q']> qs))
    = Z.of_nat (streams qs) + (if streaming (at_pc q') then 1 else 0) - (if streaming (at_pc q) then 1 else 0).
Proof.
  intros Hq. pose proof (count_insert (λ q, in_handshake (at_pc q) = true) qs i q q' Hq) as H1.
  pose proof (count_insert (λ q, streaming (at_pc q) = true) qs i q q' Hq) as H2. cbn beta in H1, H2.
  unfold slots, streams, slot.
  destruct (in_handshake (at_pc q)), (in_handshake (at_pc q')),
    (streaming (at_pc q)), (streaming (at_pc q')); repeat case_decide; try done; lia.
Qed.

Lemma handle_inv L g qs i q x :
  srv_inv_at L (g, qs) → qs !! i = Some q → fresh_choice x (g, qs) →
  wp (handler_step cfg router (req q) x (at_pc q))
     (λ q' w', srv_inv (w_gw w', <[i := mkReq (req q) q' (w_writer w')]> qs)) (mkWeb g (req_writer q)).
Proof.
  intros [I1 I2 I3 I4 I5 I6 I7] Hq [Hp Hid]. simpl in *. pose proof (list_elem_of_lookup_2 _ _ _ Hq) as Hin.
  eapply wp_mono; [apply (handler_step_spec L); auto|].
  { intros c Hc. by apply (I3 q). }
  { intros (c & E & Hc)%list_elem_of_fmap. destruct (I2 c Hc) as (q0 & Hq0 & Ho). by apply (Hid q0 c). }
  intros q' [g' wr'] (L' & [S1 S2 S3 S4 S5 S6 S7 S8]). simpl in *. exists L'.
  destruct (slots_insert qs i q (mkReq (req q) q' wr') Hq) as [Es Et]. simpl in Es, Et.
  assert (mkReq (req q) q' wr' ∈ <[i := mkReq (req q) q' wr']> qs) as Hnew.
  { eapply list_elem_of_lookup_2, list_lookup_insert_eq, lookup_lt_Some, Hq. }
  split; simpl.
  - done.
  - intros c [Hc|[Hc Ho]]%S4; [eauto|]. destruct (I2 c Hc) as (q0 & (j & Hj)%list_elem_of_lookup & Ho0).
    destruct (decide (i = j)) as [<-|Hij]; [congruence|]. exists q0. split; [|done].
    eapply list_elem_of_lookup_2. by rewrite list_lookup_insert_ne.
  - intros q0 c [->|Hq0]%elem_of_insert Ho; [by apply S3|]. apply S2. by eapply I3.
  - intros q0 [->|Hq0]%elem_of_insert; [done|auto].
  - lia.
  - lia.
  - rewrite S8, I7. unfold stream_of. destruct (has_metrics cfg); simpl; [lia|done].
Qed.

(** A hub call does not depend on the abstract state it is given. *)
Lemma exec_any op L1 L2 h x : internal_call op → exec op L1 h = Some x → ∃ L', exec op L2 h = Some (L', x.2).
Proof.
  intros Hop E. destruct op as [c s|c|t u|k r|frame|interval payload|c|]; try done; simpl in *;
    unfold mbind, M_bind, mret, M_ret in *; repeat case_match; simplify_eq; eauto.
Qed.

Lemma server_step_inv S S' : server_step S S' → srv_inv S → srv_inv S'.
Proof.
  intros [g qs r w|g qs i q x q' g' w' Hq Hx E|g qs op L0 h' Hop E|g qs b] [L Hi].
  - destruct Hi as [I1 I2 I3 I4 I5 I6 I7]. exists L. simpl in *. split; simpl; auto.
    + intros c Hc. destruct (I2 c Hc) as (q & ? & ?). exists q. set_solver.
    + intros q c [?| ->%list_elem_of_singleton]%elem_of_app; [by apply I3|done].
    + intros q [?| ->%list_elem_of_singleton]%elem_of_app; [by apply I4|done].
    + rewrite I5. unfold slots. rewrite count_app. simpl. by rewrite Nat.add_0_r.
    + rewrite I7. unfold streams. rewrite count_app. simpl. by rewrite Nat.add_0_r.
  - pose proof (handle_inv L g qs i q x Hi Hq Hx) as Hwp. unfold wp in Hwp. by rewrite E in Hwp.
  - destruct (exec_any op [] L _ _ Hop E) as [L' E']. exists L'.
    destruct Hi as [I1 I2 I3 I4 I5 I6 I7]. pose proof (exec_internal op L (g_hub g) I1 Hop) as Hwp.
    unfold wp in Hwp. rewrite E' in Hwp. destruct Hwp as (H1 & H2 & H3 & H4). simpl in *.
    split; simpl; auto. intros q c Hqs Ho. destruct (I3 q c Hqs Ho) as [Hc|Hc]; [by apply H3|right; by apply H4].
  - destruct Hi as [I1 I2 I3 I4 I5 I6 I7]. exists L. by split.
Qed.

Lemma start_inv n limits : n < 2 ^ 32 → srv_inv (start_gateway n limits, []).
Proof.
  intros Hn. exists []. split; simpl.
  - by apply run_inv_start.
  - by intros ? ?%elem_of_nil.
  - by intros ? ? ?%elem_of_nil.
  - by intros ? ?%elem_of_nil.
  - done.
  - unfold sem_cap. case_decide; lia.
  - by destruct (has_metrics cfg).
Qed.

Lemma reachable_inv n limits S :
  n < 2 ^ 32 → rtc server_step (start_gateway n limits, []) S → srv_inv S.
Proof.
  intros Hn Hrun. pose proof (start_inv n limits Hn) as Hstart. revert Hstart.
  induction Hrun as [|x y z Hxy _ IH]; [done|]. intros Hx. apply IH. by eapply server_step_inv.
Qed.

(** ** Theorems *)


(** A hub and its gauges once every request has ended. *)
Definition nothing_left (g : Gateway) : Prop :=
  hub_inv [] (g_hub g) ∧ ActiveConnections (g_hub g) = Some (0, g_hub g)
  ∧ (∀ k, map_get (userCounts (quotas (g_hub g))) k = 0 ∧ map_get (tenantCounts (quotas (g_hub g))) k = 0)
  ∧ handshakeSem g = 0 ∧ ConnectionsActive g = 0.

Lemma ended_nothing_left L g qs : srv_inv_at L (g, qs) → (∀ q, q ∈ qs → at_pc q = PEnd) → L = [] ∧ nothing_left g.
Proof.
  intros [[I1 _] I2 I3 _ I5 I6 I7] Hend. simpl in *.
  assert (L = []) as ->.
  { destruct L as [|c L]; [done|]. destruct (I2 c) as (q & Hq & Ho); [left|]. by rewrite (Hend q Hq) in Ho. }
  split; [done|]. destruct (hi_quota _ _ I1) as [Q1 Q2 Q3 _].
  assert (slots qs = 0%nat ∧ streams qs = 0%nat) as [E1 E2].
  { split; apply Nat.le_0_r, Nat.nlt_ge; intros (q & Hq & Hp)%count_pos_elem; by rewrite (Hend q Hq) in Hp. }
  unfold nothing_left. rewrite I5, I7, E1, E2. split_and!; [done| | |done|by destruct (has_metrics cfg)].
  - unfold ActiveConnections, gets, ActiveCount. by rewrite Q1.
  - intros k. rewrite (counts_get _ _ k Q2), (counts_get _ _ k Q3). split; [done|]. by case_decide.
Qed.


(** No stretch of a handler panics, whatever the interleaving, the
    request, the ticket and the network do. *)
Theorem handlers_never_panic n limits g qs i q x :
  n < 2 ^ 32 → rtc server_step (start_gateway n limits, []) (g, qs) →
  qs !! i = Some q → fresh_choice x (g, qs) →
  ∃ q' w', handler_step cfg router (req q) x (at_pc q) (mkWeb g (req_writer q)) = Some (q', w').
Proof.
  intros Hn Hrun Hq Hx. destruct (reachable_inv n limits _ Hn Hrun) as [L Hi].
  destruct (wp_run _ _ _ (handle_inv L g qs i q x Hi Hq Hx)) as (q' & w' & E & _). eauto.
Qed.


(** Only subscribers of the key are touched by a broadcast. *)
Lemma broadcast_touches {X E} L h k (decrypt : M X (result E (option Frame))) x a h' x' p :
  hub_inv L h → ConditionalBroadcast k decrypt (h, x) = Some (a, (h', x')) →
  store h' !! p ≠ store h !! p → ∃ c, c ∈ L ∧ ptr c = p ∧ k ∈ Topics c.
Proof.
  intros Hi Eb Hne. destruct (decide (subscribers L k = [])) as [Hs|Hs].
  { rewrite (broadcast_no_subscriber L) in Eb by done. by simplify_eq. }
  destruct (broadcast_subscribers L h k decrypt x Hi Hs) as (rs & _ & Eq). rewrite Eb in Eq.
  destruct (decrypt x) as [[[[frame|]|e] x1]|] eqn:Ed; simplify_eq.
  destruct (broadcast_delivers L h k decrypt x x1 frame Hi Hs Ed) as (h1 & h2 & E2 & Hd & _ & _ & Est & _).
  rewrite Eb in E2. simplify_eq. rewrite Est in Hne.
  destruct (decide (p ∈ ptr <$> subscribers L k)) as [Hp|Hp].
  - apply list_elem_of_fmap in Hp as (c & -> & Hc). apply list_elem_of_filter in Hc as [? ?]. eauto.
  - by rewrite (dl_others _ _ _ _ Hd p Hp) in Hne.
Qed.
End server.

(** Identifiers without the bytes that the routing template uses. *)
Definition plain_id (s : gostring) : Prop := ":"%char ∉ s ∧ "{"%char ∉ s.

Lemma BuildKey_plain_inj t a p t' a' p' :
  plain_id t → plain_id a → plain_id t' → plain_id a' →
  BuildKey default_router t a p = BuildKey default_router t' a' p' → t = t' ∧ a = a' ∧ p = p'.
Proof.
  intros [? ?] [? ?] [? ?] [? ?]. rewrite !BuildKey_default, !sanitize_id by done. by apply canonical_key_inj.
Qed.


(** ** A concrete run *)
Definition demo_cap : Capability :=
  mkCapability (str "bob") (str "acme") (str "web") [str "chat"] [] [] None.

Definition demo_validate (now : Z) (raw : gostring) : result AuthErr Capability :=
  if decide (raw = str "t1") then Ok demo_cap else Err ErrInvalidTicket.
Lemma demo_promise now raw c :
  demo_validate now raw = Ok c → cap_UserID c ≠ [] ∧ cap_TenantID c ≠ [] ∧ cap_Topics c ≠ [].
Proof. unfold demo_validate. by case_decide; intros [= <-]. Qed.
Definition demo_validator : TicketValidator :=
  {| validate_ticket := demo_validate; validate_ticket_promise := demo_promise |}.

Definition demo_cfg : HandlerConfig := mkHandlerConfig 1 [] 2 SlowPolicyDisconnect 0 (15 * second) true.
Definition demo_http : Request := mkRequest (str "GET") (str "9.9.9.9:1") ∅ {[str "ticket" := str "t1"]}.
Definition demo_writer : Writer := mkWriter [mkInterceptor 0 0] fresh_conn.
Definition demo_choice (r : string) (case : select_case) : choice := mkChoice 0 7 (str r) case true.
Definition demo_choice2 (r : string) (case : select_case) : choice := mkChoice 0 8 (str r) case true.

Definition demo_choices : list choice :=
  [demo_choice "a" CaseSend; demo_choice "a" CaseSend; demo_choice "a" CaseSend; demo_choice2 "b" CaseSend].
(** The request after [k] stretches. *)
Definition demo_at (k : nat) : pc * Web :=
  default (PEnd, mkWeb (start_gateway 4 demo_limits) demo_writer)
    (@Events demo_validator demo_cfg default_router demo_http (take k demo_choices)
       (mkWeb (start_gateway 4 demo_limits) demo_writer)).
Definition demo_server (k : nat) : Server :=
  (w_gw (demo_at k).2, [mkReq demo_http (demo_at k).1 (w_writer (demo_at k).2)]).
Definition demo_streamer : Client :=
  (@admitted_client demo_cfg default_router 7 (str "a") demo_cap).1.

Lemma demo_advance k :
  (k < 4)%nat →
  @server_step range_canonical demo_validator demo_cfg default_router (demo_server k) (demo_server (S k)).
Proof.
  intros Hk. set (q := mkReq demo_http (demo_at k).1 (w_writer (demo_at k).2)).
  refine (@handle range_canonical demo_validator demo_cfg default_router (w_gw (demo_at k).2) [q] 0%nat q
            (nth k demo_choices (demo_choice "a" CaseSend))
            (demo_at (S k)).1 (w_gw (demo_at (S k)).2) (w_writer (demo_at (S k)).2) eq_refl _ _).
  - unfold q. split; [|intros q0 c ->%list_elem_of_singleton];
      (destruct k as [|[|[|[|k]]]]; [..|lia]); vm_compute; first [reflexivity|intros [= <-]; discriminate|discriminate].
  - destruct k as [|[|[|[|k]]]]; [..|lia]; vm_compute; reflexivity.
Qed.

Lemma demo_run :
  rtc (@server_step range_canonical demo_validator demo_cfg default_router)
    (start_gateway 4 demo_limits, []) (demo_server 4).
Proof.
  eapply rtc_l; [apply (@arrive range_canonical demo_validator demo_cfg default_router _ [] demo_http demo_writer)|].
  apply (rtc_l _ _ (demo_server 1)); [apply (demo_advance 0); lia|].
  apply (rtc_l _ _ (demo_server 2)); [apply (demo_advance 1); lia|].
  apply (rtc_l _ _ (demo_server 3)); [apply (demo_advance 2); lia|].
  apply rtc_once, (demo_advance 3). lia.
Qed.

Definition demo_owner : Req := mkReq demo_http (PStream demo_streamer) (w_writer (demo_at 4).2).
Lemma demo_pc : (demo_server 4).2 = [demo_owner].
Proof. vm_compute. reflexivity. Qed.

Definition demo_gw : Gateway := (demo_server 4).1.

Lemma demo_streaming :
  rtc (@server_step range_canonical demo_validator demo_cfg default_router)
    (start_gateway 4 demo_limits, []) (demo_gw, [demo_owner]).
Proof. rewrite <- demo_pc. exact demo_run. Qed.

Lemma demo_fresh case g q w :
  store (g_hub g) !! 8%positive = None → (∀ c, owner q = Some c → c = demo_streamer) →
  fresh_choice (demo_choice2 "b" case) (g, [mkReq demo_http q w]).
Proof.
  intros Hs Ho. split; [done|]. intros q0 c ->%list_elem_of_singleton Hc. apply Ho in Hc as ->. vm_compute. discriminate.
Qed.


Lemma handlers_never_panic_witness :
  ∃ q' w', @handler_step demo_validator demo_cfg default_router demo_http (demo_choice2 "b" CaseSend)
             (PStream demo_streamer) (mkWeb demo_gw (req_writer demo_owner)) = Some (q', w').
Proof.
  apply (@handlers_never_panic range_canonical demo_validator demo_cfg default_router 4 demo_limits
           demo_gw [demo_owner] 0%nat demo_owner); [lia|exact demo_streaming|reflexivity|].
  apply demo_fresh; [vm_compute; reflexivity|]. intros c Hc. exact (eq_sym (inj Some _ _ Hc)).
Defined.

(** The ticket of a refused request leaves no trace. *)
Definition refused_http : Request := mkRequest (str "GET") (str "9.9.9.9:1") ∅ ∅.
Definition refused_web : Web :=
  snd (default (PEnd, mkWeb (start_gateway 4 demo_limits) demo_writer)
    (@Events demo_validator demo_cfg default_router refused_http
       [demo_choice "a" CaseSend; demo_choice "a" CaseSend] (mkWeb (start_gateway 4 demo_limits) demo_writer))).


(** The user of the stream is revoked. *)
Definition revoked_hub : Hub :=
  default (g_hub demo_gw) (snd <$> @InvalidateUser range_canonical (str "acme") (str "bob") (g_hub demo_gw)).


(** A broadcast to the granted topic reaches the stream. *)
Definition demo_decrypt : M () (result () (option Frame)) := mret (Ok (Some (NewHeartbeatFrame (str "x")))).
Definition demo_cast : result () Z * (Hub * ()) :=
  default (Ok 0, (g_hub demo_gw, ()))
    (@ConditionalBroadcast range_canonical _ _ (BuildKey default_router (str "acme") (str "web") (str "chat"))
       demo_decrypt (g_hub demo_gw, ())).

