(* ===== verification/HubIso.v ===== *)
(** * Isolation when the hub's calls overlap

    [HubConc.v] cuts the hub's methods at their atomic operations and
    interleaves them.  Here: whatever the interleaving, with or without
    revocations in the middle of registrations, a broadcast sends only to
    connections that asked for its routing key, hence only to the event's
    tenant. *)

From S2P Require Import Prelude GoStrings Hashutil Chan Frame Quota Client Shard Hub HubSpec HubConc Router Server.

Local Open Scope Z_scope.

(** ** What the shards' methods do to one entry of a topic map *)
Lemma sub_Register k c s k' id c' :
  sub (Shard.Register k c s) k' id = Some c' → (k' = k ∧ c' = c) ∨ sub s k' id = Some c'.
Proof.
  unfold sub, entry, Shard.Register. simpl. destruct (decide (k' = k)) as [->|Hk].
  - rewrite lookup_insert_eq. simpl. destruct (decide (id = ID c)) as [->|Hid].
    + rewrite lookup_insert_eq. intros [= ->]. auto.
    + rewrite lookup_insert_ne by done. destruct (topics s !! k); simpl; [auto|]. by rewrite lookup_empty.
  - rewrite lookup_insert_ne by done. auto.
Qed.

Lemma sub_Unregister k id s k' id' c' : sub (Shard.Unregister k id s) k' id' = Some c' → sub s k' id' = Some c'.
Proof.
  unfold sub. rewrite Unregister_topics. case_decide as Hk; [|done]. subst k'. rewrite prune_lookup. by case_decide.
Qed.

Section iso.
Context `{!GoRange}.

Lemma sub_InvalidateUser t u s k id c : sub (Shard.InvalidateUser t u s).2 k id = Some c → sub s k id = Some c.
Proof. unfold sub, Shard.InvalidateUser. simpl. rewrite drop_all_lookup. by case_decide. Qed.

Lemma recipients_sub k s c : c ∈ GetRecipients k s → ∃ id, sub s k id = Some c.
Proof.
  unfold GetRecipients, sub, entry. destruct (topics s !! k) as [m|]; [|by intros ?%elem_of_nil].
  case_decide; [by intros ?%elem_of_nil|]. intros (id & Hid)%elem_of_range_values. eauto.
Qed.

(** ** Invariant *)

(** Every entry of a topic map is under a key its client asked for. *)
Definition entries_ok (h : Hub) : Prop :=
  ∀ i s k id c, shards h !! i = Some s → sub s k id = Some c → k ∈ Topics c.
(** A registration inserts keys of its client; a broadcast sends to clients
    that asked for its key. *)
Definition call_ok (q : hpc) : Prop :=
  match q with
  | RegInsert c rest => ∀ k, k ∈ rest → k ∈ Topics c
  | FanSend (Some k) cs _ _ => ∀ c, c ∈ cs → k ∈ Topics c
  | _ => True
  end.
Definition iso_inv (x : list hpc * Hub) : Prop := entries_ok x.2 ∧ Forall call_ok x.1.

Lemma entries_same h h' : shards h' = shards h → entries_ok h → entries_ok h'.
Proof. unfold entries_ok. by intros ->. Qed.

(** A method of a shard that adds only entries of [P]. *)
Lemma on_shard_entries {A} i (f : Shard → A * Shard) h a h' :
  on_shard i f h = Some (a, h') → entries_ok h →
  (∀ s k id c, sub (f s).2 k id = Some c → k ∈ Topics c ∨ sub s k id = Some c) → entries_ok h'.
Proof.
  unfold on_shard. destruct (shards h !! i) as [s|] eqn:Es; [|done]. destruct (f s) as [a' s'] eqn:Ef. intros [= -> <-] Hok Hf.
  intros i' s1 k id c Hs1 Hsub. simpl in Hs1. destruct (decide (i' = i)) as [->|Hne].
  - rewrite list_lookup_insert_eq in Hs1 by (by eapply lookup_lt_Some). injection Hs1 as <-.
    destruct (Hf s k id c) as [?|?]; [by rewrite Ef|done|by eapply (Hok i)].
  - rewrite list_lookup_insert_ne in Hs1 by done. by eapply Hok.
Qed.

Lemma on_client_shards {A} c (m : M ClientState A) h a h' : on_client c m h = Some (a, h') → shards h' = shards h.
Proof. unfold on_client. repeat case_match; try done. by intros [= _ <-]. Qed.

Lemma enqueue_shards c frame h a h' : enqueue c frame h = Some (a, h') → shards h' = shards h.
Proof.
  unfold enqueue, mbind, M_bind, NotifySlowClient. destruct (on_client _ _ h) as [[[ok slow] h1]|] eqn:E; [|done].
  apply on_client_shards in E. destruct slow; simpl; [destruct (onSlowClient h1)|]; intros [= _ <-]; exact E.
Qed.

Lemma getShard_same k h i h' : getShard k h = Some (i, h') → h' = h.
Proof. unfold getShard. repeat case_match; naive_solver. Qed.

Lemma quota_acquire_shards t u h r h' : quota_acquire t u h = Some (r, h') → shards h' = shards h.
Proof. unfold quota_acquire, mbind, M_bind. repeat case_match; intros; simplify_eq/=; done. Qed.

(** *** One atomic operation *)
Lemma atomic_iso q h q' h' : hub_atomic q h = Some (q', h') → entries_ok h → call_ok q → entries_ok h' ∧ call_ok q'.
Proof.
  destruct q as [c|c|c [|k rest]|r c|c|c|c [|k rest]|c| |t u [|i idxs] n|t u [|c cs] idxs n|t u c cs idxs n|t u c cs idxs n|n
    |k frame|[|i idxs] frame|k [|c cs] idxs frame| |[|i idxs]|[|c cs] idxs|]; cbn [hub_atomic]; unfold mbind, M_bind; intros E Hok Hc.
  all: try (unfold gets, modify, mret, M_ret in E; repeat case_match; simplify_eq/=; by (split; [first [done | by eapply entries_same]|])).
  all: repeat match type of E with match ?m with _ => _ end = Some _ => destruct m as [[? ?]|] eqn:?; [|discriminate E] end.
  all: repeat match goal with
         | Hm : match ?m with _ => _ end = Some _ |- _ => destruct m as [[? ?]|] eqn:?; [|discriminate Hm]
         | Hg : getShard _ _ = Some _ |- _ => apply getShard_same in Hg as ->
         | Hm : on_client _ _ _ = Some _ |- _ => apply on_client_shards in Hm
         | Hm : enqueue _ _ _ = Some _ |- _ => apply enqueue_shards in Hm
         | Hm : quota_acquire _ _ _ = Some _ |- _ => apply quota_acquire_shards in Hm
         end.
  all: injection E as <- <-.
  all: try (split; [by eapply entries_same|]; first [exact I | by repeat case_match | idtac]).
  all: try match goal with Hr : read_shard _ _ _ = Some _ |- _ =>
         unfold read_shard in Hr; match type of Hr with match ?m with _ => _ end = _ => destruct m as [sh|] eqn:Hsh; [|discriminate Hr] end;
         injection Hr as <- <- end.
  - destruct r; [by intros k Hk|exact I].
  - split; [|intros k' Hk'; apply Hc; by right]. eapply on_shard_entries; [eassumption|done|]. intros sh k' id c' Hs.
    apply sub_Register in Hs as [[-> ->]|Hs]; [left; apply Hc; left|by right].
  - split; [|exact I]. eapply on_shard_entries; [eassumption|done|]. intros sh k' id c' Hs. right. by apply sub_Unregister in Hs.
  - split; [|exact I]. eapply on_shard_entries; [eassumption|done|]. intros sh k' id c' Hs. right. by apply sub_InvalidateUser in Hs.
  - split; [done|]. intros c (id & Hid)%recipients_sub. by eapply Hok.
  - by split.
  - destruct k as [k|]; [|exact I]. intros c' Hc'. apply Hc. by right.
  - by split.
Qed.

Lemma cstep_iso excl x y : cstep excl x y → iso_inv x → iso_inv y.
Proof.
  intros Hstep [Hok Hc]. destruct Hstep as [ts h c s|ts h c|ts h t u|ts h k frame|ts h frame|ts h|ts h j q q' h' Hj E]; simpl in *.
  1-6: split; [by eapply entries_same|]; apply Forall_app; split; [done|]; by constructor.
  destruct (atomic_iso q h q' h' E Hok) as [? ?]; [by eapply Forall_lookup_1|]. split; [done|]. by apply Forall_insert.
Qed.

Lemma reachable_iso excl n limits x : rtc (cstep excl) ([], NewHub n limits) x → iso_inv x.
Proof.
  intros Hrun. assert (iso_inv ([], NewHub n limits)) as Hstart.
  { split; [|constructor]. intros i s k id c Hs Hsub. simpl in Hs. apply list_elem_of_lookup_2 in Hs.
    apply elem_of_replicate_inv in Hs as ->. unfold sub, entry in Hsub. simpl in Hsub. by rewrite lookup_empty in Hsub. }
  induction Hrun as [|x y z Hxy Hyz IH]; [done|]. apply IH. by eapply cstep_iso.
Qed.

Lemma enqueue_store c frame h a h' p : enqueue c frame h = Some (a, h') → p ≠ ptr c → store h' !! p = store h !! p.
Proof.
  unfold enqueue, mbind, M_bind, NotifySlowClient, on_client. intros E Hp.
  destruct (store h !! ptr c) as [s|]; [|done]. destruct (EnqueueFrame c frame s) as [[[ok slow] s']|]; [|done].
  simpl in E. destruct slow; simpl in E; [destruct (onSlowClient _)|]; injection E as _ <-; simpl; by rewrite lookup_insert_ne.
Qed.

(** The routing keys of a client are those its ticket grants. *)
Definition granted_keys (c : Client) (app : gostring) (topics : list gostring) : Prop :=
  plain_id (TenantID c) ∧ plain_id app ∧ Topics c = BuildKey default_router (TenantID c) app <$> topics.

End iso.

(** A connection of acme, and an event of acme being fanned out. *)
Definition orders_key : gostring := BuildKey default_router (str "acme") (str "shop") (str "orders").
Definition iso_client : Client :=
  mkClient 1 (str "c1") (str "bob") (str "acme") [orders_key] SlowPolicyDisconnect false.
Definition iso_frame : Frame := NewDataFrame (str "order") (str "7") (str "ok").
Definition iso_schedule : list cact := [AConnect iso_client] ++ replicate 4 (ARun 0) ++ [ABroadcast orders_key iso_frame; ARun 1].

Definition queued (h : Hub) : Z := match store h !! 1%positive with Some s => Z.of_nat (length (buf (Send s))) | None => 0 end.

Abbreviation iso_call := (FanSend (Some (BuildKey default_router (str "acme") (str "shop") (str "orders"))) [iso_client] [] iso_frame).

