(* ===== verification/Probes.v ===== *)
(** * internal/api/handlers.go: Healthz and Readyz

    The liveness probe, and the readiness probe with its two-second cache.
    [Readyz] is cut at its locks: [ready_start] (the flag and the first look at
    the cache), [ready_lock] (the probe mutex and the second look) and
    [ready_finish] (the checkers' answers, the new cache).  [probe_step]
    interleaves any number of requests under a clock that never goes back;
    [runs] is the history of the probe runs. *)

From S2P Require Import Prelude GoStrings Json ApiHttp.

Local Open Scope Z_scope.

Definition ready_ttl : Z := 2 * 1000000000.

(** [map[string]string] *)
Abbreviation Details := (gmap gostring gostring).

Record readyCache := mkCache {
  cachedAt : Z;
  allReady : bool;
  details : option Details;       (* [None] is the nil map *)
}.

(** The zero value of the cache: the zero time is before any clock reading. *)
Definition zero_cache : readyCache := mkCache 0 false None.

Definition cache_valid (now : Z) (c : readyCache) : bool :=
  bool_decide (now - cachedAt c < ready_ttl) && bool_decide (is_Some (details c)).

(** The answers of the checkers, in order; [None] is a nil checker. *)
Abbreviation Answers := (list (option (gostring * result gostring ()))).

(** The loop over the checkers. *)
Definition probe_one (acc : bool * Details) (a : option (gostring * result gostring ())) : bool * Details :=
  match a with
  | None => acc
  | Some (name, Err e) => (false, <[name := e]> acc.2)
  | Some (name, Ok _) => (acc.1, <[name := str "ok"]> acc.2)
  end.
Definition probe_all (answers : Answers) : bool * Details := foldl probe_one (true, ∅) answers.

(** ** The responses *)
Fixpoint bytes_leb (a b : gostring) : bool :=
  match a, b with
  | [], _ => true
  | _ :: _, [] => false
  | x :: a', y :: b' =>
      if decide (byte_val x < byte_val y) then true
      else if decide (byte_val x = byte_val y) then bytes_leb a' b' else false
  end.
Definition key_le (x y : gostring * gostring) : Prop := bytes_leb x.1 y.1 = true.
Global Instance key_le_dec x y : Decision (key_le x y).
Proof. unfold key_le; apply _. Defined.

Definition field (name : string) (value : gostring) : gostring := quote_json (str name) ++ str ":" ++ value.
Fixpoint join (parts : list gostring) : gostring :=
  match parts with
  | [] => []
  | [p] => p
  | p :: ps => p ++ str "," ++ join ps
  end.

(** A map of strings: its keys in byte order. *)
Definition json_map (m : Details) : gostring :=
  str "{" ++ join ((λ kv, quote_json kv.1 ++ str ":" ++ quote_json kv.2) <$> merge_sort key_le (map_to_list m)) ++ str "}".

Record HealthResponse := mkHealth {
  hr_Status : gostring;
  hr_Service : gostring;
  hr_Instance : gostring;
  hr_Timestamp : gostring;        (* the JSON text of the time *)
  hr_UptimeSec : Z;
  hr_Details : Details;
}.
Definition health_json (r : HealthResponse) : gostring :=
  str "{" ++ join ([field "status" (quote_json (hr_Status r)); field "service" (quote_json (hr_Service r))]
    ++ (if decide (hr_Instance r = []) then [] else [field "instance_id" (quote_json (hr_Instance r))])
    ++ [field "timestamp" (hr_Timestamp r); field "uptime_seconds" (FormatInt (hr_UptimeSec r))]
    ++ (if decide (hr_Details r = ∅) then [] else [field "details" (json_map (hr_Details r))])) ++ str "}".

Section responses.
Context (serviceName instanceID : gostring).

Definition Healthz (timestamp : gostring) (uptime : Z) : M Writer () :=
  respondJSON 200 (health_json (mkHealth (str "ok") serviceName instanceID timestamp uptime ∅)).

Definition respondReadyz (timestamp : gostring) (uptime : Z) (ready : bool) (d : Details) : M Writer () :=
  respondJSON (if ready then 200 else 503)
    (health_json (mkHealth (if ready then str "ready" else str "unavailable") serviceName instanceID timestamp uptime d)).
End responses.

(** ** Readyz *)
Inductive rpc :=
| RStart
| RWait                                         (* waiting for [probeMu] *)
| RProbe (started : Z)                          (* holding [probeMu], probing *)
| RShut                                         (* refused: shutting down *)
| RServed (at_time : Z) (ready : bool) (d : Details).

Record ProbeState := mkProbe {
  cache : readyCache;
  probeMu : bool;                               (* held *)
}.

Definition serve_cached (now : Z) (c : readyCache) : rpc := RServed now (allReady c) (default ∅ (details c)).

Definition ready_start (shutting : bool) (now : Z) (s : ProbeState) : rpc :=
  if shutting then RShut
  else if cache_valid now (cache s) then serve_cached now (cache s) else RWait.

(** Taking the mutex; blocked while it is held. *)
Definition ready_lock (now : Z) (s : ProbeState) : option (rpc * ProbeState) :=
  if probeMu s then None
  else if cache_valid now (cache s) then Some (serve_cached now (cache s), s)
  else Some (RProbe now, mkProbe (cache s) true).

Definition ready_finish (now : Z) (answers : Answers) (s : ProbeState) : rpc * ProbeState :=
  let '(ready, d) := probe_all answers in
  (RServed now ready d, mkProbe (mkCache now ready (Some d)) false).

(** A probe run: when it started and ended, and what the checkers said. *)
Record run := mkRun { run_start : Z; run_end : Z; run_answers : Answers }.

(** Clock, shared state, requests, runs (newest first). *)
Record World := mkWorld { clock : Z; probe : ProbeState; pcs : list rpc; runs : list run }.

Section steps.
(** What the shutdown flag may read, and what the checkers may answer. *)
Context (flag : bool → Prop) (possible : Answers → Prop).

Inductive probe_step : World → World → Prop :=
| p_tick t t' s ps rs : t ≤ t' → probe_step (mkWorld t s ps rs) (mkWorld t' s ps rs)
| p_arrive t s ps rs : probe_step (mkWorld t s ps rs) (mkWorld t s (ps ++ [RStart]) rs)
| p_start t s ps rs i b :
    ps !! i = Some RStart → flag b →
    probe_step (mkWorld t s ps rs) (mkWorld t s (<[i := ready_start b t s]> ps) rs)
| p_lock t s ps rs i q s' :
    ps !! i = Some RWait → ready_lock t s = Some (q, s') →
    probe_step (mkWorld t s ps rs) (mkWorld t s' (<[i := q]> ps) rs)
| p_finish t s ps rs i t0 answers :
    ps !! i = Some (RProbe t0) → possible answers →
    probe_step (mkWorld t s ps rs)
      (mkWorld t (ready_finish t answers s).2 (<[i := (ready_finish t answers s).1]> ps)
         (mkRun t0 t answers :: rs)).

Definition start_world (t : Z) : World := mkWorld t (mkProbe zero_cache false) [] [].

(** ** Invariant *)
Definition probing (q : rpc) : Prop := match q with RProbe _ => True | _ => False end.
Global Instance probing_dec q : Decision (probing q).
Proof. destruct q; apply _. Defined.

(** The cache holds the answers of the newest run. *)
Definition cache_of (rs : list run) (c : readyCache) : Prop :=
  match rs with
  | [] => details c = None
  | r :: _ => c = mkCache (run_end r) (probe_all (run_answers r)).1 (Some (probe_all (run_answers r)).2)
  end.

(** The next run may start at [t]. *)
Definition spaced (t : Z) (rs : list run) : Prop :=
  match rs with [] => True | r :: _ => run_end r + ready_ttl ≤ t end.

Fixpoint well_spaced (rs : list run) : Prop :=
  match rs with
  | [] => True
  | r :: rs' => run_start r ≤ run_end r ∧ spaced (run_start r) rs' ∧ well_spaced rs'
  end.

(** An answer given at [t] is that of a run that ended less than the
    time-to-live before. *)
Definition answered (rs : list run) (q : rpc) : Prop :=
  match q with
  | RServed t ready d =>
      ∃ r, r ∈ rs ∧ probe_all (run_answers r) = (ready, d) ∧ run_end r ≤ t < run_end r + ready_ttl
  | _ => True
  end.

Record probe_inv (w : World) : Prop := {
  pi_cache : cache_of (runs w) (cache (probe w));
  pi_past : match runs w with [] => True | r :: _ => run_end r ≤ clock w end;
  pi_mutex : count probing (pcs w) = (if probeMu (probe w) then 1 else 0)%nat;
  pi_probing t0 : RProbe t0 ∈ pcs w → t0 ≤ clock w ∧ spaced t0 (runs w);
  pi_spaced : well_spaced (runs w);
  pi_answers q : q ∈ pcs w → answered (runs w) q;
}.

Lemma answered_mono rs r q : answered rs q → answered (r :: rs) q.
Proof. destruct q; try done. intros (r' & Hr & H). exists r'. split; [by right|done]. Qed.

Lemma served_answered w now :
  probe_inv w → now = clock w → cache_valid now (cache (probe w)) = true →
  answered (runs w) (serve_cached now (cache (probe w))).
Proof.
  intros [I1 I2 _ _ _ _] -> Hv. unfold cache_valid in Hv. apply andb_true_iff in Hv as [H1 H2].
  apply bool_decide_eq_true in H1, H2. unfold cache_of in I1.
  destruct (runs w) as [|r rs]; [rewrite I1 in H2; by destruct H2|]. rewrite I1 in *. simpl in *.
  exists r. split; [left|]. split; [by destruct (probe_all _)|lia].
Qed.

Lemma stale_spaced w :
  probe_inv w → cache_valid (clock w) (cache (probe w)) = false → spaced (clock w) (runs w).
Proof.
  intros [I1 _ _ _ _ _] Hv. unfold cache_of in I1. destruct (runs w) as [|r rs]; [done|]. simpl.
  rewrite I1 in Hv. unfold cache_valid in Hv. simpl in Hv. rewrite andb_true_r in Hv.
  apply bool_decide_eq_false in Hv. lia.
Qed.

(** A request moves to [q] with the mutex accounted for. *)
Lemma mutex_insert ps i (q q' : rpc) (m m' : bool) :
  ps !! i = Some q → count probing ps = (if m then 1 else 0)%nat →
  ((if m' then 1 else 0) + (if decide (probing q) then 1 else 0)
     = (if m then 1 else 0) + (if decide (probing q') then 1 else 0))%nat →
  count probing (<[i := q']> ps) = (if m' then 1 else 0)%nat.
Proof. intros Hq Hc Hm. pose proof (count_insert probing ps i q q' Hq). lia. Qed.

Lemma probe_step_inv w w' : probe_step w w' → probe_inv w → probe_inv w'.
Proof.
  intros Hs Hi. pose proof Hi as [I1 I2 I3 I4 I5 I6].
  destruct Hs as [t t' s ps rs Ht|t s ps rs|t s ps rs i b Hq Hb|t s ps rs i q s' Hq Hl|t s ps rs i t0 answers Hq Hans];
    simpl in *.
  - split; simpl; try done; [destruct rs; [done|lia]|]. intros t0 H0. destruct (I4 t0 H0). split; [lia|done].
  - split; simpl; try done; [by rewrite count_app, I3|..].
    + intros t0 [?|?%list_elem_of_singleton]%elem_of_app; [auto|done].
    + intros q [?| ->%list_elem_of_singleton]%elem_of_app; [auto|done].
  - assert (answered rs (ready_start b t s) ∧ ¬ probing (ready_start b t s)) as [Ha Hp].
    { unfold ready_start. destruct b; [by split; [|intros ?]|].
      destruct (cache_valid t (cache s)) eqn:Hv; [|by split; [|intros ?]].
      split; [|by intros ?]. by apply (served_answered (mkWorld t s ps rs)). }
    split; simpl; try done.
    + apply (mutex_insert ps i RStart _ (probeMu s)); [done..|]. by rewrite (decide_False (P := probing (ready_start _ _ _))).
    + intros t0 [E|?]%elem_of_insert; [|auto]. by rewrite <- E in Hp.
    + intros q [->|?]%elem_of_insert; auto.
  - unfold ready_lock in Hl. destruct (probeMu s) eqn:Hm; [done|].
    destruct (cache_valid t (cache s)) eqn:Hv; simplify_eq.
    + split; simpl; try done; rewrite ?Hm.
      * by apply (mutex_insert ps i RWait _ false false).
      * intros t0 [E|?]%elem_of_insert; [done|auto].
      * intros q [->|?]%elem_of_insert; [|auto]. by apply (served_answered (mkWorld t s' ps rs)).
    + split; simpl; try done.
      * by apply (mutex_insert ps i RWait _ false true).
      * intros t0 [[= ->]|?]%elem_of_insert; [|auto]. split; [done|]. by apply (stale_spaced (mkWorld t s ps rs)).
      * intros q [->|?]%elem_of_insert; [done|auto].
  - assert (probeMu s = true) as Hm.
    { destruct (probeMu s); [done|]. pose proof (count_pos_elem probing ps) as [_ Hc].
      assert (0 < count probing ps)%nat; [|lia]. apply Hc. exists (RProbe t0). split; [by eapply list_elem_of_lookup_2|done]. }
    rewrite Hm in I3. unfold ready_finish. destruct (probe_all answers) as [ready d] eqn:Ep.
    assert (count probing (<[i := RServed t ready d]> ps) = 0%nat) as H0
      by (by apply (mutex_insert ps i (RProbe t0) _ true false)).
    destruct (I4 t0) as [Ht Hsp]; [by eapply list_elem_of_lookup_2|].
    split; simpl; try done.
    + by rewrite Ep.
    + intros t1 H1. pose proof (count_pos_elem probing (<[i := RServed t ready d]> ps)) as [_ Hc].
      assert (0 < count probing (<[i := RServed t ready d]> ps))%nat; [apply Hc; by exists (RProbe t1)|lia].
    + intros q [->|?]%elem_of_insert; [|by apply answered_mono, I6].
      exists (mkRun t0 t answers). simpl. split; [left|]. split; [done|]. unfold ready_ttl. lia.
Qed.

Lemma probe_reachable_inv t w : rtc probe_step (start_world t) w → probe_inv w.
Proof.
  intros Hrun. assert (probe_inv (start_world t)) as H0.
  { split; simpl; try done; by intros ? ?%elem_of_nil. }
  revert H0. induction Hrun as [|x y z Hxy _ IH]; [done|]. intros Hx. apply IH. by eapply probe_step_inv.
Qed.

(** ** Theorems *)

(** Whatever the number of concurrent readiness requests, the checkers
    run one at a time and a run starts at least two seconds after the end of
    the previous one; every answer served is that of a run that ended less than
    two seconds before. *)
Theorem readiness_probes_bounded t w :
  rtc probe_step (start_world t) w →
  well_spaced (runs w) ∧ (count probing (pcs w) ≤ 1)%nat ∧ (∀ q, q ∈ pcs w → answered (runs w) q).
Proof.
  intros [_ _ I3 _ I5 I6]%probe_reachable_inv. split; [done|]. split; [|done].
  rewrite I3. destruct (probeMu (probe w)); lia.
Qed.
End steps.

(** The gateway is ready when no checker failed, and every failing checker is
    reported unless a later one of the same name hides it. *)
Lemma probe_all_ready answers :
  (probe_all answers).1 = true ↔ ∀ name e, Some (name, Err e) ∉ answers.
Proof.
  unfold probe_all. induction answers as [|a answers IH] using rev_ind.
  { split; [|done]. by intros _ name e ?%elem_of_nil. }
  rewrite foldl_app. cbn [foldl]. destruct a as [[name [[]|e]]|]; simpl.
  - rewrite IH. set_solver.
  - split; [done|]. intros H. exfalso. apply (H name e). set_solver.
  - rewrite IH. set_solver.
Qed.

(** Two requests at once: one runs the checkers, the other gets its answer. *)
Definition demo_answers : Answers := [Some (str "bus", Ok ()); None; Some (str "crypto", Err (str "down"))].
Definition demo_ready : rpc := (ready_finish 5 demo_answers (mkProbe zero_cache true)).1.
Definition demo_world : World :=
  mkWorld 5 (ready_finish 5 demo_answers (mkProbe zero_cache true)).2 [demo_ready; demo_ready] [mkRun 5 5 demo_answers].

Lemma readiness_probes_bounded_witness :
  demo_ready = RServed 5 false {[str "bus" := str "ok"; str "crypto" := str "down"]}
  ∧ answered (runs demo_world) demo_ready.
Proof.
  split; [vm_compute; reflexivity|].
  apply (readiness_probes_bounded (λ _, True) (λ _, True) 5 demo_world); [|left].
  set (s0 := mkProbe zero_cache false). set (s1 := mkProbe zero_cache true).
  apply (rtc_l _ _ (mkWorld 5 s0 [RStart] [])); [apply p_arrive|].
  apply (rtc_l _ _ (mkWorld 5 s0 [RStart; RStart] [])); [apply p_arrive|].
  apply (rtc_l _ _ (mkWorld 5 s0 [RWait; RStart] [])); [apply (p_start _ _ 5 s0 [RStart; RStart] [] 0 false); [reflexivity|exact I]|].
  apply (rtc_l _ _ (mkWorld 5 s0 [RWait; RWait] [])); [apply (p_start _ _ 5 s0 [RWait; RStart] [] 1 false); [reflexivity|exact I]|].
  apply (rtc_l _ _ (mkWorld 5 s1 [RProbe 5; RWait] []));
    [apply (p_lock _ _ 5 s0 [RWait; RWait] [] 0 (RProbe 5) s1); reflexivity|].
  apply (rtc_l _ _ (mkWorld 5 (ready_finish 5 demo_answers s1).2 [demo_ready; RWait] [mkRun 5 5 demo_answers]));
    [apply (p_finish _ _ 5 s1 [RProbe 5; RWait] [] 0 5 demo_answers); [reflexivity|exact I]|].
  apply rtc_once.
  apply (p_lock _ _ 5 (ready_finish 5 demo_answers s1).2 [demo_ready; RWait] [mkRun 5 5 demo_answers] 1 demo_ready);
    vm_compute; reflexivity.
Defined.
