(* ===== verification/Health.v ===== *)
(** * internal/health: the Checker interface

    A checker is its name and what [Check] answers in the state [E] of the
    dependencies; an error is its text.  The implementations are in the files of
    the buses and of the key clients, the readiness probe that asks them is in
    [Probes.v]. *)

From S2P Require Import Prelude GoStrings Probes.

Section checkers.
Context {E : Type}.

Record Checker := mkChecker {
  checker_Name : gostring;
  checker_Check : E → result gostring ();
}.

(** One turn of the loop of [Readyz]; [None] is a nil checker. *)
Definition ask (e : E) (c : option Checker) : option (gostring * result gostring ()) :=
  (λ c, (checker_Name c, checker_Check c e)) <$> c.

(** The answers of a run, the dependencies changing between two calls as
    [possible] allows. *)
Definition possible_answers (possible : E → Prop) (cs : list (option Checker)) (answers : Answers) : Prop :=
  Forall2 (λ c a, ∃ e, possible e ∧ a = ask e c) cs answers.

Lemma answers_zip possible cs answers :
  possible_answers possible cs answers → ∃ es, Forall possible es ∧ length es = length cs ∧ answers = zip_with ask es cs.
Proof.
  induction 1 as [|c a cs answers (e & He & ->) _ (es & Hes & Hn & ->)]; [by exists []|].
  exists (e :: es). simpl. split_and!; [by constructor|lia|done].
Qed.

(** A run reports readiness exactly when every checker was satisfied. *)
Lemma answers_ready es cs :
  (probe_all (zip_with ask es cs)).1 = true ↔ ∀ i e k, es !! i = Some e → cs !! i = Some (Some k) → checker_Check k e = Ok ().
Proof.
  rewrite probe_all_ready. split.
  - intros Hno i e k He Hk. destruct (checker_Check k e) as [[]|err] eqn:Ec; [done|]. exfalso. apply (Hno (checker_Name k) err).
    apply list_elem_of_lookup. exists i. apply lookup_zip_with_Some. exists e, (Some k). simpl. by rewrite Ec.
  - intros Hall name err (i & Hi)%list_elem_of_lookup. apply lookup_zip_with_Some in Hi as (e & c & Ha & He & Hc).
    destruct c as [k|]; [|done]. pose proof (Hall i e k He Hc) as Hok. simpl in Ha. rewrite Hok in Ha. congruence.
Qed.
End checkers.
Arguments Checker : clear implicits.
