(* ===== verification/Tlsconf.v ===== *)
(** * internal/tlsconf: client TLS configurations

    [Build] from its parameters; reading files and parsing certificates are
    parameters. *)

From S2P Require Import Prelude.

Record Params := mkParams {
  CertFile : gostring;
  KeyFile : gostring;
  CAFile : gostring;
  InsecureSkipVerify : bool;
  ServerName : gostring;
}.

Inductive tls_version := VersionTLS12 | VersionTLS13.

Inductive BuildErr := ErrReadCA | ErrNoCertificate | ErrKeyPair.

Section build.
Context {Pool Cert : Type}.
(** [os.ReadFile] *)
Context (ReadFile : gostring → option gostring).
(** The pool of the certificates found in PEM data, if any. *)
Context (AppendCertsFromPEM : gostring → option Pool).
(** [tls.LoadX509KeyPair] *)
Context (LoadX509KeyPair : gostring → gostring → option Cert).

(** The fields of [tls.Config] in use; [None] roots are the system's. *)
Record TLSConfig := mkTLSConfig {
  MinVersion : tls_version;
  tc_InsecureSkipVerify : bool;
  tc_ServerName : gostring;
  RootCAs : option Pool;
  Certificates : list Cert;
}.

Definition load_roots (p : Params) : result BuildErr (option Pool) :=
  if decide (CAFile p = []) then Ok None
  else match ReadFile (CAFile p) with
  | None => Err ErrReadCA
  | Some caData =>
      match AppendCertsFromPEM caData with
      | None => Err ErrNoCertificate
      | Some pool => Ok (Some pool)
      end
  end.

Definition load_certificates (p : Params) : result BuildErr (list Cert) :=
  if decide (CertFile p ≠ [] ∧ KeyFile p ≠ []) then
    match LoadX509KeyPair (CertFile p) (KeyFile p) with
    | None => Err ErrKeyPair
    | Some cert => Ok [cert]
    end
  else Ok [].

Definition Build (p : Params) : result BuildErr TLSConfig :=
  pool ← load_roots p;
  certs ← load_certificates p;
  Ok (mkTLSConfig VersionTLS13 (InsecureSkipVerify p) (ServerName p) pool certs).

(** A configuration that is built requires TLS 1.3, checks the peer
    unless told not to, trusts the configured authority (never the system's
    when one is named) and carries the client certificate when both its files
    are named. *)
Theorem tls_build_sound p c :
  Build p = Ok c →
  MinVersion c = VersionTLS13 ∧ tc_InsecureSkipVerify c = InsecureSkipVerify p
  ∧ tc_ServerName c = ServerName p
  ∧ (CAFile p ≠ [] → ∃ pem pool, ReadFile (CAFile p) = Some pem ∧ AppendCertsFromPEM pem = Some pool ∧ RootCAs c = Some pool)
  ∧ (CertFile p ≠ [] → KeyFile p ≠ [] → ∃ cert, LoadX509KeyPair (CertFile p) (KeyFile p) = Some cert ∧ Certificates c = [cert]).
Proof.
  unfold Build, mbind, result_bind. destruct (load_roots p) as [pool|e] eqn:Er; [|done].
  destruct (load_certificates p) as [certs|e] eqn:Ec; [|done]. intros [= <-]. simpl. split_and!; [done..| |].
  - intros Hca. unfold load_roots in Er. rewrite decide_False in Er by done.
    repeat case_match; simplify_eq. eauto.
  - intros Hc Hk. unfold load_certificates in Ec. rewrite decide_True in Ec by done.
    case_match; simplify_eq. eauto.
Qed.
End build.

Lemma tls_build_sound_witness :
  ∃ c, @Build nat nat (λ _, Some []) (λ _, Some 3) (λ _ _, Some 4) (mkParams (str "c") (str "k") (str "ca") false (str "h"))
         = Ok c ∧ MinVersion c = VersionTLS13.
Proof.
  eexists. split; [reflexivity|].
  apply (tls_build_sound (λ _, Some []) (λ _, Some 3) (λ _ _, Some 4)
           (mkParams (str "c") (str "k") (str "ca") false (str "h"))). reflexivity.
Defined.
