(* ===== verification/Valkey.v ===== *)
(** * internal/bus/valkey: the Valkey Pub/Sub bus

    Construction with its defaults, the subscription loop with its exponential
    back-off, the message callback, [Health] and [Close].  The Valkey client is
    third-party: [Receive] calls the callback for each message and returns when
    the connection is lost or its context is done, so that messages, the return
    of [Receive], the timer, the consumer, the cancellation and [Close] are the
    steps of [bus_step], in any order.  Durations are 64-bit nanoseconds. *)

From S2P Require Import Prelude GoStrings Chan Crypto Bus EventJson Tlsconf.

Local Open Scope Z_scope.

Definition millisecond : Z := 1000000.
Definition seconds (n : Z) : Z := n * 1000 * millisecond.

Record Config := mkConfig {
  Address : gostring;
  Username : gostring;
  Password : gostring;
  Database : Z;
  TLSEnabled : bool;
  TLSServerName : gostring;
  TLSCAFile : gostring;
  TLSCertFile : gostring;
  TLSKeyFile : gostring;
  TLSInsecureSkip : bool;
  ConnectTimeout : Z;
  ReadTimeout : Z;
  WriteTimeout : Z;
  ChannelPattern : gostring;
  ReconnectEnabled : bool;
  ReconnectMinDelay : Z;
  ReconnectMaxDelay : Z;
  ReconnectJitter : bool;
  BufferSize : Z;
}.

Definition positive_or (d z : Z) : Z := if decide (z ≤ 0) then d else z.

(** The defaults [NewBus] applies. *)
Definition with_defaults (c : Config) : Config :=
  mkConfig (Address c) (Username c) (Password c) (Database c) (TLSEnabled c) (TLSServerName c) (TLSCAFile c)
    (TLSCertFile c) (TLSKeyFile c) (TLSInsecureSkip c)
    (positive_or (seconds 3) (ConnectTimeout c)) (ReadTimeout c) (positive_or (seconds 3) (WriteTimeout c))
    (if decide (ChannelPattern c = []) then str "realtime.*" else ChannelPattern c)
    (ReconnectEnabled c)
    (positive_or (250 * millisecond) (ReconnectMinDelay c)) (positive_or (seconds 30) (ReconnectMaxDelay c))
    (ReconnectJitter c) (positive_or 1024 (BufferSize c)).

Record VBus := mkVBus {
  vcfg : Config;
  vclosed : bool;
  vcancelled : bool;                    (* the loop's context is done *)
  vsubscribed : bool;                   (* [b.cancel != nil] *)
  subCh : chan EncryptedEvent;
  onReconnect : bool;                   (* a callback is set *)
  reconnects : Z;                       (* its calls *)
  backoffNanos : Z;
}.

Inductive VErr := ErrMissingAddress | ErrTLS (e : BuildErr) | ErrClient.

(** The options handed to the client library. *)
Record ClientOption := mkOption {
  InitAddress : list gostring;
  opt_Username : gostring;
  opt_Password : gostring;
  SelectDB : Z;
  DialTimeout : Z;
  ConnWriteTimeout : Z;
  opt_tls : bool;
}.

Definition upd_closed (b : VBus) : VBus :=
  mkVBus (vcfg b) true (vcancelled b || vsubscribed b) (vsubscribed b) (subCh b) (onReconnect b) (reconnects b) (backoffNanos b).
Definition upd_cancelled (b : VBus) : VBus :=
  mkVBus (vcfg b) (vclosed b) true (vsubscribed b) (subCh b) (onReconnect b) (reconnects b) (backoffNanos b).
Definition upd_backoff (z : Z) (b : VBus) : VBus :=
  mkVBus (vcfg b) (vclosed b) (vcancelled b) (vsubscribed b) (subCh b) (onReconnect b) (reconnects b) z.
Definition upd_subCh (ch : chan EncryptedEvent) (b : VBus) : VBus :=
  mkVBus (vcfg b) (vclosed b) (vcancelled b) (vsubscribed b) ch (onReconnect b) (reconnects b) (backoffNanos b).
Definition SetOnReconnect (b : VBus) : VBus :=
  mkVBus (vcfg b) (vclosed b) (vcancelled b) (vsubscribed b) (subCh b) true (reconnects b) (backoffNanos b).
Definition call_reconnect (b : VBus) : VBus :=
  mkVBus (vcfg b) (vclosed b) (vcancelled b) (vsubscribed b) (subCh b) (onReconnect b)
    (if onReconnect b then reconnects b + 1 else reconnects b) (backoffNanos b).

(** A two's complement 64-bit integer. *)
Definition wrap64 (z : Z) : Z := (z + 2 ^ 63) mod 2 ^ 64 - 2 ^ 63.

Section bus.
Context {Pool Cert : Type} (ReadFile : gostring → option gostring) (AppendCertsFromPEM : gostring → option Pool).
Context (LoadX509KeyPair : gostring → gostring → option Cert).
(** [valkey.NewClient] succeeds. *)
Context (NewClient : ClientOption → bool).

Definition NewBus (cfg : Config) : result VErr VBus :=
  if decide (Address cfg = []) then Err ErrMissingAddress
  else
    let cfg := with_defaults cfg in
    let opt tls := mkOption [Address cfg] (Username cfg) (Password cfg) (Database cfg) (ConnectTimeout cfg) (WriteTimeout cfg) tls in
    let create tls := if NewClient (opt tls)
                      then Ok (mkVBus cfg false false false (make_chan (Z.to_nat (BufferSize cfg))) false 0 0)
                      else Err ErrClient in
    if TLSEnabled cfg then
      match Build ReadFile AppendCertsFromPEM LoadX509KeyPair
              (mkParams (TLSCertFile cfg) (TLSKeyFile cfg) (TLSCAFile cfg) (TLSInsecureSkip cfg) (TLSServerName cfg)) with
      | Err e => Err (ErrTLS e)
      | Ok _ => create true
      end
    else create false.

(** ** The loop *)
Inductive lpc :=
| LTop
| LReceive
| LSleep (cur sleepDuration : Z)
| LEnd.

(** [Subscribe], up to the start of the loop: the patterns and where the loop
    stands. *)
Definition Subscribe (patterns : list gostring) (b : VBus) : result BusErr (list gostring * lpc * VBus) :=
  if vclosed b then Err ErrBusClosed
  else
    let patterns := if decide (patterns = []) then [ChannelPattern (vcfg b)] else patterns in
    Ok (patterns, LTop,
        mkVBus (vcfg b) (vclosed b) (vcancelled b) true (subCh b) (onReconnect b) (reconnects b)
          (ReconnectMinDelay (vcfg b))).

Definition stopped (b : VBus) : bool := vcancelled b || vclosed b.

(** The callback on a message of [channel]; [prefer_done] is the choice of the
    [select] when the context is done and the channel has room. *)
Definition with_channel (channel : gostring) (e : EncryptedEvent) : EncryptedEvent :=
  mkEncryptedEvent (ee_Schema e) (ee_EventID e) (ee_TenantID e) (ee_AppID e) (ee_TopicID e) (ee_Type e) (ee_EntityID e)
    (ee_Version e) (ee_OriginUserID e) (ee_UserID e) (ee_CreatedAt e) (ee_Crypto e) channel (ee_RoutingKey e).

Definition on_message (prefer_done : bool) (channel message : gostring) : M VBus (option EncryptedEvent) := λ b,
  if vclosed b then Some (None, b)
  else
    let b := upd_backoff (ReconnectMinDelay (vcfg b)) b in
    match UnmarshalEvent message with
    | None => Some (None, b)
    | Some event =>
        let event := with_channel channel event in
        if vcancelled b && prefer_done then Some (None, b)
        else match try_send event (subCh b) with
        | None => None
        | Some (true, ch) => Some (Some event, upd_subCh ch b)
        | Some (false, _) => Some (None, b)
        end
    end.

(** [rng.Int63n(n)] panics unless [n] is positive. *)
Definition Int63n (raw n : Z) : option Z := if decide (n ≤ 0) then None else Some (raw mod n).

Definition sleep_duration (raw : Z) (b : VBus) (cur : Z) : option Z :=
  if ReconnectJitter (vcfg b) && bool_decide (cur > 2)
  then jitter ← Int63n raw (cur `quot` 2); Some (cur + jitter)
  else Some cur.

Definition next_backoff (b : VBus) (cur : Z) : Z :=
  let next := wrap64 (cur * 2) in
  if decide (next > ReconnectMaxDelay (vcfg b)) then ReconnectMaxDelay (vcfg b) else next.

(** One stretch of the loop: its top, the return of [Receive], the end of the
    sleep ([by_context]: the context's case, when it is ready). *)
Definition loop_step (raw : Z) (by_context : bool) (q : lpc) : M VBus lpc := λ b,
  match q with
  | LTop => Some (if stopped b then LEnd else LReceive, b)
  | LReceive =>
      if stopped b then Some (LEnd, b)
      else if negb (ReconnectEnabled (vcfg b)) then Some (LEnd, b)
      else
        let b := call_reconnect b in
        let cur := backoffNanos b in
        match sleep_duration raw b cur with
        | None => None
        | Some d => Some (LSleep cur d, b)
        end
  | LSleep cur d =>
      if by_context && vcancelled b then Some (LEnd, b)
      else Some (LTop, upd_backoff (next_backoff b cur) b)
  | LEnd => Some (LEnd, b)
  end.

(** [Health] and [Close]; [ping] is the server's answer. *)
Definition Health (ping : bool) (b : VBus) : result BusErr () :=
  if vclosed b then Err ErrBusClosed else if ping then Ok () else Err ErrBusUnavailable.
Definition valkey_Check (ping : bool) (b : VBus) : result BusErr () := Health ping b.
Definition valkey_Name : gostring := str "valkey_event_bus".
Definition Close (b : VBus) : VBus := if vclosed b then b else upd_closed b.

(** ** Interleavings

    The bus, the loop, the events handed to the channel and those the consumer
    took. *)
Record VWorld := mkVWorld { vb : VBus; loop : lpc; sent : list EncryptedEvent; taken : list EncryptedEvent }.

Inductive bus_step : VWorld → VWorld → Prop :=
| b_message b q s t d ch m r b' :
    on_message d ch m b = Some (r, b') →
    bus_step (mkVWorld b q s t) (mkVWorld b' q (s ++ option_list r) t)
| b_loop b q s t raw c q' b' :
    loop_step raw c q b = Some (q', b') → bus_step (mkVWorld b q s t) (mkVWorld b' q' s t)
| b_take b q s t e ch :
    recv (subCh b) = Received e ch → bus_step (mkVWorld b q s t) (mkVWorld (upd_subCh ch b) q s (t ++ [e]))
| b_cancel b q s t : bus_step (mkVWorld b q s t) (mkVWorld (upd_cancelled b) q s t)
| b_close b q s t : bus_step (mkVWorld b q s t) (mkVWorld (Close b) q s t).

(** A subscribed bus, with delays that can be doubled in 64 bits (their
    maximum is below 73 years). *)
Definition delays_ok (c : Config) : Prop :=
  0 < ReconnectMinDelay c < 2 ^ 61 ∧ 0 < ReconnectMaxDelay c < 2 ^ 61.

Definition delay_ok (c : Config) (z : Z) : Prop :=
  Z.min (ReconnectMinDelay c) (ReconnectMaxDelay c) ≤ z ≤ Z.max (ReconnectMinDelay c) (ReconnectMaxDelay c).

(** The sleep is the delay, plus less than half of it. *)
Definition sleep_ok (c : Config) (q : lpc) : Prop :=
  match q with
  | LSleep cur d => delay_ok c cur ∧ cur ≤ d ∧ 2 * d ≤ 3 * cur ∧ (ReconnectJitter c = false → d = cur)
  | _ => True
  end.

Record bus_inv (c : Config) (w : VWorld) : Prop := {
  bi_cfg : vcfg (vb w) = c;
  bi_delay : delay_ok c (backoffNanos (vb w));
  bi_sleep : sleep_ok c (loop w);
  bi_chan : chan_wf (subCh (vb w)) ∧ is_closed (subCh (vb w)) = false ∧ cap (subCh (vb w)) = Z.to_nat (BufferSize c);
  bi_fifo : sent w = taken w ++ buf (subCh (vb w));
}.

Lemma wrap64_id z : - 2 ^ 63 ≤ z < 2 ^ 63 → wrap64 z = z.
Proof. intros H. unfold wrap64. rewrite Z.mod_small; lia. Qed.

Lemma next_backoff_ok b cur :
  delays_ok (vcfg b) → delay_ok (vcfg b) cur → delay_ok (vcfg b) (next_backoff b cur).
Proof.
  unfold delays_ok, delay_ok, next_backoff. intros [H1 H2] H. rewrite wrap64_id by lia. case_decide; lia.
Qed.

Lemma sleep_duration_ok raw b cur :
  delays_ok (vcfg b) → delay_ok (vcfg b) cur →
  ∃ d, sleep_duration raw b cur = Some d ∧ cur ≤ d ∧ 2 * d ≤ 3 * cur ∧ (ReconnectJitter (vcfg b) = false → d = cur).
Proof.
  unfold delays_ok, delay_ok, sleep_duration. intros [H1 H2] H.
  destruct (ReconnectJitter (vcfg b)); simpl; [|eexists; split; [done|lia]].
  case_bool_decide; [|eexists; split; [done|lia]].
  unfold Int63n. rewrite Z.quot_div_nonneg by lia.
  assert (1 ≤ cur / 2) by (apply Z.div_le_lower_bound; lia).
  rewrite decide_False by lia. simpl. eexists. split; [done|].
  pose proof (Z.mod_pos_bound raw (cur / 2)). pose proof (Z.mul_div_le cur 2). split_and!; [lia..|done].
Qed.

Lemma on_message_inv c b q s t d ch m :
  delays_ok c → bus_inv c (mkVWorld b q s t) →
  ∃ r b', on_message d ch m b = Some (r, b') ∧ bus_inv c (mkVWorld b' q (s ++ option_list r) t).
Proof.
  intros Hd [I1 I2 I3 I4 I5]. simpl in *. subst c. unfold on_message.
  destruct (vclosed b); [eexists _, _; split; [done|]; split; simpl; by rewrite ?app_nil_r|].
  assert (delay_ok (vcfg b) (ReconnectMinDelay (vcfg b))) by (unfold delay_ok, delays_ok in *; lia).
  destruct (UnmarshalEvent m) as [e|]; [|eexists _, _; split; [done|]; split; simpl; by rewrite ?app_nil_r].
  destruct (vcancelled _ && d); [eexists _, _; split; [done|]; split; simpl; by rewrite ?app_nil_r|].
  destruct I4 as (W1 & W2 & W3). unfold try_send. simpl. rewrite W2.
  case_decide; (eexists _, _; split; [done|]); split; simpl; rewrite ?app_nil_r; try done.
  - unfold chan_wf in *. simpl. rewrite length_app. simpl. split_and!; [lia|done|done].
  - by rewrite I5, <- (assoc_L (++)).
Qed.

Lemma loop_step_inv c b q s t raw ctx :
  delays_ok c → bus_inv c (mkVWorld b q s t) →
  ∃ q' b', loop_step raw ctx q b = Some (q', b') ∧ bus_inv c (mkVWorld b' q' s t).
Proof.
  intros Hd [I1 I2 I3 I4 I5]. simpl in *. subst c.
  destruct q as [| |cur d|]; simpl.
  - eexists _, _. split; [done|]. by split; [..|destruct (stopped b)| |].
  - destruct (stopped b); [eexists _, _; split; [done|]; by split|].
    destruct (ReconnectEnabled (vcfg b)); simpl; [|eexists _, _; split; [done|]; by split].
    destruct (sleep_duration_ok raw (call_reconnect b) (backoffNanos b) Hd I2) as (d & -> & H).
    eexists _, _. split; [done|]. by split.
  - destruct (ctx && vcancelled b); (eexists _, _; split; [done|]); split; simpl; try done.
    apply next_backoff_ok; [done|apply I3].
  - eexists _, _. split; [done|]. by split.
Qed.

Lemma bus_step_inv c w w' : delays_ok c → bus_step w w' → bus_inv c w → bus_inv c w'.
Proof.
  intros Hd Hs Hi. destruct Hs as [b q s t d ch m r b' E|b q s t raw ctx q' b' E|b q s t e ch E|b q s t|b q s t].
  - destruct (on_message_inv c b q s t d ch m Hd Hi) as (r0 & b0 & E0 & H0). by simplify_eq.
  - destruct (loop_step_inv c b q s t raw ctx Hd Hi) as (q0 & b0 & E0 & H0). by simplify_eq.
  - destruct Hi as [I1 I2 I3 (W1 & W2 & W3) I5]. simpl in *. unfold recv in E.
    destruct (buf (subCh b)) as [|e0 l] eqn:El; [by destruct (is_closed (subCh b))|]. simplify_eq.
    split; simpl; try done.
    + unfold chan_wf in *. rewrite El in W1. simpl in *. split_and!; [lia|done|done].
    + by rewrite <- (assoc_L (++)).
  - destruct Hi as [I1 I2 I3 I4 I5]. by split.
  - destruct Hi as [I1 I2 I3 I4 I5]. unfold Close. destruct (vclosed b) eqn:Hc; by split.
Qed.

(** A freshly subscribed bus. *)
Lemma subscribed_inv cfg pats b0 pats' q b :
  NewBus cfg = Ok b0 → Subscribe pats b0 = Ok (pats', q, b) →
  vcfg b = with_defaults cfg ∧ q = LTop ∧ vclosed b = false ∧ vcancelled b = false ∧ vsubscribed b = true
  ∧ backoffNanos b = ReconnectMinDelay (with_defaults cfg)
  ∧ subCh b = make_chan (Z.to_nat (BufferSize (with_defaults cfg))).
Proof.
  unfold NewBus, Subscribe. intros E1 E2. repeat case_match; simplify_eq; done.
Qed.

Lemma defaults_positive cfg :
  0 < ReconnectMinDelay (with_defaults cfg) ∧ 0 < ReconnectMaxDelay (with_defaults cfg).
Proof. unfold with_defaults, positive_or, seconds, millisecond. simpl. repeat case_decide; lia. Qed.

(** Loop rounds of a bus whose connection fails every time: the delays waited. *)
Fixpoint failing_rounds (raws : list Z) (b : VBus) : option (list Z * VBus) :=
  match raws with
  | [] => Some ([], b)
  | raw :: raws' =>
      '(q1, b1) ← loop_step raw false LTop b;
      '(q2, b2) ← loop_step raw false q1 b1;
      '(q3, b3) ← loop_step raw false q2 b2;
      match q2, q3 with
      | LSleep cur _, LTop => '(ds, b') ← failing_rounds raws' b3; Some (cur :: ds, b')
      | _, _ => None
      end
  end.

(** ** Theorems *)


Lemma failing_rounds_spec raws b k :
  delays_ok (vcfg b) → ReconnectMinDelay (vcfg b) ≤ ReconnectMaxDelay (vcfg b) →
  ReconnectEnabled (vcfg b) = true → stopped b = false →
  backoffNanos b = Z.min (ReconnectMinDelay (vcfg b) * 2 ^ Z.of_nat k) (ReconnectMaxDelay (vcfg b)) →
  ∃ b', failing_rounds raws b =
    Some ((λ i, Z.min (ReconnectMinDelay (vcfg b) * 2 ^ Z.of_nat i) (ReconnectMaxDelay (vcfg b))) <$> seq k (length raws), b').
Proof.
  revert b k. induction raws as [|raw raws IH]; intros b k Hd Hle He Hs Hb; [by eexists|].
  simpl. rewrite Hs. simpl. rewrite Hs, He. simpl.
  assert (delay_ok (vcfg b) (backoffNanos b)) as Hok.
  { pose proof (Z.pow_pos_nonneg 2 (Z.of_nat k)). unfold delay_ok, delays_ok in *. nia. }
  destruct (sleep_duration_ok raw (call_reconnect b) (backoffNanos b) Hd Hok) as (d & -> & _). simpl.
  edestruct (IH (upd_backoff (next_backoff (call_reconnect b) (backoffNanos b)) (call_reconnect b)) (S k)) as [b' Eb'];
    [done..| |].
  - simpl. unfold next_backoff. simpl. unfold delay_ok, delays_ok in *. rewrite wrap64_id by lia.
    rewrite Hb. replace (Z.of_nat (S k)) with (Z.of_nat k + 1) by lia. rewrite Z.pow_add_r by lia. case_decide; lia.
  - simpl in Eb'. rewrite Eb'. exists b'. simpl. by rewrite Hb.
Qed.

(** C25: back-off as a formula: when the connection fails over and over with no
    message in between, the k-th reconnection waits for the minimum delay
    times two to the k, capped at the maximum delay, whatever the jitter. *)
Theorem backoff_closed_form cfg pats b0 pats' q b raws :
  NewBus cfg = Ok b0 → Subscribe pats b0 = Ok (pats', q, b) →
  ReconnectEnabled cfg = true → 0 < ReconnectMinDelay cfg ≤ ReconnectMaxDelay cfg → ReconnectMaxDelay cfg < 2 ^ 61 →
  ∃ b', failing_rounds raws b =
    Some ((λ i, Z.min (ReconnectMinDelay cfg * 2 ^ Z.of_nat i) (ReconnectMaxDelay cfg)) <$> seq 0 (length raws), b').
Proof.
  intros En Es He Hmin Hmax. destruct (subscribed_inv cfg pats b0 pats' q b En Es) as (H1 & _ & Hc & Hx & _ & H2 & _).
  assert (ReconnectMinDelay (vcfg b) = ReconnectMinDelay cfg ∧ ReconnectMaxDelay (vcfg b) = ReconnectMaxDelay cfg
          ∧ ReconnectEnabled (vcfg b) = true) as (E1 & E2 & E3).
  { rewrite H1. unfold with_defaults, positive_or. simpl. repeat case_decide; try lia; done. }
  rewrite <- E1, <- E2 in *. apply failing_rounds_spec; [split; lia|lia|done|unfold stopped; by rewrite Hc, Hx|].
  rewrite H2, <- H1, Z.pow_0_r. lia.
Qed.

(** After [Close] the loop ends within two stretches, whether it was about
    to subscribe, receiving or asleep, and no message reaches the channel any
    more; closing again changes nothing. *)
Theorem closed_bus_stops b q raw raw' c c' d ch m :
  Close (Close b) = Close b
  ∧ on_message d ch m (Close b) = Some (None, Close b)
  ∧ ∃ q1 b1 b2, loop_step raw c q (Close b) = Some (q1, b1) ∧ loop_step raw' c' q1 b1 = Some (LEnd, b2).
Proof.
  assert (vclosed (Close b) = true) as Hc by (unfold Close; by destruct (vclosed b) eqn:E).
  assert (stopped (Close b) = true) as Hs by (unfold stopped; by rewrite Hc, orb_true_r).
  split_and!.
  - unfold Close at 1. by rewrite Hc.
  - unfold on_message. by rewrite Hc.
  - destruct q as [| |cur s|]; simpl; rewrite ?Hs; try by repeat eexists; simpl.
    destruct (c && vcancelled (Close b)); [by repeat eexists|].
    eexists _, _, _. split; [done|]. simpl. change (stopped (upd_backoff _ ?x)) with (stopped x). by rewrite Hs.
Qed.
End bus.

(** A bus with the default delays. *)
Definition demo_config : Config :=
  mkConfig (str "valkey:6379") [] [] 0 false [] [] [] [] false 0 0 0 [] true (250 * millisecond) (seconds 30) true 0.
Definition demo_NewBus := @NewBus nat nat (λ _, None) (λ _, None) (λ _ _, None) (λ _, true).
Definition demo_bus : VBus := match demo_NewBus demo_config with Ok b => b | Err _ => mkVBus demo_config true true true (make_chan 0) false 0 0 end.
Definition demo_subscribed : VBus := match Subscribe [] demo_bus with Ok (_, _, b) => b | Err _ => demo_bus end.


Lemma backoff_closed_form_witness :
  ∃ b', failing_rounds [5; 5; 5; 5; 5; 5; 5; 5] demo_subscribed =
    Some ((Z.mul millisecond) <$> [250; 500; 1000; 2000; 4000; 8000; 16000; 30000], b').
Proof.
  destruct (backoff_closed_form (Pool := nat) (Cert := nat) (λ _, None) (λ _, None) (λ _ _, None) (λ _, true)
    demo_config [] demo_bus [str "realtime.*"] LTop demo_subscribed [5; 5; 5; 5; 5; 5; 5; 5]) as [b' E];
    [reflexivity|reflexivity|reflexivity|vm_compute; split; congruence|reflexivity|].
  exists b'. rewrite E. reflexivity.
Defined.
