(* ===== verification/Wire.v ===== *)
(** * From the bytes on the bus to what a subscriber reads

    The composition of [Valkey.on_message] (JSON decoding), [Pipeline]
    (decryption, serialisation, frame) and the two readers on the subscriber's
    side: the event-stream reader of [Frame.v] and the JSON parser of
    [JsonParse.v].  [payload_value] is the JSON value the subscriber is meant
    to see. *)

From S2P Require Import Prelude GoStrings Chan Frame Base64 Aes Crypto Json JsonParse JsonDecode JsonCompact Bus EventJson Router Client Shard Hub HubSpec HubBroadcast Pipeline Tlsconf Valkey.

Local Open Scope Z_scope.

(** ** The value of a serialised payload *)
Definition value_member (k : string) (v : json) : list (gostring * json) := [(str k, v)].
Definition value_text (k : string) (s : gostring) : list (gostring * json) := value_member k (JString s).
Definition value_omit (k : string) (s : gostring) : list (gostring * json) := if decide (s = []) then [] else value_text k s.

Definition payload_value (p : DecryptedEventPayload) (data : json) : json :=
  JObject (value_text "event_id" (dp_EventID p) ++ value_text "tenant_id" (dp_TenantID p) ++ value_text "app_id" (dp_AppID p)
    ++ value_text "topic_id" (dp_TopicID p) ++ value_text "type" (dp_Type p) ++ value_omit "entity_id" (dp_EntityID p)
    ++ value_member "version" (JNumber (FormatInt (dp_Version p))) ++ value_omit "origin_user_id" (dp_OriginUserID p)
    ++ value_text "created_at" (rfc3339 (dp_CreatedAt p)) ++ value_member "data" data).

(** The tree whose text [marshal_payload] writes. *)
Definition payload_tree (p : DecryptedEventPayload) (data : json) : list (gostring * json) :=
  text_member "event_id" (dp_EventID p) ++ text_member "tenant_id" (dp_TenantID p) ++ text_member "app_id" (dp_AppID p)
  ++ text_member "topic_id" (dp_TopicID p) ++ text_member "type" (dp_Type p) ++ omit_text "entity_id" (dp_EntityID p)
  ++ int_member "version" (dp_Version p) ++ omit_text "origin_user_id" (dp_OriginUserID p)
  ++ [(str "created_at", JString (rfc3339 (dp_CreatedAt p)))] ++ [(str "data", data)].

Lemma print_member_first k v ms : ms ≠ [] → print_members ([(str k, v)] ++ ms) = member k (print v) ++ print_members ms.
Proof.
  intros Hne. destruct ms as [|m ms]; [done|].
  change (print_members ([(str k, v)] ++ m :: ms)) with (print_key (str k) ++ print v ++ str "," ++ print_members (m :: ms)).
  unfold print_key, member. by rewrite <- !(assoc_L (++)).
Qed.

Lemma print_omit_first k s ms : ms ≠ [] → print_members (omit_text k s ++ ms) = member_omitempty k s ++ print_members ms.
Proof. intros Hne. unfold omit_text, member_omitempty. case_decide; [done|]. by apply print_member_first. Qed.

Lemma marshal_payload_tree p text :
  marshal_payload p = Some text →
  ∃ data, marshal_raw (dp_Data p) = Some data ∧ ∀ j, print j = data → text = print (JObject (payload_tree p j)).
Proof.
  unfold marshal_payload. intros (created & Hc & H)%bind_Some. apply bind_Some in H as (data & Hd & H). apply (inj Some) in H as <-.
  exists data. split; [done|]. intros j Hj. rewrite print_object. unfold payload_tree, text_member, int_member.
  assert (∀ (l : list (gostring * json)) m, l ++ [m] ≠ []) as Hne by (by intros [|]).
  unfold marshal_time in Hc. case_decide; [|done]. apply (inj Some) in Hc as <-.
  rewrite (print_member_first "event_id"), (print_member_first "tenant_id"), (print_member_first "app_id"),
    (print_member_first "topic_id"), (print_member_first "type"), print_omit_first, (print_member_first "version"),
    print_omit_first, (print_member_first "created_at") by (rewrite ?(assoc_L (++)); first [done | by apply Hne]).
  simpl (print_members [_]). unfold print_key. rewrite Hj. by rewrite <- !(assoc_L (++)).
Qed.

(** ** What the subscriber's JSON parser reads *)

Definition payload_texts (p : DecryptedEventPayload) : list gostring :=
  [dp_EventID p; dp_TenantID p; dp_AppID p; dp_TopicID p; dp_Type p; dp_EntityID p; dp_OriginUserID p].

Lemma denote_object_app l l' ms ms' :
  denote (JObject l) = JObject ms → denote (JObject l') = JObject ms' → denote (JObject (l ++ l')) = JObject (ms ++ ms').
Proof. simpl. intros [= <-] [= <-]. by rewrite List.map_app. Qed.

Lemma denote_text k s :
  Forall (λ c, plain c = true) (str k) → ValidString s = true → denote (JObject (text_member k s)) = JObject (value_text k s).
Proof. intros Hk Hs. simpl. by rewrite plain_unquote, unquote_quote. Qed.

Lemma denote_omit k s :
  Forall (λ c, plain c = true) (str k) → ValidString s = true → denote (JObject (omit_text k s)) = JObject (value_omit k s).
Proof. intros Hk Hs. unfold omit_text, value_omit. case_decide; [done|]. by apply denote_text. Qed.

Lemma denote_member k j :
  Forall (λ c, plain c = true) (str k) → denote (JObject [(str k, j)]) = JObject (value_member k (denote j)).
Proof. intros Hk. simpl. by rewrite plain_unquote. Qed.

Lemma denote_plain k raw :
  Forall (λ c, plain c = true) (str k) → Forall (λ c, plain c = true) raw →
  denote (JObject [(str k, JString raw)]) = JObject (value_text k raw).
Proof. intros Hk Hr. simpl. by rewrite !plain_unquote. Qed.

Lemma denote_payload p j :
  Forall (λ s, ValidString s = true) (payload_texts p) → denote (JObject (payload_tree p j)) = payload_value p (denote j).
Proof.
  unfold payload_texts. intros Ht. repeat apply Forall_cons in Ht as [? Ht]. unfold payload_tree, payload_value.
  repeat apply denote_object_app.
  all: first [ apply denote_plain; [by_decide|apply rfc3339_plain] | apply denote_text; [by_decide|done]
             | apply denote_omit; [by_decide|done] | apply (denote_member _ (JNumber _)); by_decide | apply denote_member; by_decide ].
Qed.

Lemma payload_tree_ok p j : json_ok 1 j → json_ok 0 (JObject (payload_tree p j)).
Proof.
  intros Hj. apply object_ok; [by_decide|]. unfold payload_tree.
  repeat (apply Forall_app; split); eauto with json_ok nocore; apply Forall_singleton; (split; [reflexivity|]).
  - apply rfc3339_string_ok.
  - exact Hj.
Qed.

(** The text of a payload whose data is the JSON value [v] parses to the
    payload's value. *)
Lemma marshal_payload_reads p v text :
  Forall (λ s, ValidString s = true) (payload_texts p) → dp_Data p ≠ [] → parse_text (dp_Data p) = Some v →
  (height v < maxNestingDepth)%nat → marshal_payload p = Some text →
  ∃ j, parse_text text = Some j ∧ denote j = payload_value p (denote v).
Proof.
  intros Ht Hne Hv Hh (data & Hd & Htext)%marshal_payload_tree. unfold marshal_raw in Hd. rewrite decide_False in Hd by done.
  apply compact_sound in Hd as (v' & Hv' & [Hok Hden] & ->). rewrite Hv in Hv'. apply (inj Some) in Hv' as <-.
  rewrite (Htext (escape v)) by done. exists (JObject (payload_tree p (escape v))). split.
  - apply parse_print, payload_tree_ok. eapply json_ok_room; [exact Hok|]. rewrite height_escape. lia.
  - rewrite denote_payload by done. by rewrite Hden.
Qed.

(** ** From the producer to the subscriber *)

(** The producer sealed [data] under [key] for the context of its event. *)
Record sealed (p : Processor) (e : EncryptedEvent) (key nonce data : gostring) : Prop := {
  sl_key : length key = 32%nat;
  sl_nonce : length nonce = 12%nat;
  sl_size : Z.of_nat (length data) ≤ (2 ^ 32 - 2) * 16;
  sl_payload_nonce : ep_PayloadNonce (ee_Crypto e) = EncodeToString nonce;
  sl_ciphertext : ep_Ciphertext (ee_Crypto e) = EncodeToString (Seal key nonce data (event_aad p e));
}.

(** The clear value: a JSON text, not empty, that fits the bound and leaves
    room for the object around it. *)
Record clear_value (p : Processor) (data : gostring) (v : json) : Prop := {
  cv_size : Z.of_nat (length data) ≤ max_payload p;
  cv_some : data ≠ [];
  cv_valid : compact data ≠ None;
  cv_value : parse_text data = Some v;
  cv_nesting : (height v < maxNestingDepth)%nat;
}.

Lemma event_payload_texts e data : event_ok e → Forall (λ s, ValidString s = true) (payload_texts (clear_payload e data)).
Proof. intros [[Ht _ _ _ _ _] _]. repeat apply Forall_cons in Ht as [? Ht]. unfold payload_texts. simpl. by repeat constructor. Qed.

Lemma event_payload_marshals p e data v :
  event_ok e → clear_value p data v → ∃ text, marshal_payload (clear_payload e data) = Some text.
Proof.
  intros [_ Hk] [_ Hne Hc _ _]. unfold marshal_payload, marshal_time, marshal_raw. simpl.
  rewrite (decide_False (P := data = [])) by done. rewrite decide_True by (split; apply Hk). simpl. destruct (compact data); [|done]. simpl. eauto.
Qed.

Section browser.
Context `{!GoRange, U : !KeyUnwrapper}.

End browser.

(** ** A concrete delivery *)
Definition wire_processor : Processor :=
  mkProcessor (mkRouter (str "{topic}") [] 0 0 0) (mkCryptoConfig true DefaultAADTemplate 0) true.
Definition wire_data : gostring := jtext "{ 'note' : '<\u00e9>', 'list':[1, -2.5e3,null] }".
Definition wire_cipher : gostring :=
  Eval vm_compute in
    EncodeToString (Seal case16_key case16_nonce wire_data
      (BuildAAD DefaultAADTemplate (mkAAD (str "acme") (str "crm") (str "chat") (str "e-1") 3))).
Definition wire_event : EncryptedEvent :=
  mkEncryptedEvent SupportedEventSchema (str "e-1") (str "acme") (str "crm") (str "chat") (str "order<b>") [] 3 [] [] demo_time
    (mkEncryptedPayload [] [] 1 (str "a2Vt") (str "d3JhcHBlZA==") [] (EncodeToString case16_nonce) wire_cipher) [] [].
Definition wire_bus : VBus := mkVBus demo_config false false true (make_chan 8) false 0 0.

