(* ===== verification/System.v ===== *)
(** * cmd/server/main.go: the running system

    The consumer goroutine, the lanes with the processor as their handler, the
    hub and the shutdown sequence of [main], interleaved by [sys_step].  The
    consumer is the only caller of [Dispatch]; its call runs by the atomic
    operations of [Lanes.v].  A worker's handler is [Pipeline.HandleEvent] on
    the shared hub.  The rest of the program (HTTP handlers, heartbeat) acts on
    the hub by [HubRun.hub_step].  [dispatched] and [handled] are histories:
    the events a lane accepted, and those a worker handed to the processor,
    with whether the key service was still open. *)

From S2P Require Import Prelude GoStrings Hashutil Chan Frame Quota Client Shard Hub HubSpec HubBroadcast HubRevoke HubRun Router Crypto Json Bus Lanes Pipeline.

Local Open Scope Z_scope.

(** [ev.RoutingKey = routingKey] *)
Definition with_routing (k : gostring) (e : EncryptedEvent) : EncryptedEvent :=
  mkEncryptedEvent (ee_Schema e) (ee_EventID e) (ee_TenantID e) (ee_AppID e) (ee_TopicID e) (ee_Type e) (ee_EntityID e)
    (ee_Version e) (ee_OriginUserID e) (ee_UserID e) (ee_CreatedAt e) (ee_Crypto e) (ee_RawChannel e) k.

(** Where the consumer goroutine stands. *)
Inductive consumer_pc :=
| CoSelect                      (* at the [select] *)
| CoDispatch (i : nat)          (* in [Dispatch], call [i] *)
| CoDone.                       (* returned, [consumerWg.Done()] *)

(** Where [main] stands in the shutdown sequence. *)
Inductive main_pc :=
| MServing                      (* waiting for a signal *)
| MRefusing                     (* step 1 done *)
| MHttpDown                     (* step 2: [srv.Shutdown] or [srv.Close] returned *)
| MCancelled                    (* step 3: [busCancel()] called *)
| MConsumerDone                 (* step 3: [consumerWg.Wait()] returned *)
| MLanesClosed                  (* step 4: [dispatcher.Close()] returned *)
| MBusClosed                    (* step 5 *)
| MUnwrapperClosed              (* step 5 *)
| MStopped.                     (* step 6: [sseHub.Close()] returned *)

Record Sys := mkSys {
  live : list Client;           (* the abstract state of the hub *)
  sys_hub : Hub;
  disp : Dispatcher;
  pipe : Pipe;
  consumer : consumer_pc;
  main : main_pc;
  EventsReceivedTotal : Z;
  EventLaneQueueDroppedTotal : Z;
  received : list EncryptedEvent;
  dispatched : list EncryptedEvent;
  handled : list (EncryptedEvent * bool);
}.

Section system.
Context `{!GoRange, !KeyUnwrapper} (p : Processor).
(** [cfg.Auth.InvalidationEventType] *)
Context (InvalidationEventType : gostring).

(** What the consumer does with an event, before any [Dispatch]: the live set
    and the hub, the pipeline's counters, and the event to dispatch if any. *)
Definition consume (ev : EncryptedEvent) (L : list Client) (h : Hub) (s : Pipe)
    : option (option EncryptedEvent * list Client * Hub * Pipe) :=
  if negb (IsSchemaSupported ev) then Some (None, L, h, s)
  else if decide (ee_Type ev = InvalidationEventType) then
    '(_, h') ← InvalidateUser (ee_TenantID ev) (ee_UserID ev) h;
    Some (None, filter (λ c, ¬ user_match (ee_TenantID ev) (ee_UserID ev) c) L, h', s)
  else
    let routingKey := BuildKey (pr_router p) (ee_TenantID ev) (ee_AppID ev) (ee_TopicID ev) in
    '(has, h') ← HasSubscribers routingKey h;
    if has : bool then Some (Some (with_routing routingKey ev), L, h', s)
    else '(_, s') ← count_metrics p 0 0 0 0 0 1 s; Some (None, L, h', s').

(** [main] keeps the key service open until [unwrapper.Close()]. *)
Definition unwrapper_open (m : main_pc) : bool :=
  match m with MUnwrapperClosed | MStopped => false | _ => true end.

(** The bus context is cancelled. *)
Definition bus_cancelled (m : main_pc) : bool :=
  match m with MServing | MRefusing | MHttpDown => false | _ => true end.

(** The next stage of [main], when it is not waiting for another goroutine. *)
Definition main_next (S : Sys) : option (main_pc * list Client * Hub) :=
  match main S with
  | MServing => Some (MRefusing, live S, sys_hub S)
  | MRefusing => Some (MHttpDown, live S, sys_hub S)
  | MHttpDown => Some (MCancelled, live S, sys_hub S)
  | MCancelled => match consumer S with CoDone => Some (MConsumerDone, live S, sys_hub S) | _ => None end
  | MConsumerDone => match closer (disp S) with CDone _ => Some (MLanesClosed, live S, sys_hub S) | _ => None end
  | MLanesClosed => Some (MBusClosed, live S, sys_hub S)
  | MBusClosed => Some (MUnwrapperClosed, live S, sys_hub S)
  | MUnwrapperClosed => '(_, h') ← Hub.Close (sys_hub S); Some (MStopped, live S, h')
  | MStopped => None
  end.

Definition count_if (b : bool) (z : Z) : Z := if b && pr_metrics p then z + 1 else z.

(** *** Updates *)
Definition set_disp (d : Dispatcher) (S : Sys) : Sys :=
  mkSys (live S) (sys_hub S) d (pipe S) (consumer S) (main S) (EventsReceivedTotal S) (EventLaneQueueDroppedTotal S)
    (received S) (dispatched S) (handled S).

(** Consumer, workers and [dispatcher.Close()]. *)
Inductive core_step : Sys → Sys → Prop :=
(** The consumer receives [ev] (its case of the [select]). *)
| s_consume S ev L' h' s' :
    consumer S = CoSelect →
    consume ev (live S) (sys_hub S) (pipe S) = Some (None, L', h', s') →
    core_step S (mkSys L' h' (disp S) s' CoSelect (main S) (count_if true (EventsReceivedTotal S))
                  (EventLaneQueueDroppedTotal S) (received S ++ [ev]) (dispatched S) (handled S))
| s_dispatch S ev ev' L' h' s' :
    consumer S = CoSelect →
    consume ev (live S) (sys_hub S) (pipe S) = Some (Some ev', L', h', s') →
    core_step S (mkSys L' h' (upd_dispatchers (dispatchers (disp S) ++ [DStart ev']) (disp S)) s'
                  (CoDispatch (length (dispatchers (disp S)))) (main S) (count_if true (EventsReceivedTotal S))
                  (EventLaneQueueDroppedTotal S) (received S ++ [ev]) (dispatched S) (handled S))
(** One operation of its [Dispatch]; [DSend] followed by [DAdd] is an
    accepted event. *)
| s_dispatching S i q q' d' :
    consumer S = CoDispatch i → dispatchers (disp S) !! i = Some q →
    dispatch_atomic q (disp S) = Next (q', d') →
    core_step S (mkSys (live S) (sys_hub S) (upd_dispatchers (<[i := q']> (dispatchers d')) d') (pipe S) (consumer S) (main S)
                  (EventsReceivedTotal S) (EventLaneQueueDroppedTotal S) (received S)
                  (dispatched S ++ match q' with DAdd ev => [ev] | _ => [] end) (handled S))
| s_dispatched S i ok ev :
    consumer S = CoDispatch i → dispatchers (disp S) !! i = Some (DRet ok ev) →
    core_step S (mkSys (live S) (sys_hub S) (disp S) (pipe S) CoSelect (main S) (EventsReceivedTotal S)
                  (count_if (negb ok) (EventLaneQueueDroppedTotal S)) (received S) (dispatched S) (handled S))
(** It stops when the context is done or the channel closed. *)
| s_consumer_stops S :
    consumer S = CoSelect → bus_cancelled (main S) = true →
    core_step S (mkSys (live S) (sys_hub S) (disp S) (pipe S) CoDone (main S) (EventsReceivedTotal S)
                  (EventLaneQueueDroppedTotal S) (received S) (dispatched S) (handled S))
(** A worker outside its handler. *)
| s_worker S i l l' z :
    lanes (disp S) !! i = Some l → (∀ ev, lane_worker l ≠ WHandle ev) → worker_atomic l = Next (l', z) →
    core_step S (set_disp (upd_depth (queueDepth (disp S) + z) (upd_lanes (<[i := l']> (lanes (disp S))) (disp S))) S)
(** A worker's handler. *)
| s_handle S i l ev l' z h' s' :
    lanes (disp S) !! i = Some l → lane_worker l = WHandle ev → worker_atomic l = Next (l', z) →
    HandleEvent p ev (sys_hub S, pipe S) = Some ((), (h', s')) →
    core_step S (mkSys (live S) h' (upd_depth (queueDepth (disp S) + z) (upd_lanes (<[i := l']> (lanes (disp S))) (disp S))) s'
                  (consumer S) (main S) (EventsReceivedTotal S) (EventLaneQueueDroppedTotal S) (received S)
                  (dispatched S) (handled S ++ [(ev, unwrapper_open (main S))]))
(** [dispatcher.Close()], called by [main]. *)
| s_close S expired d' :
    main S = MConsumerDone → close_atomic expired (disp S) = Next d' → core_step S (set_disp d' S).

(** [main] moves on; the HTTP handlers and the heartbeat change the hub. *)
Definition set_main (m : main_pc) (L : list Client) (h : Hub) (S : Sys) : Sys :=
  mkSys L h (disp S) (pipe S) (consumer S) m (EventsReceivedTotal S) (EventLaneQueueDroppedTotal S)
    (received S) (dispatched S) (handled S).
Definition set_hub_of (L : list Client) (h : Hub) (S : Sys) : Sys := set_main (main S) L h S.

Inductive sys_step : Sys → Sys → Prop :=
| s_core S S' : core_step S S' → sys_step S S'
| s_main S m L' h' : main_next S = Some (m, L', h') → sys_step S (set_main m L' h' S)
| s_hub S L' h' : hub_step (live S, sys_hub S) (L', h') → sys_step S (set_hub_of L' h' S).

(** The steps of the program's own goroutines, requests apart. *)
Definition work_step (S S' : Sys) : Prop :=
  core_step S S' ∨ ∃ m L' h', main_next S = Some (m, L', h') ∧ S' = set_main m L' h' S.

Definition empty_mem_pipe (m : Mem) : Pipe := mkPipe m 0 0 0 0 0 0.
Definition start_sys (shards laneCount queueSize : Z) (limits : LimitsConfig) (m : Mem) : Sys :=
  mkSys [] (NewHub shards limits) (NewDispatcher laneCount queueSize) (empty_mem_pipe m) CoSelect MServing 0 0 [] [] [].

(** ** Invariant *)

(** The event as the consumer dispatches it. *)
Definition route (ev : EncryptedEvent) : EncryptedEvent :=
  with_routing (BuildKey (pr_router p) (ee_TenantID ev) (ee_AppID ev) (ee_TopicID ev)) ev.

Definition on_lane (n : Z) (i : nat) (ev : EncryptedEvent) : Prop :=
  ShardIndex (dispatch_key ev) n = Some (Z.of_nat i).

Global Instance on_lane_dec n i ev : Decision (on_lane n i ev).
Proof. unfold on_lane. apply _. Defined.

(** The event of a [Dispatch] call that no lane has accepted yet. *)
Definition pending (q : dpc) : list EncryptedEvent :=
  match q with DStart ev | DCheck ev | DSend ev => [ev] | _ => [] end.
Definition consumer_pending (S : Sys) : list EncryptedEvent :=
  match consumer S with
  | CoDispatch i => match dispatchers (disp S) !! i with Some q => pending q | None => [] end
  | _ => []
  end.

(** Up to the end of the consumer; after [dispatcher.Close()]. *)
Definition before_lanes (m : main_pc) : bool :=
  match m with MServing | MRefusing | MHttpDown | MCancelled => true | _ => false end.
Definition after_lanes (m : main_pc) : bool :=
  match m with MLanesClosed | MBusClosed | MUnwrapperClosed | MStopped => true | _ => false end.

Record sys_inv (S : Sys) : Prop := {
  y_hub : run_inv (live S, sys_hub S);
  y_disp : disp_inv (disp S);
  y_mem : mem_wf (mem (pipe S));
  y_calls i q : dispatchers (disp S) !! i = Some q → (∃ ok ev, q = DRet ok ev) ∨ consumer S = CoDispatch i;
  y_index i : consumer S = CoDispatch i → is_Some (dispatchers (disp S) !! i);
  y_consumer : consumer S ≠ CoDone → before_lanes (main S) = true;
  y_before : before_lanes (main S) = true → closer (disp S) = CIdle;
  y_after : after_lanes (main S) = true → ∃ t, closer (disp S) = CDone t;
  y_logs i l : lanes (disp S) !! i = Some l →
    filter (on_lane (numLanes (disp S)) i) (dispatched S) = accepted l
    ∧ filter (on_lane (numLanes (disp S)) i) (handled S).*1 = processed l;
  y_order : (dispatched S ++ consumer_pending S) `sublist_of` (route <$> received S);
  y_late e : (e, false) ∈ handled S → closer (disp S) = CDone true;
}.

Lemma HandleEvent_runs L h s ev :
  hub_inv L h → mem_wf (mem s) →
  ∃ h' s', HandleEvent p ev (h, s) = Some ((), (h', s')) ∧ hub_inv L h' ∧ mem_wf (mem s').
Proof.
  intros Hi Hm. unfold HandleEvent, mbind, M_bind.
  destruct (decide (HubBroadcast.subscribers L (event_key p ev) = [])) as [Hs|Hs].
  { rewrite (broadcast_no_subscriber L) by done. unfold on_env, count_metrics, modify. simpl.
    eexists _, _. split; [done|]. split; [done|]. by destruct (pr_metrics p). }
  destruct (wp_run _ _ _ (DecryptAndBuildFrame_spec p ev s Hm)) as (r & s1 & E & Hm1 & _).
  assert (∀ z, ∃ s2, count_metrics p 0 0 1 0 0 1 s1 = Some ((), s2) ∧ mem_wf (mem s2)
             ∧ ∃ s3, count_metrics p 0 0 1 1 z 0 s1 = Some ((), s3) ∧ mem_wf (mem s3)) as Hcount.
  { intros z. unfold count_metrics, modify. eexists. split; [done|]. split; [by destruct (pr_metrics p)|].
    eexists. split; [done|]. by destruct (pr_metrics p). }
  destruct r as [[frame|]|e].
  - destruct (broadcast_delivers L h (event_key p ev) (DecryptAndBuildFrame p ev) s s1 frame Hi Hs E)
      as (h1 & h2 & -> & _ & _ & Hi2 & _).
    match goal with |- context [count_metrics p 0 0 1 1 ?n 0] => destruct (Hcount n) as (s2 & E2 & W2 & s3 & E3 & W3) end.
    unfold on_env. simpl. case_decide; [rewrite E3|rewrite E2]; eauto.
  - destruct (broadcast_subscribers L h (event_key p ev) (DecryptAndBuildFrame p ev) s Hi Hs) as (rs & _ & ->).
    rewrite E. destruct (Hcount 0) as (s2 & E2 & W2 & _). unfold on_env. cbn [fst snd]. rewrite decide_False by lia. rewrite E2. eauto.
  - destruct (broadcast_subscribers L h (event_key p ev) (DecryptAndBuildFrame p ev) s Hi Hs) as (rs & _ & ->).
    rewrite E. simpl. eauto.
Qed.

Lemma consume_runs ev L h s :
  run_inv (L, h) → mem_wf (mem s) →
  ∃ r L' h' s', consume ev L h s = Some (r, L', h', s') ∧ run_inv (L', h') ∧ mem_wf (mem s')
    ∧ (∀ ev', r = Some ev' → ev' = route ev).
Proof.
  intros Hi Hm. unfold consume. destruct (IsSchemaSupported ev); simpl; [|by eexists _, _, _, _].
  case_decide.
  - destruct (wp_run _ _ _ (exec_spec (CInvalidate (ee_TenantID ev) (ee_UserID ev)) L h Hi I)) as (L' & h' & E & Hi').
    simpl in E. unfold mbind, M_bind in E.
    destruct (InvalidateUser _ _ h) as [[n h1]|]; [|done]. unfold mret, M_ret in E. simplify_eq. simpl. by eexists _, _, _, _.
  - rewrite (HasSubscribers_spec L) by apply Hi. simpl.
    destruct (bool_decide _); [eexists _, _, _, _; split; [done|]; split_and!; [done..|by intros ev' [= <-]]|].
    unfold count_metrics, modify. simpl. eexists _, _, _, _. split; [done|]. split_and!; [done|by destruct (pr_metrics p)|done].
Qed.

(** The event an operation of [Dispatch] has just got accepted. *)
Definition accepted_now (q' : dpc) : list EncryptedEvent := match q' with DAdd ev => [ev] | _ => [] end.

Lemma filter_on_lane n i ev idx :
  ShardIndex (dispatch_key ev) n = Some idx → 0 ≤ idx →
  filter (on_lane n i) [ev] = if decide (i = Z.to_nat idx) then [ev] else [].
Proof.
  intros Hs Hp. rewrite filter_cons, filter_nil.
  assert (on_lane n i ev ↔ i = Z.to_nat idx) as Hiff.
  { unfold on_lane. rewrite Hs. split; [intros [= E]; lia|intros ->; f_equal; lia]. }
  by rewrite (decide_ext (on_lane n i ev) (i = Z.to_nat idx)).
Qed.

(** A [Dispatch] operation adds the event it gets accepted to its lane, and
    touches nothing else of the lanes. *)
Lemma dispatch_lanes d j q q' d' :
  disp_inv d → dispatchers d !! j = Some q → dispatch_atomic q d = Next (q', d') →
  numLanes d' = numLanes d ∧ closer d' = closer d ∧ dispatchers d' = dispatchers d
  ∧ (accepted_now q' ++ pending q') `sublist_of` pending q
  ∧ (∀ i l', lanes d' !! i = Some l' → ∃ l, lanes d !! i = Some l ∧ processed l' = processed l
       ∧ accepted l' = accepted l ++ filter (on_lane (numLanes d) i) (accepted_now q')).
Proof.
  intros Hi Hj E.
  assert (∀ i l', lanes d !! i = Some l' → ∃ l, lanes d !! i = Some l ∧ processed l' = processed l
            ∧ accepted l' = accepted l ++ []) as Hsame by (intros; eexists; by rewrite app_nil_r).
  destruct q as [ev|ev|ev|ev|ok ev|ok ev]; simpl in E.
  - destruct (writer d); simplify_eq. by split_and!.
  - destruct (d_closed d); simplify_eq; split_and!; try done. apply sublist_nil_l.
  - unfold dispatch_send in E. destruct (ShardIndex _ _) as [idx|] eqn:Hs; [|done].
    destruct (sending_lane d j ev idx Hi Hj Hs) as (l & Hl & _ & Hcl & Hpos). rewrite Hl in E.
    unfold try_send in E. rewrite Hcl in E. case_decide; simplify_eq; split_and!; try done; [|by apply sublist_nil_l].
    simpl. intros i l' [[-> ->]|[Hne H']]%lookup_insert_cases.
    + exists l. split; [done|]. split; [done|]. by rewrite (filter_on_lane _ _ _ idx), decide_True.
    + exists l'. split; [done|]. split; [done|]. by rewrite (filter_on_lane _ _ _ idx), decide_False, app_nil_r.
  - simplify_eq. by split_and!.
  - simplify_eq. by split_and!.
  - done.
Qed.

(** A worker's operation: what it does to its lane's history. *)
Lemma worker_lane l l' z :
  worker_atomic l = Next (l', z) →
  accepted l' = accepted l
  ∧ processed l' = processed l ++ match lane_worker l with WHandle ev => [ev] | _ => [] end.
Proof.
  unfold worker_atomic. intros E. destruct (lane_worker l) as [|ev|ev|]; [|simplify_eq; by rewrite ?app_nil_r..|done].
  destruct (recv (lane_ch l)); simplify_eq; by rewrite app_nil_r.
Qed.

(** An event in a worker's hands belongs on its lane. *)
Lemma handling_on_lane d i l ev :
  disp_inv d → lanes d !! i = Some l → lane_worker l = WHandle ev → on_lane (numLanes d) i ev.
Proof.
  intros Hi Hl Hw. apply (di_keys _ Hi i l ev Hl). rewrite <- (lo_flow _ _ _ (di_lane _ Hi i l Hl)), Hw. simpl. set_solver.
Qed.

Lemma close_lanes expired d d' :
  close_atomic expired d = Next d' →
  numLanes d' = numLanes d ∧ dispatchers d' = dispatchers d
  ∧ (∀ i l', lanes d' !! i = Some l' → ∃ l, lanes d !! i = Some l ∧ accepted l' = accepted l ∧ processed l' = processed l).
Proof.
  intros E. unfold close_atomic in E. destruct (closer d) as [| |j| |t|t]; repeat case_match; simplify_eq; simpl; split_and!; eauto.
  intros i l' [[-> ->]|[_ ?]]%lookup_insert_cases; eauto.
Qed.

(** The lane histories after an update of one lane. *)
Lemma logs_update S i l l' (ds : list EncryptedEvent) (hs : list (EncryptedEvent * bool)) n :
  (∀ j k, lanes (disp S) !! j = Some k →
     filter (on_lane n j) ds = accepted k ∧ filter (on_lane n j) hs.*1 = processed k) →
  lanes (disp S) !! i = Some l → accepted l' = accepted l → ∀ new,
  processed l' = processed l ++ new.*1 → Forall (on_lane n i) new.*1 →
  ∀ j k, <[i := l']> (lanes (disp S)) !! j = Some k →
     filter (on_lane n j) ds = accepted k ∧ filter (on_lane n j) (hs ++ new).*1 = processed k.
Proof.
  intros Hlog Hl Ha new Hp Hnew j k Hk. rewrite fmap_app, filter_app.
  apply lookup_insert_cases in Hk as [[-> ->]|[Hne Hk]].
  - destruct (Hlog i l Hl) as [-> ->]. rewrite Ha, Hp. split; [done|]. f_equal.
    clear -Hnew. induction (new.*1) as [|e es IH]; [done|]. apply Forall_cons in Hnew as [H1 H2].
    rewrite filter_cons, decide_True by done. by rewrite IH.
  - destruct (Hlog j k Hk) as [-> ->]. split; [done|]. replace (filter (on_lane n j) new.*1) with (@nil EncryptedEvent);
      [by rewrite app_nil_r|].
    clear -Hnew Hne. induction (new.*1) as [|e es IH]; [done|]. apply Forall_cons in Hnew as [H1 H2].
    rewrite filter_cons, decide_False; [by apply IH|]. unfold on_lane in *. rewrite H1. intros [= E]. lia.
Qed.

(** *** Preservation, by kind of step *)
Lemma route_received S ev (rs : list EncryptedEvent) :
  dispatched S ++ consumer_pending S `sublist_of` (route <$> received S) →
  consumer S = CoSelect → rs `sublist_of` [route ev] →
  dispatched S ++ rs `sublist_of` (route <$> received S ++ [ev]).
Proof.
  unfold consumer_pending. intros Ho Hc Hr. rewrite Hc, app_nil_r in Ho. rewrite fmap_app. by apply sublist_app.
Qed.

Lemma consume_inv S ev L' h' s' z :
  sys_inv S → consumer S = CoSelect →
  consume ev (live S) (sys_hub S) (pipe S) = Some (None, L', h', s') →
  sys_inv (mkSys L' h' (disp S) s' CoSelect (main S) z (EventLaneQueueDroppedTotal S) (received S ++ [ev])
             (dispatched S) (handled S)).
Proof.
  intros [I1 I2 I3 I4 I5 I6 I7 I8 I9 I10 I11] Hc E.
  destruct (consume_runs ev _ _ _ I1 I3) as (r & L1 & h1 & s1 & E1 & H1 & H2 & _). rewrite E in E1. simplify_eq.
  rewrite Hc in *. split; simpl; try done.
  unfold consumer_pending. simpl. apply route_received; [done..|apply sublist_nil_l].
Qed.

Lemma dispatch_start_inv S ev ev' L' h' s' z :
  sys_inv S → consumer S = CoSelect →
  consume ev (live S) (sys_hub S) (pipe S) = Some (Some ev', L', h', s') →
  sys_inv (mkSys L' h' (upd_dispatchers (dispatchers (disp S) ++ [DStart ev']) (disp S)) s'
             (CoDispatch (length (dispatchers (disp S)))) (main S) z (EventLaneQueueDroppedTotal S)
             (received S ++ [ev]) (dispatched S) (handled S)).
Proof.
  intros [I1 I2 I3 I4 I5 I6 I7 I8 I9 I10 I11] Hc E.
  destruct (consume_runs ev _ _ _ I1 I3) as (r & L1 & h1 & s1 & E1 & H1 & H2 & H3). rewrite E in E1. simplify_eq.
  specialize (H3 _ eq_refl) as ->. rewrite Hc in *. split; simpl; try done.
  - eapply lstep_inv, I2. apply call_dispatch.
  - intros i q [Hq|[Hi Hq]]%lookup_app_Some; [destruct (I4 i q Hq); [by left|done]|].
    apply list_lookup_singleton_Some in Hq as [Hz _]. right. f_equal. lia.
  - intros i [= <-]. rewrite lookup_app_r, Nat.sub_diag by done. by eexists.
  - intros _. by apply I6.
  - unfold consumer_pending. simpl. rewrite lookup_app_r, Nat.sub_diag by done. by apply route_received.
Qed.

Lemma dispatching_inv S i q q' d' :
  sys_inv S → consumer S = CoDispatch i → dispatchers (disp S) !! i = Some q →
  dispatch_atomic q (disp S) = Next (q', d') →
  sys_inv (mkSys (live S) (sys_hub S) (upd_dispatchers (<[i := q']> (dispatchers d')) d') (pipe S) (consumer S) (main S)
             (EventsReceivedTotal S) (EventLaneQueueDroppedTotal S) (received S)
             (dispatched S ++ accepted_now q') (handled S)).
Proof.
  intros [I1 I2 I3 I4 I5 I6 I7 I8 I9 I10 I11] Hc Hq E.
  destruct (dispatch_lanes _ i q q' d' I2 Hq E) as (E1 & E2 & E3 & Hpend & Hlanes).
  split; simpl; rewrite ?E1, ?E2; try done.
  - eapply lstep_inv, I2. by eapply run_dispatch.
  - rewrite E3. intros j q0 [[-> _]|[_ Hj]]%lookup_insert_cases; [by right|by apply I4].
  - rewrite E3. intros j Hj. destruct (I5 j Hj) as [q0 Hq0].
    destruct (decide (i = j)) as [<-|]; [rewrite list_lookup_insert_eq; [done|by eapply lookup_lt_Some]|].
    rewrite list_lookup_insert_ne by done. eauto.
  - intros j l' Hl'. destruct (Hlanes j l' Hl') as (l & Hl & Hp & Ha). destruct (I9 j l Hl) as [J1 J2].
    rewrite filter_app, J1, J2, Hp, Ha. done.
  - unfold consumer_pending in *. simpl. rewrite Hc in *. rewrite E3.
    rewrite list_lookup_insert_eq by (by eapply lookup_lt_Some). rewrite Hq in I10.
    rewrite <- (assoc_L (++)). etrans; [|exact I10]. by apply sublist_app.
Qed.

Lemma lanes_only_inv S d' (hs : list (EncryptedEvent * bool)) h' s' :
  sys_inv S → hub_inv (live S) h' → mem_wf (mem s') → disp_inv d' →
  numLanes d' = numLanes (disp S) → dispatchers d' = dispatchers (disp S) → closer d' = closer (disp S) →
  (∀ j k, lanes d' !! j = Some k →
     filter (on_lane (numLanes (disp S)) j) (dispatched S) = accepted k
     ∧ filter (on_lane (numLanes (disp S)) j) hs.*1 = processed k) →
  (∀ e, (e, false) ∈ hs → closer d' = CDone true) →
  sys_inv (mkSys (live S) h' d' s' (consumer S) (main S) (EventsReceivedTotal S) (EventLaneQueueDroppedTotal S) (received S)
             (dispatched S) hs).
Proof.
  intros [I1 I2 I3 I4 I5 I6 I7 I8 I9 I10 I11] Hh Hm Hd E1 E2 E3 Hlog Hlate. split; simpl; rewrite ?E1, ?E2, ?E3; try done.
  - by split; [|apply I1].
  - unfold consumer_pending in *. simpl. by rewrite E2.
  - by rewrite <- E3.
Qed.

Lemma worker_step_inv S i l l' z :
  sys_inv S → lanes (disp S) !! i = Some l → (∀ ev, lane_worker l ≠ WHandle ev) → worker_atomic l = Next (l', z) →
  sys_inv (set_disp (upd_depth (queueDepth (disp S) + z) (upd_lanes (<[i := l']> (lanes (disp S))) (disp S))) S).
Proof.
  intros Hi Hl Hw E. destruct (worker_lane l l' z E) as [Ha Hp]. apply lanes_only_inv; try done; simpl.
  - apply Hi.
  - apply Hi.
  - eapply lstep_inv, (y_disp _ Hi). by eapply run_worker.
  - rewrite <- (app_nil_r (handled S)). eapply logs_update; [apply (y_logs _ Hi)|done|done| |by constructor].
    rewrite Hp. destruct (lane_worker l) as [|ev|ev|]; try done. by destruct (Hw ev).
  - apply Hi.
Qed.

Lemma handle_step_inv S i l ev l' z h' s' :
  sys_inv S → lanes (disp S) !! i = Some l → lane_worker l = WHandle ev → worker_atomic l = Next (l', z) →
  HandleEvent p ev (sys_hub S, pipe S) = Some ((), (h', s')) →
  sys_inv (mkSys (live S) h' (upd_depth (queueDepth (disp S) + z) (upd_lanes (<[i := l']> (lanes (disp S))) (disp S))) s'
             (consumer S) (main S) (EventsReceivedTotal S) (EventLaneQueueDroppedTotal S) (received S)
             (dispatched S) (handled S ++ [(ev, unwrapper_open (main S))])).
Proof.
  intros Hi Hl Hw E Eh. destruct (worker_lane l l' z E) as [Ha Hp]. rewrite Hw in Hp.
  destruct (HandleEvent_runs (live S) (sys_hub S) (pipe S) ev (proj1 (y_hub _ Hi)) (y_mem _ Hi)) as (h1 & s1 & E1 & H1 & H2).
  rewrite Eh in E1. simplify_eq. apply lanes_only_inv; try done; simpl.
  - eapply lstep_inv, (y_disp _ Hi). by eapply run_worker.
  - eapply logs_update; [apply (y_logs _ Hi)|done|done|done|].
    repeat constructor. by apply (handling_on_lane (disp S) i l ev (y_disp _ Hi)).
  - intros e [He|He%list_elem_of_singleton]%elem_of_app; [by apply (y_late _ Hi e)|]. injection He as _ Hopen.
    destruct (y_after _ Hi) as [t Ht]; [by destruct (main S)|]. rewrite Ht. destruct t; [done|].
    pose proof (di_drained _ (y_disp _ Hi)) as Hdr. rewrite Ht in Hdr. by rewrite (Hdr eq_refl i l Hl) in Hw.
Qed.

Lemma close_step_inv S expired d' :
  sys_inv S → main S = MConsumerDone → close_atomic expired (disp S) = Next d' → sys_inv (set_disp d' S).
Proof.
  intros [I1 I2 I3 I4 I5 I6 I7 I8 I9 I10 I11] Hm E. destruct (close_lanes _ _ _ E) as (E1 & E2 & Hl).
  split; simpl; rewrite ?E1, ?E2, ?Hm; try done.
  - eapply lstep_inv, I2. by eapply run_close.
  - intros Hne. by rewrite <- Hm; apply I6.
  - intros i l' Hl'. destruct (Hl i l' Hl') as (l & Hil & -> & ->). by apply I9.
  - unfold consumer_pending in *. simpl. by rewrite E2.
  - intros e He. apply I11 in He. unfold close_atomic in E. by rewrite He in E.
Qed.

Lemma main_step_inv S m L' h' :
  sys_inv S → main_next S = Some (m, L', h') → sys_inv (set_main m L' h' S).
Proof.
  intros Hi E. pose proof Hi as [I1 I2 I3 I4 I5 I6 I7 I8 I9 I10 I11].
  assert (run_inv (L', h')) as Hrun.
  { unfold main_next in E. destruct (main S); repeat case_match; simplify_eq; try done.
    destruct (Hub.Close (sys_hub S)) as [[[] h1]|] eqn:Ec; [|done]. simplify_eq/=.
    pose proof (exec_spec CClose (live S) (sys_hub S) I1 I) as Hwp. unfold wp in Hwp. simpl in Hwp.
    unfold mbind, M_bind in Hwp. by rewrite Ec in Hwp. }
  unfold main_next in E. destruct (Hub.Close (sys_hub S)) as [[[] hc]|]; split; simpl; try done.
  all: simpl in E; destruct (main S) eqn:Em; repeat case_match; simplify_eq; try done; eauto.
Qed.

Lemma core_step_inv S S' : core_step S S' → sys_inv S → sys_inv S'.
Proof.
  intros Hs Hi. destruct Hs.
  - by apply consume_inv.
  - by apply dispatch_start_inv.
  - by apply (dispatching_inv S i q q' d').
  - pose proof Hi as [I1 I2 I3 I4 I5 I6 I7 I8 I9 I10 I11]. split; simpl; try done.
    + intros j q Hj. destruct (I4 j q Hj) as [?|Hj']; [by left|]. left.
      rewrite H1 in Hj'. injection Hj' as <-. rewrite H2 in Hj. injection Hj as <-. eauto.
    + intros _. apply I6. congruence.
    + unfold consumer_pending in *. simpl. rewrite H1, H2 in I10. by simpl in I10.
  - pose proof Hi as [I1 I2 I3 I4 I5 I6 I7 I8 I9 I10 I11]. split; simpl; try done.
    + intros j q Hj. destruct (I4 j q Hj) as [?|Hj']; [by left|congruence].
    + unfold consumer_pending in *. simpl. by rewrite H1 in I10.
  - by eapply worker_step_inv.
  - by eapply handle_step_inv.
  - by eapply close_step_inv.
Qed.

Lemma hub_changes_inv S L' h' : run_inv (L', h') → sys_inv S → sys_inv (set_hub_of L' h' S).
Proof. intros Hr [I1 I2 I3 I4 I5 I6 I7 I8 I9 I10 I11]. by split. Qed.

Lemma sys_step_inv S S' : sys_step S S' → sys_inv S → sys_inv S'.
Proof.
  intros [S1 S2 Hs|S1 m L' h' E|S1 L' h' Hs] Hi.
  - by eapply core_step_inv.
  - by apply main_step_inv.
  - apply hub_changes_inv; [|done]. apply (run_inv_steps (live S1, sys_hub S1) (L', h')); [by apply rtc_once|apply Hi].
Qed.

Lemma work_sys_step S S' : work_step S S' → sys_step S S'.
Proof. intros [Hs|(m & L' & h' & E & ->)]; [by apply s_core|by apply s_main]. Qed.

Lemma sys_inv_steps S S' : rtc sys_step S S' → sys_inv S → sys_inv S'.
Proof. induction 1 as [|x y z Hxy _ IH]; [done|]. intros Hx. apply IH. by eapply sys_step_inv. Qed.

(** A hub without connection and idle lanes. *)
Lemma sys_inv_fresh h d m :
  run_inv ([], h) → disp_inv d → mem_wf m → dispatchers d = [] → closer d = CIdle →
  (∀ i l, lanes d !! i = Some l → accepted l = [] ∧ processed l = []) →
  sys_inv (mkSys [] h d (empty_mem_pipe m) CoSelect MServing 0 0 [] [] []).
Proof.
  intros Hh Hd Hm Hc Hcl Hl. split; simpl; try done.
  - by rewrite Hc.
  - intros i l E. destruct (Hl i l E) as [-> ->]. by rewrite !filter_nil.
  - by intros e ?%elem_of_nil.
Qed.

Lemma new_lanes_empty n q i l : lanes (NewDispatcher n q) !! i = Some l → accepted l = [] ∧ processed l = [].
Proof. simpl. by intros [-> _]%lookup_replicate. Qed.

Lemma sys_reachable_inv shards n q limits m S :
  shards < 2 ^ 32 → n < 2 ^ 32 → mem_wf m →
  rtc sys_step (start_sys shards n q limits m) S → sys_inv S.
Proof.
  intros Hs Hn Hm Hrun. apply (sys_inv_steps _ _ Hrun), sys_inv_fresh; [|by apply NewDispatcher_inv|done..|apply new_lanes_empty].
  by apply run_inv_start.
Qed.

(** The events of a key are the events of that key on its lane. *)
Lemma with_key_lane n k idx (evs : list EncryptedEvent) :
  ShardIndex k n = Some idx → 0 ≤ idx →
  with_key k evs = with_key k (filter (on_lane n (Z.to_nat idx)) evs).
Proof.
  intros Hs Hp. unfold with_key. rewrite list_filter_filter. apply list_filter_iff. intros ev. split; [|by intros []].
  intros Hk. split; [done|]. unfold on_lane. rewrite Hk, Hs. f_equal. lia.
Qed.

Lemma key_lane d k :
  disp_inv d → ∃ idx l, ShardIndex k (numLanes d) = Some idx ∧ 0 ≤ idx ∧ lanes d !! Z.to_nat idx = Some l.
Proof.
  intros Hi. pose proof (di_num _ Hi) as Hn. destruct (ShardIndex_in_range k (numLanes d)) as (idx & Hs & Hr); [lia|].
  destruct (lookup_lt_is_Some_2 (lanes d) (Z.to_nat idx)) as [l Hl]; [rewrite (di_len _ Hi); lia|].
  exists idx, l. split_and!; [done|lia|done].
Qed.

(** ** Theorems *)

(** C16: order, end to end: the events handed to the processor for a routing
    key are, in order, a prefix of those the lanes accepted for it, and the
    accepted events are, in order, among the events received from the bus, each
    with the routing key of its own tenant, application and topic. *)
Theorem end_to_end_order shards n q limits m S :
  shards < 2 ^ 32 → n < 2 ^ 32 → mem_wf m → rtc sys_step (start_sys shards n q limits m) S →
  (∀ k, with_key k (handled S).*1 `prefix_of` with_key k (dispatched S))
  ∧ dispatched S `sublist_of` (route <$> received S).
Proof.
  intros Hs Hn Hm Hrun. pose proof (sys_reachable_inv _ _ _ _ _ _ Hs Hn Hm Hrun) as Hi. split.
  - intros k. destruct (key_lane (disp S) k (y_disp _ Hi)) as (idx & l & Hidx & Hp & Hl).
    rewrite (with_key_lane (numLanes (disp S)) k idx (handled S).*1), (with_key_lane (numLanes (disp S)) k idx (dispatched S)) by done.
    destruct (y_logs _ Hi _ _ Hl) as [-> ->]. rewrite <- (lo_flow _ _ _ (di_lane _ (y_disp _ Hi) _ _ Hl)).
    unfold with_key. rewrite filter_app. by eexists.
  - etrans; [|apply (y_order _ Hi)]. by apply sublist_inserts_r.
Qed.

(** C18: in no reachable state, during operation or shutdown, can a goroutine
    panic: the consumer handles any event, its [Dispatch] never sends on a
    closed lane, a worker's handler returns, [dispatcher.Close()] closes no
    lane twice, and the hub closes. *)
Theorem system_never_panics shards n q limits m S :
  shards < 2 ^ 32 → n < 2 ^ 32 → mem_wf m → rtc sys_step (start_sys shards n q limits m) S →
  (∀ ev, is_Some (consume ev (live S) (sys_hub S) (pipe S)))
  ∧ (∀ i d, dispatchers (disp S) !! i = Some d → dispatch_atomic d (disp S) ≠ Panic)
  ∧ (∀ ev, is_Some (HandleEvent p ev (sys_hub S, pipe S)))
  ∧ (∀ expired, close_atomic expired (disp S) ≠ Panic)
  ∧ (main S = MUnwrapperClosed → is_Some (main_next S)).
Proof.
  intros Hs Hn Hm Hrun. pose proof (sys_reachable_inv _ _ _ _ _ _ Hs Hn Hm Hrun) as Hi. split_and!.
  - intros ev. destruct (consume_runs ev _ _ _ (y_hub _ Hi) (y_mem _ Hi)) as (? & ? & ? & ? & -> & _). eauto.
  - intros i d Hd. by apply (dispatch_inv _ i d (y_disp _ Hi)).
  - intros ev. destruct (HandleEvent_runs (live S) (sys_hub S) (pipe S) ev (proj1 (y_hub _ Hi)) (y_mem _ Hi)) as (? & ? & -> & _). eauto.
  - intros expired. by apply (close_inv _ expired (y_disp _ Hi)).
  - intros Em. unfold main_next. rewrite Em.
    destruct (wp_run _ _ _ (exec_spec CClose (live S) (sys_hub S) (y_hub _ Hi) I)) as (L' & h' & E & _).
    simpl in E. unfold mbind, M_bind in E. destruct (Hub.Close (sys_hub S)) as [[[] h1]|]; [|done]. by eexists.
Qed.

(** A lane of a dispatcher that drained in time has processed all it accepted. *)
Lemma drained_lane S i l : sys_inv S → closer (disp S) = CDone false → lanes (disp S) !! i = Some l → processed l = accepted l.
Proof.
  intros Hi Hc Hl. destruct (di_lane _ (y_disp _ Hi) _ _ Hl) as [_ _ Hflow Hexit].
  pose proof (di_drained _ (y_disp _ Hi)) as Hdr. rewrite Hc in Hdr. specialize (Hdr eq_refl _ _ Hl).
  destruct (Hexit Hdr) as [_ Hb]. rewrite <- Hflow, Hdr, Hb. simpl. by rewrite app_nil_r.
Qed.

(** C17: the shutdown order protects the events in flight: when the lanes
    drained in time, every accepted event of every key has been handed to the
    processor, in order, before the key service was closed. *)
Theorem shutdown_drains shards n q limits m S :
  shards < 2 ^ 32 → n < 2 ^ 32 → mem_wf m → rtc sys_step (start_sys shards n q limits m) S →
  closer (disp S) = CDone false →
  (∀ k, with_key k (handled S).*1 = with_key k (dispatched S)) ∧ (∀ e b, (e, b) ∈ handled S → b = true).
Proof.
  intros Hs Hn Hm Hrun Hc. pose proof (sys_reachable_inv _ _ _ _ _ _ Hs Hn Hm Hrun) as Hi. split.
  - intros k. destruct (key_lane (disp S) k (y_disp _ Hi)) as (idx & l & Hidx & Hp & Hl).
    rewrite (with_key_lane (numLanes (disp S)) k idx (handled S).*1), (with_key_lane (numLanes (disp S)) k idx (dispatched S)) by done.
    destruct (y_logs _ Hi _ _ Hl) as [-> ->]. f_equal. by eapply drained_lane.
  - intros e [] He; [done|]. apply (y_late _ Hi) in He. congruence.
Qed.

(** What the consumer does with an event, in every state of the hub: an
    event of another schema is dropped; a revocation event closes the user's
    connections and is not dispatched; an event nobody listens to is counted
    and never reaches a lane; any other event is dispatched with the routing
    key of its own tenant, application and topic, and reaches the processor
    under that key. *)
Theorem consumer_outcome ev L h s :
  run_inv (L, h) →
  let key := BuildKey (pr_router p) (ee_TenantID ev) (ee_AppID ev) (ee_TopicID ev) in
  (IsSchemaSupported ev = false → consume ev L h s = Some (None, L, h, s))
  ∧ (IsSchemaSupported ev = true → ee_Type ev = InvalidationEventType →
     ∃ h', consume ev L h s = Some (None, filter (λ c, ¬ user_match (ee_TenantID ev) (ee_UserID ev) c) L, h', s)
       ∧ hub_inv (filter (λ c, ¬ user_match (ee_TenantID ev) (ee_UserID ev) c) L) h')
  ∧ (IsSchemaSupported ev = true → ee_Type ev ≠ InvalidationEventType → (∀ c, c ∈ L → key ∉ Topics c) →
     ∃ s', consume ev L h s = Some (None, L, h, s') ∧ mem s' = mem s
       ∧ EventsNoSubscriberTotal s' = EventsNoSubscriberTotal s + (if pr_metrics p then 1 else 0))
  ∧ (IsSchemaSupported ev = true → ee_Type ev ≠ InvalidationEventType → (∃ c, c ∈ L ∧ key ∈ Topics c) →
     consume ev L h s = Some (Some (route ev), L, h, s) ∧ event_key p (route ev) = key).
Proof.
  intros Hi key. split_and!; unfold consume.
  - by intros ->.
  - intros -> Ht. simpl. rewrite decide_True by done.
    destruct (wp_run _ _ _ (exec_spec (CInvalidate (ee_TenantID ev) (ee_UserID ev)) L h Hi I)) as (L' & h' & E & Hi').
    simpl in E. unfold mbind, M_bind in E. destruct (InvalidateUser _ _ h) as [[n h1]|]; [|done].
    unfold mret, M_ret in E. simplify_eq. eexists. split; [done|apply Hi'].
  - intros -> Ht Hno. simpl. rewrite decide_False by done. rewrite (HasSubscribers_spec L) by apply Hi.
    rewrite bool_decide_eq_false_2 by (intros (c & Hc & Hk)%Exists_exists; by apply (Hno c)).
    unfold count_metrics, modify. simpl. eexists. split; [done|]. destruct (pr_metrics p); simpl; split; lia || done.
  - intros -> Ht (c & Hc & Hk). simpl. rewrite decide_False by done. rewrite (HasSubscribers_spec L) by apply Hi.
    rewrite bool_decide_eq_true_2 by (apply Exists_exists; eauto). simpl. split; [done|].
    unfold event_key. simpl. fold key. by case_decide.
Qed.

(** *** The shutdown can always finish *)
Definition dispatch_left (q : dpc) : nat :=
  match q with DStart _ => 5 | DCheck _ => 4 | DSend _ => 3 | DAdd _ => 2 | DUnlock _ _ => 1 | DRet _ _ => 0 end.
Definition consumer_left (S : Sys) : nat :=
  match consumer S with
  | CoDispatch i => 2 + default 0%nat (dispatch_left <$> dispatchers (disp S) !! i)
  | CoSelect => 1
  | CoDone => 0
  end.
Definition close_left (d : Dispatcher) : nat :=
  match closer d with
  | CIdle => length (lanes d) + 5
  | CWaitLock => length (lanes d) + 4
  | CClosing i => length (lanes d) - i + 3
  | CDrain => 2
  | CCancel _ => 1
  | CDone _ => 0
  end.
Definition main_left (m : main_pc) : nat :=
  match m with
  | MServing => 8 | MRefusing => 7 | MHttpDown => 6 | MCancelled => 5 | MConsumerDone => 4
  | MLanesClosed => 3 | MBusClosed => 2 | MUnwrapperClosed => 1 | MStopped => 0
  end.
Definition left_to_do (S : Sys) : nat := main_left (main S) + consumer_left S + close_left (disp S).

Lemma dispatch_progress d i q :
  disp_inv d → closer d = CIdle → dispatchers d !! i = Some q → dispatch_left q ≠ 0%nat →
  ∃ q' d', dispatch_atomic q d = Next (q', d') ∧ (dispatch_left q' < dispatch_left q)%nat ∧ length (lanes d') = length (lanes d).
Proof.
  intros Hi Hc Hq Hl. assert (writer d = false) as Hw by by rewrite (di_writer _ Hi), Hc.
  destruct q as [ev|ev|ev|ev|ok ev|ok ev]; simpl.
  - rewrite Hw. eexists _, _. split; [done|]. simpl. lia.
  - eexists _, _. split; [done|]. simpl. destruct (d_closed d); simpl; lia.
  - unfold dispatch_send. destruct (key_lane d (dispatch_key ev) Hi) as (idx & l & -> & _ & Hidx).
    pose proof (lo_closed _ _ _ (di_lane _ Hi _ _ Hidx)) as Hopen. rewrite Hc in Hopen. simpl in Hopen.
    rewrite Hidx. unfold try_send. rewrite Hopen. case_decide; eexists _, _; (split; [done|]); simpl; rewrite ?length_insert; lia.
  - eexists _, _. split; [done|]. simpl. lia.
  - eexists _, _. split; [done|]. simpl. lia.
  - done.
Qed.

Lemma no_readers S : sys_inv S → consumer S = CoDone → readers (disp S) = 0%nat.
Proof.
  intros Hi Hc. rewrite (di_readers _ (y_disp _ Hi)).
  assert (∀ q, q ∈ dispatchers (disp S) → holds_lock q = 0%nat) as Hall.
  { intros q (i & Hq)%list_elem_of_lookup. destruct (y_calls _ Hi i q Hq) as [(ok & ev & ->)|]; [done|congruence]. }
  revert Hall. induction (dispatchers (disp S)) as [|q qs IH]; intros Hall; [done|]. simpl.
  rewrite (Hall q), IH; [done| |left]. intros q' Hq'. apply Hall. by right.
Qed.

Lemma close_progress S :
  sys_inv S → main S = MConsumerDone → (∀ t, closer (disp S) ≠ CDone t) →
  ∃ d', close_atomic true (disp S) = Next d' ∧ (close_left d' < close_left (disp S))%nat.
Proof.
  intros Hi Hm Hnd. pose proof (y_disp _ Hi) as Hd.
  assert (consumer S = CoDone) as Hc.
  { destruct (consumer S) eqn:Hc; try done; pose proof (y_consumer _ Hi) as H1; rewrite Hc, Hm in H1; by discriminate H1. }
  pose proof (no_readers S Hi Hc) as Hr. destruct (close_inv _ true Hd) as [Hnp _].
  unfold close_atomic, close_left in *. destruct (closer (disp S)) as [| |j| |t|t] eqn:Ec.
  - destruct (d_closed (disp S)) eqn:Hcl; [by apply (di_closed _ Hd) in Hcl|]. eexists. split; [done|]. simpl. lia.
  - assert (writer (disp S) = false) as -> by by rewrite (di_writer _ Hd), Ec. rewrite Hr, decide_True by done.
    eexists. split; [done|]. simpl. lia.
  - destruct (lanes (disp S) !! j) as [l|] eqn:Hl; [|eexists; split; [done|]; simpl; lia].
    destruct (close_chan (lane_ch l)); [|done]. eexists. split; [done|]. simpl. rewrite length_insert.
    apply lookup_lt_Some in Hl. lia.
  - eexists. split; [done|]. simpl. lia.
  - eexists. split; [done|]. simpl. lia.
  - by destruct (Hnd t).
Qed.

Lemma shutdown_progress S :
  sys_inv S → main S ≠ MStopped →
  ∃ S', work_step S S' ∧ (left_to_do S' < left_to_do S)%nat.
Proof.
  intros Hi Hm. pose proof (y_hub _ Hi) as Hrun. unfold left_to_do.
  destruct (main S) eqn:Em; try done.
  all: try (by eexists; split; [right; eexists _, _, _; split; [unfold main_next; rewrite Em; reflexivity|done]|]; simpl; unfold consumer_left; simpl; lia).
  - pose proof (y_before _ Hi) as Hidle. rewrite Em in Hidle. specialize (Hidle eq_refl).
    destruct (consumer S) as [|i|] eqn:Ec.
    + eexists. split; [left; by apply s_consumer_stops; [|rewrite Em]|]. unfold consumer_left. rewrite Ec. simpl. rewrite Em. simpl. lia.
    + destruct (y_index _ Hi i Ec) as [q Hq]. destruct (decide (dispatch_left q = 0%nat)) as [Hz|Hz].
      * destruct q as [| | | | |ok ev]; try done. eexists. split; [left; by eapply s_dispatched|].
        unfold consumer_left. simpl. rewrite Ec, Em, Hq. simpl. lia.
      * destruct (dispatch_progress _ i q (y_disp _ Hi) Hidle Hq Hz) as (q' & d' & E & Hlt & Hlen).
        destruct (dispatch_lanes _ i q q' d' (y_disp _ Hi) Hq E) as (_ & Ecl & Ed & _).
        eexists. split; [left; by eapply s_dispatching|]. unfold consumer_left, close_left. simpl. rewrite Ec, Em, Hq, Ed, Ecl, Hlen.
        rewrite list_lookup_insert_eq by (by eapply lookup_lt_Some). simpl. lia.
    + eexists. split; [right; eexists _, _, _; split; [unfold main_next; by rewrite Em, Ec|done]|]. unfold consumer_left. simpl. lia.
  - destruct (closer (disp S)) as [| |j| |t|t] eqn:Ec.
    6:{ eexists. split; [right; eexists _, _, _; split; [unfold main_next; by rewrite Em, Ec|done]|]. unfold consumer_left. simpl. lia. }
    all: destruct (close_progress S Hi Em) as (d' & E & Hlt); [by rewrite Ec|];
      destruct (close_lanes _ _ _ E) as (_ & Ed & _);
      eexists; (split; [left; by eapply s_close|]); unfold consumer_left; simpl; rewrite Em, Ed; simpl; lia.
  - destruct (wp_run _ _ _ (exec_spec CClose (live S) (sys_hub S) Hrun I)) as (L' & h' & E & _).
    simpl in E. unfold mbind, M_bind in E. destruct (Hub.Close (sys_hub S)) as [[[] h1]|] eqn:Eh; [|done].
    eexists. split; [right; eexists _, _, _; split; [unfold main_next; rewrite Em, Eh; reflexivity|done]|]. unfold consumer_left. simpl. lia.
Qed.

(** The shutdown never deadlocks: from every reachable state a bounded
    number of steps of the main thread, the consumer and [dispatcher.Close()]
    (with its drain timer) leads to the stopped state. *)
Theorem shutdown_completes shards n q limits m S :
  shards < 2 ^ 32 → n < 2 ^ 32 → mem_wf m → rtc sys_step (start_sys shards n q limits m) S →
  ∃ k S', nsteps sys_step k S S' ∧ (k ≤ left_to_do S)%nat ∧ main S' = MStopped.
Proof.
  intros Hs Hn Hm Hrun. pose proof (sys_reachable_inv _ _ _ _ _ _ Hs Hn Hm Hrun) as Hi. clear Hrun.
  remember (left_to_do S) as b eqn:Hb. assert (left_to_do S ≤ b)%nat as Hle by lia. clear Hb. revert S Hi Hle.
  induction b as [|b IH]; intros S Hi Hle.
  - destruct (decide (main_left (main S) = 0%nat)) as [Hz|Hz]; [|unfold left_to_do in Hle; lia].
    exists 0%nat, S. split; [constructor|]. split; [done|]. by destruct (main S).
  - destruct (decide (main_left (main S) = 0%nat)) as [Hz|Hz].
    { exists 0%nat, S. split; [constructor|]. split; [lia|]. by destruct (main S). }
    destruct (shutdown_progress S Hi) as (S1 & Hstep & Hlt); [by destruct (main S)|].
    apply work_sys_step in Hstep. destruct (IH S1) as (k & S2 & Hk & Hkb & Hend); [by eapply sys_step_inv|lia|].
    exists (Datatypes.S k), S2. split; [by econstructor|]. split; [lia|done].
Qed.
End system.

(** ** Schedules

    An executable scheduler, to run the system on concrete inputs. *)
Inductive act :=
| AConsume (ev : EncryptedEvent) | ADispatch | AStop | AWorker (i : nat) | AClose (expired : bool) | AMain.

Section schedule.
Context `{!GoRange, !KeyUnwrapper} (p : Processor) (InvalidationEventType : gostring).

Definition set_consumer (c : consumer_pc) (S : Sys) : Sys :=
  mkSys (live S) (sys_hub S) (disp S) (pipe S) c (main S) (EventsReceivedTotal S) (EventLaneQueueDroppedTotal S)
    (received S) (dispatched S) (handled S).

Definition act_consume (ev : EncryptedEvent) (S : Sys) : option Sys :=
  match consumer S with
  | CoSelect =>
      '(r, L', h', s') ← consume p InvalidationEventType ev (live S) (sys_hub S) (pipe S);
      Some (match r with
            | None => mkSys L' h' (disp S) s' CoSelect (main S) (count_if p true (EventsReceivedTotal S))
                        (EventLaneQueueDroppedTotal S) (received S ++ [ev]) (dispatched S) (handled S)
            | Some ev' =>
                mkSys L' h' (upd_dispatchers (dispatchers (disp S) ++ [DStart ev']) (disp S)) s'
                  (CoDispatch (length (dispatchers (disp S)))) (main S) (count_if p true (EventsReceivedTotal S))
                  (EventLaneQueueDroppedTotal S) (received S ++ [ev]) (dispatched S) (handled S)
            end)
  | _ => None
  end.

Definition act_dispatch (S : Sys) : option Sys :=
  match consumer S with
  | CoDispatch i =>
      q ← dispatchers (disp S) !! i;
      match dispatch_atomic q (disp S), q with
      | Next (q', d'), _ =>
          Some (mkSys (live S) (sys_hub S) (upd_dispatchers (<[i := q']> (dispatchers d')) d') (pipe S) (consumer S) (main S)
                  (EventsReceivedTotal S) (EventLaneQueueDroppedTotal S) (received S)
                  (dispatched S ++ match q' with DAdd ev => [ev] | _ => [] end) (handled S))
      | Blocked, DRet ok _ =>
          Some (mkSys (live S) (sys_hub S) (disp S) (pipe S) CoSelect (main S) (EventsReceivedTotal S)
                  (count_if p (negb ok) (EventLaneQueueDroppedTotal S)) (received S) (dispatched S) (handled S))
      | _, _ => None
      end
  | _ => None
  end.

Definition act_worker (i : nat) (S : Sys) : option Sys :=
  l ← lanes (disp S) !! i;
  match worker_atomic l with
  | Next (l', z) =>
      let d' := upd_depth (queueDepth (disp S) + z) (upd_lanes (<[i := l']> (lanes (disp S))) (disp S)) in
      match lane_worker l with
      | WHandle ev =>
          '(_, (h', s')) ← HandleEvent p ev (sys_hub S, pipe S);
          Some (mkSys (live S) h' d' s' (consumer S) (main S) (EventsReceivedTotal S) (EventLaneQueueDroppedTotal S)
                  (received S) (dispatched S) (handled S ++ [(ev, unwrapper_open (main S))]))
      | _ => Some (set_disp d' S)
      end
  | _ => None
  end.

Definition run_act (a : act) (S : Sys) : option Sys :=
  match a with
  | AConsume ev => act_consume ev S
  | ADispatch => act_dispatch S
  | AStop => match consumer S with
             | CoSelect => if bus_cancelled (main S) then Some (set_consumer CoDone S) else None
             | _ => None
             end
  | AWorker i => act_worker i S
  | AClose expired =>
      match main S, close_atomic expired (disp S) with
      | MConsumerDone, Next d' => Some (set_disp d' S)
      | _, _ => None
      end
  | AMain =>
      '(m, L', h') ← main_next S;
      Some (set_main m L' h' S)
  end.

Fixpoint run_acts (l : list act) (S : Sys) : option Sys :=
  match l with
  | [] => Some S
  | a :: l' => S' ← run_act a S; run_acts l' S'
  end.

Lemma run_act_step a S S' : run_act a S = Some S' → sys_step p InvalidationEventType S S'.
Proof.
  intros E. destruct a as [ev| | |i|expired|]; simpl in E.
  - unfold act_consume in E. destruct (consumer S) eqn:Ec; try done.
    destruct (consume _ _ _ _ _ _) as [[[[r L'] h'] s']|] eqn:Eq; [|done].
    simplify_eq/=. apply s_core. destruct r; [by eapply s_dispatch|by eapply s_consume].
  - unfold act_dispatch in E. destruct (consumer S) as [|i|] eqn:Ec; try done.
    destruct (dispatchers (disp S) !! i) as [q|] eqn:Eq; [|done]. simpl in E.
    destruct (dispatch_atomic q (disp S)) as [| |[q' d']] eqn:Ed; [done| |].
    + destruct q; simplify_eq. apply s_core. by eapply s_dispatched.
    + simplify_eq. rewrite <- Ec. apply s_core. by eapply s_dispatching.
  - destruct (consumer S) eqn:Ec; try done. destruct (bus_cancelled (main S)) eqn:Eb; simplify_eq. by apply s_core, s_consumer_stops.
  - unfold act_worker in E. destruct (lanes (disp S) !! i) as [l|] eqn:El; [|done]. simpl in E.
    destruct (worker_atomic l) as [| |[l' z]] eqn:Ea; [done..|].
    destruct (lane_worker l) as [|ev|ev|] eqn:Ew; [simplify_eq; apply s_core, (s_worker _ _ S i l l' z); [done|congruence|done]..| |simplify_eq; apply s_core, (s_worker _ _ S i l l' z); [done|congruence|done]].
    destruct (HandleEvent p ev (sys_hub S, pipe S)) as [[[] [h' s']]|] eqn:Eh; [|done]. simplify_eq/=. apply s_core. by eapply s_handle.
  - destruct (main S) eqn:Em; try done. destruct (close_atomic expired (disp S)) eqn:Ec; simplify_eq. apply s_core. by eapply s_close.
  - destruct (main_next S) as [[[m L'] h']|] eqn:Em; [|done]. simplify_eq/=. by eapply s_main.
Qed.

Lemma run_acts_steps l S S' : run_acts l S = Some S' → rtc (sys_step p InvalidationEventType) S S'.
Proof.
  revert S. induction l as [|a l IH]; intros S E; simpl in E; [by simplify_eq|].
  destruct (run_act a S) as [S1|] eqn:Ea; [|done]. eapply rtc_l; [by apply (run_act_step a)|by apply IH].
Qed.
End schedule.

(** ** A run: one subscriber, one event, a full shutdown *)
Definition stream_client : Client * ClientState :=
  Client.NewClient 1 (str "c1") (str "bob") (str "acme")
    [BuildKey default_router (str "acme") (str "crm") (str "orders")] 2 SlowPolicyDisconnect true.

Definition sys_start : Sys := start_sys 4 1 4 demo_limits (mem demo_pipe).
Definition sys_connected : Sys :=
  match @exec range_canonical (CConnect stream_client.1 stream_client.2) [] (NewHub 4 demo_limits) with
  | Some (L, h) => mkSys L h (disp sys_start) (pipe sys_start) CoSelect MServing 0 0 [] [] []
  | None => sys_start
  end.

Definition sys_schedule : list act :=
  [AConsume demo_event] ++ replicate 6 ADispatch ++ replicate 3 (AWorker 0)
  ++ replicate 3 AMain ++ [AStop; AMain] ++ replicate 4 (AClose false) ++ [AWorker 0]
  ++ replicate 2 (AClose false) ++ replicate 4 AMain.
Definition sys_after (k : nat) : Sys :=
  default sys_start
    (@run_acts range_canonical demo_unwrapper demo_processor (str "auth.invalidate") (take k sys_schedule) sys_connected).

Lemma sys_connects :
  sys_step (H := range_canonical) (H0 := demo_unwrapper) demo_processor (str "auth.invalidate") sys_start sys_connected.
Proof.
  apply (s_hub _ _ sys_start). apply (@do_call range_canonical (CConnect stream_client.1 stream_client.2)).
  - split_and!; [reflexivity|by_decide|discriminate|]. exists 2, true. reflexivity.
  - vm_compute. reflexivity.
Qed.

Lemma sys_runs k S :
  @run_acts range_canonical demo_unwrapper demo_processor (str "auth.invalidate") (take k sys_schedule) sys_connected = Some S →
  rtc (sys_step (H := range_canonical) (H0 := demo_unwrapper) demo_processor (str "auth.invalidate")) sys_start S.
Proof. intros E. eapply rtc_l; [apply sys_connects|]. by eapply run_acts_steps. Qed.

Lemma end_to_end_order_witness :
  ∃ ev, with_key (ee_RoutingKey ev) (handled (sys_after 10)).*1 = [ev]
    ∧ [ev] `prefix_of` with_key (ee_RoutingKey ev) (dispatched (sys_after 10)).
Proof.
  exists (route demo_processor demo_event). split; [vm_compute; reflexivity|].
  destruct (@end_to_end_order range_canonical demo_unwrapper demo_processor (str "auth.invalidate") 4 1 4 demo_limits
              (mem demo_pipe) (sys_after 10)) as [H _]; [lia|lia|exact demo_pipe_wf| |].
  - apply (sys_runs 10). vm_compute. reflexivity.
  - specialize (H (ee_RoutingKey (route demo_processor demo_event))).
    replace [route demo_processor demo_event]
      with (with_key (ee_RoutingKey (route demo_processor demo_event)) (handled (sys_after 10)).*1) by (vm_compute; reflexivity).
    exact H.
Defined.

Lemma system_never_panics_witness :
  ∃ r, consume (H := range_canonical) demo_processor (str "auth.invalidate") demo_event (live (sys_after 17)) (sys_hub (sys_after 17))
         (pipe (sys_after 17)) = Some r.
Proof.
  apply (@system_never_panics range_canonical demo_unwrapper demo_processor (str "auth.invalidate") 4 1 4 demo_limits
           (mem demo_pipe) (sys_after 17)); [lia|lia|exact demo_pipe_wf|].
  apply (sys_runs 17). vm_compute. reflexivity.
Defined.

Lemma shutdown_drains_witness :
  closer (disp (sys_after 26)) = CDone false
  ∧ with_key (ee_RoutingKey (route demo_processor demo_event)) (handled (sys_after 26)).*1
    = with_key (ee_RoutingKey (route demo_processor demo_event)) (dispatched (sys_after 26)).
Proof.
  split; [vm_compute; reflexivity|].
  apply (@shutdown_drains range_canonical demo_unwrapper demo_processor (str "auth.invalidate") 4 1 4 demo_limits
           (mem demo_pipe) (sys_after 26)); [lia|lia|exact demo_pipe_wf| |vm_compute; reflexivity].
  apply (sys_runs 26). vm_compute. reflexivity.
Defined.

Lemma shutdown_completes_witness :
  ∃ k S', nsteps (sys_step (H := range_canonical) (H0 := demo_unwrapper) demo_processor (str "auth.invalidate")) k (sys_after 3) S'
    ∧ main S' = MStopped.
Proof.
  destruct (@shutdown_completes range_canonical demo_unwrapper demo_processor (str "auth.invalidate") 4 1 4 demo_limits
              (mem demo_pipe) (sys_after 3)) as (k & S' & Hk & _ & Hm); [lia|lia|exact demo_pipe_wf| |].
  - apply (sys_runs 3). vm_compute. reflexivity.
  - exists k, S'. split; [exact Hk|exact Hm].
Defined.

Lemma consumer_outcome_witness :
  consume (H := range_canonical) demo_processor (str "auth.invalidate") demo_event (live sys_connected) (sys_hub sys_connected) demo_pipe
  = Some (Some (route demo_processor demo_event), live sys_connected, sys_hub sys_connected, demo_pipe).
Proof.
  apply (@consumer_outcome range_canonical demo_processor (str "auth.invalidate") demo_event (live sys_connected)
           (sys_hub sys_connected) demo_pipe).
  - apply (sys_reachable_inv (H := range_canonical) (H0 := demo_unwrapper) demo_processor (str "auth.invalidate")
             4 1 4 demo_limits (mem demo_pipe) sys_connected); [lia|lia|exact demo_pipe_wf|].
    apply rtc_once, sys_connects.
  - reflexivity.
  - discriminate.
  - exists stream_client.1. split; by_decide.
Defined.
