(* ===== verification/Logging.v ===== *)
(** * internal/logging: levels, formats and redaction

    [NewLogger]'s choices, the attribute filter, [RedactURL] on the URLs of
    [NetUrl.v], and [WithContext].  slog's handlers are left out: a logger is its
    attributes.  Names are compared in lower case on the ASCII letters
    ([GoStrings.ToLower]). *)

From S2P Require Import Prelude GoStrings NetAddr NetUrl.

Record LogConfig := mkLogConfig {
  Level : gostring;
  Format : gostring;
  IncludeSource : bool;
  RedactQueryString : bool;
}.

Inductive slog_level := LevelDebug | LevelInfo | LevelWarn | LevelError.
Inductive slog_handler := TextHandler | JSONHandler.

Definition parse_level (level : gostring) : slog_level :=
  let l := ToLower level in
  if decide (l = str "debug") then LevelDebug
  else if decide (l = str "warn" ∨ l = str "warning") then LevelWarn
  else if decide (l = str "error") then LevelError
  else LevelInfo.

Definition parse_format (format : gostring) : slog_handler :=
  if decide (ToLower format = str "text") then TextHandler else JSONHandler.

Definition NewLogger (cfg : LogConfig) : slog_level * bool * slog_handler :=
  (parse_level (Level cfg), IncludeSource cfg, parse_format (Format cfg)).

(** ** Redaction of URLs *)
Definition sensitive_param (key : gostring) : bool :=
  let lower := ToLower key in
  bool_decide (lower ∈ [str "ticket"; str "token"; str "secret"; str "password"; str "key"]).

(** The loop over the keys. *)
Definition redact_values (q : Values) : Values :=
  map_imap (λ key vs, Some (if sensitive_param key then [str "REDACTED"] else vs)) q.

Section redact.
Context (parseAuthority : gostring → option (option gostring * gostring)).

Definition with_query (u : URL) (query : gostring) : URL :=
  mkURL (u_Scheme u) (u_Opaque u) (u_User u) (u_Host u) (u_Path u) (u_OmitHost u) (u_ForceQuery u) query (u_Fragment u).

Definition RedactURL (rawURL : gostring) : gostring :=
  match Parse parseAuthority rawURL with
  | None => str "[URL MALFORMÉE]"
  | Some u => NetUrl.String (with_query u (Encode (redact_values (ParseQuery (u_RawQuery u)))))
  end.

(** ** Attributes *)
Inductive AttrValue := AString (s : gostring) | AOther.
Record Attr := mkAttr { attr_key : gostring; attr_value : AttrValue }.

Definition secret_attr (key : gostring) : bool :=
  bool_decide (ToLower key ∈ (str <$> ["ticket"; "token"; "dek"; "plaintext"; "secret"; "password"; "authorization"]%string)).
Definition url_attr (key : gostring) : bool :=
  bool_decide (ToLower key ∈ (str <$> ["query"; "url"; "uri"; "request_uri"]%string)).

Definition makeSanitizeAttr (cfg : LogConfig) (a : Attr) : Attr :=
  if secret_attr (attr_key a) then mkAttr (attr_key a) (AString (str "[MASQUÉ]"))
  else if url_attr (attr_key a) then
    match attr_value a with
    | AString s => if RedactQueryString cfg then mkAttr (attr_key a) (AString (RedactURL s)) else a
    | AOther => a
    end
  else a.

(** ** Correlation *)

(** [WithContext]: [None] is a nil logger or a context without the value. *)
Definition WithContext (traceID : option gostring) (logger : option (list Attr)) : option (list Attr) :=
  match logger, traceID with
  | Some attrs, Some id => if decide (id ≠ []) then Some (attrs ++ [mkAttr (str "trace_id") (AString id)]) else logger
  | _, _ => logger
  end.

(** Two query strings that differ only in the values of sensitive parameters. *)
Definition same_but_secrets (q1 q2 : Values) : Prop :=
  ∀ key, if sensitive_param key then (is_Some (q1 !! key) ↔ is_Some (q2 !! key)) else q1 !! key = q2 !! key.

Lemma redact_same q1 q2 : same_but_secrets q1 q2 → redact_values q1 = redact_values q2.
Proof.
  intros H. apply map_eq. intros key. unfold redact_values. rewrite !map_lookup_imap. specialize (H key).
  destruct (sensitive_param key); [|by rewrite H].
  destruct (q1 !! key) as [v1|], (q2 !! key) as [v2|]; simpl; try done; destruct H as [H1 H2];
    [by destruct H1|by destruct H2].
Qed.

(** *** Queries that differ in one sensitive parameter *)
Lemma add_pair_same q1 q2 pair : same_but_secrets q1 q2 → same_but_secrets (add_pair q1 pair) (add_pair q2 pair).
Proof.
  intros H. unfold add_pair. destruct (parse_pair pair) as [[k v]|]; [|done]. intros key. specialize (H key).
  destruct (decide (key = k)) as [->|Hne]; [|by rewrite !lookup_insert_ne]. rewrite !lookup_insert_eq.
  destruct (sensitive_param k); [by split; eauto|]. by rewrite H.
Qed.

Lemma add_secret_same q1 q2 pair1 pair2 k v1 v2 :
  parse_pair pair1 = Some (k, v1) → parse_pair pair2 = Some (k, v2) → sensitive_param k = true →
  same_but_secrets q1 q2 → same_but_secrets (add_pair q1 pair1) (add_pair q2 pair2).
Proof.
  intros E1 E2 Hk H. unfold add_pair. rewrite E1, E2. intros key. specialize (H key).
  destruct (decide (key = k)) as [->|Hne]; [|by rewrite !lookup_insert_ne]. rewrite Hk, !lookup_insert_eq. split; eauto.
Qed.

Lemma fold_same l q1 q2 : same_but_secrets q1 q2 → same_but_secrets (foldl add_pair q1 l) (foldl add_pair q2 l).
Proof. revert q1 q2. induction l as [|pair l IH]; intros q1 q2 H; [done|]. apply IH. by apply add_pair_same. Qed.

(** *** URLs that differ in their query *)
Lemma cut_or_all_first sep a b : sep ∉ a → cut_or_all sep (a ++ sep :: b) = (a, b).
Proof. intros Ha. unfold cut_or_all. by rewrite CutByte_first. Qed.
Lemma CutByte_none sep a : sep ∉ a → CutByte sep a = None.
Proof. induction a as [|c a IH]; [done|]. intros [Hc Ha]%not_elem_of_cons. simpl. rewrite decide_False by done. by rewrite IH. Qed.

Lemma no_force_query base q :
  q ≠ [] → ¬ (last (base ++ "?"%char :: q) = Some "?"%char ∧ count (λ c, c = "?"%char) (base ++ "?"%char :: q) = 1%nat).
Proof.
  intros Hq [Hl Hc]. rewrite count_app, count_cons, decide_True in Hc by done. rewrite last_app_cons in Hl.
  destruct q as [|b q]; [done|]. rewrite last_cons_cons in Hl. apply last_Some_elem_of in Hl.
  assert (0 < count (λ c, c = "?"%char) (b :: q))%nat by (apply count_pos_elem; eauto). lia.
Qed.

Lemma parse_url_query base q :
  head base = Some "/"%char → "?"%char ∉ base → q ≠ [] → existsb control_byte q = false →
  parse_url parseAuthority (base ++ "?"%char :: q) = (λ u, with_query u q) <$> parse_url parseAuthority (base ++ str "?x").
Proof.
  intros Hh Hb Hq Hc. change (base ++ str "?x") with (base ++ "?"%char :: str "x"). unfold parse_url. rewrite !existsb_app. cbn [existsb str]. rewrite Hc.
  change (control_byte "?"%char) with false. change (control_byte "x"%char) with false. rewrite !orb_false_r. cbn [orb].
  destruct (existsb control_byte base); [done|]. destruct base as [|c base]; [done|]. injection Hh as ->.
  rewrite !(decide_False (P := _ = str "*")) by done.
  assert (∀ t, getScheme ("/"%char :: t) = Some ([], "/"%char :: t)) as Hs by done. cbn [app]. rewrite !Hs. cbn [mbind option_bind ToLower fmap list_fmap].
  change ("/"%char :: base ++ "?"%char :: q) with (("/"%char :: base) ++ "?"%char :: q).
  change ("/"%char :: base ++ "?"%char :: str "x") with (("/"%char :: base) ++ "?"%char :: str "x").
  rewrite !decide_False by (by apply no_force_query). rewrite !cut_or_all_first by done.
  set (rest := "/"%char :: base). destruct (negb (HasPrefix rest (str "/")) && bool_decide ([] ≠ [])); [done|].
  destruct (negb (HasPrefix rest (str "/")) && _); [done|].
  match goal with |- context [if ?b then ?x else ?y] => generalize (if b then x else y) end. intros [[[[user host] path] omit]|]; [|done].
  cbn [mbind option_bind]. by destruct (unescape path encodePath).
Qed.

(** A parameter as it stands in a query. *)
Definition query_piece (p : gostring) : Prop := "&"%char ∉ p ∧ "#"%char ∉ p ∧ existsb control_byte p = false.

Lemma split_join_amp l : l ≠ [] → Forall (λ p, "&"%char ∉ p) l → Split (join_amp l) "&"%char = l.
Proof.
  intros Hne Hl. induction Hl as [|p l Hp Hl IH]; [done|]. destruct l as [|p' l]; [simpl; by apply Split_one|].
  change (join_amp (p :: p' :: l)) with (p ++ "&"%char :: join_amp (p' :: l)). rewrite Split_first by done. by rewrite IH.
Qed.

Lemma join_amp_pieces l : Forall query_piece l → "#"%char ∉ join_amp l ∧ existsb control_byte (join_amp l) = false.
Proof.
  induction 1 as [|p l (H1 & H2 & H3) Hl [IH1 IH2]]; [split; [apply not_elem_of_nil|done]|]. destruct l as [|p' l]; [done|].
  change (join_amp (p :: p' :: l)) with (p ++ "&"%char :: join_amp (p' :: l)). split.
  - rewrite elem_of_app, elem_of_cons. naive_solver.
  - rewrite existsb_app, H3. cbn [existsb]. by rewrite IH2.
Qed.

Definition url_with (base : gostring) (before : list gostring) (p : gostring) (after : list gostring) (frag : gostring) : gostring :=
  base ++ "?"%char :: join_amp (before ++ [p] ++ after) ++ frag.

Lemma Parse_url_with base before p after frag :
  head base = Some "/"%char → "?"%char ∉ base → "#"%char ∉ base → p ≠ [] → Forall query_piece (before ++ [p] ++ after) →
  frag = [] ∨ head frag = Some "#"%char →
  Parse parseAuthority (url_with base before p after frag) =
    (λ u, with_query u (join_amp (before ++ [p] ++ after))) <$> Parse parseAuthority (base ++ str "?x" ++ frag).
Proof.
  intros Hh Hb Hsharp Hp Hl Hf. destruct (join_amp_pieces _ Hl) as [Hq Hc]. set (q := join_amp _) in *.
  assert (q ≠ []) as Hne.
  { unfold q. destruct before as [|x before]; [by destruct p, after|]. change (join_amp ((x :: before) ++ [p] ++ after)) with (join_amp (x :: (before ++ p :: after))).
    destruct (before ++ p :: after) as [|y l] eqn:E; [by destruct before|]. change (join_amp (x :: y :: l)) with (x ++ "&"%char :: join_amp (y :: l)). by destruct x. }
  unfold url_with. fold q. unfold Parse.
  assert (∀ r : gostring, "#"%char ∉ r → cut_or_all "#"%char (base ++ "?"%char :: r ++ frag) = (base ++ "?"%char :: r, tail frag)) as Hcut.
  { intros r Hr. assert ("#"%char ∉ base ++ "?"%char :: r) as Hno by (rewrite elem_of_app, elem_of_cons; naive_solver).
    destruct Hf as [->|Hf]; [rewrite app_nil_r; unfold cut_or_all; by rewrite CutByte_none|]. destruct frag as [|c frag]; [done|]. injection Hf as ->.
    change (base ++ "?"%char :: r ++ "#"%char :: frag) with (base ++ ("?"%char :: r) ++ "#"%char :: frag). rewrite (assoc_L (++)).
    by rewrite cut_or_all_first. }
  change (base ++ str "?x" ++ frag) with (base ++ "?"%char :: str "x" ++ frag). rewrite !Hcut by (done || by_decide).
  change (base ++ "?"%char :: str "x") with (base ++ str "?x"). rewrite (parse_url_query base q) by done.
  destruct (parse_url parseAuthority (base ++ str "?x")) as [u|]; [|done]. simpl. case_decide; [done|].
  by destruct (unescape (tail frag) encodeFragment).
Qed.

Lemma RedactURL_same base before p1 p2 after frag k v1 v2 :
  head base = Some "/"%char → "?"%char ∉ base → "#"%char ∉ base → Forall query_piece (before ++ [p1; p2] ++ after) →
  frag = [] ∨ head frag = Some "#"%char →
  parse_pair p1 = Some (k, v1) → parse_pair p2 = Some (k, v2) → sensitive_param k = true →
  RedactURL (url_with base before p1 after frag) = RedactURL (url_with base before p2 after frag).
Proof.
  intros Hh Hb Hs Hl Hf E1 E2 Hk.
  apply Forall_app in Hl as [Hbefore Hl]. apply Forall_app in Hl as [Hps Hafter]. apply Forall_cons in Hps as [Hp1 Hps]. apply Forall_cons in Hps as [Hp2 _].
  assert (∀ p, query_piece p → Forall query_piece (before ++ [p] ++ after)) as Hall by (intros; by rewrite !Forall_app, Forall_singleton).
  assert (p1 ≠ [] ∧ p2 ≠ []) as [Hn1 Hn2] by (split; intros ->; discriminate).
  unfold RedactURL. rewrite (Parse_url_with base before p1), (Parse_url_with base before p2) by auto.
  destruct (Parse parseAuthority (base ++ str "?x" ++ frag)) as [u|]; [|done]. simpl. unfold with_query. cbn [u_RawQuery u_Scheme u_Opaque u_User u_Host u_Path u_OmitHost u_ForceQuery u_Fragment].
  assert (redact_values (ParseQuery (join_amp (before ++ [p1] ++ after))) = redact_values (ParseQuery (join_amp (before ++ [p2] ++ after)))) as E.
  { apply redact_same. unfold ParseQuery. rewrite !split_join_amp by first [by destruct before|by eapply Forall_impl; [apply Hall|intros ? []]].
    rewrite !length_app. cbn [length]. destruct (_ <? _)%nat; [intros key; by destruct (sensitive_param key)|].
    rewrite !foldl_app. apply fold_same. simpl. eapply add_secret_same; try done. intros key. by destruct (sensitive_param key). }
  simpl app in E. simpl app. by rewrite E.
Qed.

End redact.

(** The authority of a URL as a host. *)
Definition host_only (a : gostring) : option (option gostring * gostring) := Some (None, a).

Example redact_ex :
  RedactURL host_only (str "/v1/events?x=1&Ticket=eyJ.abc&tok%65n=t+u&x=0") = str "/v1/events?Ticket=REDACTED&token=REDACTED&x=1&x=0".
Proof. vm_compute. reflexivity. Qed.

(** The parameter name of the ticket is configurable, the list of sensitive
    parameters is not: under another name the ticket is logged as it is. *)
Theorem renamed_ticket_is_logged : RedactURL host_only (str "/v1/events?auth=eyJ.abc") = str "/v1/events?auth=eyJ.abc".
Proof. vm_compute. reflexivity. Qed.

(** The filter reads an attribute named [query] as a URL: a query string on its
    own is the path of that URL, and its ticket stays. *)
Theorem query_attr_is_logged :
  let a := mkAttr (str "query") (AString (str "x=1&ticket=eyJ.abc")) in
  makeSanitizeAttr host_only (mkLogConfig [] [] false true) a = a.
Proof. vm_compute. reflexivity. Qed.

