(* ===== verification/Config.v ===== *)
(** * internal/config: environment variables and validation

    [LoadConfig] reads the variables in the order of the source and remembers
    the first error ([Loader], the closure [record] of the source); [Validate]
    is the fail-fast check.  The environment and the files are functions;
    [strconv.ParseBool] is written out, [Atoi] and [ParseInt] are in [GoStrings.v],
    [time.ParseDuration] in [GoTime.v] and [net.JoinHostPort] in [NetAddr.v];
    [strconv.ParseFloat] is a parameter. *)

From S2P Require Import Prelude GoStrings NetAddr GoTime Chan Quota Client Base64 Aes Crypto Tlsconf HttpClient Json Bus Valkey Auth ApiHttp Logging.

Local Open Scope Z_scope.

Definition ms : Z := 1000000.
Definition sec : Z := 1000 * ms.

Definition DefaultListenPort : Z := 8080.
Definition DefaultHealthPath : gostring := str "/healthz".

(** ** Parsers *)
Definition ParseBool (s : gostring) : option bool :=
  if decide (s ∈ (str <$> ["1"; "t"; "T"; "TRUE"; "true"; "True"]%string)) then Some true
  else if decide (s ∈ (str <$> ["0"; "f"; "F"; "FALSE"; "false"; "False"]%string)) then Some false
  else None.

(** ** The configuration *)
Record HTTPConfig := mkHTTP {
  ListenHost : gostring;
  ListenPort : Z;
  EventsPath : gostring;
  http_HealthPath : gostring;
  ReadyPath : gostring;
  MetricsPath : gostring;
  ReadHeaderTimeout : Z;
  IdleTimeout : Z;
  MaxHeaderBytes : Z;
  http_WriteTimeout : Z;
  TrustProxyHeaders : bool;
  TrustedProxyCIDRs : list gostring;
}.
Definition Address (h : HTTPConfig) : gostring := JoinHostPort (ListenHost h) (FormatInt (ListenPort h)).
Record HubConfig := mkHubConfig {
  Shards : Z;
  EventLanes : Z;
  EventLaneQueueSize : Z;
  ClientQueueSize : Z;
  ClientWriteTimeout : Z;
  ClientSlowPolicy : gostring;
}.
Record HeartbeatConfig := mkHeartbeat { hb_Enabled : bool; hb_Interval : Z; hb_Payload : gostring }.
Record EventBusConfig := mkEventBus { bus_Driver : gostring; bus_Valkey : Valkey.Config }.
Record CryptoConfig := mkCrypto {
  crypto_Driver : gostring;
  crypto_HTTP : HttpClient.ClientConfig;
  crypto_TLS : Tlsconf.Params;            (* the TLS fields of [ClientConfig] *)
  PayloadCipher : gostring;
  MaxPayloadBytes : Z;
  AADEnabled : bool;
  AADTemplate : gostring;
}.
Record AuthConfig := mkAuth {
  auth_Driver : gostring;
  auth_JWT : Auth.JWTConfig;
  QueryParameter : gostring;
  InvalidationEventType : gostring;
}.
Record HealthConfig := mkHealthConfig {
  HealthEnabled : bool;
  ReadyEnabled : bool;
  RequireEventBus : bool;
  RequireCrypto : bool;
}.
Record ShutdownConfig := mkShutdown { GracePeriod : Z; StopAcceptingFirst : bool }.

Inductive ConfErr :=
| ErrEnv (name : gostring)              (* a variable that does not parse *)
| ErrSecretFile (name : gostring)       (* a secret file that cannot be read *)
| ErrPort | ErrShards | ErrLanes | ErrClientQueue
| ErrBusDriver | ErrCryptoDriver | ErrAuthDriver | ErrCipher
| ErrProdCryptoMock | ErrProdAuthMock | ErrProdCryptoTLS | ErrProdBusTLS.

(** ** Loading *)

(** The zero value of a type. *)
Class GoZero (T : Type) := go_zero : T.
Global Instance Z_zero : GoZero Z := 0.
Global Instance bool_zero : GoZero bool := false.
Global Instance string_zero : GoZero gostring := [].

(** Statements that may call [record]: the first error is kept. *)
Definition Loader (A : Type) : Type := option ConfErr → A * option ConfErr.
Global Instance Loader_ret : MRet Loader := λ A a e, (a, e).
Global Instance Loader_bind : MBind Loader := λ A B k m e, let '(a, e') := m e in k a e'.

Definition record (err : ConfErr) (e : option ConfErr) : option ConfErr :=
  match e with None => Some err | Some _ => e end.

Section load.
Context (LookupEnv : gostring → option gostring) (ReadFile : gostring → option gostring).
Context {Float : Type} `{!GoZero Float} (ParseFloat : gostring → option Float) (f100 : Float).

Record RateLimitConfig := mkRateLimit {
  rl_Enabled : bool;
  RPS : Float;
  Burst : Z;
  MaxPendingHandshakes : Z;
  HandshakeTimeout : Z;
}.

Record Config := mkConf {
  Environment : gostring;
  InstanceID : gostring;
  ServiceName : gostring;
  Log : LogConfig;
  HTTP : HTTPConfig;
  Hub : HubConfig;
  Limits : LimitsConfig;
  RateLimit : RateLimitConfig;
  Heartbeat : HeartbeatConfig;
  EventBus : EventBusConfig;
  TopicTemplate : gostring;
  Crypto : CryptoConfig;
  Auth : AuthConfig;
  MetricsEnabled : bool;
  Health : HealthConfig;
  Shutdown : ShutdownConfig;
}.

Definition envValue {T} (name : gostring) (fallback : T) (parse : gostring → option T) : result ConfErr T :=
  match LookupEnv name with
  | None => Ok fallback
  | Some valStr =>
      if decide (TrimSpace valStr = []) then Ok fallback
      else match parse (TrimSpace valStr) with
           | Some parsed => Ok parsed
           | None => Err (ErrEnv name)
           end
  end.

Definition getEnv (name fallback : gostring) : gostring :=
  match LookupEnv name with
  | None => fallback
  | Some val => if decide (TrimSpace val = []) then fallback else TrimSpace val
  end.

Definition resolveSecret (varName : gostring) : result ConfErr gostring :=
  let fileVar := varName ++ str "_FILE" in
  match LookupEnv fileVar with
  | Some filePath =>
      if decide (TrimSpace filePath = []) then Ok (default [] (LookupEnv varName))
      else match ReadFile (TrimSpace filePath) with
           | None => Err (ErrSecretFile fileVar)
           | Some data => Ok (TrimRight data [CR; LF])
           end
  | None => Ok (default [] (LookupEnv varName))
  end.

Definition bindEnv {T} `{!GoZero T} (name : string) (fallback : T) (parse : gostring → option T) : Loader T := λ e,
  match envValue (str name) fallback parse with
  | Err err => (go_zero, record err e)
  | Ok val => (val, e)
  end.
Definition bindSecret (name : string) : Loader gostring := λ e,
  match resolveSecret (str name) with
  | Err err => ([], record err e)
  | Ok val => (val, e)
  end.
Definition env (name fallback : string) : gostring := getEnv (str name) (str fallback).

(** The loop over the comma-separated networks. *)
Definition split_cidrs (s : gostring) : list gostring :=
  if decide (s = []) then [] else filter (λ t, t ≠ []) (TrimSpace <$> Split s ","%char).

Definition load_log : Loader LogConfig :=
  src ← bindEnv "SSE_LOG_INCLUDE_SOURCE" false ParseBool;
  red ← bindEnv "SSE_LOG_REDACT_QUERY_STRING" true ParseBool;
  mret (mkLogConfig (env "SSE_LOG_LEVEL" "info") (env "SSE_LOG_FORMAT" "json") src red).

Definition load_http : Loader HTTPConfig :=
  port ← bindEnv "SSE_HTTP_LISTEN_PORT" DefaultListenPort Atoi;
  rht ← bindEnv "SSE_HTTP_READ_HEADER_TIMEOUT" (5 * sec) ParseDuration;
  idle ← bindEnv "SSE_HTTP_IDLE_TIMEOUT" 0 ParseDuration;
  mhb ← bindEnv "SSE_HTTP_MAX_HEADER_BYTES" 32768 Atoi;
  wt ← bindEnv "SSE_HTTP_WRITE_TIMEOUT" 0 ParseDuration;
  tph ← bindEnv "SSE_HTTP_TRUST_PROXY_HEADERS" false ParseBool;
  mret (mkHTTP (env "SSE_HTTP_LISTEN_HOST" "0.0.0.0") port (env "SSE_HTTP_EVENTS_PATH" "/v1/events")
          (getEnv (str "SSE_HTTP_HEALTH_PATH") DefaultHealthPath) (env "SSE_HTTP_READY_PATH" "/readyz")
          (getEnv (str "SSE_HTTP_METRICS_PATH") (env "SSE_METRICS_PATH" "/metrics"))
          rht idle mhb wt tph (split_cidrs (env "SSE_HTTP_TRUSTED_PROXY_CIDRS" ""))).

Definition load_hub : Loader HubConfig :=
  shards ← bindEnv "SSE_HUB_SHARDS" 256 Atoi;
  lanes ← bindEnv "SSE_EVENT_LANES" 64 Atoi;
  lq ← bindEnv "SSE_EVENT_LANE_QUEUE_SIZE" 1024 Atoi;
  cq ← bindEnv "SSE_CLIENT_QUEUE_SIZE" 32 Atoi;
  cwt ← bindEnv "SSE_CLIENT_WRITE_TIMEOUT" (5 * sec) ParseDuration;
  mret (mkHubConfig shards lanes lq cq cwt (env "SSE_CLIENT_SLOW_POLICY" "disconnect")).

Definition load_limits : Loader LimitsConfig :=
  a ← bindEnv "SSE_LIMIT_MAX_CONNECTIONS" 50000 Atoi;
  b ← bindEnv "SSE_LIMIT_MAX_CONNECTIONS_PER_USER" 10 Atoi;
  c ← bindEnv "SSE_LIMIT_MAX_CONNECTIONS_PER_TENANT" 0 Atoi;
  d ← bindEnv "SSE_LIMIT_MAX_TOPICS_PER_CONNECTION" 64 Atoi;
  mret (mkLimits a b c d).

Definition load_ratelimit : Loader RateLimitConfig :=
  en ← bindEnv "SSE_CONNECTION_RATE_LIMIT_ENABLED" true ParseBool;
  rps ← bindEnv "SSE_CONNECTION_RATE_LIMIT_RPS" f100 ParseFloat;
  burst ← bindEnv "SSE_CONNECTION_RATE_LIMIT_BURST" 200 Atoi;
  mp ← bindEnv "SSE_LIMIT_MAX_PENDING_HANDSHAKES" 1000 Atoi;
  ht ← bindEnv "SSE_LIMIT_HANDSHAKE_TIMEOUT" (5 * sec) ParseDuration;
  mret (mkRateLimit en rps burst mp ht).

Definition load_heartbeat : Loader HeartbeatConfig :=
  en ← bindEnv "SSE_HEARTBEAT_ENABLED" true ParseBool;
  iv ← bindEnv "SSE_HEARTBEAT_INTERVAL" (20 * sec) ParseDuration;
  mret (mkHeartbeat en iv (env "SSE_HEARTBEAT_PAYLOAD" ": ping")).

Definition load_bus : Loader EventBusConfig :=
  pwd ← bindSecret "SSE_EVENT_BUS_VALKEY_PASSWORD";
  db ← bindEnv "SSE_EVENT_BUS_VALKEY_DATABASE" 0 Atoi;
  tls ← bindEnv "SSE_EVENT_BUS_VALKEY_TLS_ENABLED" false ParseBool;
  skip ← bindEnv "SSE_EVENT_BUS_VALKEY_TLS_INSECURE_SKIP_VERIFY" false ParseBool;
  ct ← bindEnv "SSE_EVENT_BUS_VALKEY_CONNECT_TIMEOUT" (3 * sec) ParseDuration;
  rt ← bindEnv "SSE_EVENT_BUS_VALKEY_READ_TIMEOUT" 0 ParseDuration;
  wt ← bindEnv "SSE_EVENT_BUS_VALKEY_WRITE_TIMEOUT" (3 * sec) ParseDuration;
  re ← bindEnv "SSE_EVENT_BUS_RECONNECT_ENABLED" true ParseBool;
  rmin ← bindEnv "SSE_EVENT_BUS_RECONNECT_MIN_DELAY" (250 * ms) ParseDuration;
  rmax ← bindEnv "SSE_EVENT_BUS_RECONNECT_MAX_DELAY" (30 * sec) ParseDuration;
  rj ← bindEnv "SSE_EVENT_BUS_RECONNECT_JITTER" true ParseBool;
  mret (mkEventBus (ToLower (env "SSE_EVENT_BUS_DRIVER" "valkey_pubsub"))
    (Valkey.mkConfig (env "SSE_EVENT_BUS_VALKEY_ADDRESS" "valkey:6379") (env "SSE_EVENT_BUS_VALKEY_USERNAME" "") pwd db tls
       (env "SSE_EVENT_BUS_VALKEY_TLS_SERVER_NAME" "") (env "SSE_EVENT_BUS_VALKEY_TLS_CA_FILE" "")
       (env "SSE_EVENT_BUS_VALKEY_TLS_CERT_FILE" "") (env "SSE_EVENT_BUS_VALKEY_TLS_KEY_FILE" "") skip ct rt wt
       (env "SSE_EVENT_BUS_VALKEY_CHANNEL_PATTERN" "realtime.*") re rmin rmax rj 0)).

Definition load_crypto : Loader CryptoConfig :=
  ct ← bindEnv "SSE_CRYPTO_HTTP_CONNECT_TIMEOUT" (1 * sec) ParseDuration;
  rt ← bindEnv "SSE_CRYPTO_HTTP_REQUEST_TIMEOUT" (3 * sec) ParseDuration;
  mi ← bindEnv "SSE_CRYPTO_HTTP_MAX_IDLE_CONNS" 256 Atoi;
  mih ← bindEnv "SSE_CRYPTO_HTTP_MAX_IDLE_CONNS_PER_HOST" 256 Atoi;
  ict ← bindEnv "SSE_CRYPTO_HTTP_IDLE_CONN_TIMEOUT" (90 * sec) ParseDuration;
  token ← bindSecret "SSE_CRYPTO_HTTP_BEARER_TOKEN";
  pass ← bindSecret "SSE_CRYPTO_HTTP_BASIC_PASSWORD";
  bin ← bindEnv "SSE_CRYPTO_HTTP_BINARY_MODE" true ParseBool;
  tls ← bindEnv "SSE_CRYPTO_HTTP_TLS_ENABLED" false ParseBool;
  skip ← bindEnv "SSE_CRYPTO_HTTP_TLS_INSECURE_SKIP_VERIFY" false ParseBool;
  mpb ← bindEnv "SSE_CRYPTO_MAX_PAYLOAD_BYTES" (5 * 1024 * 1024) ParseInt;
  aad ← bindEnv "SSE_CRYPTO_AAD_ENABLED" true ParseBool;
  mret (mkCrypto (ToLower (env "SSE_CRYPTO_DRIVER" "http"))
    (HttpClient.mkClientConfig (env "SSE_CRYPTO_HTTP_BASE_URL" "http://pq-crypto-microservice:8080")
       (env "SSE_CRYPTO_HTTP_UNWRAP_PATH" "/unwrap-key") (env "SSE_CRYPTO_HTTP_HEALTH_PATH" "/health") ct rt mi mih ict
       (env "SSE_CRYPTO_HTTP_AUTH_MODE" "none") token (env "SSE_CRYPTO_HTTP_BASIC_USERNAME" "") pass tls bin)
    (Tlsconf.mkParams (env "SSE_CRYPTO_HTTP_TLS_CERT_FILE" "") (env "SSE_CRYPTO_HTTP_TLS_KEY_FILE" "")
       (env "SSE_CRYPTO_HTTP_TLS_CA_FILE" "") skip (env "SSE_CRYPTO_HTTP_TLS_SERVER_NAME" ""))
    (env "SSE_CRYPTO_PAYLOAD_CIPHER" "AES-256-GCM") mpb aad
    (getEnv (str "SSE_CRYPTO_AAD_TEMPLATE") DefaultAADTemplate)).

Definition load_auth : Loader AuthConfig :=
  pub ← bindSecret "SSE_AUTH_JWT_PUBLIC_KEY";
  key ← bindSecret "SSE_AUTH_JWT_SECRET_KEY";
  skew ← bindEnv "SSE_AUTH_JWT_CLOCK_SKEW" (30 * sec) ParseDuration;
  rexp ← bindEnv "SSE_AUTH_JWT_REQUIRE_EXP" true ParseBool;
  raud ← bindEnv "SSE_AUTH_JWT_REQUIRE_AUD" true ParseBool;
  riss ← bindEnv "SSE_AUTH_JWT_REQUIRE_ISS" false ParseBool;
  mret (mkAuth (ToLower (env "SSE_AUTH_DRIVER" "jwt"))
    (Auth.mkJWTConfig (env "SSE_AUTH_JWT_ALGORITHM" "EdDSA") (env "SSE_AUTH_JWT_PUBLIC_KEY_FILE" "") pub key
       (env "SSE_AUTH_JWT_AUDIENCE" "sse-gateway") (env "SSE_AUTH_JWT_ISSUER" "") skew rexp raud riss)
    (env "SSE_AUTH_QUERY_PARAMETER" "ticket") (env "SSE_AUTH_INVALIDATION_EVENT_TYPE" "auth.invalidate")).

Definition load_health : Loader HealthConfig :=
  a ← bindEnv "SSE_HEALTH_ENABLED" true ParseBool;
  b ← bindEnv "SSE_READY_ENABLED" true ParseBool;
  c ← bindEnv "SSE_READY_REQUIRE_EVENT_BUS" true ParseBool;
  d ← bindEnv "SSE_READY_REQUIRE_CRYPTO" true ParseBool;
  mret (mkHealthConfig a b c d).

Definition load_shutdown : Loader ShutdownConfig :=
  g ← bindEnv "SSE_SHUTDOWN_GRACE_PERIOD" (30 * sec) ParseDuration;
  s ← bindEnv "SSE_SHUTDOWN_STOP_ACCEPTING_FIRST" true ParseBool;
  mret (mkShutdown g s).

(** [random]: the eight random bytes of a generated instance identifier. *)
Definition load_all (random : gostring) : Loader Config :=
  let instance := env "SSE_INSTANCE_ID" "" in
  log ← load_log;
  http ← load_http;
  hub ← load_hub;
  limits ← load_limits;
  rl ← load_ratelimit;
  hb ← load_heartbeat;
  bus ← load_bus;
  crypto ← load_crypto;
  auth ← load_auth;
  metrics ← bindEnv "SSE_METRICS_ENABLED" true ParseBool;
  health ← load_health;
  shutdown ← load_shutdown;
  mret (mkConf (env "SSE_ENVIRONMENT" "production")
          (if decide (instance = []) then hex_EncodeToString random else instance)
          (env "SSE_SERVICE_NAME" "sse-gateway") log http hub limits rl hb bus
          (env "SSE_ROUTING_TOPIC_TEMPLATE" "tenant:{tenant}:app:{app}:topic:{topic}") crypto auth metrics health shutdown).

Definition LoadConfig (random : gostring) : result ConfErr Config :=
  match load_all random None with
  | (_, Some firstErr) => Err firstErr
  | (cfg, None) => Ok cfg
  end.

(** ** What loading guarantees *)

(** The variables that are parsed or read from a file, in the order of the
    source, with the error each one causes. *)
Inductive setting :=
| SBool (name : string) | SInt (name : string) | SDuration (name : string) | SFloat (name : string)
| SSecret (name : string).

Definition malformed {T} (parse : gostring → option T) (name : string) : option ConfErr :=
  match LookupEnv (str name) with
  | None => None
  | Some v => if decide (TrimSpace v = []) then None
              else match parse (TrimSpace v) with Some _ => None | None => Some (ErrEnv (str name)) end
  end.

Definition setting_error (s : setting) : option ConfErr :=
  match s with
  | SBool n => malformed ParseBool n
  | SInt n => malformed ParseInt n
  | SDuration n => malformed ParseDuration n
  | SFloat n => malformed ParseFloat n
  | SSecret n =>
      let fileVar := str n ++ str "_FILE" in
      match LookupEnv fileVar with
      | Some path => if decide (TrimSpace path = []) then None
                     else match ReadFile (TrimSpace path) with Some _ => None | None => Some (ErrSecretFile fileVar) end
      | None => None
      end
  end.

Definition settings : list setting :=
  [SBool "SSE_LOG_INCLUDE_SOURCE"; SBool "SSE_LOG_REDACT_QUERY_STRING"]
  ++ [SInt "SSE_HTTP_LISTEN_PORT"; SDuration "SSE_HTTP_READ_HEADER_TIMEOUT"; SDuration "SSE_HTTP_IDLE_TIMEOUT";
      SInt "SSE_HTTP_MAX_HEADER_BYTES"; SDuration "SSE_HTTP_WRITE_TIMEOUT"; SBool "SSE_HTTP_TRUST_PROXY_HEADERS"]
  ++ [SInt "SSE_HUB_SHARDS"; SInt "SSE_EVENT_LANES"; SInt "SSE_EVENT_LANE_QUEUE_SIZE"; SInt "SSE_CLIENT_QUEUE_SIZE";
      SDuration "SSE_CLIENT_WRITE_TIMEOUT"]
  ++ [SInt "SSE_LIMIT_MAX_CONNECTIONS"; SInt "SSE_LIMIT_MAX_CONNECTIONS_PER_USER";
      SInt "SSE_LIMIT_MAX_CONNECTIONS_PER_TENANT"; SInt "SSE_LIMIT_MAX_TOPICS_PER_CONNECTION"]
  ++ [SBool "SSE_CONNECTION_RATE_LIMIT_ENABLED"; SFloat "SSE_CONNECTION_RATE_LIMIT_RPS";
      SInt "SSE_CONNECTION_RATE_LIMIT_BURST"; SInt "SSE_LIMIT_MAX_PENDING_HANDSHAKES"; SDuration "SSE_LIMIT_HANDSHAKE_TIMEOUT"]
  ++ [SBool "SSE_HEARTBEAT_ENABLED"; SDuration "SSE_HEARTBEAT_INTERVAL"]
  ++ [SSecret "SSE_EVENT_BUS_VALKEY_PASSWORD"; SInt "SSE_EVENT_BUS_VALKEY_DATABASE"; SBool "SSE_EVENT_BUS_VALKEY_TLS_ENABLED";
      SBool "SSE_EVENT_BUS_VALKEY_TLS_INSECURE_SKIP_VERIFY"; SDuration "SSE_EVENT_BUS_VALKEY_CONNECT_TIMEOUT";
      SDuration "SSE_EVENT_BUS_VALKEY_READ_TIMEOUT"; SDuration "SSE_EVENT_BUS_VALKEY_WRITE_TIMEOUT";
      SBool "SSE_EVENT_BUS_RECONNECT_ENABLED"; SDuration "SSE_EVENT_BUS_RECONNECT_MIN_DELAY";
      SDuration "SSE_EVENT_BUS_RECONNECT_MAX_DELAY"; SBool "SSE_EVENT_BUS_RECONNECT_JITTER"]
  ++ [SDuration "SSE_CRYPTO_HTTP_CONNECT_TIMEOUT"; SDuration "SSE_CRYPTO_HTTP_REQUEST_TIMEOUT";
      SInt "SSE_CRYPTO_HTTP_MAX_IDLE_CONNS"; SInt "SSE_CRYPTO_HTTP_MAX_IDLE_CONNS_PER_HOST";
      SDuration "SSE_CRYPTO_HTTP_IDLE_CONN_TIMEOUT"; SSecret "SSE_CRYPTO_HTTP_BEARER_TOKEN";
      SSecret "SSE_CRYPTO_HTTP_BASIC_PASSWORD"; SBool "SSE_CRYPTO_HTTP_BINARY_MODE"; SBool "SSE_CRYPTO_HTTP_TLS_ENABLED";
      SBool "SSE_CRYPTO_HTTP_TLS_INSECURE_SKIP_VERIFY"; SInt "SSE_CRYPTO_MAX_PAYLOAD_BYTES"; SBool "SSE_CRYPTO_AAD_ENABLED"]
  ++ [SSecret "SSE_AUTH_JWT_PUBLIC_KEY"; SSecret "SSE_AUTH_JWT_SECRET_KEY"; SDuration "SSE_AUTH_JWT_CLOCK_SKEW";
      SBool "SSE_AUTH_JWT_REQUIRE_EXP"; SBool "SSE_AUTH_JWT_REQUIRE_AUD"; SBool "SSE_AUTH_JWT_REQUIRE_ISS"]
  ++ [SBool "SSE_METRICS_ENABLED"]
  ++ [SBool "SSE_HEALTH_ENABLED"; SBool "SSE_READY_ENABLED"; SBool "SSE_READY_REQUIRE_EVENT_BUS";
      SBool "SSE_READY_REQUIRE_CRYPTO"]
  ++ [SDuration "SSE_SHUTDOWN_GRACE_PERIOD"; SBool "SSE_SHUTDOWN_STOP_ACCEPTING_FIRST"].

(** A loader that records the errors of the settings [l], in order. *)
Definition reports {A} (m : Loader A) (l : list setting) : Prop :=
  ∀ e, (m e).2 = foldl (λ e s, match setting_error s with Some err => record err e | None => e end) e l.

Lemma reports_ret {A} (a : A) : reports (mret a) [].
Proof. done. Qed.

Lemma reports_bind {A B} (m : Loader A) (k : A → Loader B) l1 l2 :
  reports m l1 → (∀ a, reports (k a) l2) → reports (m ≫= k) (l1 ++ l2).
Proof.
  intros Hm Hk e. unfold mbind, Loader_bind. rewrite foldl_app, <- Hm.
  destruct (m e) as [a e']. apply Hk.
Qed.

Lemma reports_cons {A B} (m : Loader A) (k : A → Loader B) s l :
  reports m [s] → (∀ a, reports (k a) l) → reports (m ≫= k) (s :: l).
Proof. apply (reports_bind m k [s]). Qed.

Lemma reports_env {T} `{!GoZero T} name (fallback : T) parse s :
  setting_error s = malformed parse name → reports (bindEnv name fallback parse) [s].
Proof.
  intros E e. unfold bindEnv, envValue. simpl. rewrite E. unfold malformed.
  destruct (LookupEnv (str name)) as [v|]; [|done]. case_decide; [done|]. by destruct (parse (TrimSpace v)).
Qed.

Lemma reports_secret name : reports (bindSecret name) [SSecret name].
Proof.
  intros e. unfold bindSecret, resolveSecret. simpl. destruct (LookupEnv _) as [v|]; [|done].
  case_decide; [done|]. by destruct (ReadFile (TrimSpace v)).
Qed.

Lemma reports_last {A B} (m : Loader A) (f : A → B) l : reports m l → reports (a ← m; mret (f a)) l.
Proof. intros Hm. rewrite <- (app_nil_r l). apply reports_bind; [done|intros a; apply reports_ret]. Qed.

Ltac reports_tac :=
  repeat first [ apply reports_ret
               | apply reports_cons; [first [by apply reports_env | apply reports_secret]|intros ?]
               | by apply reports_env ].

Lemma load_all_reports random : reports (load_all random) settings.
Proof.
  unfold load_all, settings.
  repeat (apply reports_bind; [|intros ?]); [..|apply reports_last];
    unfold load_log, load_http, load_hub, load_limits, load_ratelimit, load_heartbeat, load_bus, load_crypto, load_auth,
      load_health, load_shutdown; reports_tac.
Qed.

Lemma record_first l e :
  foldl (λ e s, match setting_error s with Some err => record err e | None => e end) e l
  = match e with Some _ => e | None => head (omap setting_error l) end.
Proof.
  revert e. induction l as [|s l IH]; intros e; simpl; [by destruct e|].
  rewrite IH. destruct (setting_error s), e; done.
Qed.

Lemma no_error_forall l : Forall (λ s, setting_error s = None) l ↔ head (omap setting_error l) = None.
Proof.
  rewrite head_None. induction l as [|s l IH]; simpl; [done|].
  rewrite Forall_cons, IH. destruct (setting_error s); naive_solver.
Qed.

(** The outcome of loading is decided by the settings. *)
Lemma load_outcome random :
  LoadConfig random = match head (omap setting_error settings) with
                      | Some e => Err e
                      | None => Ok (load_all random None).1
                      end.
Proof.
  unfold LoadConfig. pose proof (load_all_reports random None) as E. rewrite record_first in E.
  revert E. generalize (head (omap setting_error settings)) as o. generalize (load_all random None) as r.
  by intros [c e] o; simpl; intros ->; destruct o.
Qed.

Lemma load_ok random c :
  LoadConfig random = Ok c → c = (load_all random None).1 ∧ Forall (λ s, setting_error s = None) settings.
Proof. rewrite load_outcome, no_error_forall. destruct (head _); [done|]. by intros [= <-]. Qed.

(** C26: loading fails exactly when a variable the program parses is malformed
    or a secret file cannot be read, and it reports the first of them in the
    order of the source: no malformed value is ever replaced by a default.
    Unset and blank variables are never errors. *)
Theorem config_errors_exact random :
  (∀ e, LoadConfig random = Err e ↔ head (omap setting_error settings) = Some e)
  ∧ ((∃ c, LoadConfig random = Ok c) ↔ Forall (λ s, setting_error s = None) settings).
Proof.
  rewrite no_error_forall, load_outcome. generalize (head (omap setting_error settings)) as o.
  generalize (load_all random None) as r. intros r o. destruct o; split; naive_solver.
Qed.
End load.

(** ** Validation *)
Section validate.
Context {Float : Type}.

Implicit Type c : @Config Float.

Definition check (bad : bool) (e : ConfErr) (next : result ConfErr ()) : result ConfErr () :=
  if bad then Err e else next.

Definition insecure_in_production (c : @Config Float) : result ConfErr () :=
  check (bool_decide (crypto_Driver (Crypto c) = str "mock")) ErrProdCryptoMock
  (check (bool_decide (auth_Driver (Auth c) = str "mock")) ErrProdAuthMock
  (check (Tlsconf.InsecureSkipVerify (crypto_TLS (Crypto c))) ErrProdCryptoTLS
  (check (Valkey.TLSInsecureSkip (bus_Valkey (EventBus c))) ErrProdBusTLS (Ok ())))).

Definition Validate (c : @Config Float) : result ConfErr () :=
  check (bool_decide (ListenPort (HTTP c) ≤ 0 ∨ ListenPort (HTTP c) > 65535)) ErrPort
  (check (bool_decide (Shards (Hub c) ≤ 0)) ErrShards
  (check (bool_decide (EventLanes (Hub c) ≤ 0)) ErrLanes
  (check (bool_decide (ClientQueueSize (Hub c) ≤ 0)) ErrClientQueue
  (check (bool_decide (bus_Driver (EventBus c) ∉ [str "valkey_pubsub"; str "memory"])) ErrBusDriver
  (check (bool_decide (crypto_Driver (Crypto c) ∉ [str "http"; str "mock"])) ErrCryptoDriver
  (check (bool_decide (auth_Driver (Auth c) ∉ [str "jwt"; str "mock"])) ErrAuthDriver
  (check (bool_decide (PayloadCipher (Crypto c) ≠ []) && negb (EqualFold (PayloadCipher (Crypto c)) (str "AES-256-GCM"))) ErrCipher
  (if EqualFold (Environment c) (str "production") then insecure_in_production c else Ok ())))))))).

Definition production (c : @Config Float) : Prop := EqualFold (Environment c) (str "production") = true.

Lemma check_ok bad e next : check bad e next = Ok () ↔ bad = false ∧ next = Ok ().
Proof. unfold check. destruct bad; naive_solver. Qed.

Lemma insecure_ok c :
  insecure_in_production c = Ok () ↔
    crypto_Driver (Crypto c) ≠ str "mock" ∧ auth_Driver (Auth c) ≠ str "mock"
    ∧ Tlsconf.InsecureSkipVerify (crypto_TLS (Crypto c)) = false ∧ Valkey.TLSInsecureSkip (bus_Valkey (EventBus c)) = false.
Proof.
  unfold insecure_in_production. rewrite !check_ok, !bool_decide_eq_false. naive_solver.
Qed.

(** [Validate] accepts exactly the coherent configurations: a TCP port,
    at least one shard, lane and queue slot, known drivers and the one payload
    cipher; and, in production, no simulated driver and no connection whose
    peer is not verified. *)
Theorem validate_exact c :
  Validate c = Ok () ↔
    1 ≤ ListenPort (HTTP c) ≤ 65535
    ∧ 0 < Shards (Hub c) ∧ 0 < EventLanes (Hub c) ∧ 0 < ClientQueueSize (Hub c)
    ∧ bus_Driver (EventBus c) ∈ [str "valkey_pubsub"; str "memory"]
    ∧ crypto_Driver (Crypto c) ∈ [str "http"; str "mock"]
    ∧ auth_Driver (Auth c) ∈ [str "jwt"; str "mock"]
    ∧ (PayloadCipher (Crypto c) = [] ∨ EqualFold (PayloadCipher (Crypto c)) (str "AES-256-GCM") = true)
    ∧ (production c → crypto_Driver (Crypto c) = str "http" ∧ auth_Driver (Auth c) = str "jwt"
        ∧ Tlsconf.InsecureSkipVerify (crypto_TLS (Crypto c)) = false ∧ Valkey.TLSInsecureSkip (bus_Valkey (EventBus c)) = false).
Proof.
  unfold Validate, production. rewrite !check_ok, !bool_decide_eq_false, andb_false_iff, bool_decide_eq_false, negb_false_iff.
  assert (∀ d x, d ∈ [x; str "mock"] → x ≠ str "mock" → (d ≠ str "mock" ↔ d = x)) as Hd.
  { intros d x. rewrite !list_elem_of_In. simpl. naive_solver. }
  assert (∀ (x : gostring) (l : list gostring), ¬ (x ∉ l) ↔ x ∈ l) as Hin by (intros; split; [apply dec_stable|tauto]).
  assert (∀ x : gostring, ¬ (x ≠ []) ↔ x = []) as Hnil by (intros; split; [apply dec_stable|tauto]).
  assert (∀ z, ¬ (z ≤ 0 ∨ z > 65535) ↔ 1 ≤ z ≤ 65535) as -> by lia.
  assert (str "http" ≠ str "mock" ∧ str "jwt" ≠ str "mock") as [Hh Hj] by done.
  rewrite !Z.nle_gt, !Hin, Hnil. pose proof (Hd (crypto_Driver (Crypto c)) (str "http")) as Hc.
  pose proof (Hd (auth_Driver (Auth c)) (str "jwt")) as Ha. clear Hd Hin Hnil.
  destruct (EqualFold (Environment c) (str "production")) eqn:E; [rewrite insecure_ok|].
  - tauto.
  - assert (false ≠ true) by done. tauto.
Qed.
End validate.
