(* ===== verification/Metrics.v ===== *)
(** * internal/metrics: the collectors and their registry

    metrics.go.  The Prometheus client is a library: [Prometheus] states what
    its documentation promises of a registry and of histograms, and [NewMetrics]
    is proved against it.  A histogram's bounds are in units of 100
    microseconds. *)

From S2P Require Import Prelude GoStrings.

Local Open Scope Z_scope.

Inductive Kind := KGauge | KCounter | KHistogram (buckets : list Z).
Record Collector := mkCollector { c_Name : gostring; c_Help : gostring; c_Kind : Kind }.

#[global] Instance Kind_eq_dec : EqDecision Kind.
Proof. solve_decision. Defined.
#[global] Instance Collector_eq_dec : EqDecision Collector.
Proof. solve_decision. Defined.

(** A metric name: a letter, an underscore or a colon, then also digits. *)
Definition name_first (c : ascii) : bool := in_range 65 90 c || in_range 97 122 c || bool_decide (c ∈ str "_:").
Definition valid_name (s : gostring) : bool :=
  match s with [] => false | c :: s' => name_first c && forallb (λ c, name_first c || in_range 48 57 c) s' end.

Fixpoint increasing (l : list Z) : bool :=
  match l with a :: (b :: _) as l' => bool_decide (a < b) && increasing l' | _ => true end.

(** What the library promises: a new registry is empty; a collector with a
    valid name that is not taken registers; a histogram with increasing bounds
    is built. *)
Class Prometheus := {
  Registry : Type;
  NewRegistry : Registry;
  Register : Collector → Registry → option Registry;
  NewHistogram : gostring → gostring → list Z → option Collector;
  gathered : Registry → list Collector;
  new_registry_empty : gathered NewRegistry = [];
  register_fresh c r : valid_name (c_Name c) = true → c_Name c ∉ c_Name <$> gathered r →
    ∃ r', Register c r = Some r' ∧ gathered r' = gathered r ++ [c];
  new_histogram name help buckets : increasing buckets = true →
    NewHistogram name help buckets = Some (mkCollector name help (KHistogram buckets));
}.

Definition NewGauge (name help : string) : Collector := mkCollector (str name) (str help) KGauge.
Definition NewCounter (name help : string) : Collector := mkCollector (str name) (str help) KCounter.

Section metrics.
Context `{!Prometheus}.

Record Metrics := mkMetrics {
  m_Registry : Registry;
  ConnectionsActive : Collector;
  ConnectionsTotal : Collector;
  EventsReceivedTotal : Collector;
  EventsNoSubscriberTotal : Collector;
  EventsDecryptedTotal : Collector;
  DecryptErrorsTotal : Collector;
  FanoutTotal : Collector;
  FanoutRecipientsTotal : Collector;
  SlowClientsTotal : Collector;
  ClientsDisconnectedTotal : Collector;
  EventBusReconnectsTotal : Collector;
  CryptoDurationSeconds : Collector;
  EventProcessingDuration : Collector;
  FanoutDurationSeconds : Collector;
  EventLaneQueueDepth : Collector;
  EventLaneQueueDroppedTotal : Collector;
}.

(** The arguments of [MustRegister], in order. *)
Definition collectors (m : Metrics) : list Collector :=
  [ConnectionsActive m; ConnectionsTotal m; EventsReceivedTotal m; EventsNoSubscriberTotal m; EventsDecryptedTotal m;
   DecryptErrorsTotal m; FanoutTotal m; FanoutRecipientsTotal m; SlowClientsTotal m; ClientsDisconnectedTotal m;
   EventBusReconnectsTotal m; CryptoDurationSeconds m; EventProcessingDuration m; FanoutDurationSeconds m;
   EventLaneQueueDepth m; EventLaneQueueDroppedTotal m].

(** [MustRegister] panics at the first collector that does not register. *)
Fixpoint MustRegister (cs : list Collector) (r : Registry) : option Registry :=
  match cs with [] => Some r | c :: cs => r ← Register c r; MustRegister cs r end.

Definition duration_buckets : list Z := [5; 10; 20; 50; 100; 250; 500; 1000; 2500; 5000; 10000].

Definition NewMetrics : option Metrics :=
  let reg := NewRegistry in
  crypto ← NewHistogram (str "sse_crypto_duration_seconds")
             (str "Durée en secondes des opérations de déballage et déchiffrement crypto.") duration_buckets;
  processing ← NewHistogram (str "sse_event_processing_duration_seconds")
             (str "Durée totale de traitement de l'événement de la réception au fan-out.") duration_buckets;
  fanout ← NewHistogram (str "sse_fanout_duration_seconds")
             (str "Durée de soumission des trames aux canaux clients.") [1; 5; 10; 50; 100; 500];
  let m r := mkMetrics r
    (NewGauge "sse_connections_active" "Nombre instantané de connexions SSE ouvertes.")
    (NewCounter "sse_connections_total" "Nombre total de connexions SSE établies depuis le démarrage.")
    (NewCounter "sse_events_received_total" "Nombre total d'événements reçus du bus.")
    (NewCounter "sse_events_no_subscriber_total" "Nombre d'événements ignorés sans déchiffrement faute d'abonnés locaux.")
    (NewCounter "sse_events_decrypted_total" "Nombre total d'événements déchiffrés avec succès.")
    (NewCounter "sse_decrypt_errors_total" "Nombre d'erreurs de déchiffrement ou de déballage de clé.")
    (NewCounter "sse_fanout_total" "Nombre total d'opérations de diffusion (fan-out) effectuées.")
    (NewCounter "sse_fanout_recipients_total" "Nombre cumulé de trames transmises aux clients individuels.")
    (NewCounter "sse_slow_clients_total" "Nombre total de clients lents détectés.")
    (NewCounter "sse_clients_disconnected_total" "Nombre total de connexions SSE fermées.")
    (NewCounter "sse_event_bus_reconnects_total" "Nombre de reconnexions de l'adapter EventBus.")
    crypto processing fanout
    (NewGauge "sse_event_lane_queue_depth" "Profondeur instantanée cumulée des files d'attente des voies d'événements.")
    (NewCounter "sse_event_lane_queue_dropped_total" "Nombre d'événements rejetés par débordement des files de voies.") in
  reg ← MustRegister (collectors (m reg)) reg;
  Some (m reg).

(** What the metrics endpoint exposes. *)
Definition Handler (m : Metrics) : list Collector := gathered (m_Registry m).

Lemma MustRegister_fresh cs r :
  forallb (λ c, valid_name (c_Name c)) cs = true → NoDup (c_Name <$> gathered r ++ cs) →
  ∃ r', MustRegister cs r = Some r' ∧ gathered r' = gathered r ++ cs.
Proof.
  revert r. induction cs as [|c cs IH]; intros r; simpl; [exists r; by rewrite app_nil_r|].
  intros [Hc Hcs]%andb_true_iff Hn.
  assert (c_Name c ∉ c_Name <$> gathered r) as Hfresh.
  { rewrite fmap_app in Hn. apply NoDup_app in Hn as (_ & Hd & _). intros Hin. by apply (Hd _ Hin), list_elem_of_here. }
  destruct (register_fresh c r Hc Hfresh) as (r1 & -> & E1). simpl.
  destruct (IH r1 Hcs) as (r2 & -> & E2); [by rewrite E1, <- (assoc_L (++))|]. exists r2. by rewrite E2, E1, <- (assoc_L (++)).
Qed.

Lemma new_metrics :
  ∃ m, NewMetrics = Some m ∧ Handler m = collectors m ∧ NoDup (c_Name <$> collectors m)
    ∧ Forall (λ c, ∀ b, c_Kind c = KHistogram b → increasing b = true) (collectors m).
Proof.
  unfold NewMetrics. rewrite !new_histogram by reflexivity. cbn [mbind option_bind].
  match goal with |- context [MustRegister ?cs _] => set (all := cs) end.
  destruct (MustRegister_fresh all NewRegistry) as (r & -> & E); [vm_compute; reflexivity|rewrite new_registry_empty; by_decide|].
  cbn [mbind option_bind]. eexists. split; [reflexivity|]. split; [unfold Handler; cbn [m_Registry]; by rewrite E, new_registry_empty|].
  split; [unfold collectors; by_decide|]. unfold collectors.
  repeat (apply Forall_cons; split; [intros b Hb; first [discriminate Hb | injection Hb as <-; reflexivity]|]). constructor.
Qed.

(** The metrics start: with any registry and histograms that behave as
    documented, [NewMetrics] does not panic, and the endpoint exposes exactly the
    sixteen collectors of the record, each once, under distinct names, with
    increasing histogram bounds. *)
Theorem metrics_all_exposed :
  ∃ m, NewMetrics = Some m ∧ Handler m = collectors m ∧ length (collectors m) = 16%nat ∧ NoDup (c_Name <$> collectors m)
    ∧ ∀ c b, c ∈ collectors m → c_Kind c = KHistogram b → increasing b = true.
Proof.
  destruct new_metrics as (m & E & Hh & Hn & Hb). exists m. split; [done|]. split; [done|]. split; [done|]. split; [done|].
  intros c b Hc. rewrite Forall_forall in Hb. by apply Hb.
Qed.
End metrics.

(** A registry as the list of its collectors. *)
Program Definition list_registry : Prometheus :=
  {| Registry := list Collector; NewRegistry := [];
     Register c r := if decide (c_Name c ∈ c_Name <$> r ∨ valid_name (c_Name c) = false) then None else Some (r ++ [c]);
     NewHistogram n h b := if increasing b then Some (mkCollector n h (KHistogram b)) else None;
     gathered r := r |}.
Next Obligation. done. Qed.
Next Obligation. intros c r Hv Hn. simpl. rewrite decide_False by (intros [Hin|Hf]; [by apply Hn|congruence]). eauto. Qed.
Next Obligation. intros n h b Hb. cbv beta. by rewrite Hb. Qed.

Lemma metrics_all_exposed_witness : ∃ m, @NewMetrics list_registry = Some m ∧ length (@Handler list_registry m) = 16%nat.
Proof.
  destruct (@metrics_all_exposed list_registry) as (m & E & Hh & Hl & _). exists m. split; [exact E|]. rewrite Hh. exact Hl.
Defined.
