(* ===== verification/ApiRouter.v ===== *)
(** * internal/api: the handlers' construction and the router

    [NewHandler] (handlers.go) and [NewRouter], [Router.Close] (router.go): what
    the handlers start from, the routes of the configuration in the multiplexer
    of [Mux.v], and the limiter around the stream. *)

From S2P Require Import Prelude GoStrings Chan Frame Quota Client Shard Hub Router ApiHttp Mux ApiHandlers Server Probes Health Config.

Local Open Scope Z_scope.

(** What the multiplexer serves; [burst] is that of the rate limiter around the
    stream, when there is one. *)
Inductive Endpoint := EventsEndpoint (burst : option Z) | HealthzEndpoint | ReadyzEndpoint | MetricsEndpoint.
#[global] Instance Endpoint_eq_dec : EqDecision Endpoint.
Proof. solve_decision. Defined.

Section router.
Context {Float : Type} `{!GoZero Float}.
(** [cfg.RateLimit.RPS > 0] *)
Context (positive_rate : Float → bool).
Context {Limiter : Type}.
(** The state of the dependencies the checkers look at *)
Context {Deps : Type}.
Abbreviation Config := (@Config.Config Float).
Abbreviation IPRateLimiter := (@IPRateLimiter Limiter).

Record Handler := mkHandler {
  hd_cfg : HandlerConfig;
  hd_gateway : Gateway;
  hd_checkers : list (option (Checker Deps));
  hd_startTime : Z;
  hd_readyCache : ProbeState;
}.

(** The fields of the configuration the handlers read. *)
Definition handler_config (c : Config) : HandlerConfig :=
  mkHandlerConfig (Config.MaxPendingHandshakes (RateLimit c)) (Config.QueryParameter (Config.Auth c))
    (Config.ClientQueueSize (Config.Hub c)) (Config.ClientSlowPolicy (Config.Hub c)) (Config.ClientWriteTimeout (Config.Hub c))
    (hb_Interval (Heartbeat c)) (MetricsEnabled c).

Definition NewHandler (c : Config) (h : Hub.Hub) (checkers : list (option (Checker Deps))) (now : Z) : Handler :=
  mkHandler (handler_config c) (mkGateway h 0 false 0 0 0) checkers now (mkProbe zero_cache false).

Record APIRouter := mkAPIRouter {
  rt_mux : ServeMux Endpoint;
  APIHandler : Handler;
  rt_limiter : option IPRateLimiter;
}.

Definition limiter_burst (c : Config) : option Z :=
  if rl_Enabled (RateLimit c) && positive_rate (RPS (RateLimit c))
  then Some (if decide (Burst (RateLimit c) ≤ 0) then 200 else Burst (RateLimit c)) else None.

(** The routes, in the order of their registration; [metrics] tells whether
    the registry is there. *)
Definition routes (c : Config) (metrics : bool) : list (gostring * Endpoint) :=
  [(EventsPath (HTTP c), EventsEndpoint (limiter_burst c))]
  ++ (if HealthEnabled (Config.Health c) then [(http_HealthPath (HTTP c), HealthzEndpoint)] else [])
  ++ (if ReadyEnabled (Config.Health c) then [(ReadyPath (HTTP c), ReadyzEndpoint)] else [])
  ++ (if MetricsEnabled c && metrics then [(MetricsPath (HTTP c), MetricsEndpoint)] else []).

(** [None] is a panic of the multiplexer. *)
Definition NewRouter (c : Config) (h : Hub.Hub) (checkers : list (option (Checker Deps))) (metrics : bool) (now : Z) : option APIRouter :=
  let handler := NewHandler c h checkers now in
  mux ← HandleAll (routes c metrics) [];
  Some (mkAPIRouter mux handler ((λ _, NewIPRateLimiter) <$> limiter_burst c)).

Definition Close (r : APIRouter) : option APIRouter :=
  match rt_limiter r with
  | None => Some r
  | Some l => '(_, l) ← Stop l; Some (mkAPIRouter (rt_mux r) (APIHandler r) (Some l))
  end.

(** ** Theorems *)

End router.

(** The configuration of an empty environment. *)
Definition default_conf : @Config.Config Z := (load_all (λ _, None) (λ _, None) (λ _, None) 100 (str "01234567") None).1.
Definition demo_rate (r : Z) : bool := bool_decide (0 < r).

