(* ===== verification/Startup.v ===== *)
(** * cmd/server/main.go: from the environment to the running system

    [healthcheck] (the container probe), the constructors chosen by driver
    ([init_validator], [init_unwrapper], [init_bus], with the build tag of
    mock_dev.go and mock_prod.go), the routes of api/router.go, and [start],
    which composes them as [main] does.  The outer [option] is a panic, the
    [result] an [os.Exit(1)].  [boot] is the state of [System.v] the goroutines
    start from.  Files, certificates, the JWT and Valkey libraries and the
    multiplexer are parameters. *)

From S2P Require Import Prelude GoStrings NetAddr Chan Frame Quota Client Shard Hub HubSpec HubBroadcast HubRevoke HubRun Router Aes Crypto Tlsconf HttpClient Json Bus Valkey Lanes Pipeline Auth ApiHttp Mux Probes Health Logging Config Metrics ApiRouter System.

Local Open Scope Z_scope.

Inductive StartErr :=
| StartConfig (e : ConfErr)             (* LoadConfig *)
| StartInvalid (e : ConfErr)            (* Validate *)
| StartRouter (e : RegexpErr)
| StartJWT (e : JWTConfigErr)
| StartNoMockValidator
| StartAuthDriver
| StartCrypto (e : ClientErr)
| StartNoMockUnwrapper
| StartCryptoDriver
| StartBus (e : VErr)
| StartBusDriver
| StartSubscribe (e : BusErr).

(** The implementations behind the interfaces. *)
Inductive AppValidator := JWTDriver (v : JWTValidator) | MockDriver (v : MockValidator).
Inductive AppUnwrapper := HTTPDriver (c : HttpClient) | MockKeys (u : MockUnwrapper).
Inductive AppBus := ValkeyDriver (b : VBus) (loop : lpc) | MemoryDriver (b : MemBus) (ch : positive).

(** What the checkers see when they are asked: the bus and the key client as
    they are then, the answers of their servers, and the texts of errors. *)
Record Deps := mkDeps {
  dep_bus : AppBus;
  dep_ping : bool;                                  (* Valkey answers PING *)
  dep_keys : AppUnwrapper;
  dep_service : HttpRequest → option HttpResponse;
  dep_url_ok : gostring → bool;
  dep_bus_text : BusErr → gostring;
  dep_crypto_text : CryptoErr → gostring;
}.

Definition bus_Check (d : Deps) : result gostring () :=
  match match dep_bus d with
        | ValkeyDriver b _ => valkey_Check (dep_ping d) b
        | MemoryDriver b _ => mem_Check b
        end with
  | Ok _ => Ok ()
  | Err e => Err (dep_bus_text d e)
  end.
Definition unwrapper_Check (d : Deps) : result gostring () :=
  match match dep_keys d with
        | HTTPDriver c => client_Check (dep_service d) (dep_url_ok d) c
        | MockKeys u => mock_Check u
        end with
  | Ok _ => Ok ()
  | Err e => Err (dep_crypto_text d e)
  end.

Section start.
Context (LookupEnv : gostring → option gostring) (ReadFile : gostring → option gostring).
Context {Float : Type} `{!GoZero Float} (ParseFloat : gostring → option Float) (f100 : Float).
(** [cfg.RateLimit.RPS > 0] *)
Context (positive_rate : Float → bool).
(** tlsconf, auth and the Valkey client *)
Context {Pool Cert : Type} (AppendCertsFromPEM : gostring → option Pool) (LoadX509KeyPair : gostring → gostring → option Cert).
Context (pem_decode : gostring → option gostring) (parse_pkix : gostring → option (option gostring)).
Context (parse_rsa_pem parse_ec_pem : gostring → option gostring).
Context (valkey_NewClient : ClientOption → bool).
(** The metrics library and the token bucket *)
Context `{!Prometheus} {Limiter : Type}.
(** The binary was built with the tag [production]. *)
Context (production_build : bool).

Abbreviation Config := (@Config.Config Float).

(** ** The container health probe *)
Definition Getenv (name : gostring) : gostring := default [] (LookupEnv name).

Definition healthcheck_url : gostring :=
  let port := Getenv (str "SSE_HTTP_LISTEN_PORT") in
  let port := if decide (port = []) then FormatInt DefaultListenPort else port in
  let path := Getenv (str "SSE_HTTP_HEALTH_PATH") in
  let path := if decide (path = []) then DefaultHealthPath else path in
  str "http://127.0.0.1:" ++ port ++ path.

(** The exit code; [Get] is the status of the answer, if any. *)
Definition healthcheck (Get : gostring → option Z) : Z :=
  match Get healthcheck_url with
  | None => 1
  | Some status => if decide (status ≠ 200) then 1 else 0
  end.

(** ** Drivers *)
Definition initMockValidator (now : Z) : option MockValidator :=
  if production_build then None else Some (NewMockValidator now).
Definition initMockUnwrapper : option MockUnwrapper :=
  if production_build then None else Some (NewMockUnwrapper []).

Definition init_validator (now : Z) (c : Config) : result StartErr AppValidator :=
  let driver := auth_Driver (Config.Auth c) in
  if decide (driver = str "jwt") then
    match NewJWTValidator pem_decode parse_pkix parse_rsa_pem parse_ec_pem ReadFile (auth_JWT (Config.Auth c)) with
    | Err e => Err (StartJWT e)
    | Ok val => Ok (JWTDriver val)
    end
  else if decide (driver = str "mock") then
    match initMockValidator now with Some v => Ok (MockDriver v) | None => Err StartNoMockValidator end
  else Err StartAuthDriver.

(** The TLS material of the key service. *)
Definition crypto_tls (c : Config) : result BuildErr TLSConfig :=
  Build ReadFile AppendCertsFromPEM LoadX509KeyPair (crypto_TLS (Config.Crypto c)).

Definition init_unwrapper (c : Config) : result StartErr AppUnwrapper :=
  let driver := crypto_Driver (Config.Crypto c) in
  if decide (driver = str "http") then
    match NewClient (is_ok (crypto_tls c)) (crypto_HTTP (Config.Crypto c)) with
    | Err e => Err (StartCrypto e)
    | Ok client => Ok (HTTPDriver client)
    end
  else if decide (driver = str "mock") then
    match initMockUnwrapper with Some u => Ok (MockKeys u) | None => Err StartNoMockUnwrapper end
  else Err StartCryptoDriver.

(** The bus, subscribed: steps 10 and 13. *)
Definition init_bus (c : Config) : option (result StartErr AppBus) :=
  let driver := bus_Driver (EventBus c) in
  let patterns := [ChannelPattern (bus_Valkey (EventBus c))] in
  if decide (driver = str "valkey_pubsub") then
    match Valkey.NewBus ReadFile AppendCertsFromPEM LoadX509KeyPair valkey_NewClient (bus_Valkey (EventBus c)) with
    | Err e => Some (Err (StartBus e))
    | Ok b =>
        let b := if MetricsEnabled c then SetOnReconnect b else b in
        match Valkey.Subscribe patterns b with
        | Err e => Some (Err (StartSubscribe e))
        | Ok (_, loop, b) => Some (Ok (ValkeyDriver b loop))
        end
    end
  else if decide (driver = str "memory") then
    '(r, b) ← Bus.Subscribe (Bus.NewBus 1024);
    match r with Err e => Some (Err (StartSubscribe e)) | Ok ch => Some (Ok (MemoryDriver b ch)) end
  else Some (Err StartBusDriver).

(** ** The hub and the lanes *)
Definition init_hub (c : Config) : option Hub.Hub :=
  '(_, h) ← (if MetricsEnabled c then SetObservabilityCallbacks true true else mret ()) (NewHub (Shards (Config.Hub c)) (Limits c));
  '(_, h) ← (if hb_Enabled (Heartbeat c) then StartHeartbeat (hb_Interval (Heartbeat c)) (hb_Payload (Heartbeat c)) else mret ()) h;
  Some h.

Definition drainBudget (c : Config) : Z :=
  let drainBudget := Z.quot (GracePeriod (Shutdown c)) 2 in
  if decide (drainBudget ≤ 0) then 10 * sec else drainBudget.

Definition init_dispatcher (c : Config) : Dispatcher :=
  upd_timeout (drainBudget c) (NewDispatcher (EventLanes (Config.Hub c)) (EventLaneQueueSize (Config.Hub c))).

(** ** The readiness checkers and the routes *)
Definition bus_Name (b : AppBus) : gostring :=
  match b with ValkeyDriver _ _ => valkey_Name | MemoryDriver _ _ => mem_Name end.
Definition unwrapper_Name (u : AppUnwrapper) : gostring :=
  match u with HTTPDriver _ => client_Name | MockKeys _ => mock_Name end.

(** Every driver implements the interface: the type assertions succeed. *)
Definition init_checkers (c : Config) (b : AppBus) (u : AppUnwrapper) : list (option (Checker Deps)) :=
  (if RequireEventBus (Config.Health c) then [Some (mkChecker (bus_Name b) bus_Check)] else [])
  ++ (if RequireCrypto (Config.Health c) then [Some (mkChecker (unwrapper_Name u) unwrapper_Check)] else []).

(** ** The HTTP server *)
Record HTTPServer := mkHTTPServer {
  srv_Addr : gostring;
  srv_ReadHeaderTimeout : Z;
  srv_IdleTimeout : Z;
  srv_MaxHeaderBytes : Z;
  srv_WriteTimeout : Z;
}.
Definition init_server (c : Config) : HTTPServer :=
  mkHTTPServer (Address (HTTP c)) (ReadHeaderTimeout (HTTP c)) (IdleTimeout (HTTP c)) (MaxHeaderBytes (HTTP c)) (http_WriteTimeout (HTTP c)).

(** ** main, up to the first request *)
Record App := mkApp {
  app_cfg : Config;
  app_processor : Processor;
  app_hub : Hub.Hub;
  app_validator : AppValidator;
  app_unwrapper : AppUnwrapper;
  app_bus : AppBus;
  app_dispatcher : Dispatcher;
  app_metrics : option Metrics;
  app_router : @APIRouter Limiter Deps;
  app_server : HTTPServer;
}.

(** Step 5; a panic of the registration is [None]. *)
Definition init_metrics (c : Config) : option (option Metrics) :=
  if MetricsEnabled c then m ← NewMetrics; Some (Some m) else Some None.

Definition assemble (now : Z) (c : Config) (metrics : option Metrics) (router : Router) : option (result StartErr App) :=
  match init_validator now c with
  | Err e => Some (Err e)
  | Ok validator =>
      match init_unwrapper c with
      | Err e => Some (Err e)
      | Ok unwrapper =>
          rb ← init_bus c;
          match rb with
          | Err e => Some (Err e)
          | Ok b =>
              h ← init_hub c;
              let p := NewProcessor router
                         (mkCryptoConfig (Config.AADEnabled (Config.Crypto c)) (Config.AADTemplate (Config.Crypto c))
                            (Config.MaxPayloadBytes (Config.Crypto c))) (bool_decide (is_Some metrics)) in
              api ← ApiRouter.NewRouter positive_rate c h (init_checkers c b unwrapper) (bool_decide (is_Some metrics)) now;
              Some (Ok (mkApp c p h validator unwrapper b (init_dispatcher c) metrics api (init_server c)))
          end
      end
  end.

Definition start (now : Z) (random : gostring) : option (result StartErr App) :=
  match LoadConfig LookupEnv ReadFile ParseFloat f100 random with
  | Err e => Some (Err (StartConfig e))
  | Ok c =>
      match Validate c with
      | Err e => Some (Err (StartInvalid e))
      | Ok _ =>
          metrics ← init_metrics c;
          rr ← Router.NewRouter (TopicTemplate c);
          match rr with
          | Err e => Some (Err (StartRouter e))
          | Ok router => assemble now c metrics router
          end
      end
  end.

(** ** The command line *)

(** [flag.Parse] of the two boolean flags: what they hold, or the code the
    package exits with (2 on an error, 0 for help). *)
Fixpoint parse_flags (args : list gostring) (healthcheckFlag versionFlag : bool) : result Z (bool * bool) :=
  match args with
  | [] => Ok (healthcheckFlag, versionFlag)
  | s :: args =>
      if decide ((length s < 2)%nat ∨ head s ≠ Some "-"%char) then Ok (healthcheckFlag, versionFlag)
      else if decide (s = str "--") then Ok (healthcheckFlag, versionFlag)
      else
        let name := default (tail s) (CutPrefix s (str "--")) in
        if decide (name = [] ∨ head name = Some "-"%char ∨ head name = Some "="%char) then Err 2
        else
          let '(name, value) := match CutByte "="%char name with Some (n, v) => (n, ParseBool v) | None => (name, Some true) end in
          if decide (name = str "healthcheck") then
            match value with Some b => parse_flags args b versionFlag | None => Err 2 end
          else if decide (name = str "version") then
            match value with Some b => parse_flags args healthcheckFlag b | None => Err 2 end
          else if decide (name = str "help" ∨ name = str "h") then Err 0 else Err 2
  end.

Inductive Outcome := Exited (code : Z) | Panicked | Running (app : App).

(** [main]; [Get] answers the probe's request. *)
Definition main (Get : gostring → option Z) (now : Z) (random : gostring) (args : list gostring) : Outcome :=
  match parse_flags args false false with
  | Err code => Exited code
  | Ok (healthcheckFlag, versionFlag) =>
      if versionFlag then Exited 0
      else if healthcheckFlag then Exited (healthcheck Get)
      else match start now random with
           | None => Panicked
           | Some (Err _) => Exited 1
           | Some (Ok app) => Running app
           end
  end.

(** ** Theorems *)
Abbreviation loaded random := (load_all LookupEnv ReadFile ParseFloat f100 random None).1.

Ltac run_loader :=
  repeat match goal with |- context [let '(_, _) := ?m in _] => destruct m end; try done.

Lemma load_environment random : Environment (loaded random) = env LookupEnv "SSE_ENVIRONMENT" "production".
Proof. unfold load_all, mbind, Loader_bind. run_loader. Qed.

Lemma load_http_part random : ∃ e, HTTP (loaded random) = (load_http LookupEnv e).1.
Proof.
  unfold load_all, mbind, Loader_bind. destruct (load_log _ _) as [log e]. exists e.
  destruct (load_http _ _) as [http e']. simpl. run_loader.
Qed.

Lemma load_port e :
  ListenPort (load_http LookupEnv e).1 = (bindEnv LookupEnv "SSE_HTTP_LISTEN_PORT" DefaultListenPort Atoi e).1.
Proof.
  unfold load_http, mbind, Loader_bind. destruct (bindEnv _ "SSE_HTTP_LISTEN_PORT" _ _ _) as [p e']. run_loader.
Qed.

Lemma load_health_path e :
  http_HealthPath (load_http LookupEnv e).1 = getEnv LookupEnv (str "SSE_HTTP_HEALTH_PATH") DefaultHealthPath.
Proof. unfold load_http, mbind, Loader_bind. run_loader. Qed.

(** What a started program went through. *)
Lemma start_inversion now random app :
  start now random = Some (Ok app) →
  LoadConfig LookupEnv ReadFile ParseFloat f100 random = Ok (app_cfg app)
  ∧ Validate (app_cfg app) = Ok ()
  ∧ init_validator now (app_cfg app) = Ok (app_validator app)
  ∧ init_unwrapper (app_cfg app) = Ok (app_unwrapper app)
  ∧ init_bus (app_cfg app) = Some (Ok (app_bus app))
  ∧ init_hub (app_cfg app) = Some (app_hub app)
  ∧ app_dispatcher app = init_dispatcher (app_cfg app).
Proof.
  unfold start, assemble. intros E. repeat (case_match; simplify_eq/=; simplify_option_eq);
    match goal with u : () |- _ => destruct u end; done.
Qed.

(** The handlers of a started program, and what they hold of it. *)
Lemma start_handlers now random app :
  start now random = Some (Ok app) →
  hd_cfg (APIHandler (app_router app)) = handler_config (app_cfg app)
  ∧ hd_checkers (APIHandler (app_router app)) = init_checkers (app_cfg app) (app_bus app) (app_unwrapper app).
Proof.
  unfold start, assemble, ApiRouter.NewRouter. intros E. repeat (case_match; simplify_eq/=; simplify_option_eq); done.
Qed.

(** The production rules apply when the variable is unset, blank, or says so
    in any case. *)
Definition production_environment : Prop :=
  match LookupEnv (str "SSE_ENVIRONMENT") with
  | None => True
  | Some v => TrimSpace v = [] ∨ EqualFold (TrimSpace v) (str "production") = true
  end.

Lemma load_production random c :
  LoadConfig LookupEnv ReadFile ParseFloat f100 random = Ok c → production_environment → production c.
Proof.
  intros [-> _]%load_ok He. unfold production. rewrite load_environment. unfold env, getEnv.
  unfold production_environment in He.
  destruct (LookupEnv _) as [v|]; [|by_decide]. case_decide; [by_decide|]. naive_solver.
Qed.

Lemma valkey_keeps_skip c b :
  Valkey.NewBus ReadFile AppendCertsFromPEM LoadX509KeyPair valkey_NewClient c = Ok b →
  Valkey.TLSInsecureSkip (vcfg b) = Valkey.TLSInsecureSkip c.
Proof. unfold Valkey.NewBus. intros E. repeat (case_match; simplify_eq/=); done. Qed.

Lemma init_bus_skip c b loop :
  init_bus c = Some (Ok (ValkeyDriver b loop)) → Valkey.TLSInsecureSkip (vcfg b) = Valkey.TLSInsecureSkip (bus_Valkey (EventBus c)).
Proof.
  unfold init_bus. case_decide; [|case_decide; [|done]].
  - destruct (Valkey.NewBus _ _ _ _ _) as [b0|] eqn:Eb; [|done]. apply valkey_keeps_skip in Eb. rewrite <- Eb.
    unfold Valkey.Subscribe. destruct (MetricsEnabled c), (vclosed b0) eqn:Ec; simpl; rewrite ?Ec; intros; by simplify_eq/=.
  - simpl. intros. by simplify_eq.
Qed.

Lemma init_validator_real now c v :
  init_validator now c = Ok v → (production_build = false → auth_Driver (Config.Auth c) = str "jwt") →
  ∃ j, v = JWTDriver j
    ∧ NewJWTValidator pem_decode parse_pkix parse_rsa_pem parse_ec_pem ReadFile (auth_JWT (Config.Auth c)) = Ok j.
Proof.
  unfold init_validator, initMockValidator. intros E Hd. destruct production_build.
  - repeat (case_match; simplify_eq); eauto.
  - rewrite decide_True in E by auto. case_match; simplify_eq. eauto.
Qed.

Lemma init_unwrapper_real c u :
  init_unwrapper c = Ok u → (production_build = false → crypto_Driver (Config.Crypto c) = str "http") → ∃ cl, u = HTTPDriver cl.
Proof.
  unfold init_unwrapper, initMockUnwrapper. intros E Hd. destruct production_build.
  - repeat (case_match; simplify_eq); eauto.
  - rewrite decide_True in E by auto. case_match; simplify_eq. eauto.
Qed.

(** C20: a program started with the production rules (which an unset or blank
    [SSE_ENVIRONMENT] selects), or built with the production tag whatever the
    environment says, checks tickets with the JWT validator of its
    configuration and gets keys from the HTTP service: no simulated driver is
    reachable.  Under the production rules every TLS peer is verified, for the
    key service and for the bus. *)
Theorem production_start_is_safe now random app :
  start now random = Some (Ok app) →
  (production_environment ∨ production_build = true →
     ∃ v c, app_validator app = JWTDriver v ∧ app_unwrapper app = HTTPDriver c
       ∧ NewJWTValidator pem_decode parse_pkix parse_rsa_pem parse_ec_pem ReadFile (auth_JWT (Config.Auth (app_cfg app))) = Ok v)
  ∧ (production_environment →
       (∀ t, crypto_tls (app_cfg app) = Ok t → tc_InsecureSkipVerify t = false)
       ∧ (∀ b loop, app_bus app = ValkeyDriver b loop → Valkey.TLSInsecureSkip (vcfg b) = false)).
Proof.
  intros (El & Ev & Ea & Eu & Eb & _)%start_inversion. pose proof (load_production random _ El) as Hp.
  assert (production (app_cfg app) → _) as Hprod by apply (proj1 (validate_exact _) Ev). split.
  - intros Hor.
    assert (production_build = false → auth_Driver (Config.Auth (app_cfg app)) = str "jwt"
              ∧ crypto_Driver (Config.Crypto (app_cfg app)) = str "http") as Hd.
    { intros Hf. destruct Hor as [He|?]; [|congruence]. by destruct (Hprod (Hp He)) as (? & ? & _). }
    destruct (init_validator_real _ _ _ Ea) as (v & Hv & Ev'); [naive_solver|].
    destruct (init_unwrapper_real _ _ Eu) as (c & Hc); [naive_solver|]. eauto.
  - intros He. destruct (Hprod (Hp He)) as (_ & _ & Ht & Hs). split.
    + intros t. unfold crypto_tls, Build, mbind, result_bind. repeat case_match; try done. by intros [= <-].
    + intros b loop Hb. rewrite Hb in Eb. by rewrite (init_bus_skip _ _ _ Eb).
Qed.

(** ** The running system *)
Section boot.
Context `{!GoRange} (service : HttpRequest → option HttpResponse) (url_ok : gostring → bool).

(** The unwrapper the processor calls. *)
Definition app_keys (app : App) : KeyUnwrapper :=
  match app_unwrapper app with
  | HTTPDriver c => http_unwrapper service url_ok c
  | MockKeys u => mock_unwrapper u
  end.

Definition boot (app : App) (m : Mem) : Sys :=
  mkSys [] (app_hub app) (app_dispatcher app) (empty_mem_pipe m) CoSelect MServing 0 0 [] [] [].

Definition app_step (app : App) : Sys → Sys → Prop :=
  @sys_step _ (app_keys app) (app_processor app) (InvalidationEventType (Config.Auth (app_cfg app))).

Lemma init_hub_inv c h : Shards (Config.Hub c) < 2 ^ 32 → init_hub c = Some h → run_inv ([], h).
Proof.
  intros Hn E. destruct (run_inv_start _ (Limits c) Hn) as [Hi _]. split; [|by intros ? ?%elem_of_nil]. simpl in *.
  set (h0 := if MetricsEnabled c then upd_callbacks true true (NewHub (Shards (Config.Hub c)) (Limits c))
             else NewHub (Shards (Config.Hub c)) (Limits c)).
  assert (hub_inv [] h0) as Hi0 by (unfold h0; destruct (MetricsEnabled c); [by eapply hub_inv_frame, Hi|done]).
  assert ((if hb_Enabled (Heartbeat c) then StartHeartbeat (hb_Interval (Heartbeat c)) (hb_Payload (Heartbeat c)) else mret ()) h0
          = Some ((), h)) as Eh.
  { revert E. unfold init_hub, h0. destruct (MetricsEnabled c); simpl; destruct (hb_Enabled _); unfold StartHeartbeat;
      try case_decide; simpl; by intros [= <-]. }
  clearbody h0. unfold StartHeartbeat in Eh. destruct (hb_Enabled _); [case_decide|]; injection Eh as <-; try done.
  by eapply hub_inv_frame, Hi0.
Qed.

(** The state the goroutines start from satisfies the invariant of the running
    system, and the drain budget is positive. *)
Lemma boot_sys_inv now random app m :
  start now random = Some (Ok app) →
  Shards (Config.Hub (app_cfg app)) < 2 ^ 32 → EventLanes (Config.Hub (app_cfg app)) < 2 ^ 32 → mem_wf m →
  sys_inv (app_processor app) (boot app m) ∧ 0 < drainTimeout (app_dispatcher app).
Proof.
  intros (_ & _ & _ & _ & _ & Eh & Ed)%start_inversion Hs Hn Hm. split.
  - apply sys_inv_fresh; rewrite ?Ed; try done.
    + by eapply init_hub_inv.
    + eapply lstep_inv; [by apply set_drain_timeout|by apply NewDispatcher_inv].
    + apply new_lanes_empty.
  - rewrite Ed. simpl. unfold drainBudget. case_decide; [done|lia].
Qed.
End boot.

(** *** What can stop the program *)
Lemma init_bus_total c : is_Some (init_bus c).
Proof.
  unfold init_bus. case_decide; [|case_decide; simpl; eauto]. destruct (Valkey.NewBus _ _ _ _ _); [|eauto].
  destruct (Valkey.Subscribe _ _) as [[[? ?] ?]|]; eauto.
Qed.
Lemma init_hub_total c : is_Some (init_hub c).
Proof.
  unfold init_hub, SetObservabilityCallbacks, StartHeartbeat. destruct (MetricsEnabled c), (hb_Enabled (Heartbeat c)); simpl; try case_decide; simpl; eauto.
Qed.
Lemma init_metrics_total c : is_Some (init_metrics c).
Proof.
  unfold init_metrics. destruct (MetricsEnabled c); [|eauto]. destruct new_metrics as (m & -> & _). simpl. eauto.
Qed.

(** The paths of a configuration are ordinary and distinct. *)
Definition paths_ok (c : Config) : Prop :=
  Forall literal_path (routes positive_rate c true).*1 ∧ NoDup (routes positive_rate c true).*1.

Lemma routes_metrics c metrics : ∃ rest, routes positive_rate c true = routes positive_rate c metrics ++ rest.
Proof.
  destruct metrics; [exists []; by rewrite app_nil_r|]. unfold routes. rewrite andb_true_r, andb_false_r, app_nil_r.
  exists (if MetricsEnabled c then [(MetricsPath (HTTP c), MetricsEndpoint)] else []). by rewrite <- !(assoc_L (++)).
Qed.

Lemma flags_codes args h v z : parse_flags args h v = Err z → z = 0 ∨ z = 2.
Proof.
  revert h v. induction args as [|s args IH]; intros h v; cbn [parse_flags]; [done|]. repeat case_decide; try done; try (intros [= <-]; auto);
    repeat (case_match; simplify_eq); intros; simplify_eq; eauto.
Qed.

Lemma start_panics now random :
  start now random = None →
  ∃ c, LoadConfig LookupEnv ReadFile ParseFloat f100 random = Ok c ∧ Validate c = Ok () ∧ ¬ paths_ok c.
Proof.
  unfold start. destruct (LoadConfig _ _ _ _ _) as [c|] eqn:El; [|done]. destruct (Validate c) as [[]|] eqn:Ev; [|done].
  intros Hstart. exists c. split; [done|]. split; [done|]. intros [Hl Hn]. revert Hstart.
  destruct (init_metrics_total c) as [metrics ->]. cbn [mbind option_bind].
  destruct (NewRouter_total (TopicTemplate c)) as (rr & -> & _). cbn [mbind option_bind]. destruct rr as [router|]; [|done].
  unfold assemble. destruct (init_validator now c); [|done]. destruct (init_unwrapper c) as [u|]; [|done].
  destruct (init_bus_total c) as [[b|] ->]; cbn [mbind option_bind]; [|done]. destruct (init_hub_total c) as [h ->]. cbn [mbind option_bind].
  unfold ApiRouter.NewRouter. destruct (routes_metrics c (bool_decide (is_Some metrics))) as [rest E]. set (rs := routes positive_rate c (bool_decide (is_Some metrics))) in *.
  rewrite E, fmap_app in Hl, Hn. apply Forall_app in Hl as [Hl _]. rewrite Forall_fmap in Hl. apply NoDup_app in Hn as (Hn & _ & _).
  change ([] : ServeMux Endpoint) with (literal_mux ([] : list (gostring * Endpoint))).
  rewrite (HandleAll_literal rs []) by (done || constructor). rewrite app_nil_r, decide_True; [done|].
  by rewrite <- (Permutation_rev rs).
Qed.


(** The container probe asks the port and the path the server serves, when
    the two variables are unset or hold no surrounding white space. *)
Theorem healthcheck_matches_server random c :
  LoadConfig LookupEnv ReadFile ParseFloat f100 random = Ok c →
  (∀ name v, LookupEnv name = Some v → v ≠ [] → TrimSpace v = v) →
  ∃ port, healthcheck_url = str "http://127.0.0.1:" ++ port ++ http_HealthPath (HTTP c)
    ∧ ParseInt port = Some (ListenPort (HTTP c)).
Proof.
  intros [-> Hok]%load_ok Htrim. destruct (load_http_part random) as [e ->].
  assert (setting_error LookupEnv ReadFile ParseFloat (SInt "SSE_HTTP_LISTEN_PORT") = None) as Hport.
  { rewrite Forall_forall in Hok. apply Hok, list_elem_of_In. simpl. auto. }
  rewrite load_port, load_health_path. unfold bindEnv, envValue, getEnv, healthcheck_url, Getenv.
  unfold setting_error, malformed in Hport.
  assert (∀ name (d : gostring), match LookupEnv name with
                     | Some v => if decide (TrimSpace v = []) then d else TrimSpace v
                     | None => d end = (if decide (default [] (LookupEnv name) = []) then d else default [] (LookupEnv name))) as Hraw.
  { intros name d. destruct (LookupEnv name) as [v|] eqn:E; simpl; [|done].
    destruct (decide (v = [])) as [->|Hv]; [done|]. by rewrite (Htrim _ _ E Hv), decide_False. }
  rewrite Hraw. eexists. split; [done|].
  destruct (LookupEnv (str "SSE_HTTP_LISTEN_PORT")) as [v|] eqn:E; simpl; [|by vm_compute].
  destruct (decide (v = [])) as [->|Hv]; [by vm_compute|]. rewrite (Htrim _ _ E Hv) in *.
  rewrite decide_False in Hport by done. rewrite !decide_False by done. unfold Atoi. by destruct (ParseInt v).
Qed.
End start.

(** ** A concrete start: HMAC tickets, everything else by default *)
Definition demo_environment (name : gostring) : option gostring :=
  if decide (name = str "SSE_AUTH_JWT_ALGORITHM") then Some (str "hs256")
  else if decide (name = str "SSE_AUTH_JWT_SECRET_KEY") then Some (str "s3cret") else None.

Definition start_with (production_build : bool) (LookupEnv : gostring → option gostring) : option (result StartErr (@App Z list_registry nat)) :=
  start (Float := Z) (Pool := nat) (Cert := nat) LookupEnv (λ _, None) (λ _, None) 100 (λ r, bool_decide (0 < r)) (λ _, None)
    (λ _ _, None) (λ _, None) (λ _, None) (λ _, None) (λ _, None) (λ _, true) production_build 0
    (str "01234567").

Lemma demo_starts : ∃ app, start_with true demo_environment = Some (Ok app)
  ∧ Shards (Config.Hub (app_cfg app)) = 256 ∧ EventLanes (Config.Hub (app_cfg app)) = 64
  ∧ StopAcceptingFirst (Shutdown (app_cfg app)) = true.
Proof.
  assert (match start_with true demo_environment with
          | Some (Ok app) => (Shards (Config.Hub (app_cfg app)) =? 256) && (EventLanes (Config.Hub (app_cfg app)) =? 64)
                             && StopAcceptingFirst (Shutdown (app_cfg app))
          | _ => false end = true) as H by (vm_compute; reflexivity).
  destruct (start_with true demo_environment) as [[app|]|]; [|done..]. exists app.
  apply andb_true_iff in H as [[?%Z.eqb_eq ?%Z.eqb_eq]%andb_true_iff ?]. done.
Qed.

(** With nothing set the program refuses to start: no verification key. *)
Lemma unset_environment_refused b : start_with b (λ _, None) = Some (Err (StartJWT ErrMissingKey)).
Proof.
  assert (match start_with b (λ _, None) with Some (Err (StartJWT ErrMissingKey)) => true | _ => false end = true) as H
    by (destruct b; vm_compute; reflexivity).
  revert H. by repeat case_match.
Qed.

Lemma production_start_is_safe_witness :
  ∃ app v, start_with true demo_environment = Some (Ok app) ∧ app_validator app = JWTDriver v.
Proof.
  destruct demo_starts as (app & E & _). exists app. pose proof E as Hsafe.
  eapply production_start_is_safe in Hsafe as [Hsafe _]. destruct Hsafe as (v & _ & Hv & _); [by right|eauto].
Defined.

(** Paths are not validated: an environment that passes every check of the
    configuration still panics when two endpoints share a path or when a path
    has no leading slash. *)
Definition with_health_path (path : string) (name : gostring) : option gostring :=
  if decide (name = str "SSE_HTTP_HEALTH_PATH") then Some (str path) else demo_environment name.

Lemma bad_paths_panic :
  start_with true (with_health_path "/readyz") = None ∧ start_with true (with_health_path "healthz") = None
  ∧ start_with true (with_health_path "/health check") = None.
Proof.
  split_and!; match goal with |- ?s = None => assert (match s with None => true | _ => false end = true) as H by (vm_compute; reflexivity);
    by destruct s end.
Qed.

Definition main_with (Get : gostring → option Z) (args : list gostring) : @Outcome Z list_registry nat :=
  main (Float := Z) (Pool := nat) (Cert := nat) demo_environment (λ _, None) (λ _, None) 100 (λ r, bool_decide (0 < r)) (λ _, None)
    (λ _ _, None) (λ _, None) (λ _, None) (λ _, None) (λ _, None) (λ _, true) true Get 0 (str "01234567") args.

Example main_flags :
  (λ args, match main_with (λ url, if decide (url = str "http://127.0.0.1:8080/healthz") then Some 200 else None) args with
           | Exited z => z | Panicked => 100 | Running _ => 200 end) <$>
    [[]; [str "-version"]; [str "--healthcheck"]; [str "-healthcheck=false"]; [str "-x"]; [str "-version=maybe"]; [str "-h"];
     [str "serve"; str "-version"]; [str "--"; str "-x"]; [str "---version"]]
  = [200; 0; 0; 200; 2; 2; 0; 200; 200; 2].
Proof. vm_compute. reflexivity. Qed.

