(* ===== verification/Process.v ===== *)
(** * The whole process

    [System.v] runs the event side of the program and [Server.v] its requests,
    each with the rest of the program as any sequence of hub calls.  Here they
    run together, on one hub, with what cmd/server/main.go puts around them: the
    signal, the HTTP server and its two-stage stop, the readiness probes with
    the real checkers, the heartbeat, the sampler of the queue gauge and the
    exit.  [proc_step] interleaves all of them.

    Of net/http's server: requests arrive until it is shut down; [Shutdown]
    returns nil when no request is in progress, or an error when the grace period
    is over, in which case [main] calls [srv.Close] and the handlers that are
    left go on until they notice.  [ListenAndServe] may fail before that, which
    ends the process.

    The process is simulated by [Server.v] and by [System.v] ([step_server],
    [step_system]), so that what is proved there holds here; the theorems below
    are about the composition. *)

From S2P Require Import Prelude GoStrings Hashutil Chan Frame Quota Client Shard Hub HubSpec HubBroadcast HubRevoke HubRun Router Crypto Json Bus Lanes Pipeline Auth ApiHttp ApiHandlers Server Probes Health System.

Local Open Scope Z_scope.

(** ** State *)

(** What the requests share, the hub apart. *)
Record Front := mkFront {
  f_sem : Z;
  f_shutting : bool;
  f_active : Z;
  f_total : Z;
  f_disconnected : Z;
}.
Definition gateway (h : Hub) (f : Front) : Gateway := mkGateway h (f_sem f) (f_shutting f) (f_active f) (f_total f) (f_disconnected f).
Definition front_of (g : Gateway) : Front :=
  mkFront (handshakeSem g) (isShuttingDown g) (ConnectionsActive g) (ConnectionsTotal g) (ClientsDisconnectedTotal g).

Record Proc := mkProc {
  sys : Sys;
  front : Front;
  requests : list Req;          (* the handlers of the event stream *)
  ready : World;                (* the readiness probe and its requests *)
  pending : bool;               (* a signal in [shutdownSignal] *)
  forced : bool;                (* [srv.Close] was called *)
  sampling : bool;              (* the sampler runs *)
  queueGauge : Z;               (* [EventLaneQueueDepth] *)
  exit : option Z;
}.

Definition server_of (P : Proc) : Server := (gateway (sys_hub (sys P)) (front P), requests P).
Definition stage (P : Proc) : main_pc := main (sys P).

Definition set_sys (S : Sys) (P : Proc) : Proc :=
  mkProc S (front P) (requests P) (ready P) (pending P) (forced P) (sampling P) (queueGauge P) (exit P).
Definition set_front (f : Front) (P : Proc) : Proc :=
  mkProc (sys P) f (requests P) (ready P) (pending P) (forced P) (sampling P) (queueGauge P) (exit P).
Definition set_requests (qs : list Req) (P : Proc) : Proc :=
  mkProc (sys P) (front P) qs (ready P) (pending P) (forced P) (sampling P) (queueGauge P) (exit P).
Definition set_ready (w : World) (P : Proc) : Proc :=
  mkProc (sys P) (front P) (requests P) w (pending P) (forced P) (sampling P) (queueGauge P) (exit P).
Definition set_pending (b : bool) (P : Proc) : Proc :=
  mkProc (sys P) (front P) (requests P) (ready P) b (forced P) (sampling P) (queueGauge P) (exit P).
Definition set_forced (b : bool) (P : Proc) : Proc :=
  mkProc (sys P) (front P) (requests P) (ready P) (pending P) b (sampling P) (queueGauge P) (exit P).
Definition set_sampler (b : bool) (z : Z) (P : Proc) : Proc :=
  mkProc (sys P) (front P) (requests P) (ready P) (pending P) (forced P) b z (exit P).
Definition set_exit (z : Z) (P : Proc) : Proc :=
  mkProc (sys P) (front P) (requests P) (ready P) (pending P) (forced P) (sampling P) (queueGauge P) (Some z).

(** [srv.Shutdown] and [srv.Close] have returned. *)
Definition http_down (m : main_pc) : bool := match m with MServing | MRefusing => false | _ => true end.

(** A readiness request that has been answered. *)
Definition ready_done (q : rpc) : bool := match q with RShut | RServed _ _ _ => true | _ => false end.
(** No request in progress: what [Shutdown] waits for. *)
Definition idle (P : Proc) : bool :=
  forallb (λ q, match at_pc q with PEnd => true | _ => false end) (requests P) && forallb ready_done (pcs (ready P)).

(** The live connections after a stretch of a handler. *)
Definition live_after (q q' : pc) (L : list Client) : list Client :=
  match q, q' with
  | PAdmit _, POpen c => c :: L
  | PUnregister c, _ => filter (λ x, x ≠ c) L
  | _, _ => L
  end.

(** ** What a stretch of a handler does to the hub *)

(** Steps of a request that leave the hub and the shutdown flag alone. *)
Definition rest {A} (m : M Web A) : Prop :=
  ∀ w a w', m w = Some (a, w') → g_hub (w_gw w') = g_hub (w_gw w) ∧ isShuttingDown (w_gw w') = isShuttingDown (w_gw w).

Create HintDb rest.
Lemma rest_ret {A} (a : A) : rest (mret a).
Proof. intros w a' w' [= <- <-]. done. Qed.
Lemma rest_gets {A} (f : Web → A) : rest (gets f).
Proof. intros w a' w' [= <- <-]. done. Qed.
Lemma rest_bind {A B} (m : M Web A) (k : A → M Web B) : rest m → (∀ a, rest (k a)) → rest (m ≫= k).
Proof.
  intros Hm Hk w b w' (a & w1 & E1 & E2)%M_bind_inv. destruct (Hm _ _ _ E1) as [<- <-]. by eapply Hk.
Qed.
Lemma rest_writer {A} (m : M Writer A) : rest (on_writer m).
Proof. intros w a w' E1. unfold on_writer in E1. destruct (m (w_writer w)) as [[a' x]|]; by simplify_eq. Qed.
Lemma rest_gw f : (∀ g, g_hub (f g) = g_hub g ∧ isShuttingDown (f g) = isShuttingDown g) → rest (on_gw f).
Proof. intros Hf w a w' [= _ <-]. apply Hf. Qed.
#[local] Hint Resolve rest_ret rest_gets rest_bind rest_writer : rest.
#[local] Hint Extern 1 (rest (on_gw _)) => apply rest_gw; intros g; by destruct g : rest.
#[local] Hint Extern 1 (rest (if ?b then _ else _)) => destruct b : rest.
#[local] Hint Extern 1 (rest (match ?x with _ => _ end)) => destruct x : rest.

Lemma rest_opened cfg : rest (on_gw (conn_opened cfg)).
Proof. apply rest_gw. intros g. unfold conn_opened. by destruct (has_metrics cfg). Qed.
Lemma rest_closed cfg : rest (on_gw (conn_closed cfg)).
Proof. apply rest_gw. intros g. unfold conn_closed. by destruct (has_metrics cfg). Qed.
Lemma rest_slot cfg : rest (acquire_slot cfg).
Proof. intros w a w' E1. unfold acquire_slot in E1. case_decide; by simplify_eq. Qed.
Lemma rest_limits t u n : rest (on_whub (CheckLimits t u n)).
Proof.
  intros [g wr] a w' E1. unfold on_whub in E1. cbn [w_gw w_writer] in E1. destruct (CheckLimits t u n (g_hub g)) as [[r h]|] eqn:E2; [|done].
  simplify_eq. unfold CheckLimits, mbind, M_bind, gets, mret, M_ret in E2. repeat case_match; by simplify_eq.
Qed.
#[local] Hint Resolve rest_opened rest_closed rest_slot rest_limits : rest.

Lemma rest_refuse code m d : rest (refuse code m d).
Proof. unfold refuse. auto 10 with rest. Qed.
#[local] Hint Resolve rest_refuse : rest.
Lemma rest_start cfg r : rest (events_start cfg r).
Proof. unfold events_start. auto 15 with rest. Qed.
Lemma rest_ticket `{!TicketValidator} cfg now r : rest (admit_ticket cfg now r).
Proof. unfold admit_ticket. auto 15 with rest. Qed.
Lemma rest_open cfg now ok c : rest (events_open cfg now ok c).
Proof. unfold events_open. auto 20 with rest. Qed.
Lemma rest_leave cfg c : rest (leave_loop cfg c).
Proof. unfold leave_loop. auto with rest. Qed.
#[local] Hint Resolve rest_leave : rest.

Lemma on_whub_inv {A} (m : M Hub A) w a w' :
  on_whub m w = Some (a, w') →
  ∃ h', m (g_hub (w_gw w)) = Some (a, h') ∧ w' = mkWeb (set_hub h' (w_gw w)) (w_writer w).
Proof. unfold on_whub. destruct (m _) as [[a' h']|]; [|done]. intros ?; simplify_eq. eauto. Qed.

Lemma on_client_reads {A} c (f : ClientState → A) h a h' : on_client c (gets f) h = Some (a, h') → h' = h.
Proof.
  unfold on_client, gets. destruct (store h !! ptr c) as [s|] eqn:E1; [|done]. intros [= _ <-].
  destruct h; unfold upd_store; simpl in *. by rewrite insert_id.
Qed.

Section process.
Context `{!GoRange, !KeyUnwrapper, !TicketValidator} (p : Processor) (InvalidationEventType : gostring).
Context (cfg : HandlerConfig) (StopAcceptingFirst : bool).
(** The checkers, and the states of the dependencies at a stage of [main]. *)
Context {E : Type} (checkers : list (option (Checker E))) (deps : main_pc → E → Prop).

(** A step of [main]: it waits for the signal, then refuses new streams if so
    configured; the HTTP server stops when it is idle ([late] false) or when the
    grace period is over. *)
Definition main_guard (late : bool) (P : Proc) : bool :=
  match stage P with
  | MServing => pending P
  | MRefusing => late || idle P
  | _ => true
  end.
Definition main_effect (late : bool) (P : Proc) : Proc :=
  match stage P with
  | MServing =>
      let P := set_pending false P in
      if StopAcceptingFirst then set_front (mkFront (f_sem (front P)) true (f_active (front P)) (f_total (front P)) (f_disconnected (front P))) P
      else P
  | MRefusing => set_forced late P
  | _ => P
  end.

(** The sampler: a tick, or the end of the context. *)
Definition sample (done : bool) (P : Proc) : Proc :=
  if done then set_sampler false (queueGauge P) P else set_sampler true (queueDepth (disp (sys P))) P.

(** [ListenAndServe] returned an error other than [ErrServerClosed]. *)
Definition listen_fails (P : Proc) : Proc := set_exit 1 P.

Inductive proc_step : Proc → Proc → Prop :=
(** Consumer, lanes, [dispatcher.Close()]. *)
| pr_core P S' : exit P = None → core_step p InvalidationEventType (sys P) S' → proc_step P (set_sys S' P)
(** A request for the stream, and a stretch of its handler. *)
| pr_arrive P r w :
    exit P = None → http_down (stage P) = false ∨ forced P = true →
    proc_step P (set_requests (requests P ++ [mkReq r PStart w]) P)
| pr_handle P i q x q' g' w' :
    exit P = None → requests P !! i = Some q → fresh_choice x (server_of P) →
    handler_step cfg (pr_router p) (req q) x (at_pc q) (mkWeb (server_of P).1 (req_writer q)) = Some (q', mkWeb g' w') →
    proc_step P (set_requests (<[i := mkReq (req q) q' w']> (requests P))
                  (set_front (front_of g') (set_sys (set_hub_of (live_after (at_pc q) q' (live (sys P))) (g_hub g') (sys P)) P)))
(** Readiness requests. *)
| pr_ready P w :
    exit P = None → (length (pcs w) = length (pcs (ready P)) ∨ http_down (stage P) = false ∨ forced P = true) →
    probe_step (λ b, b = f_shutting (front P)) (possible_answers (deps (stage P)) checkers) (ready P) w →
    proc_step P (set_ready w P)
(** A tick of a heartbeat loop. *)
| pr_heartbeat P ctx h' :
    exit P = None → heartbeat_tick ctx (sys_hub (sys P)) = Some ((), h') →
    proc_step P (set_sys (set_hub_of (live (sys P)) h' (sys P)) P)
(** The sampler. *)
| pr_sample P :
    exit P = None → sampling P = true → proc_step P (sample false P)
| pr_sampler_stops P :
    exit P = None → sampling P = true → bus_cancelled (stage P) = true → proc_step P (sample true P)
(** A signal; a failure of [ListenAndServe]. *)
| pr_signal P : exit P = None → proc_step P (set_pending true P)
| pr_listen_fails P : exit P = None → http_down (stage P) = false → proc_step P (listen_fails P)
(** [main]. *)
| pr_main P late m L' h' :
    exit P = None → main_guard late P = true → main_next (sys P) = Some (m, L', h') →
    proc_step P (set_sys (set_main m L' h' (sys P)) (main_effect late P))
| pr_exit P : exit P = None → stage P = MStopped → proc_step P (set_exit 0 P).

(** ** What the event side does to the hub *)

(** The hub is unchanged, or one call other than a request's was made. *)
Definition hub_call (x y : list Client * Hub) : Prop :=
  y = x ∨ ∃ op, internal_call op ∧ exec op x.1 x.2 = Some y.

Lemma HasSubscribers_reads k h b h' : HasSubscribers k h = Some (b, h') → h' = h.
Proof. unfold HasSubscribers, mbind, M_bind, getShard, read_shard. repeat case_match; intros; by simplify_eq. Qed.

(** A broadcast does to the hub what its result alone would do. *)
Lemma broadcast_call {X Er} k (decrypt : M X (result Er (option Frame))) h x a h' x' :
  ConditionalBroadcast k decrypt (h, x) = Some (a, (h', x')) →
  ∃ r a', ConditionalBroadcast k (mret r : M () (result () (option Frame))) (h, ()) = Some (a', (h', ())).
Proof.
  unfold ConditionalBroadcast, on_hub, on_env, mbind, M_bind, mret, M_ret. cbn [fst snd].
  destruct (getShard k h) as [[i h1]|]; [|done]. cbn [fst snd]. destruct (read_shard i (GetRecipients k) h1) as [[rs h2]|]; [|done].
  cbn [fst snd]. destruct (decide (rs = [])) as [Hrs|Hrs]; [intros ?; simplify_eq; by exists (Ok None), (Ok 0)|].
  cbn [fst snd]. destruct (decrypt x) as [[[[frame|]|e] x1]|]; cbn [fst snd]; [| | |done].
  - intros E1. exists (Ok (Some frame)). cbn [fst snd]. destruct (enqueue_all rs frame h2) as [[n h3]|]; [|done]. cbn [fst snd] in *.
    destruct (modify _ h3) as [[u h4]|]; [|done]. simplify_eq/=. eauto.
  - intros ?; simplify_eq. by exists (Ok None), (Ok 0).
  - intros ?; simplify_eq. by exists (Err ()), (Err ()).
Qed.

Lemma consume_call ev L h s r L' h' s' :
  consume p InvalidationEventType ev L h s = Some (r, L', h', s') → hub_call (L, h) (L', h').
Proof.
  unfold consume. destruct (negb (IsSchemaSupported ev)); [intros ?; simplify_eq; by left|]. case_decide.
  - destruct (InvalidateUser _ _ h) as [[n h1]|] eqn:E1; [|done]. intros ?; simplify_eq/=. right.
    exists (CInvalidate (ee_TenantID ev) (ee_UserID ev)). split; [done|]. simpl. unfold mbind, M_bind. by rewrite E1.
  - destruct (HasSubscribers _ h) as [[has h1]|] eqn:E1; [|done]. apply HasSubscribers_reads in E1 as ->. simpl.
    destruct has; intros ?; simplify_eq; by left.
Qed.

Lemma HandleEvent_call ev L h s h' s' : HandleEvent p ev (h, s) = Some ((), (h', s')) → hub_call (L, h) (L, h').
Proof.
  unfold HandleEvent, mbind, M_bind. destruct (ConditionalBroadcast _ _ (h, s)) as [[r [h1 s1]]|] eqn:E1; [|done]. intros E2.
  assert (h1 = h') as ->. { unfold on_env, mret, M_ret in E2. repeat case_match; by simplify_eq/=. }
  apply broadcast_call in E1 as (r' & a' & E1). right. exists (CBroadcast (event_key p ev) r'). split; [done|]. simpl. by rewrite E1.
Qed.

Lemma core_call S S' :
  core_step p InvalidationEventType S S' → hub_call (live S, sys_hub S) (live S', sys_hub S') ∧ main S' = main S.
Proof.
  intros [S1 ev L' h' s' Hc E1|S1 ev ev' L' h' s' Hc E1|S1 i q q' d'|S1 i ok ev|S1|S1 i l l' z|S1 i l ev l' z h' s' Hl Hw Ha E1|S1 expired d'];
    (split; [|done]); simpl; try (by left); [by eapply consume_call..|by eapply HandleEvent_call].
Qed.
(** ** Simulations *)

Lemma hub_call_hub x y : hub_call x y → rtc hub_step x y.
Proof.
  destruct x as [L h], y as [L' h']. intros [[= -> ->]|(op & Hop & E1)]; [done|]. apply rtc_once, (do_call op); [by destruct op|done].
Qed.

Lemma hub_call_server L h L' h' f qs :
  hub_call (L, h) (L', h') → rtc (server_step cfg (pr_router p)) (gateway h f, qs) (gateway h' f, qs).
Proof.
  intros [[= -> ->]|(op & Hop & E1)]; [done|]. destruct (exec_any op L [] h _ Hop E1) as [L0 E2]. cbn [snd] in E2.
  apply rtc_once. apply (other cfg (pr_router p) (gateway h f) qs op L0 h'); [done|]. exact E2.
Qed.

Lemma NewClient_again q id u t topics n policy cb c s :
  Client.NewClient q id u t topics n policy cb = (c, s) →
  ptr c = q ∧ ID c = id ∧ (c, s) = Client.NewClient (ptr c) (ID c) (UserID c) (TenantID c) (Topics c) n (SlowPolicy c) cb.
Proof.
  unfold Client.NewClient. intros [= <- <-]. simpl. split_and!; [done..|]. destruct (decide (policy = [])); [done|]. by rewrite (decide_False (P := policy = [])).
Qed.

(** A stretch is at most one call on the hub, with the announced effect on the
    live connections. *)
Lemma handler_hub L r x q g wr q' g' wr' :
  handler_step cfg (pr_router p) r x q (mkWeb g wr) = Some (q', mkWeb g' wr') →
  pc_granted cfg (pr_router p) r q → (∀ c, owner q = Some c → live_or_gone L (g_hub g) c) →
  store (g_hub g) !! ch_ptr x = None → hex_EncodeToString (ch_random x) ∉ ID <$> L →
  rtc hub_step (L, g_hub g) (live_after q q' L, g_hub g') ∧ isShuttingDown g' = isShuttingDown g.
Proof.
  intros E1 Hg Ho Hp Hid.
  assert (∀ m : M Web pc, rest m → m (mkWeb g wr) = Some (q', mkWeb g' wr') → g_hub g' = g_hub g ∧ isShuttingDown g' = isShuttingDown g)
    as Hrest by (intros m Hm Em; exact (Hm _ _ _ Em)).
  destruct q as [| |cap|c|c|c|]; cbn [handler_step live_after] in *.
  - destruct (Hrest _ (rest_start cfg r) E1) as [-> ->]. done.
  - destruct (Hrest _ (rest_ticket cfg _ r) E1) as [-> ->]. done.
  - unfold admit_register in E1. destruct (admitted_client cfg (pr_router p) (ch_ptr x) (ch_random x) cap) as [c s] eqn:Ec.
    apply M_bind_inv in E1 as ([] & w1 & (h1 & Ea & ->)%on_whub_inv & E1). cbn [w_gw w_writer] in *.
    apply M_bind_inv in E1 as (reg & w2 & (h2 & Er & ->)%on_whub_inv & E1). cbn [w_gw w_writer g_hub set_hub] in *.
    assert (callable (CConnect c s) L (g_hub g)) as Hcall.
    { destruct Hg as (now & Hv). pose proof (admitted_topics cfg (pr_router p) (ch_ptr x) (ch_random x) cap now _ Hv) as Ht. rewrite Ec in Ht.
      apply NewClient_again in Ec as (Hptr & HID & Ec). simpl in Ht.
      split_and!; [by rewrite Hptr|by rewrite HID|done|by eexists _, _]. }
    assert (exec (CConnect c s) L (g_hub g) = Some (if is_ok reg then c :: L else L, h2)) as Hex.
    { simpl. unfold mbind, M_bind. rewrite Ea, Er. done. }
    destruct reg as [[]|e]; simpl in Hex.
    + apply M_bind_inv in E1 as ([] & w3 & E2 & E1). injection E2 as <-. injection E1 as <- <- <-. split; [|done].
      apply rtc_once. by apply (do_call (CConnect c s)).
    + destruct (rest_refuse _ _ _ _ _ _ E1) as [Eh Es]. cbn [w_gw set_hub g_hub isShuttingDown] in Eh, Es. rewrite Eh, Es. split; [|done].
      assert (live_after (PAdmit cap) q' L = L) as Hla.
      { unfold refuse in E1. apply M_bind_inv in E1 as (? & ? & _ & E1). apply M_bind_inv in E1 as (? & ? & _ & E1). by injection E1 as <-. }
      cbn [live_after] in Hla. rewrite Hla. apply rtc_once. by apply (do_call (CConnect c s)).
  - destruct (Hrest _ (rest_open cfg _ _ c) E1) as [-> ->]. done.
  - assert (∀ h1 (m : M Web pc), rest m → m (mkWeb (set_hub h1 g) wr) = Some (q', mkWeb g' wr') →
              g_hub g' = h1 ∧ isShuttingDown g' = isShuttingDown g) as Hgo by (intros h1 m Hm Em; exact (Hm _ _ _ Em)).
    unfold events_select in E1. destruct (ch_case x).
    + destruct (Hrest _ (rest_leave cfg c) E1) as [-> ->]. done.
    + apply M_bind_inv in E1 as (d & w1 & (h1 & Ed%on_client_reads & ->)%on_whub_inv & E1). cbn [w_gw w_writer] in *. subst h1.
      edestruct Hgo as [-> ->]; [|exact E1|done]. auto with rest.
    + apply M_bind_inv in E1 as (res & w1 & (h1 & Et & ->)%on_whub_inv & E1). cbn [w_gw w_writer] in *.
      edestruct Hgo as [-> ->]; [|exact E1|]; [destruct res; auto 20 with rest|]. split; [|done].
      apply rtc_once, (do_call (CTake c)); [by apply Ho|]. cbn [exec]. unfold mbind, M_bind. by rewrite Et.
  - apply M_bind_inv in E1 as ([] & w1 & (h1 & Eu & ->)%on_whub_inv & E1). injection E1 as <- <- <-. cbn [w_gw w_writer g_hub set_hub] in *.
    split; [|done]. apply rtc_once. apply (do_call (CUnregister c)); [by apply Ho|]. cbn [exec]. unfold mbind, M_bind. by rewrite Eu.
  - injection E1 as <- <- <-. done.
Qed.
Lemma main_next_call S m L' h' : main_next S = Some (m, L', h') → hub_call (live S, sys_hub S) (L', h').
Proof.
  unfold main_next. destruct (main S); repeat case_match; intros ?; simplify_eq; try (by left).
  destruct (Hub.Close (sys_hub S)) as [[[] h1]|] eqn:Eh; [|done]. simplify_eq/=. right. exists CClose. split; [done|].
  cbn [exec fst snd]. unfold mbind, M_bind. by rewrite Eh.
Qed.

(** A closed hub has told every connection, and the hub is closed once [main]
    has stopped. *)
Definition hub_told (S : Sys) : Prop :=
  closed_told (live S, sys_hub S) ∧ (main S = MStopped → hub_closed (sys_hub S) = true).

Lemma hub_call_told x y : hub_call x y → run_inv x → closed_told x → closed_told y.
Proof. intros Hc. by apply closed_told_steps, hub_call_hub. Qed.

(** Only [Close] closes, nothing opens. *)
Lemma hub_step_closed x y : hub_step x y → hub_closed x.2 = true → hub_closed y.2 = true.
Proof.
  intros [op L h L' h' Hc E1] Hcl. destruct (closes op) eqn:Ecl; [|by apply (call_later op L h L' h' Hc Ecl E1)].
  destruct op; try done. apply M_bind_inv in E1 as ([] & h1 & Eh & [= <- <-]). simpl in *. rewrite hub_Close_idempotent in Eh by done. by simplify_eq.
Qed.
Lemma hub_steps_closed x y : rtc hub_step x y → hub_closed x.2 = true → hub_closed y.2 = true.
Proof. induction 1 as [|x y z Hxy _ IH]; [done|]. intros Hx. by eapply IH, hub_step_closed. Qed.

Lemma sys_step_told S S' : sys_step p InvalidationEventType S S' → sys_inv p S → hub_told S → hub_told S'.
Proof.
  intros Hs Hi [Ht Hm]. pose proof (y_hub _ _ Hi) as Hr. destruct Hs as [S S' Hc|S m L' h' E1|S L' h' Hh].
  - apply core_call in Hc as [Hc Em]. split; [by eapply hub_call_told|]. rewrite Em. intros Hst. eapply (hub_steps_closed _ _ (hub_call_hub _ _ Hc)). by apply Hm.
  - split; [apply (hub_call_told _ _ (main_next_call _ _ _ _ E1)); done|]. simpl. intros ->. unfold main_next in E1.
    destruct (main S); repeat case_match; simplify_eq. destruct (Hub.Close (sys_hub S)) as [[[] h1]|] eqn:Eh; [|done]. simplify_eq/=.
    by destruct (Close_told (live S) (sys_hub S) h' Hr Ht Eh).
  - split; [by eapply closed_told_step|]. intros Hst. apply (hub_step_closed _ _ Hh). by apply Hm.
Qed.
Lemma sys_steps_told S S' : rtc (sys_step p InvalidationEventType) S S' → sys_inv p S → hub_told S → hub_told S'.
Proof.
  induction 1 as [|x y z Hxy _ IH]; [done|]. intros Hi Ht. apply IH; [by eapply sys_step_inv|by eapply sys_step_told].
Qed.

Lemma heartbeat_call ctx L h h' : heartbeat_tick ctx h = Some ((), h') → hub_call (L, h) (L, h').
Proof.
  unfold heartbeat_tick, mbind, M_bind, gets. destruct (heartbeats h !! ctx) as [frame|]; [|intros [= <-]; by left].
  intros Eb. right. exists (CHeartbeat frame). split; [done|]. cbn [exec fst snd]. unfold mbind, M_bind. by rewrite Eb.
Qed.

Lemma hub_steps_system S L' h' :
  rtc hub_step (live S, sys_hub S) (L', h') → rtc (sys_step p InvalidationEventType) S (set_hub_of L' h' S).
Proof.
  intros Hr. remember (live S, sys_hub S) as x eqn:Hx. remember (L', h') as y eqn:Hy. revert S Hx L' h' Hy.
  induction Hr as [x|x [L1 h1] y Hxy _ IH]; intros S -> L' h' Hy.
  - injection Hy as <- <-. by destruct S.
  - eapply rtc_l; [by apply s_hub|]. apply (IH (set_hub_of L1 h1 S)); done.
Qed.

(** The live connections are determined by the hub. *)
Lemma live_ext L L' h c : run_inv (L, h) → run_inv (L', h) → c ∈ L → c ∈ L'.
Proof.
  intros [Hi Ht] [Hi' _] Hc. simpl in *. destruct (Topics c) as [|k ks] eqn:Ek; [by apply Ht in Hc|].
  destruct (recipients_spec L h k Hi) as (rs & E1 & Hp). destruct (recipients_spec L' h k Hi') as (rs' & E2 & Hp').
  rewrite E1 in E2. injection E2 as <-. apply (subscribers_sub L' k). rewrite <- Hp', Hp. apply list_elem_of_filter. split; [|done].
  rewrite Ek. left.
Qed.

Lemma srv_inv_live L S : srv_inv cfg (pr_router p) S → run_inv (L, g_hub S.1) → srv_inv_at cfg (pr_router p) L S.
Proof.
  intros [L0 [I1 I2 I3 I4 I5 I6 I7]] Hr. split; [done| | |done..].
  - intros c Hc. apply I2. by apply (live_ext L L0 _ c Hr I1).
  - intros q c Hq Ho. destruct (I3 q c Hq Ho) as [Hc|?]; [left; by apply (live_ext L0 L _ c I1 Hr)|by right].
Qed.

Definition both_inv (P : Proc) : Prop := sys_inv p (sys P) ∧ srv_inv_at cfg (pr_router p) (live (sys P)) (server_of P).

Lemma handle_hub P i q x q' g' w' :
  both_inv P → requests P !! i = Some q → fresh_choice x (server_of P) →
  handler_step cfg (pr_router p) (req q) x (at_pc q) (mkWeb (server_of P).1 (req_writer q)) = Some (q', mkWeb g' w') →
  rtc hub_step (live (sys P), sys_hub (sys P)) (live_after (at_pc q) q' (live (sys P)), g_hub g') ∧ isShuttingDown g' = f_shutting (front P).
Proof.
  intros [_ Hv] Hq [Hp Hid] E1. apply list_elem_of_lookup_2 in Hq. refine (handler_hub (live (sys P)) _ _ _ _ _ _ _ _ E1 _ _ _ _).
  - by apply (si_granted _ _ _ _ Hv).
  - intros c Ho. by apply (si_owner _ _ _ _ Hv q).
  - done.
  - intros (c & Ec & Hc)%list_elem_of_fmap. destruct (si_owned _ _ _ _ Hv c Hc) as (q0 & Hq0 & Ho). by apply (Hid q0 c Hq0 Ho).
Qed.

(** One step of the process, seen by each side. *)
Lemma step_sides P P' :
  proc_step P P' → both_inv P →
  rtc (sys_step p InvalidationEventType) (sys P) (sys P') ∧ rtc (server_step cfg (pr_router p)) (server_of P) (server_of P').
Proof.
  intros Hs [Hi Hv]. destruct Hs as [P S' Hx Hc|P r w Hx Hd|P i q x q' g' w' Hx Hq Hf E1|P w Hx Hn Hr|P ctx h' Hx Ht| | | | |P late m L' h' Hx Hg E1|];
    try (by split; apply rtc_refl).
  - split; [by apply rtc_once, s_core|]. apply core_call in Hc as [Hc _]. by eapply hub_call_server.
  - split; [done|]. apply rtc_once. apply arrive.
  - destruct (handle_hub P i q x q' g' w' (conj Hi Hv) Hq Hf E1) as [Hr _].
    split; [by apply hub_steps_system|]. apply rtc_once. unfold server_of. simpl.
    replace (gateway (g_hub g') (front_of g')) with g' by (by destruct g'). by eapply handle.
  - apply heartbeat_call with (L := live (sys P)) in Ht. split; [by apply hub_steps_system, hub_call_hub|]. by eapply hub_call_server.
  - split; [by apply rtc_once, s_main|]. apply main_next_call in E1.
    assert (rtc (server_step cfg (pr_router p)) (server_of P) (gateway h' (front P), requests P)) as Hh by (by eapply hub_call_server).
    etrans; [exact Hh|]. unfold server_of, main_effect. simpl. destruct (stage P); try done. destruct StopAcceptingFirst; [|done].
    apply rtc_once, (shut_down cfg (pr_router p) (gateway h' (front P)) _ true).
Qed.

Lemma step_both P P' : proc_step P P' → both_inv P → both_inv P'.
Proof.
  intros Hs Hb. destruct (step_sides P P' Hs Hb) as [Hsys Hsrv]. destruct Hb as [Hi Hv].
  assert (sys_inv p (sys P')) as Hi' by (by eapply sys_inv_steps). split; [done|]. apply srv_inv_live; [|apply Hi'].
  assert (srv_inv cfg (pr_router p) (server_of P)) as Hv' by (by eexists). revert Hv'. clear -Hsrv.
  induction Hsrv as [|x y z Hxy _ IH]; [done|]. intros Hx. apply IH. by eapply server_step_inv.
Qed.
(** ** Invariant *)
Record proc_inv (P : Proc) : Prop := {
  pv_both : both_inv P;
  pv_refusing : StopAcceptingFirst = true → stage P ≠ MServing → f_shutting (front P) = true;
  pv_drained : http_down (stage P) = true → forced P = false → idle P = true;
  pv_exit : match exit P with
            | None => True
            | Some z => z = 1 ∧ http_down (stage P) = false ∨ z = 0 ∧ stage P = MStopped
            end;
  pv_sampler : sampling P = false → bus_cancelled (stage P) = true ∨ has_metrics cfg = false;
  pv_probe : probe_inv (ready P);
  pv_runs r : r ∈ runs (ready P) → possible_answers (λ e, ∃ m, deps m e) checkers (run_answers r);
}.

Lemma idle_spec P :
  idle P = true ↔ (∀ q, q ∈ requests P → at_pc q = PEnd) ∧ (∀ q, q ∈ pcs (ready P) → ready_done q = true).
Proof.
  unfold idle. rewrite andb_true_iff, !forallb_forall. setoid_rewrite <- list_elem_of_In. split; intros [Ha Hr]; (split; [|done]); intros q Hq.
  - specialize (Ha q Hq). by destruct (at_pc q).
  - by rewrite (Ha q Hq).
Qed.

(** With nothing in progress only new requests could start something. *)
Lemma idle_ready flag possible w w' :
  probe_step flag possible w w' → length (pcs w') = length (pcs w) →
  (∀ q, q ∈ pcs w → ready_done q = true) → ∀ q, q ∈ pcs w' → ready_done q = true.
Proof.
  intros Hs Hn Hd q Hq. destruct Hs as [t t' s ps rs Ht|t s ps rs|t s ps rs i b Hi Hb|t s ps rs i q' s' Hi Hl|t s ps rs i t0 answers Hi Ha]; simpl in *.
  - auto.
  - rewrite length_app in Hn. simpl in Hn. lia.
  - by specialize (Hd RStart (list_elem_of_lookup_2 _ _ _ Hi)).
  - by specialize (Hd RWait (list_elem_of_lookup_2 _ _ _ Hi)).
  - by specialize (Hd (RProbe t0) (list_elem_of_lookup_2 _ _ _ Hi)).
Qed.

Lemma step_runs (possible : Answers → Prop) flag w w' r :
  probe_step flag possible w w' → r ∈ runs w' → r ∈ runs w ∨ possible (run_answers r).
Proof. intros [] Hr; simpl in *; auto. apply elem_of_cons in Hr as [->|Hr]; auto. Qed.

(** How [main]'s stages move. *)
Lemma main_next_stage S m L' h' :
  main_next S = Some (m, L', h') →
  (main S = MServing ∧ m = MRefusing) ∨ (main S = MRefusing ∧ m = MHttpDown)
  ∨ (http_down (main S) = true ∧ http_down m = true ∧ (bus_cancelled (main S) = true → bus_cancelled m = true)).
Proof. unfold main_next. destruct (main S); repeat case_match; intros ?; simplify_eq; auto; by destruct (Hub.Close _) as [[]|]; simplify_eq/=; auto. Qed.

Lemma main_effect_same late P :
  requests (main_effect late P) = requests P ∧ ready (main_effect late P) = ready P ∧ sampling (main_effect late P) = sampling P
  ∧ exit (main_effect late P) = exit P ∧ queueGauge (main_effect late P) = queueGauge P.
Proof. unfold main_effect. destruct (stage P); try done. by destruct StopAcceptingFirst. Qed.

Lemma idle_same P P' : requests P' = requests P → ready P' = ready P → idle P' = idle P.
Proof. unfold idle. by intros -> ->. Qed.

(** The part of the invariant a step of [main] changes. *)
Lemma main_effect_inv P late m L' h' :
  proc_inv P → main_guard late P = true → main_next (sys P) = Some (m, L', h') →
  (StopAcceptingFirst = true → m ≠ MServing → f_shutting (front (main_effect late P)) = true)
  ∧ (http_down m = true → forced (main_effect late P) = false → idle P = true)
  ∧ (sampling P = false → bus_cancelled m = true ∨ has_metrics cfg = false).
Proof.
  intros [_ Hre Hdr _ Hsa _ _] Hg E1. unfold main_guard, main_effect, stage in *.
  apply main_next_stage in E1 as [[Em ->]|[[Em ->]|(Hd & Hd' & Hbc)]]; rewrite ?Em in *; simpl in *.
  - split_and!; [by intros ->|done|]. intros Hs. destruct (Hsa Hs); [done|by right].
  - split_and!; [intros Ha _; by apply Hre|by intros _ ->|]. intros Hs. destruct (Hsa Hs); [done|by right].
  - destruct (main (sys P)); try done; (split_and!; [intros Ha _; by apply Hre|by intros _; apply Hdr|]);
      intros Hs; destruct (Hsa Hs); auto.
Qed.

Lemma proc_step_inv P P' : proc_step P P' → proc_inv P → proc_inv P'.
Proof.
  intros Hs Hi. assert (both_inv P') as Hb' by (eapply step_both; [done|apply Hi]). pose proof Hi as [Hb Hre Hdr Hex Hsa Hpr Hru].
  destruct Hs as [P S' Hx Hc|P r w Hx Hd|P i q x q' g' w' Hx Hq Hf E1|P w Hx Hn Hr|P ctx h' Hx Ht|P Hx Hsp|P Hx Hsp Hbc|P Hx|P Hx Hd
    |P late m L' h' Hx Hg E1|P Hx Hst]; (split; [done|clear Hb'..]); unfold stage in *; simpl in *; rewrite ?Hx; try done; auto.
  - apply core_call in Hc as [_ ->]. done.
  - apply core_call in Hc as [_ ->]. by rewrite (idle_same P).
  - apply core_call in Hc as [_ ->]. done.
  - intros Hdn Hfo. destruct Hd as [Hd|Hd]; congruence.
  - destruct (handle_hub P i q x q' g' w' Hb Hq Hf E1) as [_ ->]. done.
  - intros Hdn Hfo. specialize (Hdr Hdn Hfo). rewrite idle_spec in Hdr |- *. simpl. destruct Hdr as [Ha Hr]. split; [|done].
    pose proof (Ha q (list_elem_of_lookup_2 _ _ _ Hq)) as Hend. intros q0 [->|Hq0]%elem_of_insert; [|auto].
    rewrite Hend in E1. by injection E1 as <- _ _.
  - intros Hdn Hfo. specialize (Hdr Hdn Hfo). rewrite idle_spec in Hdr |- *. simpl. destruct Hdr as [Ha Hd]. split; [done|].
    eapply idle_ready; [exact Hr| |done]. destruct Hn as [?|[?|?]]; congruence.
  - by eapply probe_step_inv.
  - intros r Hin. destruct (step_runs _ _ _ _ r Hr Hin) as [?|Hp]; [auto|]. eapply Forall2_impl; [exact Hp|].
    intros c a (e & He & ->). eauto.
  - by apply (main_effect_inv P late m L' h').
  - destruct (main_effect_same late P) as (E2 & E3 & _). rewrite (idle_same P) by done. by apply (main_effect_inv P late m L' h').
  - destruct (main_effect_same late P) as (_ & _ & _ & -> & _). by rewrite Hx.
  - destruct (main_effect_same late P) as (_ & _ & -> & _). by apply (main_effect_inv P late m L' h').
  - by destruct (main_effect_same late P) as (_ & -> & _).
  - by destruct (main_effect_same late P) as (_ & -> & _).
Qed.

Lemma proc_inv_steps P P' : rtc proc_step P P' → proc_inv P → proc_inv P'.
Proof. induction 1 as [|x y z Hxy _ IH]; [done|]. intros Hx. apply IH. by eapply proc_step_inv. Qed.
(** ** Start, refusal, end *)
Definition start_proc (S : Sys) (t : Z) : Proc :=
  mkProc S (mkFront 0 false 0 0 0) [] (start_world t) false false (has_metrics cfg) 0 None.

Lemma start_proc_inv S t :
  sys_inv p S → live S = [] → main S = MServing → proc_inv (start_proc S t).
Proof.
  intros Hi Hl Hm. split; simpl; unfold stage; simpl; rewrite ?Hm; try done.
  - split; [done|]. simpl. rewrite Hl. pose proof (y_hub _ _ Hi) as Hh. rewrite Hl in Hh.
    split; simpl; [done|by intros ? ?%elem_of_nil|by intros ? ? ?%elem_of_nil|by intros ? ?%elem_of_nil|done| |by destruct (has_metrics cfg)].
    unfold sem_cap. case_decide; lia.
  - by right.
  - split; simpl; try done; by intros ? ?%elem_of_nil.
  - by intros ? ?%elem_of_nil.
Qed.

(** Of the requests that arrived after the first [n] streams and the first [k]
    probes, none was admitted. *)
Definition refused_after (n k : nat) (P : Proc) : Prop :=
  stage P ≠ MServing
  ∧ (∀ i q, requests P !! i = Some q → (n ≤ i)%nat → at_pc q = PStart ∨ at_pc q = PEnd)
  ∧ (∀ i q, pcs (ready P) !! i = Some q → (k ≤ i)%nat → q = RStart ∨ q = RShut).

Lemma refused_handler r x g wr q' g' wr' :
  isShuttingDown g = true → handler_step cfg (pr_router p) r x PStart (mkWeb g wr) = Some (q', mkWeb g' wr') → q' = PEnd.
Proof.
  intros Hs E1. cbn [handler_step] in E1. unfold events_start in E1. apply M_bind_inv in E1 as (b & w1 & [= <- <-] & E1).
  cbn [w_gw] in E1. rewrite Hs in E1. apply M_bind_inv in E1 as (? & ? & _ & E1). by injection E1 as <- _.
Qed.

Lemma refused_probe k (b : bool) possible w w' :
  b = true → probe_step (λ b', b' = b) possible w w' →
  (∀ i q, pcs w !! i = Some q → (k ≤ i)%nat → q = RStart ∨ q = RShut) →
  ∀ i q, pcs w' !! i = Some q → (k ≤ i)%nat → q = RStart ∨ q = RShut.
Proof.
  intros -> Hs Hi i q Hq Hk. destruct Hs as [t t' s ps rs Ht|t s ps rs|t s ps rs j b Hj ->|t s ps rs j q' s' Hj Hl|t s ps rs j t0 answers Hj Ha]; simpl in *.
  - eauto.
  - apply lookup_app_Some in Hq as [Hq|[_ Hq]]; [eauto|]. apply list_lookup_singleton_Some in Hq as [_ <-]. by left.
  - apply lookup_insert_cases in Hq as [[-> ->]|[_ Hq]]; [by right|eauto].
  - apply lookup_insert_cases in Hq as [[-> ->]|[_ Hq]]; [|eauto]. by destruct (Hi j _ Hj Hk).
  - apply lookup_insert_cases in Hq as [[-> ->]|[_ Hq]]; [|eauto]. by destruct (Hi j _ Hj Hk).
Qed.

Lemma refused_step n k P P' :
  StopAcceptingFirst = true → proc_inv P → proc_step P P' → refused_after n k P → refused_after n k P'.
Proof.
  intros Hst Hi Hs (Hm & Hq & Hr). pose proof (pv_refusing _ Hi Hst Hm) as Hf. unfold refused_after, stage in *.
  destruct Hs as [P S' Hx Hc|P r w Hx Hd|P i q x q' g' w' Hx Hqi Hfr E1|P w Hx Hn Hrs|P ctx h' Hx Ht|P Hx Hsp|P Hx Hsp Hbc|P Hx|P Hx Hd
    |P late m L' h' Hx Hg E1|P Hx Hst']; simpl; try done.
  - apply core_call in Hc as [_ ->]. done.
  - split_and!; [done| |done]. intros i q Hi' Hn. apply lookup_app_Some in Hi' as [Hi'|[_ Hi']]; [eauto|].
    apply list_lookup_singleton_Some in Hi' as [_ <-]. by left.
  - split_and!; [done| |done]. intros j q0 [[-> ->]|[_ Hj]]%lookup_insert_cases Hn; [|eauto]. simpl. right.
    destruct (Hq _ q Hqi Hn) as [Epc|Epc]; rewrite Epc in E1; [by eapply refused_handler, E1|by injection E1 as <- _ _].
  - split_and!; [done..|]. by apply (refused_probe k _ _ _ _ Hf Hrs).
  - destruct (main_effect_same late P) as (-> & -> & _). split_and!; [|done..].
    apply main_next_stage in E1 as [[? ->]|[[? ->]|(_ & Hd & _)]]; [done..|]. by intros ->.
Qed.

Lemma refused_steps n k P P' :
  StopAcceptingFirst = true → proc_inv P → rtc proc_step P P' → refused_after n k P → refused_after n k P'.
Proof.
  intros Hst Hi Hrun. revert Hi. induction Hrun as [|x y z Hxy _ IH]; [done|]. intros Hx Hr.
  apply IH; [by eapply proc_step_inv|by eapply refused_step].
Qed.

(** A signal ends the process from any state, whatever the requests do. *)
Lemma main_moves P m L' h' :
  exit P = None → main_next (sys P) = Some (m, L', h') →
  ∃ P', rtc proc_step P P' ∧ exit P' = None ∧ sys P' = set_main m L' h' (sys P).
Proof.
  intros Hx E1. set (P1 := set_pending true P). exists (set_sys (set_main m L' h' (sys P)) (main_effect true P1)).
  split_and!; [|cbn [exit set_sys]; by destruct (main_effect_same true P1) as (_ & _ & _ & -> & _)|done].
  eapply rtc_l; [by apply pr_signal|]. apply rtc_once, (pr_main P1 true m L' h'); [done| |done].
  unfold main_guard, stage. simpl. by destruct (main (sys P)).
Qed.

Lemma process_can_exit P : proc_inv P → exit P = None → ∃ P', rtc proc_step P P' ∧ exit P' = Some 0.
Proof.
  intros Hi Hx. remember (left_to_do (sys P)) as b eqn:Hb. revert P Hi Hx Hb.
  induction b as [b IH] using lt_wf_ind. intros P Hi Hx ->.
  destruct (decide (main_left (main (sys P)) = 0%nat)) as [Hz|Hz].
  { exists (set_exit 0 P). split; [|done]. apply rtc_once, pr_exit; [done|]. unfold stage. by destruct (main (sys P)). }
  destruct (shutdown_progress p InvalidationEventType (sys P) (proj1 (pv_both _ Hi))) as (S1 & [Hc|(m & L' & h' & E1 & ->)] & Hlt).
  { by intros Hm; rewrite Hm in Hz. }
  - destruct (IH _ Hlt (set_sys S1 P)) as (P2 & Hr & Hx2); [by eapply proc_step_inv; [apply pr_core|]|done..|].
    exists P2. split; [|done]. eapply rtc_l; [by apply pr_core|done].
  - destruct (main_moves P m L' h' Hx E1) as (P1 & Hr1 & Hx1 & Es). destruct (IH _ Hlt P1) as (P2 & Hr & Hx2); [|done|by rewrite Es|].
    { by eapply proc_inv_steps. }
    exists P2. split; [|done]. by etrans.
Qed.
(** Once the HTTP server is down it stays down, and [srv.Close] is not called
    any more. *)
Lemma down_step P P' : proc_step P P' → http_down (stage P) = true → http_down (stage P') = true ∧ forced P' = forced P.
Proof.
  intros Hs Hd. unfold stage in *.
  destruct Hs as [P S' Hx Hc|P r w Hx Hd'|P i q x q' g' w' Hx Hqi Hfr E1|P w Hx Hn Hrs|P ctx h' Hx Ht|P Hx Hsp|P Hx Hsp Hbc|P Hx|P Hx Hd'
    |P late m L' h' Hx Hg E1|P Hx Hst']; try done; simpl.
  - by apply core_call in Hc as [_ ->].
  - unfold main_effect, stage. apply main_next_stage in E1 as [[Em ->]|[[Em ->]|(_ & ? & _)]]; try (by rewrite Em in Hd).
    by destruct (main (sys P)).
Qed.

Lemma down_steps P P' : rtc proc_step P P' → http_down (stage P) = true → http_down (stage P') = true ∧ forced P' = forced P.
Proof.
  induction 1 as [|x y z Hxy _ IH]; [done|]. intros Hd. destruct (down_step x y Hxy Hd) as [Hy <-]. by apply IH.
Qed.

Lemma drained_nothing_left P :
  proc_inv P → http_down (stage P) = true → forced P = false → live (sys P) = [] ∧ nothing_left (server_of P).1.
Proof.
  intros Hi Hd Hf. destruct (pv_both _ Hi) as [_ Hv]. pose proof (pv_drained _ Hi Hd Hf) as [Ha _]%idle_spec.
  by apply (ended_nothing_left cfg (pr_router p) (live (sys P)) (server_of P).1 (requests P)).
Qed.

(** Nothing [main] does before [srv.Close] ends a stream: with a stream open the
    HTTP server stops only by force. *)
Theorem open_stream_forces_close P P' q :
  proc_step P P' → q ∈ requests P → streaming (at_pc q) = true →
  http_down (stage P) = false → http_down (stage P') = true → forced P' = true.
Proof.
  intros Hs Hq Hst Hd Hd'. unfold stage in *.
  destruct Hs as [P S' Hx Hc|P r w Hx Hr|P i q0 x q' g' w' Hx Hqi Hfr E1|P w Hx Hn Hrs|P ctx h' Hx Ht|P Hx Hsp|P Hx Hsp Hbc|P Hx|P Hx Hr
    |P late m L' h' Hx Hg E1|P Hx Hst']; simpl in *; try congruence.
  - apply core_call in Hc as [_ Em]. congruence.
  - unfold main_effect, main_guard, stage in *.
    apply main_next_stage in E1 as [[Em ->]|[[Em ->]|(? & _)]]; [done| |congruence]. rewrite Em in Hg |- *.
    destruct late; [done|]. cbn [orb] in Hg. apply idle_spec in Hg as [Hend _]. by rewrite (Hend q Hq) in Hst.
Qed.

(** Both sides of a run. *)
Lemma run_sides P P' :
  rtc proc_step P P' → proc_inv P →
  rtc (sys_step p InvalidationEventType) (sys P) (sys P') ∧ rtc (server_step cfg (pr_router p)) (server_of P) (server_of P').
Proof.
  induction 1 as [|x y z Hxy _ IH]; [done|]. intros Hx. destruct (step_sides x y Hxy (pv_both _ Hx)) as [Ha Hb].
  destruct (IH (proc_step_inv x y Hxy Hx)) as [Hc Hd]. split; by etrans.
Qed.
End process.
