(* ===== verification/Boot.v ===== *)
(** * From the command line to the end of the process

    The process of [Process.v] as [Startup.start] leaves it: the handlers'
    configuration, the router, the checkers and the key client of the started
    program.  The theorems follow a run from an accepted configuration to the
    exit. *)

From S2P Require Import Prelude GoStrings NetAddr Chan Frame Quota Client Shard Hub HubSpec HubBroadcast HubRevoke HubRun Router Aes Crypto Tlsconf HttpClient Json Bus Valkey Lanes Pipeline Auth ApiHttp Mux ApiHandlers Server Probes Health Logging Config Metrics ApiRouter System Startup Process.

Local Open Scope Z_scope.

(** [eventBus.Close()] was called. *)
Definition bus_closed_at (m : main_pc) : bool :=
  match m with MBusClosed | MUnwrapperClosed | MStopped => true | _ => false end.
Definition bus_is_closed (b : AppBus) : bool :=
  match b with ValkeyDriver b _ => vclosed b | MemoryDriver b _ => mb_closed b end.

Section boot.
Context (LookupEnv : gostring → option gostring) (ReadFile : gostring → option gostring).
Context {Float : Type} `{!GoZero Float} (ParseFloat : gostring → option Float) (f100 : Float) (positive_rate : Float → bool).
Context {Pool Cert : Type} (AppendCertsFromPEM : gostring → option Pool) (LoadX509KeyPair : gostring → gostring → option Cert).
Context (pem_decode : gostring → option gostring) (parse_pkix : gostring → option (option gostring)).
Context (parse_rsa_pem parse_ec_pem : gostring → option gostring) (valkey_NewClient : ClientOption → bool).
Context `{!Prometheus} {Limiter : Type} (production_build : bool).
(** The JWT parser, the key service and the URL parser of net/http *)
Context (parse : Z → VerifKey → ParserOpts → gostring → result JWTErr Token).
Context `{!GoRange} (service : HttpRequest → option HttpResponse) (url_ok : gostring → bool).

Abbreviation App := (@App Float _ Limiter).
Abbreviation start := (Startup.start LookupEnv ReadFile ParseFloat f100 positive_rate AppendCertsFromPEM LoadX509KeyPair
  pem_decode parse_pkix parse_rsa_pem parse_ec_pem valkey_NewClient (Limiter := Limiter) production_build).

(** ** The process of a started program *)

(** The ticket validator of the handlers. *)
Definition app_Validate (app : App) (now : Z) (raw : gostring) : result AuthErr Capability :=
  match app_validator app with
  | JWTDriver v => Auth.Validate parse now v raw
  | MockDriver m => mock_Validate now m raw
  end.

Definition app_handler (app : App) : HandlerConfig := hd_cfg (APIHandler (app_router app)).
Definition app_checkers (app : App) : list (option (Checker Deps)) := hd_checkers (APIHandler (app_router app)).

(** The dependencies at a stage of [main]: the drivers do not change, and only
    [main] closes the bus. *)
Definition app_deps (app : App) (m : main_pc) (d : Deps) : Prop :=
  dep_keys d = app_unwrapper app ∧ bus_Name (dep_bus d) = bus_Name (app_bus app) ∧ bus_is_closed (dep_bus d) = bus_closed_at m.

Definition boot_proc (app : App) (m : Mem) (t : Z) : Proc := start_proc (app_handler app) (boot app m) t.

Section run.
Context (app : App) `{!TicketValidator}.

Definition app_proc_step : Proc → Proc → Prop :=
  @proc_step _ (app_keys service url_ok app) _ (app_processor app) (InvalidationEventType (Config.Auth (app_cfg app)))
    (app_handler app) (StopAcceptingFirst (Shutdown (app_cfg app))) _ (app_checkers app) (app_deps app).
Definition started (now : Z) (random : gostring) : Prop :=
  start now random = Some (Ok app) ∧ (∀ now raw, validate_ticket now raw = app_Validate app now raw)
  ∧ Shards (Config.Hub (app_cfg app)) < 2 ^ 32 ∧ EventLanes (Config.Hub (app_cfg app)) < 2 ^ 32.

(** The validator of a started program keeps the promise of the interface. *)
Lemma app_tickets now random :
  start now random = Some (Ok app) → ∃ V : TicketValidator, ∀ now raw, @validate_ticket V now raw = app_Validate app now raw.
Proof.
  intros (_ & _ & Ev & _)%start_inversion. unfold app_Validate. destruct (app_validator app) as [v|mv].
  - by exists (jwt_validator parse v).
  - assert (mv = NewMockValidator now) as ->.
    { revert Ev. unfold init_validator, initMockValidator. repeat case_match; intros; by simplify_eq. }
    by exists {| validate_ticket := λ now' raw, mock_Validate now' (NewMockValidator now) raw;
                 validate_ticket_promise := λ now' raw c, mock_Validate_new now now' raw c |}.
Qed.

Lemma boot_inv now random m t :
  started now random → mem_wf m →
  proc_inv (app_processor app) (app_handler app) (StopAcceptingFirst (Shutdown (app_cfg app))) (app_checkers app) (app_deps app)
    (boot_proc app m t).
Proof.
  intros (Es & _ & Hs & Hn) Hm. apply start_proc_inv; [|done..]. by eapply boot_sys_inv in Es as [? _].
Qed.
Lemma boot_run_inv now random m t P :
  started now random → mem_wf m → rtc app_proc_step (boot_proc app m t) P →
  proc_inv (app_processor app) (app_handler app) (StopAcceptingFirst (Shutdown (app_cfg app))) (app_checkers app) (app_deps app) P.
Proof. intros Hst Hm Hrun. eapply (@proc_inv_steps _ (app_keys service url_ok app)); [exact Hrun|]. by eapply boot_inv. Qed.
Lemma boot_run_told now random m t P :
  started now random → mem_wf m → rtc app_proc_step (boot_proc app m t) P → hub_told (sys P).
Proof.
  intros Hst Hm Hrun. destruct (run_sides _ _ _ _ _ _ _ _ Hrun (boot_inv now random m t Hst Hm)) as [Hs _].
  apply (sys_steps_told _ _ _ _ Hs); [apply (boot_inv now random m t Hst Hm)|]. split; [|done]. by intros _ c ?%elem_of_nil.
Qed.

(** ** Theorems *)


(** C10: with [SSE_SHUTDOWN_STOP_ACCEPTING_FIRST], once the signal was handled no
    later request gets in: a stream request that arrives afterwards ends without
    ever holding a handshake slot, a ticket check or a connection, and a
    readiness request that arrives afterwards is only ever answered that the
    gateway is stopping, whatever happens next. *)
Theorem refused_after_signal now random m t P P' :
  started now random → mem_wf m → rtc app_proc_step (boot_proc app m t) P →
  StopAcceptingFirst (Shutdown (app_cfg app)) = true → stage P ≠ MServing → rtc app_proc_step P P' →
  (∀ i q, requests P' !! i = Some q → (length (requests P) ≤ i)%nat → at_pc q = PStart ∨ at_pc q = PEnd)
  ∧ (∀ i q, pcs (ready P') !! i = Some q → (length (pcs (ready P)) ≤ i)%nat → q = RStart ∨ q = RShut).
Proof.
  intros Hst Hm Hrun Hstop Hsg Hrun'. pose proof (boot_run_inv now random m t P Hst Hm Hrun) as Hi.
  eapply (refused_steps _ _ _ _ _ _ (length (requests P)) (length (pcs (ready P))) P P' Hstop Hi Hrun').
  split_and!; [done|..]; intros i q Hq%lookup_lt_Some; lia.
Qed.


End run.
End boot.

(** ** A start, a signal, a shutdown *)
Abbreviation DemoApp := (@Startup.App Z list_registry nat).
Abbreviation demo_started app V :=
  (started (Float := Z) (Pool := nat) (Cert := nat) (Limiter := nat) (H := list_registry) (H1 := V)
    demo_environment (λ _, None) (λ _, None) 100 (λ r, bool_decide (0 < r)) (λ _, None) (λ _ _, None)
    (λ _, None) (λ _, None) (λ _, None) (λ _, None) (λ _, true) true demo_parse app 0 (str "01234567")).
Abbreviation demo_step app V :=
  (@app_proc_step Z list_registry nat range_canonical (λ _, None) (λ _, true) app V).
Abbreviation demo_boot app := (boot_proc app (mem demo_pipe) 0).

Lemma demo_app : ∃ (app : DemoApp) V, demo_started app V ∧ StopAcceptingFirst (Shutdown (app_cfg app)) = true.
Proof.
  destruct demo_starts as (app & E & Hs & Hn & Hstop). pose proof E as Ev. eapply (app_tickets _ _ _ _ _ _ _ _ _ _ _ _ _ demo_parse) in Ev as [V HV].
  exists app, V. split; [|done]. split; [exact E|]. split; [exact HV|]. lia.
Qed.

(** The signal is handled, then a request arrives; or the server drains. *)
Definition demo_signalled (app : DemoApp) : Proc :=
  set_sys (set_main MRefusing [] (app_hub app) (boot app (mem demo_pipe)))
    (main_effect (StopAcceptingFirst (Shutdown (app_cfg app))) false (set_pending true (demo_boot app))).
Definition demo_late (app : DemoApp) : Proc := set_requests [mkReq demo_http PStart demo_writer] (demo_signalled app).
Definition demo_drained (app : DemoApp) : Proc :=
  set_sys (set_main MHttpDown [] (app_hub app) (sys (demo_signalled app))) (set_forced false (demo_signalled app)).

Lemma demo_requests app : requests (demo_signalled app) = [] ∧ pcs (ready (demo_signalled app)) = [] ∧ exit (demo_signalled app) = None.
Proof. unfold demo_signalled, main_effect. simpl. by destruct (StopAcceptingFirst _). Qed.

Lemma demo_signal app V : rtc (demo_step app V) (demo_boot app) (demo_signalled app).
Proof.
  eapply rtc_l; [by apply pr_signal|]. apply rtc_once. by apply pr_main.
Qed.
Lemma demo_arrives app V : rtc (demo_step app V) (demo_signalled app) (demo_late app).
Proof.
  destruct (demo_requests app) as (Hr & _ & Hx). unfold demo_late. apply rtc_once.
  replace [mkReq demo_http PStart demo_writer] with (requests (demo_signalled app) ++ [mkReq demo_http PStart demo_writer]) by (by rewrite Hr).
  apply pr_arrive; [done|]. by left.
Qed.
Lemma demo_drains app V : rtc (demo_step app V) (demo_signalled app) (demo_drained app).
Proof.
  destruct (demo_requests app) as (Hr & Hp & Hx). apply rtc_once.
  apply (pr_main _ _ _ _ _ _ (demo_signalled app) false MHttpDown [] (app_hub app)); [done| |done].
  unfold main_guard. change (stage (demo_signalled app)) with MRefusing. cbn [orb]. apply idle_spec. rewrite Hr, Hp.
  split; by intros q ?%elem_of_nil.
Qed.


Lemma refused_after_signal_witness :
  ∃ (app : DemoApp) V, demo_started app V
    ∧ ∀ i q, requests (demo_late app) !! i = Some q → at_pc q = PStart ∨ at_pc q = PEnd.
Proof.
  destruct demo_app as (app & V & Hst & Hstop). exists app, V. split; [exact Hst|]. intros i q Hq.
  refine (proj1 (refused_after_signal _ _ _ _ _ _ _ _ _ _ _ _ _ demo_parse (H0 := range_canonical) (λ _, None) (λ _, true) app (H1 := V) 0 (str "01234567")
    (mem demo_pipe) 0 (demo_signalled app) (demo_late app) Hst demo_pipe_wf (demo_signal app V) Hstop _ (demo_arrives app V)) i q Hq _).
  - discriminate.
  - rewrite (proj1 (demo_requests app)). simpl. lia.
Defined.



